(* ===== verification/_CoqProject ===== *)
-Q . S2P
Prelude.v
Raft.v
RaftLog.v
RaftNode.v
RaftVote.v
RaftReplicate.v
RaftLeader.v
RaftSnapshot.v
RaftProc.v
RaftTerm.v
RaftElection.v
RaftNet.v
RaftGhost.v
RaftNetInv.v
RaftNetSteps.v
RaftNetLead.v
RaftReach.v
RaftNetDisk.v
RaftSafety.v
RaftTheorems.v
Rsm.v
KVRaft.v
KVRaftProofs.v
KVSystem.v
KVTheorems.v
KVCluster.v
ShardCtrler.v
ConfigProofs.v
ConfigTheorems.v
CtrlerTheorems.v
ShardKV.v
ShardKVProofs.v
ShardSystem.v
ShardRun.v
ShardTheorems.v
MapReduce.v
MRWorker.v
MRSystem.v
MRInvariant.v
MRProgress.v
MRSequential.v
MRRun.v
MRTheorems.v
MRLoop.v
MRApps.v
MRTiming.v
Bitset.v
Porcupine.v
PorcupineList.v
PorcupineSearch.v
PorcupineHistory.v
PorcupineOps.v
PorcupineParallel.v
KVModel.v
KVModelProofs.v
PorcupineTheorems.v
Graph.v
Crawler.v
CrawlerMutex.v
CrawlerChannel.v
CrawlerTheorems.v
BinTree.v
Labgob.v
LabgobTheorems.v
Labrpc.v
LabrpcProofs.v
LabrpcTheorems.v
Harness.v
RaftConfig.v
RaftConfigNet.v
RaftConfigDisk.v
RaftConfigTheorems.v
RaftAgree.v
KVConfig.v
KVConfigTheorems.v
HarnessStats.v
CtrlerConfig.v
CtrlerConfigTheorems.v
ShardConfig.v
ShardConfigTheorems.v
