(* ===== verification/Prelude.v ===== *)
(** * A verification of the Go labs: Raft, its services, MapReduce and the checker

    ** The program and its parts

    The repository holds, under [src/src], a Raft library ([raft]), three replicated services on top
    of it (the key/value store [kvraft], the shard controller [shardctrler], the sharded store
    [shardkv]), a MapReduce framework ([mr], with the sequential program [main/mrsequential.go]) and a
    linearizability checker ([porcupine], with the key/value model [models/kv.go]).  Below and beside them
    are the RPC simulator [labrpc] and the encoder [labgob] every service sends its messages through, the
    test harnesses [config.go] that build clusters on the simulator, the plug-ins of MapReduce ([mrapps])
    and the exercises of [lab0].  A service calls
    [Start] and [Snapshot] of its peer and receives committed commands on [applyCh]; replica groups of
    [shardkv] read configurations from the controller and pull shards from one another; MapReduce
    workers ask a coordinator for tasks over RPC and meet it in the file system; the checker stands
    apart and judges histories of the services.

    ** How code becomes definitions

    A method that runs under a lock is one definition: a state transformer of the monad [M] below
    ([None] is a panic or a fatal exit, the list of effects is what it hands to other goroutines), or a
    function from a state to an optional state.  A method that releases its lock, or waits for a reply
    or a channel in between, is cut there; step relations put the pieces back together in every order
    the scheduler allows, with messages delayed, repeated or lost and processes crashing.  Integers are
    [Z]; 32- and 64-bit words wrap where the code computes with words.  Iteration over a Go map takes its
    order from the class [MapOrder]; [sort.Sort], which is not stable, is a class of sorting functions
    ([SortByKey], [SortByTime]); what [encoding/gob] writes is a class of codecs with a round-trip law; the
    clock, random numbers and the results of calls are arguments.  A goroutine that matters by itself (a
    call on the network, a crawler, a walker) has a program counter, and its pieces are the code between two
    points where it can be suspended.

    ** Files

    - [Prelude]: slices and their panics, the monad [M] and its weakest preconditions, counting loops,
      codecs, map orders, majorities; the shared tactics and hints.
    - [Raft]: the peer: [raft.go], [appendEntries.go], [election.go], [logCompaction.go], [apply.go],
      [persister.go].  [RaftLog], [RaftNode], [RaftVote], [RaftReplicate], [RaftLeader],
      [RaftSnapshot], [RaftTerm] prove what each method does; [RaftProc] is a peer with all its
      goroutines, [RaftElection] a cluster electing leaders; [RaftTheorems] states the results.
    - [RaftNet]: that cluster with the rest of the traffic, the goroutines of [appendEntries] with their
      RPCs in flight and the appliers with their channels, as one step relation; [RaftGhost]: the history of
      a run (votes, leaders and their logs, acknowledgements) and leader completeness for it; [RaftNetInv]:
      what peers and calls have to do with the history; [RaftNetSteps], [RaftNetLead]: the steps of
      followers and leaders keep that; [RaftReach]: so do all steps, and none panics; [RaftNetDisk]: disks and
      channels, and that what holds for all started entries holds for all entries; [RaftSafety] states the
      results.
    - [Rsm]: replicated state machines with duplicate tables; [KVRaft] ([kvraft]), [KVRaftProofs],
      [KVSystem], [KVTheorems]; [KVCluster]: [KVSystem]'s servers, with handlers, appliers, kills and
      restarts, on the peers and the network of [RaftNet]; [ShardCtrler] ([shardctrler]),
      [ConfigProofs], [ConfigTheorems], [CtrlerTheorems]: instances of it.
    - [ShardKV] ([shardkv]), [ShardKVProofs]; [ShardSystem]: many groups moving shards; [ShardRun],
      [ShardTheorems].
    - [MapReduce] ([mr]); [MRWorker]: what the worker's functions compute; [MRSystem]: coordinator,
      workers and files as one step relation with its invariant; [MRInvariant], [MRProgress]: every step
      keeps it, and progress is always possible; [MRSequential] ([main/mrsequential.go]); [MRRun]:
      executable schedules; [MRTheorems]; [MRLoop]: the worker's loop; [MRApps] ([mrapps]): the plug-ins, and
      what word count and indexer compute as jobs; [MRTiming]: the plug-ins [mtiming], [rtiming] and [jobcount],
      which measure parallelism and count runs.
    - [Bitset] and [Porcupine] ([porcupine]); [PorcupineList]: the doubly linked list; [PorcupineSearch]:
      the search; [PorcupineHistory], [PorcupineOps]: from histories to the search and to the textbook
      definition; [PorcupineParallel]: partitions and the visualization; [KVModel], [KVModelProofs]
      ([models/kv.go]); [PorcupineTheorems].
    - [Graph]: loops over lists, reachability and depth-first search; [Crawler] ([lab0/crawler.go]) with
      [CrawlerMutex], [CrawlerChannel], [CrawlerTheorems]; [BinTree] ([lab0/binarytree.go]); [Labgob]
      ([labgob/labgob.go]) with [LabgobTheorems].
    - [Labrpc] ([labrpc/labrpc.go]): the network's tables, name splitting, and a call as a sequence of
      steps of its goroutines, which [run] interleaves; [LabrpcProofs] relates a state to the events that
      led to it; [LabrpcTheorems].
    - [Harness]: loops the four harnesses share; [RaftConfig] ([raft/config.go]) with [RaftConfigNet] (its
      network), [RaftConfigDisk] (its persisters), [RaftConfigTheorems] and [RaftAgree] ([wait] and [one]);
      [KVConfig] ([kvraft/config.go]) with [KVConfigTheorems]; [CtrlerConfig] ([shardctrler/config.go]) with
      [CtrlerConfigTheorems]; [ShardConfig] ([shardkv/config.go]) with [ShardConfigTheorems]; [HarnessStats]: the
      statistics, time limits and random names of the Raft and key/value harnesses.

    ** What the theorems show

    - Raft: at most one leader per term across crashes and lost messages ([election_safety]), under the
      condition that no reply lowers a term, which [rollback_two_leaders] shows to be needed; every
      branch of the handlers; the leader commits the largest
      index of its term stored by a majority; peers stay well formed and do not panic, and restart with
      the term, vote and log they had.  For the whole replicating cluster, under the same condition and
      without log compaction: Log Matching, Leader Completeness, State Machine Safety, apply channels that are
      prefixes of one another, and no panic in anything that can run.
    - Key/value service: one list of commands explains all servers of a cluster at all times
      ([kv_cluster_one_history]), and none of their goroutines panics or blocks ([kv_cluster_never_panics]);
      commands take effect exactly once in log order, the applier never blocks, snapshots restore store and
      duplicate table, the client's loop returns the first decisive reply.
    - Shard controller: [Join] and [Leave] balance and move as little as promised, the history of
      configurations is append-only, and replicas agree whatever order their maps have.
    - Sharded store: one group serves a shard at a time, the groups together refine one store per shard
      while shards move, no command panics, retries are recognised after a handover.
    - MapReduce: a finished job has reduced every key once with all its values, and its files hold the
      lines of the sequential program; nothing fails or blocks; a job can always finish; a
      worker's loop makes steps of the job and quits when told to ([worker_loop_works]).  These hold when
      no report is handled between the two critical sections of [AssignTask] or while reduce tasks are
      generated ([quiet]); [mapreduce_map_task_lost] and [mapreduce_done_without_output] are runs of the
      code outside that condition.
    - Checker: [checkSingle] terminates and decides linearizability; the verdict of the parallel check
      does not depend on the order of results; splitting a history by key is sound and complete, so that
      [CheckOperations] with the key/value model decides linearizability of the whole store; a verbose
      result can always be drawn.
    - RPC simulator: a call that returns true had its handler run exactly once and its server still
      registered; no reply comes from a deleted server; a call waits for nothing but its handler.
    - Harnesses: the enabled ends are exactly those between connected servers, a restarted server finds
      what was stored for it whatever its predecessors still write, divergent logs are reported, an index
      returned by [one] is agreed on, partitions separate; and calls under which a harness panics.
    - Plug-ins: a finished word-count job holds the number of occurrences of every word, a finished
      indexer job the documents of every word; a timing worker counts itself and at most the workers that
      run ([nparallel_counts]), and the job count is the number of map runs ([jobcount_counts]).
    - Encoder and exercises: every lower-case field is reported once; the check for default values counts
      the non-zero scalars, and panics on unexported ones; the crawlers fetch every reachable page once
      and end; [Same] compares trees without deadlock.

    ** Fuel and bounds

    [rebalance] (the loop of [Join]) takes [joinFuel], 1200 iterations: every iteration lowers the
    measure [measure] (the squares of the groups' loads, and 102 for each shard without a group), which is
    at most 1020 for ten shards, so the fuel suffices.  The loops of [scanTerm] and [findLastLoop] count down an index and use it as
    fuel.  [reduceLoop] uses the length of its input, [nodeLength] the size of the heap.  The search of
    [checkSingle] takes fuel, and the theorems give a bound from which on more fuel changes nothing.  The
    clients' loops run over the list of results of their calls.  [Serial] and [checkType] take one more than
    the size of a set closed under links, or mentioned types, which is enough since every level marks a new
    member.  The counters of the network wrap at 32 and 64 bits.

    ** Not modelled

    - The bytes [encoding/gob] writes, and [reflect]: types and values are given as data.
    - The tests themselves; the command-line programs.
    - HTML output of the visualization; sockets, logging, sleeping.
    - Log compaction in the cluster theorems ([Snapshot], [InstallSnapshot] and [CondInstallSnapshot] are
      modelled and have theorems for one peer): [CondInstallSnapshot] keeps the suffix of the log behind the
      snapshot without comparing the entry at its index with [LastIncludedTerm], so after an installation the
      log of a follower need not be one that any leader had, which the history of [RaftGhost] records.
    - The services run on messages that are delayed, reordered or lost at will, which covers the network of
      [Labrpc] but is not stated as a refinement of it. *)
From stdpp Require Export gmap strings list sorting numbers relations.
From Stdlib Require Export Strings.Byte.

#[global] Set Default Goal Selector "!".
#[global] Open Scope Z_scope.

Declare Scope go_scope.
Delimit Scope go_scope with go.

(** ** Go integers and slices *)

(** [len(l)] as a Go [int]. *)
Abbreviation zlen l := (Z.of_nat (length l)).

(** [l[i]]: [None] is the run-time panic on an index out of range. *)
Definition index {A} (l : list A) (i : Z) : option A :=
  if (0 <=? i) then l !! Z.to_nat i else None.

(** [l[i:]] panics unless [0 <= i <= len(l)]. *)
Definition slice_from {A} (l : list A) (i : Z) : option (list A) :=
  if (0 <=? i) && (i <=? zlen l) then Some (drop (Z.to_nat i) l) else None.

(** [l[:i]], for [0 <= i <= len(l)] (a bound between [len] and [cap] would also be accepted by
    Go; the model treats it as the panic). *)
Definition slice_to {A} (l : list A) (i : Z) : option (list A) :=
  if (0 <=? i) && (i <=? zlen l) then Some (take (Z.to_nat i) l) else None.

(** [l[i:j]]. *)
Definition slice {A} (l : list A) (i j : Z) : option (list A) :=
  if (0 <=? i) && (i <=? j) && (j <=? zlen l)
  then Some (take (Z.to_nat (j - i)) (drop (Z.to_nat i) l)) else None.

(** [l[i] = x] panics out of range. *)
Definition set_index {A} (l : list A) (i : Z) (x : A) : option (list A) :=
  if (0 <=? i) && (i <? zlen l) then Some (<[Z.to_nat i := x]> l) else None.

(** The integers [a, a+1, ..., b-1] a [for i := a; i < b; i++] loop visits. *)
Definition zrange (a b : Z) : list Z := seqZ a (b - a).

(** ** The state, panic and effect monad

    A method with a pointer receiver becomes a state transformer; [None] is a run-time panic or a
    fatal exit; the list collects what the method hands to the rest of the program (goroutines it
    starts, timers it resets, messages it sends), in program order. *)
Definition M (St Ef A : Type) : Type := St → option (A * St * list Ef).

#[global] Instance M_ret {St Ef} : MRet (M St Ef) := λ A a s, Some (a, s, []).
#[global] Instance M_bind {St Ef} : MBind (M St Ef) := λ A B k m s,
  match m s with
  | Some (a, s', w) =>
      match k a s' with
      | Some (b, s'', w') => Some (b, s'', w ++ w')
      | None => None
      end
  | None => None
  end.

Section monad.
Context {St Ef : Type}.

Definition get : M St Ef St := λ s, Some (s, s, []).
Definition gets {A} (f : St → A) : M St Ef A := λ s, Some (f s, s, []).
Definition modify (f : St → St) : M St Ef unit := λ s, Some (tt, f s, []).
Definition emit (e : Ef) : M St Ef unit := λ s, Some (tt, s, [e]).
Definition panic {A} : M St Ef A := λ _, None.
Definition lift {A} (o : option A) : M St Ef A := λ s, (λ a, (a, s, [])) <$> o.
Definition when (b : bool) (m : M St Ef unit) : M St Ef unit := if b then m else mret tt.

(** [for _, x := range l { body }]. *)
Fixpoint for_each {A} (l : list A) (body : A → M St Ef unit) : M St Ef unit :=
  match l with
  | [] => mret tt
  | x :: l' => body x ;; for_each l' body
  end.

(** The state and the effects a run leaves; [None] when it panics. *)
Definition run_state {A} (m : M St Ef A) (s : St) : option St := (λ r, r.1.2) <$> m s.
Definition run_effects {A} (m : M St Ef A) (s : St) : option (list Ef) := (λ r, r.2) <$> m s.
Definition run_value {A} (m : M St Ef A) (s : St) : option A := (λ r, r.1.1) <$> m s.

(** *** Total-correctness triples

    [wp m Q s]: run from [s], [m] does not panic and ends with value, state and effects in [Q]. *)
Definition wp {A} (m : M St Ef A) (Q : A → St → list Ef → Prop) (s : St) : Prop :=
  match m s with
  | Some (a, s', w) => Q a s' w
  | None => False
  end.

Lemma wp_run {A} (m : M St Ef A) Q s a s' w :
  m s = Some (a, s', w) → wp m Q s → Q a s' w.
Proof. unfold wp. by intros ->. Qed.

Lemma wp_total {A} (m : M St Ef A) Q s :
  wp m Q s → ∃ a s' w, m s = Some (a, s', w) ∧ Q a s' w.
Proof. unfold wp. destruct (m s) as [[[a s'] w]|]; naive_solver. Qed.

Lemma wp_mono {A} (m : M St Ef A) (Q Q' : A → St → list Ef → Prop) s :
  wp m Q s → (∀ a s' w, Q a s' w → Q' a s' w) → wp m Q' s.
Proof. unfold wp. destruct (m s) as [[[a s'] w]|]; naive_solver. Qed.

Lemma wp_and {A} (m : M St Ef A) (Q Q' : A → St → list Ef → Prop) s :
  wp m Q s → wp m Q' s → wp m (λ a s' w, Q a s' w ∧ Q' a s' w) s.
Proof. unfold wp. destruct (m s) as [[[a s'] w]|]; naive_solver. Qed.

Lemma wp_ret {A} (a : A) (Q : A → St → list Ef → Prop) s : Q a s [] → wp (mret a) Q s.
Proof. done. Qed.

Lemma wp_bind {A B} (m : M St Ef A) (k : A → M St Ef B) Q s :
  wp m (λ a s' w, wp (k a) (λ b s'' w', Q b s'' (w ++ w')) s') s → wp (m ≫= k) Q s.
Proof.
  unfold wp, mbind, M_bind. destruct (m s) as [[[a s'] w]|]; [|done].
  by destruct (k a s') as [[[b s''] w']|].
Qed.

Lemma wp_get (Q : St → St → list Ef → Prop) s : Q s s [] → wp get Q s.
Proof. done. Qed.
Lemma wp_gets {A} (f : St → A) (Q : A → St → list Ef → Prop) s : Q (f s) s [] → wp (gets f) Q s.
Proof. done. Qed.
Lemma wp_modify f (Q : unit → St → list Ef → Prop) s : Q tt (f s) [] → wp (modify f) Q s.
Proof. done. Qed.
Lemma wp_emit e (Q : unit → St → list Ef → Prop) s : Q tt s [e] → wp (emit e) Q s.
Proof. done. Qed.
Lemma wp_lift {A} (o : option A) a (Q : A → St → list Ef → Prop) s :
  o = Some a → Q a s [] → wp (lift o) Q s.
Proof. by intros ->. Qed.
Lemma wp_when (b : bool) m (Q : unit → St → list Ef → Prop) s :
  (b = true → wp m Q s) → (b = false → Q tt s []) → wp (when b m) Q s.
Proof. destruct b; naive_solver. Qed.

(** *** Partial-correctness triples

    [wlp m Q s]: if [m] run from [s] does not panic, it ends in [Q]; for facts that hold whatever
    the arguments are. *)
Definition wlp {A} (m : M St Ef A) (Q : A → St → Prop) (s : St) : Prop :=
  ∀ a s' w, m s = Some (a, s', w) → Q a s'.

Lemma wlp_mono {A} (m : M St Ef A) (Q Q' : A → St → Prop) s :
  wlp m Q s → (∀ a s', Q a s' → Q' a s') → wlp m Q' s.
Proof. unfold wlp. eauto. Qed.
Lemma wlp_ret {A} (a : A) (Q : A → St → Prop) s : Q a s → wlp (mret a) Q s.
Proof. intros HQ ??? [=]. by subst. Qed.
Lemma wlp_bind {A B} (m : M St Ef A) (k : A → M St Ef B) Q s :
  wlp m (λ a s', wlp (k a) Q s') s → wlp (m ≫= k) Q s.
Proof.
  unfold wlp, mbind, M_bind. intros Hm b s'' w Hrun.
  destruct (m s) as [[[a s'] w']|] eqn:Hms; [|done].
  destruct (k a s') as [[[b' s3] w3]|] eqn:Hks; [|done]. simplify_eq. by eapply Hm.
Qed.
Lemma wlp_get (Q : St → St → Prop) s : Q s s → wlp get Q s.
Proof. intros HQ ??? [=]. by subst. Qed.
Lemma wlp_gets {A} (f : St → A) (Q : A → St → Prop) s : Q (f s) s → wlp (gets f) Q s.
Proof. intros HQ ??? [=]. by subst. Qed.
Lemma wlp_modify f (Q : unit → St → Prop) s : Q tt (f s) → wlp (modify f) Q s.
Proof. intros HQ ??? [=]. by subst. Qed.
Lemma wlp_emit e (Q : unit → St → Prop) s : Q tt s → wlp (emit e) Q s.
Proof. intros HQ ??? [=]. by subst. Qed.
Lemma wlp_lift {A} (o : option A) (Q : A → St → Prop) s :
  (∀ a, o = Some a → Q a s) → wlp (lift o) Q s.
Proof. intros HQ a s' w. unfold lift. destruct o; intros [=]. subst. auto. Qed.
Lemma wlp_when (b : bool) m (Q : unit → St → Prop) s :
  (b = true → wlp m Q s) → (b = false → Q tt s) → wlp (when b m) Q s.
Proof. destruct b; intros H1 H2; [auto|]. apply wlp_ret. auto. Qed.
Lemma wlp_for_each {A} (l : list A) body (I : St → Prop) s :
  I s → (∀ x s', I s' → wlp (body x) (λ _ s'', I s'') s') → wlp (for_each l body) (λ _ s', I s') s.
Proof.
  intros HI Hb. revert s HI. induction l as [|x l IH]; intros s HI; [by apply wlp_ret|].
  apply wlp_bind. eapply wlp_mono; [by apply Hb|]. intros [] s' HI'. by apply IH.
Qed.

(** A [for_each] loop keeps an invariant over the visited prefix. *)
Lemma wp_for_each {A} (l : list A) body (I : list A → St → list Ef → Prop) s w0 :
  I [] s w0 →
  (∀ pre x suf s' w, l = pre ++ x :: suf → I pre s' w →
     wp (body x) (λ _ s'' w', I (pre ++ [x]) s'' (w ++ w')) s') →
  wp (for_each l body) (λ _ s' w, I l s' (w0 ++ w)) s.
Proof.
  intros H0 Hstep.
  enough (∀ suf pre s w, l = pre ++ suf → I pre s w →
    wp (for_each suf body) (λ _ s' w', I l s' (w ++ w')) s) as Hgen by by apply (Hgen l []).
  induction suf as [|x suf IH]; intros pre s1 w1 Hl HI; cbn [for_each].
  - apply wp_ret. rewrite app_nil_r in Hl. subst. by rewrite app_nil_r.
  - apply wp_bind. eapply wp_mono; [by eapply Hstep|].
    intros [] s2 w2 HI2. eapply wp_mono; [apply (IH (pre ++ [x])); [|exact HI2]|].
    + by rewrite <-app_assoc.
    + intros [] s3 w3. by rewrite (assoc_L (++)).
Qed.
End monad.

#[global] Arguments M_ret : simpl never.
#[global] Arguments M_bind : simpl never.

(** Peels the head of a monadic term in a [wp] goal. *)
Ltac wp_step :=
  lazymatch goal with
  | |- wp (mbind _ _) _ _ => apply wp_bind
  | |- wp (mret _) _ _ => apply wp_ret
  | |- wp get _ _ => apply wp_get
  | |- wp (gets _) _ _ => apply wp_gets
  | |- wp (modify _) _ _ => apply wp_modify
  | |- wp (emit _) _ _ => apply wp_emit
  | |- wp (when _ _) _ _ => let H := fresh "Hwhen" in apply wp_when; intros H
  | |- wp (if ?b then _ else _) _ _ => let H := fresh "Hif" in destruct b eqn:H
  end; cbn beta.
Ltac wp_steps := repeat wp_step.

(** The same for [wlp] goals; [lift] introduces the value it reads. *)
Ltac wlp_step :=
  lazymatch goal with
  | |- wlp (mbind _ _) _ _ => apply wlp_bind
  | |- wlp (mret _) _ _ => apply wlp_ret
  | |- wlp get _ _ => apply wlp_get
  | |- wlp (gets _) _ _ => apply wlp_gets
  | |- wlp (modify _) _ _ => apply wlp_modify
  | |- wlp (emit _) _ _ => apply wlp_emit
  | |- wlp (lift _) _ _ =>
      let a := fresh "a" in let H := fresh "Hlift" in apply wlp_lift; intros a H
  | |- wlp (when _ _) _ _ => let H := fresh "Hwhen" in apply wlp_when; intros H
  | |- wlp (if ?b then _ else _) _ _ => let H := fresh "Hif" in destruct b eqn:H
  end; cbn beta.
Ltac wlp_steps := repeat wlp_step.

(** ** Lemmas on slices *)
Section slices.
Context {A : Type}.
Implicit Types (l : list A) (i j : Z) (x : A).

Lemma index_Some l i x : index l i = Some x ↔ 0 ≤ i ∧ l !! Z.to_nat i = Some x.
Proof. unfold index. case_match; naive_solver lia. Qed.

Lemma index_lt_Some l i x : index l i = Some x → 0 ≤ i < zlen l.
Proof. rewrite index_Some. intros [? ?%lookup_lt_Some]. lia. Qed.

Lemma index_is_Some l i : is_Some (index l i) ↔ 0 ≤ i < zlen l.
Proof.
  split; [intros [x Hx]; by eapply index_lt_Some|]. intros [? ?]. unfold index.
  case_match; [|lia]. apply lookup_lt_is_Some. lia.
Qed.

Lemma index_total l i : 0 ≤ i < zlen l → ∃ x, index l i = Some x.
Proof. intros ?. by apply index_is_Some. Qed.

Lemma index_cons_0 l x : index (x :: l) 0 = Some x.
Proof. reflexivity. Qed.

Lemma slice_from_Some l i : 0 ≤ i ≤ zlen l → slice_from l i = Some (drop (Z.to_nat i) l).
Proof. intros ?. unfold slice_from. case_match; [done|]. lia. Qed.

Lemma slice_to_Some l i : 0 ≤ i ≤ zlen l → slice_to l i = Some (take (Z.to_nat i) l).
Proof. intros ?. unfold slice_to. case_match; [done|]. lia. Qed.

Lemma slice_Some l i j :
  0 ≤ i → i ≤ j → j ≤ zlen l → slice l i j = Some (take (Z.to_nat (j - i)) (drop (Z.to_nat i) l)).
Proof. intros. unfold slice. case_match; [done|]. lia. Qed.

Lemma set_index_Some l i x : 0 ≤ i < zlen l → set_index l i x = Some (<[Z.to_nat i := x]> l).
Proof. intros ?. unfold set_index. case_match; [done|]. lia. Qed.

Lemma index_insert l i j x :
  0 ≤ i < zlen l → 0 ≤ j → index (<[Z.to_nat i := x]> l) j = if decide (i = j) then Some x else index l j.
Proof.
  intros ? ?. unfold index. destruct (0 <=? j) eqn:?; [|lia]. case_decide as Hij; subst.
  - apply list_lookup_insert_eq. lia.
  - apply list_lookup_insert_ne. lia.
Qed.

Lemma index_app_l l l' i : i < zlen l → index (l ++ l') i = index l i.
Proof.
  intros ?. unfold index. case_match; [|done]. apply lookup_app_l. lia.
Qed.

Lemma index_app_r l l' i : zlen l ≤ i → index (l ++ l') i = index l' (i - zlen l).
Proof.
  intros ?. unfold index. repeat case_match; [|lia|lia|done].
  rewrite lookup_app_r by lia. f_equal. lia.
Qed.

Lemma index_take l i j : j < i → index (take (Z.to_nat i) l) j = index l j.
Proof.
  intros ?. unfold index. case_match; [|done]. apply lookup_take_lt. lia.
Qed.

Lemma index_drop l i j : 0 ≤ i → 0 ≤ j → index (drop (Z.to_nat i) l) j = index l (i + j).
Proof.
  intros ? ?. unfold index. repeat case_match; try lia. rewrite lookup_drop. f_equal. lia.
Qed.

Lemma list_index_eq l l' : zlen l = zlen l' → (∀ i, 0 ≤ i < zlen l → index l i = index l' i) → l = l'.
Proof.
  intros Hlen Heq. apply list_eq. intros n. destruct (decide (n < length l)%nat) as [Hn|Hn].
  - specialize (Heq (Z.of_nat n)). unfold index in Heq.
    destruct (0 <=? Z.of_nat n) eqn:?; [|lia]. rewrite Nat2Z.id in Heq. apply Heq. lia.
  - rewrite !lookup_ge_None_2 by lia. done.
Qed.

End slices.

(** ** Filtering *)
Section filters.
Context {A : Type} (P Q : A → Prop) `{∀ x, Decision (P x)} `{∀ x, Decision (Q x)}.
Implicit Types l : list A.

Lemma filter_in l : (∀ x, x ∈ l → P x ↔ Q x) → filter P l = filter Q l.
Proof.
  induction l as [|x l IH]; intros Hl; [done|]. rewrite !filter_cons, IH by set_solver.
  destruct (decide (P x)), (decide (Q x)); set_solver.
Qed.
Lemma filter_keep l : (∀ x, x ∈ l → P x) → filter P l = l.
Proof. induction l as [|x l IH]; intros Hl; [done|]. rewrite filter_cons, decide_True, IH; [done|set_solver..]. Qed.
Lemma filter_drop l : (∀ x, x ∈ l → ~ P x) → filter P l = [].
Proof. induction l as [|x l IH]; intros Hl; [done|]. rewrite filter_cons, decide_False, IH; [done|set_solver..]. Qed.
End filters.

(** ** Counting loops *)
Lemma elem_of_zrange (a b i : Z) : i ∈ zrange a b ↔ a ≤ i < b.
Proof. unfold zrange. rewrite elem_of_seqZ. lia. Qed.

Lemma zrange_nil a b : b ≤ a → zrange a b = [].
Proof. intros ?. unfold zrange. apply seqZ_nil. lia. Qed.

Lemma zrange_snoc a b : a ≤ b → zrange a (b + 1) = zrange a b ++ [b].
Proof.
  intros ?. unfold zrange. replace (b + 1 - a) with ((b - a) + 1) by lia.
  rewrite seqZ_app by lia. f_equal. replace (a + (b - a)) with b by lia. done.
Qed.

Lemma zrange_cons a b : a < b → zrange a b = a :: zrange (a + 1) b.
Proof.
  intros ?. unfold zrange. rewrite seqZ_cons by lia.
  replace (Z.succ a) with (a + 1) by lia. f_equal. f_equal. lia.
Qed.

(** At element [x] of a counting loop the visited part is [a .. x-1]. *)
Lemma zrange_split a b pre x suf :
  zrange a b = pre ++ x :: suf → a ≤ x < b ∧ pre = zrange a x.
Proof.
  intros Hs. assert (zrange a b !! length pre = Some x) as Hx by by rewrite Hs, list_lookup_middle.
  unfold zrange in *. apply lookup_seqZ in Hx as [Hx Hlt]. split; [lia|].
  replace (b - a) with (zlen pre + (b - a - zlen pre)) in Hs by lia.
  rewrite seqZ_app in Hs by lia. apply app_inj_1 in Hs as [<- _]; [|rewrite length_seqZ; lia].
  f_equal. lia.
Qed.

Lemma NoDup_zrange a b : NoDup (zrange a b).
Proof. apply NoDup_seqZ. Qed.

(** ** Byte codecs

    [encoding/gob] is outside the repository: a value is written to bytes and read back.  What the
    code relies on is that reading what was written gives the value again, and that a message is
    never empty. *)
Class Codec (T : Type) := {
  gob_encode : T → list byte;
  gob_decode : list byte → option T;
}.
Class CodecLaws (T : Type) `{Codec T} := {
  gob_roundtrip x : gob_decode (gob_encode x) = Some x;
  gob_nonempty x : gob_encode x ≠ [];
}.

(** A codec for every countable type, which shows that the laws can hold. *)
Fixpoint pos_bytes (p : positive) : list byte :=
  match p with
  | xH => [x02]
  | xO p => x00 :: pos_bytes p
  | xI p => x01 :: pos_bytes p
  end.
Fixpoint bytes_pos (l : list byte) : option positive :=
  match l with
  | [] => None
  | x00 :: l => xO <$> bytes_pos l
  | x01 :: l => xI <$> bytes_pos l
  | _ => Some xH
  end.

Lemma bytes_pos_bytes p : bytes_pos (pos_bytes p) = Some p.
Proof. induction p as [p IH|p IH|]; simpl; by rewrite ?IH. Qed.

Definition countable_codec (T : Type) `{Countable T} : Codec T :=
  {| gob_encode x := pos_bytes (encode x); gob_decode l := bytes_pos l ≫= decode |}.

Lemma countable_codec_laws (T : Type) `{Countable T} : @CodecLaws T (countable_codec T).
Proof.
  split; intros x; simpl.
  - rewrite bytes_pos_bytes. simpl. apply decode_encode.
  - destruct (encode x); done.
Qed.

(** ** Iteration over maps

    [for k, v := range m] visits a Go map in an unspecified order: some listing of it. *)
Class MapOrder := {
  map_order {K} `{Countable K} {V} : gmap K V → list (K * V);
  map_order_perm {K} `{Countable K} {V} (m : gmap K V) : map_order m ≡ₚ map_to_list m;
}.

(** The order stdpp lists maps in. *)
#[global] Instance list_order : MapOrder :=
  {| map_order K _ _ V m := map_to_list m; map_order_perm K _ _ V m := reflexivity _ |}.

Section listings.
Context {K : Type} `{Countable K} {V W : Type}.
Implicit Types (l : list (K * V)).

(** Inserting the entries of a listing one by one. *)
Lemma foldl_insert (f : V → W) l (m0 : gmap K W) :
  NoDup l.*1 →
  foldl (λ m '(k, v), <[k := f v]> m) m0 l = (f <$> (list_to_map l : gmap K V)) ∪ m0.
Proof.
  revert m0. induction l as [|[k v] l IH]; simpl; intros m0 Hnd.
  - by rewrite fmap_empty, (left_id_L ∅ (∪)).
  - apply NoDup_cons in Hnd as [Hk Hnd]. rewrite IH by done. rewrite fmap_insert.
    rewrite <-insert_union_l, insert_union_r; [done|].
    rewrite lookup_fmap, not_elem_of_list_to_map_1 by done. done.
Qed.

Lemma listing_NoDup l (m : gmap K V) : l ≡ₚ map_to_list m → NoDup l.*1.
Proof. intros ->. apply NoDup_fst_map_to_list. Qed.

Lemma listing_map l (m : gmap K V) : l ≡ₚ map_to_list m → list_to_map l = m.
Proof.
  intros Hl. rewrite <-(list_to_map_to_list m). apply list_to_map_proper; [|done].
  by eapply listing_NoDup.
Qed.
End listings.

(** ** Quorums *)

(** Two majorities of the same [n] peers meet. *)
Lemma quorum_intersect (n : Z) (U X Y : gset Z) :
  Z.of_nat (size U) ≤ n → X ⊆ U → Y ⊆ U →
  Z.of_nat (size X) > n / 2 → Z.of_nat (size Y) > n / 2 → ∃ v, v ∈ X ∧ v ∈ Y.
Proof.
  intros HU HX HY Hx Hy.
  destruct (decide (X ∩ Y = ∅)) as [He|Hne].
  - exfalso. assert (size (X ∪ Y) = (size X + size Y)%nat) as Hs
      by (apply size_union; set_solver).
    assert (size (X ∪ Y) ≤ size U)%nat by (apply subseteq_size; set_solver).
    assert (n < 2 * (n / 2 + 1)) by (pose proof (Z.div_mod n 2); pose proof (Z.mod_pos_bound n 2); lia).
    lia.
  - apply set_choose_L in Hne as [v Hv]. exists v. set_solver.
Qed.

(** The peers [0 .. n-1] as a set. *)
Definition peer_set (n : Z) : gset Z := list_to_set (zrange 0 n).

Lemma elem_of_peer_set n i : i ∈ peer_set n ↔ 0 ≤ i < n.
Proof. unfold peer_set. rewrite elem_of_list_to_set, elem_of_zrange. done. Qed.

Lemma size_peer_set n : 0 ≤ n → Z.of_nat (size (peer_set n)) = n.
Proof.
  intros ?. unfold peer_set. rewrite size_list_to_set by apply NoDup_zrange.
  unfold zrange. rewrite length_seqZ. lia.
Qed.

(** ** Hints *)
Create HintDb go.
#[export] Hint Resolve NoDup_zrange : go.
#[export] Hint Extern 4 (_ ≤ _) => lia : go.
#[export] Hint Extern 4 (_ < _) => lia : go.

(** ** Step relations: invariants and measures *)

Lemma rtc_preserve {A} (R : relation A) (P : A → Prop) x y :
  (∀ a b, P a → R a b → P b) → P x → rtc R x y → P y.
Proof. intros Hstep Hx Hr. induction Hr; eauto. Qed.

(** A measure that every step from an invariant state decreases bounds the length of every run. *)
Lemma nsteps_measure {A} (R : relation A) (P : A → Prop) (m : A → nat) n x y :
  (∀ a b, P a → R a b → P b) → (∀ a b, P a → R a b → (m b < m a)%nat) →
  P x → nsteps R n x y → (n + m y ≤ m x)%nat.
Proof.
  intros Hp Hm Hx Hr. induction Hr as [|n x y z Hxy Hr IH]; [lia|].
  pose proof (Hm x y Hx Hxy). specialize (IH (Hp _ _ Hx Hxy)). lia.
Qed.
