(* ===== verification/Raft.v ===== *)
(** * One Raft peer (src/src/raft)

    The data of [raft.go], [appendEntries.go], [logCompaction.go] and [persister.go], and every
    method of [*Raft] as a state transformer of the monad [M].  A method body that runs under
    [rf.mu] is one definition; what it starts or signals (goroutines with their RPC arguments,
    timer resets, the condition variable, messages for [applyCh]) is its list of effects.  A
    method that waits for an RPC reply in the middle takes the outcome of the call as an argument:
    [None] when [Call] returns false. *)
From S2P Require Import Prelude.

(** ** Data *)
Section types.
Context (Cmd : Type).

(** [type Entry struct]; the [interface{}] command is nil or a value of the service's type. *)
Record Entry := mkEntry { Index : Z; Term : Z; Command : option Cmd }.

Record ApplyMsg := mkApplyMsg {
  CommandValid : bool;
  ACommand : option Cmd;
  CommandIndex : Z;
  CommandTerm : Z;
  SnapshotValid : bool;
  Snap : list byte;
  SnapshotTerm : Z;
  SnapshotIndex : Z;
}.

Record RequestVoteArgs := mkRVArgs {
  rv_Term : Z;
  rv_CandidateId : Z;
  rv_LastLogIndex : Z;
  rv_LastLogTerm : Z;
}.

Record RequestVoteReply := mkRVReply { rvr_Term : Z; rvr_VoteGranted : bool }.

Record AppendEntriesArgs := mkAEArgs {
  ae_Term : Z;
  ae_LeaderId : Z;
  ae_PrevLogIndex : Z;
  ae_PrevLogTerm : Z;
  ae_Entries : list Entry;
  ae_LeaderCommit : Z;
}.

Record AppendEntriesReply := mkAEReply {
  aer_Term : Z;
  aer_Success : bool;
  aer_Conflict : bool;
  aer_XTerm : Z;
  aer_XIndex : Z;
  aer_XLen : Z;
}.

Record InstallSnapshotArgs := mkISArgs {
  is_Term : Z;
  is_LastIncludedIndex : Z;
  is_LastIncludedTerm : Z;
  is_Data : list byte;
}.

Record InstallSnapshotReply := mkISReply { isr_Term : Z; isr_Installed : bool }.

Record Persister := mkPersister { raftstate : list byte; snapshot : list byte }.

Inductive Role := FOLLOWER | LEADER | CANDIDATE.

(** [type Raft struct]; [peers] is known by its length, the mutex, the channel and the timers show
    as effects. *)
Record Raft := mkRaft {
  npeers : Z;
  persister : Persister;
  me : Z;
  dead : Z;
  role : Role;
  currentTerm : Z;
  votedFor : Z;
  logs : list Entry;
  commitIndex : Z;
  LastApplied : Z;
  nextIndex : list Z;
  matchIndex : list Z;
}.

(** What a method leaves behind for the rest of the program. *)
Inductive Effect :=
| GoRequestVote (peer : Z) (args : RequestVoteArgs)
| GoAppendEntries (peer : Z) (args : AppendEntriesArgs)
| GoInstallSnapshot (peer : Z) (args : InstallSnapshotArgs)
| ResetElectionTimer
| ResetHeartbeatTimer
| ApplyBroadcast
| SendApplyCh (msg : ApplyMsg).

(** The variables the goroutines of one [StartElection] share. *)
Record Election := mkElection {
  el_args : RequestVoteArgs;
  el_granted : Z;
  el_once : bool;
}.
End types.

#[global] Arguments mkEntry {Cmd}.
#[global] Arguments Index {Cmd}.
#[global] Arguments Term {Cmd}.
#[global] Arguments Command {Cmd}.
#[global] Arguments mkApplyMsg {Cmd}.
#[global] Arguments CommandValid {Cmd}.
#[global] Arguments ACommand {Cmd}.
#[global] Arguments CommandIndex {Cmd}.
#[global] Arguments CommandTerm {Cmd}.
#[global] Arguments SnapshotValid {Cmd}.
#[global] Arguments Snap {Cmd}.
#[global] Arguments SnapshotTerm {Cmd}.
#[global] Arguments SnapshotIndex {Cmd}.
#[global] Arguments mkAEArgs {Cmd}.
#[global] Arguments ae_Term {Cmd}.
#[global] Arguments ae_LeaderId {Cmd}.
#[global] Arguments ae_PrevLogIndex {Cmd}.
#[global] Arguments ae_PrevLogTerm {Cmd}.
#[global] Arguments ae_Entries {Cmd}.
#[global] Arguments ae_LeaderCommit {Cmd}.
#[global] Arguments mkRaft {Cmd}.
#[global] Arguments npeers {Cmd}.
#[global] Arguments persister {Cmd}.
#[global] Arguments me {Cmd}.
#[global] Arguments dead {Cmd}.
#[global] Arguments role {Cmd}.
#[global] Arguments currentTerm {Cmd}.
#[global] Arguments votedFor {Cmd}.
#[global] Arguments logs {Cmd}.
#[global] Arguments commitIndex {Cmd}.
#[global] Arguments LastApplied {Cmd}.
#[global] Arguments nextIndex {Cmd}.
#[global] Arguments matchIndex {Cmd}.
#[global] Arguments GoRequestVote {Cmd}.
#[global] Arguments GoAppendEntries {Cmd}.
#[global] Arguments GoInstallSnapshot {Cmd}.
#[global] Arguments ResetElectionTimer {Cmd}.
#[global] Arguments ResetHeartbeatTimer {Cmd}.
#[global] Arguments ApplyBroadcast {Cmd}.
#[global] Arguments SendApplyCh {Cmd}.

#[global] Instance Role_eq_dec : EqDecision Role.
Proof. solve_decision. Defined.

#[global] Instance Entry_eq_dec {Cmd} `{EqDecision Cmd} : EqDecision (Entry Cmd).
Proof. solve_decision. Defined.

(** Countable entries; [entry_countable] is for runs that are evaluated, the instance is opaque. *)
Definition entry_countable {Cmd} `{Countable Cmd} : Countable (Entry Cmd).
Proof.
  refine (inj_countable' (λ e, (Index e, Term e, Command e))
    (λ p, mkEntry p.1.1 p.1.2 p.2) _). by intros [].
Defined.
#[global] Instance Entry_countable {Cmd} `{Countable Cmd} : Countable (Entry Cmd).
Proof. exact entry_countable. Qed.

(** The durable part of a peer: what [encodeRaftState] writes and [readPersist] reads. *)
Abbreviation hard_state Cmd := (Z * Z * list (Entry Cmd))%type.

(** ** [util.go] and [persister.go] *)

Definition min (a b : Z) : Z := if b <? a then b else a.
Definition max (a b : Z) : Z := if b <? a then a else b.

Definition MakePersister : Persister := mkPersister [] [].

(** [make([]byte, len(orig))] filled by [copy]. *)
Definition clone (orig : list byte) : list byte := take (length orig) orig.

Definition Copy (ps : Persister) : Persister := mkPersister (raftstate ps) (snapshot ps).
Definition SaveRaftState (ps : Persister) (state : list byte) : Persister :=
  mkPersister (clone state) (snapshot ps).
Definition ReadRaftState (ps : Persister) : list byte := clone (raftstate ps).
Definition RaftStateSize (ps : Persister) : Z := zlen (raftstate ps).
Definition SaveStateAndSnapshot (ps : Persister) (state snap : list byte) : Persister :=
  mkPersister (clone state) (clone snap).
Definition ReadSnapshot (ps : Persister) : list byte := clone (snapshot ps).
Definition SnapshotSize (ps : Persister) : Z := zlen (snapshot ps).

(** ** Field updates *)
Section updates.
Context {Cmd : Type}.
Implicit Types rf : Raft Cmd.

Definition set_persister (p : Persister) rf : Raft Cmd :=
  mkRaft (npeers rf) p (me rf) (dead rf) (role rf) (currentTerm rf) (votedFor rf) (logs rf)
    (commitIndex rf) (LastApplied rf) (nextIndex rf) (matchIndex rf).
Definition set_dead (d : Z) rf : Raft Cmd :=
  mkRaft (npeers rf) (persister rf) (me rf) d (role rf) (currentTerm rf) (votedFor rf) (logs rf)
    (commitIndex rf) (LastApplied rf) (nextIndex rf) (matchIndex rf).
Definition set_role (r : Role) rf : Raft Cmd :=
  mkRaft (npeers rf) (persister rf) (me rf) (dead rf) r (currentTerm rf) (votedFor rf) (logs rf)
    (commitIndex rf) (LastApplied rf) (nextIndex rf) (matchIndex rf).
Definition set_currentTerm (t : Z) rf : Raft Cmd :=
  mkRaft (npeers rf) (persister rf) (me rf) (dead rf) (role rf) t (votedFor rf) (logs rf)
    (commitIndex rf) (LastApplied rf) (nextIndex rf) (matchIndex rf).
Definition set_votedFor (v : Z) rf : Raft Cmd :=
  mkRaft (npeers rf) (persister rf) (me rf) (dead rf) (role rf) (currentTerm rf) v (logs rf)
    (commitIndex rf) (LastApplied rf) (nextIndex rf) (matchIndex rf).
Definition set_logs (l : list (Entry Cmd)) rf : Raft Cmd :=
  mkRaft (npeers rf) (persister rf) (me rf) (dead rf) (role rf) (currentTerm rf) (votedFor rf) l
    (commitIndex rf) (LastApplied rf) (nextIndex rf) (matchIndex rf).
Definition set_commitIndex (c : Z) rf : Raft Cmd :=
  mkRaft (npeers rf) (persister rf) (me rf) (dead rf) (role rf) (currentTerm rf) (votedFor rf)
    (logs rf) c (LastApplied rf) (nextIndex rf) (matchIndex rf).
Definition set_LastApplied (a : Z) rf : Raft Cmd :=
  mkRaft (npeers rf) (persister rf) (me rf) (dead rf) (role rf) (currentTerm rf) (votedFor rf)
    (logs rf) (commitIndex rf) a (nextIndex rf) (matchIndex rf).
Definition set_nextIndex (l : list Z) rf : Raft Cmd :=
  mkRaft (npeers rf) (persister rf) (me rf) (dead rf) (role rf) (currentTerm rf) (votedFor rf)
    (logs rf) (commitIndex rf) (LastApplied rf) l (matchIndex rf).
Definition set_matchIndex (l : list Z) rf : Raft Cmd :=
  mkRaft (npeers rf) (persister rf) (me rf) (dead rf) (role rf) (currentTerm rf) (votedFor rf)
    (logs rf) (commitIndex rf) (LastApplied rf) (nextIndex rf) l.
End updates.

(** ** Methods *)
Section methods.
Context {Cmd : Type} `{Codec (hard_state Cmd)}.

Abbreviation RM := (M (Raft Cmd) (Effect Cmd)).
Implicit Types rf : Raft Cmd.

Definition GetState : RM (Z * bool) :=
  gets (λ rf, (currentTerm rf, bool_decide (role rf = LEADER))).
Definition Who : RM Z := gets me.
Definition GetRaftStateSize : RM Z := gets (λ rf, RaftStateSize (persister rf)).
Definition Kill : RM unit := modify (set_dead 1).
Definition killed : RM bool := gets (λ rf, dead rf =? 1).

(** [&rf.logs[len(rf.logs)-1]] and [&rf.logs[0]]. *)
Definition getLastLog : RM (Entry Cmd) :=
  rf ← get; lift (index (logs rf) (zlen (logs rf) - 1)).
Definition getFirstLog : RM (Entry Cmd) :=
  rf ← get; lift (index (logs rf) 0).
(** [rf.logs[i]]. *)
Definition logAt (i : Z) : RM (Entry Cmd) := rf ← get; lift (index (logs rf) i).

Definition HasLogInCurrentTerm : RM bool :=
  lastLog ← getLastLog; rf ← get; mret (Term lastLog =? currentTerm rf).

Definition encodeRaftState rf : list byte := gob_encode (currentTerm rf, votedFor rf, logs rf).

Definition persist : RM unit :=
  modify (λ rf, set_persister (SaveRaftState (persister rf) (encodeRaftState rf)) rf).

(** [log.Fatal] on undecodable data is the panic. *)
Definition readPersist (data : list byte) : RM unit :=
  match data with
  | [] => mret tt
  | _ =>
      '(t, v, l) ← lift (gob_decode data);
      modify (set_currentTerm t) ;;
      modify (set_votedFor v) ;;
      modify (set_logs l) ;;
      first ← getFirstLog;
      modify (set_LastApplied (Index first)) ;;
      modify (set_commitIndex (Index first))
  end.

Definition setNewTerm (term : Z) : RM unit :=
  modify (set_currentTerm term) ;;
  modify (set_role FOLLOWER) ;;
  modify (set_votedFor (-1)) ;;
  persist.

Definition apply : RM unit := emit ApplyBroadcast.

(** [append([]Entry{}, logs...)]. *)
Definition logCompact (l : list (Entry Cmd)) : list (Entry Cmd) := [] ++ l.

(** [rf.logs[0].Command = nil] and the like: the first entry is updated in place. *)
Definition update_first (f : Entry Cmd → Entry Cmd) : RM unit :=
  first ← getFirstLog;
  rf ← get;
  l ← lift (set_index (logs rf) 0 (f first));
  modify (set_logs l).

Definition saveStateAndSnapshot (snap : list byte) : RM unit :=
  modify (λ rf, set_persister (SaveStateAndSnapshot (persister rf) (encodeRaftState rf) snap) rf).

Definition CondInstallSnapshot (lastIncludedTerm lastIncludedIndex : Z) (snap : list byte) : RM bool :=
  rf ← get;
  if lastIncludedIndex <=? commitIndex rf then mret false else
  lastLog ← getLastLog;
  (if Index lastLog <? lastIncludedIndex
   then modify (set_logs [mkEntry 0 0 None])
   else
     first ← getFirstLog;
     l ← lift (slice_from (logs rf) (lastIncludedIndex - Index first));
     modify (set_logs (logCompact l)) ;;
     update_first (λ e, mkEntry (Index e) (Term e) None)) ;;
  update_first (λ e, mkEntry (Index e) lastIncludedTerm (Command e)) ;;
  update_first (λ e, mkEntry lastIncludedIndex (Term e) (Command e)) ;;
  modify (set_LastApplied lastIncludedIndex) ;;
  modify (set_commitIndex lastIncludedIndex) ;;
  saveStateAndSnapshot snap ;;
  mret true.

Definition Snapshot (idx : Z) (snap : list byte) : RM unit :=
  first ← getFirstLog;
  let snapshotIndex := Index first in
  if idx <=? snapshotIndex then mret tt else
  rf ← get;
  l ← lift (slice_from (logs rf) (idx - snapshotIndex));
  modify (set_logs (logCompact l)) ;;
  update_first (λ e, mkEntry (Index e) (Term e) None) ;;
  saveStateAndSnapshot snap.

Definition RequestVote (args : RequestVoteArgs) : RM RequestVoteReply :=
  rf ← get;
  if (rv_Term args <? currentTerm rf) ||
     ((rv_Term args =? currentTerm rf) && negb (votedFor rf =? -1)
        && negb (votedFor rf =? rv_CandidateId args))
  then mret (mkRVReply (currentTerm rf) false) else
  when (currentTerm rf <? rv_Term args) (setNewTerm (rv_Term args)) ;;
  lastLog ← getLastLog;
  let upToDate := (Term lastLog <? rv_LastLogTerm args) ||
    ((rv_LastLogTerm args =? Term lastLog) && (Index lastLog <=? rv_LastLogIndex args)) in
  rf ← get;
  granted ←
    (if ((votedFor rf =? -1) || (votedFor rf =? rv_CandidateId args)) && upToDate
     then modify (set_votedFor (rv_CandidateId args)) ;;
          persist ;;
          emit ResetElectionTimer ;;
          mret true
     else mret false);
  rf ← get;
  mret (mkRVReply (currentTerm rf) granted).

(** [for xIndex >= firstLogIndex && rf.logs[xIndex-firstLogIndex].Term == xTerm { xIndex-- }]. *)
Fixpoint scanTerm (fuel : nat) (l : list (Entry Cmd)) (first xTerm xIndex : Z) : option Z :=
  if first <=? xIndex then
    e ← index l (xIndex - first);
    if Term e =? xTerm then
      match fuel with
      | O => None
      | S fuel => scanTerm fuel l first xTerm (xIndex - 1)
      end
    else Some xIndex
  else Some xIndex.

(** The loop over [args.Entries] of [AppendEntries], rules 3 and 4. *)
Fixpoint appendLoop (first : Z) (entries : list (Entry Cmd)) : RM unit :=
  match entries with
  | [] => mret tt
  | entry :: rest =>
      lastLog ← getLastLog;
      conflict ←
        (if (Index entry <=? Index lastLog) && (0 <=? Index entry - first)
         then e ← logAt (Index entry - first); mret (negb (Term e =? Term entry))
         else mret false);
      when conflict (
        rf ← get;
        l ← lift (slice_to (logs rf) (Index entry - first));
        modify (set_logs l) ;;
        persist) ;;
      lastLog ← getLastLog;
      if Index lastLog <? Index entry then
        modify (λ rf, set_logs (logs rf ++ entry :: rest) rf) ;;
        persist
      else appendLoop first rest
  end.

Definition AppendEntries (args : AppendEntriesArgs Cmd) : RM AppendEntriesReply :=
  rf ← get;
  let term := currentTerm rf in
  let reply := mkAEReply term false false 0 0 0 in
  if ae_Term args <? currentTerm rf then mret reply else
  if currentTerm rf <? ae_Term args then setNewTerm (ae_Term args) ;; mret reply else
  emit ResetElectionTimer ;;
  when (bool_decide (role rf = CANDIDATE)) (modify (set_role FOLLOWER)) ;;
  firstLog ← getFirstLog;
  if ae_PrevLogIndex args <? Index firstLog then mret (mkAEReply 0 false false 0 0 0) else
  lastLog ← getLastLog;
  let firstLogIndex := Index firstLog in
  let xLen := zlen (logs rf) + firstLogIndex - 1 in
  if Index lastLog <? ae_PrevLogIndex args
  then mret (mkAEReply term false true (-1) (-1) xLen) else
  prev ← logAt (ae_PrevLogIndex args - firstLogIndex);
  if negb (Term prev =? ae_PrevLogTerm args) then
    xIndex ← lift (scanTerm (length (logs rf)) (logs rf) firstLogIndex (Term prev)
                     (ae_PrevLogIndex args - 1));
    mret (mkAEReply term false true (Term prev) xIndex xLen)
  else
  appendLoop firstLogIndex (ae_Entries args) ;;
  rf ← get;
  when (commitIndex rf <? ae_LeaderCommit args) (
    lastLog ← getLastLog;
    modify (set_commitIndex (min (ae_LeaderCommit args) (Index lastLog))) ;;
    apply) ;;
  mret (mkAEReply term true false 0 0 0).

(** The body of the loop over [rf.peers] of [appendEntries]. *)
Definition appendEntriesPeer (heartbeat : bool) (lastIndex : Z) (peer : Z) : RM unit :=
  rf ← get;
  if peer =? me rf then emit ResetElectionTimer else
  next ← lift (index (nextIndex rf) peer);
  when (heartbeat || (next <=? lastIndex)) (
    let prevLogIndex := next - 1 in
    first ← getFirstLog;
    if prevLogIndex <? Index first then
      emit (GoInstallSnapshot peer
        (mkISArgs (currentTerm rf) (Index first) (Term first) (ReadSnapshot (persister rf))))
    else
      prevLog ← logAt (prevLogIndex - Index first);
      entries ← lift (slice_from (logs rf) (prevLogIndex - Index first + 1));
      emit (GoAppendEntries peer
        (mkAEArgs (currentTerm rf) (me rf) (Index prevLog) (Term prevLog) entries
           (commitIndex rf)))).

Definition appendEntries (heartbeat : bool) : RM unit :=
  lastLog ← getLastLog;
  rf ← get;
  for_each (zrange 0 (npeers rf)) (appendEntriesPeer heartbeat (Index lastLog)).

Definition setNext (serverId v : Z) : RM unit :=
  rf ← get; l ← lift (set_index (nextIndex rf) serverId v); modify (set_nextIndex l).
Definition setMatch (serverId v : Z) : RM unit :=
  rf ← get; l ← lift (set_index (matchIndex rf) serverId v); modify (set_matchIndex l).

Definition sendInstallSnapshotAndUpdate (serverId : Z) (args : InstallSnapshotArgs)
    (rpc : option InstallSnapshotReply) : RM unit :=
  match rpc with
  | None => mret tt
  | Some reply =>
      rf ← get;
      when (currentTerm rf <? isr_Term reply) (setNewTerm (isr_Term reply)) ;;
      setNext serverId (is_LastIncludedIndex args + 1) ;;
      setMatch serverId (is_LastIncludedIndex args)
  end.

(** [for i := last.Index; i > 0; i--] of [findLastLogInXTerm]; [i] is the fuel as well. *)
Fixpoint findLastLoop (fuel : nat) (l : list (Entry Cmd)) (first term i : Z) : option Z :=
  if 0 <? i then
    e ← index l (i - first);
    if Term e =? term then Some i
    else if Term e <? term then Some (-1)
    else match fuel with
         | O => None
         | S fuel => findLastLoop fuel l first term (i - 1)
         end
  else Some (-1).

Definition findLastLogInXTerm (term : Z) : RM Z :=
  lastLog ← getLastLog;
  first ← getFirstLog;
  rf ← get;
  lift (findLastLoop (Z.to_nat (Index lastLog)) (logs rf) (Index first) term (Index lastLog)).

(** The inner loop of [leaderCommitLog]: [true] when a majority is reached. *)
Fixpoint countMatch (rf : Raft Cmd) (i cnt : Z) (servers : list Z) : option bool :=
  match servers with
  | [] => Some false
  | serverId :: servers =>
      matched ← (if serverId =? me rf then Some false
                 else m ← index (matchIndex rf) serverId; Some (i <=? m));
      let cnt := if (matched : bool) then cnt + 1 else cnt in
      if npeers rf / 2 <? cnt then Some true else countMatch rf i cnt servers
  end.

Definition commitAt (i : Z) : RM unit :=
  first ← getFirstLog;
  e ← logAt (i - Index first);
  rf ← get;
  if negb (Term e =? currentTerm rf) then mret tt else
  b ← lift (countMatch rf i 1 (zrange 0 (npeers rf)));
  when b (modify (set_commitIndex i) ;; apply).

Definition leaderCommitLog : RM unit :=
  rf ← get;
  if negb (bool_decide (role rf = LEADER)) then mret tt else
  lastLog ← getLastLog;
  for_each (zrange (commitIndex rf + 1) (Index lastLog + 1)) commitAt.

Definition sendAppendEntryAndUpdate (serverId : Z) (args : AppendEntriesArgs Cmd)
    (rpc : option AppendEntriesReply) : RM unit :=
  match rpc with
  | None => mret tt
  | Some reply =>
      rf ← get;
      if currentTerm rf <? aer_Term reply then setNewTerm (aer_Term reply) else
      when (ae_Term args =? currentTerm rf) (
        (if aer_Success reply then
           let match' := ae_PrevLogIndex args + zlen (ae_Entries args) in
           next ← lift (index (nextIndex rf) serverId);
           setNext serverId (max next (match' + 1)) ;;
           mtch ← lift (index (matchIndex rf) serverId);
           setMatch serverId (max mtch match')
         else if aer_Conflict reply then
           if aer_XTerm reply =? -1 then setNext serverId (aer_XLen reply)
           else
             lastLogInXTerm ← findLastLogInXTerm (aer_XTerm reply);
             if 0 <? lastLogInXTerm then setNext serverId lastLogInXTerm
             else setNext serverId (aer_XIndex reply)
         else
           next ← lift (index (nextIndex rf) serverId);
           when (1 <? next) (setNext serverId (next - 1))) ;;
        leaderCommitLog)
  end.

Definition InstallSnapshot (args : InstallSnapshotArgs) : RM InstallSnapshotReply :=
  rf ← get;
  let reply := mkISReply (currentTerm rf) false in
  if is_Term args <? currentTerm rf then mret reply else
  when (currentTerm rf <? is_Term args) (setNewTerm (is_Term args)) ;;
  emit ResetElectionTimer ;;
  rf ← get;
  if is_LastIncludedIndex args <=? commitIndex rf then mret reply else
  emit (SendApplyCh (mkApplyMsg false None 0 0 true (is_Data args)
    (is_LastIncludedTerm args) (is_LastIncludedIndex args))) ;;
  mret (mkISReply (isr_Term reply) true).

Definition Start (command : option Cmd) : RM (Z * Z * bool) :=
  rf ← get;
  if negb (bool_decide (role rf = LEADER)) then mret (-1, -1, false) else
  lastLog ← getLastLog;
  let idx := Index lastLog + 1 in
  let term := currentTerm rf in
  modify (λ rf, set_logs (logs rf ++ [mkEntry idx term command]) rf) ;;
  persist ;;
  appendEntries false ;;
  mret (idx, term, true).

(** ** Elections *)

(** [StartElection]: the goroutines are effects, the variables they share the value. *)
Definition StartElection : RM Election :=
  modify (λ rf, set_votedFor (me rf) rf) ;;
  lastLog ← getLastLog;
  rf ← get;
  let args := mkRVArgs (currentTerm rf) (me rf) (Index lastLog) (Term lastLog) in
  persist ;;
  for_each (zrange 0 (npeers rf)) (λ peer,
    if peer =? me rf then mret tt else emit (GoRequestVote peer args)) ;;
  mret (mkElection args 1 false).

(** [for i := range rf.peers { nextIndex[i] = ...; matchIndex[i] = 0 }]. *)
Definition initLeaderPeer (lastLogIndex : Z) (i : Z) : RM unit :=
  setNext i (lastLogIndex + 1) ;; setMatch i 0.

Definition becomeLeader : RM unit :=
  modify (set_role LEADER) ;;
  lastLog ← getLastLog;
  rf ← get;
  for_each (zrange 0 (npeers rf)) (initLeaderPeer (Index lastLog)) ;;
  appendEntries true ;;
  emit ResetHeartbeatTimer.

(** The goroutine [StartElection] runs for one peer, from the return of [sendRequestVote]. *)
Definition voteReply (el : Election) (rpc : option RequestVoteReply) : RM Election :=
  match rpc with
  | None => mret el
  | Some reply =>
      if rv_Term (el_args el) <? rvr_Term reply then
        setNewTerm (rv_Term (el_args el)) ;; mret el
      else if rvr_Term reply <? rv_Term (el_args el) then mret el
      else if negb (rvr_VoteGranted reply) then mret el
      else
        let granted := el_granted el + 1 in
        rf ← get;
        if (npeers rf / 2 <? granted) && (currentTerm rf =? rv_Term (el_args el))
           && bool_decide (role rf = CANDIDATE)
        then
          when (negb (el_once el)) becomeLeader ;;
          mret (mkElection (el_args el) granted true)
        else mret (mkElection (el_args el) granted (el_once el))
  end.

(** The two cases of the [select] of [ticker]. *)
Definition tickerElection : RM Election :=
  modify (set_role CANDIDATE) ;;
  modify (λ rf, set_currentTerm (currentTerm rf + 1) rf) ;;
  el ← StartElection;
  emit ResetElectionTimer ;;
  mret el.

Definition tickerHeartbeat : RM unit :=
  rf ← get;
  when (bool_decide (role rf = LEADER)) (appendEntries true ;; emit ResetHeartbeatTimer).

(** ** The applier goroutine

    [applierTake] is the first critical section of an iteration of [applier], after the wait;
    [applierMsgs] are the messages it then sends without the lock, and [applierDone] is the second
    critical section. *)
Definition applierReady rf : bool := negb (commitIndex rf <=? LastApplied rf).

Definition applierTake : RM (list (Entry Cmd) * Z) :=
  first ← getFirstLog;
  rf ← get;
  entries ← lift (slice (logs rf) (LastApplied rf - Index first + 1) (commitIndex rf - Index first + 1));
  mret (entries, commitIndex rf).

Definition applierMsgs (entries : list (Entry Cmd)) : list (ApplyMsg Cmd) :=
  (λ e, mkApplyMsg true (Command e) (Index e) (Term e) false [] 0 0) <$> entries.

Definition applierDone (ci : Z) : RM unit :=
  modify (λ rf, set_LastApplied (max (LastApplied rf) ci) rf).

(** [Make], up to the two goroutines it starts. *)
Definition Make (n : Z) (self : Z) (p : Persister) : option (Raft Cmd) :=
  let rf := mkRaft n p self 0 FOLLOWER 0 (-1) [mkEntry 0 0 None] 0 0
              (replicate (Z.to_nat n) 0) (replicate (Z.to_nat n) 0) in
  run_state (readPersist (ReadRaftState p)) rf.
End methods.
