(* ===== verification/RaftLog.v ===== *)
(** * The replicated log of a peer

    Well-formed logs (contiguous indices after the dummy entry), the reference definition of the
    merge loop of [AppendEntries], and Log Matching between two logs. *)
From S2P Require Import Prelude Raft.

Section log.
Context {Cmd : Type}.
Implicit Types (l : list (Entry Cmd)) (e : Entry Cmd) (i j : Z).

(** The index of the dummy entry [rf.logs[0]] and of the last entry. *)
Definition first_idx l : Z := match l with e :: _ => Index e | [] => 0 end.
Definition last_idx l : Z := first_idx l + zlen l - 1.

(** The entry with log index [i]. *)
Definition entryAt l i : option (Entry Cmd) := index l (i - first_idx l).

(** Entries carry consecutive indices from [k]. *)
Definition contiguous (k : Z) l : Prop := ∀ n e, l !! n = Some e → Index e = k + Z.of_nat n.

Definition log_wf l : Prop := l ≠ [] ∧ contiguous (first_idx l) l.

Lemma contiguous_nil k : contiguous k [].
Proof. intros n e Hn. by rewrite lookup_nil in Hn. Qed.

Lemma contiguous_cons k e l : contiguous k (e :: l) ↔ Index e = k ∧ contiguous (k + 1) l.
Proof.
  split.
  - intros Hc. split; [rewrite (Hc 0%nat e eq_refl); lia|].
    intros n x Hn. rewrite (Hc (S n) x Hn). lia.
  - intros [He Hc] [|n] x Hn; simplify_eq/=; [lia|]. rewrite (Hc n x Hn). lia.
Qed.

Lemma contiguous_app k l1 l2 :
  contiguous k (l1 ++ l2) ↔ contiguous k l1 ∧ contiguous (k + zlen l1) l2.
Proof.
  revert k; induction l1 as [|e l1 IH]; intros k; simpl.
  - rewrite Z.add_0_r. naive_solver eauto using contiguous_nil.
  - rewrite !contiguous_cons, IH. replace (k + 1 + zlen l1) with (k + Z.of_nat (S (length l1))) by lia.
    tauto.
Qed.

Lemma contiguous_take k n l : contiguous k l → contiguous k (take n l).
Proof. intros Hc m e Hm. apply Hc. by apply lookup_take_Some in Hm as [? _]. Qed.

Lemma contiguous_drop k n l : contiguous k l → contiguous (k + Z.of_nat n) (drop n l).
Proof. intros Hc m e Hm. rewrite lookup_drop in Hm. rewrite (Hc _ _ Hm). lia. Qed.

Lemma log_wf_length l : log_wf l → 0 < zlen l.
Proof. intros [Hne _]. destruct l; [done|simpl; lia]. Qed.

Lemma first_idx_app l l' : l ≠ [] → first_idx (l ++ l') = first_idx l.
Proof. by destruct l. Qed.

Lemma first_idx_take l n : (0 < n)%nat → first_idx (take n l) = first_idx l.
Proof. destruct l, n; simpl; done || lia. Qed.

Lemma index_log_wf l n e : log_wf l → index l n = Some e → Index e = first_idx l + n.
Proof. intros [_ Hc] [? Hn]%index_Some. rewrite (Hc _ _ Hn). lia. Qed.

Lemma entryAt_Index l i e : log_wf l → entryAt l i = Some e → Index e = i.
Proof. intros Hwf He. apply index_log_wf in He; [|done]. lia. Qed.

Lemma entryAt_range l i e : entryAt l i = Some e → first_idx l ≤ i ≤ last_idx l.
Proof. unfold entryAt, last_idx. intros ?%index_lt_Some. lia. Qed.

Lemma entryAt_total l i : first_idx l ≤ i ≤ last_idx l → ∃ e, entryAt l i = Some e.
Proof. unfold entryAt, last_idx. intros ?. apply index_total. lia. Qed.

Lemma last_log_idx l : log_wf l → ∃ e, index l (zlen l - 1) = Some e ∧ Index e = last_idx l.
Proof.
  intros Hwf. pose proof (log_wf_length _ Hwf).
  destruct (index_total l (zlen l - 1)) as [e He]; [lia|]. exists e. split; [done|].
  rewrite (index_log_wf _ _ _ Hwf He). unfold last_idx. lia.
Qed.

Lemma first_log_idx l : log_wf l → ∃ e, index l 0 = Some e ∧ Index e = first_idx l.
Proof. intros [Hne _]. destruct l as [|e l]; [done|]. by exists e. Qed.

Lemma log_wf_app l l' : log_wf l → contiguous (last_idx l + 1) l' → log_wf (l ++ l').
Proof.
  intros [Hne Hc] Hc'. split; [by destruct l|]. rewrite first_idx_app by done.
  apply contiguous_app. split; [done|]. unfold last_idx in Hc'.
  by replace (first_idx l + zlen l) with (first_idx l + zlen l - 1 + 1) by lia.
Qed.

Lemma last_idx_app l l' : l ≠ [] → last_idx (l ++ l') = last_idx l + zlen l'.
Proof. intros ?. unfold last_idx. rewrite first_idx_app, length_app by done. lia. Qed.

Lemma log_wf_take l n : (0 < n)%nat → log_wf l → log_wf (take n l).
Proof.
  intros Hn [Hne Hc]. split; [destruct l, n; done || lia|].
  rewrite first_idx_take by done. by apply contiguous_take.
Qed.

Lemma entryAt_app_l l l' i : l ≠ [] → i ≤ last_idx l → entryAt (l ++ l') i = entryAt l i.
Proof.
  intros Hne Hi. unfold entryAt. rewrite first_idx_app by done. apply index_app_l.
  unfold last_idx in Hi. lia.
Qed.

Lemma entryAt_app_r l l' i :
  l ≠ [] → last_idx l < i → entryAt (l ++ l') i = index l' (i - last_idx l - 1).
Proof.
  intros Hne Hi. unfold entryAt, last_idx in *. rewrite first_idx_app by done.
  rewrite index_app_r by lia. f_equal. lia.
Qed.

(** ** Log compaction *)
Lemma compact_wf l i :
  log_wf l → first_idx l ≤ i ≤ last_idx l →
  log_wf (drop (Z.to_nat (i - first_idx l)) l) ∧ first_idx (drop (Z.to_nat (i - first_idx l)) l) = i
  ∧ last_idx (drop (Z.to_nat (i - first_idx l)) l) = last_idx l
  ∧ (∀ j, i ≤ j → entryAt (drop (Z.to_nat (i - first_idx l)) l) j = entryAt l j).
Proof.
  intros Hwf Hi. set (d := drop _ l). unfold last_idx in *.
  assert (zlen d = zlen l - (i - first_idx l)) as Hlen by (unfold d; rewrite length_drop; lia).
  assert (d ≠ []) as Hne by (intros Hd; rewrite Hd in Hlen; simpl in Hlen; lia).
  assert (first_idx d = i) as Hf.
  { destruct (index_total d 0) as [e He]; [lia|]. assert (first_idx d = Index e) as ->.
    { destruct d; [done|]. rewrite index_cons_0 in He. by simplify_eq. }
    unfold d in He. rewrite index_drop in He by lia. apply index_log_wf in He; [lia|done]. }
  split_and!.
  - split; [done|]. rewrite Hf. destruct Hwf as [_ Hc]. unfold d.
    replace i with (first_idx l + Z.of_nat (Z.to_nat (i - first_idx l))) at 1 by lia.
    by apply contiguous_drop.
  - done.
  - lia.
  - intros j Hj. unfold entryAt. rewrite Hf. unfold d. rewrite index_drop by lia. f_equal. lia.
Qed.

(** Replacing the command or the term of the dummy entry keeps the shape of the log. *)
Lemma update_head_wf e e' l :
  log_wf (e :: l) → Index e' = Index e →
  log_wf (e' :: l) ∧ first_idx (e' :: l) = first_idx (e :: l)
  ∧ last_idx (e' :: l) = last_idx (e :: l)
  ∧ (∀ i, first_idx (e :: l) < i → entryAt (e' :: l) i = entryAt (e :: l) i).
Proof.
  intros [_ Hc] He. simpl in Hc. rewrite contiguous_cons in Hc. unfold log_wf, last_idx. simpl.
  rewrite He. split_and!; [done| |done|lia|].
  - rewrite contiguous_cons. tauto.
  - intros i Hi. unfold entryAt. simpl. rewrite He. unfold index. case_match; [|done].
    by destruct (Z.to_nat (i - Index e)) eqn:?; [lia|].
Qed.

(** ** The merge of [AppendEntries]

    [merge l k es]: [es] carries the entries from offset [k] of [l] on.  Entries with equal terms
    are kept; from the first entry that is missing or has another term, the rest of [es] replaces
    the rest of [l]. *)
Fixpoint merge l (k : nat) (es : list (Entry Cmd)) : list (Entry Cmd) :=
  match es with
  | [] => l
  | e :: es' =>
      match l !! k with
      | Some x => if Term x =? Term e then merge l (S k) es' else take k l ++ es
      | None => l ++ es
      end
  end.

Lemma merge_take l k es : (k ≤ length l)%nat → take k (merge l k es) = take k l.
Proof.
  revert k; induction es as [|e es IH]; intros k Hk; simpl; [done|].
  destruct (l !! k) as [x|] eqn:Hx.
  - pose proof (lookup_lt_Some _ _ _ Hx). case_match.
    + pose proof (f_equal (take k) (IH (S k) ltac:(lia))) as IH'. rewrite !take_take in IH'.
      by rewrite !Nat.min_l in IH' by lia.
    + rewrite take_app_le by (rewrite length_take; lia). by rewrite take_take, Nat.min_id.
  - apply lookup_ge_None in Hx. by rewrite take_app_le by lia.
Qed.

Lemma merge_length_ge l k es : (k ≤ length l)%nat → (k + length es ≤ length (merge l k es))%nat.
Proof.
  revert k; induction es as [|e es IH]; intros k Hk; simpl; [lia|].
  destruct (l !! k) as [x|] eqn:Hx.
  - pose proof (lookup_lt_Some _ _ _ Hx). case_match.
    + specialize (IH (S k)). lia.
    + rewrite length_app, length_take. simpl. lia.
  - apply lookup_ge_None in Hx. rewrite length_app. simpl. lia.
Qed.

(** Every entry of [es] is in the result, up to entries that already had its index and term. *)
Lemma merge_lookup l k es n e :
  (k ≤ length l)%nat → es !! n = Some e →
  merge l k es !! (k + n)%nat = Some e ∨
  ∃ x, l !! (k + n)%nat = Some x ∧ merge l k es !! (k + n)%nat = Some x ∧ Term x = Term e.
Proof.
  revert k n; induction es as [|e' es IH]; intros k n Hk Hn; [by rewrite lookup_nil in Hn|].
  simpl. destruct (l !! k) as [x|] eqn:Hx.
  - pose proof (lookup_lt_Some _ _ _ Hx). case_match.
    + destruct n as [|n]; simplify_eq/=.
      * right. exists x. rewrite Nat.add_0_r. split_and!; [done| |lia].
        rewrite <-(lookup_take_lt _ (S k)) by lia. rewrite merge_take by lia.
        by rewrite lookup_take_lt by lia.
      * rewrite <-plus_n_Sm. apply (IH (S k) n); [lia|done].
    + left. rewrite lookup_app_r by (rewrite length_take; lia). rewrite length_take, Nat.min_l by lia.
      by replace (k + n - k)%nat with n by lia.
  - apply lookup_ge_None in Hx. left. rewrite lookup_app_r by lia.
    by replace (k + n - length l)%nat with n by lia.
Qed.

(** Either nothing of [l] is lost, or an entry of [es] met one of another term and the result ends
    with [es]. *)
Lemma merge_cases l k es :
  (k ≤ length l)%nat →
  (∃ suf, merge l k es = l ++ suf) ∨
  (∃ n x e, l !! (k + n)%nat = Some x ∧ es !! n = Some e ∧ Term x ≠ Term e ∧
     length (merge l k es) = (k + length es)%nat).
Proof.
  revert k; induction es as [|e es IH]; intros k Hk; simpl; [left; exists []; by rewrite app_nil_r|].
  destruct (l !! k) as [x|] eqn:Hx; [|left; eauto].
  pose proof (lookup_lt_Some _ _ _ Hx). case_match.
  - destruct (IH (S k)) as [?|(n & y & f & Hy & Hf & Ht & Hlen)]; [lia|by left|].
    right. exists (S n), y, f. rewrite <-plus_n_Sm. split_and!; [done..|lia].
  - right. exists 0%nat, x, e. rewrite Nat.add_0_r, length_app, length_take. simpl.
    split_and!; [done|done|lia|lia].
Qed.

Lemma merge_wf l k es :
  log_wf l → (0 < k ≤ length l)%nat → contiguous (first_idx l + Z.of_nat k) es →
  log_wf (merge l k es) ∧ first_idx (merge l k es) = first_idx l.
Proof.
  intros Hwf. revert k; induction es as [|e es IH]; intros k Hk Hc; simpl; [done|].
  destruct (l !! k) as [x|] eqn:Hx.
  - pose proof (lookup_lt_Some _ _ _ Hx). case_match.
    + apply IH; [lia|]. apply contiguous_cons in Hc as [_ Hc].
      by replace (first_idx l + Z.of_nat (S k)) with (first_idx l + Z.of_nat k + 1) by lia.
    + assert (log_wf (take k l)) as Hwf' by (apply log_wf_take; [lia|done]).
      assert (last_idx (take k l) + 1 = first_idx l + Z.of_nat k) as Hl.
      { unfold last_idx. rewrite first_idx_take, length_take by lia. lia. }
      split; [apply log_wf_app; [done|by rewrite Hl]|].
      rewrite first_idx_app by apply Hwf'. apply first_idx_take. lia.
  - apply lookup_ge_None in Hx. assert (k = length l) as -> by lia.
    split; [|by apply first_idx_app, Hwf]. apply log_wf_app; [done|]. unfold last_idx.
    by replace (first_idx l + zlen l - 1 + 1) with (first_idx l + zlen l) by lia.
Qed.

(** A log the merge made longer than the leader's part was not changed. *)
Lemma merge_beyond l k es :
  (k ≤ length l)%nat → (k + length es < length (merge l k es))%nat → merge l k es = l.
Proof.
  revert k; induction es as [|e es IH]; intros k Hk; simpl; [done|].
  destruct (l !! k) as [x|] eqn:Hx.
  - pose proof (lookup_lt_Some _ _ _ Hx). case_match; intros Hlen.
    + apply IH; lia.
    + rewrite length_app, length_take in Hlen. simpl in Hlen. lia.
  - apply lookup_ge_None in Hx. rewrite length_app. simpl. lia.
Qed.

(** ** Log Matching

    Two logs agree at index [j] when the entries they both have there carry the same term and,
    past both dummy entries, the same command. *)
Definition ent_match l1 l2 (j : Z) : Prop :=
  ∀ x y, entryAt l1 j = Some x → entryAt l2 j = Some y →
    Term x = Term y ∧ (first_idx l1 < j → first_idx l2 < j → Command x = Command y).

(** The Log Matching property of a pair of logs: equal terms at an index mean equal logs up to it. *)
Definition LogMatch l1 l2 : Prop :=
  ∀ i x y, entryAt l1 i = Some x → entryAt l2 i = Some y → Term x = Term y →
    ∀ j, j ≤ i → ent_match l1 l2 j.

Lemma ent_match_sym l1 l2 j : ent_match l1 l2 j → ent_match l2 l1 j.
Proof. intros Hm x y Hx Hy. destruct (Hm y x Hy Hx) as [? Hc]. split; [done|]. intros. by rewrite Hc. Qed.

Lemma LogMatch_sym l1 l2 : LogMatch l1 l2 → LogMatch l2 l1.
Proof. intros Hm i x y Hx Hy Ht j Hj. apply ent_match_sym. by eapply Hm. Qed.

Lemma LogMatch_refl l : LogMatch l l.
Proof. intros i x y _ _ _ j _ a b Ha Hb. by simplify_eq. Qed.
End log.

(** The merge of a leader's suffix into a follower's log. *)
Section merge_matching.
Context {Cmd : Type} (L l : list (Entry Cmd)) (p : Z).
Hypotheses (HL : log_wf L) (Hl : log_wf l) (HLl : LogMatch L l).
Hypotheses (HpL : first_idx L ≤ p ≤ last_idx L) (Hpl : first_idx l ≤ p ≤ last_idx l).
Hypothesis Hprev : ∀ x y, entryAt L p = Some x → entryAt l p = Some y → Term x = Term y.

Let es := drop (Z.to_nat (p - first_idx L + 1)) L.
Let k := Z.to_nat (p - first_idx l + 1).
Let l' := merge l k es.

Lemma merge_k_le : (0 < k ≤ length l)%nat.
Proof. unfold k. unfold last_idx in *. lia. Qed.

Lemma merge_es_length : zlen es = last_idx L - p.
Proof. unfold es. rewrite length_drop. unfold last_idx in *. lia. Qed.

Lemma merge_es_lookup j : p < j → entryAt L j = es !! Z.to_nat (j - p - 1).
Proof.
  intros Hj. unfold entryAt, es. rewrite lookup_drop. unfold index.
  case_match; [f_equal; lia|lia].
Qed.

Lemma merge_es_contiguous : contiguous (first_idx l + Z.of_nat k) es.
Proof.
  destruct HL as [_ Hc]. unfold es, k.
  replace (first_idx l + Z.of_nat (Z.to_nat (p - first_idx l + 1)))
    with (first_idx L + Z.of_nat (Z.to_nat (p - first_idx L + 1))) by lia.
  by apply contiguous_drop.
Qed.

Lemma merged_wf : log_wf l' ∧ first_idx l' = first_idx l.
Proof. apply merge_wf; [done|apply merge_k_le|apply merge_es_contiguous]. Qed.

Lemma merged_low j : j ≤ p → entryAt l' j = entryAt l j.
Proof.
  intros Hj. unfold entryAt. rewrite (proj2 merged_wf).
  rewrite <-(index_take l' (Z.of_nat k)), <-(index_take l (Z.of_nat k)) by (unfold k; lia).
  rewrite Nat2Z.id. unfold l'. by rewrite merge_take by apply merge_k_le.
Qed.

Lemma merged_high j y :
  p < j ≤ last_idx L → entryAt l' j = Some y →
  entryAt L j = Some y ∨ ∃ x, entryAt l j = Some y ∧ entryAt L j = Some x ∧ Term y = Term x.
Proof.
  intros Hj Hy. destruct (entryAt_total L j) as [x Hx]; [lia|].
  pose proof Hx as Hx'. rewrite merge_es_lookup in Hx' by lia.
  assert (k + Z.to_nat (j - p - 1) = Z.to_nat (j - first_idx l))%nat as Hk by (unfold k; lia).
  unfold entryAt in Hy. rewrite (proj2 merged_wf) in Hy. apply index_Some in Hy as [_ Hy].
  destruct (merge_lookup l k es _ _ (proj2 merge_k_le) Hx') as [Hm|(z & Hz & Hm & Ht)];
    rewrite Hk in *; fold l' in Hm; simplify_eq.
  - by left.
  - right. exists x. split_and!; [|done|done]. unfold entryAt. apply index_Some. split; [lia|done].
Qed.

(** After the merge the two logs agree through the end of the leader's log. *)
Lemma merged_agrees j : j ≤ last_idx L → ent_match L l' j.
Proof.
  intros Hj. destruct (entryAt_total L p HpL) as [a Ha]. destruct (entryAt_total l p Hpl) as [b Hb].
  destruct (decide (j ≤ p)) as [Hjp|Hjp].
  - intros x y Hx Hy. rewrite merged_low in Hy by done. rewrite (proj2 merged_wf).
    exact (HLl p a b Ha Hb (Hprev _ _ Ha Hb) j Hjp x y Hx Hy).
  - intros x y Hx Hy. destruct (merged_high j y) as [Hy'|(z & Hz & Hx' & Ht)]; [lia|done| |].
    + by simplify_eq.
    + rewrite Hx in Hx'. injection Hx' as <-. rewrite (proj2 merged_wf).
      exact (HLl j x y Hx Hz (eq_sym Ht) j (Z.le_refl j) x y Hx Hz).
Qed.

Lemma merged_beyond j : last_idx L < j → is_Some (entryAt l' j) → l' = l.
Proof.
  intros Hj [y Hy]. apply merge_beyond; [apply merge_k_le|].
  apply entryAt_range in Hy as [_ Hy]. unfold last_idx at 1 in Hy. rewrite (proj2 merged_wf) in Hy.
  pose proof merge_es_length. fold l'. unfold k in *. lia.
Qed.

(** Log Matching with any third log survives the merge. *)
Lemma merged_LogMatch l3 : LogMatch L l3 → LogMatch l l3 → LogMatch l' l3.
Proof.
  intros HL3 Hl3 i x y Hx Hy Ht j Hj.
  destruct (decide (last_idx L < i)) as [Hi|Hi].
  { rewrite (merged_beyond i) in * by eauto. by eapply Hl3. }
  destruct (decide (i ≤ p)) as [Hip|Hip].
  { rewrite merged_low in Hx by done. intros u v Hu Hv. rewrite merged_low in Hu by lia.
    rewrite (proj2 merged_wf). by eapply (Hl3 i x y). }
  destruct (entryAt_total L i) as [z Hz]; [lia|].
  assert (Term z = Term y) as Hzy.
  { destruct (merged_agrees i ltac:(lia) z x Hz Hx). congruence. }
  pose proof (HL3 i z y Hz Hy Hzy) as HL3i. intros u v Hu Hv.
  destruct (decide (first_idx L < j)) as [HjL|HjL].
  - destruct (entryAt_total L j) as [w Hw]; [lia|].
    destruct (merged_agrees j ltac:(lia) w u Hw Hu) as [Ht1 Hc1].
    destruct (HL3i j Hj w v Hw Hv) as [Ht2 Hc2].
    split; [congruence|]. intros ? ?. rewrite <-Hc1, <-Hc2; done || lia.
  - pose proof (entryAt_range _ _ _ Hu) as Hur. rewrite (proj2 merged_wf) in Hur |- *.
    pose proof (entryAt_range _ _ _ Hv). pose proof (entryAt_range _ _ _ Hy).
    rewrite merged_low in Hu by lia.
    destruct (entryAt_total l (first_idx L)) as [b Hb]; [lia|].
    destruct (entryAt_total l3 (first_idx L)) as [c Hc]; [lia|].
    destruct (entryAt_total L (first_idx L)) as [a Ha]; [lia|].
    destruct (HL3i (first_idx L) ltac:(lia) a c Ha Hc) as [Hac _].
    assert (Term a = Term b) as Hab.
    { destruct (merged_agrees (first_idx L) ltac:(lia) a b Ha) as [? _]; [|done].
      by rewrite merged_low by lia. }
    exact (Hl3 (first_idx L) b c Hb Hc ltac:(congruence) j ltac:(lia) u v Hu Hv).
Qed.
End merge_matching.
