(* ===== verification/RaftNode.v ===== *)
(** * The invariant of a peer

    [node_ok] is the well-formedness invariant of one peer: array lengths, a contiguous log,
    [first <= commitIndex <= last], [LastApplied <= commitIndex], the bound on a leader's
    [nextIndex], and the durability of term, vote and log.  Every method keeps it and does not
    panic, under what the protocol promises about its arguments. *)
From S2P Require Import Prelude Raft RaftLog.

Section node.
Context {Cmd : Type} `{CodecLaws (hard_state Cmd)}.
Abbreviation RM := (M (Raft Cmd) (Effect Cmd)).
Implicit Types (rf : Raft Cmd) (l : list (Entry Cmd)) (e : Entry Cmd).

(** What a restart would read back is what the peer has in memory. *)
Definition durable rf : Prop :=
  gob_decode (raftstate (persister rf)) = Some (currentTerm rf, votedFor rf, logs rf)
    ∧ raftstate (persister rf) ≠ []
  ∨ raftstate (persister rf) = [] ∧ currentTerm rf = 0 ∧ votedFor rf = -1
    ∧ logs rf = [mkEntry 0 0 None].

Record node_ok rf : Prop := {
  ok_me : 0 ≤ me rf < npeers rf;
  ok_next : zlen (nextIndex rf) = npeers rf;
  ok_match : zlen (matchIndex rf) = npeers rf;
  ok_log : log_wf (logs rf);
  ok_commit : first_idx (logs rf) ≤ commitIndex rf ≤ last_idx (logs rf);
  ok_applied : LastApplied rf ≤ commitIndex rf;
  ok_leader : role rf = LEADER → Forall (λ v, v ≤ last_idx (logs rf) + 1) (nextIndex rf);
  ok_durable : durable rf;
}.

(** The state after [rf.persist()]. *)
Definition persisted rf : Raft Cmd :=
  set_persister (SaveRaftState (persister rf) (encodeRaftState rf)) rf.

Lemma clone_id (b : list byte) : clone b = b.
Proof. unfold clone. by rewrite take_ge. Qed.

Lemma durable_persisted rf : durable (persisted rf).
Proof.
  left. unfold persisted, SaveRaftState, encodeRaftState. simpl. rewrite clone_id.
  split; [apply gob_roundtrip|apply gob_nonempty].
Qed.

Lemma durable_snapshot rf b :
  durable (set_persister (SaveStateAndSnapshot (persister rf) (encodeRaftState rf) b) rf).
Proof.
  left. unfold SaveStateAndSnapshot, encodeRaftState. simpl. rewrite clone_id.
  split; [apply gob_roundtrip|apply gob_nonempty].
Qed.

(** Durability only looks at the durable fields. *)
Lemma durable_ext rf rf' :
  persister rf' = persister rf → currentTerm rf' = currentTerm rf → votedFor rf' = votedFor rf →
  logs rf' = logs rf → durable rf → durable rf'.
Proof. unfold durable. by intros -> -> -> ->. Qed.

(** What every message handler leaves alone: the identity of the peer, the start of its log and
    what it applied; the commit index only grows. *)
Definition keeps rf rf' : Prop :=
  npeers rf' = npeers rf ∧ me rf' = me rf ∧ first_idx (logs rf') = first_idx (logs rf) ∧
  LastApplied rf' = LastApplied rf ∧ commitIndex rf ≤ commitIndex rf'.

(** Equality of the fields [keeps] is about. *)
Lemma keeps_eq rf rf' :
  npeers rf' = npeers rf → me rf' = me rf → logs rf' = logs rf → LastApplied rf' = LastApplied rf →
  commitIndex rf' = commitIndex rf → keeps rf rf'.
Proof. unfold keeps. intros -> -> -> -> ->. split_and!; done || lia. Qed.

#[export] Instance keeps_refl : Reflexive keeps.
Proof. intros rf. by apply keeps_eq. Qed.
#[export] Instance keeps_trans : Transitive keeps.
Proof.
  intros rf1 rf2 rf3 (? & ? & ? & ? & ?) (? & ? & ? & ? & ?). unfold keeps.
  split_and!; congruence || lia.
Qed.

(** ** Reading the log *)
Lemma wp_getLastLog rf (Q : _ → _ → _ → Prop) :
  log_wf (logs rf) →
  (∀ e, index (logs rf) (zlen (logs rf) - 1) = Some e → Index e = last_idx (logs rf) → Q e rf []) →
  wp getLastLog Q rf.
Proof.
  intros Hwf HQ. destruct (last_log_idx _ Hwf) as (e & He & Hi).
  unfold getLastLog. wp_steps. apply (wp_lift _ e); eauto.
Qed.

Lemma wp_getFirstLog rf (Q : _ → _ → _ → Prop) :
  log_wf (logs rf) →
  (∀ e, index (logs rf) 0 = Some e → Index e = first_idx (logs rf) → Q e rf []) →
  wp getFirstLog Q rf.
Proof.
  intros Hwf HQ. destruct (first_log_idx _ Hwf) as (e & He & Hi).
  unfold getFirstLog. wp_steps. apply (wp_lift _ e); eauto.
Qed.

Lemma wp_logAt rf i (Q : _ → _ → _ → Prop) :
  0 ≤ i < zlen (logs rf) → (∀ e, index (logs rf) i = Some e → Q e rf []) → wp (logAt i) Q rf.
Proof.
  intros Hi HQ. destruct (index_total _ _ Hi) as [e He].
  unfold logAt. wp_steps. apply (wp_lift _ e); eauto.
Qed.

Lemma wp_lift_total {A} (o : option A) (Q : A → Raft Cmd → list (Effect Cmd) → Prop) rf :
  is_Some o → (∀ a, o = Some a → Q a rf []) → wp (lift o) Q rf.
Proof. intros [a Ha] HQ. apply (wp_lift _ a); eauto. Qed.

Lemma wp_persist rf (Q : unit → Raft Cmd → list (Effect Cmd) → Prop) :
  Q tt (persisted rf) [] → wp persist Q rf.
Proof. done. Qed.

Lemma wp_setNext rf i v (Q : unit → Raft Cmd → list (Effect Cmd) → Prop) :
  0 ≤ i < zlen (nextIndex rf) →
  Q tt (set_nextIndex (<[Z.to_nat i := v]> (nextIndex rf)) rf) [] → wp (setNext i v) Q rf.
Proof.
  intros Hi HQ. unfold setNext. wp_steps. eapply wp_lift; [by apply set_index_Some|]. by wp_steps.
Qed.

Lemma wp_setMatch rf i v (Q : unit → Raft Cmd → list (Effect Cmd) → Prop) :
  0 ≤ i < zlen (matchIndex rf) →
  Q tt (set_matchIndex (<[Z.to_nat i := v]> (matchIndex rf)) rf) [] → wp (setMatch i v) Q rf.
Proof.
  intros Hi HQ. unfold setMatch. wp_steps. eapply wp_lift; [by apply set_index_Some|]. by wp_steps.
Qed.

(** The state after [rf.setNewTerm(term)]. *)
Definition newTerm (t : Z) rf : Raft Cmd :=
  persisted (set_votedFor (-1) (set_role FOLLOWER (set_currentTerm t rf))).

Lemma wp_setNewTerm rf t (Q : unit → Raft Cmd → list (Effect Cmd) → Prop) :
  Q tt (newTerm t rf) [] → wp (setNewTerm t) Q rf.
Proof. done. Qed.

(** ** The invariant under the elementary updates *)
Lemma node_ok_newTerm rf t : node_ok rf → node_ok (newTerm t rf).
Proof. intros []. split; simpl; try done. apply durable_persisted. Qed.

Lemma node_ok_persisted rf : node_ok rf → node_ok (persisted rf).
Proof. intros []. split; simpl; try done. apply durable_persisted. Qed.

Lemma node_ok_follower rf : node_ok rf → node_ok (set_role FOLLOWER rf).
Proof. intros []. by split. Qed.

Lemma node_ok_vote rf v : node_ok rf → node_ok (persisted (set_votedFor v rf)).
Proof. intros []. split; simpl; try done. apply durable_persisted. Qed.

Lemma node_ok_commit rf c :
  commitIndex rf ≤ c ≤ last_idx (logs rf) → node_ok rf → node_ok (set_commitIndex c rf).
Proof. intros ? []. split; simpl; done || lia. Qed.

Lemma node_ok_next rf i v :
  (role rf = LEADER → v ≤ last_idx (logs rf) + 1) → node_ok rf →
  node_ok (set_nextIndex (<[i := v]> (nextIndex rf)) rf).
Proof.
  intros Hv []. split; simpl; try done; [by rewrite length_insert|].
  intros ?. apply Forall_insert; auto.
Qed.

Lemma node_ok_match rf i v :
  node_ok rf → node_ok (set_matchIndex (<[i := v]> (matchIndex rf)) rf).
Proof. intros []. split; simpl; try done. by rewrite length_insert. Qed.

(** A new, persisted log that still covers what was committed and what a leader may send. *)
Lemma node_ok_logs rf l :
  node_ok rf → log_wf l → first_idx l ≤ commitIndex rf ≤ last_idx l →
  (role rf = LEADER → last_idx (logs rf) ≤ last_idx l) → node_ok (persisted (set_logs l rf)).
Proof.
  intros [] Hwf Hc Hld. split; simpl; try done; [|apply durable_persisted].
  intros Hr. specialize (Hld Hr). specialize (ok_leader0 Hr).
  eapply Forall_impl; [exact ok_leader0|]. simpl. lia.
Qed.

(** The update of [node_ok] by fields the invariant does not read. *)
Lemma node_ok_dead rf d : node_ok rf → node_ok (set_dead d rf).
Proof. intros []. by split. Qed.
End node.

Create HintDb raft.
#[export] Hint Resolve node_ok_newTerm node_ok_persisted node_ok_follower node_ok_vote
  node_ok_match node_ok_dead ok_log ok_durable : raft.
#[export] Hint Extern 2 (keeps _ _) => (by apply keeps_eq) : raft.
#[export] Hint Resolve Z.le_refl : raft.
