(* ===== verification/RaftVote.v ===== *)
(** * Votes: [RequestVote], [ticker], [StartElection] and its reply goroutine

    The functional behaviour of the election methods on every branch, and that each keeps the
    invariant of a peer. *)
From S2P Require Import Prelude Raft RaftLog RaftNode.

Section vote.
Context {Cmd : Type} `{CodecLaws (hard_state Cmd)}.
Implicit Types (rf : Raft Cmd) (args : RequestVoteArgs).

Definition last_term (l : list (Entry Cmd)) : Z :=
  match index l (zlen l - 1) with Some e => Term e | None => 0 end.

(** The election restriction: the candidate's log is at least as up to date. *)
Definition up_to_date rf args : bool :=
  (last_term (logs rf) <? rv_LastLogTerm args) ||
  ((rv_LastLogTerm args =? last_term (logs rf)) && (last_idx (logs rf) <=? rv_LastLogIndex args)).

(** When a peer grants its vote. *)
Definition vote_rule rf args : bool :=
  ((currentTerm rf <? rv_Term args) ||
   ((rv_Term args =? currentTerm rf)
      && ((votedFor rf =? -1) || (votedFor rf =? rv_CandidateId args))))
  && up_to_date rf args.

(** The peer [RequestVote] leaves. *)
Definition vote_state rf args : Raft Cmd :=
  let rf' := if currentTerm rf <? rv_Term args then newTerm (rv_Term args) rf else rf in
  if vote_rule rf args then persisted (set_votedFor (rv_CandidateId args) rf') else rf'.

Lemma wp_RequestVote rf args (Q : RequestVoteReply → Raft Cmd → list (Effect Cmd) → Prop) :
  log_wf (logs rf) →
  (∀ w, Q (mkRVReply (Z.max (currentTerm rf) (rv_Term args)) (vote_rule rf args))
          (vote_state rf args) w) →
  wp (RequestVote args) Q rf.
Proof.
  intros Hwf HQ. unfold RequestVote. wp_step. wp_step. wp_step.
  { wp_steps. assert (vote_rule rf args = false) as Hr by (unfold vote_rule; lia).
    assert (vote_state rf args = rf) as Hs by (unfold vote_state; rewrite Hr; case_match; done || lia).
    rewrite Hr, Hs, Z.max_l in HQ by lia. apply HQ. }
  assert (log_wf (logs (if currentTerm rf <? rv_Term args then newTerm (rv_Term args) rf else rf)))
    as Hwf' by by case_match.
  wp_step. eapply (wp_mono _ (λ _ rf' w,
    rf' = if currentTerm rf <? rv_Term args then newTerm (rv_Term args) rf else rf)).
  { wp_step; [apply wp_setNewTerm|]; case_match; done. }
  intros [] rf' w ->. set (rf' := if currentTerm rf <? rv_Term args then _ else _) in *.
  assert (logs rf' = logs rf) as Hl by by (unfold rf'; case_match).
  wp_step. apply wp_getLastLog; [done|]. rewrite Hl. intros e He Hi.
  assert (Term e = last_term (logs rf)) as Ht by (unfold last_term; by rewrite He).
  rewrite Ht, Hi. fold (up_to_date rf args). wp_step. wp_step. wp_step.
  assert (((votedFor rf' =? -1) || (votedFor rf' =? rv_CandidateId args)) && up_to_date rf args
    = vote_rule rf args) as Hrule.
  { unfold vote_rule, rf'. destruct (currentTerm rf <? rv_Term args) eqn:?; simpl; [done|].
    by assert ((rv_Term args =? currentTerm rf) = true) as -> by lia. }
  assert (Z.max (currentTerm rf) (rv_Term args) = currentTerm rf') as Hct.
  { unfold rf'. case_match; simpl; lia. }
  rewrite Hrule. rewrite Hct in HQ. unfold vote_state in HQ. fold rf' in HQ.
  destruct (vote_rule rf args) eqn:Hvr; wp_steps; apply HQ.
Qed.

Lemma node_ok_vote_state rf args : node_ok rf → node_ok (vote_state rf args) ∧ keeps rf (vote_state rf args).
Proof. intros ?. unfold vote_state. repeat case_match; auto with raft. Qed.

Lemma RequestVote_node rf args :
  node_ok rf → wp (RequestVote args) (λ _ rf' _, node_ok rf' ∧ keeps rf rf') rf.
Proof.
  intros Hok. apply wp_RequestVote; [by apply ok_log|]. intros _. by apply node_ok_vote_state.
Qed.

(** ** Starting an election *)

(** The peer after the election timeout: candidate in the next term, with its own vote. *)
Definition candidate_state rf : Raft Cmd :=
  persisted (set_votedFor (me rf) (set_currentTerm (currentTerm rf + 1) (set_role CANDIDATE rf))).

Definition election_args rf : RequestVoteArgs :=
  mkRVArgs (currentTerm rf + 1) (me rf) (last_idx (logs rf)) (last_term (logs rf)).

(** The requests an election sends: one to every other peer. *)
Definition vote_requests rf : list (Effect Cmd) :=
  (λ p, GoRequestVote p (election_args rf)) <$>
    filter (λ p, p ≠ me rf) (zrange 0 (npeers rf)).

Lemma wp_vote_loop rf args (self : Z) (peers : list Z) :
  wp (for_each peers (λ p, if p =? self then mret tt else emit (GoRequestVote p args)))
    (λ _ rf' w, rf' = rf ∧ w = (λ p, GoRequestVote (Cmd := Cmd) p args) <$> filter (λ p, p ≠ self) peers) rf.
Proof.
  eapply wp_mono; [apply (wp_for_each _ _ (λ pre rf' w,
    rf' = rf ∧ w = (λ p, GoRequestVote (Cmd := Cmd) p args) <$> filter (λ p, p ≠ self) pre) rf [])|].
  - done.
  - intros pre x suf rf' w _ [-> ->]. rewrite filter_app, fmap_app.
    wp_steps; (split; [done|]); f_equal; rewrite filter_cons; case_decide; (done || lia).
  - by intros [] rf' w [-> ?].
Qed.

Lemma wp_tickerElection rf (Q : Election → Raft Cmd → list (Effect Cmd) → Prop) :
  log_wf (logs rf) →
  Q (mkElection (election_args rf) 1 false) (candidate_state rf)
    (vote_requests rf ++ [ResetElectionTimer]) →
  wp tickerElection Q rf.
Proof.
  intros Hwf HQ. unfold tickerElection, StartElection. wp_steps.
  apply wp_getLastLog; [done|]. simpl. intros e He Hi. wp_steps. apply wp_persist. wp_steps.
  eapply wp_mono; [apply wp_vote_loop|]. intros [] rf' w [-> ->]. wp_steps.
  assert (mkRVArgs (currentTerm rf + 1) (me rf) (Index e) (Term e) = election_args rf) as Ha.
  { unfold election_args, last_term. by rewrite He, Hi. }
  cbn [me currentTerm npeers set_votedFor set_currentTerm set_role]. rewrite Ha.
  rewrite !app_nil_r. exact HQ.
Qed.

Lemma node_ok_candidate rf : node_ok rf → node_ok (candidate_state rf).
Proof. intros []. split; simpl; try done. apply durable_persisted. Qed.

Lemma tickerElection_node rf :
  node_ok rf → wp tickerElection (λ _ rf' _, node_ok rf' ∧ keeps rf rf') rf.
Proof.
  intros Hok. apply wp_tickerElection; [by apply ok_log|]. auto using node_ok_candidate with raft.
Qed.
End vote.
