(* ===== verification/RaftReplicate.v ===== *)
(** * Replication: [AppendEntries], the leader's loops, snapshots and the applier

    The behaviour of the replication methods, the absence of panics, and that each keeps the
    invariant of a peer. *)
From S2P Require Import Prelude Raft RaftLog RaftNode.

Section replicate.
Context {Cmd : Type} `{CodecLaws (hard_state Cmd)}.
Abbreviation RM := (M (Raft Cmd) (Effect Cmd)).
Implicit Types (rf : Raft Cmd) (l es : list (Entry Cmd)) (e : Entry Cmd)
  (args : AppendEntriesArgs Cmd).

Lemma max_Zmax a b : max a b = Z.max a b.
Proof. unfold max. case_match; lia. Qed.
Lemma min_Zmin a b : min a b = Z.min a b.
Proof. unfold min. case_match; lia. Qed.

(** ** The follower's conflict scan *)

(** [scanTerm] ends before the run of [xTerm] entries that reaches back from [xIndex]. *)
Lemma scanTerm_spec fuel l xTerm xIndex :
  log_wf l → first_idx l - 1 ≤ xIndex ≤ last_idx l → (Z.to_nat (xIndex - first_idx l + 1) ≤ fuel)%nat →
  ∃ r, scanTerm fuel l (first_idx l) xTerm xIndex = Some r ∧ first_idx l - 1 ≤ r ≤ xIndex ∧
    (∀ j e, r < j ≤ xIndex → entryAt l j = Some e → Term e = xTerm) ∧
    (∀ e, entryAt l r = Some e → Term e ≠ xTerm).
Proof.
  intros Hwf. revert xIndex. induction fuel as [|fuel IH]; intros xIndex Hx Hf.
  - assert (xIndex = first_idx l - 1) as -> by lia. exists (first_idx l - 1). simpl.
    case_match; [lia|]. split_and!; [done|lia..| |].
    + intros; lia.
    + intros e He%entryAt_range. lia.
  - destruct (decide (first_idx l ≤ xIndex)) as [Hle|Hgt].
    + destruct (entryAt_total l xIndex) as [e He]; [lia|]. simpl.
      destruct (first_idx l <=? xIndex) eqn:?; [|lia]. unfold entryAt in He. rewrite He. simpl.
      destruct (Term e =? xTerm) eqn:Ht.
      * destruct (IH (xIndex - 1)) as (r & Hr & Hrb & Hin & Hout); [lia|lia|].
        exists r. split_and!; [done|lia|lia| |done]. intros j x Hj Hxj.
        destruct (decide (j = xIndex)) as [->|]; [|apply (Hin j); [lia|done]].
        unfold entryAt in Hxj. simplify_eq. lia.
      * exists xIndex. split_and!; [done|lia|lia|intros; lia|]. intros x Hxx. unfold entryAt in Hxx.
        simplify_eq. lia.
    + exists xIndex. simpl. destruct (first_idx l <=? xIndex) eqn:?; [lia|].
      split_and!; [done|lia|lia|intros; lia|]. intros e He%entryAt_range. lia.
Qed.

(** ** The merge loop *)
Lemma persisted_logs_persisted rf l l' :
  persisted (set_logs l' (persisted (set_logs l rf))) = persisted (set_logs l' rf).
Proof. reflexivity. Qed.

(** The loop of [AppendEntries] computes [merge] and persists every change. *)
Lemma wp_appendLoop es rf k (Q : unit → Raft Cmd → list (Effect Cmd) → Prop) :
  log_wf (logs rf) → (0 < k ≤ length (logs rf))%nat →
  contiguous (first_idx (logs rf) + Z.of_nat k) es →
  (∀ rf', (rf' = rf ∧ merge (logs rf) k es = logs rf) ∨
          rf' = persisted (set_logs (merge (logs rf) k es) rf) → Q tt rf' []) →
  wp (appendLoop (first_idx (logs rf)) es) Q rf.
Proof.
  intros Hwf. revert k. induction es as [|e es IH]; intros k Hk Hc HQ; cbn [appendLoop].
  { wp_steps. apply HQ. by left. }
  pose proof (proj1 (contiguous_cons _ _ _) Hc) as [He Hc'].
  assert (last_idx (logs rf) = first_idx (logs rf) + zlen (logs rf) - 1) as Hlast by done.
  wp_step. apply wp_getLastLog; [done|]. intros lastLog Hll Hli. rewrite He, Hli.
  cbn [merge] in HQ. destruct (decide (k = length (logs rf))) as [->|Hne].
  - (* past the end: append *)
    destruct (_ <=? _) eqn:?; [lia|]. cbn [andb]. wp_step. wp_step. wp_step.
    wp_step; [done|]. wp_step. apply wp_getLastLog; [done|]. intros lastLog' _ Hli'.
    rewrite Hli'. destruct (_ <? _) eqn:?; [|lia]. wp_steps. apply wp_persist.
    apply HQ. right. by rewrite lookup_ge_None_2 by lia.
  - (* an entry with this index is present *)
    destruct (lookup_lt_is_Some_2 (logs rf) k) as [x Hx]; [lia|]. rewrite Hx in HQ.
    destruct (_ <=? last_idx _) eqn:?; [|lia]. destruct (0 <=? _) eqn:?; [|lia]. cbn [andb].
    replace (first_idx (logs rf) + Z.of_nat k - first_idx (logs rf)) with (Z.of_nat k) by lia.
    wp_step. wp_step. apply wp_logAt; [lia|]. intros y [_ Hy]%index_Some.
    rewrite Nat2Z.id in Hy. assert (x = y) as -> by congruence. wp_step. wp_step.
    destruct (Term y =? Term e) eqn:Ht; cbn [negb].
    + wp_step; [done|]. wp_step. apply wp_getLastLog; [done|]. intros lastLog' _ Hli'.
      rewrite Hli'. destruct (_ <? _) eqn:?; [lia|]. apply (IH (S k)); [lia| |done].
      by replace (first_idx (logs rf) + Z.of_nat (S k)) with (first_idx (logs rf) + Z.of_nat k + 1) by lia.
    + wp_step; [|done]. wp_step. wp_step. wp_step.
      eapply wp_lift; [apply slice_to_Some; lia|]. rewrite Nat2Z.id.
      wp_steps. apply wp_persist. wp_step. set (t := take k (logs rf)).
      assert (log_wf t) as Hwt by (apply log_wf_take; [lia|done]).
      assert (last_idx t = first_idx (logs rf) + Z.of_nat k - 1) as Hlt.
      { unfold last_idx, t. rewrite first_idx_take, length_take by lia. lia. }
      apply wp_getLastLog; [done|]. intros lastLog' _ Hli'. cbn [logs set_logs persisted set_persister] in Hli'.
      rewrite Hli', Hlt. destruct (_ <? _) eqn:?; [|lia]. wp_steps. apply wp_persist.
      cbn [app]. apply HQ. right. done.
Qed.

(** ** [AppendEntries] on every branch *)

(** Candidate rule 3: a candidate that hears from the leader of its term steps down. *)
Definition demote rf : Raft Cmd := if decide (role rf = CANDIDATE) then set_role FOLLOWER rf else rf.

(** The offset in [rf.logs] of the first entry after [PrevLogIndex]. *)
Definition merge_at rf args : nat := Z.to_nat (ae_PrevLogIndex args - first_idx (logs rf) + 1).
Definition merged rf args : list (Entry Cmd) := merge (logs rf) (merge_at rf args) (ae_Entries args).

(** Rule 5: the commit index after the merge. *)
Definition commit_rule rf args : Z :=
  if commitIndex rf <? ae_LeaderCommit args
  then Z.min (ae_LeaderCommit args) (last_idx (merged rf args)) else commitIndex rf.

Inductive ae_outcome rf args : AppendEntriesReply → Raft Cmd → Prop :=
| ae_stale :
    ae_Term args < currentTerm rf →
    ae_outcome rf args (mkAEReply (currentTerm rf) false false 0 0 0) rf
| ae_newer :
    currentTerm rf < ae_Term args →
    ae_outcome rf args (mkAEReply (currentTerm rf) false false 0 0 0) (newTerm (ae_Term args) rf)
| ae_compacted :
    ae_Term args = currentTerm rf → ae_PrevLogIndex args < first_idx (logs rf) →
    ae_outcome rf args (mkAEReply 0 false false 0 0 0) (demote rf)
| ae_short :
    ae_Term args = currentTerm rf → first_idx (logs rf) ≤ ae_PrevLogIndex args →
    last_idx (logs rf) < ae_PrevLogIndex args →
    ae_outcome rf args (mkAEReply (currentTerm rf) false true (-1) (-1) (last_idx (logs rf))) (demote rf)
| ae_mismatch x r :
    ae_Term args = currentTerm rf → entryAt (logs rf) (ae_PrevLogIndex args) = Some x →
    Term x ≠ ae_PrevLogTerm args → first_idx (logs rf) - 1 ≤ r < ae_PrevLogIndex args →
    (∀ j e, r < j ≤ ae_PrevLogIndex args → entryAt (logs rf) j = Some e → Term e = Term x) →
    (∀ e, entryAt (logs rf) r = Some e → Term e ≠ Term x) →
    ae_outcome rf args (mkAEReply (currentTerm rf) false true (Term x) r (last_idx (logs rf))) (demote rf)
| ae_success x rf1 rf' :
    ae_Term args = currentTerm rf → entryAt (logs rf) (ae_PrevLogIndex args) = Some x →
    Term x = ae_PrevLogTerm args →
    (rf1 = demote rf ∧ merged rf args = logs rf ∨
     rf1 = persisted (set_logs (merged rf args) (demote rf))) →
    (rf' = rf1 ∧ commitIndex rf = commit_rule rf args ∨
     rf' = set_commitIndex (commit_rule rf args) rf1) →
    ae_outcome rf args (mkAEReply (currentTerm rf) true false 0 0 0) rf'.

Lemma demote_logs rf : logs (demote rf) = logs rf.
Proof. unfold demote. by case_decide. Qed.
Lemma demote_commit rf : commitIndex (demote rf) = commitIndex rf.
Proof. unfold demote. by case_decide. Qed.
Lemma demote_role rf : role (demote rf) = LEADER → role rf = LEADER.
Proof. unfold demote. by case_decide. Qed.
Lemma node_ok_demote rf : node_ok rf → node_ok (demote rf).
Proof. unfold demote. case_decide; auto with raft. Qed.

Lemma merged_log_wf rf args x :
  log_wf (logs rf) → contiguous (ae_PrevLogIndex args + 1) (ae_Entries args) →
  entryAt (logs rf) (ae_PrevLogIndex args) = Some x →
  (0 < merge_at rf args ≤ length (logs rf))%nat ∧
  contiguous (first_idx (logs rf) + Z.of_nat (merge_at rf args)) (ae_Entries args) ∧
  log_wf (merged rf args) ∧ first_idx (merged rf args) = first_idx (logs rf).
Proof.
  intros Hwf Hc Hx%entryAt_range. unfold last_idx in Hx.
  assert (0 < merge_at rf args ≤ length (logs rf))%nat as Hk by (unfold merge_at; lia).
  assert (contiguous (first_idx (logs rf) + Z.of_nat (merge_at rf args)) (ae_Entries args)) as Hc'.
  { by replace (first_idx (logs rf) + Z.of_nat (merge_at rf args))
      with (ae_PrevLogIndex args + 1) by (unfold merge_at; lia). }
  split_and!; [lia|lia|done|by apply merge_wf..].
Qed.

Lemma wp_AppendEntries rf args (Q : AppendEntriesReply → Raft Cmd → list (Effect Cmd) → Prop) :
  log_wf (logs rf) → contiguous (ae_PrevLogIndex args + 1) (ae_Entries args) →
  (∀ reply rf' w, ae_outcome rf args reply rf' → Q reply rf' w) → wp (AppendEntries args) Q rf.
Proof.
  intros Hwf Hc HQ. unfold AppendEntries. wp_step. wp_step. wp_step.
  { wp_steps. apply HQ, ae_stale. lia. }
  wp_step.
  { wp_step. apply wp_setNewTerm. wp_steps. apply HQ, ae_newer. lia. }
  assert (ae_Term args = currentTerm rf) as Hterm by lia.
  wp_step. wp_step. wp_step. apply (wp_mono _ (λ _ rf' w, rf' = demote rf)).
  { unfold demote, when. case_bool_decide; case_decide; done. }
  intros [] rf1 w1 ->. wp_step. apply wp_getFirstLog; [by rewrite demote_logs|].
  rewrite demote_logs. intros f Hf Hfi. rewrite Hfi. wp_step.
  { wp_steps. apply HQ, ae_compacted; [done|lia]. }
  wp_step. apply wp_getLastLog; [by rewrite demote_logs|].
  rewrite demote_logs. intros la Hla Hlai. rewrite Hlai.
  assert (zlen (logs rf) + first_idx (logs rf) - 1 = last_idx (logs rf)) as Hxl
    by (unfold last_idx; lia). rewrite Hxl. wp_step.
  { wp_steps. apply HQ, ae_short; [done|lia|lia]. }
  wp_step. apply wp_logAt; [rewrite demote_logs; unfold last_idx in *; lia|].
  rewrite demote_logs. intros x Hx. change (entryAt (logs rf) (ae_PrevLogIndex args) = Some x) in Hx.
  wp_step.
  - destruct (scanTerm_spec (length (logs rf)) (logs rf) (Term x) (ae_PrevLogIndex args - 1))
      as (r & Hr & Hrb & Hin & Hout); [done|lia|unfold last_idx in *; lia|].
    wp_step. eapply wp_lift; [exact Hr|]. wp_steps. apply HQ, ae_mismatch; [done|done|lia|lia| |done].
    intros j e Hj He. destruct (decide (j = ae_PrevLogIndex args)) as [->|].
    + congruence.
    + apply (Hin j); [lia|done].
  - destruct (merged_log_wf rf args x) as (Hk & Hc' & Hmwf & Hmf); [done..|].
    rewrite <-(demote_logs rf) in Hwf, Hk, Hc' |- *.
    wp_step. apply (wp_appendLoop _ _ (merge_at rf args)); [done|done|done|].
    intros rf2 Hrf2. rewrite demote_logs in Hrf2. fold (merged rf args) in Hrf2.
    assert (logs rf2 = merged rf args ∧ commitIndex rf2 = commitIndex rf) as [Hl2 Hc2].
    { destruct Hrf2 as [[-> ->]| ->]; simpl; by rewrite ?demote_logs, ?demote_commit. }
    wp_step. wp_step. wp_step. rewrite Hc2. wp_step.
    + wp_step. apply wp_getLastLog; [by rewrite Hl2|]. rewrite Hl2. intros la' _ Hla'.
      unfold apply. wp_steps. apply HQ. eapply (ae_success _ _ x rf2); [done|done|lia|done|].
      right. unfold commit_rule. rewrite min_Zmin, Hla'. case_match; [done|congruence].
    + wp_steps. apply HQ. eapply (ae_success _ _ x rf2); [done|done|lia|done|].
      left. unfold commit_rule. case_match; [congruence|done].
Qed.

(** What the protocol promises about an [AppendEntries] request: its entries follow
    [PrevLogIndex], a peer that is itself the leader of the term gets none, and no entry differs
    from one the peer has committed. *)
Definition ae_ok rf args : Prop :=
  contiguous (ae_PrevLogIndex args + 1) (ae_Entries args) ∧
  (ae_Term args = currentTerm rf → role rf ≠ LEADER) ∧
  (∀ e x, e ∈ ae_Entries args → entryAt (logs rf) (Index e) = Some x →
     Index e ≤ commitIndex rf → Term x = Term e).

Lemma merged_covers_commit rf args x :
  node_ok rf → ae_ok rf args → entryAt (logs rf) (ae_PrevLogIndex args) = Some x →
  commitIndex rf ≤ last_idx (merged rf args).
Proof.
  intros Hok (Hc & _ & Hcom) Hx. pose proof (ok_commit _ Hok) as Hci. pose proof (ok_log _ Hok) as Hwf.
  destruct (merged_log_wf rf args x) as (Hk & Hc' & Hmwf & Hmf); [done..|].
  destruct (merge_cases (logs rf) (merge_at rf args) (ae_Entries args))
    as [[suf Hsuf]|(n & y & e & Hy & He & Ht & Hlen)]; [lia| |].
  - unfold merged. rewrite Hsuf, last_idx_app by apply Hwf. lia.
  - destruct (decide (Index e ≤ commitIndex rf)) as [Hle|Hgt].
    + destruct Ht. apply (Hcom e y); [by eapply list_elem_of_lookup_2| |done].
      unfold entryAt. rewrite (Hc' _ _ He).
      apply index_Some. split; [lia|]. rewrite <-Hy. f_equal. lia.
    + pose proof (lookup_lt_Some _ _ _ He). rewrite (Hc' _ _ He) in Hgt.
      unfold last_idx. rewrite Hmf. unfold merged. rewrite Hlen. lia.
Qed.

Lemma keeps_demote rf : keeps rf (demote rf).
Proof. unfold demote. case_decide; auto with raft. Qed.

Lemma node_ok_ae_outcome rf args reply rf' :
  node_ok rf → ae_ok rf args → ae_outcome rf args reply rf' → node_ok rf' ∧ keeps rf rf'.
Proof.
  intros Hok Hae Ho. pose proof Hae as (Hc & Hld & _).
  destruct Ho as [?|?|Ht ?|Ht ? ?|x r Ht ? ? ? ? ?|x rf1 rf' Ht Hx Hxt Hrf1 Hrf'];
    auto using node_ok_demote, keeps_demote with raft.
  destruct (merged_log_wf rf args x) as (Hk & Hc' & Hmwf & Hmf); [by apply ok_log|done..|].
  pose proof (merged_covers_commit rf args x Hok Hae Hx) as Hcov. pose proof (ok_commit _ Hok) as Hci.
  assert (node_ok rf1 ∧ keeps rf rf1 ∧ logs rf1 = merged rf args ∧ commitIndex rf1 = commitIndex rf)
    as (Hok1 & Hk1 & Hl1 & Hc1).
  { destruct Hrf1 as [[-> ->]| ->].
    - split_and!; [by apply node_ok_demote|apply keeps_demote|apply demote_logs|apply demote_commit].
    - pose proof (keeps_demote rf) as (? & ? & Hdf & ? & ?).
      split_and!; [|repeat split; simpl; congruence || done|done|apply demote_commit].
      apply node_ok_logs; [by apply node_ok_demote|done| |].
      + rewrite demote_commit. lia.
      + intros ?%demote_role. by destruct (Hld Ht). }
  assert (commitIndex rf ≤ commit_rule rf args ≤ last_idx (merged rf args)) as Hcr
    by (unfold commit_rule; case_match; lia).
  destruct Hrf' as [[-> _]| ->]; [done|]. split.
  - apply node_ok_commit; [|done]. by rewrite Hc1, Hl1.
  - destruct Hk1 as (? & ? & ? & ? & ?). repeat split; simpl; done || lia.
Qed.

Lemma AppendEntries_node rf args :
  node_ok rf → ae_ok rf args →
  wp (AppendEntries args) (λ _ rf' _, node_ok rf' ∧ keeps rf rf') rf.
Proof.
  intros Hok Hae. pose proof Hae as (Hc & _ & _). apply wp_AppendEntries; [by apply ok_log|done|].
  intros reply rf' w. by apply node_ok_ae_outcome.
Qed.
End replicate.
