(* ===== verification/RaftLeader.v ===== *)
(** * The leader: sending entries, handling replies, committing

    What [appendEntries] sends, what [sendAppendEntryAndUpdate] and [leaderCommitLog] make of the
    replies, and [Start] and [becomeLeader], with the invariant kept by each. *)
From S2P Require Import Prelude Raft RaftLog RaftNode RaftReplicate RaftVote.

Section leader.
Context {Cmd : Type} `{CodecLaws (hard_state Cmd)}.
Implicit Types (rf : Raft Cmd) (l : list (Entry Cmd)) (e : Entry Cmd) (args : AppendEntriesArgs Cmd).

(** ** What a leader sends *)

(** An [AppendEntries] request built from the sender's log: the whole suffix after
    [PrevLogIndex]. *)
Definition leader_args rf args : Prop :=
  ∃ x, entryAt (logs rf) (ae_PrevLogIndex args) = Some x ∧
    args = mkAEArgs (currentTerm rf) (me rf) (ae_PrevLogIndex args) (Term x)
      (drop (Z.to_nat (ae_PrevLogIndex args - first_idx (logs rf) + 1)) (logs rf)) (commitIndex rf).

Definition snapshot_args rf : InstallSnapshotArgs :=
  mkISArgs (currentTerm rf) (first_idx (logs rf))
    (match logs rf with e :: _ => Term e | [] => 0 end) (ReadSnapshot (persister rf)).

(** The message for one peer: a suffix of the log, or the snapshot when the log no longer has the
    entry before [nextIndex]. *)
Inductive peer_message rf (heartbeat : bool) (peer : Z) : list (Effect Cmd) → Prop :=
| msg_self : peer = me rf → peer_message rf heartbeat peer [ResetElectionTimer]
| msg_none next :
    peer ≠ me rf → index (nextIndex rf) peer = Some next → heartbeat = false →
    last_idx (logs rf) < next → peer_message rf heartbeat peer []
| msg_snapshot next :
    peer ≠ me rf → index (nextIndex rf) peer = Some next → next ≤ first_idx (logs rf) →
    peer_message rf heartbeat peer [GoInstallSnapshot peer (snapshot_args rf)]
| msg_entries next args :
    peer ≠ me rf → index (nextIndex rf) peer = Some next → ae_PrevLogIndex args = next - 1 →
    leader_args rf args → peer_message rf heartbeat peer [GoAppendEntries peer args].

Lemma wp_appendEntriesPeer rf heartbeat peer (Q : unit → Raft Cmd → list (Effect Cmd) → Prop) :
  log_wf (logs rf) → 0 ≤ peer < zlen (nextIndex rf) →
  Forall (λ v, v ≤ last_idx (logs rf) + 1) (nextIndex rf) →
  (∀ w, peer_message rf heartbeat peer w → Q tt rf w) →
  wp (appendEntriesPeer heartbeat (last_idx (logs rf)) peer) Q rf.
Proof.
  intros Hwf Hp Hn HQ. unfold appendEntriesPeer. wp_step. wp_step. wp_step.
  { wp_steps. apply HQ, msg_self. lia. }
  destruct (index_total (nextIndex rf) peer) as [next Hnext]; [done|].
  assert (next ≤ last_idx (logs rf) + 1) as Hb.
  { apply index_Some in Hnext as [_ Hnext]. exact (Forall_lookup_1 _ _ _ _ Hn Hnext). }
  wp_step. eapply wp_lift; [exact Hnext|]. wp_step.
  2: { apply orb_false_iff in Hwhen as [-> ?]. apply HQ. eapply msg_none; [lia|done|done|lia]. }
  wp_step. apply wp_getFirstLog; [done|]. intros f Hf Hfi. rewrite Hfi. wp_step.
  - wp_steps. apply HQ. cbn [app]. replace (mkISArgs _ _ _ _) with (snapshot_args rf).
    { eapply msg_snapshot; [lia|done|lia]. }
    unfold snapshot_args. f_equal. destruct (logs rf); [done|]. rewrite index_cons_0 in Hf. by simplify_eq.
  - wp_step. apply wp_logAt; [unfold last_idx in *; lia|]. intros x Hx.
    wp_step. eapply wp_lift; [apply slice_from_Some; unfold last_idx in *; lia|].
    wp_steps. apply HQ. cbn [app]. pose proof (index_log_wf _ _ _ Hwf Hx) as Hxi.
    assert (Index x = next - 1) as -> by lia.
    eapply msg_entries; [lia|done|done|]. exists x. split; [done|]. done.
Qed.

(** [appendEntries] changes nothing in the sender; its messages are those of the peers in order. *)
Lemma wp_appendEntries rf heartbeat (Q : unit → Raft Cmd → list (Effect Cmd) → Prop) :
  log_wf (logs rf) → zlen (nextIndex rf) = npeers rf →
  Forall (λ v, v ≤ last_idx (logs rf) + 1) (nextIndex rf) →
  (∀ ws, Forall2 (peer_message rf heartbeat) (zrange 0 (npeers rf)) ws → Q tt rf (concat ws)) →
  wp (appendEntries heartbeat) Q rf.
Proof.
  intros Hwf Hlen Hn HQ. unfold appendEntries. wp_step. apply wp_getLastLog; [done|].
  intros la _ Hla. rewrite Hla. wp_steps.
  eapply wp_mono; [apply (wp_for_each _ _ (λ pre rf' w, rf' = rf ∧
    ∃ ws, Forall2 (peer_message rf heartbeat) pre ws ∧ w = concat ws) rf [])|].
  - split; [done|]. exists []. by split.
  - intros pre x suf rf' w Hsplit [-> (ws & Hws & ->)]. apply wp_appendEntriesPeer; [done| |done|].
    + assert (x ∈ zrange 0 (npeers rf)) as Hin by (rewrite Hsplit; set_solver).
      apply elem_of_zrange in Hin. lia.
    + intros w Hw. split; [done|]. exists (ws ++ [w]). split; [apply Forall2_app; [done|by repeat constructor]|].
      rewrite concat_app. simpl. by rewrite app_nil_r.
  - intros [] rf' w [-> (ws & Hws & Hw)]. cbn [app] in Hw |- *. rewrite Hw. by apply HQ.
Qed.

(** A leader's request satisfies the shape [AppendEntries] relies on, reaches its own last entry,
    and never advertises a commit index past it. *)
Lemma leader_args_shape rf args :
  node_ok rf → leader_args rf args →
  contiguous (ae_PrevLogIndex args + 1) (ae_Entries args) ∧
  ae_PrevLogIndex args + zlen (ae_Entries args) = last_idx (logs rf) ∧
  ae_LeaderCommit args ≤ ae_PrevLogIndex args + zlen (ae_Entries args).
Proof.
  intros Hok (x & Hx & ->). simpl. pose proof (ok_log _ Hok) as [_ Hc]. pose proof (ok_commit _ Hok).
  apply entryAt_range in Hx. unfold last_idx in *. rewrite length_drop. split_and!; [|lia|lia].
  set (p := ae_PrevLogIndex args) in *.
  replace (p + 1) with (first_idx (logs rf) + Z.of_nat (Z.to_nat (p - first_idx (logs rf) + 1))) by lia.
  by apply contiguous_drop.
Qed.

(** What a critical section that may run a round of [appendEntries(true)] leaves behind. *)
Definition round_sent rf (w : list (Effect Cmd)) : Prop :=
  w = [] ∨ role rf = LEADER ∧ ∃ ws, Forall2 (peer_message rf true) (zrange 0 (npeers rf)) ws ∧
    w = concat ws ++ [ResetHeartbeatTimer].

Lemma wp_tickerHeartbeat rf (Q : unit → Raft Cmd → list (Effect Cmd) → Prop) :
  node_ok rf → (∀ w, round_sent rf w → Q tt rf w) → wp tickerHeartbeat Q rf.
Proof.
  intros Hok HQ. unfold tickerHeartbeat. wp_step. wp_step. wp_step; [|apply HQ; by left].
  wp_step. pose proof (bool_decide_eq_true_1 _ Hwhen) as Hr.
  apply wp_appendEntries; [by apply ok_log|by apply ok_next|by apply ok_leader|].
  intros ws Hws. wp_steps. cbn [app]. apply HQ. right. eauto.
Qed.

Lemma tickerHeartbeat_node rf :
  node_ok rf → wp tickerHeartbeat (λ _ rf' _, rf' = rf) rf.
Proof. intros Hok. by apply wp_tickerHeartbeat. Qed.

(** ** [Start] *)
Definition start_state rf (command : option Cmd) : Raft Cmd :=
  persisted (set_logs (logs rf ++ [mkEntry (last_idx (logs rf) + 1) (currentTerm rf) command]) rf).

Lemma node_ok_start rf command : node_ok rf → node_ok (start_state rf command).
Proof.
  intros Hok. pose proof (ok_log _ Hok) as Hwf. pose proof (ok_commit _ Hok).
  assert (last_idx (logs rf ++ [mkEntry (last_idx (logs rf) + 1) (currentTerm rf) command])
    = last_idx (logs rf) + 1) as Hl by (rewrite last_idx_app by apply Hwf; done).
  apply node_ok_logs; [done| |rewrite Hl, first_idx_app by apply Hwf; lia|lia].
  apply log_wf_app; [done|]. apply contiguous_cons. split; [done|apply contiguous_nil].
Qed.

Lemma wp_Start rf command (Q : Z * Z * bool → Raft Cmd → list (Effect Cmd) → Prop) :
  node_ok rf →
  (role rf ≠ LEADER → Q (-1, -1, false) rf []) →
  (∀ ws, role rf = LEADER →
     Forall2 (peer_message (start_state rf command) false) (zrange 0 (npeers rf)) ws →
     Q (last_idx (logs rf) + 1, currentTerm rf, true) (start_state rf command) (concat ws)) →
  wp (Start command) Q rf.
Proof.
  intros Hok HF HL. unfold Start. wp_step. wp_step. case_bool_decide as Hr; cbn [negb]; [|by apply wp_ret, HF].
  wp_step. apply wp_getLastLog; [by apply ok_log|]. intros la _ Hla. rewrite Hla. wp_steps.
  apply wp_persist. fold (start_state rf command). pose proof (node_ok_start rf command Hok) as Hok'.
  wp_step. apply wp_appendEntries; [by apply ok_log|by apply ok_next|by apply ok_leader|].
  intros ws Hws. wp_steps. cbn [app]. rewrite app_nil_r. by apply HL.
Qed.

(** ** Committing *)

(** The peers other than the leader known to store index [i]. *)
Definition stored_by rf (i : Z) (s : Z) : bool :=
  if s =? me rf then false
  else match index (matchIndex rf) s with Some m => i <=? m | None => false end.
Definition replicas rf (i : Z) (servers : list Z) : Z := zlen (filter (stored_by rf i) servers).

(** Leader rule 4: an entry of the current term stored by a majority. *)
Definition committable rf (i : Z) : bool :=
  match entryAt (logs rf) i with
  | Some e => (Term e =? currentTerm rf) && (npeers rf / 2 <? 1 + replicas rf i (zrange 0 (npeers rf)))
  | None => false
  end.

Lemma replicas_nil rf i : replicas rf i [] = 0.
Proof. done. Qed.

Lemma replicas_cons rf i s servers :
  replicas rf i (s :: servers) = (if stored_by rf i s then 1 else 0) + replicas rf i servers.
Proof.
  unfold replicas. rewrite filter_cons.
  case_decide; destruct (stored_by rf i s); simpl in *; done || lia.
Qed.

Lemma replicas_nonneg rf i servers : 0 ≤ replicas rf i servers.
Proof. unfold replicas. lia. Qed.

Lemma countMatch_step rf i cnt s servers :
  zlen (matchIndex rf) = npeers rf → 0 ≤ s < npeers rf →
  countMatch rf i cnt (s :: servers) =
    (let cnt' := cnt + (if stored_by rf i s then 1 else 0) in
     if npeers rf / 2 <? cnt' then Some true else countMatch rf i cnt' servers).
Proof.
  intros Hm Hs. cbn [countMatch]. unfold stored_by. destruct (s =? me rf); simpl; [by rewrite Z.add_0_r|].
  destruct (index_total (matchIndex rf) s) as [m ->]; [lia|]. simpl.
  destruct (i <=? m); by rewrite ?Z.add_0_r.
Qed.

(** The counting loop decides whether the leader and the peers that store [i] are a majority. *)
Lemma countMatch_cons rf i cnt s servers :
  zlen (matchIndex rf) = npeers rf → (∀ x, x ∈ s :: servers → 0 ≤ x < npeers rf) →
  countMatch rf i cnt (s :: servers) = Some (npeers rf / 2 <? cnt + replicas rf i (s :: servers)).
Proof.
  intros Hm. revert s cnt. induction servers as [|s' servers IH]; intros s cnt Hin;
    rewrite countMatch_step by (done || (apply Hin; left)); cbn zeta; rewrite replicas_cons, Z.add_assoc.
  - rewrite replicas_nil, Z.add_0_r. by case_match.
  - pose proof (replicas_nonneg rf i (s' :: servers)). case_match eqn:Hc; [f_equal; lia|].
    apply IH. intros x Hx. apply Hin. by right.
Qed.

Lemma countMatch_peers rf i :
  node_ok rf → countMatch rf i 1 (zrange 0 (npeers rf))
  = Some (npeers rf / 2 <? 1 + replicas rf i (zrange 0 (npeers rf))).
Proof.
  intros Hok. pose proof (ok_me _ Hok). pose proof (ok_match _ Hok).
  rewrite (zrange_cons 0 (npeers rf)) by lia. apply countMatch_cons; [done|].
  rewrite <-zrange_cons by lia. intros x. by rewrite elem_of_zrange.
Qed.

(** The count does not look at the commit index. *)
Lemma countMatch_commit rf c i cnt servers :
  countMatch (set_commitIndex c rf) i cnt servers = countMatch rf i cnt servers.
Proof.
  revert cnt. induction servers as [|s servers IH]; intros cnt; [done|]. cbn [countMatch].
  cbn [me matchIndex npeers set_commitIndex].
  destruct (if s =? me rf then _ else _); simpl; [|done]. by rewrite IH.
Qed.

Lemma commit_self rf : set_commitIndex (commitIndex rf) rf = rf.
Proof. by destruct rf. Qed.

(** The commit index [leaderCommitLog] picks: the last committable index, if any. *)
Definition commit_choice rf (c : Z) : Prop :=
  (c = commitIndex rf ∨ commitIndex rf < c ≤ last_idx (logs rf) ∧ committable rf c = true) ∧
  (∀ i, c < i ≤ last_idx (logs rf) → committable rf i = false).

Lemma wp_commitAt rf i c (Q : unit → Raft Cmd → list (Effect Cmd) → Prop) :
  node_ok rf → first_idx (logs rf) ≤ i ≤ last_idx (logs rf) →
  (∀ w, Q tt (set_commitIndex (if committable rf i then i else c) rf) w) →
  wp (commitAt i) Q (set_commitIndex c rf).
Proof.
  intros Hok Hi HQ. pose proof (ok_log _ Hok) as Hwf. unfold commitAt.
  wp_step. apply wp_getFirstLog; [done|]. intros f _ Hf. rewrite Hf.
  wp_step. apply wp_logAt; [simpl; unfold last_idx in *; lia|].
  cbn [logs set_commitIndex]. intros e He. wp_steps.
  all: unfold committable, entryAt in HQ; rewrite He in HQ; cbn [currentTerm set_commitIndex] in *.
  - destruct (Term e =? currentTerm rf); [done|]. apply HQ.
  - destruct (Term e =? currentTerm rf); [|done]. cbn [andb] in HQ.
    eapply wp_lift; [rewrite countMatch_commit; apply (countMatch_peers rf i Hok)|].
    destruct (_ <? _); unfold apply; wp_steps; done || apply HQ.
Qed.

Lemma wp_leaderCommitLog rf (Q : unit → Raft Cmd → list (Effect Cmd) → Prop) :
  node_ok rf →
  (∀ c w, (role rf = LEADER → commit_choice rf c) → (role rf ≠ LEADER → c = commitIndex rf) →
     Q tt (set_commitIndex c rf) w) →
  wp leaderCommitLog Q rf.
Proof.
  intros Hok HQ. pose proof (ok_commit _ Hok) as Hci. unfold leaderCommitLog. wp_step. wp_step.
  case_bool_decide as Hr; cbn [negb].
  2: { wp_steps. specialize (HQ (commitIndex rf) []). rewrite commit_self in HQ. by apply HQ. }
  wp_step. apply wp_getLastLog; [by apply ok_log|]. intros la _ Hla. rewrite Hla.
  eapply wp_mono; [apply (wp_for_each _ _ (λ pre rf' _, ∃ c, rf' = set_commitIndex c rf ∧
    (c = commitIndex rf ∨ commitIndex rf < c ≤ last_idx (logs rf) ∧ committable rf c = true) ∧
    ∀ i, i ∈ pre → c < i → committable rf i = false) rf [])|].
  - exists (commitIndex rf). split_and!; [by rewrite commit_self|by left|]. intros i Hi. by apply elem_of_nil in Hi.
  - intros pre x suf rf' w Hsplit (c & -> & Hc & Hmax).
    apply zrange_split in Hsplit as [Hx ->].
    apply wp_commitAt; [done|lia|]. intros w'. eexists; split; [done|].
    destruct (committable rf x) eqn:Hcx; split.
    + right. split; [lia|done].
    + intros i [Hi|Hi%list_elem_of_singleton]%elem_of_app Hlt; [|lia]. apply elem_of_zrange in Hi. lia.
    + done.
    + intros i [Hi|Hi%list_elem_of_singleton]%elem_of_app Hlt; [by apply Hmax|by subst].
  - intros [] rf' w (c & -> & Hc & Hmax). apply HQ; [|done]. intros _. split; [done|].
    intros i Hi. apply Hmax; [|lia]. apply elem_of_zrange. destruct Hc as [->|[? _]]; lia.
Qed.

(** ** Looking for a conflicting term *)

(** [l] has an entry at a positive index up to [i] whose term is at most [term], or reaches down to
    index 0: then the scan of [findLastLogInXTerm] stops inside the log. *)
Definition scannable l (term i : Z) : Prop :=
  first_idx l ≤ 0 ∨ ∃ j e, j ≤ i ∧ entryAt l j = Some e ∧ Term e ≤ term.

Definition scan_result l (term i r : Z) : Prop :=
  (r = -1 ∧ ∃ k, 0 ≤ k ∧ (∀ j e, k < j ≤ i → entryAt l j = Some e → term < Term e) ∧
     (∀ e, 0 < k → entryAt l k = Some e → Term e < term)) ∨
  (0 < r ≤ i ∧ (∃ e, entryAt l r = Some e ∧ Term e = term) ∧
     ∀ j e, r < j ≤ i → entryAt l j = Some e → term < Term e).

Lemma findLastLoop_spec fuel l term i :
  log_wf l → i ≤ last_idx l → (Z.to_nat i ≤ fuel)%nat → scannable l term i →
  ∃ r, findLastLoop fuel l (first_idx l) term i = Some r ∧ scan_result l term i r.
Proof.
  intros Hwf. revert i. induction fuel as [|fuel IH]; intros i Hi Hf Hs.
  { exists (-1). simpl. case_match; [lia|]. split; [done|]. left. split; [done|].
    exists 0. split_and!; intros; lia. }
  cbn [findLastLoop]. destruct (0 <? i) eqn:Hi0.
  2: { exists (-1). split; [done|]. left. split; [done|]. exists 0. split_and!; intros; lia. }
  assert (first_idx l ≤ i) as Hfi by (destruct Hs as [?|(j & e & ? & He%entryAt_range & ?)]; lia).
  destruct (entryAt_total l i) as [e He]; [lia|]. unfold entryAt in He. rewrite He. simpl.
  destruct (Term e =? term) eqn:Ht1.
  { exists i. split; [done|]. right. split_and!; [lia|lia| |intros; lia]. exists e. split; [done|lia]. }
  destruct (Term e <? term) eqn:Ht2.
  { exists (-1). split; [done|]. left. split; [done|]. exists i. split_and!; [lia|intros; lia|].
    intros x _ Hx. unfold entryAt in Hx. simplify_eq. lia. }
  destruct (IH (i - 1)) as (r & Hr & Hres); [lia|lia| |].
  { destruct Hs as [?|(j & x & Hj & Hx & Hxt)]; [by left|]. right. exists j, x. split_and!; [|done|done].
    destruct (decide (j = i)) as [->|]; [|lia]. unfold entryAt in Hx. simplify_eq. lia. }
  exists r. split; [done|].
  assert (∀ j x, i - 1 < j ≤ i → entryAt l j = Some x → term < Term x) as Htop.
  { intros j x Hj Hx. assert (j = i) as -> by lia. unfold entryAt in Hx. simplify_eq. lia. }
  destruct Hres as [(-> & k & Hk & Hgt & Hk')|(Hrb & Hre & Hgt)]; [left|right].
  - split; [done|]. exists k. split_and!; [done| |done]. intros j x Hj Hx.
    destruct (decide (j ≤ i - 1)); [apply (Hgt j)|apply (Htop j)]; done || lia.
  - split_and!; [lia|lia|done|]. intros j x Hj Hx.
    destruct (decide (j ≤ i - 1)); [apply (Hgt j)|apply (Htop j)]; done || lia.
Qed.

(** When the log starts past index 1 and every term is above [term], the scan leaves the log. *)
Lemma findLastLoop_panic fuel l term i :
  log_wf l → 1 < first_idx l ≤ i + 1 → (Z.to_nat i ≤ fuel)%nat → i ≤ last_idx l →
  (∀ j e, j ≤ i → entryAt l j = Some e → term < Term e) →
  findLastLoop fuel l (first_idx l) term i = None.
Proof.
  intros Hwf. revert i. induction fuel as [|fuel IH]; intros i Hi Hf Hl Hgt; [lia|].
  cbn [findLastLoop]. destruct (0 <? i) eqn:?; [|lia].
  destruct (decide (i = first_idx l - 1)) as [->|].
  { assert (index l (first_idx l - 1 - first_idx l) = None) as Hn
      by (unfold index; case_match; [lia|done]). by rewrite Hn. }
  destruct (entryAt_total l i) as [e He]; [lia|]. pose proof (Hgt i e (Z.le_refl i) He).
  unfold entryAt in He. rewrite He. simpl. destruct (Term e =? term) eqn:?; [lia|].
  destruct (Term e <? term) eqn:?; [lia|]. apply IH; [lia|lia|lia|].
  intros j x Hj. apply Hgt. lia.
Qed.

Lemma wp_findLastLogInXTerm rf term (Q : Z → Raft Cmd → list (Effect Cmd) → Prop) :
  log_wf (logs rf) → scannable (logs rf) term (last_idx (logs rf)) →
  (∀ r, scan_result (logs rf) term (last_idx (logs rf)) r → Q r rf []) →
  wp (findLastLogInXTerm term) Q rf.
Proof.
  intros Hwf Hs HQ. unfold findLastLogInXTerm. wp_step. apply wp_getLastLog; [done|].
  intros la _ Hla. wp_step. apply wp_getFirstLog; [done|]. intros f _ Hf. wp_steps. rewrite Hla, Hf.
  destruct (findLastLoop_spec (Z.to_nat (last_idx (logs rf))) (logs rf) term (last_idx (logs rf)))
    as (r & Hr & Hres); [done|lia|lia|done|].
  eapply wp_lift; [exact Hr|]. by apply HQ.
Qed.

(** ** Replies *)

(** What an [AppendEntries] reply to this leader's request can say: the hints point into its log. *)
Definition reply_ok rf (serverId : Z) args (reply : AppendEntriesReply) : Prop :=
  0 ≤ serverId < npeers rf ∧
  (role rf = LEADER → ae_Term args = currentTerm rf →
     ae_PrevLogIndex args + zlen (ae_Entries args) ≤ last_idx (logs rf) ∧
     (aer_XTerm reply = -1 → aer_XLen reply ≤ last_idx (logs rf) + 1) ∧
     aer_XIndex reply ≤ last_idx (logs rf) + 1) ∧
  (aer_Conflict reply = true → aer_XTerm reply ≠ -1 →
     scannable (logs rf) (aer_XTerm reply) (last_idx (logs rf))).

Lemma node_ok_bound rf i v : node_ok rf → role rf = LEADER → index (nextIndex rf) i = Some v →
  v ≤ last_idx (logs rf) + 1.
Proof.
  intros Hok Hr [_ Hv]%index_Some. exact (Forall_lookup_1 _ _ _ _ (ok_leader _ Hok Hr) Hv).
Qed.

(** The bookkeeping of a leader after a reply of peer [s]. *)
Definition reply_noted rf (s : Z) args (reply : AppendEntriesReply) rf1 : Prop :=
  ∃ next mtch, rf1 = set_matchIndex mtch (set_nextIndex next rf) ∧
    (mtch = matchIndex rf ∨ aer_Success reply = true ∧ ∃ m, index (matchIndex rf) s = Some m ∧
       mtch = <[Z.to_nat s := Z.max m (ae_PrevLogIndex args + zlen (ae_Entries args))]> (matchIndex rf)).

Inductive reply_outcome rf (s : Z) args : option AppendEntriesReply → Raft Cmd → Prop :=
| ro_lost : reply_outcome rf s args None rf
| ro_newer reply :
    currentTerm rf < aer_Term reply →
    reply_outcome rf s args (Some reply) (newTerm (aer_Term reply) rf)
| ro_stale reply :
    ae_Term args ≠ currentTerm rf → reply_outcome rf s args (Some reply) rf
| ro_noted reply rf1 c :
    ae_Term args = currentTerm rf → node_ok rf1 → reply_noted rf s args reply rf1 →
    (role rf = LEADER → commit_choice rf1 c) → (role rf ≠ LEADER → c = commitIndex rf) →
    reply_outcome rf s args (Some reply) (set_commitIndex c rf1).

Lemma wp_sendAppendEntryAndUpdate rf serverId args rpc (Q : unit → Raft Cmd → list (Effect Cmd) → Prop) :
  node_ok rf → (∀ reply, rpc = Some reply → reply_ok rf serverId args reply) →
  (∀ rf' w, reply_outcome rf serverId args rpc rf' → Q tt rf' w) →
  wp (sendAppendEntryAndUpdate serverId args rpc) Q rf.
Proof.
  intros Hok Hrep HQ. unfold sendAppendEntryAndUpdate.
  destruct rpc as [reply|]; [|apply wp_ret, HQ, ro_lost].
  destruct (Hrep reply eq_refl) as (Hsrv & Hb & Hscan). clear Hrep.
  pose proof (ok_next _ Hok) as Hnl. pose proof (ok_match _ Hok) as Hml.
  wp_step. wp_step. wp_step; [apply wp_setNewTerm, HQ, ro_newer; lia|].
  wp_step; [|apply HQ, ro_stale; lia]. assert (ae_Term args = currentTerm rf) as Hterm by lia.
  destruct (index_total (nextIndex rf) serverId) as [next Hnext]; [lia|].
  destruct (index_total (matchIndex rf) serverId) as [mt Hmt]; [lia|].
  wp_step. apply (wp_mono _ (λ _ rf1 _, node_ok rf1 ∧ reply_noted rf serverId args reply rf1)).
  2: { intros [] rf1 w [Hok1 Hn]. apply wp_leaderCommitLog; [done|]. intros c w' Hl Hnl'.
       destruct Hn as (nx & mi & -> & Hmi). apply HQ. apply ro_noted; try done. by exists nx, mi. }
  assert (∀ v, (role rf = LEADER → v ≤ last_idx (logs rf) + 1) →
    node_ok (set_nextIndex (<[Z.to_nat serverId := v]> (nextIndex rf)) rf) ∧
    reply_noted rf serverId args reply (set_nextIndex (<[Z.to_nat serverId := v]> (nextIndex rf)) rf)) as Hset.
  { intros v Hv. split; [by apply node_ok_next|]. eexists _, (matchIndex rf). split; [|by left]. done. }
  wp_step; [|wp_step; [wp_step|]].
  - wp_step. eapply wp_lift; [exact Hnext|]. wp_step. apply wp_setNext; [lia|]. wp_step.
    eapply wp_lift; [exact Hmt|]. apply wp_setMatch; [simpl; lia|]. rewrite !max_Zmax. split.
    + apply node_ok_match. eapply Hset. intros Hr.
      pose proof (node_ok_bound rf serverId next Hok Hr Hnext). destruct (Hb Hr Hterm) as (? & _ & _). lia.
    + eexists _, _. split; [done|]. right. eauto.
  - apply wp_setNext; [lia|]. apply Hset. intros Hr. destruct (Hb Hr Hterm) as (_ & Hx & _). apply Hx. lia.
  - wp_step. apply wp_findLastLogInXTerm; [by apply ok_log|apply Hscan; [done|lia]|].
    intros r Hr. wp_step; (apply wp_setNext; [lia|]; apply Hset); intros Hrole.
    + destruct Hr as [[-> _]|[? _]]; lia.
    + by destruct (Hb Hrole Hterm) as (_ & _ & ?).
  - wp_step. eapply wp_lift; [exact Hnext|]. wp_step.
    + apply wp_setNext; [lia|]. apply Hset. intros Hr.
      pose proof (node_ok_bound rf serverId next Hok Hr Hnext). lia.
    + split; [done|]. exists (nextIndex rf), (matchIndex rf). split; [by destruct rf|by left].
Qed.

(** The commit index moves up, within the log. *)
Lemma node_ok_reply_outcome rf serverId args rpc rf' :
  node_ok rf → reply_outcome rf serverId args rpc rf' → node_ok rf' ∧ keeps rf rf'.
Proof.
  intros Hok Ho. destruct Ho as [|reply ?|reply ?|reply rf1 c _ Hok1 (nx & mi & -> & _) Hl Hnl];
    auto with raft.
  pose proof (ok_commit _ Hok).
  assert (commitIndex rf ≤ c ≤ last_idx (logs rf)) as Hc.
  { destruct (decide (role rf = LEADER)) as [Hr|Hr]; [|rewrite (Hnl Hr); lia].
    destruct (Hl Hr) as [[->|[? _]] _]; simpl in *; lia. }
  split; [by apply node_ok_commit|]. repeat split; simpl; lia.
Qed.

Lemma sendAppendEntryAndUpdate_node rf serverId args rpc :
  node_ok rf → (∀ reply, rpc = Some reply → reply_ok rf serverId args reply) →
  wp (sendAppendEntryAndUpdate serverId args rpc) (λ _ rf' _, node_ok rf' ∧ keeps rf rf') rf.
Proof.
  intros Hok Hrep. apply wp_sendAppendEntryAndUpdate; [done..|].
  intros rf' _ Ho. by eapply node_ok_reply_outcome.
Qed.

(** After any reply to [InstallSnapshot], even a refusal, the leader counts the snapshot as
    stored. *)
Definition snap_noted rf (s : Z) (args : InstallSnapshotArgs) (reply : InstallSnapshotReply) : Raft Cmd :=
  let rf0 := if currentTerm rf <? isr_Term reply then newTerm (isr_Term reply) rf else rf in
  set_matchIndex (<[Z.to_nat s := is_LastIncludedIndex args]> (matchIndex rf0))
    (set_nextIndex (<[Z.to_nat s := is_LastIncludedIndex args + 1]> (nextIndex rf0)) rf0).

Lemma wp_sendInstallSnapshotAndUpdate rf serverId (args : InstallSnapshotArgs) reply
    (Q : unit → Raft Cmd → list (Effect Cmd) → Prop) :
  node_ok rf → 0 ≤ serverId < npeers rf → (∀ w, Q tt (snap_noted rf serverId args reply) w) →
  wp (sendInstallSnapshotAndUpdate serverId args (Some reply)) Q rf.
Proof.
  intros Hok Hs HQ. unfold sendInstallSnapshotAndUpdate. unfold snap_noted in HQ.
  set (rf0 := if currentTerm rf <? isr_Term reply then _ else _) in *.
  assert (zlen (nextIndex rf0) = npeers rf ∧ zlen (matchIndex rf0) = npeers rf) as [Hn Hm].
  { pose proof (ok_next _ Hok). pose proof (ok_match _ Hok). unfold rf0. by case_match. }
  wp_step. wp_step. wp_step. apply (wp_mono _ (λ _ rf' _, rf' = rf0)).
  { unfold rf0. wp_step; [apply wp_setNewTerm|]; by rewrite Hwhen. }
  intros [] rf' w ->. wp_step. apply wp_setNext; [lia|]. apply wp_setMatch; [simpl; lia|]. apply HQ.
Qed.

Lemma sendInstallSnapshotAndUpdate_node rf serverId (args : InstallSnapshotArgs) rpc :
  node_ok rf → 0 ≤ serverId < npeers rf →
  (role rf = LEADER → is_LastIncludedIndex args ≤ last_idx (logs rf)) →
  wp (sendInstallSnapshotAndUpdate serverId args rpc) (λ _ rf' _, node_ok rf' ∧ keeps rf rf') rf.
Proof.
  intros Hok Hs Hb. destruct rpc as [reply|]; [|by apply wp_ret].
  apply wp_sendInstallSnapshotAndUpdate; [done..|]. intros _. unfold snap_noted. cbn zeta.
  set (rf0 := if currentTerm rf <? isr_Term reply then _ else _).
  assert (node_ok rf0 ∧ keeps rf rf0 ∧ (role rf0 = LEADER → is_LastIncludedIndex args ≤ last_idx (logs rf0)))
    as (Hok0 & Hk & Hb0) by (unfold rf0; case_match; split_and!; done || auto with raft).
  split; [|etrans; [exact Hk|by apply keeps_eq]].
  apply (node_ok_match (set_nextIndex (<[Z.to_nat serverId := is_LastIncludedIndex args + 1]> (nextIndex rf0)) rf0)).
  apply node_ok_next; [|done]. intros Hr. specialize (Hb0 Hr). lia.
Qed.

(** ** Winning an election *)
Lemma wp_initLeader rf (Q : unit → Raft Cmd → list (Effect Cmd) → Prop) :
  zlen (nextIndex rf) = npeers rf → zlen (matchIndex rf) = npeers rf → 0 ≤ npeers rf →
  Q tt (set_matchIndex (replicate (Z.to_nat (npeers rf)) 0)
    (set_nextIndex (replicate (Z.to_nat (npeers rf)) (last_idx (logs rf) + 1)) rf)) [] →
  wp (for_each (zrange 0 (npeers rf)) (initLeaderPeer (last_idx (logs rf)))) Q rf.
Proof.
  intros Hn Hm Hp HQ.
  eapply wp_mono; [apply (wp_for_each _ _ (λ pre rf' w, w = [] ∧
    rf' = set_matchIndex (replicate (length pre) 0 ++ drop (length pre) (matchIndex rf))
      (set_nextIndex (replicate (length pre) (last_idx (logs rf) + 1) ++
         drop (length pre) (nextIndex rf)) rf)) rf [])|].
  - split; [done|]. by destruct rf.
  - intros pre x suf rf' w Hs [-> ->]. apply zrange_split in Hs as [Hx Hpre].
    assert (zlen pre = x) as Hlx by (rewrite Hpre; unfold zrange; rewrite length_seqZ; lia).
    unfold initLeaderPeer. wp_step. apply wp_setNext.
    { simpl. rewrite length_app, length_replicate, length_drop. lia. }
    apply wp_setMatch.
    { simpl. rewrite length_app, length_replicate, length_drop. lia. }
    split; [done|]. cbn [matchIndex nextIndex set_matchIndex set_nextIndex].
    assert (∀ (l0 : list Z) v, x < zlen l0 →
      <[Z.to_nat x := v]> (replicate (length pre) v ++ drop (length pre) l0) =
      replicate (length (pre ++ [x])) v ++ drop (length (pre ++ [x])) l0) as Hins.
    { intros l0 v Hlt. rewrite insert_app_r_alt by (rewrite length_replicate; lia).
      rewrite length_replicate. replace (Z.to_nat x - length pre)%nat with 0%nat by lia.
      rewrite length_app. simpl. destruct (drop (length pre) l0) as [|y d] eqn:Hd.
      { apply (f_equal length) in Hd. rewrite length_drop in Hd. simpl in Hd. lia. }
      assert (drop (length pre + 1) l0 = d) as -> by by rewrite <-drop_drop, Hd.
      simpl. by rewrite Nat.add_1_r, replicate_S_end, <-app_assoc. }
    rewrite !Hins by lia. done.
  - intros [] rf' w [Hw ->]. cbn [app] in Hw. subst w. cbn [app].
    assert (length (zrange 0 (npeers rf)) = Z.to_nat (npeers rf)) as ->
      by (unfold zrange; rewrite length_seqZ; f_equal; lia).
    rewrite !drop_ge, !app_nil_r by lia. exact HQ.
Qed.

(** The peer that won: leader, with fresh replication state. *)
Definition leader_state rf : Raft Cmd :=
  set_matchIndex (replicate (Z.to_nat (npeers rf)) 0)
    (set_nextIndex (replicate (Z.to_nat (npeers rf)) (last_idx (logs rf) + 1)) (set_role LEADER rf)).

Lemma node_ok_leader rf : node_ok rf → node_ok (leader_state rf).
Proof.
  intros []. split; simpl; try done; [rewrite length_replicate; lia..|].
  intros _. apply Forall_replicate. lia.
Qed.

Lemma wp_becomeLeader rf (Q : unit → Raft Cmd → list (Effect Cmd) → Prop) :
  node_ok rf →
  (∀ ws, Forall2 (peer_message (leader_state rf) true) (zrange 0 (npeers rf)) ws →
     Q tt (leader_state rf) (concat ws ++ [ResetHeartbeatTimer])) →
  wp becomeLeader Q rf.
Proof.
  intros Hok HQ. pose proof (ok_me _ Hok). pose proof (node_ok_leader rf Hok) as Hok'.
  unfold becomeLeader. wp_steps. apply wp_getLastLog; [exact (ok_log _ Hok)|]. intros la _ Hla. rewrite Hla.
  wp_steps. apply (wp_initLeader (set_role LEADER rf));
    [exact (ok_next _ Hok)|exact (ok_match _ Hok)|simpl; lia|].
  wp_step. apply (wp_appendEntries (leader_state rf)); [by apply ok_log|by apply ok_next|by apply ok_leader|].
  intros ws Hws. wp_steps. cbn [app]. by apply HQ.
Qed.

(** [voteReply] on every branch. *)
Inductive vote_outcome rf (el : Election) : option RequestVoteReply → Election → Raft Cmd → Prop :=
| vo_lost : vote_outcome rf el None el rf
| vo_rollback reply :
    rv_Term (el_args el) < rvr_Term reply →
    vote_outcome rf el (Some reply) el (newTerm (rv_Term (el_args el)) rf)
| vo_ignored reply :
    rvr_Term reply < rv_Term (el_args el) ∨
      rvr_Term reply = rv_Term (el_args el) ∧ rvr_VoteGranted reply = false →
    vote_outcome rf el (Some reply) el rf
| vo_counted reply once :
    rvr_Term reply = rv_Term (el_args el) → rvr_VoteGranted reply = true →
    vote_outcome rf el (Some reply) (mkElection (el_args el) (el_granted el + 1) once) rf
| vo_won reply :
    rvr_Term reply = rv_Term (el_args el) → rvr_VoteGranted reply = true →
    npeers rf / 2 < el_granted el + 1 → currentTerm rf = rv_Term (el_args el) →
    role rf = CANDIDATE → el_once el = false →
    vote_outcome rf el (Some reply) (mkElection (el_args el) (el_granted el + 1) true)
      (leader_state rf).

Lemma wp_voteReply rf el rpc (Q : Election → Raft Cmd → list (Effect Cmd) → Prop) :
  node_ok rf → (∀ el' rf' w, vote_outcome rf el rpc el' rf' → round_sent rf' w → Q el' rf' w) →
  wp (voteReply el rpc) Q rf.
Proof.
  intros Hok HQ. assert (∀ rf', round_sent rf' []) as Hnil by by left.
  unfold voteReply. destruct rpc as [reply|]; [|apply wp_ret, HQ; auto using vote_outcome].
  wp_step; [wp_step; apply wp_setNewTerm; wp_step; apply HQ, Hnil; apply vo_rollback; lia|].
  wp_step; [wp_step; apply HQ, Hnil; apply vo_ignored; lia|].
  assert (rvr_Term reply = rv_Term (el_args el)) as Ht by lia.
  destruct (rvr_VoteGranted reply) eqn:Hg; cbn [negb]; [|wp_step; apply HQ, Hnil; apply vo_ignored; auto].
  wp_step. wp_step. case_bool_decide as Hr; wp_step.
  - wp_step. wp_step.
    + apply wp_becomeLeader; [done|]. intros ws Hws. wp_steps. cbn [app]. rewrite app_nil_r.
      apply HQ; [|right; split; [done|by exists ws]].
      apply vo_won; try done || lia. by destruct (el_once el).
    + wp_steps. apply HQ, Hnil. by apply vo_counted.
  - wp_steps. apply HQ, Hnil. by apply vo_counted.
  - exfalso. lia.
  - wp_steps. apply HQ, Hnil. by apply vo_counted.
Qed.

Lemma node_ok_vote_outcome rf el rpc el' rf' :
  vote_outcome rf el rpc el' rf' → node_ok rf → node_ok rf' ∧ keeps rf rf'.
Proof. intros Ho Hok. destruct Ho; auto using node_ok_leader with raft. Qed.

Lemma voteReply_node rf el rpc :
  node_ok rf → wp (voteReply el rpc) (λ _ rf' _, node_ok rf' ∧ keeps rf rf') rf.
Proof. intros Hok. apply wp_voteReply; [done|]. intros el' rf' _ Ho _. by eapply node_ok_vote_outcome. Qed.

Lemma Start_node rf command :
  node_ok rf → wp (Start command) (λ _ rf' _, node_ok rf' ∧ keeps rf rf') rf.
Proof.
  intros Hok. apply wp_Start; [done|intros _; auto with raft|]. intros ws _ _.
  split; [by apply node_ok_start|]. repeat split; simpl; [|lia].
  apply first_idx_app. apply (ok_log _ Hok).
Qed.
End leader.
