(* ===== verification/RaftSnapshot.v ===== *)
(** * Snapshots, the applier goroutine and restarts

    [InstallSnapshot], [CondInstallSnapshot], [Snapshot], the two critical sections of [applier],
    and [Make] reading back the durable state. *)
From S2P Require Import Prelude Raft RaftLog RaftNode RaftReplicate.

Section snapshots.
Context {Cmd : Type} `{CodecLaws (hard_state Cmd)}.
Implicit Types (rf : Raft Cmd) (l : list (Entry Cmd)) (e : Entry Cmd).

(** ** [InstallSnapshot] *)
Definition is_state rf (args : InstallSnapshotArgs) : Raft Cmd :=
  if currentTerm rf <? is_Term args then newTerm (is_Term args) rf else rf.

(** The snapshot is handed to the service when it is newer than what is committed; the log is not
    touched here. *)
Lemma wp_InstallSnapshot rf (args : InstallSnapshotArgs)
    (Q : InstallSnapshotReply → Raft Cmd → list (Effect Cmd) → Prop) :
  (is_Term args < currentTerm rf → Q (mkISReply (currentTerm rf) false) rf []) →
  (currentTerm rf ≤ is_Term args → is_LastIncludedIndex args ≤ commitIndex rf →
     Q (mkISReply (currentTerm rf) false) (is_state rf args) [ResetElectionTimer]) →
  (currentTerm rf ≤ is_Term args → commitIndex rf < is_LastIncludedIndex args →
     Q (mkISReply (currentTerm rf) true) (is_state rf args)
       [ResetElectionTimer; SendApplyCh (mkApplyMsg false None 0 0 true (is_Data args)
          (is_LastIncludedTerm args) (is_LastIncludedIndex args))]) →
  wp (InstallSnapshot args) Q rf.
Proof.
  intros H1 H2 H3. unfold InstallSnapshot. wp_step. wp_step. wp_step; [wp_steps; apply H1; lia|].
  wp_step. apply (wp_mono _ (λ _ rf' w, rf' = is_state rf args ∧ w = [])).
  { unfold is_state. wp_step; [apply wp_setNewTerm|]; by rewrite Hwhen. }
  intros [] rf' w [-> ->]. wp_step. wp_step. wp_step. wp_step.
  assert (commitIndex (is_state rf args) = commitIndex rf) as Hc by by (unfold is_state; case_match).
  rewrite Hc. wp_step; wp_steps; [apply H2|apply H3]; lia.
Qed.

Lemma InstallSnapshot_node rf args :
  node_ok rf → wp (InstallSnapshot args) (λ _ rf' _, node_ok rf' ∧ keeps rf rf') rf.
Proof.
  intros Hok. assert (node_ok (is_state rf args) ∧ keeps rf (is_state rf args)) as Hs
    by (unfold is_state; case_match; auto with raft).
  apply wp_InstallSnapshot; auto with raft.
Qed.

(** ** Trimming the log *)
Lemma wp_update_first rf e l f (Q : unit → Raft Cmd → list (Effect Cmd) → Prop) :
  logs rf = e :: l → Q tt (set_logs (f e :: l) rf) [] → wp (update_first f) Q rf.
Proof.
  intros Hl HQ. unfold update_first, getFirstLog. wp_steps. rewrite Hl.
  eapply wp_lift; [apply index_cons_0|]. wp_steps. rewrite Hl.
  eapply wp_lift; [apply set_index_Some; simpl; lia|]. wp_steps. exact HQ.
Qed.

(** The log from index [i] on, its first entry turned into the dummy. *)
Definition trim l (i : Z) : list (Entry Cmd) :=
  match drop (Z.to_nat (i - first_idx l)) l with
  | e :: l' => mkEntry (Index e) (Term e) None :: l'
  | [] => []
  end.

Lemma trim_spec l i :
  log_wf l → first_idx l ≤ i ≤ last_idx l →
  log_wf (trim l i) ∧ first_idx (trim l i) = i ∧ last_idx (trim l i) = last_idx l ∧
  (∀ j, i < j → entryAt (trim l i) j = entryAt l j) ∧
  (∀ e, entryAt l i = Some e → entryAt (trim l i) i = Some (mkEntry i (Term e) None)).
Proof.
  intros Hwf Hi. destruct (compact_wf l i Hwf Hi) as (Hdwf & Hdf & Hdl & Hde). unfold trim.
  destruct (drop _ l) as [|e d] eqn:Hd; [by destruct Hdwf|].
  destruct (update_head_wf e (mkEntry (Index e) (Term e) None) d Hdwf eq_refl) as (Hw & Hf & Hl & He).
  split_and!; [done|congruence|congruence| |].
  - intros j Hj. rewrite He by (rewrite Hdf; lia). apply Hde. lia.
  - intros x Hx. rewrite <-Hde in Hx by lia. unfold entryAt in *. rewrite Hdf in Hx. rewrite Hf, Hdf.
    replace (i - i) with 0 in * by lia. rewrite index_cons_0 in *. injection Hx as <-.
    simpl in Hdf. by rewrite Hdf.
Qed.

(** ** [Snapshot]: the service has the state up to [idx] *)
Definition snapshotted rf l (snap : list byte) : Raft Cmd :=
  let rf' := set_logs l rf in
  set_persister (SaveStateAndSnapshot (persister rf') (encodeRaftState rf') snap) rf'.

Lemma wp_Snapshot rf idx snap (Q : unit → Raft Cmd → list (Effect Cmd) → Prop) :
  log_wf (logs rf) → idx ≤ last_idx (logs rf) →
  (idx ≤ first_idx (logs rf) → Q tt rf []) →
  (first_idx (logs rf) < idx → Q tt (snapshotted rf (trim (logs rf) idx) snap) []) →
  wp (Snapshot idx snap) Q rf.
Proof.
  intros Hwf Hidx H1 H2. unfold Snapshot. wp_step. apply wp_getFirstLog; [done|].
  intros f _ Hf. rewrite Hf. wp_step; [wp_steps; apply H1; lia|].
  wp_steps. eapply wp_lift; [apply slice_from_Some; unfold last_idx in *; lia|].
  wp_step. wp_step. destruct (compact_wf (logs rf) idx) as (Hdwf & _); [done|lia|].
  unfold logCompact. cbn [app]. unfold trim in H2.
  destruct (drop _ (logs rf)) as [|e d] eqn:Hd; [by destruct Hdwf|]. wp_step.
  eapply wp_update_first; [done|]. unfold saveStateAndSnapshot. wp_steps. apply H2. lia.
Qed.

Lemma node_ok_snapshotted rf l snap :
  node_ok rf → log_wf l → first_idx l ≤ commitIndex rf ≤ last_idx l →
  last_idx (logs rf) ≤ last_idx l → node_ok (snapshotted rf l snap).
Proof.
  intros [] Hwf Hc Hl. split; simpl; try done; [|apply durable_snapshot].
  intros Hr. specialize (ok_leader Hr). eapply Forall_impl; [exact ok_leader|]. simpl. lia.
Qed.

Lemma Snapshot_node rf idx snap :
  node_ok rf → idx ≤ commitIndex rf →
  wp (Snapshot idx snap) (λ _ rf' _, node_ok rf' ∧
    (LastApplied rf' = LastApplied rf ∧ commitIndex rf' = commitIndex rf) ∧
    first_idx (logs rf') = Z.max (first_idx (logs rf)) idx) rf.
Proof.
  intros Hok Hi. pose proof (ok_commit _ Hok) as Hc. pose proof (ok_log _ Hok) as Hwf.
  apply wp_Snapshot; [done|lia| |].
  - intros ?. split_and!; done || lia.
  - intros ?. destruct (trim_spec (logs rf) idx) as (Htw & Htf & Htl & _); [done|lia|].
    split_and!; [apply node_ok_snapshotted; done || lia|done|done|]. simpl. lia.
Qed.

(** ** [CondInstallSnapshot]: the service takes a snapshot from the leader *)

(** The log after installing a snapshot up to [idx] of term [term]: the old suffix if the log
    reaches [idx], only the dummy entry otherwise. *)
Definition installed_log l (term idx : Z) : list (Entry Cmd) :=
  if last_idx l <? idx then [mkEntry idx term None]
  else match drop (Z.to_nat (idx - first_idx l)) l with
       | _ :: l' => mkEntry idx term None :: l'
       | [] => []
       end.

Definition installed rf (term idx : Z) (snap : list byte) : Raft Cmd :=
  snapshotted (set_commitIndex idx (set_LastApplied idx rf)) (installed_log (logs rf) term idx) snap.

Lemma wp_CondInstallSnapshot rf term idx snap (Q : bool → Raft Cmd → list (Effect Cmd) → Prop) :
  node_ok rf →
  (idx ≤ commitIndex rf → Q false rf []) →
  (commitIndex rf < idx → Q true (installed rf term idx snap) []) →
  wp (CondInstallSnapshot term idx snap) Q rf.
Proof.
  intros Hok H1 H2. pose proof (ok_log _ Hok) as Hwf. pose proof (ok_commit _ Hok).
  unfold CondInstallSnapshot. wp_step. wp_step. wp_step; [wp_steps; apply H1; lia|].
  wp_step. apply wp_getLastLog; [done|]. intros la _ Hla. rewrite Hla.
  assert (commitIndex rf < idx) as Hlt by lia. specialize (H2 Hlt).
  wp_step. apply (wp_mono _ (λ _ rf' w, w = [] ∧ ∃ e l, rf' = set_logs (e :: l) rf ∧ Command e = None ∧
    installed_log (logs rf) term idx = mkEntry idx term None :: l)).
  { unfold installed_log. wp_step; [wp_steps; eauto 10|].
    wp_step. apply wp_getFirstLog; [done|]. intros f _ Hf. rewrite Hf.
    wp_step. eapply wp_lift; [apply slice_from_Some; unfold last_idx in *; lia|]. wp_step. wp_step.
    destruct (compact_wf (logs rf) idx) as (Hdwf & _); [done|lia|].
    unfold logCompact. cbn [app]. destruct (drop _ (logs rf)) as [|e d] eqn:Hd; [by destruct Hdwf|].
    eapply wp_update_first; [done|]. split; [done|]. eexists _, d. by split_and!. }
  intros [] rf' w (-> & e & l & -> & Hcmd & Hil). wp_step. eapply wp_update_first; [done|].
  wp_step. eapply wp_update_first; [done|]. unfold saveStateAndSnapshot. wp_steps.
  unfold installed in H2. rewrite Hil in H2. simpl. rewrite Hcmd. exact H2.
Qed.

Lemma installed_log_wf l term idx :
  log_wf l → first_idx l ≤ idx →
  log_wf (installed_log l term idx) ∧ first_idx (installed_log l term idx) = idx ∧
  last_idx (installed_log l term idx) = Z.max idx (last_idx l) ∧
  (∀ j, idx < j → entryAt (installed_log l term idx) j = entryAt l j).
Proof.
  intros Hwf Hi. unfold installed_log. case_match.
  - split_and!; [split; [done|]; by apply contiguous_cons; split; [|apply contiguous_nil]|done|
      unfold last_idx at 1; simpl; lia|].
    intros j Hj. unfold entryAt, index. simpl. repeat case_match; try done.
    + rewrite lookup_ge_None_2 by (simpl; lia). symmetry. apply lookup_ge_None_2.
      unfold last_idx in *. lia.
    + rewrite lookup_ge_None_2 by (simpl; lia). done.
    + lia.
  - destruct (compact_wf l idx) as (Hdwf & Hdf & Hdl & Hde); [done|lia|].
    destruct (drop _ l) as [|e d] eqn:Hd; [by destruct Hdwf|]. simpl in Hdf.
    destruct (update_head_wf e (mkEntry idx term None) d Hdwf) as (Hw & Hf & Hl & He); [done|].
    split_and!; [done|done|lia|]. intros j Hj. rewrite He by (simpl; lia). apply Hde. lia.
Qed.

Lemma CondInstallSnapshot_node rf term idx snap :
  node_ok rf → wp (CondInstallSnapshot term idx snap) (λ b rf' _, node_ok rf' ∧
    commitIndex rf ≤ commitIndex rf' ∧
    (b = true → first_idx (logs rf') = LastApplied rf' ∧ LastApplied rf' = commitIndex rf')
    ∧ (b = false → rf' = rf)) rf.
Proof.
  intros Hok. pose proof (ok_commit _ Hok) as Hc. pose proof (ok_log _ Hok) as Hwf.
  apply wp_CondInstallSnapshot; [done| |].
  - intros ?. split_and!; done || lia.
  - intros Hlt. destruct (installed_log_wf (logs rf) term idx) as (Hiw & Hif & Hil & _); [done|lia|].
    split_and!; [|simpl; lia|done|done]. destruct Hok.
    split; simpl; try done; [lia| |apply durable_snapshot].
    intros Hr. specialize (ok_leader Hr). eapply Forall_impl; [exact ok_leader|]. simpl. lia.
Qed.

(** ** The applier *)

(** A peer with the local state of its applier goroutine: the batch it is sending, if any. *)
Record Proc := mkProc { p_rf : Raft Cmd; p_batch : option (list (Entry Cmd) * Z) }.

(** Between iterations the log still has the next entry to apply; while a batch is being sent the
    service may already have trimmed the log up to the end of the batch. *)
Definition applier_ok (p : Proc) : Prop :=
  match p_batch p with
  | None => first_idx (logs (p_rf p)) ≤ LastApplied (p_rf p)
  | Some (_, ci) => first_idx (logs (p_rf p)) ≤ Z.max (LastApplied (p_rf p)) ci ∧ ci ≤ commitIndex (p_rf p)
  end.

(** An applier iteration takes exactly the committed entries after [LastApplied], in order. *)
Lemma wp_applierTake rf (Q : list (Entry Cmd) * Z → Raft Cmd → list (Effect Cmd) → Prop) :
  node_ok rf → first_idx (logs rf) ≤ LastApplied rf →
  (∀ es, contiguous (LastApplied rf + 1) es → zlen es = commitIndex rf - LastApplied rf →
     (∀ j, LastApplied rf < j ≤ commitIndex rf →
        entryAt (logs rf) j = es !! Z.to_nat (j - LastApplied rf - 1)) →
     Q (es, commitIndex rf) rf []) →
  wp applierTake Q rf.
Proof.
  intros Hok Hfirst HQ. pose proof (ok_log _ Hok) as Hwf. pose proof (ok_commit _ Hok).
  pose proof (ok_applied _ Hok). unfold applierTake. wp_step. apply wp_getFirstLog; [done|].
  intros f _ Hf. rewrite Hf. wp_steps.
  eapply wp_lift; [apply slice_Some; unfold last_idx in *; lia|]. wp_steps. apply HQ.
  - apply contiguous_take. destruct Hwf as [_ Hc].
    replace (LastApplied rf + 1) with
      (first_idx (logs rf) + Z.of_nat (Z.to_nat (LastApplied rf - first_idx (logs rf) + 1))) by lia.
    by apply contiguous_drop.
  - rewrite length_take, length_drop. unfold last_idx in *. lia.
  - intros j Hj. rewrite lookup_take_lt by lia. rewrite lookup_drop. unfold entryAt, index.
    case_match; [f_equal; lia|lia].
Qed.

Lemma node_ok_applied rf a :
  a ≤ commitIndex rf → node_ok rf → node_ok (set_LastApplied a rf).
Proof. intros ? []. by split. Qed.

(** ** Restart *)

(** A peer restarted from its persister has the term, the vote and the log it had. *)
Lemma Make_durable rf :
  durable rf → log_wf (logs rf) →
  Make (npeers rf) (me rf) (persister rf) = Some (mkRaft (npeers rf) (persister rf) (me rf) 0 FOLLOWER
    (currentTerm rf) (votedFor rf) (logs rf) (first_idx (logs rf)) (first_idx (logs rf))
    (replicate (Z.to_nat (npeers rf)) 0) (replicate (Z.to_nat (npeers rf)) 0)).
Proof.
  intros Hd Hwf. unfold Make, run_state, ReadRaftState. rewrite clone_id.
  destruct Hd as [[Hdec Hne]|(He & Ht & Hv & Hl)].
  - destruct (raftstate (persister rf)) as [|b bs] eqn:Hb; [done|]. rewrite <-Hb in *.
    destruct (first_log_idx _ Hwf) as (f & Hf & Hfi).
    unfold readPersist. rewrite Hb. unfold mbind, M_bind, lift. rewrite <-Hb, Hdec. simpl.
    unfold getFirstLog, mbind, M_bind, get, lift. simpl. rewrite Hf. simpl. by rewrite Hfi.
  - rewrite He. simpl. by rewrite Ht, Hv, Hl.
Qed.
End snapshots.
