(* ===== verification/RaftProc.v ===== *)
(** * A peer as a process: every step it can take

    [proc_step] interleaves the RPC handlers, the reply goroutines, the ticker, the service's calls
    and the applier goroutine of one peer, with crashes.  From a fresh [Make] every reachable state
    is well formed, and no step the protocol allows panics. *)
From S2P Require Import Prelude Raft RaftLog RaftNode RaftVote RaftReplicate RaftLeader RaftSnapshot.

Section proc.
Context {Cmd : Type} `{CodecLaws (hard_state Cmd)}.
Implicit Types (rf : Raft Cmd) (p : Proc (Cmd := Cmd)).

(** The critical sections other than the applier's and the service's log compaction. *)
Inductive Call :=
| CRequestVote (args : RequestVoteArgs)
| CAppendEntries (args : AppendEntriesArgs Cmd)
| CInstallSnapshot (args : InstallSnapshotArgs)
| CStart (command : option Cmd)
| CElection
| CHeartbeat
| CVoteReply (el : Election) (rpc : option RequestVoteReply)
| CAppendReply (serverId : Z) (args : AppendEntriesArgs Cmd) (rpc : option AppendEntriesReply)
| CSnapReply (serverId : Z) (args : InstallSnapshotArgs) (rpc : option InstallSnapshotReply)
| CKill.

Definition run_call (c : Call) : M (Raft Cmd) (Effect Cmd) unit :=
  match c with
  | CRequestVote args => RequestVote args ;; mret tt
  | CAppendEntries args => AppendEntries args ;; mret tt
  | CInstallSnapshot args => InstallSnapshot args ;; mret tt
  | CStart command => Start command ;; mret tt
  | CElection => tickerElection ;; mret tt
  | CHeartbeat => tickerHeartbeat
  | CVoteReply el rpc => voteReply el rpc ;; mret tt
  | CAppendReply serverId args rpc => sendAppendEntryAndUpdate serverId args rpc
  | CSnapReply serverId args rpc => sendInstallSnapshotAndUpdate serverId args rpc
  | CKill => Kill
  end.

(** What the rest of the cluster promises about the arguments. *)
Definition call_pre rf (c : Call) : Prop :=
  match c with
  | CAppendEntries args => ae_ok rf args
  | CAppendReply serverId args rpc => ∀ reply, rpc = Some reply → reply_ok rf serverId args reply
  | CSnapReply serverId args _ => 0 ≤ serverId < npeers rf ∧
      (role rf = LEADER → is_LastIncludedIndex args ≤ last_idx (logs rf))
  | _ => True
  end.

(** How far the service has been fed: it may ask to trim the log up to here. *)
Definition fed p : Z :=
  match p_batch p with
  | None => LastApplied (p_rf p)
  | Some (_, ci) => Z.max (LastApplied (p_rf p)) ci
  end.

Inductive proc_step : Proc (Cmd := Cmd) → Proc (Cmd := Cmd) → Prop :=
| ps_call c rf rf' w b :
    call_pre rf c → run_call c rf = Some (tt, rf', w) → proc_step (mkProc rf b) (mkProc rf' b)
| ps_snapshot idx snap rf rf' w b :
    idx ≤ fed (mkProc rf b) → Snapshot idx snap rf = Some (tt, rf', w) →
    proc_step (mkProc rf b) (mkProc rf' b)
| ps_install term idx snap ok rf rf' w b :
    CondInstallSnapshot term idx snap rf = Some (ok, rf', w) →
    proc_step (mkProc rf b) (mkProc rf' b)
| ps_take batch rf rf' w :
    applierReady rf = true → applierTake rf = Some (batch, rf', w) →
    proc_step (mkProc rf None) (mkProc rf' (Some batch))
| ps_done es ci rf rf' w :
    applierDone ci rf = Some (tt, rf', w) →
    proc_step (mkProc rf (Some (es, ci))) (mkProc rf' None)
| ps_restart rf rf' b :
    Make (npeers rf) (me rf) (persister rf) = Some rf' → proc_step (mkProc rf b) (mkProc rf' None).

Definition proc_ok p : Prop := node_ok (p_rf p) ∧ applier_ok p.

Lemma wp_discard {A} (m : M (Raft Cmd) (Effect Cmd) A) (P : Raft Cmd → Prop) rf :
  wp m (λ _ rf' _, P rf') rf → wp (m ;; mret tt) (λ _ rf' _, P rf') rf.
Proof. intros Hm. wp_step. eapply wp_mono; [exact Hm|]. intros a rf' w HP. by wp_steps. Qed.

(** Every call keeps the invariant and the applier's view of the log. *)
Lemma run_call_node rf c :
  node_ok rf → call_pre rf c → wp (run_call c) (λ _ rf' _, node_ok rf' ∧ keeps rf rf') rf.
Proof.
  intros Hok Hpre. destruct c; simpl in *; try apply (wp_discard _ (λ rf', node_ok rf' ∧ keeps rf rf')).
  - by apply RequestVote_node.
  - by apply AppendEntries_node.
  - by apply InstallSnapshot_node.
  - by apply Start_node.
  - by apply tickerElection_node.
  - eapply wp_mono; [by apply tickerHeartbeat_node|]. intros [] rf' _ ->. auto with raft.
  - by apply voteReply_node.
  - by apply sendAppendEntryAndUpdate_node.
  - destruct Hpre. by apply sendInstallSnapshotAndUpdate_node.
  - unfold Kill. wp_step. auto with raft.
Qed.

Lemma applier_ok_keeps rf rf' b : keeps rf rf' → applier_ok (mkProc rf b) → applier_ok (mkProc rf' b).
Proof.
  intros (_ & _ & Hf & Ha & Hc). unfold applier_ok. simpl. rewrite Hf, Ha.
  destruct b as [[es ci]|]; [|done]. intros [? ?]. split; [done|lia].
Qed.

Lemma fed_commit p : proc_ok p → fed p ≤ commitIndex (p_rf p).
Proof.
  intros [Hok Ha]. pose proof (ok_applied _ Hok). unfold fed, applier_ok in *.
  destruct (p_batch p) as [[es ci]|]; [|done]. lia.
Qed.

Lemma make_ok rf : node_ok rf →
  ∃ rf', Make (npeers rf) (me rf) (persister rf) = Some rf' ∧ proc_ok (mkProc rf' None).
Proof.
  intros Hok. pose proof (ok_log _ Hok) as Hwf. pose proof (ok_commit _ Hok). pose proof (ok_me _ Hok).
  eexists. split; [apply Make_durable; [by apply ok_durable|done]|]. split; [simpl|unfold applier_ok; simpl; lia].
  split; simpl; try done; [rewrite length_replicate; lia..|lia|].
  eapply durable_ext; [..|by apply ok_durable]; done.
Qed.

Lemma proc_step_ok p p' : proc_ok p → proc_step p p' → proc_ok p'.
Proof.
  intros Hp Hstep. pose proof Hp as [Hok Ha].
  destruct Hstep as [c rf rf' w b Hpre Hrun|idx snap rf rf' w b Hidx Hrun|term idx snap ok rf rf' w b Hrun
    |batch rf rf' w Hready Hrun|es ci rf rf' w Hrun|rf rf' b Hrun]; simpl in Hok.
  - destruct (wp_run _ _ _ _ _ _ Hrun (run_call_node rf c Hok Hpre)) as [Hok' Hk].
    split; [done|]. by eapply applier_ok_keeps.
  - pose proof (fed_commit _ Hp) as Hf. simpl in Hf.
    destruct (wp_run _ _ _ _ _ _ Hrun (Snapshot_node rf idx snap Hok ltac:(lia))) as (Hok' & Hk & Hfi).
    split; [done|]. unfold fed in Hidx. unfold applier_ok in *. simpl in *. destruct Hk as (Hla & Hci).
    rewrite Hfi, Hla. destruct b as [[es ci]|]; [|lia]. split; lia.
  - destruct (wp_run _ _ _ _ _ _ Hrun (CondInstallSnapshot_node rf term idx snap Hok))
      as (Hok' & Hc & Hi & Hr). split; [done|]. destruct ok; [|by rewrite (Hr eq_refl)].
    destruct (Hi eq_refl) as [Hf Hl]. unfold applier_ok in *. simpl in *.
    destruct b as [[es ci]|]; [|lia]. lia.
  - unfold applier_ok in Ha. simpl in Ha.
    assert (wp applierTake (λ b rf' _, rf' = rf ∧ b.2 = commitIndex rf) rf) as Hwp
      by by apply wp_applierTake.
    destruct (wp_run _ _ _ _ _ _ Hrun Hwp) as [-> Hci]. split; [done|]. unfold applier_ok. simpl.
    destruct batch as [es ci]. simpl in Hci. subst ci. pose proof (ok_commit _ Hok). lia.
  - unfold applier_ok in Ha. simpl in Ha. unfold applierDone, modify in Hrun. simplify_eq.
    pose proof (ok_applied _ Hok). rewrite max_Zmax. split; simpl; [apply node_ok_applied; [lia|done]|].
    unfold applier_ok. simpl. lia.
  - destruct (make_ok rf Hok) as (rf'' & Hrun' & Hok'). congruence.
Qed.

Lemma proc_steps_ok p p' : rtc proc_step p p' → proc_ok p → proc_ok p'.
Proof. induction 1; eauto using proc_step_ok. Qed.

(** The state of a peer that has never run. *)
Definition fresh (n self : Z) : Proc (Cmd := Cmd) :=
  mkProc (mkRaft n MakePersister self 0 FOLLOWER 0 (-1) [mkEntry 0 0 None] 0 0
    (replicate (Z.to_nat n) 0) (replicate (Z.to_nat n) 0)) None.

Lemma fresh_Make n self : Make n self MakePersister = Some (p_rf (fresh n self)).
Proof. done. Qed.

Lemma fresh_ok n self : 0 ≤ self < n → proc_ok (fresh n self).
Proof.
  intros Hs. split; [|done]. split; simpl; try done; [rewrite length_replicate; lia..| |by right].
  split; [done|]. by apply contiguous_cons; split; [|apply contiguous_nil].
Qed.
End proc.
