(* ===== verification/RaftTerm.v ===== *)
(** * Term, vote and role under every method

    Whatever its arguments are, a method that is not part of an election leaves term and vote
    alone, or moves to a later term as a follower without a vote; and it writes the durable state
    back before it ends.  The facts are partial-correctness ones: nothing is assumed of the log. *)
From S2P Require Import Prelude Raft RaftLog RaftNode RaftProc.

Section term.
Context {Cmd : Type} `{CodecLaws (hard_state Cmd)}.
Implicit Types rf : Raft Cmd.
Abbreviation RM := (M (Raft Cmd) (Effect Cmd)).

(** Term, vote, role and identity are the same; durability is not lost. *)
Definition same_vote rf rf' : Prop :=
  currentTerm rf' = currentTerm rf ∧ votedFor rf' = votedFor rf ∧ role rf' = role rf ∧
  me rf' = me rf ∧ npeers rf' = npeers rf ∧ (durable rf → durable rf').

(** A step outside elections. *)
Definition steps_down rf rf' : Prop :=
  me rf' = me rf ∧ npeers rf' = npeers rf ∧ (durable rf → durable rf') ∧
  (currentTerm rf' = currentTerm rf ∧ votedFor rf' = votedFor rf ∧
     (role rf' = role rf ∨ role rf' = FOLLOWER) ∨
   currentTerm rf < currentTerm rf' ∧ votedFor rf' = -1 ∧ role rf' = FOLLOWER).

#[export] Instance same_vote_refl : Reflexive same_vote.
Proof. by intros rf. Qed.
#[export] Instance same_vote_trans : Transitive same_vote.
Proof.
  intros x y z (?&?&?&?&?&?) (?&?&?&?&?&?). unfold same_vote. split_and!; try congruence. auto.
Qed.

Lemma same_steps_down rf rf' : same_vote rf rf' → steps_down rf rf'.
Proof. intros (?&?&?&?&?&?). unfold steps_down. split_and!; auto. Qed.

Lemma steps_down_same rf1 rf2 rf3 : steps_down rf1 rf2 → same_vote rf2 rf3 → steps_down rf1 rf3.
Proof.
  intros (? & ? & ? & Hc) (Ht & Hv & Hr & ? & ? & ?). unfold steps_down.
  rewrite Ht, Hv, Hr. split_and!; try congruence; auto.
Qed.

Lemma newTerm_steps_down rf t : currentTerm rf < t → steps_down rf (newTerm t rf).
Proof.
  intros ?. unfold steps_down. split_and!; [done|done|intros _; apply durable_persisted|by right].
Qed.

(** Updates of the other fields. *)
Lemma same_vote_ext rf rf' :
  currentTerm rf' = currentTerm rf → votedFor rf' = votedFor rf → role rf' = role rf →
  me rf' = me rf → npeers rf' = npeers rf → logs rf' = logs rf → persister rf' = persister rf →
  same_vote rf rf'.
Proof.
  intros Ht Hv Hr Hm Hn Hl Hp. unfold same_vote. split_and!; try done.
  by apply durable_ext.
Qed.
Lemma same_vote_persisted rf rf' :
  currentTerm rf' = currentTerm rf → votedFor rf' = votedFor rf → role rf' = role rf →
  me rf' = me rf → npeers rf' = npeers rf → same_vote rf (persisted rf').
Proof. intros. unfold same_vote. simpl. split_and!; auto using durable_persisted. Qed.
End term.

Create HintDb term.
#[export] Hint Resolve newTerm_steps_down same_steps_down : term.
#[export] Hint Extern 1 (same_vote _ _) => reflexivity : term.
#[export] Hint Extern 2 (same_vote _ (persisted _)) => (by apply same_vote_persisted) : term.
#[export] Hint Extern 3 (same_vote _ _) => (by apply same_vote_ext) : term.

Section getters.
Context {Cmd : Type} `{Codec (hard_state Cmd)}.
Implicit Types rf : Raft Cmd.
Abbreviation RM := (M (Raft Cmd) (Effect Cmd)).

Lemma wlp_getLastLog rf (Q : _ → _ → Prop) : (∀ e, Q e rf) → wlp (getLastLog (Cmd := Cmd)) Q rf.
Proof. intros HQ. unfold getLastLog. wlp_steps. apply HQ. Qed.
Lemma wlp_getFirstLog rf (Q : _ → _ → Prop) : (∀ e, Q e rf) → wlp (getFirstLog (Cmd := Cmd)) Q rf.
Proof. intros HQ. unfold getFirstLog. wlp_steps. apply HQ. Qed.
Lemma wlp_logAt rf i (Q : _ → _ → Prop) : (∀ e, Q e rf) → wlp (logAt (Cmd := Cmd) i) Q rf.
Proof. intros HQ. unfold logAt. wlp_steps. apply HQ. Qed.
Lemma wlp_setNewTerm rf t (Q : unit → Raft Cmd → Prop) : Q tt (newTerm t rf) → wlp (setNewTerm t) Q rf.
Proof. intros HQ. unfold setNewTerm, persist. wlp_steps. exact HQ. Qed.
Lemma wlp_persist rf (Q : unit → Raft Cmd → Prop) : Q tt (persisted rf) → wlp persist Q rf.
Proof. intros HQ. unfold persist. wlp_steps. exact HQ. Qed.
Lemma wlp_setNext rf i v (Q : unit → Raft Cmd → Prop) :
  (∀ l, Q tt (set_nextIndex l rf)) → wlp (setNext i v) Q rf.
Proof. intros HQ. unfold setNext. wlp_steps. apply HQ. Qed.
Lemma wlp_setMatch rf i v (Q : unit → Raft Cmd → Prop) :
  (∀ l, Q tt (set_matchIndex l rf)) → wlp (setMatch i v) Q rf.
Proof. intros HQ. unfold setMatch. wlp_steps. apply HQ. Qed.
Lemma wlp_update_first rf f (Q : unit → Raft Cmd → Prop) :
  (∀ l, Q tt (set_logs l rf)) → wlp (update_first f) Q rf.
Proof.
  intros HQ. unfold update_first. wlp_step. apply wlp_getFirstLog. intros e. wlp_steps. apply HQ.
Qed.

End getters.

(** One step of a method in a [wlp] goal, through the lemmas above. *)
Ltac wlp_raft :=
  repeat first
    [ wlp_step
    | apply wlp_getLastLog; intros ?
    | apply wlp_getFirstLog; intros ?
    | apply wlp_logAt; intros ?
    | apply wlp_setNewTerm
    | apply wlp_persist
    | apply wlp_setNext; intros ?
    | apply wlp_setMatch; intros ?
    | apply wlp_update_first; intros ? ].

Section term_methods.
Context {Cmd : Type} `{CodecLaws (hard_state Cmd)}.
Implicit Types rf : Raft Cmd.
Abbreviation RM := (M (Raft Cmd) (Effect Cmd)).

Lemma appendEntries_same rf hb : wlp (appendEntries hb) (λ _ rf', same_vote rf rf') rf.
Proof.
  unfold appendEntries. wlp_raft. apply wlp_for_each; [auto with term|].
  intros peer rf' Hs. unfold appendEntriesPeer. wlp_raft; exact Hs.
Qed.

Lemma leaderCommitLog_same rf : wlp leaderCommitLog (λ _ rf', same_vote rf rf') rf.
Proof.
  unfold leaderCommitLog. wlp_raft; [auto with term|]. apply wlp_for_each; [auto with term|].
  intros i rf' Hs. unfold commitAt, apply. wlp_raft; exact Hs.
Qed.

Lemma appendLoop_same first es rf : wlp (appendLoop first es) (λ _ rf', same_vote rf rf') rf.
Proof.
  revert rf. induction es as [|e es IH]; intros rf; cbn [appendLoop]; [wlp_step; auto with term|].
  wlp_step. apply wlp_getLastLog. intros la. wlp_step.
  apply (wlp_mono _ (λ _ rf', rf' = rf)); [wlp_raft; done|]. intros b rf' ->.
  wlp_step. apply (wlp_mono _ (λ _ rf', same_vote rf rf')); [wlp_raft; auto with term|].
  intros [] rf' Hs. wlp_step. apply wlp_getLastLog. intros la'. wlp_step.
  - wlp_raft. etrans; [exact Hs|]. auto with term.
  - eapply wlp_mono; [apply IH|]. intros [] rf'' ?. by etrans.
Qed.

Lemma AppendEntries_steps_down rf args : wlp (AppendEntries args) (λ _ rf', steps_down rf rf') rf.
Proof.
  unfold AppendEntries. wlp_step. wlp_step. wlp_step; [wlp_step; auto with term|].
  wlp_step; [wlp_raft; apply newTerm_steps_down; lia|]. wlp_step. wlp_step. wlp_step.
  apply (wlp_mono _ (λ _ rf', steps_down rf rf')).
  { wlp_raft; [|auto with term]. unfold steps_down. simpl. split_and!; auto. }
  intros [] rf1 Hd. wlp_step. apply wlp_getFirstLog. intros f. wlp_step; [by wlp_step|].
  wlp_step. apply wlp_getLastLog. intros la. wlp_step; [by wlp_step|]. wlp_step.
  apply wlp_logAt. intros pv. wlp_step; [by wlp_raft|]. wlp_step.
  eapply wlp_mono; [apply appendLoop_same|]. intros [] rf2 Hs2. unfold apply.
  wlp_raft; eapply steps_down_same; try exact Hd; [|exact Hs2].
  etrans; [exact Hs2|]. auto with term.
Qed.

Lemma sendAppendEntryAndUpdate_steps_down rf s args rpc :
  wlp (sendAppendEntryAndUpdate s args rpc) (λ _ rf', steps_down rf rf') rf.
Proof.
  unfold sendAppendEntryAndUpdate. destruct rpc as [reply|]; [|wlp_step; auto with term].
  wlp_step. wlp_step. wlp_step; [apply wlp_setNewTerm, newTerm_steps_down; lia|].
  wlp_step; [|auto with term]. wlp_step. apply (wlp_mono _ (λ _ rf', same_vote rf rf')).
  { unfold findLastLogInXTerm. wlp_raft; auto with term. }
  intros [] rf' Hs. eapply wlp_mono; [apply leaderCommitLog_same|].
  intros [] rf'' ?. apply same_steps_down. by etrans.
Qed.

Lemma sendInstallSnapshotAndUpdate_steps_down rf s args rpc :
  wlp (sendInstallSnapshotAndUpdate s args rpc) (λ _ rf', steps_down rf rf') rf.
Proof.
  unfold sendInstallSnapshotAndUpdate. destruct rpc as [reply|]; [|wlp_step; auto with term].
  wlp_step. wlp_step. wlp_step. apply (wlp_mono _ (λ _ rf', steps_down rf rf')).
  { wlp_raft; auto with term. apply newTerm_steps_down. lia. }
  intros [] rf' Hd. wlp_raft. eapply steps_down_same; [exact Hd|]. auto with term.
Qed.

Lemma InstallSnapshot_steps_down rf args : wlp (InstallSnapshot args) (λ _ rf', steps_down rf rf') rf.
Proof.
  unfold InstallSnapshot. wlp_step. wlp_step. wlp_step; [wlp_step; auto with term|].
  wlp_step. apply (wlp_mono _ (λ _ rf', steps_down rf rf')).
  { wlp_raft; auto with term. apply newTerm_steps_down. lia. }
  intros [] rf' Hd. by wlp_raft.
Qed.

Lemma Start_same rf command : wlp (Start command) (λ _ rf', same_vote rf rf') rf.
Proof.
  unfold Start. wlp_step. wlp_step. wlp_step; [wlp_step; auto with term|].
  wlp_step. apply wlp_getLastLog. intros la. wlp_step. wlp_step. wlp_step. apply wlp_persist.
  wlp_step. eapply wlp_mono; [apply appendEntries_same|]. intros [] rf' Hs. wlp_step.
  etrans; [|exact Hs]. auto with term.
Qed.

Lemma tickerHeartbeat_same rf : wlp tickerHeartbeat (λ _ rf', same_vote rf rf') rf.
Proof.
  unfold tickerHeartbeat. wlp_step. wlp_step. wlp_step; [|auto with term].
  wlp_step. eapply wlp_mono; [apply appendEntries_same|]. intros [] rf' Hs. by wlp_step.
Qed.

Lemma snapshot_same rf rf' b :
  currentTerm rf' = currentTerm rf → votedFor rf' = votedFor rf → role rf' = role rf →
  me rf' = me rf → npeers rf' = npeers rf →
  same_vote rf (set_persister (SaveStateAndSnapshot (persister rf') (encodeRaftState rf') b) rf').
Proof. intros. unfold same_vote. simpl. split_and!; auto using durable_snapshot. Qed.

Lemma Snapshot_same rf idx snap : wlp (Snapshot idx snap) (λ _ rf', same_vote rf rf') rf.
Proof.
  unfold Snapshot, saveStateAndSnapshot. wlp_raft; [auto with term|]. by apply snapshot_same.
Qed.

Lemma CondInstallSnapshot_same rf term idx snap :
  wlp (CondInstallSnapshot term idx snap) (λ _ rf', same_vote rf rf') rf.
Proof.
  unfold CondInstallSnapshot, saveStateAndSnapshot. wlp_step. wlp_step.
  wlp_step; [wlp_step; auto with term|]. wlp_step. apply wlp_getLastLog. intros la. wlp_step.
  apply (wlp_mono _ (λ _ rf', ∃ l, rf' = set_logs l rf)); [wlp_raft; by eexists|].
  intros [] rf' [l ->]. wlp_raft. by apply snapshot_same.
Qed.
End term_methods.
