(* ===== verification/RaftElection.v ===== *)
(** * Elections across the cluster

    A cluster of peers with the vote requests in flight between them.  [exec] runs one action: an
    election timeout, the delivery of a request, the return of a reply to the goroutine of its
    election, a lost call, any other critical section of a peer with arbitrary arguments, or a
    crash and restart.  Requests and replies are delayed, reordered or lost at will, each call
    being executed at most once, as [labrpc] does. *)
From S2P Require Import Prelude Raft RaftLog RaftNode RaftVote RaftSnapshot RaftProc RaftTerm.

Section cluster.
Context {Cmd : Type} `{Codec (hard_state Cmd)}.

(** One [StartElection] with its owner; it is dead once the owner crashed. *)
Record ElectionRec := mkER { er_owner : nat; er_live : bool; er_el : Election }.

(** One [sendRequestVote]: the election it belongs to, its destination, the reply if the handler
    ran. *)
Record VoteCall := mkVC { vc_el : nat; vc_to : Z; vc_reply : option RequestVoteReply }.

Record Cluster := mkCluster {
  nodes : list (Raft Cmd);
  elections : list ElectionRec;
  calls : list (option VoteCall);
}.

(** Anything a peer does outside elections. *)
Inductive Other :=
| OAppendEntries (args : AppendEntriesArgs Cmd)
| OInstallSnapshot (args : InstallSnapshotArgs)
| OStart (command : option Cmd)
| OHeartbeat
| OAppendReply (serverId : Z) (args : AppendEntriesArgs Cmd) (rpc : option AppendEntriesReply)
| OSnapReply (serverId : Z) (args : InstallSnapshotArgs) (rpc : option InstallSnapshotReply)
| OSnapshot (idx : Z) (snap : list byte)
| OCondInstall (term idx : Z) (snap : list byte)
| OApplied (ci : Z)
| OKill.

Definition run_other (o : Other) : M (Raft Cmd) (Effect Cmd) unit :=
  match o with
  | OAppendEntries args => AppendEntries args ;; mret tt
  | OInstallSnapshot args => InstallSnapshot args ;; mret tt
  | OStart command => Start command ;; mret tt
  | OHeartbeat => tickerHeartbeat
  | OAppendReply serverId args rpc => sendAppendEntryAndUpdate serverId args rpc
  | OSnapReply serverId args rpc => sendInstallSnapshotAndUpdate serverId args rpc
  | OSnapshot idx snap => Snapshot idx snap
  | OCondInstall term idx snap => CondInstallSnapshot term idx snap ;; mret tt
  | OApplied ci => applierDone ci
  | OKill => Kill
  end.

Inductive Action :=
| ATimeout (i : nat)
| ADeliver (k : nat)
| AReply (k : nat)
| ALose (k : nat)
| AOther (i : nat) (o : Other)
| ARestart (i : nat).

(** The calls an election starts, one per [GoRequestVote] effect. *)
Definition new_calls (el : nat) (w : list (Effect Cmd)) : list (option VoteCall) :=
  omap (λ e, match e with
             | GoRequestVote p _ => Some (Some (mkVC el p None))
             | _ => None
             end) w.

Definition set_node (i : nat) (rf : Raft Cmd) (c : Cluster) : Cluster :=
  mkCluster (<[i := rf]> (nodes c)) (elections c) (calls c).
Definition set_call (k : nat) (v : option VoteCall) (c : Cluster) : Cluster :=
  mkCluster (nodes c) (elections c) (<[k := v]> (calls c)).
Definition set_election (j : nat) (er : ElectionRec) (c : Cluster) : Cluster :=
  mkCluster (nodes c) (<[j := er]> (elections c)) (calls c).
Definition kill_elections (i : nat) (c : Cluster) : Cluster :=
  mkCluster (nodes c)
    ((λ er, if decide (er_owner er = i) then mkER i false (er_el er) else er) <$> elections c)
    (calls c).

Definition exec (c : Cluster) (a : Action) : option Cluster :=
  match a with
  | ATimeout i =>
      rf ← nodes c !! i;
      '(el, rf', w) ← tickerElection rf;
      Some (mkCluster (<[i := rf']> (nodes c)) (elections c ++ [mkER i true el])
              (calls c ++ new_calls (length (elections c)) w))
  | ADeliver k =>
      vc ← mjoin (calls c !! k);
      er ← elections c !! vc_el vc;
      match vc_reply vc with
      | Some _ => None
      | None =>
          rf ← nodes c !! Z.to_nat (vc_to vc);
          '(reply, rf', _) ← RequestVote (el_args (er_el er)) rf;
          Some (set_call k (Some (mkVC (vc_el vc) (vc_to vc) (Some reply)))
                  (set_node (Z.to_nat (vc_to vc)) rf' c))
      end
  | AReply k =>
      vc ← mjoin (calls c !! k);
      er ← elections c !! vc_el vc;
      match vc_reply vc with
      | None => None
      | Some reply =>
          if er_live er then
            rf ← nodes c !! er_owner er;
            '(el', rf', _) ← voteReply (er_el er) (Some reply) rf;
            Some (set_call k None (set_election (vc_el vc) (mkER (er_owner er) true el')
                    (set_node (er_owner er) rf' c)))
          else Some (set_call k None c)
      end
  | ALose k =>
      _ ← mjoin (calls c !! k);
      Some (set_call k None c)
  | AOther i o =>
      rf ← nodes c !! i;
      '(_, rf', _) ← run_other o rf;
      Some (set_node i rf' c)
  | ARestart i =>
      rf ← nodes c !! i;
      rf' ← Make (npeers rf) (me rf) (persister rf);
      Some (kill_elections i (set_node i rf' c))
  end.

Fixpoint exec_all (c : Cluster) (l : list Action) : option Cluster :=
  match l with
  | [] => Some c
  | a :: l => c' ← exec c a; exec_all c' l
  end.

(** The reply carries a later term than the election: the goroutine calls
    [rf.setNewTerm(args.Term)]. *)
Definition rolls_back (c : Cluster) (a : Action) : bool :=
  match a with
  | AReply k =>
      match mjoin (calls c !! k) with
      | Some vc =>
          match elections c !! vc_el vc, vc_reply vc with
          | Some er, Some reply => er_live er && (rv_Term (el_args (er_el er)) <? rvr_Term reply)
          | _, _ => false
          end
      | None => false
      end
  | _ => false
  end.

Definition step (c c' : Cluster) : Prop := ∃ a, exec c a = Some c'.
Definition forward_step (c c' : Cluster) : Prop := ∃ a, rolls_back c a = false ∧ exec c a = Some c'.

Definition init (n : nat) : Cluster :=
  mkCluster ((λ i, p_rf (fresh (Z.of_nat n) (Z.of_nat i))) <$> seq 0 n) [] [].

Definition leader_of (c : Cluster) (i : nat) (t : Z) : Prop :=
  ∃ rf, nodes c !! i = Some rf ∧ role rf = LEADER ∧ currentTerm rf = t.

Definition leader_ofb (c : Cluster) (i : nat) (t : Z) : bool :=
  match nodes c !! i with
  | Some rf => bool_decide (role rf = LEADER) && (currentTerm rf =? t)
  | None => false
  end.

Lemma leader_ofb_spec c i t : leader_ofb c i t = true ↔ leader_of c i t.
Proof.
  unfold leader_ofb, leader_of. destruct (nodes c !! i) as [rf|]; [|naive_solver].
  rewrite andb_true_iff, bool_decide_eq_true, Z.eqb_eq. naive_solver.
Qed.

(** ** What the election methods do to a peer *)
Section methods.
Context `{!CodecLaws (hard_state Cmd)}.
Implicit Types rf : Raft Cmd.

(** A step of a peer as seen by elections: its term grows or term and vote stay, and it does not
    become leader. *)
Definition advance rf rf' : Prop :=
  me rf' = me rf ∧ npeers rf' = npeers rf ∧ (durable rf → durable rf') ∧
  (currentTerm rf' = currentTerm rf ∧ votedFor rf' = votedFor rf ∨ currentTerm rf < currentTerm rf') ∧
  (role rf' = LEADER → role rf = LEADER ∧ currentTerm rf' = currentTerm rf).

(** A step in which the peer votes for [c] in term [t]. *)
Definition votes rf rf' (t c : Z) : Prop :=
  me rf' = me rf ∧ npeers rf' = npeers rf ∧ durable rf' ∧
  currentTerm rf' = t ∧ votedFor rf' = c ∧
  (currentTerm rf < t ∨ currentTerm rf = t ∧ (votedFor rf = -1 ∨ votedFor rf = c)) ∧
  (role rf' = LEADER → role rf = LEADER ∧ currentTerm rf' = currentTerm rf).

Lemma steps_down_advance rf rf' : steps_down rf rf' → advance rf rf'.
Proof.
  intros (? & ? & ? & [(? & ? & [Hr|Hr])|(? & ? & ?)]); unfold advance;
    (split_and!; [done|done|done|auto|intros ?; split; congruence]).
Qed.

Lemma wlp_RequestVote rf args :
  wlp (RequestVote args) (λ reply rf',
    rvr_VoteGranted reply = false ∧ advance rf rf' ∨
    rvr_VoteGranted reply = true ∧ rvr_Term reply = rv_Term args ∧
      votes rf rf' (rv_Term args) (rv_CandidateId args)) rf.
Proof.
  unfold RequestVote. wlp_step. wlp_step. wlp_step.
  { wlp_step. left. split; [done|]. by apply steps_down_advance, same_steps_down. }
  wlp_step. apply (wlp_mono _ (λ _ rf1, steps_down rf rf1 ∧ currentTerm rf1 = rv_Term args ∧
    (currentTerm rf < rv_Term args ∨ rf1 = rf))).
  { wlp_step; [apply wlp_setNewTerm|]; simpl; split_and!; try lia; auto.
    - apply newTerm_steps_down. lia.
    - by apply same_steps_down. }
  intros [] rf1 (Hd & Ht & Hc). wlp_step. apply wlp_getLastLog. intros la. wlp_step. wlp_step.
  wlp_step. wlp_step.
  - wlp_step. wlp_step. wlp_step. apply wlp_persist. wlp_steps. right. simpl. split_and!; [done..|].
    pose proof Hd as (? & ? & ? & Hcase). unfold votes. simpl. split_and!; try done.
    + apply durable_persisted.
    + destruct Hc as [Hlt|Heq]; [by left|]. subst rf1. right. split; [done|]. lia.
    + destruct (steps_down_advance _ _ Hd) as (_ & _ & _ & _ & Hl). exact Hl.
  - wlp_steps. left. split; [done|]. by apply steps_down_advance.
Qed.

Lemma wlp_vote_loop rf args (self : Z) (peers : list Z) :
  wlp (for_each peers (λ p, if p =? self then mret tt else emit (GoRequestVote (Cmd := Cmd) p args)))
    (λ _ rf', rf' = rf) rf.
Proof. apply wlp_for_each; [done|]. intros p rf' ->. by wlp_steps. Qed.

Lemma wlp_tickerElection rf :
  wlp tickerElection (λ el rf', votes rf rf' (currentTerm rf + 1) (me rf) ∧ role rf' = CANDIDATE ∧
    el_granted el = 1 ∧ rv_Term (el_args el) = currentTerm rf + 1 ∧
    rv_CandidateId (el_args el) = me rf) rf.
Proof.
  unfold tickerElection, StartElection. do 6 wlp_step. wlp_step.
  wlp_step. apply wlp_getLastLog. intros la. wlp_step. wlp_step. wlp_step. apply wlp_persist.
  wlp_step. eapply wlp_mono; [apply wlp_vote_loop|]. intros [] rf' ->. wlp_steps.
  unfold votes. simpl. split_and!; auto using durable_persisted; try done. left. lia.
Qed.

Lemma wlp_becomeLeader rf :
  wlp becomeLeader (λ _ rf', same_vote (set_role LEADER rf) rf') rf.
Proof.
  unfold becomeLeader. wlp_step. wlp_step. wlp_step. apply wlp_getLastLog. intros la. wlp_step.
  wlp_step. wlp_step. apply (wlp_mono _ (λ _ rf', same_vote (set_role LEADER rf) rf')).
  { apply wlp_for_each; [done|]. intros i rf' Hs. unfold initLeaderPeer. wlp_step.
    apply wlp_setNext. intros l. apply wlp_setMatch. intros l'. etrans; [exact Hs|].
    auto with term. }
  intros [] rf' Hs. wlp_step. eapply wlp_mono; [apply appendEntries_same|].
  intros [] rf'' Hs'. wlp_step. by etrans.
Qed.

(** A reply that does not roll back the term is ignored, or counted, or makes the peer leader. *)
Lemma wlp_voteReply rf el reply :
  rvr_Term reply ≤ rv_Term (el_args el) →
  wlp (voteReply el (Some reply)) (λ el' rf', el_args el' = el_args el ∧
    (el_granted el' = el_granted el ∧ same_vote rf rf' ∨
     rvr_VoteGranted reply = true ∧ rvr_Term reply = rv_Term (el_args el) ∧
       el_granted el' = el_granted el + 1 ∧
       (same_vote rf rf' ∨
        npeers rf / 2 < el_granted el' ∧ currentTerm rf = rv_Term (el_args el) ∧
          same_vote (set_role LEADER rf) rf'))) rf.
Proof.
  intros Hle. unfold voteReply. wlp_step; [lia|].
  wlp_step; [wlp_step; split; [done|]; by left|].
  wlp_step; [wlp_step; split; [done|]; by left|]. wlp_step. wlp_step. wlp_step.
  - wlp_step. wlp_step.
    + eapply wlp_mono; [apply wlp_becomeLeader|]. intros [] rf' Hs. wlp_step. split; [done|]. right.
      simpl. split_and!; [by destruct (rvr_VoteGranted reply)|lia|done|]. right. split_and!; [lia..|done].
    + wlp_step. split; [done|]. right. simpl. destruct (rvr_VoteGranted reply); [|done].
      split_and!; [done|lia|done|by left].
  - wlp_step. split; [done|]. right. simpl. destruct (rvr_VoteGranted reply); [|done].
    split_and!; [done|lia|done|by left].
Qed.

Lemma run_other_advance rf o : wlp (run_other o) (λ _ rf', advance rf rf') rf.
Proof.
  apply (wlp_mono _ (λ _ rf', steps_down rf rf')); [|intros []; apply steps_down_advance].
  destruct o; simpl.
  - wlp_step. eapply wlp_mono; [apply AppendEntries_steps_down|]. intros ? rf' ?. by wlp_step.
  - wlp_step. eapply wlp_mono; [apply InstallSnapshot_steps_down|]. intros ? rf' ?. by wlp_step.
  - wlp_step. eapply wlp_mono; [apply Start_same|]. intros ? rf' ?. wlp_step. auto with term.
  - eapply wlp_mono; [apply tickerHeartbeat_same|]. auto with term.
  - apply sendAppendEntryAndUpdate_steps_down.
  - apply sendInstallSnapshotAndUpdate_steps_down.
  - eapply wlp_mono; [apply Snapshot_same|]. auto with term.
  - wlp_step. eapply wlp_mono; [apply CondInstallSnapshot_same|]. intros ? rf' ?. wlp_step. auto with term.
  - unfold applierDone. wlp_step. auto with term.
  - unfold Kill. wlp_step. auto with term.
Qed.

Lemma Make_advance rf rf' :
  durable rf → Make (npeers rf) (me rf) (persister rf) = Some rf' → advance rf rf'.
Proof.
  intros Hd. unfold Make, run_state, ReadRaftState. rewrite clone_id.
  destruct Hd as [[Hdec Hne]|(He & Ht & Hv & Hl)].
  - destruct (raftstate (persister rf)) as [|b bs] eqn:Hb; [done|]. rewrite <-Hb in *.
    unfold readPersist. rewrite Hb. unfold mbind, M_bind, lift. rewrite <-Hb, Hdec. simpl.
    unfold getFirstLog, mbind, M_bind, get, lift. simpl.
    destruct (index (logs rf) 0); simpl; intros [= <-]. unfold advance. simpl.
    split_and!; try done. by left.
  - rewrite He. simpl. intros [= <-]. unfold advance. simpl. rewrite Ht, Hv.
    split_and!; try done; [by right|by left].
Qed.

(** The requests of an election go to every other peer, each once. *)
Lemma tickerElection_calls rf el rf' w j :
  tickerElection rf = Some (el, rf', w) →
  new_calls j w = (λ p, Some (mkVC j p None)) <$> filter (λ p, p ≠ me rf) (zrange 0 (npeers rf)).
Proof.
  destruct (index (logs rf) (zlen (logs rf) - 1)) as [la|] eqn:Hla.
  - assert (wp tickerElection (λ _ _ w, ∃ args, w = ((λ p, GoRequestVote (Cmd := Cmd) p args) <$>
      filter (λ p, p ≠ me rf) (zrange 0 (npeers rf))) ++ [ResetElectionTimer]) rf) as Hwp.
    { unfold tickerElection, StartElection, getLastLog. wp_steps. simpl.
      eapply wp_lift; [exact Hla|]. wp_steps. apply wp_persist. wp_steps.
      eapply wp_mono; [apply wp_vote_loop|]. intros [] rf'' w' [-> ->]. wp_steps.
      eexists. simpl. by rewrite !app_nil_r. }
    intros Hrun. destruct (wp_run _ _ _ _ _ _ Hrun Hwp) as [args ->].
    unfold new_calls. rewrite omap_app. simpl. rewrite app_nil_r.
    clear. induction (filter _ (zrange 0 (npeers rf))) as [|p ps IH]; [done|]. simpl. f_equal. exact IH.
  - unfold tickerElection, StartElection, getLastLog, mbind, M_bind, modify, get, lift. simpl.
    rewrite Hla. done.
Qed.
End methods.

(** ** The invariant

    [V v t c] is the ghost history of votes: peer [v] voted for [c] in term [t]. *)
Section safety.
#[local] Arguments voteReply : simpl never.
#[local] Coercion Z.of_nat : nat >-> Z.
Context `{!CodecLaws (hard_state Cmd)} (n : nat).
Implicit Types (rf : Raft Cmd) (V : Z → Z → Z → Prop).

Definition quorum V (t cand : Z) : Prop :=
  ∃ S : gset Z, S ⊆ peer_set n ∧ Z.of_nat (size S) > Z.of_nat n / 2 ∧ ∀ v, v ∈ S → V v t cand.

Record node_inv V (i : nat) rf : Prop := {
  ni_me : me rf = i;
  ni_n : npeers rf = n;
  ni_durable : durable rf;
  ni_votes t cand : V i t cand → t ≤ currentTerm rf ∧ (t = currentTerm rf → votedFor rf = cand);
  ni_leader : role rf = LEADER → quorum V (currentTerm rf) i;
}.

(** The peers whose votes an election has counted are voters, and no call to them is pending. *)
Record election_inv V (cs : list (option VoteCall)) (j : nat) (er : ElectionRec) : Prop := {
  ei_cand : rv_CandidateId (el_args (er_el er)) = er_owner er;
  ei_tally : ∃ S : gset Z, S ⊆ peer_set n ∧ Z.of_nat (size S) = el_granted (er_el er) ∧
    (∀ v, v ∈ S → V v (rv_Term (el_args (er_el er))) (er_owner er)) ∧
    (∀ k vc, cs !! k = Some (Some vc) → vc_el vc = j → vc_to vc ∉ S);
}.

Definition call_inv V (els : list ElectionRec) (vc : VoteCall) : Prop :=
  0 ≤ vc_to vc < n ∧
  ∃ er, els !! vc_el vc = Some er ∧
    ∀ reply, vc_reply vc = Some reply → rvr_VoteGranted reply = true →
      rvr_Term reply = rv_Term (el_args (er_el er)) →
      V (vc_to vc) (rv_Term (el_args (er_el er))) (er_owner er).

(** Pending calls of one election have different destinations. *)
Definition distinct_calls (cs : list (option VoteCall)) : Prop :=
  ∀ k1 k2 vc1 vc2, cs !! k1 = Some (Some vc1) → cs !! k2 = Some (Some vc2) →
    vc_el vc1 = vc_el vc2 → vc_to vc1 = vc_to vc2 → k1 = k2.

Record Inv V c : Prop := {
  inv_len : length (nodes c) = n;
  inv_nodes i rf : nodes c !! i = Some rf → node_inv V i rf;
  inv_elections j er : elections c !! j = Some er → election_inv V (calls c) j er;
  inv_calls k vc : calls c !! k = Some (Some vc) → call_inv V (elections c) vc;
  inv_distinct : distinct_calls (calls c);
  inv_fun v t x y : V v t x → V v t y → x = y;
  inv_range v t cand : V v t cand → 0 ≤ cand;
}.

Definition cast V (v t cand : Z) : Z → Z → Z → Prop :=
  λ v' t' c', V v' t' c' ∨ v' = v ∧ t' = t ∧ c' = cand.

Lemma quorum_mono V V' t cand : (∀ v t c, V v t c → V' v t c) → quorum V t cand → quorum V' t cand.
Proof. intros HV (S & ? & ? & Hv). exists S. auto. Qed.

Lemma election_inv_mono V V' cs cs' j er :
  (∀ v t c, V v t c → V' v t c) →
  (∀ k vc, cs' !! k = Some (Some vc) → vc_el vc = j →
     ∃ k' vc', cs !! k' = Some (Some vc') ∧ vc_el vc' = j ∧ vc_to vc' = vc_to vc) →
  election_inv V cs j er → election_inv V' cs' j er.
Proof.
  intros HV Hcs [Hc (S & HS & Hs & Hv & Hout)]. split; [done|]. exists S. split_and!; auto.
  intros k vc Hk Hj. destruct (Hcs _ _ Hk Hj) as (k' & vc' & Hk' & Hj' & <-). eauto.
Qed.

Lemma call_inv_mono V V' els els' vc :
  (∀ v t c, V v t c → V' v t c) →
  (∀ j er, els !! j = Some er → ∃ er', els' !! j = Some er' ∧ er_owner er' = er_owner er ∧
     el_args (er_el er') = el_args (er_el er)) →
  call_inv V els vc → call_inv V' els' vc.
Proof.
  intros HV Hels (Hr & er & Her & Hreply). split; [done|].
  destruct (Hels _ _ Her) as (er' & Her' & Ho & Ha). exists er'. rewrite Ho, Ha. eauto.
Qed.

Lemma node_inv_advance V i rf rf' : node_inv V i rf → advance rf rf' → node_inv V i rf'.
Proof.
  intros [Hme Hn Hd Hv Hl] (Hme' & Hn' & Hd' & Hc & Hl'). split; try congruence; auto.
  - intros t cand HV. destruct (Hv _ _ HV) as [? Hsame].
    destruct Hc as [(-> & ->)|Hlt]; [done|]. lia.
  - intros Hr. destruct (Hl' Hr) as [Hr' ->]. auto.
Qed.

Lemma node_inv_votes V (i : nat) rf rf' t cand :
  node_inv V i rf → votes rf rf' t cand → 0 ≤ cand → (∀ v t c, V v t c → 0 ≤ c) →
  node_inv (cast V i t cand) i rf' ∧ (∀ c', V i t c' → c' = cand).
Proof.
  intros [Hme Hn Hd Hv Hl] (Hme' & Hn' & Hd' & Ht & Hvt & Hc & Hl') H0 Hrange.
  assert (∀ c', V i t c' → c' = cand) as Hfun.
  { intros c' HV. destruct (Hv _ _ HV) as [Hle Heq]. pose proof (Hrange _ _ _ HV).
    destruct Hc as [?|[? Hvote]]; [lia|]. specialize (Heq ltac:(lia)). lia. }
  split; [|done]. split; try congruence.
  - intros t' c' [HV|(_ & -> & ->)]; [|lia]. destruct (Hv _ _ HV) as [Hle Heq].
    split; [lia|]. intros ->. rewrite Ht in *. symmetry. by rewrite Hvt, (Hfun c').
  - intros Hr. destruct (Hl' Hr) as [Hr' ->]. eapply quorum_mono; [|auto]. by left.
Qed.

Lemma node_inv_cast V v t cand i rf : i ≠ v → node_inv V i rf → node_inv (cast V v t cand) i rf.
Proof.
  intros Hne [Hme Hn Hd Hv Hl]. split; auto.
  - intros t' c' [HV|(? & _)]; [auto|lia].
  - intros Hr. eapply quorum_mono; [|auto]. by left.
Qed.

(** *** How each part of a step keeps the invariant *)
Lemma Inv_node V c i rf' :
  Inv V c → node_inv V i rf' → Inv V (set_node i rf' c).
Proof.
  intros [] Hrf'. split; simpl; auto; [by rewrite length_insert|].
  intros i' rf''. rewrite list_lookup_insert_Some. intros [(<- & <- & _)|(_ & ?)]; auto.
Qed.

Lemma Inv_cast V c (i : nat) rf rf' t cand :
  Inv V c → nodes c !! i = Some rf → votes rf rf' t cand → 0 ≤ cand →
  Inv (cast V i t cand) (set_node i rf' c).
Proof.
  intros HI Hi Hvt H0. pose proof HI as [Hlen Hn He Hc Hd Hf Hr].
  destruct (node_inv_votes V i rf rf' t cand (Hn _ _ Hi) Hvt H0 Hr) as [Hi' Hfun].
  assert (∀ v t' c, V v t' c → cast V i t cand v t' c) as Hmono by by left.
  split; simpl; auto; [by rewrite length_insert|..].
  - intros i' rf''. rewrite list_lookup_insert_Some. intros [(<- & <- & _)|(? & ?)]; [done|].
    apply node_inv_cast; [lia|]. auto.
  - intros j er Hj. eapply election_inv_mono; [done| |by apply He]. eauto.
  - intros k vc Hk. eapply call_inv_mono; [done| |by eapply Hc]. eauto.
  - intros v t' c1 c2 [H1|(-> & -> & ->)] [H2|(Hv' & Ht' & Hc')]; subst; eauto. symmetry. auto.
  - intros v t' c' [?|(_ & _ & ->)]; eauto.
Qed.

Lemma Inv_call V c k vc v :
  Inv V c → calls c !! k = Some (Some vc) →
  match v with
  | Some vc' => vc_el vc' = vc_el vc ∧ vc_to vc' = vc_to vc ∧ call_inv V (elections c) vc'
  | None => True
  end →
  Inv V (set_call k v c).
Proof.
  intros [Hlen Hn He Hc Hd Hf Hr] Hk Hv.
  assert (∀ k' vc', <[k := v]> (calls c) !! k' = Some (Some vc') →
    ∃ vc0, calls c !! k' = Some (Some vc0) ∧ vc_el vc0 = vc_el vc' ∧ vc_to vc0 = vc_to vc') as Hold.
  { intros k' vc'. rewrite list_lookup_insert_Some. intros [(<- & -> & _)|(_ & ?)]; [|by eauto].
    destruct Hv as (? & ? & _). eauto. }
  split; simpl; auto.
  - intros j er Hj. eapply election_inv_mono; [done| |by apply He].
    intros k' vc' Hk' <-. destruct (Hold _ _ Hk') as (vc0 & ? & ? & ?). eauto.
  - intros k' vc'. rewrite list_lookup_insert_Some. intros [(<- & -> & _)|(_ & ?)]; [tauto|eauto].
  - intros k1 k2 vc1 vc2 H1 H2 Hel Hto. destruct (Hold _ _ H1) as (v1 & ? & ? & ?).
    destruct (Hold _ _ H2) as (v2 & ? & ? & ?). eapply Hd; eauto; congruence.
Qed.

Lemma Inv_election V c j er er' :
  Inv V c → elections c !! j = Some er → er_owner er' = er_owner er →
  el_args (er_el er') = el_args (er_el er) → election_inv V (calls c) j er' →
  Inv V (set_election j er' c).
Proof.
  intros [Hlen Hn He Hc Hd Hf Hr] Hj Ho Ha Her'. split; simpl; auto.
  - intros j' er''. rewrite list_lookup_insert_Some. intros [(<- & <- & _)|(_ & ?)]; auto.
  - intros k vc Hk. eapply call_inv_mono; [done| |by eapply Hc]. intros j' er0 Hj'.
    destruct (decide (j' = j)) as [->|Hne].
    + exists er'. rewrite list_lookup_insert_eq by (by eapply lookup_lt_Some). by simplify_eq.
    + exists er0. by rewrite list_lookup_insert_ne.
Qed.

Lemma Inv_kill V c i : Inv V c → Inv V (kill_elections i c).
Proof.
  intros [Hlen Hn He Hc Hd Hf Hr]. split; simpl; auto.
  - intros j er. rewrite list_lookup_fmap_Some. intros (er0 & -> & Hj).
    destruct (He _ _ Hj) as [? ?]. case_decide as Ho; [|done]. rewrite <-Ho. by split.
  - intros k vc Hk. eapply call_inv_mono; [done| |by eapply Hc]. intros j er Hj.
    rewrite list_lookup_fmap, Hj. simpl. eexists. split; [done|]. case_decide; by subst.
Qed.

(** A new election: its owner has voted for itself and every call goes to another peer. *)
Lemma Inv_start V c (i : nat) el cs :
  Inv V c → (i < n)%nat → rv_CandidateId (el_args el) = i → el_granted el = 1 →
  V i (rv_Term (el_args el)) i →
  cs = (λ p, Some (mkVC (length (elections c)) p None)) <$> filter (λ p, p ≠ Z.of_nat i) (zrange 0 n) →
  Inv V (mkCluster (nodes c) (elections c ++ [mkER i true el]) (calls c ++ cs)).
Proof.
  intros [Hlen Hn He Hc Hd Hf Hr] Hi Hcand Hg HV ->. set (ps := filter _ _).
  assert (∀ k vc, (calls c ++ ((λ p, Some (mkVC (length (elections c)) p None)) <$> ps)) !! k
      = Some (Some vc) →
    calls c !! k = Some (Some vc) ∧ (vc_el vc < length (elections c))%nat ∨
    vc_el vc = length (elections c) ∧ vc_reply vc = None ∧ ps !! (k - length (calls c))%nat = Some (vc_to vc)
      ∧ (length (calls c) ≤ k)%nat) as Hnew.
  { intros k vc. rewrite lookup_app_Some. intros [Hk|[Hk Hp]].
    - left. split; [done|]. destruct (Hc _ _ Hk) as (_ & er & Her & _). by eapply lookup_lt_Some.
    - right. rewrite list_lookup_fmap_Some in Hp. destruct Hp as (p & [= ->] & Hp). done. }
  assert (∀ (k : nat) (p : Z), ps !! k = Some p → p ≠ i ∧ 0 ≤ p < n) as Hps.
  { intros k p Hp%list_elem_of_lookup_2. unfold ps in Hp.
    rewrite list_elem_of_filter, elem_of_zrange in Hp. done. }
  split; simpl; auto.
  - intros j er. rewrite lookup_app_Some, list_lookup_singleton_Some.
    intros [Hj|(Hj & Hj0 & <-)].
    + eapply election_inv_mono; [done| |by apply He]. intros k vc Hk Hel.
      destruct (Hnew _ _ Hk) as [[? _]|(Hel' & _)]; [by eauto|].
      apply lookup_lt_Some in Hj. lia.
    + assert (j = length (elections c)) as -> by lia. split; [done|]. exists {[Z.of_nat i]}. cbn [er_el er_owner].
      split_and!.
      * intros v. rewrite elem_of_singleton, elem_of_peer_set. lia.
      * rewrite Hg. by rewrite size_singleton.
      * intros v. rewrite elem_of_singleton. by intros ->.
      * intros k vc Hk Hel. destruct (Hnew _ _ Hk) as [[_ ?]|(_ & _ & Hp & _)]; [lia|].
        rewrite elem_of_singleton. apply (Hps _ _ Hp).
  - intros k vc Hk. destruct (Hnew _ _ Hk) as [[Hk' _]|(Hel & Hre & Hp & _)].
    + eapply call_inv_mono; [done| |by eapply Hc]. intros j er Hj. exists er.
      by rewrite lookup_app_l by (by eapply lookup_lt_Some).
    + split; [apply (Hps _ _ Hp)|]. exists (mkER i true el).
      rewrite Hel, lookup_app_r, Nat.sub_diag by lia. split; [done|]. by rewrite Hre.
  - intros k1 k2 vc1 vc2 H1 H2 Hel Hto.
    destruct (Hnew _ _ H1) as [[? ?]|(? & _ & Hp1 & ?)], (Hnew _ _ H2) as [[? ?]|(? & _ & Hp2 & ?)];
      [by eauto|lia|lia|]. rewrite Hto in Hp1.
    assert (NoDup ps) as Hnd by apply NoDup_filter, NoDup_zrange.
    pose proof (NoDup_lookup _ _ _ _ Hnd Hp1 Hp2). lia.
Qed.

(** A counted vote: the reply of pending call [k] adds its sender to the tally. *)
Lemma tally_add V c k vc er :
  Inv V c → calls c !! k = Some (Some vc) → elections c !! vc_el vc = Some er →
  V (vc_to vc) (rv_Term (el_args (er_el er))) (er_owner er) →
  ∃ S : gset Z, S ⊆ peer_set n ∧ Z.of_nat (size S) = el_granted (er_el er) + 1 ∧
    (∀ v, v ∈ S → V v (rv_Term (el_args (er_el er))) (er_owner er)) ∧
    (∀ k' vc', <[k := None]> (calls c) !! k' = Some (Some vc') → vc_el vc' = vc_el vc → vc_to vc' ∉ S).
Proof.
  intros HI Hk Her HV. destruct (inv_elections _ _ HI _ _ Her) as [Hcand (S & HS & Hs & Hv & Hout)].
  destruct (inv_calls _ _ HI _ _ Hk) as [Hto _].
  exists ({[vc_to vc]} ∪ S). split_and!.
  - intros v. rewrite elem_of_union, elem_of_singleton. intros [->|?]; [by apply elem_of_peer_set|auto].
  - rewrite size_union, size_singleton; [lia|]. pose proof (Hout _ _ Hk eq_refl). set_solver.
  - intros v. rewrite elem_of_union, elem_of_singleton. intros [->|?]; auto.
  - intros k' vc'. rewrite list_lookup_insert_Some. intros [(_ & ? & _)|(Hne & Hk')] Hel; [done|].
    rewrite elem_of_union, elem_of_singleton. intros [Hto'|Hin]; [|by eapply Hout].
    apply Hne. eapply (inv_distinct _ _ HI); eauto.
Qed.

(** *** Every forward step keeps the invariant *)
Definition extends V c : Prop := ∃ V', (∀ v t x, V v t x → V' v t x) ∧ Inv V' c.

Lemma extends_same V c : Inv V c → extends V c.
Proof. by exists V. Qed.

Lemma step_timeout V c (i : nat) rf el rf' w :
  Inv V c → nodes c !! i = Some rf → tickerElection rf = Some (el, rf', w) →
  Inv (cast V i (currentTerm rf + 1) i)
    (mkCluster (<[i := rf']> (nodes c)) (elections c ++ [mkER i true el])
       (calls c ++ new_calls (length (elections c)) w)).
Proof.
  intros HI Hi Hrun. pose proof (inv_nodes _ _ HI _ _ Hi) as Hn.
  assert (i < n)%nat by (rewrite <-(inv_len _ _ HI); by eapply lookup_lt_Some).
  destruct (wlp_tickerElection rf _ _ _ Hrun) as (Hv & _ & Hg & Ht & Hc).
  rewrite (ni_me _ _ _ Hn) in Hv, Hc.
  apply (Inv_start _ (set_node i rf' c)); try done.
  - eapply Inv_cast; eauto. lia.
  - right. by rewrite Ht.
  - rewrite (tickerElection_calls _ _ _ _ _ Hrun), (ni_me _ _ _ Hn), (ni_n _ _ _ Hn). done.
Qed.

(** The votes after a delivered request. *)
Definition delivered_vote V (vc : VoteCall) (er : ElectionRec) (reply : RequestVoteReply) :=
  if rvr_VoteGranted reply
  then cast V (vc_to vc) (rv_Term (el_args (er_el er))) (er_owner er) else V.

Lemma step_deliver V c k vc er rf reply rf' w :
  Inv V c → calls c !! k = Some (Some vc) → elections c !! vc_el vc = Some er →
  nodes c !! Z.to_nat (vc_to vc) = Some rf →
  RequestVote (el_args (er_el er)) rf = Some (reply, rf', w) →
  Inv (delivered_vote V vc er reply)
    (set_call k (Some (mkVC (vc_el vc) (vc_to vc) (Some reply)))
       (set_node (Z.to_nat (vc_to vc)) rf' c)).
Proof.
  intros HI Hk Her Hi Hrun. pose proof (inv_nodes _ _ HI _ _ Hi) as Hn.
  destruct (inv_calls _ _ HI _ _ Hk) as [Hto _].
  destruct (inv_elections _ _ HI _ _ Her) as [Hcand _]. unfold delivered_vote.
  destruct (wlp_RequestVote rf _ _ _ _ Hrun) as [[Hg Ha]|(Hg & Ht & Hv)]; rewrite Hg.
  - eapply Inv_call; [|done|].
    + apply Inv_node; [done|]. by eapply node_inv_advance.
    + split_and!; [done..|]. split; [done|]. exists er. split; [done|]. simpl.
      intros reply' [= <-]. congruence.
  - rewrite Hcand in Hv. rewrite <-(Z2Nat.id (vc_to vc)) at 1 by lia.
    eapply Inv_call; [eapply Inv_cast; [done|done|exact Hv|lia]|done|].
    split_and!; [done..|]. split; [done|]. exists er. split; [done|]. right. simpl.
    by rewrite Z2Nat.id by lia.
Qed.

Lemma delivered_vote_mono V vc er reply v t x : V v t x → delivered_vote V vc er reply v t x.
Proof. unfold delivered_vote. case_match; [by left|done]. Qed.

Lemma step_reply V c k vc er rf reply el' rf' w :
  Inv V c → calls c !! k = Some (Some vc) → elections c !! vc_el vc = Some er →
  vc_reply vc = Some reply → rvr_Term reply ≤ rv_Term (el_args (er_el er)) →
  nodes c !! er_owner er = Some rf → voteReply (er_el er) (Some reply) rf = Some (el', rf', w) →
  Inv V (set_call k None (set_election (vc_el vc) (mkER (er_owner er) true el')
           (set_node (er_owner er) rf' c))).
Proof.
  intros HI Hk Her Hre Hle Hi Hrun. pose proof (inv_nodes _ _ HI _ _ Hi) as Hn.
  destruct (inv_elections _ _ HI _ _ Her) as [Hcand (S0 & HS0 & Hs0 & Hv0 & Hout0)].
  destruct (inv_calls _ _ HI _ _ Hk) as (_ & er' & Her' & Hgrant). simplify_eq.
  assert (∀ rf', same_vote rf rf' → node_inv V (er_owner er) rf') as Hsame.
  { intros rf'' ?. eapply node_inv_advance; [done|]. by apply steps_down_advance, same_steps_down. }
  set (c1 := set_call k None c). assert (Inv V c1) as HI1 by by eapply Inv_call.
  destruct (wlp_voteReply rf _ _ Hle _ _ _ Hrun) as (Ha & [[Hg Hs]|(Hvg & Ht & Hg & Hcase)]).
  - apply (Inv_election _ (set_node (er_owner er) rf' c1) _ er); simpl; auto using Inv_node.
    split; simpl; [by rewrite Ha|]. exists S0. rewrite Ha, Hg. split_and!; auto.
    intros k' vc'. rewrite list_lookup_insert_Some. intros [(_ & ? & _)|(_ & ?)]; [done|eauto].
  - destruct (tally_add V c k vc er HI Hk Her (Hgrant _ Hre Hvg Ht)) as (S & HS & Hs & Hv & Hout).
    apply (Inv_election _ (set_node (er_owner er) rf' c1) _ er); simpl; auto.
    + apply Inv_node; [done|]. destruct Hcase as [?|(Hq & Hct & Hl)]; [auto|].
      destruct Hn as [Hme Hnp Hd Hvs _]. destruct Hl as (Ht' & Hv' & Hr' & Hme' & Hnp' & Hd').
      simpl in *. split; rewrite ?Ht', ?Hv'; try congruence; auto.
      intros _. exists S. rewrite Hct. split_and!; [done| |done]. rewrite Hnp in Hq. lia.
    + split; simpl; [by rewrite Ha|]. exists S. rewrite Ha, Hg. split_and!; auto.
Qed.

Lemma forward_step_Inv V c c' : Inv V c → forward_step c c' → extends V c'.
Proof.
  intros HI (a & Hf & Hex). destruct a as [i|k|k|k|i o|i]; simpl in Hex.
  - destruct (nodes c !! i) as [rf|] eqn:Hi; [|done]. simpl in Hex.
    destruct (tickerElection rf) as [[[el rf'] w]|] eqn:Hrun; simplify_eq/=.
    eexists. split; [|by eapply step_timeout]. by left.
  - destruct (calls c !! k) as [[vc|]|] eqn:Hk; simplify_eq/=.
    destruct (elections c !! vc_el vc) as [er|] eqn:Her; simplify_eq/=.
    destruct (vc_reply vc); simplify_eq/=.
    destruct (nodes c !! Z.to_nat (vc_to vc)) as [rf|] eqn:Hi; simplify_eq/=.
    destruct (RequestVote _ rf) as [[[reply rf'] w]|] eqn:Hrun; simplify_eq/=.
    eexists. split; [|by eapply step_deliver]. intros v t x. apply delivered_vote_mono.
  - unfold rolls_back in Hf. destruct (calls c !! k) as [[vc|]|] eqn:Hk; simplify_eq/=.
    destruct (elections c !! vc_el vc) as [er|] eqn:Her; simplify_eq/=.
    destruct (vc_reply vc) as [reply|] eqn:Hre; simplify_eq/=. apply extends_same.
    destruct (er_live er); simplify_eq/=; [|by eapply Inv_call].
    destruct (nodes c !! er_owner er) as [rf|] eqn:Hi; simplify_eq/=.
    destruct (voteReply _ _ rf) as [[[el' rf'] w]|] eqn:Hrun; simplify_eq/=.
    eapply step_reply; eauto. lia.
  - destruct (calls c !! k) as [[vc|]|] eqn:Hk; simplify_eq/=. apply extends_same. by eapply Inv_call.
  - destruct (nodes c !! i) as [rf|] eqn:Hi; simplify_eq/=.
    destruct (run_other o rf) as [[[[] rf'] w]|] eqn:Hrun; simplify_eq/=. apply extends_same.
    apply Inv_node; [done|]. eapply node_inv_advance; [by eapply inv_nodes|].
    by eapply run_other_advance.
  - destruct (nodes c !! i) as [rf|] eqn:Hi; simplify_eq/=.
    destruct (Make _ _ _) as [rf'|] eqn:Hrun; simplify_eq/=. apply extends_same, Inv_kill.
    pose proof (inv_nodes _ _ HI _ _ Hi) as Hn. apply Inv_node; [done|].
    eapply node_inv_advance; [done|]. apply Make_advance; [by eapply ni_durable|done].
Qed.

Lemma forward_steps_Inv V c c' : rtc forward_step c c' → Inv V c → extends V c'.
Proof.
  intros Hs. revert V. induction Hs as [|c1 c2 c3 H12 _ IH]; intros V HI; [by apply extends_same|].
  destruct (forward_step_Inv _ _ _ HI H12) as (V' & HV & HI').
  destruct (IH _ HI') as (V'' & HV' & HI''). exists V''. auto.
Qed.

Lemma init_Inv : Inv (λ _ _ _, False) (init n).
Proof.
  split; simpl; try done; [by rewrite length_fmap, length_seq|].
  intros i rf. rewrite list_lookup_fmap_Some. intros (j & -> & [-> _]%lookup_seq).
  split; simpl; try done. by right.
Qed.

Lemma leader_quorum V c i t : Inv V c → leader_of c i t → quorum V t i.
Proof.
  intros HI (rf & Hi & Hr & <-). by eapply ni_leader; [eapply inv_nodes|].
Qed.
End safety.

(** Executions of the model as steps of the relations. *)
Lemma exec_all_steps l c c' : exec_all c l = Some c' → rtc step c c'.
Proof.
  revert c. induction l as [|a l IH]; simpl; intros c Hex; [by simplify_eq|].
  destruct (exec c a) as [c1|] eqn:Ha; simplify_eq/=. eapply rtc_l; [by exists a|]. auto.
Qed.

Fixpoint forward_all (c : Cluster) (l : list Action) : option Cluster :=
  match l with
  | [] => Some c
  | a :: l => if rolls_back c a then None else c' ← exec c a; forward_all c' l
  end.

Lemma forward_all_steps l c c' : forward_all c l = Some c' → rtc forward_step c c'.
Proof.
  revert c. induction l as [|a l IH]; simpl; intros c Hex; [by simplify_eq|].
  destruct (rolls_back c a) eqn:Hr; [done|].
  destruct (exec c a) as [c1|] eqn:Ha; simplify_eq/=. eapply rtc_l; [by exists a|]. auto.
Qed.
End cluster.

#[global] Arguments Cluster : clear implicits.
#[global] Arguments Other : clear implicits.
#[global] Arguments Action : clear implicits.

(** ** Election safety, and the step that breaks it *)

(** C8: Election safety over time.  In a cluster whose peers time out, vote, crash, restart and
    receive arbitrary other messages while vote requests and replies are delayed, reordered or
    lost, as long as no election goroutine sees a reply from a later term, a peer that leads term
    [t] at one point and a peer that leads term [t] at that or any later point are the same. *)
Theorem election_safety {Cmd : Type} `{CodecLaws (hard_state Cmd)} (n : nat)
    (c1 c2 : Cluster Cmd) (i j : nat) (t : Z) :
  rtc forward_step (init n) c1 → rtc forward_step c1 c2 →
  leader_of c1 i t → leader_of c2 j t → i = j.
Proof.
  intros H1 H2 Hi Hj. destruct (forward_steps_Inv n _ _ _ H1 (init_Inv n)) as (V1 & _ & HI1).
  destruct (forward_steps_Inv n _ _ _ H2 HI1) as (V2 & HV & HI2).
  pose proof (quorum_mono n _ _ _ _ HV (leader_quorum n _ _ _ _ HI1 Hi)) as (S1 & HS1 & Hs1 & Hv1).
  destruct (leader_quorum n _ _ _ _ HI2 Hj) as (S2 & HS2 & Hs2 & Hv2).
  destruct (quorum_intersect (Z.of_nat n) (peer_set (Z.of_nat n)) S1 S2) as (v & Hva & Hvb); auto.
  { by rewrite size_peer_set by lia. }
  apply Nat2Z.inj. eapply (inv_fun n _ _ HI2); eauto.
Qed.

Module Rollback.
#[local] Instance codec : Codec (hard_state Z) := countable_codec (hard_state Z).
#[local] Instance codec_laws : CodecLaws (hard_state Z) := countable_codec_laws _.

(** Peer 0 wins term 1; the reply of peer 4, already in term 2, then makes it forget its vote of
    term 1, and it votes for peer 3 in the same term. *)
Definition wins : list (Action Z) :=
  [ ATimeout 0; ATimeout 3;
    ADeliver 0; ADeliver 1; AReply 0; AReply 1 ]. (* votes of 1 and 2: peer 0 leads term 1 *)
Definition loses : list (Action Z) :=
  [ ADeliver 7; AReply 7;                         (* peer 4 votes for peer 3 *)
    ATimeout 4;                                   (* peer 4 moves to term 2 *)
    ADeliver 3; AReply 3;                         (* its reply to peer 0 carries term 2 *)
    ADeliver 4; AReply 4 ].                       (* peer 0 votes again in term 1 *)

Definition after (l : list (Action Z)) : Cluster Z :=
  default (init 5) (exec_all (init 5) l).

Lemma election_safety_witness :
  leader_of (after wins) 0 1 ∧ (0%nat = 0%nat).
Proof.
  split; [by apply leader_ofb_spec; vm_compute|].
  apply (election_safety 5 (after wins) (after (wins ++ [ADeliver 7])) 0 0 1).
  - apply (forward_all_steps wins). by vm_compute.
  - apply (forward_all_steps [ADeliver 7]). by vm_compute.
  - by apply leader_ofb_spec; vm_compute.
  - by apply leader_ofb_spec; vm_compute.
Defined.

End Rollback.
