(* ===== verification/RaftNet.v ===== *)
(** * A cluster replicating its log

    [RaftElection]'s cluster with the rest of the traffic: the goroutines of [appendEntries] with
    their RPCs in flight, and the applier goroutines with the messages they send on [applyCh].
    [nexec] runs one action of a peer or of the network: calls are delayed, reordered or lost at
    will, each handler is executed at most once per call, and the goroutines of a peer die when it
    crashes.  The service does not compact the log: [Snapshot] and [CondInstallSnapshot] are not
    among the actions. *)
From S2P Require Import Prelude Raft RaftLog RaftNode RaftProc RaftElection.

Section net.
Context {Cmd : Type} `{Codec (hard_state Cmd)}.

(** One [sendAppendEntryAndUpdate]: the sender, whether its process still runs, the destination,
    the arguments, and the reply once the handler ran. *)
Record AppendCall := mkAC {
  ac_from : nat;
  ac_live : bool;
  ac_to : Z;
  ac_args : AppendEntriesArgs Cmd;
  ac_reply : option AppendEntriesReply;
}.

(** One [sendInstallSnapshotAndUpdate]. *)
Record InstallCall := mkIC {
  ic_from : nat;
  ic_live : bool;
  ic_to : Z;
  ic_args : InstallSnapshotArgs;
  ic_reply : option InstallSnapshotReply;
}.

(** [batches] holds the slice each applier is sending; [channel] are the messages the running
    process has put on [applyCh], [delivered] those of all its incarnations.  A batch counts as
    delivered when it is taken. *)
Record Net := mkNet {
  base : Cluster Cmd;
  appends : list (option AppendCall);
  installs : list (option InstallCall);
  batches : list (option (list (Entry Cmd) * Z));
  channel : list (list (ApplyMsg Cmd));
  delivered : list (list (ApplyMsg Cmd));
}.

Definition set_base (c : Cluster Cmd) (s : Net) : Net :=
  mkNet c (appends s) (installs s) (batches s) (channel s) (delivered s).
Definition set_peer (i : nat) (rf : Raft Cmd) (s : Net) : Net := set_base (set_node i rf (base s)) s.
Definition set_append (k : nat) (v : option AppendCall) (s : Net) : Net :=
  mkNet (base s) (<[k := v]> (appends s)) (installs s) (batches s) (channel s) (delivered s).
Definition set_install (k : nat) (v : option InstallCall) (s : Net) : Net :=
  mkNet (base s) (appends s) (<[k := v]> (installs s)) (batches s) (channel s) (delivered s).
Definition set_batch (i : nat) (b : option (list (Entry Cmd) * Z)) (s : Net) : Net :=
  mkNet (base s) (appends s) (installs s) (<[i := b]> (batches s)) (channel s) (delivered s).
Definition deliver (i : nat) (msgs : list (ApplyMsg Cmd)) (s : Net) : Net :=
  mkNet (base s) (appends s) (installs s) (batches s)
    (alter (λ old, old ++ msgs) i (channel s)) (alter (λ old, old ++ msgs) i (delivered s)).

(** The goroutines and messages a critical section of peer [i] leaves behind. *)
Definition new_appends (i : nat) (w : list (Effect Cmd)) : list (option AppendCall) :=
  omap (λ e, match e with
             | GoAppendEntries p args => Some (Some (mkAC i true p args None))
             | _ => None
             end) w.
Definition new_installs (i : nat) (w : list (Effect Cmd)) : list (option InstallCall) :=
  omap (λ e, match e with
             | GoInstallSnapshot p args => Some (Some (mkIC i true p args None))
             | _ => None
             end) w.
Definition new_msgs (w : list (Effect Cmd)) : list (ApplyMsg Cmd) :=
  omap (λ e, match e with SendApplyCh msg => Some msg | _ => None end) w.
Definition sends (i : nat) (w : list (Effect Cmd)) (s : Net) : Net :=
  mkNet (base s) (appends s ++ new_appends i w) (installs s ++ new_installs i w) (batches s)
    (channel s) (delivered s).

(** A crash takes the goroutines of the peer, the applier's batch and the channel with it; what was sent may
    still arrive. *)
Definition stop_append (i : nat) (ac : AppendCall) : AppendCall :=
  if decide (ac_from ac = i)
  then mkAC (ac_from ac) false (ac_to ac) (ac_args ac) (ac_reply ac) else ac.
Definition stop_install (i : nat) (ic : InstallCall) : InstallCall :=
  if decide (ic_from ic = i)
  then mkIC (ic_from ic) false (ic_to ic) (ic_args ic) (ic_reply ic) else ic.
Definition crash (i : nat) (s : Net) : Net :=
  mkNet (base s) (option_map (stop_append i) <$> appends s) (option_map (stop_install i) <$> installs s)
    (<[i := None]> (batches s)) (<[i := []]> (channel s)) (delivered s).

(** The owner of pending vote call [k] and what its goroutine leaves behind when the reply is
    handled: a new leader starts its first round of [AppendEntries]. *)
Definition vote_sends (c : Cluster Cmd) (k : nat) : option (nat * list (Effect Cmd)) :=
  vc ← mjoin (calls c !! k);
  er ← elections c !! vc_el vc;
  reply ← vc_reply vc;
  if er_live er then
    rf ← nodes c !! er_owner er;
    w ← run_effects (voteReply (er_el er) (Some reply)) rf;
    Some (er_owner er, w)
  else Some (er_owner er, []).

Inductive NetAction :=
| NTimeout (i : nat)
| NDeliverVote (k : nat)
| NVoteReply (k : nat)
| NLoseVote (k : nat)
| NStart (i : nat) (command : option Cmd)
| NHeartbeat (i : nat)
| NDeliverAppend (k : nat)
| NAppendReply (k : nat)
| NLoseAppend (k : nat)
| NDeliverInstall (k : nat)
| NInstallReply (k : nat)
| NLoseInstall (k : nat)
| NTake (i : nat)
| NDone (i : nat)
| NKill (i : nat)
| NRestart (i : nat).

(** A method of peer [i] that starts goroutines. *)
Definition run_peer {A} (i : nat) (m : M (Raft Cmd) (Effect Cmd) A) (s : Net) : option Net :=
  rf ← nodes (base s) !! i;
  '(_, rf', w) ← m rf;
  Some (sends i w (set_peer i rf' s)).

Definition nexec (s : Net) (a : NetAction) : option Net :=
  match a with
  | NTimeout i => c ← exec (base s) (ATimeout i); Some (set_base c s)
  | NDeliverVote k => c ← exec (base s) (ADeliver k); Some (set_base c s)
  | NVoteReply k =>
      '(i, w) ← vote_sends (base s) k;
      c ← exec (base s) (AReply k);
      Some (sends i w (set_base c s))
  | NLoseVote k => c ← exec (base s) (ALose k); Some (set_base c s)
  | NStart i command => run_peer i (Start command) s
  | NHeartbeat i => run_peer i tickerHeartbeat s
  | NDeliverAppend k =>
      ac ← mjoin (appends s !! k);
      match ac_reply ac with
      | Some _ => None
      | None =>
          let i := Z.to_nat (ac_to ac) in
          rf ← nodes (base s) !! i;
          '(reply, rf', _) ← AppendEntries (ac_args ac) rf;
          Some (set_append k (Some (mkAC (ac_from ac) (ac_live ac) (ac_to ac) (ac_args ac) (Some reply)))
                  (set_peer i rf' s))
      end
  | NAppendReply k =>
      ac ← mjoin (appends s !! k);
      match ac_reply ac with
      | None => None
      | Some reply =>
          if ac_live ac then
            rf ← nodes (base s) !! ac_from ac;
            '(_, rf', _) ← sendAppendEntryAndUpdate (ac_to ac) (ac_args ac) (Some reply) rf;
            Some (set_append k None (set_peer (ac_from ac) rf' s))
          else Some (set_append k None s)
      end
  | NLoseAppend k => _ ← mjoin (appends s !! k); Some (set_append k None s)
  | NDeliverInstall k =>
      ic ← mjoin (installs s !! k);
      match ic_reply ic with
      | Some _ => None
      | None =>
          let i := Z.to_nat (ic_to ic) in
          rf ← nodes (base s) !! i;
          '(reply, rf', w) ← InstallSnapshot (ic_args ic) rf;
          Some (set_install k (Some (mkIC (ic_from ic) (ic_live ic) (ic_to ic) (ic_args ic) (Some reply)))
                  (deliver i (new_msgs w) (set_peer i rf' s)))
      end
  | NInstallReply k =>
      ic ← mjoin (installs s !! k);
      match ic_reply ic with
      | None => None
      | Some reply =>
          if ic_live ic then
            rf ← nodes (base s) !! ic_from ic;
            '(_, rf', _) ← sendInstallSnapshotAndUpdate (ic_to ic) (ic_args ic) (Some reply) rf;
            Some (set_install k None (set_peer (ic_from ic) rf' s))
          else Some (set_install k None s)
      end
  | NLoseInstall k => _ ← mjoin (installs s !! k); Some (set_install k None s)
  | NTake i =>
      rf ← nodes (base s) !! i;
      match mjoin (batches s !! i) with
      | Some _ => None
      | None =>
          if applierReady rf then
            '((es, ci), _, _) ← applierTake rf;
            Some (deliver i (applierMsgs es) (set_batch i (Some (es, ci)) s))
          else None
      end
  | NDone i =>
      rf ← nodes (base s) !! i;
      '(_, ci) ← mjoin (batches s !! i);
      '(_, rf', _) ← applierDone ci rf;
      Some (set_batch i None (set_peer i rf' s))
  | NKill i => run_peer i Kill s
  | NRestart i => c ← exec (base s) (ARestart i); Some (crash i (set_base c s))
  end.

(** Whether an action can be taken at all: the peer exists, the call is waiting for what the action
    does, the applier is at that point. *)
Definition net_enabled (s : Net) (a : NetAction) : bool :=
  let peer i := bool_decide (i < length (nodes (base s)))%nat in
  match a with
  | NTimeout i | NStart i _ | NHeartbeat i | NKill i | NRestart i => peer i
  | NDeliverVote k =>
      match mjoin (calls (base s) !! k) with Some vc => bool_decide (vc_reply vc = None) | None => false end
  | NVoteReply k =>
      match mjoin (calls (base s) !! k) with Some vc => bool_decide (is_Some (vc_reply vc)) | None => false end
  | NLoseVote k => bool_decide (is_Some (mjoin (calls (base s) !! k)))
  | NDeliverAppend k =>
      match mjoin (appends s !! k) with Some ac => bool_decide (ac_reply ac = None) | None => false end
  | NAppendReply k =>
      match mjoin (appends s !! k) with Some ac => bool_decide (is_Some (ac_reply ac)) | None => false end
  | NLoseAppend k => bool_decide (is_Some (mjoin (appends s !! k)))
  | NDeliverInstall k =>
      match mjoin (installs s !! k) with Some ic => bool_decide (ic_reply ic = None) | None => false end
  | NInstallReply k =>
      match mjoin (installs s !! k) with Some ic => bool_decide (is_Some (ic_reply ic)) | None => false end
  | NLoseInstall k => bool_decide (is_Some (mjoin (installs s !! k)))
  | NTake i =>
      match nodes (base s) !! i, mjoin (batches s !! i) with
      | Some rf, None => applierReady rf
      | _, _ => false
      end
  | NDone i => peer i && bool_decide (is_Some (mjoin (batches s !! i)))
  end.

(** As in [RaftElection]: the reply goroutine of an election sees a later term. *)
Definition net_rolls_back (s : Net) (a : NetAction) : bool :=
  match a with NVoteReply k => rolls_back (base s) (AReply k) | _ => false end.

Definition net_step (s s' : Net) : Prop := ∃ a, net_rolls_back s a = false ∧ nexec s a = Some s'.

Definition net_init (n : nat) : Net :=
  mkNet (init n) [] [] (replicate n None) (replicate n []) (replicate n []).

Fixpoint net_run (s : Net) (l : list NetAction) : option Net :=
  match l with
  | [] => Some s
  | a :: l => if net_rolls_back s a then None else s' ← nexec s a; net_run s' l
  end.

Lemma net_run_steps l s s' : net_run s l = Some s' → rtc net_step s s'.
Proof.
  revert s. induction l as [|a l IH]; simpl; intros s Hex; [by simplify_eq|].
  destruct (net_rolls_back s a) eqn:Hr; [done|].
  destruct (nexec s a) as [s1|] eqn:Ha; simplify_eq/=. eapply rtc_l; [by exists a|]. auto.
Qed.
End net.

#[global] Arguments AppendCall : clear implicits.
#[global] Arguments InstallCall : clear implicits.
#[global] Arguments Net : clear implicits.
#[global] Arguments NetAction : clear implicits.
