(* ===== verification/RaftGhost.v ===== *)
(** * The history of a cluster: terms, leaders, acknowledgements

    A [Ghost] records, next to a run, who voted for whom, who led each term, the log each candidate
    started with, the longest log the leader of each term has had, and which prefixes of a leader's
    log a peer has stored while it was in that term.  From invariants of this history alone follows
    Leader Completeness: what a majority stored in a term is a prefix of the log of every later
    leader. *)
From S2P Require Import Prelude Raft RaftLog RaftNode RaftVote RaftElection.

(** ** Prefixes and the merge of a slice *)
Section prefixes.
Context {A : Type}.
Implicit Types l : list A.

Lemma prefix_take_eq l1 l2 m : l1 `prefix_of` l2 → (m ≤ length l1)%nat → take m l2 = take m l1.
Proof. intros [k ->] Hm. by rewrite take_app_le. Qed.

Lemma take_prefix l m : take m l `prefix_of` l.
Proof. exists (drop m l). by rewrite take_drop. Qed.

Lemma take_mono_prefix l m m' : (m ≤ m')%nat → take m l `prefix_of` take m' l.
Proof. intros Hm. rewrite <-(Nat.min_l m m') by lia. rewrite <-take_take. apply take_prefix. Qed.

Lemma prefix_length_le l1 l2 l : l1 `prefix_of` l → l2 `prefix_of` l →
  (length l1 ≤ length l2)%nat → l1 `prefix_of` l2.
Proof.
  intros H1 H2 Hlen. assert (l1 = take (length l1) l2) as ->; [|apply take_prefix].
  rewrite <-(prefix_take_eq l2 l), (prefix_take_eq l1 l) by done. by rewrite firstn_all.
Qed.

Lemma prefix_lookup_eq l1 l2 p x : l1 `prefix_of` l2 → l1 !! p = Some x → l2 !! p = Some x.
Proof. intros [k ->] Hp. by apply lookup_app_l_Some. Qed.

Lemma take_eq_lookup l1 l2 m p : take m l1 = take m l2 → (p < m)%nat → l1 !! p = l2 !! p.
Proof. intros Heq Hp. rewrite <-(lookup_take_lt l1 m), <-(lookup_take_lt l2 m) by lia. by rewrite Heq. Qed.

Lemma take_eq_le l1 l2 m m' : take m l1 = take m l2 → (m' ≤ m)%nat → take m' l1 = take m' l2.
Proof.
  intros Heq Hm. rewrite <-(Nat.min_l m' m) by lia. by rewrite <-!take_take, Heq.
Qed.
End prefixes.

Section merge_slice.
Context {Cmd : Type}.
Implicit Types l L es : list (Entry Cmd).

(** The logs agree before position [q] and not at it. *)
Definition diverge l L (q : nat) : Prop :=
  take q l = take q L ∧ (q < length L)%nat ∧
  ∀ x y, l !! q = Some x → L !! q = Some y → Term x ≠ Term y.

Lemma diverge_agree l L q m : diverge l L q → take m l = take m L → (m ≤ q)%nat.
Proof.
  intros (_ & Hq & Hd) Hm. destruct (decide (m ≤ q)%nat) as [|Hgt]; [done|].
  destruct (lookup_lt_is_Some_2 L q Hq) as [y Hy].
  pose proof (take_eq_lookup _ _ _ q Hm ltac:(lia)) as Heq. rewrite Hy in Heq. by destruct (Hd y y).
Qed.

(** Merging a slice of [L] into a log that matches [L]: either nothing was missing and the log
    stays, or the logs diverge within the slice and the result is exactly the prefix of [L]. *)
Lemma merge_slice L l k es :
  (k ≤ length l)%nat → take k l = take k L → es = take (length es) (drop k L) →
  (∀ p x y, l !! p = Some x → L !! p = Some y → Term x = Term y → take (S p) l = take (S p) L) →
  (merge l k es = l ∧ take (k + length es) L `prefix_of` l) ∨
  (merge l k es = take (k + length es) L ∧ ∃ q, (q < k + length es)%nat ∧ diverge l L q).
Proof.
  revert k. induction es as [|e es IH]; intros k Hk Htk Hes Hm; simpl.
  { left. split; [done|]. rewrite Nat.add_0_r, <-Htk. apply take_prefix. }
  destruct (drop k L) as [|e' d] eqn:Hd; [done|]. simpl in Hes. injection Hes as <- Hes.
  assert (L !! k = Some e) as He by (rewrite <-(Nat.add_0_r k), <-lookup_drop; by rewrite Hd).
  assert (drop (S k) L = d) as Hd' by (by rewrite <-Nat.add_1_r, <-drop_drop, Hd).
  assert (take k L ++ e :: es = take (k + S (length es)) L) as Happ.
  { rewrite <-take_take_drop, Hd. simpl. by rewrite <-Hes. }
  pose proof (lookup_lt_Some _ _ _ He) as HkL.
  destruct (l !! k) as [x|] eqn:Hx.
  - pose proof (lookup_lt_Some _ _ _ Hx). destruct (Term x =? Term e) eqn:Ht.
    + rewrite <-plus_n_Sm. apply (IH (S k)); [lia| |by rewrite Hd'|done]. apply (Hm k x e); done || lia.
    + right. rewrite Htk. split; [done|]. exists k. split; [lia|]. split_and!; [done|done|].
      intros ? ? ? ?. simplify_eq. lia.
  - right. split; [|exists k; split; [lia|]; split_and!; [done|done|congruence]].
    apply lookup_ge_None in Hx. assert (k = length l) as -> by lia.
    rewrite firstn_all in Htk. rewrite Htk at 1. done.
Qed.

Lemma last_term_lookup l : l ≠ [] → ∃ e, l !! pred (length l) = Some e ∧ last_term l = Term e.
Proof.
  intros Hne. destruct (lookup_lt_is_Some_2 l (pred (length l))) as [e He].
  { destruct l; [done|]. simpl. lia. }
  exists e. split; [done|]. unfold last_term. assert (index l (zlen l - 1) = Some e) as ->; [|done].
  apply index_Some. destruct l as [|x l]; [done|]. split; [simpl; lia|]. rewrite <-He. f_equal. simpl. lia.
Qed.
End merge_slice.

(** ** The history *)
Section ghost.
Context {Cmd : Type} (n : nat).
Abbreviation Log := (list (Entry Cmd)).

Record Ghost := mkGhost {
  gV : Z → Z → Z → Prop;       (* peer, term, candidate: votes *)
  gD : Z → option Z;           (* the leader of a term *)
  gC : Z → Z → Log;            (* term, candidate: the log at [StartElection] *)
  gL : Z → Log;                (* the longest log of the leader of a term; term 0 has the dummy *)
  gA : Z → Z → nat → Prop;     (* peer, term, length: stored prefixes of the leader's log *)
}.
Implicit Types (g : Ghost) (l : Log).

(** The log the leader of a term was elected with. *)
Definition gE g (t : Z) : Log := match gD g t with Some d => gC g t d | None => [] end.

(** Log Matching against the leaders' logs. *)
Definition lm g l : Prop := ∀ p e, l !! p = Some e → take (S p) l = take (S p) (gL g (Term e)).

(** A stored prefix is still in [l], or a leader up to term [t] was elected without it. *)
Definition kept g (T : Z) (m : nat) l (t : Z) : Prop :=
  take m (gL g T) `prefix_of` l ∨
  ∃ t', T < t' ≤ t ∧ is_Some (gD g t') ∧ ¬ take m (gL g T) `prefix_of` gE g t'.

(** The comparison of logs behind the election restriction. *)
Definition no_newer l l' : Prop :=
  last_term l < last_term l' ∨ last_term l = last_term l' ∧ (length l ≤ length l')%nat.

Definition vote_ok g (v t c : Z) : Prop :=
  ∃ l, l ≠ [] ∧ lm g l ∧ no_newer l (gC g t c) ∧
    ∀ T m, gA g v T m → T < t → kept g T m l (t - 1).

Record elected_ok g (t d : Z) : Prop := {
  eo_pos : 0 < t;
  eo_ne : gC g t d ≠ [];
  eo_prefix : gC g t d `prefix_of` gL g t;
  eo_old e : e ∈ gC g t d → 0 ≤ Term e < t;
  eo_new p e : (length (gC g t d) ≤ p)%nat → gL g t !! p = Some e → Term e = t;
  eo_lm : lm g (gL g t);
  eo_wf : log_wf (gL g t);
  eo_first : first_idx (gL g t) = 0;
  eo_quorum : ∃ Q : gset Z, Q ⊆ peer_set (Z.of_nat n) ∧ Z.of_nat (size Q) > Z.of_nat n / 2 ∧
    ∀ v, v ∈ Q → gV g v t d ∧ vote_ok g v t d;
  eo_stored : gA g d t (length (gL g t));
}.

Record GInv g : Prop := {
  gi_zero : gL g 0 = [mkEntry 0 0 None];
  gi_zero_none : gD g 0 = None;
  gi_none t : gD g t = None → t ≠ 0 → gL g t = [];
  gi_elected t d : gD g t = Some d → elected_ok g t d;
  gi_acc v T m : gA g v T m → is_Some (gD g T) ∧ (m ≤ length (gL g T))%nat;
  gi_down v T m m' : gA g v T m → (m' ≤ m)%nat → gA g v T m';
  gi_votes v t c : gV g v t c → vote_ok g v t c ∨ is_Some (gD g t);
}.

(** An entry of term [T] at position [i], with everything before it, is stored by a majority while
    in term [T]. *)
Definition committed g (T : Z) (i : nat) : Prop :=
  (∃ Q : gset Z, Q ⊆ peer_set (Z.of_nat n) ∧ Z.of_nat (size Q) > Z.of_nat n / 2 ∧
     ∀ v, v ∈ Q → gA g v T (i + 1)%nat) ∧
  ∃ e, gL g T !! i = Some e ∧ Term e = T.

(** A log whose entries up to [c] are committed, in a term up to [t]. *)
Definition com g (t : Z) l (c : Z) : Prop :=
  c = 0 ∨ ∃ T (i : nat), committed g T i ∧ T ≤ t ∧ 0 ≤ c ≤ Z.of_nat i ∧
    take (S (Z.to_nat c)) l = take (S (Z.to_nat c)) (gL g T).

(** ** Growth of the history *)
Record gext g g' : Prop := {
  gx_votes v t c : gV g v t c → gV g' v t c;
  gx_leader t d : gD g t = Some d → gD g' t = Some d ∧ gC g' t d = gC g t d;
  gx_log t : gL g t `prefix_of` gL g' t;
  gx_acc v T m : gA g v T m → gA g' v T m;
}.

#[export] Instance gext_refl : Reflexive gext.
Proof. intros g. split; auto. Qed.
#[export] Instance gext_trans : Transitive gext.
Proof.
  intros g1 g2 g3 [V1 D1 L1 A1] [V2 D2 L2 A2]. split; [by eauto| | |by eauto].
  - intros t d [HD HC]%D1. apply D2 in HD as [? ?]. split; congruence.
  - intros t. etrans; [apply L1|apply L2].
Qed.

Lemma lm_ext g g' l : gext g g' → lm g l → lm g' l.
Proof.
  intros Hx Hl p e He. rewrite (Hl p e He). symmetry. apply prefix_take_eq; [by apply gx_log|].
  pose proof (f_equal length (Hl p e He)) as Hlen. rewrite !length_take in Hlen.
  pose proof (lookup_lt_Some _ _ _ He). lia.
Qed.

Lemma gE_ext g g' t : gext g g' → is_Some (gD g t) → is_Some (gD g' t) ∧ gE g' t = gE g t.
Proof.
  intros Hx [d Hd]. destruct (gx_leader _ _ Hx t d Hd) as [Hd' HC]. unfold gE. rewrite Hd, Hd'. by eauto.
Qed.

Lemma acc_take_ext g g' v T m : GInv g → gext g g' → gA g v T m → take m (gL g' T) = take m (gL g T).
Proof.
  intros HG Hx Ha. apply prefix_take_eq; [by apply gx_log|]. by apply (gi_acc _ HG v).
Qed.

Lemma kept_ext g g' v T m l t t' :
  GInv g → gext g g' → gA g v T m → t ≤ t' → kept g T m l t → kept g' T m l t'.
Proof.
  intros HG Hx Ha Ht [Hp|(t'' & Hr & HD & Hn)]; unfold kept; rewrite (acc_take_ext g g' v) by done.
  - by left.
  - right. exists t''. destruct (gE_ext g g' t'' Hx HD) as [? ->]. split_and!; done || lia.
Qed.

Lemma committed_ext g g' T i : gext g g' → committed g T i → committed g' T i.
Proof.
  intros Hx [(Q & HQ & Hs & Hacc) (e & He & HT)]. split.
  - exists Q. split_and!; [done..|]. intros v Hv.
    apply (gx_acc _ _ Hx). auto.
  - exists e. split; [|done]. eapply prefix_lookup_eq; [by apply gx_log|done].
Qed.

Lemma com_ext g g' t t' l c : gext g g' → t ≤ t' → com g t l c → com g' t' l c.
Proof.
  intros Hx Ht [->|(T & i & Hcom & HT & Hc & Heq)]; [by left|]. right. exists T, i.
  split_and!; [by eapply committed_ext|lia..|]. rewrite Heq. symmetry.
  apply prefix_take_eq; [by apply gx_log|]. destruct Hcom as [_ (e & He%lookup_lt_Some & _)]. lia.
Qed.

Lemma com_lower g t l c c' : 0 ≤ c' ≤ c → com g t l c → com g t l c'.
Proof.
  intros Hc [->|(T & i & Hcom & HT & Hci & Heq)]; [left; lia|]. right. exists T, i.
  split_and!; [done|lia..|]. eapply take_eq_le; [done|lia].
Qed.

Lemma com_prefix g t l l' c :
  take (S (Z.to_nat c)) l = take (S (Z.to_nat c)) l' → com g t l c → com g t l' c.
Proof.
  intros Heq [->|(T & i & Hcom & HT & Hci & Heq')]; [by left|]. right. exists T, i.
  split_and!; [done|lia..|]. by rewrite <-Heq.
Qed.

Lemma elected_quorum g t d : elected_ok g t d → quorum n (gV g) t d.
Proof.
  intros Hel. destruct (eo_quorum _ _ _ Hel) as (Q & HQ & Hs & Hv). exists Q.
  split_and!; [done..|]. intros v Hin. by apply Hv.
Qed.

(** What was stored while in an earlier term than a vote is not added to later. *)
Lemma vote_ok_ext g g' v t c :
  GInv g → gext g g' → gC g' t c = gC g t c → (∀ T m, gA g' v T m → T < t → gA g v T m) →
  vote_ok g v t c → vote_ok g' v t c.
Proof.
  intros HG Hx HC Ha (l & Hne & Hl & Hn & Hk). exists l. rewrite HC.
  split_and!; [done|by eapply lm_ext|done|]. intros T m Hacc Ht. specialize (Ha T m Hacc Ht).
  eapply (kept_ext g g' v T m l (t - 1)); auto. lia.
Qed.

(** The peers that voted take nothing on in an earlier term. *)
Definition votes_kept g g' : Prop :=
  ∀ v t c, gV g v t c → gC g' t c = gC g t c ∧ ∀ T m, gA g' v T m → T < t → gA g v T m.

Lemma elected_ok_ext g g' t d :
  GInv g → gext g g' → votes_kept g g' → gD g t = Some d → gL g' t = gL g t →
  elected_ok g t d → elected_ok g' t d.
Proof.
  intros HG Hx Hvk HD HL []. destruct (gx_leader _ _ Hx _ _ HD) as [_ HC].
  split; rewrite ?HC, ?HL; auto; [by eapply lm_ext| |by apply (gx_acc _ _ Hx)].
  destruct eo_quorum0 as (Q & HQ & Hs & Hv). exists Q. split_and!; [done..|]. intros v Hin.
  destruct (Hv v Hin) as [HV Hok]. split; [by apply (gx_votes _ _ Hx)|].
  destruct (Hvk _ _ _ HV). by eapply vote_ok_ext.
Qed.

(** The invariant of the history under growth. *)
Lemma GInv_grow g g' :
  GInv g → gext g g' → votes_kept g g' →
  (∀ t, gD g' t = None → gL g' t = gL g t) → gD g' 0 = None →
  (∀ t d, gD g' t = Some d → gD g t = Some d ∧ gL g' t = gL g t ∨ elected_ok g' t d) →
  (∀ v T m, gA g' v T m → gA g v T m ∨ is_Some (gD g' T) ∧ (m ≤ length (gL g' T))%nat) →
  (∀ v T m m', gA g' v T m → (m' ≤ m)%nat → gA g' v T m') →
  (∀ v t c, gV g' v t c → gV g v t c ∨ vote_ok g' v t c ∨ is_Some (gD g' t)) →
  GInv g'.
Proof.
  intros HG Hx Hvk HLn HD0 HE HA Hdown HV. pose proof HG as [Hz _ Hnone Hel Hacc _ Hvotes]. split; auto.
  - by rewrite HLn.
  - intros t HD Hne. rewrite HLn by done. apply Hnone; [|done].
    destruct (gD g t) as [d|] eqn:Hd; [|done]. apply (gx_leader _ _ Hx) in Hd as [? _]. congruence.
  - intros t d HD. destruct (HE t d HD) as [[HD' HL]|?]; [|done]. eapply elected_ok_ext; eauto.
  - intros v T m Ha. destruct (HA v T m Ha) as [Ha'|?]; [|done].
    destruct (Hacc _ _ _ Ha') as [[d HD] Hm]. destruct (gx_leader _ _ Hx _ _ HD) as [HD' _].
    split; [by eexists|]. pose proof (prefix_length _ _ (gx_log _ _ Hx T)). lia.
  - intros v t c HV'. destruct (HV v t c HV') as [HV0|?]; [|done].
    destruct (Hvotes _ _ _ HV0) as [Hok|[d HD]].
    + left. destruct (Hvk _ _ _ HV0). eapply vote_ok_ext; eauto.
    + right. apply (gx_leader _ _ Hx) in HD as [? _]. by eexists.
Qed.

(** ** Consequences of the invariant *)
Lemma lm_take g l m : lm g l → lm g (take m l).
Proof.
  intros Hl p e [He Hp]%lookup_take_Some. rewrite take_take, Nat.min_l by lia. by apply Hl.
Qed.

Lemma lm_match g l l' p x y :
  lm g l → lm g l' → l !! p = Some x → l' !! p = Some y → Term x = Term y → take (S p) l = take (S p) l'.
Proof. intros Hl Hl' Hx Hy Ht. by rewrite (Hl _ _ Hx), (Hl' _ _ Hy), Ht. Qed.

Lemma lm_last g l : lm g l → l ≠ [] → l `prefix_of` gL g (last_term l).
Proof.
  intros Hl Hne. destruct (last_term_lookup l Hne) as (e & He & ->).
  specialize (Hl _ _ He). assert (S (pred (length l)) = length l) as Heq by (destruct l; done).
  rewrite Heq, firstn_all in Hl. rewrite Hl at 1. apply take_prefix.
Qed.

Section inv.
Context (g : Ghost) (HG : GInv g).

Lemma gE_prefix t : gE g t `prefix_of` gL g t.
Proof.
  unfold gE. destruct (gD g t) as [d|] eqn:Hd; [|apply prefix_nil].
  by apply eo_prefix, gi_elected.
Qed.

(** Terms in a leader's log. *)
Lemma gL_terms t p e : gL g t !! p = Some e → 0 ≤ Term e ≤ t ∧ (Term e = t → t ≠ 0 → (length (gE g t) ≤ p)%nat).
Proof.
  intros He. unfold gE. destruct (gD g t) as [d|] eqn:Hd.
  - destruct (gi_elected _ HG _ _ Hd) as [Hpos _ Hpre Hold Hnew _ _ _ _ _].
    destruct (decide (p < length (gC g t d))%nat) as [Hlt|Hge].
    + destruct (lookup_lt_is_Some_2 _ _ Hlt) as [x Hx].
      pose proof (prefix_lookup_eq _ _ _ _ Hpre Hx) as Hx'. rewrite He in Hx'. injection Hx' as <-.
      apply list_elem_of_lookup_2, Hold in Hx. lia.
    + rewrite (Hnew p e); [|lia|done]. split; [lia|]. intros _ _. lia.
  - destruct (decide (t = 0)) as [->|Hne].
    + rewrite (gi_zero _ HG) in He. destruct p as [|p]; simplify_eq/=. split; [lia|]. lia.
    + rewrite (gi_none _ HG) in He by done. by rewrite lookup_nil in He.
Qed.

Lemma gE_terms t p e : gE g t !! p = Some e → Term e < t.
Proof.
  unfold gE. destruct (gD g t) as [d|] eqn:Hd; [|by rewrite lookup_nil].
  intros He%list_elem_of_lookup_2. apply (eo_old _ _ _ (gi_elected _ HG _ _ Hd)) in He. lia.
Qed.

Lemma gE_ne t : is_Some (gD g t) → gE g t ≠ [].
Proof. intros [d Hd]. unfold gE. rewrite Hd. by apply (eo_ne _ _ _ (gi_elected _ HG _ _ Hd)). Qed.

Lemma gE_lm t : lm g (gE g t).
Proof.
  unfold gE. destruct (gD g t) as [d|] eqn:Hd; [|intros p e He; by rewrite lookup_nil in He].
  destruct (gi_elected _ HG _ _ Hd) as [_ _ [k Hk] _ _ Hlm _ _ _ _].
  assert (gC g t d = take (length (gC g t d)) (gL g t)) as ->; [|by apply lm_take].
  by rewrite Hk, take_app_length.
Qed.

(** The last entry of the log of an elected leader points at the leader of an earlier term, whose
    own initial log it extends. *)
Lemma gE_last t : is_Some (gD g t) → 0 < last_term (gE g t) →
  last_term (gE g t) < t ∧ is_Some (gD g (last_term (gE g t))) ∧
  gE g (last_term (gE g t)) `prefix_of` gE g t.
Proof.
  intros HD Hpos. pose proof (gE_ne t HD) as Hne.
  destruct (last_term_lookup _ Hne) as (e & He & Hlt). pose proof (lm_last _ _ (gE_lm t) Hne) as Hpre.
  split; [rewrite Hlt; by eapply gE_terms|].
  set (τ := last_term (gE g t)) in *.
  pose proof (prefix_lookup_eq _ _ _ _ Hpre He) as He'.
  split.
  { destruct (gD g τ) as [d|] eqn:Hd; [by eauto|]. rewrite (gi_none _ HG) in He' by (done || lia).
    by rewrite lookup_nil in He'. }
  destruct (gL_terms _ _ _ He') as [_ Hlen]. specialize (Hlen ltac:(done) ltac:(lia)).
  eapply prefix_length_le; [apply gE_prefix|exact Hpre|]. destruct (gE g t); [done|]. simpl in *. lia.
Qed.

(** A log that holds a committed prefix in its term or later. *)
Lemma committed_last_term l T i :
  committed g T i → lm g l → take (S i) (gL g T) `prefix_of` l → T ≤ last_term l.
Proof.
  intros [_ (e & He & HT)] Hl Hp.
  assert (l !! i = Some e) as Hli.
  { eapply prefix_lookup_eq; [exact Hp|]. rewrite lookup_take_lt by lia. done. }
  assert (l ≠ []) as Hne by (intros ->; by rewrite lookup_nil in Hli).
  pose proof (prefix_lookup_eq _ _ _ _ (lm_last _ _ Hl Hne) Hli) as He'.
  apply gL_terms in He' as [? _]. lia.
Qed.

Lemma committed_pos T i : committed g T i → 0 < T ∧ is_Some (gD g T).
Proof.
  intros [(Q & HQ & Hs & Hacc) _]. destruct (set_choose_or_empty Q) as [[v Hv]|He].
  - destruct (gi_acc _ HG _ _ _ (Hacc v Hv)) as [[d Hd] _].
    split; [|by eauto]. by apply (eo_pos _ _ _ (gi_elected _ HG _ _ Hd)).
  - exfalso. apply leibniz_equiv in He. rewrite He, size_empty in Hs.
    pose proof (Z.div_pos (Z.of_nat n) 2). lia.
Qed.

(** Leader Completeness. *)
Lemma leader_complete T i t :
  committed g T i → T < t → is_Some (gD g t) → take (S i) (gL g T) `prefix_of` gE g t.
Proof.
  intros Hcom. pose proof (committed_pos T i Hcom) as [HT _].
  induction t as [t IH] using (well_founded_induction (Z.lt_wf 0)). intros Hlt HD.
  destruct HD as [d Hd]. assert (gE g t = gC g t d) as HE by (unfold gE; by rewrite Hd).
  pose proof (gi_elected _ HG _ _ Hd) as Hel.
  destruct (eo_quorum _ _ _ Hel) as (S1 & HS1 & Hs1 & Hv1). pose proof Hcom as [(S2 & HS2 & Hs2 & Hv2) _].
  destruct (quorum_intersect (Z.of_nat n) (peer_set (Z.of_nat n)) S1 S2) as (v & Hin1 & Hin2); auto.
  { by rewrite size_peer_set by lia. }
  destruct (Hv1 v Hin1) as [_ (l & Hne & Hlm & Hnew & Hkept)].
  specialize (Hv2 v Hin2). rewrite Nat.add_1_r in Hv2. set (P := take (S i) (gL g T)) in *.
  assert (P `prefix_of` l) as HPl.
  { destruct (Hkept T _ Hv2 Hlt) as [Hp|(t' & Ht' & HD' & [])]; [done|]. apply IH; done || lia. }
  pose proof (committed_last_term l T i Hcom Hlm HPl) as HTl.
  pose proof (gE_ne t ltac:(by eexists)) as HEne. rewrite <-HE in Hnew.
  destruct Hnew as [Hgt|[Heq Hlen]].
  - destruct (gE_last t) as (Hlast & HD' & Hpre); [by eexists|lia|].
    etrans; [|exact Hpre]. apply IH; done || lia.
  - etrans; [exact HPl|]. eapply prefix_length_le; [by apply lm_last| |done].
    rewrite Heq. apply lm_last; [apply gE_lm|done].
Qed.

(** Committed prefixes of different terms agree. *)
Lemma committed_prefix T i t :
  committed g T i → T ≤ t → is_Some (gD g t) → take (S i) (gL g T) `prefix_of` gL g t.
Proof.
  intros Hcom Ht HD. destruct (decide (T = t)) as [->|]; [apply take_prefix|].
  etrans; [apply (leader_complete T i t); done || lia|apply gE_prefix].
Qed.

Lemma committed_agree T1 i1 T2 i2 p :
  committed g T1 i1 → committed g T2 i2 → (p ≤ i1)%nat → (p ≤ i2)%nat →
  gL g T1 !! p = gL g T2 !! p.
Proof.
  intros H1 H2 Hp1 Hp2.
  assert (∀ T i T' i', committed g T i → committed g T' i' → (p ≤ i)%nat → T ≤ T' →
    gL g T !! p = gL g T' !! p) as Hgen.
  { intros T i T' i' Hc Hc' Hp HT. destruct (committed_pos _ _ Hc') as [_ HD].
    pose proof (committed_prefix _ _ _ Hc HT HD) as Hpre. destruct Hc as [_ (e & He & _)].
    destruct (lookup_lt_is_Some_2 (gL g T) p) as [x Hx]; [apply lookup_lt_Some in He; lia|].
    rewrite Hx. symmetry. eapply prefix_lookup_eq; [exact Hpre|]. rewrite lookup_take_lt by lia. done. }
  destruct (decide (T1 ≤ T2)); [by eapply Hgen|]. symmetry. eapply Hgen; done || lia.
Qed.

(** A committed part of a log is part of the log of a leader of its term. *)
Lemma com_leader t l c : com g t l c → 0 ≤ c → is_Some (gD g t) → 0 < c →
  take (S (Z.to_nat c)) l = take (S (Z.to_nat c)) (gL g t).
Proof.
  intros [->|(T & i & Hcom & HT & Hc & Heq)] _ HD Hpos; [lia|]. rewrite Heq. symmetry.
  pose proof (committed_prefix _ _ _ Hcom HT HD) as Hpre.
  pose proof Hcom as [_ (e & He%lookup_lt_Some & _)].
  rewrite (prefix_take_eq _ _ _ Hpre) by (rewrite length_take; lia).
  rewrite take_take. f_equal. lia.
Qed.
End inv.
End ghost.

#[global] Arguments Ghost : clear implicits.
