(* ===== verification/RaftNetInv.v ===== *)
(** * The invariant of a replicating cluster

    What each peer, election and call in flight has to do with the history ([Ghost]) of the run,
    and how the parts of a step keep it. *)
From S2P Require Import Prelude Raft RaftLog RaftNode RaftVote RaftReplicate RaftLeader RaftSnapshot.
From S2P Require Import RaftProc RaftTerm RaftElection RaftNet RaftGhost.

Section inv.
#[local] Coercion Z.of_nat : nat >-> Z.
Context {Cmd : Type} `{CodecLaws (hard_state Cmd)} (n : nat).
Implicit Types (rf : Raft Cmd) (g : Ghost Cmd) (s : Net Cmd) (c : Cluster Cmd).

Record node_hist g (i : nat) rf : Prop := {
  nh_ok : node_ok rf;
  nh_first : first_idx (logs rf) = 0;
  nh_applied : 0 ≤ LastApplied rf;
  nh_term : 0 ≤ currentTerm rf;
  nh_terms e : e ∈ logs rf → 0 ≤ Term e ≤ currentTerm rf;
  nh_lm : lm g (logs rf);
  nh_leader : role rf = LEADER →
    gD g (currentTerm rf) = Some (i : Z) ∧ logs rf = gL g (currentTerm rf) ∧
    ∀ v m, index (matchIndex rf) v = Some m → 0 < m → gA g v (currentTerm rf) (Z.to_nat m + 1);
  nh_candidate : role rf = CANDIDATE →
    0 < currentTerm rf ∧ (∀ e, e ∈ logs rf → Term e < currentTerm rf) ∧
    gC g (currentTerm rf) i = logs rf ∧ gD g (currentTerm rf) ≠ Some (i : Z);
  nh_kept T m : gA g i T m → T ≤ currentTerm rf ∧ kept g T m (logs rf) (currentTerm rf);
  nh_led t : gD g t = Some (i : Z) → t ≤ currentTerm rf;
  nh_cand v t : gV g v t i → t ≤ currentTerm rf;
  nh_com : com n g (currentTerm rf) (logs rf) (commitIndex rf);
}.

(** A request for votes describes the log its candidate started with. *)
Record election_hist g c (er : ElectionRec) : Prop := {
  eh_first : first_idx (gC g (rv_Term (el_args (er_el er))) (er_owner er)) = 0;
  eh_index : rv_LastLogIndex (el_args (er_el er)) =
    last_idx (gC g (rv_Term (el_args (er_el er))) (er_owner er));
  eh_term : rv_LastLogTerm (el_args (er_el er)) =
    last_term (gC g (rv_Term (el_args (er_el er))) (er_owner er));
  eh_owner : (er_owner er < n)%nat;
  eh_past rf : nodes c !! er_owner er = Some rf → rv_Term (el_args (er_el er)) ≤ currentTerm rf;
}.

(** The end, as a length, of the leader's log that a request carries. *)
Definition upto (args : AppendEntriesArgs Cmd) : nat :=
  (Z.to_nat (ae_PrevLogIndex args) + 1 + length (ae_Entries args))%nat.

(** A request carries a slice of the log of the leader of its term, and its commit index is
    committed; a positive reply says that the slice was stored. *)
Record append_hist g (ac : AppendCall Cmd) : Prop := {
  ah_to : 0 ≤ ac_to ac < n;
  ah_from : (ac_from ac < n)%nat;
  ah_other : ac_to ac ≠ ac_from ac;
  ah_leader : gD g (ae_Term (ac_args ac)) = Some (ac_from ac : Z);
  ah_pos : 0 ≤ ae_PrevLogIndex (ac_args ac);
  ah_prev : ∃ x, gL g (ae_Term (ac_args ac)) !! Z.to_nat (ae_PrevLogIndex (ac_args ac)) = Some x ∧
    Term x = ae_PrevLogTerm (ac_args ac);
  ah_slice : ae_Entries (ac_args ac) = take (length (ae_Entries (ac_args ac)))
    (drop (Z.to_nat (ae_PrevLogIndex (ac_args ac)) + 1) (gL g (ae_Term (ac_args ac))));
  ah_contiguous : contiguous (ae_PrevLogIndex (ac_args ac) + 1) (ae_Entries (ac_args ac));
  ah_commit : ae_LeaderCommit (ac_args ac) < upto (ac_args ac);
  ah_com : com n g (ae_Term (ac_args ac)) (gL g (ae_Term (ac_args ac))) (ae_LeaderCommit (ac_args ac));
  ah_reply r : ac_reply ac = Some r →
    (aer_Success r = true → gA g (ac_to ac) (ae_Term (ac_args ac)) (upto (ac_args ac))) ∧
    (aer_XTerm r = -1 → aer_XLen r ≤ ae_PrevLogIndex (ac_args ac)) ∧
    aer_XIndex r ≤ ae_PrevLogIndex (ac_args ac);
}.

Record install_hist (ic : InstallCall) : Prop := {
  ih_to : 0 ≤ ic_to ic < n;
  ih_from : (ic_from ic < n)%nat;
  ih_zero : is_LastIncludedIndex (ic_args ic) = 0;
}.

(** A message on [applyCh] carries a committed entry. *)
Definition msg_hist g (msg : ApplyMsg Cmd) : Prop :=
  ∃ T (i : nat) e, committed n g T i ∧ 0 ≤ CommandIndex msg ≤ i ∧
    gL g T !! Z.to_nat (CommandIndex msg) = Some e ∧
    msg = mkApplyMsg true (Command e) (CommandIndex msg) (Term e) false [] 0 0.

Record NInv g s : Prop := {
  nv_base : Inv n (gV g) (base s);
  nv_ghost : GInv n g;
  nv_nodes i rf : nodes (base s) !! i = Some rf → node_hist g i rf;
  nv_elections j er : elections (base s) !! j = Some er → election_hist g (base s) er;
  nv_appends k ac : appends s !! k = Some (Some ac) → append_hist g ac;
  nv_installs k ic : installs s !! k = Some (Some ic) → install_hist ic;
  nv_delivered i msgs msg : delivered s !! i = Some msgs → msg ∈ msgs → msg_hist g msg;
}.

(** ** Growth of the history by peer [i] *)
Record gother (i : nat) g g' : Prop := {
  go_ext : gext g g';
  go_acc v T m : gA g' v T m → v ≠ i → gA g v T m;
  go_led t d : gD g' t = Some d → d ≠ i → gD g t = Some d;
  go_cand t (d : Z) : d ≠ i → gC g' t d = gC g t d;
  go_log t d : gD g t = Some d → d ≠ i → gL g' t = gL g t;
}.

#[export] Instance gother_refl i : Reflexive (gother i).
Proof. intros g. by split. Qed.

Lemma node_hist_other g g' (i j : nat) rf :
  GInv n g → gother i g g' → j ≠ i → (∀ v t, gV g' v t j → t ≤ currentTerm rf) →
  node_hist g j rf → node_hist g' j rf.
Proof.
  intros HG Ho Hij Hv []. pose proof (go_ext _ _ _ Ho) as Hx. assert ((j : Z) ≠ (i : Z)) as Hij' by lia.
  split; auto.
  - by eapply lm_ext.
  - intros Hr. destruct (nh_leader0 Hr) as (HD & HL & Hm).
    split_and!; [by apply (gx_leader _ _ Hx)| |].
    + by rewrite (go_log _ _ _ Ho _ _ HD).
    + intros v m Hi Hpos. apply (gx_acc _ _ Hx). auto.
  - intros Hr. destruct (nh_candidate0 Hr) as (? & ? & HC & HD). rewrite (go_cand _ _ _ Ho) by done.
    split_and!; [done..|]. intros HD'. apply HD. by eapply go_led.
  - intros T m Ha. pose proof (go_acc _ _ _ Ho _ _ _ Ha Hij') as Ha'.
    destruct (nh_kept0 T m Ha') as [? Hk]. split; [done|]. eapply (kept_ext n g g' j T m _ (currentTerm rf)); done || lia.
  - intros t HD. apply nh_led0. by eapply go_led.
  - eapply com_ext; [done| |done]. lia.
Qed.

Lemma election_hist_ext (i : nat) g g' c c' rf rf' er :
  gother i g g' → nodes c !! i = Some rf → nodes c' = <[i := rf']> (nodes c) →
  currentTerm rf ≤ currentTerm rf' → (∀ t, gC g' t i = gC g t i ∨ currentTerm rf < t) →
  election_hist g c er → election_hist g' c' er.
Proof.
  intros Ho Hi Hc' Ht HC [Hf Hidx Htm Hown Hp].
  assert (gC g' (rv_Term (el_args (er_el er))) (er_owner er) =
    gC g (rv_Term (el_args (er_el er))) (er_owner er)) as HCe.
  { destruct (decide (er_owner er = i)) as [Heq|Hne]; [|apply (go_cand _ _ _ Ho); lia].
    rewrite Heq in *. destruct (HC (rv_Term (el_args (er_el er)))) as [?|Hlt]; [done|].
    specialize (Hp _ Hi). lia. }
  split; rewrite ?HCe; auto. intros rfo. rewrite Hc', list_lookup_insert_Some.
  intros [(Heq & <- & _)|(_ & Hrf)]; [|by apply Hp]. rewrite <-Heq in Hp. specialize (Hp _ Hi). lia.
Qed.

Lemma election_hist_args g c er er' :
  er_owner er' = er_owner er → el_args (er_el er') = el_args (er_el er) →
  election_hist g c er → election_hist g c er'.
Proof. intros Ho Ha []. by split; rewrite ?Ho, ?Ha. Qed.

Lemma append_hist_ext g g' ac : gext g g' → append_hist g ac → append_hist g' ac.
Proof.
  intros Hx []. assert (upto (ac_args ac) ≤ length (gL g (ae_Term (ac_args ac))))%nat as Hlen.
  { destruct ah_prev0 as (x & Hxp%lookup_lt_Some & _). unfold upto.
    apply (f_equal length) in ah_slice0. rewrite length_take, length_drop in ah_slice0. lia. }
  pose proof (gx_log _ _ Hx (ae_Term (ac_args ac))) as Hpre.
  assert (com n g' (ae_Term (ac_args ac)) (gL g (ae_Term (ac_args ac))) (ae_LeaderCommit (ac_args ac)))
    as Hc by (eapply com_ext; [done| |done]; lia).
  split; auto.
  - by apply (gx_leader _ _ Hx).
  - destruct ah_prev0 as (x & Hxp & ?). exists x. split; [by eapply prefix_lookup_eq|done].
  - rewrite ah_slice0 at 1. destruct Hpre as [k ->]. unfold upto in Hlen.
    rewrite drop_app_le by lia. rewrite take_app_le by (rewrite length_drop; lia). done.
  - destruct (decide (ae_LeaderCommit (ac_args ac) ≤ 0)) as [Hle|Hgt].
    + destruct Hc as [?|(T & i & _ & _ & ? & _)]; [by left|]. left. lia.
    + eapply com_prefix; [|exact Hc]. symmetry. apply prefix_take_eq; [done|]. lia.
  - intros r Hr. destruct (ah_reply0 r Hr) as (Hs & ? & ?). split_and!; auto.
    intros ?. apply (gx_acc _ _ Hx). auto.
Qed.

Lemma msg_hist_ext g g' msg : gext g g' → msg_hist g msg → msg_hist g' msg.
Proof.
  intros Hx (T & i & e & Hc & Hi & He & Hm). exists T, i, e.
  split_and!; [by eapply committed_ext|lia..| |done].
  eapply prefix_lookup_eq; [by apply gx_log|done].
Qed.

(** ** Parts of a step *)

(** A step of peer [i], with the growth of the history it causes. *)
Lemma NInv_base g g' s c' (i : nat) rf rf' :
  NInv g s → Inv n (gV g') c' → GInv n g' → gother i g g' →
  nodes (base s) !! i = Some rf → nodes c' = <[i := rf']> (nodes (base s)) →
  node_hist g' i rf' → currentTerm rf ≤ currentTerm rf' →
  (∀ v t (j : nat) rfj, j ≠ i → nodes (base s) !! j = Some rfj → gV g' v t j → t ≤ currentTerm rfj) →
  (∀ t, gC g' t i = gC g t i ∨ currentTerm rf < t) →
  (∀ j er, elections c' !! j = Some er → election_hist g' c' er ∨
     ∃ er0, elections (base s) !! j = Some er0 ∧ er_owner er = er_owner er0 ∧
       el_args (er_el er) = el_args (er_el er0)) →
  NInv g' (set_base c' s).
Proof.
  intros [Hb HG Hn He Ha Hin Hd] Hb' HG' Ho Hi Hc' Hi' Ht Hcand HC Hel.
  pose proof (go_ext _ _ _ Ho) as Hx. split; simpl; auto.
  - intros j rfj. rewrite Hc', list_lookup_insert_Some. intros [(<- & <- & _)|(Hne & Hj)]; [done|].
    eapply (node_hist_other g g' i j); eauto.
  - intros j er Hj. destruct (Hel j er Hj) as [?|(er0 & Hj0 & Heo & Hea)]; [done|].
    eapply election_hist_args; [done..|]. eapply election_hist_ext; eauto.
  - intros k ac Hk. eapply append_hist_ext; eauto.
  - intros j msgs msg Hj Hm. eapply msg_hist_ext; eauto.
Qed.

(** A step of peer [i] that leaves the log alone and takes nothing on. *)
Record quiet rf rf' : Prop := {
  q_ok : node_ok rf';
  q_logs : logs rf' = logs rf;
  q_commit : 0 ≤ commitIndex rf' ≤ commitIndex rf;
  q_applied : 0 ≤ LastApplied rf';
  q_term : currentTerm rf ≤ currentTerm rf';
  q_leader : role rf' = LEADER → role rf = LEADER ∧ currentTerm rf' = currentTerm rf ∧
    ∀ v m, index (matchIndex rf') v = Some m → 0 < m → index (matchIndex rf) v = Some m;
  q_candidate : role rf' = CANDIDATE → role rf = CANDIDATE ∧ currentTerm rf' = currentTerm rf;
}.

Lemma node_hist_quiet g (i : nat) rf rf' :
  GInv n g → quiet rf rf' → node_hist g i rf → node_hist g i rf'.
Proof.
  intros HG [Hok Hl Hc Hap Ht Hld Hcd] []. split; rewrite ?Hl; auto; try lia.
  - intros e He. specialize (nh_terms0 e He). lia.
  - intros Hr. destruct (Hld Hr) as (Hr0 & -> & Hm). destruct (nh_leader0 Hr0) as (? & ? & Hm0).
    split_and!; [done..|]. intros v m Hv Hpos. eauto.
  - intros Hr. destruct (Hcd Hr) as [Hr0 ->]. auto.
  - intros T m Ha. destruct (nh_kept0 T m Ha) as [? Hk]. split; [lia|].
    eapply (kept_ext n g g i T m _ (currentTerm rf)); done || lia.
  - intros t HD. specialize (nh_led0 t HD). lia.
  - intros v t HV. specialize (nh_cand0 v t HV). lia.
  - eapply com_ext; [done|exact Ht|]. eapply com_lower; [|done]. lia.
Qed.

Lemma NInv_quiet g s c' (i : nat) rf rf' :
  NInv g s → Inv n (gV g) c' → nodes (base s) !! i = Some rf →
  nodes c' = <[i := rf']> (nodes (base s)) → quiet rf rf' →
  (∀ j er, elections c' !! j = Some er → ∃ er0, elections (base s) !! j = Some er0 ∧
     er_owner er = er_owner er0 ∧ el_args (er_el er) = el_args (er_el er0)) →
  NInv g (set_base c' s).
Proof.
  intros HI Hb' Hi Hc' Hq Hel. pose proof (nv_nodes _ _ HI _ _ Hi) as Hnh.
  eapply (NInv_base g g s c' i rf rf'); eauto.
  - by eapply nv_ghost.
  - done.
  - eapply node_hist_quiet; [by eapply nv_ghost|done|done].
  - by apply q_term.
  - intros v t j rfj Hne Hj HV. by eapply nh_cand; [eapply nv_nodes|].
Qed.

(** The same for a critical section outside elections. *)
Lemma NInv_advance g s (i : nat) rf rf' :
  NInv g s → nodes (base s) !! i = Some rf → advance rf rf' → quiet rf rf' → NInv g (set_peer i rf' s).
Proof.
  intros HI Hi Ha Hq. pose proof (nv_base _ _ HI) as Hb. apply (NInv_quiet g s _ i rf rf'); eauto.
  apply Inv_node; [done|]. eapply node_inv_advance; [|done]. by eapply inv_nodes.
Qed.

(** Calls that are answered, dropped or whose sender died. *)
Lemma NInv_append g s k v :
  NInv g s → (∀ ac, v = Some ac → append_hist g ac) → NInv g (set_append k v s).
Proof.
  intros [] Hv. split; simpl; auto. intros k' ac. rewrite list_lookup_insert_Some.
  intros [(_ & -> & _)|(_ & Hk)]; eauto.
Qed.

Lemma NInv_install g s k v :
  NInv g s → (∀ ic, v = Some ic → install_hist ic) → NInv g (set_install k v s).
Proof.
  intros [] Hv. split; simpl; auto. intros k' ic. rewrite list_lookup_insert_Some.
  intros [(_ & -> & _)|(_ & Hk)]; eauto.
Qed.

Lemma NInv_batch g s i b : NInv g s → NInv g (set_batch i b s).
Proof. by intros []. Qed.

Lemma NInv_deliver g s i msgs :
  NInv g s → (∀ msg, msg ∈ msgs → msg_hist g msg) → NInv g (deliver i msgs s).
Proof.
  intros [] Hv. split; simpl; auto. intros j ms msg.
  destruct (decide (i = j)) as [<-|]; [|rewrite list_lookup_alter_ne by done; by eauto].
  rewrite list_lookup_alter_eq, fmap_Some. intros (old & Ho & ->). rewrite elem_of_app. intros [?|?]; eauto.
Qed.

Lemma NInv_crash g s i : NInv g s → NInv g (crash i s).
Proof.
  intros []. split; simpl; auto.
  - intros k ac. rewrite list_lookup_fmap_Some. intros ([ac0|] & Heq & Hk); simplify_eq/=.
    specialize (nv_appends0 _ _ Hk). unfold stop_append. case_decide; [|done]. by destruct nv_appends0.
  - intros k ic. rewrite list_lookup_fmap_Some. intros ([ic0|] & Heq & Hk); simplify_eq/=.
    specialize (nv_installs0 _ _ Hk). unfold stop_install. case_decide; [|done]. by destruct nv_installs0.
Qed.

(** ** New calls *)

(** What the leader's loops start. *)
Definition effect_ok rf (e : Effect Cmd) : Prop :=
  match e with
  | GoAppendEntries p args => role rf = LEADER ∧ 0 ≤ p < npeers rf ∧ p ≠ me rf ∧ leader_args rf args
  | GoInstallSnapshot p args => 0 ≤ p < npeers rf ∧ args = snapshot_args rf
  | SendApplyCh _ => False
  | _ => True
  end.

Lemma round_effects rf hb ws :
  role rf = LEADER → Forall2 (peer_message rf hb) (zrange 0 (npeers rf)) ws →
  Forall (effect_ok rf) (concat ws).
Proof.
  intros Hr Hws.
  assert (∀ ps, (∀ p, p ∈ ps → 0 ≤ p < npeers rf) → ∀ ws, Forall2 (peer_message rf hb) ps ws →
    Forall (effect_ok rf) (concat ws)) as Hgen.
  { clear ws Hws. intros ps Hps ws Hws. induction Hws as [|p w ps ws Hw Hws IH]; simpl; [constructor|].
    apply Forall_app. split; [|apply IH; set_solver]. specialize (Hps p ltac:(set_solver)).
    destruct Hw; repeat constructor; simpl; auto; lia. }
  eapply Hgen; [|done]. intros p. by rewrite elem_of_zrange.
Qed.


Lemma leader_args_hist g (i : nat) rf p args :
  (i < n)%nat → node_hist g i rf → node_inv n (gV g) i rf → effect_ok rf (GoAppendEntries p args) →
  append_hist g (mkAC i true p args None).
Proof.
  intros Hi Hnh Hni (Hr & Hp & Hne & Hargs). pose proof (nh_ok _ _ _ Hnh) as Hok.
  destruct (leader_args_shape rf args Hok Hargs) as (Hc & _ & Hlc).
  destruct (nh_leader _ _ _ Hnh Hr) as (HD & HL & _).
  destruct Hargs as (x & Hx & Hargs). pose proof (entryAt_range _ _ _ Hx) as Hrange.
  pose proof (f_equal ae_Term Hargs) as HT. pose proof (f_equal ae_PrevLogTerm Hargs) as HPt.
  pose proof (f_equal ae_Entries Hargs) as HE. pose proof (f_equal ae_LeaderCommit Hargs) as HLc.
  simpl in HT, HPt, HE, HLc. clear Hargs. rewrite (nh_first _ _ _ Hnh) in *.
  rewrite (ni_n _ _ _ _ Hni) in Hp. rewrite (ni_me _ _ _ _ Hni) in Hne.
  unfold entryAt in Hx. rewrite (nh_first _ _ _ Hnh) in Hx. apply index_Some in Hx as [_ Hx].
  rewrite Z.sub_0_r in Hx.
  replace (Z.to_nat (ae_PrevLogIndex args - 0 + 1)) with (Z.to_nat (ae_PrevLogIndex args) + 1)%nat in HE by lia.
  split; simpl; rewrite ?HT; try done.
  - lia.
  - exists x. by rewrite <-HL.
  - rewrite <-HL, HE. by rewrite firstn_all.
  - unfold upto. lia.
  - rewrite <-HL, HLc. apply (nh_com _ _ _ Hnh).
Qed.

Lemma NInv_sends g s i rf w :
  NInv g s → nodes (base s) !! i = Some rf → Forall (effect_ok rf) w → NInv g (sends i w s).
Proof.
  intros HI Hi Hw. pose proof (nv_nodes _ _ HI _ _ Hi) as Hnh.
  pose proof (inv_nodes _ _ _ (nv_base _ _ HI) _ _ Hi) as Hni. pose proof HI as [].
  assert (i < n)%nat by (rewrite <-(inv_len _ _ _ nv_base0); by eapply lookup_lt_Some).
  rewrite Forall_forall in Hw. split; simpl; auto.
  - intros k ac. rewrite lookup_app_Some. intros [?|[_ Hac%list_elem_of_lookup_2]]; [by eauto|].
    apply list_elem_of_omap in Hac as (e & He & Heq). specialize (Hw e He).
    destruct e; simplify_eq. by eapply leader_args_hist.
  - intros k ic. rewrite lookup_app_Some. intros [?|[_ Hic%list_elem_of_lookup_2]]; [by eauto|].
    apply list_elem_of_omap in Hic as (e & He & Heq). specialize (Hw e He).
    destruct e; simplify_eq. destruct Hw as [Hp ->]. split; simpl.
    + by rewrite (ni_n _ _ _ _ Hni) in Hp.
    + done.
    + by rewrite (nh_first _ _ _ Hnh).
Qed.

Lemma round_sent_effects rf w : round_sent rf w → Forall (effect_ok rf) w.
Proof.
  intros [->|(Hr & ws & Hws & ->)]; [constructor|]. apply Forall_app. split; [by eapply round_effects|].
  by repeat constructor.
Qed.
End inv.
