(* ===== verification/RaftNetSteps.v ===== *)
(** * Every step of a follower keeps the invariant

    Storing a leader's entries, granting a vote and becoming a candidate, each with the growth of the
    history it causes. *)
From S2P Require Import Prelude Raft RaftLog RaftNode RaftVote RaftReplicate RaftLeader RaftSnapshot.
From S2P Require Import RaftProc RaftTerm RaftElection RaftNet RaftGhost RaftNetInv.

Section steps.
#[local] Coercion Z.of_nat : nat >-> Z.
Context {Cmd : Type} `{CodecLaws (hard_state Cmd)} (n : nat).
Implicit Types (rf : Raft Cmd) (g : Ghost Cmd) (s : Net Cmd).

(** ** Growth of the history *)

(** Peer [i] has stored the first [M] entries of the leader of term [T]. *)
Definition with_stored (i T : Z) (M : nat) g : Ghost Cmd :=
  mkGhost (gV g) (gD g) (gC g) (gL g) (λ v T' m, gA g v T' m ∨ v = i ∧ T' = T ∧ (m ≤ M)%nat).

Lemma gother_stored (i : nat) T M g : gother i g (with_stored i T M g).
Proof.
  split; simpl; auto.
  - split; simpl; auto.
  - intros v T' m [?|(-> & _)]; done.
Qed.

Lemma GInv_stored (i : Z) T M g :
  GInv n g → is_Some (gD g T) → (M ≤ length (gL g T))%nat → (∀ t c, gV g i t c → t ≤ T) →
  GInv n (with_stored i T M g).
Proof.
  intros HG HD HM HV. apply (GInv_grow n g); simpl; auto.
  - split; simpl; auto.
  - intros v t x Hv. split; [done|]. intros T' m [?|(-> & -> & _)] Ht; [done|].
    specialize (HV _ _ Hv). lia.
  - by apply (gi_zero_none n).
  - intros v T' m [?|(-> & -> & ?)]; [by left|]. right. split; [done|lia].
  - intros v T' m m' [Ha|(-> & -> & ?)] ?; [left; by eapply (gi_down n)|]. right. split_and!; done || lia.
Qed.

(** ** A follower stores the leader's entries *)
Section accept.
Context (g : Ghost Cmd) (i : nat) (rf : Raft Cmd) (ac : AppendCall Cmd).
Hypotheses (HG : GInv n g) (Hnh : node_hist n g i rf) (Hni : node_inv n (gV g) i rf).
Hypotheses (Hah : append_hist n g ac) (Hto : ac_to ac = i) (HT : ae_Term (ac_args ac) = currentTerm rf).

Let args := ac_args ac.
Let L := gL g (currentTerm rf).

Lemma accept_elected : is_Some (gD g (currentTerm rf)).
Proof. rewrite <-HT. eexists. apply (ah_leader _ _ _ Hah). Qed.

Lemma accept_not_leader : role rf ≠ LEADER.
Proof.
  intros Hr. destruct (nh_leader _ _ _ _ Hnh Hr) as (HD & _ & _). rewrite <-HT in HD.
  pose proof (ah_leader _ _ _ Hah) as HD'. pose proof (ah_other _ _ _ Hah). rewrite HD in HD'.
  injection HD' as Heq. rewrite <-Heq in *. congruence.
Qed.

Lemma accept_upto : (upto args ≤ length L)%nat.
Proof.
  unfold L. rewrite <-HT. destruct (ah_prev _ _ _ Hah) as (x & Hx%lookup_lt_Some & _).
  pose proof (f_equal length (ah_slice _ _ _ Hah)) as Hs. rewrite length_take, length_drop in Hs.
  unfold upto, args. lia.
Qed.

(** The committed part of the follower's log is the leader's. *)
Lemma accept_committed (c : Z) :
  com n g (currentTerm rf) (logs rf) c → 0 < c →
  take (S (Z.to_nat c)) (logs rf) = take (S (Z.to_nat c)) L.
Proof. intros Hc Hpos. eapply com_leader; eauto using accept_elected. lia. Qed.

Lemma accept_ae_ok : ae_ok rf args.
Proof.
  split_and!.
  - apply (ah_contiguous _ _ _ Hah).
  - intros _. apply accept_not_leader.
  - intros e x He Hx Hle. pose proof (nh_first _ _ _ _ Hnh) as Hf.
    apply list_elem_of_lookup in He as [q Hq].
    pose proof (ah_contiguous _ _ _ Hah _ _ Hq) as Hi. pose proof (ah_pos _ _ _ Hah).
    unfold entryAt in Hx. rewrite Hf, Z.sub_0_r in Hx. apply index_Some in Hx as [_ Hx].
    assert (L !! Z.to_nat (Index e) = Some e) as HL.
    { unfold args in Hq. rewrite (ah_slice _ _ _ Hah), HT in Hq.
      apply lookup_take_Some in Hq as [Hq _]. rewrite lookup_drop in Hq. rewrite <-Hq. f_equal.
      unfold args in *. lia. }
    pose proof (accept_committed _ (nh_com _ _ _ _ Hnh) ltac:(lia)) as Heq.
    pose proof (take_eq_lookup _ _ _ (Z.to_nat (Index e)) Heq ltac:(lia)) as Hl.
    rewrite Hx, HL in Hl. by injection Hl as ->.
Qed.

(** The merged log: unchanged when it has the slice already, the leader's prefix otherwise. *)
Lemma accept_merged x :
  entryAt (logs rf) (ae_PrevLogIndex args) = Some x → Term x = ae_PrevLogTerm args →
  take (upto args) L `prefix_of` merged rf args ∧
  (merged rf args = logs rf ∨
   merged rf args = take (upto args) L ∧ ∃ q, (q < upto args)%nat ∧ diverge (logs rf) L q).
Proof.
  intros Hx Hxt. pose proof (nh_first _ _ _ _ Hnh) as Hf. pose proof (ah_pos _ _ _ Hah) as Hpos.
  unfold entryAt in Hx. rewrite Hf, Z.sub_0_r in Hx. apply index_Some in Hx as [_ Hx].
  destruct (ah_prev _ _ _ Hah) as (y & Hy & Hyt). rewrite HT in Hy. fold L args in Hy, Hyt.
  assert (merge_at rf args = (Z.to_nat (ae_PrevLogIndex args) + 1)%nat) as Hk.
  { unfold merge_at. rewrite Hf. fold args in Hpos. lia. }
  assert (lm g L) as HLm.
  { destruct accept_elected as [d Hd]. apply (eo_lm n _ _ _ (gi_elected _ _ HG _ _ Hd)). }
  destruct (merge_slice L (logs rf) (merge_at rf args) (ae_Entries args)) as [[Heq Hp]|[Heq Hp]].
  - rewrite Hk. apply lookup_lt_Some in Hx. lia.
  - rewrite Hk, Nat.add_1_r. apply (lm_match g _ _ _ x y); [by apply (nh_lm _ _ _ _ Hnh)|done..|congruence].
  - rewrite Hk. unfold args, L. rewrite <-HT. apply (ah_slice _ _ _ Hah).
  - intros p a b Ha Hb. apply (lm_match g _ _ _ a b); [by apply (nh_lm _ _ _ _ Hnh)|done..].
  - unfold merged, upto. rewrite Heq, <-Hk. split; [done|by left].
  - unfold merged, upto. rewrite Heq, <-Hk. split; [done|by right].
Qed.

(** Stored prefixes survive the merge, or the leader of this term was elected without them. *)
Lemma accept_kept x T m :
  entryAt (logs rf) (ae_PrevLogIndex args) = Some x → Term x = ae_PrevLogTerm args →
  gA g i T m → kept g T m (merged rf args) (currentTerm rf).
Proof.
  intros Hx Hxt Ha. destruct (nh_kept _ _ _ _ Hnh T m Ha) as [HTc Hk].
  destruct (accept_merged x Hx Hxt) as [_ [->|(Heq & q & Hq & Hdiv)]]; [done|].
  destruct Hk as [Hp|Hk]; [|by right]. unfold kept. set (P := take m (gL g T)) in *.
  assert (P = take (length P) (logs rf)) as HP.
  { rewrite (prefix_take_eq _ _ _ Hp) by done. by rewrite firstn_all. }
  destruct (decide (length P ≤ q)%nat) as [Hle|Hgt].
  - left. rewrite Heq, HP. pose proof Hdiv as [Hagree _].
    rewrite (take_eq_le _ _ _ (length P) Hagree Hle). apply take_mono_prefix. lia.
  - right. exists (currentTerm rf).
    assert (¬ P `prefix_of` L) as HnL.
    { intros HpL. assert (length P ≤ q)%nat; [|lia]. apply (diverge_agree _ _ _ _ Hdiv).
      by rewrite (prefix_take_eq _ _ _ Hp), (prefix_take_eq _ _ _ HpL). }
    split_and!; [|lia|apply accept_elected|].
    + destruct (decide (T = currentTerm rf)) as [->|]; [|lia]. destruct HnL. apply take_prefix.
    + intros HE. apply HnL. etrans; [exact HE|]. by apply (gE_prefix n).
Qed.

Lemma accept_com x :
  entryAt (logs rf) (ae_PrevLogIndex args) = Some x → Term x = ae_PrevLogTerm args →
  log_wf (merged rf args) → first_idx (merged rf args) = 0 →
  com n g (currentTerm rf) (merged rf args) (commit_rule rf args).
Proof.
  intros Hx Hxt Hwf Hf. destruct (accept_merged x Hx Hxt) as [Hp Hcase].
  pose proof (ah_com _ _ _ Hah) as Hlc. pose proof (ah_commit _ _ _ Hah) as Hlen. rewrite HT in Hlc.
  pose proof accept_upto as Hup. fold args in Hlc, Hlen.
  assert (upto args ≤ length (merged rf args))%nat as Hml.
  { pose proof (prefix_length _ _ Hp) as Hl. rewrite length_take in Hl. lia. }
  pose proof (ok_commit _ (nh_ok _ _ _ _ Hnh)) as Hci. rewrite (nh_first _ _ _ _ Hnh) in Hci.
  unfold commit_rule. destruct (commitIndex rf <? ae_LeaderCommit args) eqn:Hlt.
  - rewrite Z.min_l by (unfold last_idx; rewrite Hf; lia).
    eapply com_prefix; [|exact Hlc]. fold L.
    rewrite (prefix_take_eq _ _ _ Hp) by (rewrite length_take; lia). rewrite take_take. f_equal. lia.
  - destruct (decide (commitIndex rf = 0)) as [|Hc0]; [by left|].
    pose proof (nh_com _ _ _ _ Hnh) as Hcom. eapply com_prefix; [|exact Hcom].
    destruct Hcase as [->|(Heq & q & Hq & Hdiv)]; [done|].
    pose proof (accept_committed _ Hcom ltac:(lia)) as Hag.
    pose proof (diverge_agree _ _ _ _ Hdiv Hag). rewrite Heq, take_take, Nat.min_l by lia. exact Hag.
Qed.

Lemma accept_node_hist x rf' :
  entryAt (logs rf) (ae_PrevLogIndex args) = Some x → Term x = ae_PrevLogTerm args →
  node_ok rf' → LastApplied rf' = LastApplied rf → currentTerm rf' = currentTerm rf →
  first_idx (logs rf') = 0 → logs rf' = merged rf args → role rf' = FOLLOWER →
  commitIndex rf' = commit_rule rf args →
  node_hist n (with_stored i (currentTerm rf) (upto args) g) i rf'.
Proof.
  intros Hx Hxt Hok Hap Ht Hf Hl Hr Hc. pose proof (gother_stored i (currentTerm rf) (upto args) g) as Ho.
  pose proof (go_ext _ _ _ Ho) as Hgx. pose proof Hnh as [].
  destruct (accept_merged x Hx Hxt) as [Hp Hcase].
  split; rewrite ?Ht, ?Hl, ?Hap; auto; try congruence.
  - intros e He. destruct Hcase as [Heq|(Heq & _)]; rewrite Heq in He; [auto|].
    apply list_elem_of_lookup in He as (p & [Hpe _]%lookup_take_Some).
    by apply (gL_terms n g HG) in Hpe as [? _].
  - apply (lm_ext _ _ _ Hgx). destruct Hcase as [->|(-> & _)]; [done|]. apply lm_take.
    destruct accept_elected as [d Hd]. apply (eo_lm n _ _ _ (gi_elected _ _ HG _ _ Hd)).
  - intros T m [Ha|(_ & -> & Hm)].
    + destruct (nh_kept T m Ha) as [? _]. split; [done|].
      eapply (kept_ext n g _ i T m _ (currentTerm rf)); try done. by eapply accept_kept.
    + split; [done|]. left. etrans; [|exact Hp]. apply take_mono_prefix. lia.
  - rewrite Hc. eapply com_ext; [exact Hgx|reflexivity|]. eapply accept_com; try done; rewrite <-Hl; [|done].
    by apply ok_log.
Qed.
End accept.

(** *** Quiet steps *)
Lemma quiet_intro g i rf rf' :
  node_hist n g i rf → node_ok rf' → logs rf' = logs rf → commitIndex rf' = commitIndex rf →
  LastApplied rf' = LastApplied rf →
  (currentTerm rf' = currentTerm rf ∧ matchIndex rf' = matchIndex rf ∧
     (role rf' = role rf ∨ role rf' = FOLLOWER) ∨ currentTerm rf < currentTerm rf' ∧ role rf' = FOLLOWER) →
  quiet rf rf'.
Proof.
  intros Hnh Hok Hl Hc Ha Hcase. pose proof (ok_commit _ (nh_ok _ _ _ _ Hnh)).
  rewrite (nh_first _ _ _ _ Hnh) in *. pose proof (nh_applied _ _ _ _ Hnh).
  split; try done; try lia.
  - intros Hr. destruct Hcase as [(Ht & Hm & [Hr'|Hr'])|[_ Hr']]; try congruence.
    split_and!; [congruence|done|]. by rewrite Hm.
  - intros Hr. destruct Hcase as [(Ht & Hm & [Hr'|Hr'])|[_ Hr']]; try congruence.
    split; [congruence|done].
Qed.

Lemma quiet_newTerm g i rf t :
  node_hist n g i rf → currentTerm rf < t → quiet rf (newTerm t rf).
Proof.
  intros Hnh Ht. eapply quiet_intro; [done| |done..|by right]. apply node_ok_newTerm. by eapply nh_ok.
Qed.

Lemma quiet_demote g i rf : node_hist n g i rf → quiet rf (demote rf).
Proof.
  intros Hnh. eapply quiet_intro; [done|by eapply node_ok_demote, nh_ok|apply demote_logs|apply demote_commit|..].
  - unfold demote. by case_decide.
  - left. unfold demote. case_decide; auto.
Qed.

Lemma quiet_refl g i rf : node_hist n g i rf → quiet rf rf.
Proof. intros Hnh. eapply quiet_intro; eauto. by eapply nh_ok. Qed.

(** *** [AppendEntries] *)
Definition answered (ac : AppendCall Cmd) (reply : AppendEntriesReply) : AppendCall Cmd :=
  mkAC (ac_from ac) (ac_live ac) (ac_to ac) (ac_args ac) (Some reply).

Lemma append_hist_answered g ac reply :
  append_hist n g ac →
  (aer_Success reply = true → gA g (ac_to ac) (ae_Term (ac_args ac)) (upto (ac_args ac))) →
  (aer_XTerm reply = -1 → aer_XLen reply ≤ ae_PrevLogIndex (ac_args ac)) →
  aer_XIndex reply ≤ ae_PrevLogIndex (ac_args ac) → append_hist n g (answered ac reply).
Proof. intros [] Hs Hl Hi. split; simpl; auto. intros r [= <-]. auto. Qed.

Lemma merged_fields rf args rf1 rf' :
  rf1 = demote rf ∧ merged rf args = logs rf ∨ rf1 = persisted (set_logs (merged rf args) (demote rf)) →
  rf' = rf1 ∧ commitIndex rf = commit_rule rf args ∨ rf' = set_commitIndex (commit_rule rf args) rf1 →
  logs rf' = merged rf args ∧ commitIndex rf' = commit_rule rf args ∧ role rf' = role (demote rf) ∧
  currentTerm rf' = currentTerm rf ∧ LastApplied rf' = LastApplied rf.
Proof.
  assert (currentTerm (demote rf) = currentTerm rf ∧ LastApplied (demote rf) = LastApplied rf) as [Ht Ha].
  { unfold demote. by case_decide. }
  intros [[-> Hm]| ->] [[-> Hc]| ->]; simpl; rewrite ?demote_logs, ?demote_commit, ?Hm, ?Ht, ?Ha; done.
Qed.

Lemma step_append g s k ac rf reply rf' w :
  NInv n g s → appends s !! k = Some (Some ac) → nodes (base s) !! Z.to_nat (ac_to ac) = Some rf →
  AppendEntries (ac_args ac) rf = Some (reply, rf', w) →
  keeps rf rf' ∧ ∃ g', gext g g' ∧
    NInv n g' (set_append k (Some (answered ac reply)) (set_peer (Z.to_nat (ac_to ac)) rf' s)).
Proof.
  intros HI Hk Hi Hrun. pose proof (nv_appends _ _ _ HI _ _ Hk) as Hah.
  pose proof (ah_to _ _ _ Hah) as Hto. set (i := Z.to_nat (ac_to ac)) in *.
  assert (ac_to ac = i) as Hti by lia.
  pose proof (nv_nodes _ _ _ HI _ _ Hi) as Hnh. pose proof (nh_ok _ _ _ _ Hnh) as Hok.
  pose proof (inv_nodes _ _ _ (nv_base _ _ _ HI) _ _ Hi) as Hni. pose proof (nv_ghost _ _ _ HI) as HG.
  assert (advance rf rf') as Hadv.
  { apply steps_down_advance. by apply (AppendEntries_steps_down rf (ac_args ac) _ _ _ Hrun). }
  assert (ae_outcome rf (ac_args ac) reply rf') as Ho.
  { eapply (wp_run _ (λ reply rf' _, ae_outcome rf (ac_args ac) reply rf')); [exact Hrun|].
    apply wp_AppendEntries; [by apply ok_log|by apply (ah_contiguous _ _ _ Hah)|done]. }
  assert (∀ rf', quiet rf rf' → keeps rf rf' → advance rf rf' →
    aer_Success reply = false → (aer_XTerm reply = -1 → aer_XLen reply ≤ ae_PrevLogIndex (ac_args ac)) →
    aer_XIndex reply ≤ ae_PrevLogIndex (ac_args ac) →
    keeps rf rf' ∧ ∃ g', gext g g' ∧ NInv n g' (set_append k (Some (answered ac reply)) (set_peer i rf' s)))
    as Hquiet.
  { intros rf1 Hq Hkp Ha1 Hs Hl Hx. split; [done|]. exists g. split; [done|]. apply NInv_append.
    - by eapply NInv_advance.
    - intros ? [= <-]. apply append_hist_answered; try done. by rewrite Hs. }
  pose proof (ah_pos _ _ _ Hah).
  destruct Ho as [?|?|Ht ?|Ht ? ?|x r Ht Hx ? ? ? ?|x rf1 rf' Ht Hx Hxt Hrf1 Hrf'].
  - apply Hquiet; simpl; try done. by eapply quiet_refl.
  - apply Hquiet; simpl; try done; by eapply quiet_newTerm.
  - apply Hquiet; simpl; try done; [by eapply quiet_demote|apply keeps_demote].
  - apply Hquiet; simpl; try done; [by eapply quiet_demote|apply keeps_demote|lia|lia].
  - apply Hquiet; simpl; try done; [by eapply quiet_demote|apply keeps_demote| |lia].
    intros Hx1. exfalso. assert (x ∈ logs rf) as Hin.
    { unfold entryAt in Hx. apply index_Some in Hx as [_ Hx]. by eapply list_elem_of_lookup_2. }
    apply (nh_terms _ _ _ _ Hnh) in Hin. lia.
  - assert (ae_ok rf (ac_args ac)) as Haeok by (eapply accept_ae_ok; eauto).
    assert (node_ok rf' ∧ keeps rf rf') as [Hok' Hkp].
    { eapply node_ok_ae_outcome; [done..|]. by eapply ae_success. }
    split; [done|]. destruct Hkp as (_ & _ & Hf & _ & Hle). rewrite (nh_first _ _ _ _ Hnh) in Hf.
    destruct (merged_fields rf (ac_args ac) rf1 rf' Hrf1 Hrf') as (Hl & Hc & Hr & Hct & Hap).
    assert (role rf' = FOLLOWER) as Hrole.
    { rewrite Hr. pose proof (accept_not_leader g i rf ac Hnh Hah Hti Ht). unfold demote.
      case_decide; [done|]. by destruct (role rf). }
    set (g' := with_stored i (currentTerm rf) (upto (ac_args ac)) g).
    pose proof (gother_stored i (currentTerm rf) (upto (ac_args ac)) g) as Hgo. fold g' in Hgo.
    exists g'. split; [apply Hgo|]. apply NInv_append.
    + apply (NInv_base n g g' s _ i rf rf'); auto.
      * apply Inv_node; [by apply (nv_base _ _ _ HI)|]. by eapply node_inv_advance.
      * apply GInv_stored; [done|by eapply accept_elected|by eapply accept_upto|].
        intros t x' HV. by apply (ni_votes _ _ _ _ Hni) in HV as [? _].
      * by eapply accept_node_hist.
      * lia.
      * intros v t j rfj Hne Hj HV. by eapply nh_cand; [eapply nv_nodes|].
      * intros j er Hj. right. by exists er.
    + intros ? [= <-]. apply append_hist_answered; simpl; try done.
      * eapply append_hist_ext; [apply Hgo|done].
      * intros _. right. by rewrite Hti, Ht.
Qed.

(** ** Votes *)
Definition with_votes (V : Z → Z → Z → Prop) g : Ghost Cmd := mkGhost V (gD g) (gC g) (gL g) (gA g).

Lemma gother_votes (i : nat) V g : (∀ v t c, gV g v t c → V v t c) → gother i g (with_votes V g).
Proof. intros HV. split; simpl; auto. split; simpl; auto. Qed.

Lemma GInv_votes V g :
  GInv n g → (∀ v t c, gV g v t c → V v t c) →
  (∀ v t c, V v t c → gV g v t c ∨ vote_ok g v t c ∨ is_Some (gD g t)) → GInv n (with_votes V g).
Proof.
  intros HG Hmono HV. apply (GInv_grow n g); simpl; auto.
  - split; simpl; auto.
  - done.
  - by apply (gi_zero_none n).
  - by apply (gi_down n).
Qed.

(** The vote a peer grants respects the election restriction. *)
Lemma granted_vote_ok g (i : nat) rf c er :
  GInv n g → node_hist n g i rf → election_hist n g c er → vote_rule rf (el_args (er_el er)) = true →
  vote_ok g i (rv_Term (el_args (er_el er))) (er_owner er) ∨ is_Some (gD g (rv_Term (el_args (er_el er)))).
Proof.
  intros HG Hnh Heh Hr. set (args := el_args (er_el er)) in *. set (t := rv_Term args) in *.
  destruct (gD g t) as [d|] eqn:HD; [by right; eexists|]. left.
  apply andb_true_iff in Hr as [Ht Hup]. fold t in Ht.
  pose proof (ok_log _ (nh_ok _ _ _ _ Hnh)) as Hwf.
  exists (logs rf). split_and!; [apply Hwf|by apply (nh_lm _ _ _ _ Hnh)| |].
  - unfold up_to_date in Hup. fold args in Hup. destruct Heh as [Hf Hi Hlt _ _]. fold args t in Hf, Hi, Hlt.
    rewrite Hi, Hlt in Hup. unfold last_idx in Hup. rewrite Hf, (nh_first _ _ _ _ Hnh) in Hup.
    unfold no_newer. lia.
  - intros T m Ha HT. destruct (nh_kept _ _ _ _ Hnh T m Ha) as [_ [?|(t' & Ht' & [d Hd] & Hn)]]; [by left|].
    right. exists t'. split_and!; [lia| |by eexists|done].
    assert (t' ≠ t) by congruence. lia.
Qed.

Lemma quiet_vote_state g i rf args : node_hist n g i rf → quiet rf (vote_state rf args).
Proof.
  intros Hnh. pose proof (nh_ok _ _ _ _ Hnh) as Hok. destruct (node_ok_vote_state rf args Hok) as [Hok' _].
  eapply quiet_intro; [done|done|..]; unfold vote_state; repeat case_match; simpl; try done; auto.
  all: right; split; [lia|done].
Qed.

Lemma node_hist_votes g (i : nat) rf V :
  (∀ v t c, gV g v t c → V v t c) → (∀ v t, V v t i → t ≤ currentTerm rf) →
  node_hist n g i rf → node_hist n (with_votes V g) i rf.
Proof. intros HV Hc []. by split. Qed.

(** The votes of a delivered request are those of peers that know of its term. *)
Lemma delivered_vote_cand g s vc er reply v t (j : nat) rfj :
  NInv n g s → elections (base s) !! vc_el vc = Some er → nodes (base s) !! j = Some rfj →
  delivered_vote (gV g) vc er reply v t j → t ≤ currentTerm rfj.
Proof.
  intros HI Her Hj. unfold delivered_vote, cast.
  assert (gV g v t j → t ≤ currentTerm rfj) as Hold.
  { intros HV. by eapply nh_cand; [eapply nv_nodes|]. }
  case_match; [|done]. intros [?|(_ & -> & Ho)]; [auto|].
  apply (eh_past _ _ _ _ (nv_elections _ _ _ HI _ _ Her)). assert (er_owner er = j) as -> by lia. done.
Qed.

Lemma step_vote g s k vc er rf reply rf' w :
  NInv n g s → calls (base s) !! k = Some (Some vc) → elections (base s) !! vc_el vc = Some er →
  nodes (base s) !! Z.to_nat (vc_to vc) = Some rf →
  RequestVote (el_args (er_el er)) rf = Some (reply, rf', w) →
  ∃ g', gext g g' ∧
    NInv n g' (set_base (set_call k (Some (mkVC (vc_el vc) (vc_to vc) (Some reply)))
                 (set_node (Z.to_nat (vc_to vc)) rf' (base s))) s).
Proof.
  intros HI Hk Her Hi Hrun. pose proof (nv_base _ _ _ HI) as Hb. pose proof (nv_ghost _ _ _ HI) as HG.
  pose proof (step_deliver n _ _ _ _ _ _ _ _ _ Hb Hk Her Hi Hrun) as Hb'.
  destruct (inv_calls _ _ _ Hb _ _ Hk) as [Hto _]. set (i := Z.to_nat (vc_to vc)) in *.
  pose proof (nv_nodes _ _ _ HI _ _ Hi) as Hnh. pose proof (nh_ok _ _ _ _ Hnh) as Hok.
  assert (rvr_VoteGranted reply = vote_rule rf (el_args (er_el er)) ∧
    rf' = vote_state rf (el_args (er_el er))) as [Hg ->].
  { eapply (wp_run _ (λ reply rf' _, rvr_VoteGranted reply = vote_rule rf (el_args (er_el er)) ∧
      rf' = vote_state rf (el_args (er_el er)))); [exact Hrun|].
    apply wp_RequestVote; [by apply ok_log|done]. }
  pose proof (quiet_vote_state g i rf (el_args (er_el er)) Hnh) as Hq.
  set (rf' := vote_state _ _) in *. set (V := delivered_vote (gV g) vc er reply) in *.
  assert (∀ v t c, gV g v t c → V v t c) as Hmono by (intros v t c; apply delivered_vote_mono).
  exists (with_votes V g). pose proof (gother_votes i V g Hmono) as Hgo. split; [apply Hgo|].
  apply (NInv_base n g (with_votes V g) s _ i rf rf'); auto.
  - apply GInv_votes; [done|done|]. intros v t c. unfold V, delivered_vote. rewrite Hg.
    destruct (vote_rule _ _) eqn:Hr; [|by left]. intros [?|(-> & -> & ->)]; [by left|]. right.
    assert (vc_to vc = i) as -> by lia. eapply granted_vote_ok; eauto. by eapply nv_elections.
  - apply node_hist_votes; [done| |by eapply node_hist_quiet].
    intros v t HV. etrans; [eapply delivered_vote_cand; eauto|]. apply Hq.
  - apply Hq.
  - intros v t j rfj Hne Hj HV. by eapply (delivered_vote_cand g s vc er reply v).
  - intros j er' Hj. right. by exists er'.
Qed.

(** ** A new candidate *)
Definition with_candidate (i t : Z) (l : list (Entry Cmd)) g : Ghost Cmd :=
  mkGhost (cast (gV g) i t i) (gD g) (λ t' d, if decide (t' = t ∧ d = i) then l else gC g t' d)
    (gL g) (gA g).

Section candidate.
Context (g : Ghost Cmd) (i : nat) (rf : Raft Cmd).
Hypotheses (HG : GInv n g) (Hnh : node_hist n g i rf).

Let t := currentTerm rf + 1.
Let g' := with_candidate i t (logs rf) g.

Lemma candidate_log : gC g' t i = logs rf.
Proof. simpl. by rewrite decide_True. Qed.

Lemma candidate_other : gother i g g'.
Proof.
  split; simpl; auto.
  - split; simpl; auto; [by left|]. intros t' d HD. split; [done|]. rewrite decide_False; [done|].
    intros [-> ->]. apply (nh_led _ _ _ _ Hnh) in HD. lia.
  - intros t' d Hne. case_decide; [by destruct_and!|done].
Qed.

Lemma candidate_GInv : GInv n g'.
Proof.
  pose proof (go_ext _ _ _ candidate_other) as Hx.
  apply (GInv_grow n g); simpl; auto.
  - intros v t' c HV. simpl. split; [|done]. rewrite decide_False; [done|]. intros [-> ->].
    apply (nh_cand _ _ _ _ Hnh) in HV. lia.
  - by apply (gi_zero_none n).
  - by apply (gi_down n).
  - intros v t' c [?|(-> & -> & ->)]; [by left|]. right. left.
    exists (logs rf). rewrite candidate_log. split_and!.
    + apply (ok_log _ (nh_ok _ _ _ _ Hnh)).
    + eapply lm_ext; [done|]. by apply (nh_lm _ _ _ _ Hnh).
    + right. done.
    + intros T m Ha _. destruct (nh_kept _ _ _ _ Hnh T m Ha) as [_ Hk].
      eapply (kept_ext n g g' i T m _ (currentTerm rf)); done || (unfold t; lia).
Qed.

Lemma candidate_node_hist : node_hist n g' i (candidate_state rf).
Proof.
  pose proof (go_ext _ _ _ candidate_other) as Hx. pose proof Hnh as [].
  split; simpl; auto.
  - by apply node_ok_candidate.
  - lia.
  - intros e He. specialize (nh_terms e He). lia.
  - done.
  - intros _. rewrite decide_True by done. split_and!; [lia| |done|].
    + intros e He. specialize (nh_terms e He). lia.
    + intros HD. specialize (nh_led _ HD). lia.
  - intros T m Ha. destruct (nh_kept T m Ha) as [? Hk]. split; [lia|].
    eapply (kept_ext n g g' i T m _ (currentTerm rf)); done || lia.
  - intros t' HD. specialize (nh_led _ HD). lia.
  - intros v t' [HV|(_ & -> & _)]; [|done]. specialize (nh_cand _ _ HV). lia.
  - eapply com_ext; [exact Hx| |exact nh_com]. lia.
Qed.
End candidate.

Lemma step_candidate g s (i : nat) rf el rf' w :
  NInv n g s → nodes (base s) !! i = Some rf → tickerElection rf = Some (el, rf', w) →
  ∃ g', gext g g' ∧
    NInv n g' (set_base (mkCluster (<[i := rf']> (nodes (base s)))
      (elections (base s) ++ [mkER i true el])
      (calls (base s) ++ new_calls (length (elections (base s))) w)) s).
Proof.
  intros HI Hi Hrun. pose proof (nv_base _ _ _ HI) as Hb. pose proof (nv_ghost _ _ _ HI) as HG.
  pose proof (step_timeout n _ _ _ _ _ _ _ Hb Hi Hrun) as Hb'.
  pose proof (nv_nodes _ _ _ HI _ _ Hi) as Hnh. pose proof (nh_ok _ _ _ _ Hnh) as Hok.
  assert (el = mkElection (election_args rf) 1 false ∧ rf' = candidate_state rf) as [-> ->].
  { eapply (wp_run _ (λ el rf' _, el = mkElection (election_args rf) 1 false ∧ rf' = candidate_state rf));
      [exact Hrun|]. apply wp_tickerElection; [by apply ok_log|done]. }
  set (g' := with_candidate i (currentTerm rf + 1) (logs rf) g).
  pose proof (candidate_other g i rf Hnh) as Hgo. fold g' in Hgo. exists g'. split; [apply Hgo|].
  apply (NInv_base n g g' s _ i rf (candidate_state rf)); auto.
  - by apply candidate_GInv.
  - by apply candidate_node_hist.
  - simpl. lia.
  - intros v t j rfj Hne Hj [HV|(_ & _ & Heq)]; [|lia].
    apply (nh_cand _ _ _ _ (nv_nodes _ _ _ HI _ _ Hj) _ _ HV).
  - intros t. simpl. case_decide as Hd; [right; lia|by left].
  - intros j er. simpl. rewrite lookup_app_Some, list_lookup_singleton_Some.
    intros [?|(_ & _ & <-)]; [by right; exists er|]. left.
    pose proof (candidate_log g i rf) as Hlog. simpl in Hlog.
    split; simpl; rewrite ?Hlog; try done; [by apply (nh_first _ _ _ _ Hnh)| |].
    { rewrite <-(inv_len _ _ _ Hb). by eapply lookup_lt_Some. }
    intros rfo. rewrite list_lookup_insert_eq by (by eapply lookup_lt_Some). intros [= <-]. done.
Qed.
End steps.
