(* ===== verification/RaftNetLead.v ===== *)
(** * Every step of a leader keeps the invariant

    Winning an election, [Start], the replies a leader handles and what it commits; and the steps
    any peer takes by itself: the reply goroutine of an election, the applier, a restart. *)
From S2P Require Import Prelude Raft RaftLog RaftNode RaftVote RaftReplicate RaftLeader RaftSnapshot.
From S2P Require Import RaftProc RaftTerm RaftElection RaftNet RaftGhost RaftNetInv RaftNetSteps.

Section steps.
#[local] Coercion Z.of_nat : nat >-> Z.
Context {Cmd : Type} `{CodecLaws (hard_state Cmd)} (n : nat).
Implicit Types (rf : Raft Cmd) (g : Ghost Cmd) (s : Net Cmd).

(** ** A new leader *)
Definition with_leader (i t : Z) (l : list (Entry Cmd)) g : Ghost Cmd :=
  mkGhost (gV g) (λ t', if decide (t' = t) then Some i else gD g t') (gC g)
    (λ t', if decide (t' = t) then l else gL g t')
    (λ v T m, gA g v T m ∨ v = i ∧ T = t ∧ (m ≤ length l)%nat).

Section leader.
Context (g : Ghost Cmd) (i : nat) (rf : Raft Cmd) (cl : Cluster Cmd).
Hypotheses (HG : GInv n g) (Hnh : node_hist n g i rf) (Hb : Inv n (gV g) cl)
  (Hni : node_inv n (gV g) i rf).
Hypotheses (Hrole : role rf = CANDIDATE) (Hq : quorum n (gV g) (currentTerm rf) i).

#[local] Abbreviation t := (currentTerm rf).
Let g' := with_leader i t (logs rf) g.

Lemma leader_fresh : gD g t = None.
Proof.
  destruct (gD g t) as [d|] eqn:HD; [exfalso|done].
  destruct (nh_candidate _ _ _ _ Hnh Hrole) as (_ & _ & _ & HDi).
  destruct (elected_quorum _ _ _ _ (gi_elected _ _ HG _ _ HD)) as (Q1 & HQ1 & Hs1 & Hv1).
  destruct Hq as (Q2 & HQ2 & Hs2 & Hv2).
  destruct (quorum_intersect (Z.of_nat n) (peer_set (Z.of_nat n)) Q1 Q2) as (v & Hin1 & Hin2); auto.
  { by rewrite size_peer_set by lia. }
  apply HDi. rewrite HD. f_equal. eapply (inv_fun n _ _ Hb); eauto.
Qed.

Lemma leader_pos : 0 < t.
Proof. by destruct (nh_candidate _ _ _ _ Hnh Hrole) as (? & _). Qed.

Lemma leader_log : gL g' t = logs rf.
Proof. simpl. by rewrite decide_True. Qed.

Lemma leader_other : gother i g g'.
Proof.
  pose proof leader_fresh as Hf. pose proof leader_pos. split; simpl.
  - split; simpl; auto.
    + intros t' d HD. case_decide; [congruence|done].
    + intros t'. case_decide as Ht; [|done]. rewrite Ht, (gi_none n g HG) by (done || lia). apply prefix_nil.
  - intros v T m [?|(-> & _)] ?; done.
  - intros t' d. case_decide; [congruence|done].
  - done.
  - intros t' d HD. case_decide; [congruence|done].
Qed.

Lemma leader_elected : elected_ok n g' t i.
Proof.
  pose proof (go_ext _ _ _ leader_other) as Hx. pose proof (ok_log _ (nh_ok _ _ _ _ Hnh)) as Hwf.
  destruct (nh_candidate _ _ _ _ Hnh Hrole) as (Hpos & Hterms & HC & _).
  split; rewrite ?leader_log; try (simpl; rewrite ?HC; done).
  - simpl. rewrite HC. apply Hwf.
  - simpl. rewrite HC. intros e He. split; [|by apply Hterms]. by apply (nh_terms _ _ _ _ Hnh).
  - simpl. rewrite HC. intros p e Hp He%lookup_lt_Some. lia.
  - eapply lm_ext; [done|]. by apply (nh_lm _ _ _ _ Hnh).
  - by apply (nh_first _ _ _ _ Hnh).
  - destruct Hq as (Q & HQ & Hs & Hv). exists Q. split_and!; [done..|]. intros v Hin.
    split; [by apply Hv|]. destruct (gi_votes _ _ HG _ _ _ (Hv v Hin)) as [Hok|[d HD]].
    + eapply vote_ok_ext; [exact HG|done|done| |exact Hok]. intros T m [?|(_ & -> & _)]; [done|lia].
    + pose proof leader_fresh. congruence.
  - simpl. auto.
Qed.

Lemma leader_GInv : GInv n g'.
Proof.
  pose proof leader_fresh as Hf. pose proof leader_pos as Hpos.
  apply (GInv_grow n g); simpl; auto.
  - apply leader_other.
  - intros v t' c HV. split; [done|]. intros T m [?|(-> & -> & _)] Ht; [done|].
    apply (ni_votes _ _ _ _ Hni) in HV as [? _]. lia.
  - intros t'. by case_decide.
  - rewrite decide_False by lia. by apply (gi_zero_none n).
  - intros t' d. case_decide as Ht.
    + intros [= <-]. right. rewrite Ht. apply leader_elected.
    + by left.
  - intros v T m [?|(-> & -> & Hm)]; [by left|]. right. rewrite !decide_True by done. split; [by eexists|done].
  - intros v T m m' [Ha|(-> & -> & ?)] ?; [left; by eapply (gi_down n)|]. right. split_and!; done || lia.
Qed.

Lemma leader_node_hist : node_hist n g' i (leader_state rf).
Proof.
  pose proof (go_ext _ _ _ leader_other) as Hx. pose proof leader_log as HL. pose proof leader_pos.
  assert (com n g' t (logs rf) (commitIndex rf)) as Hcom.
  { eapply com_ext; [exact Hx|reflexivity|by apply (nh_com _ _ _ _ Hnh)]. }
  pose proof Hnh as []. split; auto.
  - by apply node_ok_leader.
  - by eapply lm_ext.
  - intros _. simpl in *. rewrite HL, decide_True by done. split_and!; [done..|].
    intros v m [_ [-> _]%lookup_replicate]%index_Some. lia.
  - done.
  - intros T m [Ha|(_ & -> & Hm)].
    + destruct (nh_kept T m Ha) as [? Hk]. split; [done|].
      eapply (kept_ext n g g' i T m _ (currentTerm rf)); done || lia.
    + split; [done|]. left. rewrite HL. apply take_prefix.
  - intros t'. simpl. case_decide as Ht; [intros _; lia|]. apply nh_led.
Qed.
End leader.

(** ** A new entry in the leader's log *)
Definition with_entry (i t : Z) (e : Entry Cmd) g : Ghost Cmd :=
  mkGhost (gV g) (gD g) (gC g) (λ t', if decide (t' = t) then gL g t ++ [e] else gL g t')
    (λ v T m, gA g v T m ∨ v = i ∧ T = t ∧ (m ≤ S (length (gL g t)))%nat).

Lemma lm_snoc g l e : lm g l → gL g (Term e) = l ++ [e] → lm g (l ++ [e]).
Proof.
  intros Hl HL p x. rewrite lookup_app_Some, list_lookup_singleton_Some. intros [Hx|(Hp & Hp0 & <-)].
  - pose proof (lookup_lt_Some _ _ _ Hx). rewrite take_app_le by lia. by apply Hl.
  - by rewrite HL.
Qed.

Section entry.
Context (g : Ghost Cmd) (i : nat) (rf : Raft Cmd) (command : option Cmd).
Hypotheses (HG : GInv n g) (Hnh : node_hist n g i rf) (Hni : node_inv n (gV g) i rf).
Hypothesis Hrole : role rf = LEADER.

#[local] Abbreviation t := (currentTerm rf).
Let e := mkEntry (last_idx (logs rf) + 1) t command.
Let g' := with_entry i t e g.

Lemma entry_leader : gD g t = Some (i : Z) ∧ logs rf = gL g t.
Proof. by destruct (nh_leader _ _ _ _ Hnh Hrole) as (? & ? & _). Qed.

Lemma entry_log : gL g' t = logs rf ++ [e].
Proof. simpl. rewrite decide_True by done. by destruct entry_leader as [_ ->]. Qed.

Lemma entry_other : gother i g g'.
Proof.
  destruct entry_leader as [HD HL]. split; simpl; auto.
  - split; simpl; auto. intros t'. case_decide as Ht; [|done]. rewrite Ht. by apply prefix_app_r.
  - intros v T m [?|(-> & _)] ?; done.
  - intros t' d HD'. case_decide as Ht; [|done]. rewrite Ht in HD'. congruence.
Qed.

Lemma entry_votes_kept : votes_kept g g'.
Proof.
  intros v t' c HV. split; [done|]. intros T m [?|(-> & -> & _)] Ht; [done|].
  apply (ni_votes _ _ _ _ Hni) in HV as [? _]. lia.
Qed.

Lemma entry_lm l : lm g l → lm g' l.
Proof. apply lm_ext, entry_other. Qed.

Lemma entry_elected : elected_ok n g' t i.
Proof.
  destruct entry_leader as [HD HL]. pose proof (go_ext _ _ _ entry_other) as Hx.
  pose proof (gi_elected _ _ HG _ _ HD) as Hel.
  pose proof (ok_log _ (node_ok_start rf command (nh_ok _ _ _ _ Hnh))) as Hwf. simpl in Hwf.
  split; rewrite ?entry_log; try (apply Hel); try done.
  - rewrite HL. apply prefix_app_r, Hel.
  - intros p x Hp. rewrite HL, lookup_app_Some, list_lookup_singleton_Some.
    intros [Hy|(_ & _ & <-)]; [by eapply (eo_new _ _ _ _ Hel)|done].
  - apply lm_snoc; [apply entry_lm; by apply (nh_lm _ _ _ _ Hnh)|apply entry_log].
  - rewrite first_idx_app by (apply (ok_log _ (nh_ok _ _ _ _ Hnh))). by apply (nh_first _ _ _ _ Hnh).
  - destruct (eo_quorum _ _ _ _ Hel) as (Q & HQ & Hs & Hv). exists Q. split_and!; [done..|].
    intros v Hin. destruct (Hv v Hin) as [HV Hok]. split; [done|].
    destruct (entry_votes_kept _ _ _ HV). by eapply vote_ok_ext.
  - simpl. right. rewrite <-HL, length_app. simpl. split_and!; done || lia.
Qed.

Lemma entry_GInv : GInv n g'.
Proof.
  destruct entry_leader as [HD HL]. apply (GInv_grow n g); simpl; auto.
  - apply entry_other.
  - apply entry_votes_kept.
  - intros t' HD'. case_decide as Ht; [congruence|done].
  - by apply (gi_zero_none n).
  - intros t' d HD'. case_decide as Ht; [|by left]. right. rewrite Ht in *.
    assert (d = i) as -> by congruence. apply entry_elected.
  - intros v T m [?|(-> & -> & Hm)]; [by left|]. right. rewrite decide_True by done.
    split; [by eexists|]. rewrite length_app. simpl. lia.
  - intros v T m m' [Ha|(-> & -> & ?)] ?; [left; by eapply (gi_down n)|]. right. split_and!; done || lia.
Qed.

Lemma entry_node_hist : node_hist n g' i (start_state rf command).
Proof.
  destruct entry_leader as [HD HL]. pose proof (go_ext _ _ _ entry_other) as Hx.
  pose proof (ok_log _ (nh_ok _ _ _ _ Hnh)) as [Hne _]. pose proof Hnh as [].
  assert (first_idx (logs rf ++ [e]) = 0) as Hf by by rewrite first_idx_app.
  assert (gL g' t = logs rf ++ [e]) as HL' by apply entry_log.
  split; auto; simpl; fold e.
  - by apply node_ok_start.
  - intros x [?|Hin%list_elem_of_singleton]%elem_of_app; [auto|]. rewrite Hin. simpl. lia.
  - apply lm_snoc; [by apply entry_lm|done].
  - intros _. simpl in HL'. rewrite HL'. split_and!; [done..|]. intros v m Hm Hpos.
    destruct (nh_leader Hrole) as (_ & _ & Ha). left. eauto.
  - rewrite Hrole. done.
  - intros T m [Ha|(_ & -> & Hm)].
    + destruct (nh_kept T m Ha) as [? [Hp|Hk]]; (split; [done|]).
      * left. rewrite (acc_take_ext n g g' i) by done. by apply prefix_app_r.
      * eapply (kept_ext n g g' i T m _ t); [done..|by right].
    + split; [done|]. left. rewrite HL'. apply take_prefix.
  - eapply com_ext; [exact Hx|reflexivity|]. eapply com_prefix; [|done].
    pose proof (ok_commit _ nh_ok) as Hc. rewrite nh_first in Hc. unfold last_idx in Hc.
    rewrite take_app_le; [done|]. rewrite nh_first in Hc. lia.
Qed.
End entry.

Lemma step_start g s (i : nat) rf command r rf' w :
  NInv n g s → nodes (base s) !! i = Some rf → Start command rf = Some (r, rf', w) →
  ∃ g', gext g g' ∧ NInv n g' (sends i w (set_peer i rf' s)).
Proof.
  intros HI Hi Hrun. pose proof (nv_nodes _ _ _ HI _ _ Hi) as Hnh. pose proof (nh_ok _ _ _ _ Hnh) as Hok.
  pose proof (nv_base _ _ _ HI) as Hb. pose proof (nv_ghost _ _ _ HI) as HG.
  pose proof (inv_nodes _ _ _ Hb _ _ Hi) as Hni.
  assert (advance rf rf') as Hadv.
  { apply steps_down_advance, same_steps_down. by apply (Start_same rf command _ _ _ Hrun). }
  assert (rf' = rf ∧ w = [] ∨ role rf = LEADER ∧ rf' = start_state rf command ∧ Forall (effect_ok rf') w)
    as Hcase.
  { eapply (wp_run _ (λ _ rf' w, rf' = rf ∧ w = [] ∨
      role rf = LEADER ∧ rf' = start_state rf command ∧ Forall (effect_ok rf') w)); [exact Hrun|].
    apply wp_Start; [done|by left|]. intros ws Hr Hws. right. split_and!; [done..|].
    by eapply (round_effects (start_state rf command)). }
  assert (nodes (set_node i rf' (base s)) !! i = Some rf') as Hi'.
  { simpl. apply list_lookup_insert_eq. by eapply lookup_lt_Some. }
  destruct Hcase as [[-> ->]|(Hr & -> & Hw)].
  - exists g. split; [done|]. eapply NInv_sends; [|exact Hi'|constructor].
    eapply NInv_advance; try done. by eapply quiet_refl.
  - set (g' := with_entry i (currentTerm rf) (mkEntry (last_idx (logs rf) + 1) (currentTerm rf) command) g).
    pose proof (entry_other g i rf command Hnh Hr) as Hgo. fold g' in Hgo. exists g'.
    split; [apply Hgo|]. eapply NInv_sends; [|exact Hi'|done].
    apply (NInv_base n g g' s _ i rf (start_state rf command)); auto.
    + apply Inv_node; [done|]. by eapply node_inv_advance.
    + by apply entry_GInv.
    + by apply entry_node_hist.
    + done.
    + intros v t j rfj Hne Hj HV. apply (nh_cand _ _ _ _ (nv_nodes _ _ _ HI _ _ Hj) _ _ HV).
    + intros j er Hj. right. by exists er.
Qed.

(** ** Committing *)
Lemma replicas_quorum rf (i : nat) (c : Z) :
  me rf = i → npeers rf = n → (i < n)%nat →
  npeers rf / 2 < 1 + replicas rf c (zrange 0 (npeers rf)) →
  ∃ Q : gset Z, Q ⊆ peer_set n ∧ Z.of_nat (size Q) > n / 2 ∧
    ∀ v : Z, v ∈ Q → v = i ∨ ∃ m, index (matchIndex rf) v = Some m ∧ c ≤ m.
Proof.
  intros Hme Hn Hi Hq. rewrite Hn in Hq. set (l := filter (stored_by rf c) (zrange 0 n)) in *.
  exists ({[ (i : Z) ]} ∪ list_to_set l).
  assert (∀ v, v ∈ l → 0 ≤ v < n ∧ v ≠ i ∧ ∃ m, index (matchIndex rf) v = Some m ∧ c ≤ m) as Hl.
  { intros v. unfold l. rewrite list_elem_of_filter, elem_of_zrange. unfold stored_by. rewrite Hme.
    intros [Hs Hv]. destruct (v =? i) eqn:Hvi; [done|]. destruct (index _ v) as [m|] eqn:Hm; [|done].
    split_and!; [lia..|]. exists m. split; [done|]. apply Is_true_true in Hs. lia. }
  split_and!.
  - intros v. rewrite elem_of_union, elem_of_singleton, elem_of_list_to_set, elem_of_peer_set.
    intros [->|Hv]; [lia|by apply Hl].
  - rewrite size_union, size_singleton, size_list_to_set.
    + unfold replicas in Hq. fold l in Hq. lia.
    + apply NoDup_filter, NoDup_zrange.
    + intros v. rewrite elem_of_singleton, elem_of_list_to_set. intros -> Hv. by apply Hl in Hv as (_ & ? & _).
  - intros v. rewrite elem_of_union, elem_of_singleton, elem_of_list_to_set.
    intros [->|Hv]; [by left|]. right. by apply Hl.
Qed.

(** What a leader commits is stored by a majority while in its term. *)
Lemma committable_committed g (i : nat) rf (c : Z) :
  GInv n g → node_hist n g i rf → node_inv n (gV g) i rf → (i < n)%nat → role rf = LEADER →
  0 < c → committable rf c = true → committed n g (currentTerm rf) (Z.to_nat c) ∧
    logs rf = gL g (currentTerm rf).
Proof.
  intros HG Hnh Hni Hi Hr Hc Hcm. destruct (nh_leader _ _ _ _ Hnh Hr) as (HD & HL & Hm).
  split; [|done]. unfold committable in Hcm. destruct (entryAt (logs rf) c) as [e|] eqn:He; [|done].
  apply andb_true_iff in Hcm as [Ht Hq].
  unfold entryAt in He. rewrite (nh_first _ _ _ _ Hnh), Z.sub_0_r in He. apply index_Some in He as [_ He].
  destruct (replicas_quorum rf i c) as (Q & HQ & Hs & Hv);
    [apply (ni_me _ _ _ _ Hni)|apply (ni_n _ _ _ _ Hni)|done|lia|].
  split; [|exists e; rewrite <-HL; split; [done|lia]].
  exists Q. split_and!; [done|done|]. intros v Hin. destruct (Hv v Hin) as [->|(m & Hmv & Hle)].
  - eapply (gi_down n g HG); [apply (eo_stored _ _ _ _ (gi_elected _ _ HG _ _ HD))|].
    rewrite <-HL. apply lookup_lt_Some in He. lia.
  - eapply (gi_down n g HG); [apply (Hm v m Hmv); lia|lia].
Qed.

Lemma commit_node_hist g (i : nat) rf (c : Z) :
  GInv n g → node_hist n g i rf → node_inv n (gV g) i rf → (i < n)%nat → role rf = LEADER →
  commit_choice rf c → node_hist n g i (set_commitIndex c rf).
Proof.
  intros HG Hnh Hni Hi Hr [[->|[Hc Hcm]] _]; [by rewrite commit_self|].
  pose proof (ok_commit _ (nh_ok _ _ _ _ Hnh)) as Hci. rewrite (nh_first _ _ _ _ Hnh) in Hci.
  destruct (committable_committed g i rf c) as [Hcom HL]; try done; [lia|].
  pose proof Hnh as []. split; auto.
  - apply node_ok_commit; [simpl; lia|done].
  - right. exists (currentTerm rf), (Z.to_nat c). simpl. rewrite HL. split_and!; done || lia.
Qed.

(** The leader's bookkeeping only records what was stored. *)
Lemma noted_node_hist g (i : nat) rf ac reply rf1 :
  node_hist n g i rf → append_hist n g ac → ac_reply ac = Some reply →
  ae_Term (ac_args ac) = currentTerm rf → node_ok rf1 →
  reply_noted rf (ac_to ac) (ac_args ac) reply rf1 → node_hist n g i rf1.
Proof.
  intros Hnh Hah Hre Ht Hok1 (nx & mi & -> & Hmi). pose proof Hnh as []. split; auto.
  intros Hr. destruct (nh_leader Hr) as (HD & HL & Hm). split_and!; [done..|]. simpl.
  intros v m Hv Hpos. destruct Hmi as [->|(Hs & m0 & Hm0 & ->)]; [by apply Hm|].
  pose proof (ah_to _ _ _ Hah). pose proof (ah_pos _ _ _ Hah).
  pose proof (index_lt_Some _ _ _ Hm0). pose proof (index_lt_Some _ _ _ Hv) as Hvr.
  rewrite index_insert in Hv by lia. case_decide as Hv'; [|by apply Hm].
  injection Hv as <-. rewrite <-Hv'.
  destruct (Z.max_spec m0 (ae_PrevLogIndex (ac_args ac) + zlen (ae_Entries (ac_args ac)))) as [[_ Hx]|[_ Hx]];
    rewrite Hx in *; [|by apply Hm].
  destruct (ah_reply _ _ _ Hah _ Hre) as (Hacc & _). specialize (Hacc Hs). rewrite Ht in Hacc.
  unfold upto in Hacc. by replace (Z.to_nat _ + 1)%nat with
    (Z.to_nat (ae_PrevLogIndex (ac_args ac)) + 1 + length (ae_Entries (ac_args ac)))%nat by lia.
Qed.

(** Replies to a leader's request point into its log. *)
Lemma append_reply_ok g (i : nat) rf ac reply :
  node_hist n g i rf → node_inv n (gV g) i rf → append_hist n g ac → ac_reply ac = Some reply →
  reply_ok rf (ac_to ac) (ac_args ac) reply.
Proof.
  intros Hnh Hni Hah Hre. pose proof (ah_to _ _ _ Hah). rewrite <-(ni_n _ _ _ _ Hni) in *.
  split_and!; [lia|lia| |].
  - intros Hr Ht. destruct (nh_leader _ _ _ _ Hnh Hr) as (_ & HL & _). rewrite <-Ht in HL.
    destruct (ah_prev _ _ _ Hah) as (x & Hx%lookup_lt_Some & _). pose proof (ah_pos _ _ _ Hah).
    pose proof (f_equal length (ah_slice _ _ _ Hah)) as Hs. rewrite length_take, length_drop in Hs.
    destruct (ah_reply _ _ _ Hah _ Hre) as (_ & Hxl & Hxi).
    unfold last_idx. rewrite (nh_first _ _ _ _ Hnh), HL. split_and!; [lia|intros Hx1; specialize (Hxl Hx1); lia|lia].
  - intros _ _. left. by rewrite (nh_first _ _ _ _ Hnh).
Qed.

Lemma step_append_reply g s k ac reply rf rf' w :
  NInv n g s → appends s !! k = Some (Some ac) → ac_reply ac = Some reply →
  nodes (base s) !! ac_from ac = Some rf →
  sendAppendEntryAndUpdate (ac_to ac) (ac_args ac) (Some reply) rf = Some (tt, rf', w) →
  NInv n g (set_append k None (set_peer (ac_from ac) rf' s)).
Proof.
  intros HI Hk Hre Hi Hrun. set (i := ac_from ac) in *. apply NInv_append; [|done].
  pose proof (nv_appends _ _ _ HI _ _ Hk) as Hah. pose proof (nv_base _ _ _ HI) as Hb.
  pose proof (nv_nodes _ _ _ HI _ _ Hi) as Hnh. pose proof (nh_ok _ _ _ _ Hnh) as Hok.
  pose proof (inv_nodes _ _ _ Hb _ _ Hi) as Hni. pose proof (nv_ghost _ _ _ HI) as HG.
  assert (i < n)%nat as Hin by (rewrite <-(inv_len _ _ _ Hb); by eapply lookup_lt_Some).
  assert (advance rf rf') as Hadv.
  { apply steps_down_advance. by apply (sendAppendEntryAndUpdate_steps_down rf _ _ _ _ _ _ Hrun). }
  assert (reply_outcome rf (ac_to ac) (ac_args ac) (Some reply) rf') as Ho.
  { eapply (wp_run _ (λ _ rf' _, reply_outcome rf (ac_to ac) (ac_args ac) (Some reply) rf')); [exact Hrun|].
    apply wp_sendAppendEntryAndUpdate; [done| |done]. intros ? [= <-]. by eapply append_reply_ok. }
  inversion Ho as [|? Hlt|? Hne|? rf1 c Ht Hok1 Hnoted Hl Hnl]; subst.
  - eapply NInv_advance; try done. by eapply quiet_newTerm.
  - eapply NInv_advance; try done. by eapply quiet_refl.
  - pose proof (noted_node_hist g i rf ac reply rf1 Hnh Hah Hre Ht Hok1 Hnoted) as Hnh1.
    destruct Hnoted as (nx & mi & -> & _).
    apply (NInv_base n g g s _ i rf (set_commitIndex c (set_matchIndex mi (set_nextIndex nx rf)))); auto.
    + apply Inv_node; [done|]. by eapply node_inv_advance.
    + done.
    + destruct (decide (role rf = LEADER)) as [Hr|Hr].
      * apply commit_node_hist; auto. by destruct Hni.
      * rewrite (Hnl Hr). by destruct Hnh1.
    + done.
    + intros v t j rfj Hne Hj HV. apply (nh_cand _ _ _ _ (nv_nodes _ _ _ HI _ _ Hj) _ _ HV).
    + intros j er Hj. right. by exists er.
Qed.

(** ** Snapshots: the log starts at 0, so their index is 0 and they change nothing *)
Lemma step_install g s k ic rf reply rf' w :
  NInv n g s → installs s !! k = Some (Some ic) → nodes (base s) !! Z.to_nat (ic_to ic) = Some rf →
  InstallSnapshot (ic_args ic) rf = Some (reply, rf', w) →
  new_msgs w = [] ∧
  NInv n g (set_install k (Some (mkIC (ic_from ic) (ic_live ic) (ic_to ic) (ic_args ic) (Some reply)))
              (deliver (Z.to_nat (ic_to ic)) (new_msgs w) (set_peer (Z.to_nat (ic_to ic)) rf' s))).
Proof.
  intros HI Hk Hi Hrun. pose proof (nv_installs _ _ _ HI _ _ Hk) as Hih. set (i := Z.to_nat (ic_to ic)) in *.
  pose proof (nv_nodes _ _ _ HI _ _ Hi) as Hnh. pose proof (nh_ok _ _ _ _ Hnh) as Hok.
  assert (advance rf rf') as Hadv.
  { apply steps_down_advance. by apply (InstallSnapshot_steps_down rf _ _ _ _ Hrun). }
  pose proof (ok_commit _ Hok) as Hc. rewrite (nh_first _ _ _ _ Hnh) in Hc.
  assert ((rf' = rf ∨ rf' = is_state rf (ic_args ic)) ∧ new_msgs w = []) as [Hrf' ->].
  { eapply (wp_run _ (λ _ rf' w, (rf' = rf ∨ rf' = is_state rf (ic_args ic)) ∧ new_msgs w = [])); [exact Hrun|].
    apply wp_InstallSnapshot; [by auto|by auto|]. intros _ Hlt. rewrite (ih_zero _ _ Hih) in Hlt. lia. }
  split; [done|]. apply NInv_install; [|intros ? [= <-]; by destruct Hih].
  apply NInv_deliver; [|by intros ? ?%elem_of_nil].
  assert (quiet rf rf' ∧ commitIndex rf' = commitIndex rf) as [Hq Hci].
  { destruct Hrf' as [->| ->]; [split; [by eapply quiet_refl|done]|]. unfold is_state. case_match.
    - split; [eapply quiet_newTerm; [done|lia]|done].
    - split; [by eapply quiet_refl|done]. }
  by eapply NInv_advance.
Qed.

Lemma step_install_reply g s k ic reply rf rf' w :
  NInv n g s → installs s !! k = Some (Some ic) → nodes (base s) !! ic_from ic = Some rf →
  sendInstallSnapshotAndUpdate (ic_to ic) (ic_args ic) (Some reply) rf = Some (tt, rf', w) →
  NInv n g (set_install k None (set_peer (ic_from ic) rf' s)).
Proof.
  intros HI Hk Hi Hrun. pose proof (nv_installs _ _ _ HI _ _ Hk) as Hih. set (i := ic_from ic) in *.
  pose proof (nv_nodes _ _ _ HI _ _ Hi) as Hnh. pose proof (nh_ok _ _ _ _ Hnh) as Hok.
  pose proof (inv_nodes _ _ _ (nv_base _ _ _ HI) _ _ Hi) as Hni.
  pose proof (ih_to _ _ Hih) as Hto. rewrite <-(ni_n _ _ _ _ Hni) in Hto.
  assert (advance rf rf') as Hadv.
  { apply steps_down_advance. by apply (sendInstallSnapshotAndUpdate_steps_down rf _ _ _ _ _ _ Hrun). }
  assert (node_ok rf' ∧ rf' = snap_noted rf (ic_to ic) (ic_args ic) reply) as [Hok' Hrf'].
  { eapply (wp_run _ (λ _ rf' _, node_ok rf' ∧ rf' = snap_noted rf (ic_to ic) (ic_args ic) reply)); [exact Hrun|].
    eapply wp_mono; [apply wp_and; [apply sendInstallSnapshotAndUpdate_node; [done|exact Hto|]|
      by apply (wp_sendInstallSnapshotAndUpdate _ _ _ _ (λ _ rf' _, rf' = snap_noted rf (ic_to ic) (ic_args ic) reply))]|].
    - intros _. pose proof (log_wf_length _ (ok_log _ Hok)).
      rewrite (ih_zero _ _ Hih). unfold last_idx. rewrite (nh_first _ _ _ _ Hnh). lia.
    - by intros [] ? ? [[? _] ?]. }
  apply NInv_install; [|done]. pose proof (ok_match _ Hok). pose proof (ok_commit _ Hok) as Hci.
  rewrite (nh_first _ _ _ _ Hnh) in Hci. pose proof (nh_applied _ _ _ _ Hnh).
  assert (logs rf' = logs rf ∧ commitIndex rf' = commitIndex rf ∧ LastApplied rf' = LastApplied rf)
    as (Hl & Hc & Ha) by (rewrite Hrf'; unfold snap_noted; by case_match).
  eapply NInv_advance; [done|done|done|].
  split; try done; try lia; rewrite Hrf'; unfold snap_noted; cbn zeta.
  - case_match; simpl; lia.
  - case_match; simpl; [done|]. intros Hr. split_and!; [done..|]. intros v m Hv Hpos.
    pose proof (index_lt_Some _ _ _ Hv). rewrite index_insert in Hv by lia.
    case_decide; [|done]. rewrite (ih_zero _ _ Hih) in Hv. injection Hv as <-. lia.
  - by case_match.
Qed.

(** ** The reply goroutine of an election *)
Lemma step_vote_reply g s k vc er rf reply el' rf' w :
  NInv n g s → calls (base s) !! k = Some (Some vc) → elections (base s) !! vc_el vc = Some er →
  vc_reply vc = Some reply → rvr_Term reply ≤ rv_Term (el_args (er_el er)) →
  nodes (base s) !! er_owner er = Some rf → voteReply (er_el er) (Some reply) rf = Some (el', rf', w) →
  ∃ g', gext g g' ∧
    NInv n g' (sends (er_owner er) w (set_base (set_call k None
      (set_election (vc_el vc) (mkER (er_owner er) true el')
        (set_node (er_owner er) rf' (base s)))) s)).
Proof.
  intros HI Hk Her Hre Hle Hi Hrun. set (i := er_owner er) in *.
  pose proof (nv_nodes _ _ _ HI _ _ Hi) as Hnh. pose proof (nh_ok _ _ _ _ Hnh) as Hok.
  pose proof (nv_base _ _ _ HI) as Hb. pose proof (nv_ghost _ _ _ HI) as HG.
  pose proof (inv_nodes _ _ _ Hb _ _ Hi) as Hni.
  pose proof (step_reply n _ _ _ _ _ _ _ _ _ _ Hb Hk Her Hre Hle Hi Hrun) as Hb'. fold i in Hb'.
  assert (el_args el' = el_args (er_el er)) as Hargs
    by (by destruct (wlp_voteReply rf (er_el er) reply Hle _ _ _ Hrun) as [? _]).
  assert (vote_outcome rf (er_el er) (Some reply) el' rf' ∧ round_sent rf' w) as [Ho Hw].
  { eapply (wp_run _ (λ el' rf' w, vote_outcome rf (er_el er) (Some reply) el' rf' ∧ round_sent rf' w));
      [exact Hrun|]. by apply wp_voteReply. }
  set (c' := set_call k None _) in *.
  assert (nodes c' = <[i := rf']> (nodes (base s))) as Hc' by done.
  assert (nodes c' !! i = Some rf') as Hi'.
  { rewrite Hc'. apply list_lookup_insert_eq. by eapply lookup_lt_Some. }
  assert (∀ j er', elections c' !! j = Some er' → ∃ er0, elections (base s) !! j = Some er0 ∧
    er_owner er' = er_owner er0 ∧ el_args (er_el er') = el_args (er_el er0)) as Hel.
  { intros j er'. simpl. rewrite list_lookup_insert_Some.
    intros [(<- & <- & _)|(_ & ?)]; [by exists er|by exists er']. }
  assert (quiet rf rf' → ∃ g', gext g g' ∧ NInv n g' (sends i w (set_base c' s))) as Hquiet.
  { intros Hq. exists g. split; [done|]. eapply NInv_sends; [|exact Hi'|by apply round_sent_effects].
    eapply (NInv_quiet n g s c' i rf rf'); auto. }
  inversion Ho as [|? ?|? ?|? once ? ?|? ? ? ? ? Hrole ?]; subst; try lia.
  - apply Hquiet. by eapply quiet_refl.
  - apply Hquiet. by eapply quiet_refl.
  - pose proof (ni_leader _ _ _ _ (inv_nodes _ _ _ Hb' _ _ Hi') eq_refl) as Hq. simpl in Hq.
    set (g' := with_leader i (currentTerm rf) (logs rf) g).
    pose proof (leader_other g i rf (base s) HG Hnh Hb Hrole Hq) as Hgo. fold g' in Hgo.
    exists g'. split; [apply Hgo|]. eapply NInv_sends; [|exact Hi'|by apply round_sent_effects].
    apply (NInv_base n g g' s c' i rf (leader_state rf)); auto.
    + by eapply leader_GInv.
    + by eapply leader_node_hist.
    + done.
    + intros v t j rfj Hne Hj HV. apply (nh_cand _ _ _ _ (nv_nodes _ _ _ HI _ _ Hj) _ _ HV).
Qed.

(** ** The applier, crashes *)
Lemma take_entries g (i : nat) rf es ci rf' w :
  node_hist n g i rf → applierTake rf = Some ((es, ci), rf', w) →
  ci = commitIndex rf ∧ contiguous (LastApplied rf + 1) es ∧
  zlen es = commitIndex rf - LastApplied rf ∧
  ∀ msg, msg ∈ applierMsgs es → msg_hist n g msg.
Proof.
  intros Hnh Hrun. pose proof (nh_ok _ _ _ _ Hnh) as Hok. pose proof (nh_applied _ _ _ _ Hnh) as Ha.
  pose proof (nh_first _ _ _ _ Hnh) as Hf.
  assert (ci = commitIndex rf ∧ contiguous (LastApplied rf + 1) es ∧
    zlen es = commitIndex rf - LastApplied rf ∧
    ∀ j, LastApplied rf < j ≤ commitIndex rf →
      entryAt (logs rf) j = es !! Z.to_nat (j - LastApplied rf - 1)) as (-> & Hcont & Hlen & Hes).
  { eapply (wp_run _ (λ b _ _, b.2 = commitIndex rf ∧ contiguous (LastApplied rf + 1) b.1 ∧
      zlen b.1 = commitIndex rf - LastApplied rf ∧ ∀ j, LastApplied rf < j ≤ commitIndex rf →
      entryAt (logs rf) j = b.1 !! Z.to_nat (j - LastApplied rf - 1)) rf (es, ci)); [exact Hrun|].
    apply wp_applierTake; [done|lia|]. done. }
  split_and!; [done..|]. intros msg (e & -> & He)%list_elem_of_fmap.
  apply list_elem_of_lookup in He as [q Hq].
  pose proof (lookup_lt_Some _ _ _ Hq). pose proof (Hcont _ _ Hq) as Hidx.
  specialize (Hes (Index e) ltac:(lia)).
  replace (Z.to_nat (Index e - LastApplied rf - 1)) with q in Hes by lia. rewrite Hq in Hes.
  unfold entryAt in Hes. rewrite Hf, Z.sub_0_r in Hes. apply index_Some in Hes as [_ Hes].
  destruct (nh_com _ _ _ _ Hnh) as [?|(T & i0 & Hcom & HT & Hc & Heq)]; [lia|].
  exists T, i0, e. simpl. split_and!; [done|lia|lia| |done].
  rewrite <-(take_eq_lookup _ _ _ (Z.to_nat (Index e)) Heq) by lia. done.
Qed.

Lemma step_take g s (i : nat) rf es ci rf' w :
  NInv n g s → nodes (base s) !! i = Some rf → applierTake rf = Some ((es, ci), rf', w) →
  NInv n g (deliver i (applierMsgs es) (set_batch i (Some (es, ci)) s)).
Proof.
  intros HI Hi Hrun. apply NInv_deliver; [by apply NInv_batch|].
  by destruct (take_entries g i rf es ci rf' w (nv_nodes _ _ _ HI _ _ Hi) Hrun) as (_ & _ & _ & ?).
Qed.

Lemma step_done g s (i : nat) rf ci rf' w :
  NInv n g s → nodes (base s) !! i = Some rf → ci ≤ commitIndex rf →
  applierDone ci rf = Some (tt, rf', w) → NInv n g (set_batch i None (set_peer i rf' s)).
Proof.
  intros HI Hi Hci Hrun. pose proof (nv_nodes _ _ _ HI _ _ Hi) as Hnh.
  pose proof (nh_ok _ _ _ _ Hnh) as Hok. pose proof (nh_applied _ _ _ _ Hnh).
  pose proof (ok_applied _ Hok).
  pose proof (ok_commit _ Hok) as Hc. rewrite (nh_first _ _ _ _ Hnh) in Hc.
  unfold applierDone, modify in Hrun. simplify_eq. rewrite max_Zmax.
  apply NInv_batch. eapply NInv_advance; [done|done|..].
  - apply steps_down_advance, same_steps_down. auto with term.
  - split; simpl; auto; try lia. apply node_ok_applied; [lia|done].
Qed.

Lemma step_restart g s (i : nat) rf rf' :
  NInv n g s → nodes (base s) !! i = Some rf → Make (npeers rf) (me rf) (persister rf) = Some rf' →
  NInv n g (crash i (set_base (kill_elections i (set_node i rf' (base s))) s)).
Proof.
  intros HI Hi Hrun. pose proof (nv_nodes _ _ _ HI _ _ Hi) as Hnh. pose proof (nh_ok _ _ _ _ Hnh) as Hok.
  pose proof (nv_base _ _ _ HI) as Hb.
  change (crash i (set_base ?c s)) with (set_base c (crash i s)).
  destruct (make_ok rf Hok) as (rf'' & Hrun' & [Hok' _]). rewrite Hrun in Hrun'. simplify_eq.
  pose proof (Make_advance _ _ (ok_durable _ Hok) Hrun) as Hadv.
  rewrite Make_durable in Hrun by (apply Hok). injection Hrun as Hrf'.
  assert (quiet rf rf'') as Hq.
  { pose proof (ok_commit _ Hok) as Hc. pose proof (nh_first _ _ _ _ Hnh) as Hf. rewrite Hf in Hc.
    split; try done; subst rf''; simpl; lia || done. }
  apply (NInv_quiet n g (crash i s) _ i rf rf''); auto.
  - by apply NInv_crash.
  - apply Inv_kill, Inv_node; [done|]. eapply node_inv_advance; [|done]. by eapply inv_nodes.
  - intros j er. simpl. rewrite list_lookup_fmap_Some. intros (er0 & -> & Hj). exists er0.
    split; [done|]. by case_decide.
Qed.
End steps.
