(* ===== verification/RaftReach.v ===== *)
(** * The reachable states of a replicating cluster

    The steps of [RaftNetSteps] and [RaftNetLead] put together, with what the appliers have put on
    their channels: every state a cluster reaches has a history ([reachable_inv]), and every action
    that can be taken runs to its end. *)
From S2P Require Import Prelude Raft RaftLog RaftNode RaftVote RaftReplicate RaftLeader RaftSnapshot.
From S2P Require Import RaftProc RaftTerm RaftElection RaftNet RaftGhost RaftNetInv RaftNetSteps RaftNetLead.

#[local] Arguments voteReply : simpl never.
#[local] Arguments sendAppendEntryAndUpdate : simpl never.
#[local] Arguments sendInstallSnapshotAndUpdate : simpl never.
#[local] Arguments applierDone : simpl never.
#[local] Arguments Make : simpl never.

Section reach.
#[local] Coercion Z.of_nat : nat >-> Z.
Context {Cmd : Type} `{CodecLaws (hard_state Cmd)} (n : nat).
Implicit Types (rf : Raft Cmd) (g : Ghost Cmd) (s : Net Cmd).

(** Peers that do nothing but hand something on. *)
Lemma step_heartbeat g s (i : nat) rf r rf' w :
  NInv n g s → nodes (base s) !! i = Some rf → tickerHeartbeat rf = Some (r, rf', w) →
  NInv n g (sends i w (set_peer i rf' s)).
Proof.
  intros HI Hi Hrun. pose proof (nv_nodes _ _ _ HI _ _ Hi) as Hnh. pose proof (nh_ok _ _ _ _ Hnh) as Hok.
  assert (rf' = rf ∧ round_sent rf w) as [-> Hw].
  { eapply (wp_run _ (λ _ rf' w, rf' = rf ∧ round_sent rf w)); [exact Hrun|]. by apply wp_tickerHeartbeat. }
  eapply NInv_sends; [| |by apply round_sent_effects].
  - eapply NInv_advance; try done; [|by eapply quiet_refl].
    by apply steps_down_advance, same_steps_down.
  - simpl. apply list_lookup_insert_eq. by eapply lookup_lt_Some.
Qed.

Lemma step_kill g s (i : nat) rf :
  NInv n g s → nodes (base s) !! i = Some rf → NInv n g (sends i [] (set_peer i (set_dead 1 rf) s)).
Proof.
  intros HI Hi. pose proof (nv_nodes _ _ _ HI _ _ Hi) as Hnh. pose proof (nh_ok _ _ _ _ Hnh) as Hok.
  eapply NInv_sends; [| |constructor].
  - eapply NInv_advance; try done; [by apply steps_down_advance, same_steps_down; auto with term|].
    eapply quiet_intro; try done; [by apply node_ok_dead|]. left. auto.
  - simpl. apply list_lookup_insert_eq. by eapply lookup_lt_Some.
Qed.

Lemma step_lose_vote g s k vc :
  NInv n g s → calls (base s) !! k = Some (Some vc) → NInv n g (set_base (set_call k None (base s)) s).
Proof.
  intros HI Hk. pose proof (Inv_call n _ _ k vc None (nv_base _ _ _ HI) Hk I) as Hb.
  destruct HI. split; simpl; auto. intros j er Hj. by destruct (nv_elections j er Hj).
Qed.

Lemma sends_nil (i : nat) s : sends i [] s = s.
Proof. destruct s. unfold sends. simpl. by rewrite !app_nil_r. Qed.

(** ** The applier

    The messages on the channel of the running process are those of the entries from 1 up to what it
    has taken, each committed. *)
Definition applier_hist g rf (b : option (list (Entry Cmd) * Z)) (ch : list (ApplyMsg Cmd)) : Prop :=
  match b with
  | Some (_, ci) => LastApplied rf ≤ ci ≤ commitIndex rf ∧ zlen ch = ci
  | None => zlen ch = LastApplied rf
  end ∧ ∀ (k : nat) msg, ch !! k = Some msg → CommandIndex msg = k + 1 ∧ msg_hist n g msg.

Definition Applier g s : Prop :=
  (length (channel s) = length (nodes (base s)) ∧ length (batches s) = length (nodes (base s))) ∧
  ∀ i rf b ch, nodes (base s) !! i = Some rf → batches s !! i = Some b → channel s !! i = Some ch →
    applier_hist g rf b ch.

Definition SInv g s : Prop := NInv n g s ∧ Applier g s.

Lemma applier_hist_ext g g' rf rf' b ch :
  gext g g' → LastApplied rf' = LastApplied rf → commitIndex rf ≤ commitIndex rf' →
  applier_hist g rf b ch → applier_hist g' rf' b ch.
Proof.
  intros Hx Ha Hc [Hb Hm]. split.
  - destruct b as [[es ci]|]; rewrite Ha; [|done]. destruct Hb. split; [lia|done].
  - intros k msg Hk. destruct (Hm k msg Hk). split; [done|]. by eapply msg_hist_ext.
Qed.

(** A step of peer [i] that is not its applier's. *)
Lemma Applier_peer g g' s s' (i : nat) rf rf' :
  Applier g s → gext g g' → nodes (base s) !! i = Some rf →
  nodes (base s') = <[i := rf']> (nodes (base s)) → batches s' = batches s → channel s' = channel s →
  keeps rf rf' → Applier g' s'.
Proof.
  intros [HL HA] Hx Hi Hn Hb Hch (_ & _ & _ & Ha & Hc). split; [by rewrite Hn, Hb, Hch, length_insert|].
  intros j rfj b ch. rewrite Hn, Hb, Hch. rewrite list_lookup_insert_Some. intros [(<- & <- & _)|(_ & Hj)] Hbj Hchj.
  - apply (applier_hist_ext g g' rf rf'); auto. by eapply HA.
  - apply (applier_hist_ext g g' rfj rfj); auto; [lia|]. by eapply HA.
Qed.

Lemma SInv_peer g g' s s' (i : nat) rf rf' :
  SInv g s → gext g g' → NInv n g' s' → nodes (base s) !! i = Some rf → keeps rf rf' →
  nodes (base s') = <[i := rf']> (nodes (base s)) → batches s' = batches s → channel s' = channel s →
  ∃ g', gext g g' ∧ SInv g' s'.
Proof. intros [_ HA] Hx HI' Hi Hk Hn Hb Hch. exists g'. split; [done|]. split; [done|]. by eapply Applier_peer. Qed.

Lemma SInv_same g s s' :
  SInv g s → NInv n g s' → nodes (base s') = nodes (base s) → batches s' = batches s →
  channel s' = channel s → ∃ g', gext g g' ∧ SInv g' s'.
Proof.
  intros [_ [HL HA]] HI' Hn Hb Hch. exists g. split; [done|]. split; [done|]. split; [by rewrite Hn, Hb, Hch|].
  intros j rf b ch. rewrite Hn, Hb, Hch. apply HA.
Qed.

Lemma SInv_take g s (i : nat) rf es ci rf' w :
  SInv g s → nodes (base s) !! i = Some rf → mjoin (batches s !! i) = None →
  applierTake rf = Some ((es, ci), rf', w) →
  SInv g (deliver i (applierMsgs es) (set_batch i (Some (es, ci)) s)).
Proof.
  intros [HI [HL HA]] Hi Hb Hrun. split; [by eapply step_take|]. split; [by simpl; rewrite length_alter, length_insert|]. pose proof (nv_nodes _ _ _ HI _ _ Hi) as Hnh.
  destruct (take_entries n g i rf es ci rf' w Hnh Hrun) as (-> & Hcont & Hlen & Hmsgs).
  intros j rfj b ch Hj. simpl. rewrite list_lookup_insert_Some. intros [(<- & <- & Hlt)|(Hne & Hbj)] Hch.
  - rewrite list_lookup_alter_eq, fmap_Some in Hch. destruct Hch as (old & Hold & ->). simpl in Hj. simplify_eq.
    destruct (lookup_lt_is_Some_2 _ _ Hlt) as [b Hbi]. rewrite Hbi in Hb. simpl in Hb. subst b.
    destruct (HA _ _ _ _ Hi Hbi Hold) as [Hl Hm]. pose proof (ok_applied _ (nh_ok _ _ _ _ Hnh)).
    assert (length (applierMsgs es) = length es) as Hml by apply length_fmap.
    split; [rewrite length_app; lia|]. intros k msg. rewrite lookup_app_Some.
    intros [?|[Hge Hk]]; [by apply Hm|]. split; [|by apply Hmsgs; eapply list_elem_of_lookup_2].
    apply list_lookup_fmap_Some in Hk as (e & -> & He). simpl. rewrite (Hcont _ _ He). lia.
  - rewrite list_lookup_alter_ne in Hch by done. by eapply HA.
Qed.

Lemma SInv_done g s (i : nat) rf es ci rf' w :
  SInv g s → nodes (base s) !! i = Some rf → batches s !! i = Some (Some (es, ci)) →
  applierDone ci rf = Some (tt, rf', w) →
  SInv g (set_batch i None (set_peer i rf' s)).
Proof.
  intros [HI [[HL HL'] HA]] Hi Hb Hrun. pose proof (lookup_lt_Some _ _ _ Hi).
  destruct (lookup_lt_is_Some_2 (channel s) i) as [ch Hch]; [lia|].
  destruct (HA _ _ _ _ Hi Hb Hch) as [[Hci Hlen] Hm].
  split; [apply (step_done n g s i rf ci rf' w); auto; lia|].
  unfold applierDone, modify in Hrun. simplify_eq. rewrite max_Zmax.
  split; [by simpl; rewrite !length_insert|]. intros j rfj b chj. simpl. rewrite !list_lookup_insert_Some.
  intros [(<- & <- & _)|(Hne & Hj)] [(? & <- & _)|(? & Hbj)] Hchj; simplify_eq.
  - split; [simpl; lia|done].
  - by eapply HA.
Qed.

Lemma SInv_restart g s (i : nat) rf rf' :
  SInv g s → nodes (base s) !! i = Some rf → Make (npeers rf) (me rf) (persister rf) = Some rf' →
  SInv g (crash i (set_base (kill_elections i (set_node i rf' (base s))) s)).
Proof.
  intros [HI [HL HA]] Hi Hrun. split; [by eapply step_restart|]. split; [by simpl; rewrite !length_insert|].
  pose proof (nv_nodes _ _ _ HI _ _ Hi) as Hnh. pose proof (nh_ok _ _ _ _ Hnh) as Hok.
  rewrite Make_durable in Hrun by (apply Hok).
  pose proof (nh_first _ _ _ _ Hnh) as Hf. intros j rfj b ch. simpl. rewrite !list_lookup_insert_Some.
  intros [(<- & <- & _)|(Hne & Hj)] [(? & <- & _)|(? & Hbj)] [(? & <- & _)|(? & Hchj)]; try done.
  - split; [|done]. injection Hrun as <-. simpl. by rewrite Hf.
  - by eapply HA.
Qed.

(** The history before anything happened. *)
Definition ghost_init : Ghost Cmd :=
  mkGhost (λ _ _ _, False) (λ _, None) (λ _ _, [])
    (λ t, if decide (t = 0) then [mkEntry 0 0 None] else []) (λ _ _ _, False).

Lemma net_init_NInv : NInv n ghost_init (net_init n).
Proof.
  split; simpl; try done.
  - apply init_Inv.
  - split; simpl; try done. intros t _ Hne. by rewrite decide_False.
  - intros i rf. rewrite list_lookup_fmap_Some. intros (j & -> & [-> Hj]%lookup_seq).
    split; simpl; try done.
    + apply (fresh_ok n i). lia.
    + intros e ->%list_elem_of_singleton. simpl. lia.
    + intros p e. rewrite list_lookup_singleton_Some. intros [-> <-]. done.
    + by left.
  - intros i msgs msg [-> _]%lookup_replicate. by intros ?%elem_of_nil.
Qed.

Lemma net_init_SInv : SInv ghost_init (net_init n).
Proof.
  split; [apply net_init_NInv|]. split; [simpl; by rewrite !length_replicate, length_fmap, length_seq|].
  intros i rf b ch. simpl. rewrite list_lookup_fmap_Some, !lookup_replicate.
  intros (j & -> & _) [-> _] [-> _]. done.
Qed.

(** A critical section that ran kept what [keeps] says, when it always does. *)
Lemma run_keeps {A} (m : M (Raft Cmd) (Effect Cmd) A) rf a rf' w :
  m rf = Some (a, rf', w) → wp m (λ _ rf' _, node_ok rf' ∧ keeps rf rf') rf → keeps rf rf'.
Proof. intros Hrun Hwp. by destruct (wp_run m _ rf a rf' w Hrun Hwp). Qed.

(** Every step keeps the invariant, with a history that only grows: elections, *)
Lemma vote_step g s s' a :
  SInv g s → net_rolls_back s a = false → nexec s a = Some s' →
  (∃ i, a = NTimeout i) ∨ (∃ k, a = NDeliverVote k ∨ a = NVoteReply k ∨ a = NLoseVote k) →
  ∃ g', gext g g' ∧ SInv g' s'.
Proof.
  intros HS Hf Hex Ha. pose proof (proj1 HS) as HI. pose proof (nv_nodes _ _ _ HI) as Hnh.
  destruct Ha as [[i ->]|[k [->|[->| ->]]]]; unfold nexec, exec in Hex; simpl in Hex.
  - destruct (nodes (base s) !! i) as [rf|] eqn:Hi; simplify_eq/=.
    destruct (tickerElection rf) as [[[el rf'] w]|] eqn:Hrun; simplify_eq/=.
    destruct (step_candidate n _ _ _ _ _ _ _ HI Hi Hrun) as (g' & Hx & HI').
    eapply SInv_peer; eauto. eapply run_keeps; [done|]. by eapply tickerElection_node, nh_ok, Hnh.
  - destruct (calls (base s) !! k) as [[vc|]|] eqn:Hk; simplify_eq/=.
    destruct (elections (base s) !! vc_el vc) as [er|] eqn:Her; simplify_eq/=.
    destruct (vc_reply vc); simplify_eq/=.
    destruct (nodes (base s) !! Z.to_nat (vc_to vc)) as [rf|] eqn:Hi; simplify_eq/=.
    destruct (RequestVote _ rf) as [[[reply rf'] w]|] eqn:Hrun; simplify_eq/=.
    destruct (step_vote n _ _ _ _ _ _ _ _ _ HI Hk Her Hi Hrun) as (g' & Hx & HI').
    eapply SInv_peer; eauto. eapply run_keeps; [done|]. by eapply RequestVote_node, nh_ok, Hnh.
  - unfold vote_sends in Hex. unfold net_rolls_back, rolls_back in Hf. simpl in Hf.
    destruct (calls (base s) !! k) as [[vc|]|] eqn:Hk; simplify_eq/=.
    destruct (elections (base s) !! vc_el vc) as [er|] eqn:Her; simplify_eq/=.
    destruct (vc_reply vc) as [reply|] eqn:Hre; simplify_eq/=.
    destruct (er_live er) eqn:Hlive; simplify_eq/=.
    + destruct (nodes (base s) !! er_owner er) as [rf|] eqn:Hi; simplify_eq/=.
      unfold run_effects in Hex.
      destruct (voteReply _ _ rf) as [[[el' rf'] w]|] eqn:Hrun; simplify_eq/=.
      destruct (step_vote_reply n _ _ _ _ _ _ _ _ _ _ HI Hk Her Hre ltac:(lia) Hi Hrun) as (g' & Hx & HI').
      eapply SInv_peer; eauto. eapply run_keeps; [done|]. by eapply voteReply_node, nh_ok, Hnh.
    + rewrite sends_nil. eapply SInv_same; eauto. by eapply step_lose_vote.
  - destruct (calls (base s) !! k) as [[vc|]|] eqn:Hk; simplify_eq/=.
    eapply SInv_same; eauto. by eapply step_lose_vote.
Qed.

(** the calls of the leader's goroutines, *)
Lemma append_step g s s' a :
  SInv g s → nexec s a = Some s' →
  (∃ k, a = NDeliverAppend k ∨ a = NAppendReply k ∨ a = NLoseAppend k) →
  ∃ g', gext g g' ∧ SInv g' s'.
Proof.
  intros HS Hex Ha. pose proof (proj1 HS) as HI. pose proof (nv_nodes _ _ _ HI) as Hnh.
  destruct Ha as [k [->|[->| ->]]]; unfold nexec in Hex; simpl in Hex;
    (destruct (appends s !! k) as [[ac|]|] eqn:Hk; simplify_eq/=);
    pose proof (nv_appends _ _ _ HI _ _ Hk) as Hah.
  - destruct (ac_reply ac); simplify_eq/=.
    destruct (nodes (base s) !! Z.to_nat (ac_to ac)) as [rf|] eqn:Hi; simplify_eq/=.
    destruct (AppendEntries _ rf) as [[[reply rf'] w]|] eqn:Hrun; simplify_eq/=.
    destruct (step_append n _ _ _ _ _ _ _ _ HI Hk Hi Hrun) as (Hkeep & g' & Hx & HI').
    eapply SInv_peer; eauto.
  - destruct (ac_reply ac) as [reply|] eqn:Hre; simplify_eq/=.
    destruct (ac_live ac); simplify_eq/=; [|by eapply SInv_same; eauto; apply NInv_append].
    destruct (nodes (base s) !! ac_from ac) as [rf|] eqn:Hi; simplify_eq/=.
    destruct (sendAppendEntryAndUpdate _ _ _ rf) as [[[[] rf'] w]|] eqn:Hrun; simplify_eq/=.
    eapply (SInv_peer g g); eauto; try done; [by eapply step_append_reply|]. eapply run_keeps; [done|].
    apply sendAppendEntryAndUpdate_node; [by eapply nh_ok, Hnh|]. intros r [= <-].
    eapply append_reply_ok; eauto. by apply (inv_nodes _ _ _ (nv_base _ _ _ HI)).
  - eapply SInv_same; eauto. by apply NInv_append.
Qed.

Lemma install_step g s s' a :
  SInv g s → nexec s a = Some s' →
  (∃ k, a = NDeliverInstall k ∨ a = NInstallReply k ∨ a = NLoseInstall k) →
  ∃ g', gext g g' ∧ SInv g' s'.
Proof.
  intros HS Hex Ha. pose proof (proj1 HS) as HI. pose proof (nv_nodes _ _ _ HI) as Hnh.
  destruct Ha as [k [->|[->| ->]]]; unfold nexec in Hex; simpl in Hex;
    (destruct (installs s !! k) as [[ic|]|] eqn:Hk; simplify_eq/=);
    pose proof (nv_installs _ _ _ HI _ _ Hk) as Hih.
  - destruct (ic_reply ic); simplify_eq/=.
    destruct (nodes (base s) !! Z.to_nat (ic_to ic)) as [rf|] eqn:Hi; simplify_eq/=.
    destruct (InstallSnapshot _ rf) as [[[reply rf'] w]|] eqn:Hrun; simplify_eq/=.
    destruct (step_install n _ _ _ _ _ _ _ _ HI Hk Hi Hrun) as (Hw & HI').
    eapply (SInv_peer g g); eauto; [done| |].
    + eapply run_keeps; [done|]. by eapply InstallSnapshot_node, nh_ok, Hnh.
    + simpl. rewrite Hw. apply list_alter_id. intros ?. by rewrite app_nil_r.
  - destruct (ic_reply ic) as [reply|] eqn:Hre; simplify_eq/=.
    destruct (ic_live ic); simplify_eq/=; [|by eapply SInv_same; eauto; apply NInv_install].
    destruct (nodes (base s) !! ic_from ic) as [rf|] eqn:Hi; simplify_eq/=.
    destruct (sendInstallSnapshotAndUpdate _ _ _ rf) as [[[[] rf'] w]|] eqn:Hrun; simplify_eq/=.
    pose proof (nh_ok _ _ _ _ (Hnh _ _ Hi)) as Hok.
    eapply (SInv_peer g g); eauto; try done; [by eapply step_install_reply|]. eapply run_keeps; [done|].
    apply sendInstallSnapshotAndUpdate_node; [done| |].
    + pose proof (ih_to _ _ Hih). by rewrite (ni_n _ _ _ _ (inv_nodes _ _ _ (nv_base _ _ _ HI) _ _ Hi)).
    + intros _. pose proof (log_wf_length _ (ok_log _ Hok)).
      rewrite (ih_zero _ _ Hih). unfold last_idx. rewrite (nh_first _ _ _ _ (Hnh _ _ Hi)). lia.
  - eapply SInv_same; eauto. by apply NInv_install.
Qed.

(** and everything else a peer does. *)
Lemma peer_step g s s' a :
  SInv g s → nexec s a = Some s' →
  (∃ i, a = NHeartbeat i ∨ a = NTake i ∨ a = NDone i ∨ a = NKill i ∨ a = NRestart i ∨
        ∃ command, a = NStart i command) →
  ∃ g', gext g g' ∧ SInv g' s'.
Proof.
  intros HS Hex Ha. pose proof (proj1 HS) as HI. pose proof (nv_nodes _ _ _ HI) as Hnh.
  destruct Ha as [i Ha]. destruct (nodes (base s) !! i) as [rf|] eqn:Hi.
  2: by destruct Ha as [->|[->|[->|[->|[->|[? ->]]]]]]; unfold nexec, exec, run_peer in Hex; simpl in Hex;
    rewrite Hi in Hex.
  pose proof (nh_ok _ _ _ _ (Hnh _ _ Hi)) as Hok.
  destruct Ha as [->|[->|[->|[->|[->|[command ->]]]]]]; unfold nexec, exec, run_peer in Hex; simpl in Hex;
    rewrite Hi in Hex; simpl in Hex.
  - destruct (tickerHeartbeat rf) as [[[r rf'] w]|] eqn:Hrun; simplify_eq/=.
    eapply (SInv_peer g g); eauto; try done; [by eapply step_heartbeat|].
    eapply run_keeps; [done|]. eapply wp_mono; [by apply tickerHeartbeat_node|]. by intros [] ? _ ->.
  - destruct (mjoin (batches s !! i)) eqn:Hb; simplify_eq/=. destruct (applierReady rf); simplify_eq/=.
    destruct (applierTake rf) as [[[[es ci] rf'] w]|] eqn:Hrun; simplify_eq/=.
    exists g. split; [done|]. by eapply SInv_take.
  - destruct (batches s !! i) as [[[es ci]|]|] eqn:Hb; simplify_eq/=.
    destruct (applierDone ci rf) as [[[[] rf'] w]|] eqn:Hrun; simplify_eq/=.
    exists g. split; [done|]. by eapply SInv_done.
  - injection Hex as <-. apply (SInv_peer g g s _ i rf (set_dead 1 rf)); auto; try done; by apply step_kill.
  - destruct (Make _ _ _) as [rf'|] eqn:Hrun; simplify_eq/=.
    exists g. split; [done|]. by eapply SInv_restart.
  - destruct (Start command rf) as [[[r rf'] w]|] eqn:Hrun; simplify_eq/=.
    destruct (step_start n _ _ _ _ _ _ _ _ HI Hi Hrun) as (g' & Hx & HI').
    eapply SInv_peer; eauto. eapply run_keeps; [done|]. by apply Start_node.
Qed.

Lemma net_step_SInv g s s' : SInv g s → net_step s s' → ∃ g', gext g g' ∧ SInv g' s'.
Proof.
  intros HS (a & Hf & Hex).
  destruct a; first
    [ by eapply vote_step; eauto 6 | by eapply append_step; eauto 6 | by eapply install_step; eauto 6
    | by eapply peer_step; eauto 9 ].
Qed.

Lemma net_steps_SInv g s s' : rtc net_step s s' → SInv g s → ∃ g', gext g g' ∧ SInv g' s'.
Proof.
  intros Hs. revert g. induction Hs as [|s1 s2 s3 H12 _ IH]; intros g HS; [by exists g|].
  destruct (net_step_SInv _ _ _ HS H12) as (g1 & Hg1 & HS1).
  destruct (IH _ HS1) as (g2 & Hg2 & HS2). exists g2. split; [by etrans|done].
Qed.

Lemma reachable_inv s : rtc net_step (net_init n) s → ∃ g, SInv g s.
Proof. intros Hs. destruct (net_steps_SInv _ _ _ Hs net_init_SInv) as (g & _ & ?). by exists g. Qed.

(** Two states of a run, with one history. *)
Lemma reachable_pair s1 s2 :
  rtc net_step (net_init n) s1 → rtc net_step s1 s2 →
  ∃ g1 g2, gext g1 g2 ∧ SInv g1 s1 ∧ SInv g2 s2.
Proof.
  intros (g1 & HS1)%reachable_inv H2. destruct (net_steps_SInv _ _ _ H2 HS1) as (g2 & Hx & HS2).
  by exists g1, g2.
Qed.

(** A log index as a position, the log starting at 0. *)
Lemma entryAt_0 (l : list (Entry Cmd)) k :
  first_idx l = 0 → entryAt l k = if 0 <=? k then l !! Z.to_nat k else None.
Proof. intros Hf. unfold entryAt, index. by rewrite Hf, Z.sub_0_r. Qed.

(** Reading a committed index: the entry of the history. *)
Lemma node_committed g (i : nat) rf k :
  node_hist n g i rf → 0 < k ≤ commitIndex rf →
  ∃ T (i0 : nat), committed n g T i0 ∧ T ≤ currentTerm rf ∧ k ≤ i0 ∧
    entryAt (logs rf) k = gL g T !! Z.to_nat k.
Proof.
  intros Hnh Hk. destruct (nh_com _ _ _ _ Hnh) as [?|(T & i0 & Hcom & HT & Hc & Heq)]; [lia|].
  exists T, i0. split_and!; [done|done|lia|]. rewrite entryAt_0 by by apply (nh_first _ _ _ _ Hnh).
  destruct (0 <=? k) eqn:?; [|lia]. eapply take_eq_lookup; [exact Heq|lia].
Qed.

(** ** The channels *)
Lemma channel_hist g s (i : nat) ch (k : nat) msg :
  SInv g s → channel s !! i = Some ch → ch !! k = Some msg → CommandIndex msg = k + 1 ∧ msg_hist n g msg.
Proof.
  intros [_ [[HL HL'] HA]] Hch Hk. pose proof (lookup_lt_Some _ _ _ Hch).
  destruct (lookup_lt_is_Some_2 (nodes (base s)) i) as [rf Hi]; [lia|].
  destruct (lookup_lt_is_Some_2 (batches s) i) as [b Hb]; [lia|].
  by eapply (HA i rf b ch).
Qed.

(** Two messages with one index are one message. *)
Lemma msg_agree g m1 m2 :
  GInv n g → msg_hist n g m1 → msg_hist n g m2 → CommandIndex m1 = CommandIndex m2 → m1 = m2.
Proof.
  intros HG (T1 & i1 & e1 & Hc1 & Hr1 & He1 & ->) (T2 & i2 & e2 & Hc2 & Hr2 & He2 & ->) Heq.
  simpl in *. rewrite <-Heq in *. rewrite (committed_agree n g HG T1 i1 T2 i2) in He1 by (done || lia).
  rewrite He1 in He2. by injection He2 as ->.
Qed.

(** Lists of such messages are prefixes of one another. *)
Lemma hist_comparable g l1 l2 :
  GInv n g →
  (∀ (k : nat) msg, l1 !! k = Some msg → CommandIndex msg = k + 1 ∧ msg_hist n g msg) →
  (∀ (k : nat) msg, l2 !! k = Some msg → CommandIndex msg = k + 1 ∧ msg_hist n g msg) →
  l1 `prefix_of` l2 ∨ l2 `prefix_of` l1.
Proof.
  intros HG. assert (∀ l1 l2, length l1 ≤ length l2 →
    (∀ (k : nat) msg, l1 !! k = Some msg → CommandIndex msg = k + 1 ∧ msg_hist n g msg) →
    (∀ (k : nat) msg, l2 !! k = Some msg → CommandIndex msg = k + 1 ∧ msg_hist n g msg) →
    l1 `prefix_of` l2) as Hle.
  { clear l1 l2. intros l1 l2 Hlen H1 H2. exists (drop (length l1) l2).
    rewrite <-(take_drop (length l1) l2) at 1. f_equal. apply list_eq_same_length with (length l1);
      [done|rewrite length_take; lia|]. intros k x y Hk Hx Hy.
    rewrite lookup_take_lt in Hx by done. destruct (H2 k x Hx), (H1 k y Hy).
    eapply msg_agree; eauto. lia. }
  intros H1 H2. destruct (decide (length l1 ≤ length l2)); [left|right]; apply Hle; done || lia.
Qed.
End reach.


(** ** No critical section panics *)
Section total.
#[local] Coercion Z.of_nat : nat >-> Z.
Context {Cmd : Type} `{CodecLaws (hard_state Cmd)} (n : nat).
Implicit Types (rf : Raft Cmd) (g : Ghost Cmd) (s : Net Cmd).

Lemma wp_defined {A} (m : M (Raft Cmd) (Effect Cmd) A) Q rf : wp m Q rf → ∃ a rf' w, m rf = Some (a, rf', w).
Proof. intros (a & rf' & w & ? & _)%wp_total. eauto. Qed.

Lemma node_total g s (i : nat) : NInv n g s → (i < n)%nat → ∃ rf, nodes (base s) !! i = Some rf ∧ node_hist n g i rf.
Proof.
  intros HI Hi. rewrite <-(inv_len _ _ _ (nv_base _ _ _ HI)) in Hi.
  destruct (lookup_lt_is_Some_2 _ _ Hi) as [rf Hrf]. exists rf. split; [done|]. by eapply nv_nodes.
Qed.

(** An enabled election action is executed. *)
Lemma election_total g s a :
  NInv n g s → (∃ k, a = NDeliverVote k) ∨ (∃ k, a = NVoteReply k) → net_enabled s a = true →
  is_Some (nexec s a).
Proof.
  intros HI Ha He. pose proof (nv_base _ _ _ HI) as Hb.
  destruct Ha as [[k ->]|[k ->]]; unfold nexec, exec, vote_sends; simpl in He |- *;
    destruct (calls (base s) !! k) as [[vc|]|] eqn:Hk; try done; simpl in He |- *;
    destruct (inv_calls _ _ _ Hb _ _ Hk) as (Hto & er & Her & _); rewrite Her; simpl;
    apply bool_decide_eq_true in He.
  - rewrite He. destruct (node_total g s (Z.to_nat (vc_to vc)) HI) as (rf & -> & Hnh); [lia|]. simpl.
    destruct (wp_defined _ _ _ (RequestVote_node rf (el_args (er_el er)) (nh_ok _ _ _ _ Hnh)))
      as (? & ? & ? & ->). by eexists.
  - destruct He as [reply Hre]. rewrite Hre. simpl. destruct (er_live er); simpl; [|by eexists].
    destruct (node_total g s (er_owner er) HI) as (rf & -> & Hnh).
    { by eapply eh_owner, nv_elections. }
    simpl. unfold run_effects.
    destruct (wp_defined _ _ _ (voteReply_node rf (er_el er) (Some reply) (nh_ok _ _ _ _ Hnh)))
      as (? & ? & ? & ->). by eexists.
Qed.

(** An enabled delivery or reply of a replication call is executed. *)
Lemma append_total g s a :
  NInv n g s → (∃ k, a = NDeliverAppend k) ∨ (∃ k, a = NAppendReply k) → net_enabled s a = true →
  is_Some (nexec s a).
Proof.
  intros HI Ha He.
  destruct Ha as [[k ->]|[k ->]]; unfold nexec; simpl in He |- *;
    destruct (appends s !! k) as [[ac|]|] eqn:Hk; try done; simpl in He |- *;
    pose proof (nv_appends _ _ _ HI _ _ Hk) as Hah; apply bool_decide_eq_true in He.
  - rewrite He. pose proof (ah_to _ _ _ Hah).
    destruct (node_total g s (Z.to_nat (ac_to ac)) HI) as (rf & -> & Hnh); [lia|]. simpl.
    destruct (wp_defined _ _ _ (wp_AppendEntries rf (ac_args ac) (λ _ _ _, True)
      (ok_log _ (nh_ok _ _ _ _ Hnh)) (ah_contiguous _ _ _ Hah) (λ _ _ _ _, I))) as (? & ? & ? & ->).
    by eexists.
  - destruct He as [reply Hre]. rewrite Hre. destruct (ac_live ac); [|by eexists].
    destruct (node_total g s (ac_from ac) HI) as (rf & Hi & Hnh); [by eapply ah_from|]. rewrite Hi. simpl.
    pose proof (inv_nodes _ _ _ (nv_base _ _ _ HI) _ _ Hi) as Hni.
    destruct (wp_defined _ _ _ (sendAppendEntryAndUpdate_node rf (ac_to ac) (ac_args ac) (Some reply)
      (nh_ok _ _ _ _ Hnh) (λ r Hr, append_reply_ok n g _ rf ac r Hnh Hni Hah ltac:(congruence))))
      as ([] & ? & ? & ->). by eexists.
Qed.

Lemma install_total g s a :
  NInv n g s → (∃ k, a = NDeliverInstall k) ∨ (∃ k, a = NInstallReply k) → net_enabled s a = true →
  is_Some (nexec s a).
Proof.
  intros HI Ha He.
  destruct Ha as [[k ->]|[k ->]]; unfold nexec; simpl in He |- *;
    destruct (installs s !! k) as [[ic|]|] eqn:Hk; try done; simpl in He |- *;
    pose proof (nv_installs _ _ _ HI _ _ Hk) as Hih; pose proof (ih_to _ _ Hih);
    apply bool_decide_eq_true in He.
  - rewrite He. destruct (node_total g s (Z.to_nat (ic_to ic)) HI) as (rf & -> & Hnh); [lia|]. simpl.
    destruct (wp_defined _ _ _ (InstallSnapshot_node rf (ic_args ic) (nh_ok _ _ _ _ Hnh)))
      as (? & ? & ? & ->). by eexists.
  - destruct He as [reply Hre]. rewrite Hre. destruct (ic_live ic); [|by eexists].
    destruct (node_total g s (ic_from ic) HI) as (rf & Hi & Hnh); [by eapply ih_from|]. rewrite Hi. simpl.
    pose proof (ni_n _ _ _ _ (inv_nodes _ _ _ (nv_base _ _ _ HI) _ _ Hi)) as Hn.
    destruct (wp_defined _ _ _ (wp_sendInstallSnapshotAndUpdate rf (ic_to ic) (ic_args ic) reply
      (λ _ _ _, True) (nh_ok _ _ _ _ Hnh) ltac:(lia) (λ _, I))) as ([] & ? & ? & ->). by eexists.
Qed.

Lemma peer_total g s (i : nat) a :
  NInv n g s →
  a = NTimeout i ∨ (∃ command, a = NStart i command) ∨ a = NHeartbeat i ∨ a = NKill i ∨ a = NRestart i →
  net_enabled s a = true → is_Some (nexec s a).
Proof.
  intros HI Ha He. assert (i < length (nodes (base s)))%nat as Hi.
  { destruct Ha as [->|[[? ->]|[->|[->| ->]]]]; by apply bool_decide_eq_true in He. }
  rewrite (inv_len _ _ _ (nv_base _ _ _ HI)) in Hi. destruct (node_total g s i HI Hi) as (rf & Hrf & Hnh).
  pose proof (nh_ok _ _ _ _ Hnh) as Hok.
  destruct Ha as [->|[[command ->]|[->|[->| ->]]]]; unfold nexec, exec, run_peer; simpl; rewrite Hrf; simpl.
  - destruct (wp_defined _ _ _ (tickerElection_node rf Hok)) as (? & ? & ? & ->). by eexists.
  - destruct (wp_defined _ _ _ (Start_node rf command Hok)) as (? & ? & ? & ->). by eexists.
  - destruct (wp_defined _ _ _ (tickerHeartbeat_node rf Hok)) as (? & ? & ? & ->). by eexists.
  - by eexists.
  - destruct (make_ok rf Hok) as (rf' & -> & _). by eexists.
Qed.

Lemma applier_total g s (i : nat) a :
  NInv n g s → a = NTake i ∨ a = NDone i → net_enabled s a = true → is_Some (nexec s a).
Proof.
  intros HI [->| ->] He; unfold nexec; simpl in He |- *.
  - destruct (nodes (base s) !! i) as [rf|] eqn:Hi; [|done]. simpl.
    destruct (mjoin (batches s !! i)); [done|]. rewrite He.
    pose proof (nv_nodes _ _ _ HI _ _ Hi) as Hnh.
    destruct (wp_defined _ _ _ (wp_applierTake rf (λ _ _ _, True) (nh_ok _ _ _ _ Hnh)
      ltac:(rewrite (nh_first _ _ _ _ Hnh); by eapply nh_applied) (λ _ _ _ _, I))) as ([? ?] & ? & ? & ->).
    by eexists.
  - apply andb_true_iff in He as [Hi%bool_decide_eq_true [[es ci] Hbt]%bool_decide_eq_true].
    destruct (lookup_lt_is_Some_2 _ _ Hi) as [rf Hrf]. rewrite Hrf, Hbt. simpl. by eexists.
Qed.

Lemma net_total g s a : NInv n g s → net_enabled s a = true → is_Some (nexec s a).
Proof.
  intros HI He. destruct a.
  all: try (eapply (peer_total g s i); [done| |done]; by eauto 6).
  all: try (eapply (applier_total g s i); [done| |done]; by auto).
  all: try (eapply (election_total g s); [done| |done]; by eauto).
  all: try (eapply (append_total g s); [done| |done]; by eauto).
  all: try (eapply (install_total g s); [done| |done]; by eauto).
  all: unfold nexec, exec; simpl in He |- *; apply bool_decide_eq_true in He as [x ->]; by eexists.
Qed.
End total.
