(* ===== verification/RaftNetDisk.v ===== *)
(** * The disks, the entries and the channels of a replicating cluster

    No action of [RaftNet] stores a snapshot, so the snapshot a peer finds on its disk when it
    restarts is the one it was created with: none.  The channel of a running process only grows.  And what
    holds for the entries that are started holds for all entries. *)
From S2P Require Import Prelude Raft RaftLog RaftNode RaftVote RaftReplicate RaftLeader RaftSnapshot RaftProc RaftTerm.
From S2P Require Import RaftElection RaftNet RaftGhost RaftNetInv RaftReach.

Section disk.
Context {Cmd : Type} `{CodecLaws (hard_state Cmd)}.
Implicit Types (rf : Raft Cmd) (s : Net Cmd) (b : list byte).

(** The snapshot on the peer's disk. *)
Definition disk b rf : Prop := snapshot (persister rf) = b.

Ltac wlp_disk := wlp_raft; try assumption.

Lemma appendEntries_disk b rf hb : disk b rf → wlp (appendEntries hb) (λ _ rf', disk b rf') rf.
Proof.
  intros Hd. unfold appendEntries. wlp_raft. apply wlp_for_each; [done|].
  intros peer rf' Hs. unfold appendEntriesPeer. wlp_disk.
Qed.

Lemma leaderCommitLog_disk b rf : disk b rf → wlp leaderCommitLog (λ _ rf', disk b rf') rf.
Proof.
  intros Hd. unfold leaderCommitLog. wlp_raft; [done|]. apply wlp_for_each; [done|].
  intros i rf' Hs. unfold commitAt, apply. wlp_disk.
Qed.

Lemma appendLoop_disk b first es rf : disk b rf → wlp (appendLoop first es) (λ _ rf', disk b rf') rf.
Proof.
  revert rf. induction es as [|e es IH]; intros rf Hd; cbn [appendLoop]; [by wlp_step|].
  wlp_step. apply wlp_getLastLog. intros la. wlp_step.
  apply (wlp_mono _ (λ _ rf', rf' = rf)); [wlp_raft; done|]. intros c rf' ->. wlp_step.
  apply (wlp_mono _ (λ _ rf', disk b rf')); [wlp_disk|]. intros [] rf1 Hd1. wlp_disk. by apply IH.
Qed.

Lemma AppendEntries_disk b rf args : disk b rf → wlp (AppendEntries args) (λ _ rf', disk b rf') rf.
Proof.
  intros Hd. unfold AppendEntries. wlp_disk.
  all: eapply wlp_mono; [apply (appendLoop_disk b); assumption|]; intros [] rf' Hd'; unfold apply; wlp_disk.
Qed.

Lemma sendAppendEntryAndUpdate_disk b rf server args rpc :
  disk b rf → wlp (sendAppendEntryAndUpdate server args rpc) (λ _ rf', disk b rf') rf.
Proof.
  intros Hd. unfold sendAppendEntryAndUpdate, findLastLogInXTerm. destruct rpc as [reply|]; wlp_disk.
  all: by apply leaderCommitLog_disk.
Qed.

Lemma sendInstallSnapshotAndUpdate_disk b rf server args rpc :
  disk b rf → wlp (sendInstallSnapshotAndUpdate server args rpc) (λ _ rf', disk b rf') rf.
Proof. intros Hd. unfold sendInstallSnapshotAndUpdate. destruct rpc as [reply|]; wlp_disk. Qed.

Lemma InstallSnapshot_disk b rf args : disk b rf → wlp (InstallSnapshot args) (λ _ rf', disk b rf') rf.
Proof. intros Hd. unfold InstallSnapshot. wlp_disk. Qed.

Lemma Start_disk b rf command : disk b rf → wlp (Start command) (λ _ rf', disk b rf') rf.
Proof.
  intros Hd. unfold Start. wlp_disk. eapply wlp_mono; [by apply appendEntries_disk|]. intros [] rf' ?.
  by wlp_step.
Qed.

Lemma tickerHeartbeat_disk b rf : disk b rf → wlp tickerHeartbeat (λ _ rf', disk b rf') rf.
Proof.
  intros Hd. unfold tickerHeartbeat. wlp_disk. eapply wlp_mono; [by apply appendEntries_disk|].
  intros [] rf' ?. by wlp_step.
Qed.

Lemma RequestVote_disk b rf args : disk b rf → wlp (RequestVote args) (λ _ rf', disk b rf') rf.
Proof.
  intros Hd. unfold RequestVote. wlp_step. wlp_step. wlp_step; [by wlp_step|]. wlp_step.
  apply (wlp_mono _ (λ _ rf', disk b rf')); [wlp_disk|]. intros [] rf1 Hd1. wlp_step.
  apply wlp_getLastLog. intros la. wlp_step. wlp_step. wlp_step.
  apply (wlp_mono _ (λ _ rf', disk b rf')); [wlp_disk|]. intros granted rf2 Hd2. wlp_disk.
Qed.

Lemma tickerElection_disk b rf : disk b rf → wlp tickerElection (λ _ rf', disk b rf') rf.
Proof.
  intros Hd. unfold tickerElection, StartElection. wlp_raft.
  eapply wlp_mono; [apply (wlp_for_each _ _ (disk b)); [assumption|]|].
  - intros x rf' Hd'. wlp_disk.
  - intros [] rf' Hd'. wlp_disk.
Qed.

Lemma voteReply_disk b rf el rpc : disk b rf → wlp (voteReply el rpc) (λ _ rf', disk b rf') rf.
Proof.
  intros Hd. unfold voteReply, becomeLeader. destruct rpc as [reply|]; wlp_disk.
  eapply wlp_mono; [apply (wlp_for_each _ _ (disk b)); [assumption|]|].
  - intros x rf' Hd'. unfold initLeaderPeer. wlp_disk.
  - intros [] rf' Hd'. wlp_raft. eapply wlp_mono; [by apply appendEntries_disk|].
    intros [] rf2 ?. wlp_disk.
Qed.

Lemma Make_disk (n self : Z) (p : Persister) rf : Make n self p = Some rf → disk (snapshot p) rf.
Proof.
  unfold Make, run_state. set (rf0 := mkRaft _ _ _ _ _ _ _ _ _ _ _ _).
  assert (wlp (readPersist (ReadRaftState p)) (λ _ rf', disk (snapshot p) rf') rf0) as Hw.
  { unfold readPersist. destruct (ReadRaftState p); [by wlp_step|]. wlp_step. wlp_step.
    destruct a as [[t v] l']. by wlp_raft. }
  destruct (readPersist (ReadRaftState p) rf0) as [[[[] rf'] w]|] eqn:Hr; [|done].
  intros [= <-]. by apply (Hw _ _ _ Hr).
Qed.

(** What an action does to the peers: at most one changes, and its snapshot does not. *)
Definition local s s' : Prop :=
  nodes (base s') = nodes (base s) ∨
  ∃ i rf rf', nodes (base s) !! i = Some rf ∧ nodes (base s') = <[i := rf']> (nodes (base s)) ∧
    (disk [] rf → disk [] rf').

Lemma local_run {A} (m : M (Raft Cmd) (Effect Cmd) A) s s' i rf a rf' w :
  nodes (base s) !! i = Some rf → m rf = Some (a, rf', w) →
  (disk [] rf → wlp m (λ _ rf', disk [] rf') rf) → nodes (base s') = <[i := rf']> (nodes (base s)) →
  local s s'.
Proof. intros Hi Hr Hm Hn. right. exists i, rf, rf'. split_and!; [done|done|]. intros Hd. by apply (Hm Hd _ _ _ Hr). Qed.

End disk.

Create HintDb disk.
#[export] Hint Resolve AppendEntries_disk sendAppendEntryAndUpdate_disk sendInstallSnapshotAndUpdate_disk
  InstallSnapshot_disk Start_disk tickerHeartbeat_disk RequestVote_disk tickerElection_disk voteReply_disk
  : disk.

#[local] Arguments AppendEntries : simpl never.
#[local] Arguments sendAppendEntryAndUpdate : simpl never.
#[local] Arguments sendInstallSnapshotAndUpdate : simpl never.
#[local] Arguments InstallSnapshot : simpl never.
#[local] Arguments Start : simpl never.
#[local] Arguments tickerHeartbeat : simpl never.
#[local] Arguments RequestVote : simpl never.
#[local] Arguments tickerElection : simpl never.
#[local] Arguments voteReply : simpl never.
#[local] Arguments applierTake : simpl never.
#[local] Arguments Make : simpl never.

(** Follow an action that was executed through its [bind]s and [match]es. *)
Ltac executed :=
  unfold nexec, exec, run_peer, vote_sends, run_effects in *; simpl in *;
  repeat match goal with
  | H : (?o ≫= _) = Some _ |- _ => destruct o eqn:?; simplify_eq/=
  | H : match ?o with _ => _ end = Some _ |- _ => destruct o eqn:?; simplify_eq/=
  end.

Section actions.
Context {Cmd : Type} `{CodecLaws (hard_state Cmd)}.
Implicit Types (rf : Raft Cmd) (s : Net Cmd).

Lemma nexec_local s a s' : nexec s a = Some s' → local s s'.
Proof.
  intros Hex. destruct a; executed; try (by left);
    try (eapply local_run; [eassumption|eassumption|by eauto with disk|done]).
  all: right; eexists _, _, _; split_and!; [eassumption|done|]; intros Hd; try exact Hd.
  match goal with HM : Make _ _ _ = _ |- _ => apply Make_disk in HM; by rewrite Hd in HM end.
Qed.

Lemma net_step_disks s s' :
  (∀ i rf, nodes (base s) !! i = Some rf → disk [] rf) → net_step s s' →
  ∀ i rf, nodes (base s') !! i = Some rf → disk [] rf.
Proof.
  intros Hd (a & _ & [->|(i & rf & rf' & Hi & -> & Hk)]%nexec_local); [done|]. intros j rfj.
  rewrite list_lookup_insert_Some. intros [(<- & <- & _)|[_ Hj]]; [|by eapply Hd]. eauto.
Qed.

Lemma net_init_disks n i rf : nodes (base (net_init (Cmd := Cmd) n)) !! i = Some rf → disk [] rf.
Proof. simpl. rewrite list_lookup_fmap_Some. by intros (j & -> & _). Qed.

(** No action but a crash takes a message off a channel. *)
Lemma nexec_channel s a s' (i : nat) ch :
  nexec s a = Some s' → (∀ j, a ≠ NRestart j) → channel s !! i = Some ch →
  ∃ ch', channel s' !! i = Some ch' ∧ ch `prefix_of` ch'.
Proof.
  intros Hex Ha Hch.
  assert (∀ j msgs, ∃ ch', alter (λ old, old ++ msgs) j (channel s) !! i = Some ch' ∧ ch `prefix_of` ch') as Hgrow.
  { intros j msgs. destruct (decide (j = i)) as [->|].
    - exists (ch ++ msgs). rewrite list_lookup_alter_eq, Hch. split; [done|by eexists].
    - exists ch. by rewrite list_lookup_alter_ne. }
  destruct a; try (by edestruct Ha); executed; try (by exists ch); apply Hgrow.
Qed.
End actions.

(** ** The entries

    A property of every entry the services [Start] holds for every entry anywhere in the cluster: in the logs,
    in the requests in flight, and so in the messages on the channels.  The services use it to know what
    their appliers will read. *)
Section peer.
Context {Cmd : Type} `{CodecLaws (hard_state Cmd)} (P : Entry Cmd → Prop).
Implicit Types rf : Raft Cmd.

Definition log_all rf : Prop := Forall P (logs rf).

Ltac wlp_all := wlp_raft; try assumption.

Lemma appendEntries_all rf hb : log_all rf → wlp (appendEntries hb) (λ _ rf', log_all rf') rf.
Proof.
  intros Hl. unfold appendEntries. wlp_raft. apply wlp_for_each; [done|].
  intros peer rf' Hs. unfold appendEntriesPeer. wlp_all.
Qed.

Lemma leaderCommitLog_all rf : log_all rf → wlp leaderCommitLog (λ _ rf', log_all rf') rf.
Proof.
  intros Hl. unfold leaderCommitLog. wlp_raft; [done|]. apply wlp_for_each; [done|].
  intros i rf' Hs. unfold commitAt, apply. wlp_all.
Qed.

Lemma appendLoop_all first es rf :
  Forall P es → log_all rf → wlp (appendLoop first es) (λ _ rf', log_all rf') rf.
Proof.
  intros Hes. revert rf. induction Hes as [|e es He Hes IH]; intros rf Hl; cbn [appendLoop]; [by wlp_step|].
  wlp_step. apply wlp_getLastLog. intros la. wlp_step.
  apply (wlp_mono _ (λ _ rf', rf' = rf)); [wlp_raft; done|]. intros c rf' ->. wlp_step.
  apply (wlp_mono _ (λ _ rf', log_all rf')).
  { wlp_all. unfold slice_to in Hlift. destruct (_ && _); simplify_eq. by apply Forall_take. }
  intros [] rf1 Hl1. wlp_step. apply wlp_getLastLog. intros la1. wlp_step; [|by apply IH].
  wlp_raft. apply Forall_app. split; [done|by constructor].
Qed.

Lemma AppendEntries_all rf args :
  Forall P (ae_Entries args) → log_all rf → wlp (AppendEntries args) (λ _ rf', log_all rf') rf.
Proof.
  intros Hes Hl. unfold AppendEntries. wlp_all.
  all: eapply wlp_mono; [apply appendLoop_all; assumption|]; intros [] rf' Hl'; unfold apply; wlp_all.
Qed.

Lemma sendAppendEntryAndUpdate_all rf server args rpc :
  log_all rf → wlp (sendAppendEntryAndUpdate server args rpc) (λ _ rf', log_all rf') rf.
Proof.
  intros Hl. unfold sendAppendEntryAndUpdate, findLastLogInXTerm. destruct rpc as [reply|]; wlp_all.
  all: by apply leaderCommitLog_all.
Qed.

Lemma sendInstallSnapshotAndUpdate_all rf server args rpc :
  log_all rf → wlp (sendInstallSnapshotAndUpdate server args rpc) (λ _ rf', log_all rf') rf.
Proof. intros Hl. unfold sendInstallSnapshotAndUpdate. destruct rpc as [reply|]; wlp_all. Qed.

Lemma InstallSnapshot_all rf args : log_all rf → wlp (InstallSnapshot args) (λ _ rf', log_all rf') rf.
Proof. intros Hl. unfold InstallSnapshot. wlp_all. Qed.

Lemma Start_all rf command :
  (∀ idx term, P (mkEntry idx term command)) → log_all rf → wlp (Start command) (λ _ rf', log_all rf') rf.
Proof.
  intros Hc Hl. unfold Start. wlp_all. eapply wlp_mono; [apply appendEntries_all|by intros [] rf' ?; wlp_step].
  apply Forall_app. split; [done|by repeat constructor].
Qed.

Lemma tickerHeartbeat_all rf : log_all rf → wlp tickerHeartbeat (λ _ rf', log_all rf') rf.
Proof.
  intros Hl. unfold tickerHeartbeat. wlp_all. eapply wlp_mono; [by apply appendEntries_all|].
  intros [] rf' ?. by wlp_step.
Qed.

Lemma RequestVote_all rf args : log_all rf → wlp (RequestVote args) (λ _ rf', log_all rf') rf.
Proof.
  intros Hl. unfold RequestVote. wlp_step. wlp_step. wlp_step; [by wlp_step|]. wlp_step.
  apply (wlp_mono _ (λ _ rf', log_all rf')); [wlp_all|]. intros [] rf1 Hl1. wlp_step.
  apply wlp_getLastLog. intros la. wlp_step. wlp_step. wlp_step.
  apply (wlp_mono _ (λ _ rf', log_all rf')); [wlp_all|]. intros granted rf2 Hl2. wlp_all.
Qed.

Lemma tickerElection_all rf : log_all rf → wlp tickerElection (λ _ rf', log_all rf') rf.
Proof.
  intros Hl. unfold tickerElection, StartElection. wlp_raft.
  eapply wlp_mono; [apply (wlp_for_each _ _ log_all); [assumption|]|].
  - intros x rf' Hl'. wlp_all.
  - intros [] rf' Hl'. wlp_all.
Qed.

Lemma voteReply_all rf el rpc : log_all rf → wlp (voteReply el rpc) (λ _ rf', log_all rf') rf.
Proof.
  intros Hl. unfold voteReply, becomeLeader. destruct rpc as [reply|]; wlp_all.
  eapply wlp_mono; [apply (wlp_for_each _ _ log_all); [assumption|]|].
  - intros x rf' Hl'. unfold initLeaderPeer. wlp_all.
  - intros [] rf' Hl'. wlp_raft. eapply wlp_mono; [by apply appendEntries_all|].
    intros [] rf2 ?. wlp_all.
Qed.

Lemma Make_all rf rf' :
  node_ok rf → log_all rf → Make (npeers rf) (me rf) (persister rf) = Some rf' → log_all rf'.
Proof. intros Hok Hl. rewrite Make_durable by (apply Hok). by intros [= <-]. Qed.

(** What a round of the leader sends is a part of its log. *)
Lemma effects_all rf (i : nat) w ac :
  log_all rf → Forall (effect_ok rf) w → Some ac ∈ new_appends i w → Forall P (ae_Entries (ac_args ac)).
Proof.
  intros Hl Hw (e & He & Heq)%list_elem_of_omap. rewrite Forall_forall in Hw. specialize (Hw e He).
  destruct e; simplify_eq/=. destruct Hw as (_ & _ & _ & x & _ & Hargs). rewrite Hargs. simpl.
  by apply Forall_drop.
Qed.
End peer.

Create HintDb entries.
#[export] Hint Resolve AppendEntries_all sendAppendEntryAndUpdate_all sendInstallSnapshotAndUpdate_all
  InstallSnapshot_all Start_all tickerHeartbeat_all RequestVote_all tickerElection_all voteReply_all
  : entries.

(** The same for the cluster. *)
Section cluster.
#[local] Coercion Z.of_nat : nat >-> Z.
Context {Cmd : Type} `{CodecLaws (hard_state Cmd)} (P : Entry Cmd → Prop).
Implicit Types (rf : Raft Cmd) (s : Net Cmd) (a : NetAction Cmd).

Record entries_all s : Prop := {
  ea_nodes i rf : nodes (base s) !! i = Some rf → log_all P rf;
  ea_appends ac : Some ac ∈ appends s → Forall P (ae_Entries (ac_args ac));
}.

(** A command that may be started. *)
Definition start_all a : Prop :=
  match a with NStart _ command => ∀ idx term, P (mkEntry idx term command) | _ => True end.
Definition start_step s s' : Prop := ∃ a, start_all a ∧ net_rolls_back s a = false ∧ nexec s a = Some s'.

Lemma start_steps_net s s' : rtc start_step s s' → rtc net_step s s'.
Proof. intros Hs. eapply rtc_subrel; [|exact Hs]. intros x y (a & _ & Hr & Hex). by exists a. Qed.

Lemma elem_of_insert {A} (l : list A) k (x y : A) : x ∈ <[k := y]> l → x = y ∨ x ∈ l.
Proof.
  intros (j & Hj)%list_elem_of_lookup. apply list_lookup_insert_Some in Hj as [(_ & -> & _)|[_ Hj]]; [by left|].
  right. by eapply list_elem_of_lookup_2.
Qed.

(** At most one peer changes, its log stays as it should, and calls keep their entries. *)
Lemma entries_local s s' :
  entries_all s →
  (nodes (base s') = nodes (base s) ∨ ∃ i rf', nodes (base s') = <[i := rf']> (nodes (base s)) ∧ log_all P rf') →
  (∀ ac, Some ac ∈ appends s' → Forall P (ae_Entries (ac_args ac)) ∨
     ∃ ac0, Some ac0 ∈ appends s ∧ ac_args ac = ac_args ac0) →
  entries_all s'.
Proof.
  intros [Hn Ha] Hs Hc. split.
  - intros j rf. destruct Hs as [->|(i & rf' & -> & Hl)]; [apply Hn|].
    rewrite list_lookup_insert_Some. intros [(_ & <- & _)|[_ Hj]]; [done|]. by eapply Hn.
  - intros ac Hac. destruct (Hc ac Hac) as [?|(ac0 & ? & ->)]; auto.
Qed.

Lemma entries_same s s' :
  entries_all s → nodes (base s') = nodes (base s) → appends s' = appends s → entries_all s'.
Proof. intros He Hn Ha. eapply entries_local; [done|by left|]. intros ac. rewrite Ha. right. by exists ac. Qed.

(** One method of one peer, with the calls it starts. *)
Lemma entries_run {A} (m : M (Raft Cmd) (Effect Cmd) A) s s' i rf x rf' w :
  entries_all s → nodes (base s) !! i = Some rf → m rf = Some (x, rf', w) →
  wlp m (λ _ rf', log_all P rf') rf → nodes (base s') = <[i := rf']> (nodes (base s)) →
  (∀ ac, Some ac ∈ appends s' → Some ac ∈ new_appends i w ∧ Forall (effect_ok rf') w ∨
     ∃ ac0, Some ac0 ∈ appends s ∧ ac_args ac = ac_args ac0) →
  entries_all s'.
Proof.
  intros He Hi Hr Hm Hn Hc. specialize (Hm _ _ _ Hr). eapply entries_local; [done|right; eauto|].
  intros ac Hac. destruct (Hc ac Hac) as [[? ?]|?]; [left|by right]. by apply (effects_all P rf' i w).
Qed.

Lemma Start_effects rf command res rf' w :
  node_ok rf → Start command rf = Some (res, rf', w) → Forall (effect_ok rf') w.
Proof.
  intros Hok Hr. eapply (wp_run _ (λ _ rf' w, Forall (effect_ok rf') w)); [exact Hr|].
  apply wp_Start; [done|constructor|]. intros ws HL Hws. by eapply (round_effects (start_state rf command)).
Qed.

Lemma voteReply_effects rf el rpc res rf' w :
  node_ok rf → voteReply el rpc rf = Some (res, rf', w) → Forall (effect_ok rf') w.
Proof.
  intros Hok Hr. eapply (wp_run _ (λ _ rf' w, Forall (effect_ok rf') w)); [exact Hr|].
  apply wp_voteReply; [done|]. intros. by apply round_sent_effects.
Qed.

Lemma tickerHeartbeat_effects rf res rf' w :
  node_ok rf → tickerHeartbeat rf = Some (res, rf', w) → Forall (effect_ok rf') w.
Proof.
  intros Hok Hr. eapply (wp_run _ (λ _ rf' w, Forall (effect_ok rf') w)); [exact Hr|].
  apply wp_tickerHeartbeat; [done|]. intros. by apply round_sent_effects.
Qed.

Lemma nexec_entries s a s' :
  (∀ i rf, nodes (base s) !! i = Some rf → node_ok rf) → entries_all s → start_all a →
  nexec s a = Some s' → entries_all s'.
Proof.
  intros Hok He Hst Hex. pose proof (ea_nodes _ He) as Hn. pose proof (ea_appends _ He) as Ha.
  assert (∀ ac0 : AppendCall Cmd, Some ac0 ∈ appends s → ∃ ac1, Some ac1 ∈ appends s ∧ ac_args ac0 = ac_args ac1)
    as Hold by eauto.
  assert (∀ k v ac, Some ac ∈ <[k := v]> (appends s) → v = Some ac ∨ Some ac ∈ appends s) as Hins.
  { intros k v ac [Hv|?]%elem_of_insert; auto. }
  destruct a; executed; try (by eapply entries_same).
  all: try (eapply entries_run; [done|eassumption|eassumption| |done|]; [by eauto with entries|];
    simpl; intros ac; rewrite ?elem_of_app; eauto).
  all: try (intros [?|?]; [by eauto|]; left; split; [done|];
    by eauto using Start_effects, tickerHeartbeat_effects, voteReply_effects).
  - eapply entries_same; [done|done|apply app_nil_r].
  - assert (Some a ∈ appends s) as Hin.
    { eapply (list_elem_of_lookup_2 _ k). by destruct (appends s !! k) as [[]|]; simplify_eq/=. }
    eapply entries_run; [done|eassumption|eassumption|by eauto with entries|done|].
    intros ac [[= <-]|?]%Hins; right; eauto.
  - intros [?|?]%Hins; [done|]. right. eauto.
  - eapply entries_local; [done|by left|]. intros ac [?|?]%Hins; [done|]. right. eauto.
  - eapply entries_local; [done|by left|]. intros ac [?|?]%Hins; [done|]. right. eauto.
  - eapply entries_local; [done|right; eexists _, _; split; [done|]|].
    { by match goal with Hx : nodes _ !! _ = _ |- _ => exact (Hn _ _ Hx) end. }
    simpl. eauto.
  - eapply entries_local; [done|right; eexists _, _; split; [done|]|].
    { by match goal with Hx : nodes _ !! _ = _ |- _ => exact (Hn _ _ Hx) end. }
    simpl. rewrite app_nil_r. eauto.
  - eapply entries_local; [done|right; eexists _, _; split; [done|]|].
    { eapply Make_all; [| |eassumption]; [by eapply Hok|by eapply Hn]. } simpl.
    intros ac ([ac0|] & Hac & Hin)%list_elem_of_fmap; [|done]. right. exists ac0. split; [done|].
    injection Hac as ->. unfold stop_append. by case_decide.
Qed.

Lemma net_init_entries n : P (mkEntry 0 0 None) → entries_all (net_init n).
Proof.
  intros H0'. split; simpl; [|by intros ac ?%elem_of_nil].
  intros i rf. rewrite list_lookup_fmap_Some. intros (j & -> & _). unfold log_all. simpl. by constructor.
Qed.

Lemma start_steps_entries n s s' :
  rtc start_step s s' → rtc net_step (net_init n) s → entries_all s → entries_all s'.
Proof.
  induction 1 as [|s1 s2 s3 (a & Ha & Hr & Hex) _ IH]; intros Hs He; [done|].
  destruct (reachable_inv n _ Hs) as (g & HI & _). apply IH.
  - eapply rtc_r; [exact Hs|by exists a].
  - eapply nexec_entries; try done. intros i rf Hi. by eapply nh_ok, nv_nodes.
Qed.

(** Every message on a channel carries an entry of the log of its peer. *)
Lemma channel_entry n s (i : nat) ch (k : nat) msg :
  P (mkEntry 0 0 None) → rtc start_step (net_init n) s → channel s !! i = Some ch → ch !! k = Some msg →
  ∃ e, P e ∧ Index e = k + 1 ∧ msg = mkApplyMsg true (Command e) (k + 1) (Term e) false [] 0 0.
Proof.
  intros HP Hs Hch Hk. pose proof (start_steps_net _ _ Hs) as Hn.
  destruct (reachable_inv n _ Hn) as (g & HI & [[HL HL'] HA]).
  pose proof (start_steps_entries n _ _ Hs (rtc_refl _ _) (net_init_entries n HP)) as He.
  destruct (lookup_lt_is_Some_2 (nodes (base s)) i) as [rf Hi]; [apply lookup_lt_Some in Hch; lia|].
  destruct (lookup_lt_is_Some_2 (batches s) i) as [b Hb]; [apply lookup_lt_Some in Hch; lia|].
  pose proof (nv_nodes _ _ _ HI _ _ Hi) as Hnh. pose proof (ok_applied _ (nh_ok _ _ _ _ Hnh)).
  destruct (HA i rf b ch Hi Hb Hch) as [Hlen Hmsg]. pose proof (lookup_lt_Some _ _ _ Hk).
  assert (length ch ≤ commitIndex rf) by (destruct b as [[es ci]|]; lia).
  destruct (Hmsg k msg Hk) as [Hidx (T & i0 & e & Hc & Hr & Hge & Hm)]. rewrite Hidx in Hr, Hge, Hm.
  destruct (node_committed n g i rf (k + 1) Hnh ltac:(lia)) as (T1 & i1 & Hc1 & _ & Hle & Heq).
  rewrite (committed_agree n g (nv_ghost _ _ _ HI) T1 i1 T i0), Hge in Heq by (done || lia).
  exists e. split_and!; [| |done].
  - pose proof (ea_nodes _ He i rf Hi) as Hall. unfold log_all in Hall. rewrite Forall_forall in Hall.
    apply index_Some in Heq as [_ Heq]. by eapply Hall, list_elem_of_lookup_2.
  - by eapply entryAt_Index; [apply (nh_ok _ _ _ _ Hnh)|].
Qed.
End cluster.
