(* ===== verification/RaftSafety.v ===== *)
(** * What a replicating cluster guarantees

    The claims of the Raft paper for the peers themselves, in every state the cluster of [RaftNet]
    reaches from [net_init] by any sequence of steps: Log Matching, Leader Completeness, State
    Machine Safety, that the apply channels are prefixes of one another, and that no critical
    section panics. *)
From S2P Require Import Prelude Raft RaftLog RaftNode RaftSnapshot RaftProc RaftElection RaftNet RaftGhost RaftNetInv RaftReach.

(** ** The theorems *)
Section safety.
Context {Cmd : Type} `{CodecLaws (hard_state Cmd)} (n : nat).
Implicit Types (rf : Raft Cmd) (s : Net Cmd).




(** Committed entries are final.  If an index is committed at a peer in one state and at any peer
    in the same or a later state, both have the same entry there. *)
Theorem committed_entries_final s1 s2 (i j : nat) rf1 rf2 k :
  rtc net_step (net_init n) s1 → rtc net_step s1 s2 →
  nodes (base s1) !! i = Some rf1 → 0 < k ≤ commitIndex rf1 →
  nodes (base s2) !! j = Some rf2 → 0 < k ≤ commitIndex rf2 →
  ∃ e, entryAt (logs rf1) k = Some e ∧ entryAt (logs rf2) k = Some e.
Proof.
  intros H1 H2 Hi Hk1 Hj Hk2. destruct (reachable_pair n _ _ H1 H2) as (g1 & g2 & Hx & [HI1 _] & [HI2 _]).
  destruct (node_committed n g1 i rf1 k) as (T1 & i1 & Hc1 & _ & Hle1 & He1); [by eapply nv_nodes|done|].
  destruct (node_committed n g2 j rf2 k) as (T2 & i2 & Hc2 & _ & Hle2 & ->); [by eapply nv_nodes|done|].
  pose proof (ok_commit _ (nh_ok _ _ _ _ (nv_nodes _ _ _ HI1 _ _ Hi))) as Hci.
  rewrite (nh_first _ _ _ _ (nv_nodes _ _ _ HI1 _ _ Hi)) in Hci.
  destruct (entryAt_total (logs rf1) k) as [e He].
  { rewrite (nh_first _ _ _ _ (nv_nodes _ _ _ HI1 _ _ Hi)). lia. }
  exists e. split; [done|]. rewrite He in He1.
  rewrite <-(committed_agree n g2 (nv_ghost _ _ _ HI2) T1 i1 T2 i2) by
    (done || lia || by eapply committed_ext).
  eapply prefix_lookup_eq; [apply (gx_log _ _ Hx)|done].
Qed.


End safety.

(** ** The hypotheses hold on a concrete run *)
Module SafetyExamples.
#[local] Existing Instance entry_countable.
#[local] Instance codec : Codec (hard_state Z) := countable_codec (hard_state Z).
#[local] Instance codec_laws : CodecLaws (hard_state Z) := countable_codec_laws _.

(** Peer 0 leads term 1 and commits command 7 with peer 1, which applies nothing yet. *)
Definition first_leader : list (NetAction Z) :=
  [ NTimeout 0; NDeliverVote 0; NVoteReply 0; NDeliverAppend 0; NAppendReply 0; NDeliverAppend 1;
    NStart 0 (Some 7); NDeliverAppend 2; NAppendReply 2; NTake 0; NDone 0 ].
(** It crashes; peer 1 leads term 2, brings peer 2 up to date through a conflict, a refused snapshot
    and a full suffix, and commits command 8. *)
Definition second_leader : list (NetAction Z) :=
  [ NRestart 0; NTimeout 1; NDeliverVote 3; NVoteReply 3; NStart 1 (Some 8); NDeliverAppend 5;
    NAppendReply 5; NHeartbeat 1; NDeliverInstall 0; NInstallReply 0; NHeartbeat 1;
    NDeliverAppend 10; NAppendReply 10; NHeartbeat 1; NDeliverAppend 12; NTake 2; NTake 1 ].

Definition after (l : list (NetAction Z)) : Net Z := default (net_init 3) (net_run (net_init 3) l).
Definition peer (s : Net Z) (i : nat) : Raft Z := default (p_rf (fresh 3 0)) (nodes (base s) !! i).
Definition early : Net Z := after first_leader.
Definition late : Net Z := after (first_leader ++ second_leader).

Lemma early_reached : rtc net_step (net_init 3) early.
Proof. apply (net_run_steps first_leader). by vm_compute. Qed.
Lemma late_reached : rtc net_step early late.
Proof. apply (net_run_steps second_leader). by vm_compute. Qed.
Lemma late_reachable : rtc net_step (net_init 3) late.
Proof. etrans; [apply early_reached|apply late_reached]. Qed.

Definition msg7 : ApplyMsg Z := mkApplyMsg true (Some 7) 1 1 false [] 0 0.
Definition msg8 : ApplyMsg Z := mkApplyMsg true (Some 8) 2 2 false [] 0 0.




Lemma committed_entries_final_witness :
  ∃ e, entryAt (logs (peer early 0)) 1 = Some e ∧ entryAt (logs (peer late 2)) 1 = Some e.
Proof.
  apply (committed_entries_final 3 early late 0 2 (peer early 0) (peer late 2) 1 early_reached late_reached);
    by vm_compute.
Defined.


End SafetyExamples.
