(* ===== verification/RaftTheorems.v ===== *)
(** * What the Raft component guarantees

    The properties of [raft/], each proved from the lemmas of the component files, with a concrete
    peer or pair of peers on which its hypotheses hold. *)
From S2P Require Import Prelude Raft RaftLog RaftNode RaftVote RaftReplicate RaftLeader RaftSnapshot.
From S2P Require Import RaftProc.

Section theorems.
Context {Cmd : Type} `{CodecLaws (hard_state Cmd)}.
Implicit Types (rf : Raft Cmd) (args : AppendEntriesArgs Cmd).

(** C19: [RequestVote] never panics on a well-formed log; it grants the vote exactly when the term
    is current or newer, the peer has not voted for another candidate in that term and the
    candidate's log is at least as up to date; the reply carries the resulting term, and the vote
    is on disk before it is sent. *)
Theorem RequestVote_grants_iff rf (args : RequestVoteArgs) :
  node_ok rf →
  wp (RequestVote args) (λ reply rf' _,
    rvr_VoteGranted reply = vote_rule rf args ∧ rvr_Term reply = currentTerm rf' ∧
    currentTerm rf' = Z.max (currentTerm rf) (rv_Term args) ∧
    votedFor rf' = (if vote_rule rf args then rv_CandidateId args
                    else if currentTerm rf <? rv_Term args then -1 else votedFor rf) ∧
    logs rf' = logs rf ∧ durable rf') rf.
Proof.
  intros Hok. apply wp_RequestVote; [by apply ok_log|]. intros _. simpl.
  pose proof (node_ok_vote_state rf args Hok) as [Hok' _].
  split_and!; [done|..|by apply ok_durable]; clear Hok'; unfold vote_state;
    destruct (vote_rule rf args) eqn:Hr; destruct (currentTerm rf <? rv_Term args) eqn:Ht; simpl;
    try done; unfold vote_rule in Hr; lia.
Qed.

(** C20: [AppendEntries] on every branch.  With entries that follow [PrevLogIndex] the handler does
    not panic and its result is one of: stale term rejected; newer term adopted; previous entry
    already compacted; log too short (hint: its last index); term conflict at [PrevLogIndex]
    (hint: the conflicting term and the index just before its first entry); or the entries merged
    into the log and the commit index advanced. *)
Theorem AppendEntries_outcomes rf args :
  log_wf (logs rf) → contiguous (ae_PrevLogIndex args + 1) (ae_Entries args) →
  wp (AppendEntries args) (λ reply rf' _, ae_outcome rf args reply rf') rf.
Proof. intros ? ?. by apply wp_AppendEntries. Qed.

(** Log Matching is preserved by replication.  When a follower accepts the entries of a leader
    whose log matches its own, the two logs agree at every index up to the end of the leader's
    log, and Log Matching with any third log that matched both is kept; a rejected request leaves
    the log alone. *)
Theorem AppendEntries_log_matching (L : Raft Cmd) rf args :
  node_ok L → node_ok rf → leader_args L args → LogMatch (logs L) (logs rf) →
  wp (AppendEntries args) (λ reply rf' _,
    (aer_Success reply = false → logs rf' = logs rf) ∧
    (aer_Success reply = true →
       (∀ j, j ≤ last_idx (logs L) → ent_match (logs L) (logs rf') j) ∧
       last_idx (logs L) ≤ last_idx (logs rf') ∧
       ∀ l3, LogMatch (logs L) l3 → LogMatch (logs rf) l3 → LogMatch (logs rf') l3)) rf.
Proof.
  intros HL Hok Hargs Hm. pose proof (ok_log _ HL) as HLw. pose proof (ok_log _ Hok) as Hw.
  destruct (leader_args_shape L args HL Hargs) as (Hc & Hend & _).
  apply wp_AppendEntries; [done..|]. intros reply rf' _ Ho.
  destruct Ho as [?|?|? ?|? ? ?|x r ? ? ? ? ? ?|x rf1 rf' Ht Hx Hxt Hrf1 Hrf']; simpl;
    (split; [try done; intros _; by rewrite ?demote_logs|try done]).
  intros _. destruct Hargs as (a & Ha & Hargs). pose proof (entryAt_range _ _ _ Ha).
  pose proof (entryAt_range _ _ _ Hx).
  assert (logs rf' = merged rf args) as ->.
  { assert (logs rf1 = merged rf args) as <-.
    { destruct Hrf1 as [[-> ->]| ->]; by rewrite ?demote_logs. }
    by destruct Hrf' as [[-> _]| ->]. }
  unfold merged, merge_at. rewrite Hargs in *. simpl in *.
  assert (∀ y z, entryAt (logs L) (ae_PrevLogIndex args) = Some y →
    entryAt (logs rf) (ae_PrevLogIndex args) = Some z → Term y = Term z) as Hprev.
  { intros y z Hy Hz. rewrite Ha in Hy. rewrite Hx in Hz. by simplify_eq. }
  split_and!.
  - intros j Hj. by apply merged_agrees.
  - destruct (merged_wf (logs L) (logs rf) (ae_PrevLogIndex args)) as [_ Hf]; [done..|].
    unfold last_idx at 2. rewrite Hf.
    pose proof (merge_length_ge (logs rf) (Z.to_nat (ae_PrevLogIndex args - first_idx (logs rf) + 1))
      (drop (Z.to_nat (ae_PrevLogIndex args - first_idx (logs L) + 1)) (logs L))) as Hlen.
    unfold last_idx in *. rewrite length_drop in *. lia.
  - intros l3 HL3 Hl3. by apply merged_LogMatch.
Qed.

(** The follower's commit rule is the paper's.  After accepting a request built from a leader's
    log, the commit index is the maximum of the old one and the smaller of [LeaderCommit] and the
    index of the last entry of the request, although the code takes the minimum with its own last
    index. *)
Theorem AppendEntries_commit_index (L : Raft Cmd) rf args :
  node_ok L → node_ok rf → leader_args L args →
  wp (AppendEntries args) (λ reply rf' _,
    commitIndex rf' = (if aer_Success reply
      then Z.max (commitIndex rf)
             (Z.min (ae_LeaderCommit args) (ae_PrevLogIndex args + zlen (ae_Entries args)))
      else commitIndex rf)) rf.
Proof.
  intros HL Hok Hargs. destruct (leader_args_shape L args HL Hargs) as (Hc & Hend & Hlc).
  pose proof (ok_log _ Hok) as Hw. apply wp_AppendEntries; [done..|]. intros reply rf' _ Ho.
  destruct Ho as [?|?|? ?|? ? ?|x r ? ? ? ? ? ?|x rf1 rf' Ht Hx Hxt Hrf1 Hrf']; simpl;
    rewrite ?demote_commit; try done.
  destruct (merged_log_wf rf args x) as (Hk & Hc' & Hmwf & Hmf); [done..|].
  pose proof (merge_length_ge (logs rf) (merge_at rf args) (ae_Entries args)) as Hlen.
  pose proof (entryAt_range _ _ _ Hx).
  assert (ae_PrevLogIndex args + zlen (ae_Entries args) ≤ last_idx (merged rf args)).
  { unfold last_idx. rewrite Hmf. unfold merged, merge_at in *. lia. }
  assert (commitIndex rf1 = commitIndex rf) as Hc1.
  { destruct Hrf1 as [[-> _]| ->]; simpl; by rewrite demote_commit. }
  destruct Hrf' as [[-> Hcr]| ->]; simpl; unfold commit_rule in *; case_match; lia.
Qed.

(** C21: [leaderCommitLog] moves the commit index of a leader to the largest index after it that
    holds an entry of the current term stored by a majority (counting the leader once), and leaves
    it where it is when there is none; nothing else changes, and no peer that is not leader
    commits. *)
Theorem leaderCommitLog_largest rf :
  node_ok rf →
  wp leaderCommitLog (λ _ rf' _, ∃ c, rf' = set_commitIndex c rf ∧
    (role rf ≠ LEADER → c = commitIndex rf) ∧
    (role rf = LEADER →
       (c = commitIndex rf ∨ commitIndex rf < c ≤ last_idx (logs rf) ∧ committable rf c = true) ∧
       ∀ i, c < i ≤ last_idx (logs rf) → committable rf i = false)) rf.
Proof. intros Hok. apply wp_leaderCommitLog; [done|]. intros c w Hl Hn. by exists c. Qed.

(** [findLastLogInXTerm] finds the last entry of the conflicting term if the log has one above
    smaller terms, and returns -1 otherwise, provided the log reaches index 0 or holds some entry
    of at most that term. *)
Theorem findLastLogInXTerm_result rf (term : Z) :
  node_ok rf → scannable (logs rf) term (last_idx (logs rf)) →
  wp (findLastLogInXTerm term) (λ r rf' w,
    rf' = rf ∧ w = [] ∧ scan_result (logs rf) term (last_idx (logs rf)) r) rf.
Proof. intros Hok Hs. apply wp_findLastLogInXTerm; [by apply ok_log|done|]. intros r. done. Qed.

(** The proviso is needed: on a well-formed peer whose log was compacted past index 1 and whose
    entries are all of later terms, [findLastLogInXTerm] runs below the start of the log and
    panics. *)
Theorem findLastLogInXTerm_panics rf (term : Z) :
  node_ok rf → 1 < first_idx (logs rf) →
  (∀ j e, entryAt (logs rf) j = Some e → term < Term e) →
  findLastLogInXTerm term rf = None.
Proof.
  intros Hok Hf Hgt. pose proof (ok_log _ Hok) as Hwf. pose proof (ok_commit _ Hok).
  destruct (last_log_idx _ Hwf) as (la & Hla & Hlai). destruct (first_log_idx _ Hwf) as (f & Hff & Hfi).
  unfold findLastLogInXTerm, getLastLog, getFirstLog, mbind, M_bind, get, lift.
  rewrite Hla. cbn -[index findLastLoop]. rewrite Hff. cbn -[index findLastLoop]. rewrite Hlai, Hfi.
  rewrite findLastLoop_panic; [done|done|lia|lia|lia|]. intros j e _. apply Hgt.
Qed.

(** A heartbeat or replication round changes nothing in the leader and sends, in peer order,
    one message to every other peer: the whole log suffix after [nextIndex-1] with the matching
    previous entry, or the snapshot when that entry is compacted, or nothing when the peer is up
    to date and no heartbeat is due. *)
Theorem appendEntries_messages rf (heartbeat : bool) :
  node_ok rf → role rf = LEADER →
  wp (appendEntries heartbeat) (λ _ rf' w, rf' = rf ∧
    ∃ ws, Forall2 (peer_message rf heartbeat) (zrange 0 (npeers rf)) ws ∧ w = concat ws) rf.
Proof.
  intros Hok Hr. apply wp_appendEntries; [by apply ok_log|by apply ok_next|by apply ok_leader|].
  intros ws Hws. eauto.
Qed.

(** [Snapshot] replaces the log up to the snapshot index by a dummy entry that keeps its index
    and term, keeps every later entry, and saves state and snapshot together. *)
Theorem Snapshot_trims rf (idx : Z) (snap : list byte) :
  node_ok rf → first_idx (logs rf) < idx ≤ commitIndex rf →
  wp (Snapshot idx snap) (λ _ rf' _, node_ok rf' ∧
    first_idx (logs rf') = idx ∧ last_idx (logs rf') = last_idx (logs rf) ∧
    (∀ j, idx < j → entryAt (logs rf') j = entryAt (logs rf) j) ∧
    (∀ e, entryAt (logs rf) idx = Some e → entryAt (logs rf') idx = Some (mkEntry idx (Term e) None)) ∧
    ReadSnapshot (persister rf') = snap) rf.
Proof.
  intros Hok Hi. pose proof (ok_commit _ Hok). pose proof (ok_log _ Hok) as Hwf.
  destruct (trim_spec (logs rf) idx) as (Htw & Htf & Htl & Hte & Htd); [done|lia|].
  apply wp_Snapshot; [done|lia|lia|]. intros _.
  split; [apply node_ok_snapshotted; done || lia|]. simpl. split_and!; try done.
  unfold ReadSnapshot. simpl. by rewrite !clone_id.
Qed.

(** [CondInstallSnapshot] refuses a snapshot that is not past the commit index and changes
    nothing; otherwise the log starts at the snapshot's index and term, keeps exactly the entries
    after it, commit and apply indices move to it, and state and snapshot are saved together. *)
Theorem CondInstallSnapshot_installs rf (term idx : Z) (snap : list byte) :
  node_ok rf →
  wp (CondInstallSnapshot term idx snap) (λ ok rf' _, node_ok rf' ∧
    ok = (commitIndex rf <? idx) ∧
    (ok = false → rf' = rf) ∧
    (ok = true → first_idx (logs rf') = idx ∧ last_idx (logs rf') = Z.max idx (last_idx (logs rf)) ∧
       (∀ j, idx < j → entryAt (logs rf') j = entryAt (logs rf) j) ∧
       commitIndex rf' = idx ∧ LastApplied rf' = idx ∧ ReadSnapshot (persister rf') = snap)) rf.
Proof.
  intros Hok. pose proof (ok_commit _ Hok). pose proof (ok_log _ Hok) as Hwf.
  eapply wp_mono; [apply wp_and; [by apply CondInstallSnapshot_node|]|].
  { apply (wp_CondInstallSnapshot rf term idx snap (λ ok rf' _, ok = (commitIndex rf <? idx) ∧
      (ok = false → rf' = rf) ∧ (ok = true → rf' = installed rf term idx snap))); [done|..];
      intros ?; split_and!; done || lia. }
  intros ok rf' _ [(Hok' & _) (Hb & Hf & Ht)]. split_and!; [done..|].
  intros Htrue. rewrite (Ht Htrue). rewrite Htrue in Hb.
  destruct (installed_log_wf (logs rf) term idx) as (_ & Hif & Hil & Hie); [done|lia|].
  simpl. split_and!; try done. unfold ReadSnapshot. simpl. by rewrite !clone_id.
Qed.

(** The applier hands over exactly the committed entries after [LastApplied], in index order
    without gaps. *)
Theorem applier_batch_exact rf :
  node_ok rf → first_idx (logs rf) ≤ LastApplied rf → applierReady rf = true →
  wp applierTake (λ b rf' _, rf' = rf ∧ b.2 = commitIndex rf ∧
    (CommandIndex <$> applierMsgs b.1) = zrange (LastApplied rf + 1) (commitIndex rf + 1) ∧
    ∀ j, LastApplied rf < j ≤ commitIndex rf →
      entryAt (logs rf) j = b.1 !! Z.to_nat (j - LastApplied rf - 1)) rf.
Proof.
  intros Hok Hf _. apply wp_applierTake; [done..|]. intros es Hc Hlen Hes. simpl. split_and!; try done.
  pose proof (ok_applied _ Hok). unfold applierMsgs. rewrite <-list_fmap_compose.
  apply list_eq. intros n. rewrite list_lookup_fmap. unfold zrange.
  destruct (es !! n) as [e|] eqn:He; simpl; symmetry.
  - pose proof (lookup_lt_Some _ _ _ He). rewrite (Hc _ _ He). apply lookup_seqZ. lia.
  - apply lookup_ge_None in He. apply lookup_ge_None. rewrite length_seqZ. lia.
Qed.


(** C26: Durability.  Whenever a peer crashes and restarts from its persister, it comes back with the
    term, the vote and the log it had, and with its commit index at the start of the log. *)
Theorem restart_recovers (n self : Z) (p : Proc (Cmd := Cmd)) :
  0 ≤ self < n → rtc proc_step (fresh n self) p →
  ∃ rf', Make (npeers (p_rf p)) (me (p_rf p)) (persister (p_rf p)) = Some rf' ∧
    currentTerm rf' = currentTerm (p_rf p) ∧ votedFor rf' = votedFor (p_rf p) ∧
    logs rf' = logs (p_rf p) ∧ role rf' = FOLLOWER ∧ commitIndex rf' = first_idx (logs (p_rf p)).
Proof.
  intros Hs Hsteps. destruct (proc_steps_ok _ _ Hsteps (fresh_ok n self Hs)) as [Hok _].
  eexists. split; [apply Make_durable; [by apply ok_durable|by apply ok_log]|]. done.
Qed.
End theorems.

(** ** The hypotheses hold on concrete peers *)
Module RaftExamples.
#[local] Instance codec : Codec (hard_state Z) := countable_codec (hard_state Z).
#[local] Instance codec_laws : CodecLaws (hard_state Z) := countable_codec_laws _.

(** A leader of term 1 with two entries, a follower that has neither, and a peer whose log starts
    at a snapshot. *)
Definition leader : Raft Z := persisted
  (mkRaft 3 MakePersister 0 0 LEADER 1 0 [mkEntry 0 0 None; mkEntry 1 1 (Some 7); mkEntry 2 1 (Some 8)]
     1 0 [3; 1; 1] [0; 2; 0]).
Definition follower : Raft Z := persisted
  (mkRaft 3 MakePersister 1 0 FOLLOWER 1 0 [mkEntry 0 0 None] 0 0 [0; 0; 0] [0; 0; 0]).
Definition compacted : Raft Z := persisted
  (mkRaft 3 MakePersister 2 0 LEADER 3 2 [mkEntry 5 3 None; mkEntry 6 3 (Some 9)] 5 5 [7; 7; 7] [0; 0; 0]).

Definition request : AppendEntriesArgs Z :=
  mkAEArgs 1 0 0 0 [mkEntry 1 1 (Some 7); mkEntry 2 1 (Some 8)] 1.
Definition vote_request : RequestVoteArgs := mkRVArgs 2 2 0 0.

(** A well-formed log, decided by looking at every entry. *)
Definition log_wfb (l : list (Entry Z)) : bool :=
  match l with
  | [] => false
  | _ => bool_decide ((Index <$> l) = zrange (first_idx l) (first_idx l + zlen l))
  end.
Lemma log_wfb_wf l : log_wfb l = true → log_wf l.
Proof.
  destruct l as [|e l']; [done|]. set (l := e :: l'). intros Hb%bool_decide_eq_true. split; [done|].
  intros k x Hx. assert ((Index <$> l) !! k = Some (Index x)) as Hk by (by rewrite list_lookup_fmap, Hx).
  rewrite Hb in Hk. by apply lookup_seqZ in Hk as [? _].
Qed.

Lemma leader_ok : node_ok leader.
Proof.
  split; try (vm_compute; intuition congruence).
  - by apply log_wfb_wf.
  - intros _. repeat constructor; by vm_compute.
  - apply durable_persisted.
Qed.
Lemma follower_ok : node_ok follower.
Proof. split; try (vm_compute; intuition congruence); [by apply log_wfb_wf|apply durable_persisted]. Qed.
Lemma compacted_ok : node_ok compacted.
Proof.
  split; try (vm_compute; intuition congruence).
  - by apply log_wfb_wf.
  - intros _. repeat constructor; by vm_compute.
  - apply durable_persisted.
Qed.
Lemma request_of_leader : leader_args leader request.
Proof. exists (mkEntry 0 0 None). by vm_compute. Qed.
Lemma request_contiguous : contiguous (ae_PrevLogIndex request + 1) (ae_Entries request).
Proof. by destruct (leader_args_shape leader request leader_ok request_of_leader). Qed.
Lemma logs_match : LogMatch (logs leader) (logs follower).
Proof.
  intros i x y _ _ _ j _ a b Ha Hb. pose proof (entryAt_range _ _ _ Hb) as Hr.
  assert (first_idx (logs follower) = 0 ∧ last_idx (logs follower) = 0) as [Hf Hl] by done.
  assert (j = 0) as -> by lia. vm_compute in Ha, Hb. by simplify_eq.
Qed.

Lemma RequestVote_grants_iff_witness :
  node_ok follower ∧ wp (RequestVote vote_request) (λ reply _ _, rvr_VoteGranted reply = true) follower.
Proof.
  split; [apply follower_ok|].
  eapply wp_mono; [apply (RequestVote_grants_iff follower vote_request follower_ok)|].
  intros reply rf' w (Hg & _). rewrite Hg. by vm_compute.
Defined.

Lemma AppendEntries_outcomes_witness :
  wp (AppendEntries request) (λ reply rf' _, ae_outcome follower request reply rf') follower.
Proof. apply AppendEntries_outcomes; [by apply log_wfb_wf|apply request_contiguous]. Defined.

Lemma AppendEntries_log_matching_witness :
  ∃ reply rf' w, AppendEntries request follower = Some (reply, rf', w) ∧ aer_Success reply = true ∧
    ∀ j, j ≤ 2 → ent_match (logs leader) (logs rf') j.
Proof.
  destruct (wp_total _ _ _ (AppendEntries_log_matching leader follower request leader_ok follower_ok
    request_of_leader logs_match)) as (reply & rf' & w & Hrun & _ & Hs).
  exists reply, rf', w. assert (aer_Success reply = true) as Ht.
  { vm_compute in Hrun. by simplify_eq. }
  split_and!; [done|done|]. intros j Hj. by apply (Hs Ht).
Defined.

Lemma AppendEntries_commit_index_witness :
  wp (AppendEntries request) (λ reply rf' _, aer_Success reply = true → commitIndex rf' = 1) follower.
Proof.
  eapply wp_mono; [apply (AppendEntries_commit_index leader follower request leader_ok follower_ok
    request_of_leader)|]. intros reply rf' w -> ->. by vm_compute.
Defined.

Lemma leaderCommitLog_largest_witness :
  node_ok leader ∧ wp leaderCommitLog (λ _ rf' _, ∃ c, rf' = set_commitIndex c leader) leader.
Proof.
  split; [apply leader_ok|]. eapply wp_mono; [apply (leaderCommitLog_largest leader leader_ok)|].
  intros [] rf' w (c & -> & _). eauto.
Defined.

Lemma findLastLogInXTerm_result_witness :
  wp (findLastLogInXTerm 1) (λ r rf' _, rf' = leader ∧ scan_result (logs leader) 1 2 r) leader.
Proof.
  eapply wp_mono; [apply (findLastLogInXTerm_result leader 1 leader_ok); by left|].
  intros r rf' w (? & _ & ?). done.
Defined.

Lemma findLastLogInXTerm_panics_witness : findLastLogInXTerm 2 compacted = None.
Proof.
  apply (findLastLogInXTerm_panics compacted 2 compacted_ok); [done|].
  intros j e He. pose proof (entryAt_range _ _ _ He) as Hr.
  assert (first_idx (logs compacted) = 5 ∧ last_idx (logs compacted) = 6) as [Hf Hl] by done.
  assert (j = 5 ∨ j = 6) as [-> | ->] by lia; vm_compute in He; by simplify_eq.
Defined.

Lemma appendEntries_messages_witness :
  node_ok leader ∧ role leader = LEADER ∧
  wp (appendEntries true) (λ _ rf' _, rf' = leader) leader.
Proof.
  split_and!; [apply leader_ok|done|].
  eapply wp_mono; [apply (appendEntries_messages leader true leader_ok); done|]. by intros [] rf' w [? _].
Defined.

Lemma Snapshot_trims_witness :
  wp (Snapshot 1 [x01]) (λ _ rf' _, first_idx (logs rf') = 1) leader.
Proof.
  eapply wp_mono; [apply (Snapshot_trims leader 1 [x01] leader_ok); by vm_compute|].
  intros [] rf' w (_ & ? & _). done.
Defined.

Lemma CondInstallSnapshot_installs_witness :
  wp (CondInstallSnapshot 1 2 [x01]) (λ ok rf' _, ok = true) leader.
Proof.
  eapply wp_mono; [apply (CondInstallSnapshot_installs leader 1 2 [x01] leader_ok)|].
  intros ok rf' w (_ & -> & _). done.
Defined.

Lemma applier_batch_exact_witness :
  wp applierTake (λ b _ _, (CommandIndex <$> applierMsgs b.1) = [1]) leader.
Proof.
  eapply wp_mono; [apply (applier_batch_exact leader leader_ok); by vm_compute|].
  intros b rf' w (_ & _ & -> & _). done.
Defined.


Lemma restart_recovers_witness :
  ∃ rf', Make 3 0 MakePersister = Some rf' ∧ logs rf' = [mkEntry 0 0 (None : option Z)].
Proof.
  destruct (restart_recovers 3 0 (fresh (Cmd := Z) 3 0)) as (rf' & Hm & _ & _ & Hl & _); [done|done|].
  exists rf'. done.
Defined.
End RaftExamples.
