(* ===== verification/Rsm.v ===== *)
(** * Replicated state machines with duplicate detection

    The services of [kvraft], [shardctrler] and [shardkv] apply a log of client commands in which a
    retried command may occur more than once.  Each server keeps, per client, the largest command
    id applied and the reply to it.  This file is the theory of that scheme for any state machine:
    the services' own appliers are shown to be instances of it. *)
From S2P Require Import Prelude.

(** What the scheme needs from a service: who sent a command, its sequence number, whether it is
    deduplicated (reads are not), and its effect. *)
Class Rsm (C S R : Type) := {
  rsm_client : C → Z;
  rsm_seq : C → Z;
  rsm_writes : C → bool;
  rsm_exec : C → S → R * S;
}.

Section rsm.
Context {C S R : Type} `{Rsm C S R}.
Implicit Types (c : C) (s : S) (t : gmap Z (Z * R)) (log : list C).

(** The server's table says the command was applied. *)
Definition applied t c : bool :=
  match t !! rsm_client c with
  | Some (m, _) => rsm_seq c <=? m
  | None => false
  end.

(** One log entry. *)
Definition dedup_apply (st : S * gmap Z (Z * R)) c : option R * (S * gmap Z (Z * R)) :=
  let '(s, t) := st in
  if rsm_writes c && applied t c then (snd <$> t !! rsm_client c, st)
  else let '(r, s') := rsm_exec c s in
       (Some r, (s', if rsm_writes c then <[rsm_client c := (rsm_seq c, r)]> t else t)).

Definition dedup_run log (st : S * gmap Z (Z * R)) : S * gmap Z (Z * R) :=
  foldl (λ st c, snd (dedup_apply st c)) st log.

(** The specification: every command once, in the order of first occurrence. *)
Definition plain_run log s : S := foldl (λ s c, snd (rsm_exec c s)) s log.

Definition same_request c c' : bool :=
  rsm_writes c && rsm_writes c' && (rsm_client c =? rsm_client c') && (rsm_seq c =? rsm_seq c').

Fixpoint firsts (seen log : list C) : list C :=
  match log with
  | [] => []
  | c :: log => (if existsb (same_request c) seen then [] else [c]) ++ firsts (seen ++ [c]) log
  end.

(** Clients number their commands and move to the next only after the last was answered: a write is
    a repetition or newer than every earlier write of its client. *)
Definition ordered log : Prop :=
  ∀ pre c suf, log = pre ++ c :: suf → rsm_writes c = true →
    existsb (same_request c) pre = true ∨
    ∀ c', c' ∈ pre → rsm_writes c' = true → rsm_client c' = rsm_client c → rsm_seq c' < rsm_seq c.

(** The table after a prefix: the newest write of every client. *)
Definition table_ok (pre : list C) t : Prop :=
  ∀ k, match t !! k with
       | Some (m, _) => (∃ c, c ∈ pre ∧ rsm_writes c = true ∧ rsm_client c = k ∧ rsm_seq c = m) ∧
           ∀ c, c ∈ pre → rsm_writes c = true → rsm_client c = k → rsm_seq c ≤ m
       | None => ∀ c, c ∈ pre → rsm_writes c = true → rsm_client c ≠ k
       end.

Lemma existsb_same pre c :
  existsb (same_request c) pre = true ↔
  ∃ c', c' ∈ pre ∧ rsm_writes c = true ∧ rsm_writes c' = true ∧
    rsm_client c' = rsm_client c ∧ rsm_seq c' = rsm_seq c.
Proof.
  rewrite existsb_exists. unfold same_request. split; intros (c' & Hin & Hs); exists c';
    rewrite !andb_true_iff, !Z.eqb_eq, list_elem_of_In in *; intuition congruence.
Qed.

(** The table recognises exactly the repetitions. *)
Lemma applied_spec pre t c :
  table_ok pre t → rsm_writes c = true →
  (existsb (same_request c) pre = true ∨
   ∀ c', c' ∈ pre → rsm_writes c' = true → rsm_client c' = rsm_client c → rsm_seq c' < rsm_seq c) →
  applied t c = existsb (same_request c) pre.
Proof.
  intros Ht Hw Ho. unfold applied. specialize (Ht (rsm_client c)).
  destruct (t !! rsm_client c) as [[m r]|].
  - destruct Ht as [(c0 & Hin & Hw0 & Hc0 & Hm) Hmax]. destruct Ho as [Ho|Ho].
    + rewrite Ho. apply existsb_same in Ho as (c' & Hin' & _ & Hw' & Hc' & Hs').
      specialize (Hmax c' Hin' Hw' Hc'). lia.
    + pose proof (Ho c0 Hin Hw0 Hc0). destruct (existsb _ pre) eqn:He; [|lia].
      apply existsb_same in He as (c' & Hin' & _ & Hw' & Hc' & Hs').
      pose proof (Ho c' Hin' Hw' Hc'). lia.
  - destruct (existsb _ pre) eqn:He; [|done].
    apply existsb_same in He as (c' & Hin' & _ & Hw' & Hc' & _). by destruct (Ht c').
Qed.

Lemma table_ok_skip pre t c :
  table_ok pre t → rsm_writes c = false ∨ existsb (same_request c) pre = true → table_ok (pre ++ [c]) t.
Proof.
  intros Ht Hc k. specialize (Ht k).
  assert (rsm_writes c = true → ∃ c', c' ∈ pre ∧ rsm_writes c' = true ∧
    rsm_client c' = rsm_client c ∧ rsm_seq c' = rsm_seq c) as Hrep.
  { intros Hw. destruct Hc as [?|Hc]; [congruence|]. apply existsb_same in Hc as (c' & ?). naive_solver. }
  destruct (t !! k) as [[m r]|].
  - destruct Ht as [(c0 & ? & ?) Hmax]. split; [exists c0; set_solver|].
    intros c1 [?| ->%list_elem_of_singleton]%elem_of_app Hw Hk; [auto|].
    destruct (Hrep Hw) as (c' & Hin & Hw' & Hcl & <-). apply Hmax; congruence.
  - intros c1 [?| ->%list_elem_of_singleton]%elem_of_app Hw; [auto|].
    destruct (Hrep Hw) as (c' & Hin & Hw' & <- & _). auto.
Qed.

Lemma table_ok_insert pre t c r :
  table_ok pre t → rsm_writes c = true →
  (∀ c', c' ∈ pre → rsm_writes c' = true → rsm_client c' = rsm_client c → rsm_seq c' < rsm_seq c) →
  table_ok (pre ++ [c]) (<[rsm_client c := (rsm_seq c, r)]> t).
Proof.
  intros Ht Hw Hnew k. destruct (decide (k = rsm_client c)) as [->|Hk].
  - rewrite lookup_insert_eq. split; [exists c; set_solver|].
    intros c' [Hin| ->%list_elem_of_singleton]%elem_of_app Hw' Hc'; [|lia].
    pose proof (Hnew c' Hin Hw' Hc'). lia.
  - rewrite lookup_insert_ne by done. specialize (Ht k). destruct (t !! k) as [[m r']|].
    + destruct Ht as [(c0 & ? & ?) Hmax]. split; [exists c0; set_solver|].
      intros c' [?| ->%list_elem_of_singleton]%elem_of_app ??; [auto|done].
    + intros c' [?| ->%list_elem_of_singleton]%elem_of_app ?; auto.
Qed.

Lemma dedup_run_gen log pre s t :
  table_ok pre t → ordered (pre ++ log) →
  fst (dedup_run log (s, t)) = plain_run (firsts pre log) s ∧
  table_ok (pre ++ log) (snd (dedup_run log (s, t))).
Proof.
  revert pre s t. induction log as [|c log IH]; intros pre s t Ht Ho.
  { simpl. by rewrite app_nil_r. }
  specialize (Ho pre c log eq_refl) as Hc. rewrite cons_middle, (assoc_L (++)) in Ho |- *.
  cbn [dedup_run foldl firsts]. unfold dedup_apply at 2 4.
  destruct (rsm_writes c) eqn:Hw; simpl.
  - rewrite (applied_spec pre t c Ht Hw (Hc eq_refl)).
    destruct (existsb (same_request c) pre) eqn:He; simpl.
    + apply (IH (pre ++ [c])); [|done]. apply table_ok_skip; auto.
    + destruct (rsm_exec c s) as [r s'] eqn:Hex. simpl. unfold plain_run. simpl. rewrite ?Hex. simpl.
      apply (IH (pre ++ [c])); [|done]. apply table_ok_insert; [done|done|].
      destruct (Hc eq_refl) as [?|?]; [congruence|done].
  - assert (existsb (same_request c) pre = false) as ->.
    { apply not_true_is_false. intros (c' & _ & ? & _)%existsb_same. congruence. }
    destruct (rsm_exec c s) as [r s'] eqn:Hex. simpl. unfold plain_run. simpl. rewrite ?Hex. simpl.
    apply (IH (pre ++ [c])); [|done]. apply table_ok_skip; auto.
Qed.

Lemma table_ok_empty : table_ok [] ∅.
Proof. intros k. rewrite lookup_empty. intros c Hc. by apply elem_of_nil in Hc. Qed.

(** Exactly once: a log with repetitions has the effect of the log without them. *)
Lemma dedup_exactly_once log s :
  ordered log → fst (dedup_run log (s, ∅)) = plain_run (firsts [] log) s.
Proof. intros Ho. by apply (dedup_run_gen log [] s ∅ table_ok_empty Ho). Qed.

(** A write that was just applied is answered from the table until its client issues a newer one. *)
Lemma dedup_keeps_entry mid st k m r :
  snd st !! k = Some (m, r) →
  (∀ c, c ∈ mid → rsm_writes c = true → rsm_client c = k → rsm_seq c ≤ m) →
  snd (dedup_run mid st) !! k = Some (m, r).
Proof.
  revert st. induction mid as [|c mid IH]; intros [s t] Hk Hmid; [done|].
  cbn [dedup_run foldl]. apply IH; [|set_solver].
  unfold dedup_apply. destruct (rsm_writes c) eqn:Hw; simpl.
  - destruct (applied t c) eqn:Ha; [done|]. destruct (rsm_exec c s) as [r' s']. simpl.
    rewrite lookup_insert_ne; [done|]. intros Hck. unfold applied in Ha. simpl in Hk.
    rewrite Hck, Hk in Ha. specialize (Hmid c ltac:(set_solver) Hw Hck). lia.
  - by destruct (rsm_exec c s) as [r' s'].
Qed.

Lemma dedup_same_reply c mid st :
  rsm_writes c = true → applied (snd st) c = false →
  (∀ c', c' ∈ mid → rsm_writes c' = true → rsm_client c' = rsm_client c → rsm_seq c' ≤ rsm_seq c) →
  let st1 := snd (dedup_apply st c) in
  let st2 := dedup_run mid st1 in
  dedup_apply st2 c = (fst (dedup_apply st c), st2).
Proof.
  intros Hw Ha Hmid. destruct st as [s t]. simpl in Ha. destruct (rsm_exec c s) as [r s'] eqn:Hex.
  assert (dedup_apply (s, t) c = (Some r, (s', <[rsm_client c := (rsm_seq c, r)]> t))) as ->.
  { unfold dedup_apply. by rewrite Hw, Ha, Hex. }
  cbv zeta. simpl.
  assert (snd (dedup_run mid (s', <[rsm_client c := (rsm_seq c, r)]> t)) !! rsm_client c
    = Some (rsm_seq c, r)) as Hk.
  { apply dedup_keeps_entry; [apply lookup_insert_eq|done]. }
  destruct (dedup_run mid _) as [s2 t2]. simpl in Hk. unfold dedup_apply, applied. rewrite Hw, Hk. simpl.
  destruct (rsm_seq c <=? rsm_seq c) eqn:?; [done|lia].
Qed.
End rsm.
