(* ===== verification/KVRaft.v ===== *)
(** * The key/value service ([kvraft])

    [Module KVServer] models [kv.go], [common.go] and [server.go]: the state machine, the duplicate
    table, the reply channels, the [Command] handler as its sequence of critical sections, the
    applier and snapshots, on top of the Raft peer of [Raft.v].  [Module Clerk] models [client.go]. *)
From S2P Require Import Prelude Raft Rsm.

Module KVServer.

Definition OK : string := "OK".
Definition ErrNoKey : string := "ErrNoKey".
Definition ErrWrongLeader : string := "ErrWrongLeader".
Definition ErrTimeOut : string := "ErrTimeOut".
Definition OP_PUT : string := "Put".
Definition OP_APPEND : string := "Append".
Definition OP_GET : string := "Get".

Record CommandArgs := mkArgs {
  Key : string; Value : string; Op : string; ClientId : Z; CommandId : Z;
}.
Record CommandReply := mkReply { Err : string; RValue : string }.
Record OperationInfo := mkInfo { MaxAppliedCommandId : Z; LastReply : CommandReply }.

#[export] Instance CommandArgs_eq_dec : EqDecision CommandArgs.
Proof. solve_decision. Defined.
#[export] Instance CommandReply_eq_dec : EqDecision CommandReply.
Proof. solve_decision. Defined.
#[export] Instance OperationInfo_eq_dec : EqDecision OperationInfo.
Proof. solve_decision. Defined.
#[export] Instance CommandArgs_countable : Countable CommandArgs.
Proof.
  apply (inj_countable' (λ a, (Key a, Value a, Op a, ClientId a, CommandId a))
    (λ '(k, v, o, c, i), mkArgs k v o c i)). by intros [].
Defined.
#[export] Instance OperationInfo_countable : Countable OperationInfo.
Proof.
  apply (inj_countable' (λ o, (MaxAppliedCommandId o, Err (LastReply o), RValue (LastReply o)))
    (λ '(m, e, v), mkInfo m (mkReply e v))). by intros [? []].
Defined.

(** ** [MemoryKV] *)
Definition MemoryKV := gmap string string.

Definition newMemoryKV : MemoryKV := ∅.
Definition Get (mkv : MemoryKV) (key : string) : string * string :=
  match mkv !! key with
  | Some value => (value, OK)
  | None => (""%string, ErrNoKey)
  end.
Definition Put (mkv : MemoryKV) (key value : string) : string * MemoryKV := (OK, <[key := value]> mkv).
(** [mkv.KV[key] += value]: a missing key reads as the empty string. *)
Definition Append (mkv : MemoryKV) (key value : string) : string * MemoryKV :=
  (OK, <[key := (default ""%string (mkv !! key) +:+ value)%string]> mkv).

(** ** The server

    [notifyChans] maps a log index to a channel; [chans] is the store of the channels made so far,
    each with its one-slot buffer, so that a handler keeps its channel after the map forgets it. *)
Record KVServer := mkKV {
  rf : Raft CommandArgs;
  dead : Z;
  maxraftstate : Z;
  lastApplied : Z;
  stateMachine : MemoryKV;
  lastOperations : gmap Z OperationInfo;
  notifyChans : gmap Z nat;
  chans : list (option CommandReply);
}.

Definition set_rf r kv := mkKV r (dead kv) (maxraftstate kv) (lastApplied kv) (stateMachine kv)
  (lastOperations kv) (notifyChans kv) (chans kv).
Definition set_dead d kv := mkKV (rf kv) d (maxraftstate kv) (lastApplied kv) (stateMachine kv)
  (lastOperations kv) (notifyChans kv) (chans kv).
Definition set_lastApplied a kv := mkKV (rf kv) (dead kv) (maxraftstate kv) a (stateMachine kv)
  (lastOperations kv) (notifyChans kv) (chans kv).
Definition set_stateMachine m kv := mkKV (rf kv) (dead kv) (maxraftstate kv) (lastApplied kv) m
  (lastOperations kv) (notifyChans kv) (chans kv).
Definition set_lastOperations o kv := mkKV (rf kv) (dead kv) (maxraftstate kv) (lastApplied kv)
  (stateMachine kv) o (notifyChans kv) (chans kv).
Definition set_notify n c kv := mkKV (rf kv) (dead kv) (maxraftstate kv) (lastApplied kv)
  (stateMachine kv) (lastOperations kv) n c.

Section server.
Context `{Codec (hard_state CommandArgs)} `{Codec (MemoryKV * gmap Z OperationInfo)}.
(** What a failed [Decode] leaves in the variables it was to fill. *)
Context (failed_decode : list byte → MemoryKV * gmap Z OperationInfo).
Abbreviation KM := (M KVServer (Effect CommandArgs)).

(** A call into the Raft peer. *)
Definition raft_call {A} (m : M (Raft CommandArgs) (Effect CommandArgs) A) : KM A := λ kv,
  match m (rf kv) with
  | Some (a, r, w) => Some (a, set_rf r kv, w)
  | None => None
  end.

Definition isDuplicatedRequest (clientId commandId : Z) (kv : KVServer) : bool :=
  match lastOperations kv !! clientId with
  | Some info => commandId <=? MaxAppliedCommandId info
  | None => false
  end.

Definition getNotifyChan (index : Z) : KM nat :=
  kv ← get;
  match notifyChans kv !! index with
  | Some ch => mret ch
  | None =>
      modify (λ kv, set_notify (<[index := length (chans kv)]> (notifyChans kv)) (chans kv ++ [None]) kv) ;;
      mret (length (chans kv))
  end.

Definition removeOutdatedNotifyChan (index : Z) : KM unit :=
  modify (λ kv, set_notify (delete index (notifyChans kv)) (chans kv) kv).

(** [ch <- reply]: [None] when the buffer is full, where the goroutine blocks holding the lock. *)
Definition chan_send (ch : nat) (reply : CommandReply) : KM unit :=
  kv ← get;
  match chans kv !! ch with
  | Some None => modify (λ kv, set_notify (notifyChans kv) (<[ch := Some reply]> (chans kv)) kv)
  | _ => panic
  end.

Definition applyToStateMachine (command : CommandArgs) : KM CommandReply :=
  kv ← get;
  if bool_decide (Op command = OP_PUT) then
    let '(err, m) := Put (stateMachine kv) (Key command) (Value command) in
    modify (set_stateMachine m) ;; mret (mkReply err "")
  else if bool_decide (Op command = OP_APPEND) then
    let '(err, m) := Append (stateMachine kv) (Key command) (Value command) in
    modify (set_stateMachine m) ;; mret (mkReply err "")
  else if bool_decide (Op command = OP_GET) then
    let '(value, err) := Get (stateMachine kv) (Key command) in mret (mkReply err value)
  else mret (mkReply "" "").

Definition needSnapshot : KM bool :=
  kv ← get;
  if maxraftstate kv =? -1 then mret false
  else size ← raft_call GetRaftStateSize; mret (maxraftstate kv <=? size).

Definition taskSnapshot (idx : Z) : KM unit :=
  kv ← get;
  raft_call (Snapshot idx (gob_encode (stateMachine kv, lastOperations kv))).

Definition restoreSnapshot (snap : list byte) : KM unit :=
  match snap with
  | [] => mret tt
  | _ =>
      let '(m, ops) := default (failed_decode snap) (gob_decode snap) in
      modify (λ kv, set_lastOperations ops (set_stateMachine m kv))
  end.

(** The [Command] handler: the check for a duplicate under the lock, ... *)
Definition commandCheck (args : CommandArgs) : KM (option CommandReply) :=
  kv ← get;
  if negb (bool_decide (Op args = OP_GET)) && isDuplicatedRequest (ClientId args) (CommandId args) kv
  then mret (LastReply <$> lastOperations kv !! ClientId args)
  else mret None.

(** ... the entry handed to Raft ([inl] is the reply to a client of a peer that is not leader), ... *)
Definition commandStart (args : CommandArgs) : KM (CommandReply + Z) :=
  '(index, _, isLeader) ← raft_call (Start (Some args));
  if negb isLeader then mret (inl (mkReply ErrWrongLeader "")) else mret (inr index).

(** ... then [getNotifyChan] under the lock, and the receive: [None] while the buffer is empty. *)
Definition commandReceive (ch : nat) : KM (option CommandReply) :=
  kv ← get;
  match chans kv !! ch with
  | Some (Some reply) =>
      modify (λ kv, set_notify (notifyChans kv) (<[ch := None]> (chans kv)) kv) ;; mret (Some reply)
  | _ => mret None
  end.
Definition commandTimeOut : CommandReply := mkReply ErrTimeOut "".

(** One message of [applier]. *)
Definition applyMsg (msg : ApplyMsg CommandArgs) : KM unit :=
  if CommandValid msg then
    kv ← get;
    if CommandIndex msg <=? lastApplied kv then mret tt else
    modify (set_lastApplied (CommandIndex msg)) ;;
    command ← lift (ACommand msg);
    kv ← get;
    reply ←
      (if negb (bool_decide (Op command = OP_GET))
          && isDuplicatedRequest (ClientId command) (CommandId command) kv
       then lift (LastReply <$> lastOperations kv !! ClientId command)
       else
         reply ← applyToStateMachine command;
         when (negb (bool_decide (Op command = OP_GET)))
           (modify (λ kv, set_lastOperations
              (<[ClientId command := mkInfo (CommandId command) reply]> (lastOperations kv)) kv)) ;;
         mret reply);
    '(currentTerm, isLeader) ← raft_call GetState;
    when (isLeader && (CommandTerm msg =? currentTerm))
      (ch ← getNotifyChan (CommandIndex msg); chan_send ch reply) ;;
    need ← needSnapshot;
    when need (taskSnapshot (CommandIndex msg))
  else if SnapshotValid msg then
    ok ← raft_call (CondInstallSnapshot (SnapshotTerm msg) (SnapshotIndex msg) (Snap msg));
    when ok (restoreSnapshot (Snap msg) ;; modify (set_lastApplied (SnapshotIndex msg)))
  else panic.

Definition Kill : KM unit := modify (set_dead 1) ;; raft_call Raft.Kill.
Definition killed : KM bool := gets (λ kv, dead kv =? 1).

Definition StartKVServer (n self : Z) (p : Persister) (maxraftstate : Z) : option KVServer :=
  r ← Make n self p;
  run_state (restoreSnapshot (ReadSnapshot p)) (mkKV r 0 maxraftstate 0 newMemoryKV ∅ ∅ []).
End server.
End KVServer.

(** ** The client *)
Module Clerk.
Import KVServer.

Record Clerk := mkClerk { servers : Z; leaderId : Z; clientId : Z; commandId : Z }.

(** [MakeClerk] with the number [nrand()] gave. *)
Definition MakeClerk (n rand : Z) : Clerk := mkClerk n 0 rand 0.

Definition set_leaderId l ck := mkClerk (servers ck) l (clientId ck) (commandId ck).

(** Whether the loop tries again after what [Call] returned ([None]: no reply). *)
Definition retries (rpc : option CommandReply) : bool :=
  match rpc with
  | None => true
  | Some reply => bool_decide (Err reply = ErrWrongLeader) || bool_decide (Err reply = ErrTimeOut)
  end.

(** The loop of [Command], driven by what the successive calls return; it yields the value, the
    clerk and the calls made (server and arguments), and [None] while no call was decisive. *)
Fixpoint commandLoop (ck : Clerk) (args : CommandArgs) (rpcs : list (option CommandReply))
    : option (string * Clerk * list (Z * CommandArgs)) :=
  match rpcs with
  | [] => None
  | rpc :: rpcs =>
      if retries rpc then
        '(v, ck', sent) ← commandLoop (set_leaderId ((leaderId ck + 1) mod servers ck) ck) args rpcs;
        Some (v, ck', (leaderId ck, args) :: sent)
      else
        reply ← rpc;
        Some (RValue reply, mkClerk (servers ck) (leaderId ck) (clientId ck) (commandId ck + 1),
              [(leaderId ck, args)])
  end.

Definition Command (ck : Clerk) (key value op : string) (rpcs : list (option CommandReply)) :=
  commandLoop ck (mkArgs key value op (clientId ck) (commandId ck)) rpcs.
Definition Get (ck : Clerk) (key : string) := Command ck key "" OP_GET.
Definition Put (ck : Clerk) (key value : string) := Command ck key value OP_PUT.
Definition Append (ck : Clerk) (key value : string) := Command ck key value OP_APPEND.
End Clerk.
