(* ===== verification/KVRaftProofs.v ===== *)
(** * Correctness of the key/value service

    The applier is an instance of the duplicate-detection scheme of [Rsm.v]; it never blocks on a
    reply channel; a snapshot carries the whole service state. *)
From S2P Require Import Prelude Raft RaftLog RaftNode RaftSnapshot Rsm KVRaft.
Import KVServer.

(** The state machine as the reference sees it. *)
Definition kv_exec (c : CommandArgs) (m : MemoryKV) : CommandReply * MemoryKV :=
  if bool_decide (Op c = OP_PUT) then (mkReply OK "", <[Key c := Value c]> m)
  else if bool_decide (Op c = OP_APPEND) then
    (mkReply OK "", <[Key c := (default ""%string (m !! Key c) +:+ Value c)%string]> m)
  else if bool_decide (Op c = OP_GET) then
    (match m !! Key c with Some v => mkReply OK v | None => mkReply ErrNoKey "" end, m)
  else (mkReply "" "", m).

#[export] Instance kv_rsm : Rsm CommandArgs MemoryKV CommandReply := {|
  rsm_client := ClientId;
  rsm_seq := CommandId;
  rsm_writes c := negb (bool_decide (Op c = OP_GET));
  rsm_exec := kv_exec;
|}.

(** The service state of a server: store and duplicate table. *)
Definition info_pair (i : OperationInfo) : Z * CommandReply := (MaxAppliedCommandId i, LastReply i).
Definition abs (kv : KVServer) : MemoryKV * gmap Z (Z * CommandReply) :=
  (stateMachine kv, info_pair <$> lastOperations kv).

#[export] Instance info_pair_inj : Inj (=) (=) info_pair.
Proof. intros [] [] [= -> ->]. done. Qed.

(** Every channel in the map exists, belongs to one index, and is empty if its index was not yet
    applied. *)
Definition chan_ok (kv : KVServer) : Prop :=
  (∀ i ch, notifyChans kv !! i = Some ch →
     ∃ b, chans kv !! ch = Some b ∧ (is_Some b → i ≤ lastApplied kv)) ∧
  (∀ i j ch, notifyChans kv !! i = Some ch → notifyChans kv !! j = Some ch → i = j).

Section proofs.
Context `{CodecLaws (hard_state CommandArgs)} `{CodecLaws (MemoryKV * gmap Z OperationInfo)}.
Context (failed_decode : list byte → MemoryKV * gmap Z OperationInfo).
Implicit Types (kv : KVServer) (msg : ApplyMsg CommandArgs) (c : CommandArgs).
Abbreviation KQ A := (A → KVServer → list (Effect CommandArgs) → Prop).
Abbreviation applyMsg := (applyMsg failed_decode).
Abbreviation StartKVServer := (StartKVServer failed_decode).

Definition kv_ok kv : Prop := node_ok (rf kv) ∧ chan_ok kv ∧ lastApplied kv ≤ commitIndex (rf kv).

Lemma wp_raft_call {A} (m : M (Raft CommandArgs) (Effect CommandArgs) A) kv (Q : KQ A) :
  wp m (λ a r w, Q a (set_rf r kv) w) (rf kv) → wp (raft_call m) Q kv.
Proof. unfold wp, raft_call. by destruct (m (rf kv)) as [[[a r] w]|]. Qed.

Lemma wp_applyToStateMachine kv c (Q : KQ CommandReply) :
  Q (fst (kv_exec c (stateMachine kv))) (set_stateMachine (snd (kv_exec c (stateMachine kv))) kv) [] →
  wp (applyToStateMachine c) Q kv.
Proof.
  assert (set_stateMachine (stateMachine kv) kv = kv) as Hself by by destruct kv.
  unfold applyToStateMachine, kv_exec, Put, Append, Get. intros HQ. wp_step. wp_step. revert HQ.
  destruct (bool_decide (Op c = OP_PUT)); [intros HQ; by wp_steps|].
  destruct (bool_decide (Op c = OP_APPEND)); [intros HQ; by wp_steps|].
  destruct (bool_decide (Op c = OP_GET)); simpl; rewrite Hself; intros HQ; [|by wp_steps].
  destruct (stateMachine kv !! Key c); by wp_steps.
Qed.

(** The channel a message is answered on: a fresh one, or the one a handler made. *)
Lemma wp_getNotifyChan kv i (Q : KQ nat) :
  chan_ok kv →
  (∀ ch kv', chan_ok kv' → notifyChans kv' !! i = Some ch → rf kv' = rf kv → abs kv' = abs kv →
     lastApplied kv' = lastApplied kv → Q ch kv' []) →
  wp (getNotifyChan i) Q kv.
Proof.
  intros [Hex Hinj] HQ. unfold getNotifyChan. wp_step. wp_step.
  destruct (notifyChans kv !! i) as [ch|] eqn:Hi; wp_steps; [by apply HQ|].
  apply HQ; simpl; try done; [|by rewrite lookup_insert_eq]. split; simpl.
  - intros j ch. rewrite lookup_insert_Some. intros [[<- <-]|[_ Hj]].
    + exists None. rewrite lookup_app_r, Nat.sub_diag by lia. split; [done|]. by intros [].
    + destruct (Hex _ _ Hj) as (b & Hb & ?). exists b.
      by rewrite lookup_app_l by (by eapply lookup_lt_Some).
  - intros j k ch. rewrite !lookup_insert_Some.
    intros [[<- <-]|[_ Hj]] [[<- Hk]|[_ Hk]]; try done; [| |by eapply Hinj].
    + destruct (Hex _ _ Hk) as (b & Hb%lookup_lt_Some & _). lia.
    + destruct (Hex _ _ Hj) as (b & Hb%lookup_lt_Some & _). lia.
Qed.

(** Sending on the channel of an index that is being applied does not block. *)
Lemma wp_notify kv i reply a (Q : KQ unit) :
  chan_ok (set_lastApplied a kv) → a < i → lastApplied kv = i →
  (∀ kv', chan_ok kv' → rf kv' = rf kv → abs kv' = abs kv → lastApplied kv' = lastApplied kv →
     (∃ ch, notifyChans kv' !! i = Some ch ∧ chans kv' !! ch = Some (Some reply)) → Q tt kv' []) →
  wp (ch ← getNotifyChan i; chan_send ch reply) Q kv.
Proof.
  intros Hok Ha Hl HQ.
  assert (wp (getNotifyChan i) (λ ch kv' w, w = [] ∧ chan_ok (set_lastApplied a kv') ∧
    notifyChans kv' !! i = Some ch ∧ rf kv' = rf kv ∧ abs kv' = abs kv ∧
    lastApplied kv' = lastApplied kv) kv) as Hch.
  { assert (chan_ok kv) as Hok'.
    { destruct Hok as [Hex Hinj]. split; [|done]. intros j ch Hj.
      destruct (Hex j ch Hj) as (b & ? & Hb). exists b. split; [done|]. intros ?%Hb. simpl in *. lia. }
    pose proof (wp_getNotifyChan (set_lastApplied a kv) i (λ ch kv' _, chan_ok kv' ∧
      notifyChans kv' !! i = Some ch ∧ lastApplied kv' = a) Hok ltac:(intros; split_and!; done)) as Hw1.
    pose proof (wp_getNotifyChan kv i (λ ch kv' w, w = [] ∧ notifyChans kv' !! i = Some ch ∧
      rf kv' = rf kv ∧ abs kv' = abs kv ∧ lastApplied kv' = lastApplied kv) Hok'
      ltac:(intros; split_and!; done)) as Hw2.
    revert Hw1 Hw2. unfold getNotifyChan, wp, mbind, M_bind, get, modify, mret, M_ret. simpl.
    destruct (notifyChans kv !! i); simpl; intros (? & ? & ?) (? & ? & ? & ? & ?); by split_and!. }
  wp_step. eapply wp_mono; [exact Hch|]. intros ch kv' w (-> & [Hex Hinj] & Hi & Hr & Habs & Hla).
  unfold chan_send. wp_step. wp_step. destruct (Hex i ch Hi) as (b & Hb & Hempty). simpl in Hb.
  destruct b as [r|]; [specialize (Hempty ltac:(eauto)); simpl in Hempty; lia|].
  rewrite Hb. wp_step. pose proof (lookup_lt_Some _ _ _ Hb). apply HQ; try done.
  - split; [|done]. simpl. intros j ch' Hj. destruct (decide (ch' = ch)) as [->|Hne].
    + exists (Some reply). rewrite list_lookup_insert_eq by done. split; [done|]. intros _.
      assert (j = i) as -> by by eapply Hinj. lia.
    + rewrite list_lookup_insert_ne by done. destruct (Hex j ch' Hj) as (b & Hb' & Hle).
      exists b. split; [done|]. intros ?%Hle. simpl in *. lia.
  - exists ch. simpl. by rewrite list_lookup_insert_eq.
Qed.

(** The reply is computed, and the state changed, as the reference says. *)
Lemma wp_reply kv c (Q : KQ CommandReply) :
  (∀ reply kv', fst (dedup_apply (abs kv) c) = Some reply → abs kv' = snd (dedup_apply (abs kv) c) →
     rf kv' = rf kv → lastApplied kv' = lastApplied kv → notifyChans kv' = notifyChans kv →
     chans kv' = chans kv → Q reply kv' []) →
  wp (if negb (bool_decide (Op c = OP_GET)) && isDuplicatedRequest (ClientId c) (CommandId c) kv
      then lift (LastReply <$> lastOperations kv !! ClientId c)
      else
        reply ← applyToStateMachine c;
        when (negb (bool_decide (Op c = OP_GET)))
          (modify (λ kv, set_lastOperations
             (<[ClientId c := mkInfo (CommandId c) reply]> (lastOperations kv)) kv)) ;;
        mret reply) Q kv.
Proof.
  intros HQ. assert (applied (snd (abs kv)) c = isDuplicatedRequest (ClientId c) (CommandId c) kv) as Hdup.
  { unfold applied, isDuplicatedRequest. simpl. rewrite lookup_fmap.
    by destruct (lastOperations kv !! ClientId c) as [[]|]. }
  unfold dedup_apply in HQ. simpl in Hdup, HQ. rewrite Hdup in HQ.
  destruct (negb (bool_decide (Op c = OP_GET))) eqn:Hw; simpl in *;
    [destruct (isDuplicatedRequest _ _ kv) eqn:Hd|].
  - unfold isDuplicatedRequest in Hd. destruct (lastOperations kv !! ClientId c) as [info|] eqn:Hi; [|done].
    eapply wp_lift; [done|]. apply HQ; try done. by rewrite lookup_fmap, Hi.
  - wp_step. apply wp_applyToStateMachine. destruct (kv_exec c (stateMachine kv)) as [r m'] eqn:Hex.
    wp_steps. apply HQ; try done. unfold abs. simpl. by rewrite fmap_insert.
  - wp_step. apply wp_applyToStateMachine. destruct (kv_exec c (stateMachine kv)) as [r m'] eqn:Hex.
    wp_steps. by apply HQ.
Qed.

Lemma wp_snapshot_check kv idx (Q : KQ unit) :
  node_ok (rf kv) → idx ≤ commitIndex (rf kv) →
  (∀ r, node_ok r → commitIndex r = commitIndex (rf kv) → Q tt (set_rf r kv) []) →
  wp (need ← needSnapshot; when need (taskSnapshot idx)) Q kv.
Proof.
  intros Hok Hi HQ. assert (set_rf (rf kv) kv = kv) as Hself by by destruct kv.
  assert (Q tt kv []) as HQ0 by (rewrite <-Hself; by apply HQ).
  assert (wp (taskSnapshot idx) Q kv) as Htask.
  { unfold taskSnapshot. wp_step. wp_step. apply wp_raft_call.
    pose proof (ok_log _ Hok). pose proof (ok_commit _ Hok).
    apply wp_Snapshot; [done|lia|by rewrite Hself|]. intros ?. apply HQ; [|done].
    destruct (trim_spec (logs (rf kv)) idx) as (? & ? & ? & _); [done|lia|].
    apply node_ok_snapshotted; done || lia. }
  unfold needSnapshot. wp_step. wp_step. wp_step. case_match; [by wp_steps|].
  wp_step. apply wp_raft_call. unfold GetRaftStateSize. wp_steps; rewrite Hself; done.
Qed.

(** A committed command that was not applied yet. *)
Lemma wp_applyCommand kv msg c (Q : KQ unit) :
  kv_ok kv → CommandValid msg = true → ACommand msg = Some c →
  lastApplied kv < CommandIndex msg ≤ commitIndex (rf kv) →
  (∀ kv' w, kv_ok kv' → abs kv' = snd (dedup_apply (abs kv) c) →
     lastApplied kv' = CommandIndex msg → commitIndex (rf kv') = commitIndex (rf kv) →
     (role (rf kv) = LEADER → CommandTerm msg = currentTerm (rf kv) →
        ∃ ch reply, fst (dedup_apply (abs kv) c) = Some reply ∧
          notifyChans kv' !! CommandIndex msg = Some ch ∧ chans kv' !! ch = Some (Some reply)) →
     Q tt kv' w) →
  wp (applyMsg msg) Q kv.
Proof.
  intros (Hok & Hch & _) Hv Hc Hi HQ. unfold KVServer.applyMsg. rewrite Hv. wp_step. wp_step.
  wp_step; [lia|]. wp_step. wp_step. wp_step. eapply wp_lift; [exact Hc|]. wp_step. wp_step. wp_step.
  apply wp_reply. intros reply kv1 Hr Habs Hrf Hla Hn Hcs. simpl in Hrf, Hla, Hn, Hcs.
  change (abs (set_lastApplied (CommandIndex msg) kv)) with (abs kv) in Hr, Habs.
  assert (set_rf (rf kv1) kv1 = kv1) as Hself by by destruct kv1.
  assert (chan_ok (set_lastApplied (lastApplied kv) kv1)) as Hch1.
  { destruct Hch. unfold chan_ok. simpl. by rewrite Hn, Hcs. }
  wp_step. apply wp_raft_call. unfold GetState. wp_step. cbn beta iota. rewrite Hself. wp_step.
  apply (wp_mono _ (λ _ kv2 w, w = [] ∧ chan_ok kv2 ∧ rf kv2 = rf kv1 ∧ abs kv2 = abs kv1 ∧
    lastApplied kv2 = CommandIndex msg ∧
    (role (rf kv) = LEADER → CommandTerm msg = currentTerm (rf kv) →
        ∃ ch, notifyChans kv2 !! CommandIndex msg = Some ch ∧ chans kv2 !! ch = Some (Some reply)))).
  - apply wp_when.
    + intros _. eapply (wp_notify _ _ _ (lastApplied kv)); [done|lia|done|].
      intros kv2 ? ? ? ? ?. split_and!; congruence || done.
    + intros Hno. destruct Hch1 as [Hex Hinj]. split_and!; try done.
      * split; [|done]. intros j ch Hj. destruct (Hex j ch Hj) as (b & ? & Hb). exists b.
        split; [done|]. intros ?%Hb. simpl in *. lia.
      * rewrite Hrf in Hno. intros Hl Ht. rewrite bool_decide_eq_true_2 in Hno by done. simpl in Hno. lia.
  - intros [] kv2 w (-> & Hch2 & Hrf2 & Habs2 & Hla2 & Hnot). rewrite Hrf in Hrf2. apply wp_snapshot_check.
    + by rewrite Hrf2.
    + rewrite Hrf2. lia.
    + intros r Hokr Hcr. apply HQ; try done.
      * split_and!; [done..|]. simpl. rewrite Hla2, Hcr, Hrf2. lia.
      * by rewrite <-Habs, <-Habs2.
      * simpl. congruence.
      * intros Hl Ht. destruct (Hnot Hl Ht) as (ch & ? & ?). eauto.
Qed.

(** A log of commands, as Raft delivers it from index [start] on. *)
Definition command_msg (i : Z) (e : Z * CommandArgs) : ApplyMsg CommandArgs :=
  mkApplyMsg true (Some (snd e)) i (fst e) false [] 0 0.
Fixpoint log_msgs (start : Z) (es : list (Z * CommandArgs)) : list (ApplyMsg CommandArgs) :=
  match es with
  | [] => []
  | e :: es => command_msg start e :: log_msgs (start + 1) es
  end.

Lemma wp_applyLog es start kv :
  kv_ok kv → lastApplied kv < start → start + zlen es - 1 ≤ commitIndex (rf kv) →
  wp (for_each (log_msgs start es) applyMsg) (λ _ kv' _, kv_ok kv' ∧
    abs kv' = dedup_run (snd <$> es) (abs kv)) kv.
Proof.
  revert start kv. induction es as [|e es IH]; intros start kv Hok Hl Hc.
  { by wp_steps. }
  simpl in Hc. cbn [log_msgs for_each]. wp_step.
  apply (wp_applyCommand kv (command_msg start e) (snd e)); [done|done|done|simpl; lia|].
  intros kv' w Hok' Habs Hla Hci _. simpl in Hla.
  eapply wp_mono; [apply IH; [done|lia|lia]|]. intros [] kv'' w' [? Habs']. split; [done|].
  rewrite Habs', Habs. done.
Qed.

(** ** Snapshots *)
Lemma wp_restore_any kv snap (Q : KQ unit) :
  (∀ m ops, Q tt (set_lastOperations ops (set_stateMachine m kv)) []) →
  wp (restoreSnapshot failed_decode snap) Q kv.
Proof.
  intros HQ. unfold restoreSnapshot. destruct snap as [|b bs].
  - wp_steps. replace kv with (set_lastOperations (lastOperations kv) (set_stateMachine (stateMachine kv) kv))
      by by destruct kv. apply HQ.
  - destruct (default _ _) as [m ops]. wp_steps. apply HQ.
Qed.

Lemma wp_restoreSnapshot kv m ops (Q : KQ unit) :
  Q tt (set_lastOperations ops (set_stateMachine m kv)) [] →
  wp (restoreSnapshot failed_decode (gob_encode (m, ops))) Q kv.
Proof.
  intros HQ. unfold restoreSnapshot. pose proof (gob_nonempty (m, ops)) as Hne.
  destruct (gob_encode (m, ops)) as [|b bs] eqn:Hb; [done|]. rewrite <-Hb, gob_roundtrip. simpl.
  by wp_steps.
Qed.

Definition snapshot_of kv : list byte := gob_encode (stateMachine kv, lastOperations kv).

(** A snapshot from the leader: refused, or installed into Raft and the service. *)
Lemma wp_applySnapshot kv msg (R : KVServer → Prop) (Q : KQ unit) :
  kv_ok kv → CommandValid msg = false → SnapshotValid msg = true →
  (∀ kv0, wp (restoreSnapshot failed_decode (Snap msg)) (λ _ kv' w, w = [] ∧ R kv' ∧
     ∃ m ops, kv' = set_lastOperations ops (set_stateMachine m kv0)) kv0) →
  (SnapshotIndex msg ≤ commitIndex (rf kv) → Q tt kv []) →
  (∀ kv', commitIndex (rf kv) < SnapshotIndex msg → kv_ok (set_lastApplied (SnapshotIndex msg) kv') →
     R kv' → commitIndex (rf kv') = SnapshotIndex msg → Q tt (set_lastApplied (SnapshotIndex msg) kv') []) →
  wp (applyMsg msg) Q kv.
Proof.
  intros (Hok & [Hex Hinj] & Hla) Hv Hs Hrest HQ0 HQ.
  assert (set_rf (rf kv) kv = kv) as Hself by by destruct kv.
  unfold KVServer.applyMsg. rewrite Hv, Hs. wp_step. apply wp_raft_call.
  assert (wp (CondInstallSnapshot (SnapshotTerm msg) (SnapshotIndex msg) (Snap msg)) (λ ok r w, w = [] ∧
    (ok = false → SnapshotIndex msg ≤ commitIndex (rf kv)) ∧
    (ok = true → commitIndex (rf kv) < SnapshotIndex msg ∧ commitIndex r = SnapshotIndex msg)) (rf kv))
    as Hcond by (apply wp_CondInstallSnapshot; [done|intros; split_and!; done..]).
  eapply wp_mono; [exact (wp_and _ _ _ _ (CondInstallSnapshot_node _ _ _ _ Hok) Hcond)|].
  intros ok r w [(Hokr & Hci & _ & Hsame) (-> & Hf & Ht)]. destruct ok.
  - destruct (Ht eq_refl) as [Hlt Hcr]. wp_step; [|done]. wp_step.
    eapply wp_mono; [apply Hrest|]. intros [] kv' w (-> & HR & m & ops & ->). wp_steps.
    apply HQ; try done. split_and!; [done| |simpl; lia].
    split; simpl; [|done]. intros i ch Hi. destruct (Hex i ch Hi) as (b & ? & Hb). exists b.
    split; [done|]. intros ?%Hb. lia.
  - rewrite (Hsame eq_refl), Hself. wp_step; [done|]. auto.
Qed.

(** What Raft promises of a message: a command at a committed index, or a snapshot. *)
Definition msg_ok kv msg : Prop :=
  CommandValid msg = true ∧ is_Some (ACommand msg) ∧ CommandIndex msg ≤ commitIndex (rf kv) ∨
  CommandValid msg = false ∧ SnapshotValid msg = true.

Lemma applyMsg_ok kv msg :
  kv_ok kv → msg_ok kv msg →
  wp (applyMsg msg) (λ _ kv' _, kv_ok kv' ∧ lastApplied kv ≤ lastApplied kv') kv.
Proof.
  intros Hok [(Hv & [c Hc] & Hi)|[Hv Hs]].
  - destruct (decide (CommandIndex msg ≤ lastApplied kv)) as [Hle|Hgt].
    + unfold KVServer.applyMsg. rewrite Hv. wp_step. wp_step. wp_step; [|lia]. wp_steps. done.
    + apply (wp_applyCommand kv msg c); [done..|lia|]. intros kv' w ? _ -> _ _. split; [done|lia].
  - pose proof Hok as (_ & _ & Hla). apply (wp_applySnapshot kv msg (λ _, True)); try done.
    + intros kv0. apply wp_restore_any. intros m ops. eauto.
    + intros kv' Hlt Hok' _ _. split; [done|]. simpl. lia.
Qed.
End proofs.
