(* ===== verification/KVTheorems.v ===== *)
(** * What the key/value service guarantees *)
From S2P Require Import Prelude Raft RaftLog RaftNode RaftVote RaftReplicate RaftLeader RaftSnapshot.
From S2P Require Import RaftProc Rsm KVRaft KVRaftProofs KVSystem.
Import KVServer.

Section theorems.
Context `{CodecLaws (hard_state CommandArgs)} `{CodecLaws (MemoryKV * gmap Z OperationInfo)}.
Context (failed_decode : list byte → MemoryKV * gmap Z OperationInfo).

(** C11: Exactly once.  A server with an empty duplicate table that applies a committed log, in which
    clients may have repeated commands but number them in order, ends with the store that results
    from executing the first occurrence of every write (and every read) once, in log order. *)
Theorem kv_exactly_once (s : KVServer) (start : Z) (es : list (Z * CommandArgs)) :
  kv_ok s → lastOperations s = ∅ → lastApplied s < start → start + zlen es - 1 ≤ commitIndex (rf s) →
  ordered (snd <$> es) →
  wp (for_each (log_msgs start es) (applyMsg failed_decode)) (λ _ s' _,
    stateMachine s' = plain_run (firsts [] (snd <$> es)) (stateMachine s)) s.
Proof.
  intros Hok Hops Hl Hc Ho. eapply wp_mono; [by apply wp_applyLog|]. intros [] s' w [_ Habs].
  pose proof (dedup_exactly_once (snd <$> es) (stateMachine s) Ho) as Hx.
  apply (f_equal fst) in Habs. simpl in Habs. rewrite Habs, <-Hx. unfold abs.
  by rewrite Hops, fmap_empty.
Qed.

(** The applier never blocks and never panics.  In every state a server reaches from its start,
    with any number of [Command] handlers waiting, timing out and removing channels, the message
    Raft delivers next is processed to the end, so the reply channel it sends on has room. *)
Theorem kv_applier_never_blocks (n self mrs : Z) (s : Server) (msg : ApplyMsg CommandArgs) :
  0 ≤ self < n → rtc (srv_step failed_decode) (fresh_server n self mrs) s → msg_ok (kv s) msg →
  wp (applyMsg failed_decode msg) (λ _ s' _, kv_ok s' ∧ lastApplied (kv s) ≤ lastApplied s') (kv s).
Proof.
  intros Hs Hsteps Hmsg. apply applyMsg_ok; [|done].
  apply (srv_steps_ok failed_decode _ _ Hsteps). by apply fresh_server_ok.
Qed.

(** A retried write is not executed again.  When the table holds the client's last write, the
    handler answers a retry of it at once with the stored reply; and if a second copy of the
    command is committed, applying it leaves store and table alone and sends the stored reply to
    whoever waits for that log index. *)
Theorem kv_retry_not_reexecuted (s : KVServer) (c : CommandArgs) (info : OperationInfo)
    (index term : Z) :
  kv_ok s → Op c ≠ OP_GET → lastOperations s !! ClientId c = Some info →
  CommandId c ≤ MaxAppliedCommandId info → lastApplied s < index ≤ commitIndex (rf s) →
  wp (commandCheck c) (λ r s' _, r = Some (LastReply info) ∧ s' = s) s ∧
  wp (applyMsg failed_decode (command_msg index (term, c))) (λ _ s' _,
    stateMachine s' = stateMachine s ∧ lastOperations s' = lastOperations s ∧
    (role (rf s) = LEADER → term = currentTerm (rf s) →
       ∃ ch, notifyChans s' !! index = Some ch ∧ chans s' !! ch = Some (Some (LastReply info)))) s.
Proof.
  intros Hok Hop Hinfo Hid Hi.
  assert (isDuplicatedRequest (ClientId c) (CommandId c) s = true) as Hdup.
  { unfold isDuplicatedRequest. rewrite Hinfo. lia. }
  assert (dedup_apply (abs s) c = (Some (LastReply info), abs s)) as Hd.
  { unfold dedup_apply, applied. simpl. rewrite lookup_fmap, Hinfo, bool_decide_eq_false_2 by done. simpl.
    destruct (CommandId c <=? MaxAppliedCommandId info) eqn:?; [done|lia]. }
  split.
  - unfold commandCheck. wp_step. wp_step. rewrite bool_decide_eq_false_2, Hdup by done. simpl.
    wp_steps. by rewrite Hinfo.
  - apply (wp_applyCommand failed_decode s (command_msg index (term, c)) c); [done|done|done|done|].
    rewrite Hd. intros s' w _ Habs _ _ Hn. injection Habs as Hm Ho. apply (inj (fmap info_pair)) in Ho.
    split_and!; [done|done|]. intros Hl Ht. destruct (Hn Hl Ht) as (ch & reply & [= <-] & ? & ?). eauto.
Qed.

(** Snapshot and restart.  After [taskSnapshot] at an index past the last compaction, a crash and
    [StartKVServer] give back the store and the duplicate table. *)
Theorem kv_snapshot_restart (s : KVServer) (idx : Z) :
  kv_ok s → first_idx (logs (rf s)) < idx ≤ commitIndex (rf s) →
  wp (taskSnapshot idx) (λ _ s' _, ∃ s2,
    StartKVServer failed_decode (npeers (rf s')) (me (rf s')) (persister (rf s')) (maxraftstate s) = Some s2 ∧
    stateMachine s2 = stateMachine s ∧ lastOperations s2 = lastOperations s ∧
    logs (rf s2) = logs (rf s') ∧ LastApplied (rf s2) = idx) s.
Proof.
  intros (Hok & _ & _) Hi. pose proof (ok_commit _ Hok). pose proof (ok_log _ Hok) as Hwf.
  unfold taskSnapshot. wp_step. wp_step. apply wp_raft_call. apply wp_Snapshot; [done|lia|lia|]. intros _.
  destruct (trim_spec (logs (rf s)) idx) as (Htw & Htf & Htl & _); [done|lia|].
  set (b := gob_encode (stateMachine s, lastOperations s)).
  set (r := snapshotted (rf s) (trim (logs (rf s)) idx) b).
  assert (node_ok r) as Hokr by (apply node_ok_snapshotted; done || lia).
  unfold StartKVServer. cbn [rf set_rf].
  rewrite (Make_durable r) by (by apply ok_durable || by apply ok_log). cbn [mbind option_bind].
  assert (ReadSnapshot (persister r) = b) as -> by (unfold r, ReadSnapshot; simpl; by rewrite !clone_id).
  set (s0 := mkKV _ 0 _ 0 _ _ _ _).
  pose proof (wp_restoreSnapshot failed_decode s0 (stateMachine s) (lastOperations s)
    (λ _ s2 _, s2 = set_lastOperations (lastOperations s) (set_stateMachine (stateMachine s) s0)) eq_refl) as Hr.
  unfold run_state, wp in *. fold b in Hr.
  destruct (restoreSnapshot failed_decode b s0) as [[[[] s2] w]|]; [|done]. simpl. subst s2.
  eexists. split; [done|]. simpl. by split_and!.
Qed.

(** A snapshot transferred to another server carries the whole service state: if it is newer
    than what the receiver has committed, the receiver's store and duplicate table become the
    sender's and its apply index the snapshot's; an outdated snapshot changes nothing. *)
Theorem kv_snapshot_install (a b : KVServer) (msg : ApplyMsg CommandArgs) :
  kv_ok b → CommandValid msg = false → SnapshotValid msg = true → Snap msg = snapshot_of a →
  wp (applyMsg failed_decode msg) (λ _ b' _, kv_ok b' ∧
    (if SnapshotIndex msg <=? commitIndex (rf b) then b' = b
     else stateMachine b' = stateMachine a ∧ lastOperations b' = lastOperations a ∧
       lastApplied b' = SnapshotIndex msg ∧ commitIndex (rf b') = SnapshotIndex msg)) b.
Proof.
  intros Hok Hv Hs Hsnap.
  apply (wp_applySnapshot failed_decode b msg (λ b', stateMachine b' = stateMachine a ∧
    lastOperations b' = lastOperations a)); try done.
  - intros kv0. rewrite Hsnap. apply wp_restoreSnapshot. split_and!; [done..|]. eauto.
  - intros ?. split; [done|]. case_match; [done|lia].
  - intros b' Hlt Hok' [Hm Ho] Hc. split; [done|]. case_match; [lia|]. by split_and!.
Qed.
End theorems.

(** The clerk.  [Command] returns as soon as some call gives a decisive reply: the value is that
    reply's, every call before and including it carried the same arguments with the clerk's id and
    current command id, the servers were tried in turn, and the command id grew by one, once. *)
Theorem clerk_command_returns (ck : Clerk.Clerk) (key value op : string)
    (lost : list (option CommandReply)) (reply : CommandReply) (rest : list (option CommandReply)) :
  0 ≤ Clerk.leaderId ck < Clerk.servers ck →
  forallb Clerk.retries lost = true → Clerk.retries (Some reply) = false →
  ∃ sent,
    Clerk.Command ck key value op (lost ++ Some reply :: rest) = Some (RValue reply,
      Clerk.mkClerk (Clerk.servers ck) ((Clerk.leaderId ck + zlen lost) mod Clerk.servers ck)
        (Clerk.clientId ck) (Clerk.commandId ck + 1), sent) ∧
    length sent = S (length lost) ∧
    ∀ k x, sent !! k = Some x →
      x = ((Clerk.leaderId ck + Z.of_nat k) mod Clerk.servers ck,
           mkArgs key value op (Clerk.clientId ck) (Clerk.commandId ck)).
Proof.
  intros Hl Hlost Hr. unfold Clerk.Command.
  set (args := mkArgs key value op (Clerk.clientId ck) (Clerk.commandId ck)). clearbody args.
  revert ck Hl. induction lost as [|rpc lost IH]; intros ck Hl.
  - cbn [app Clerk.commandLoop]. rewrite Hr. simpl. eexists. rewrite Z.add_0_r, Z.mod_small by done.
    split_and!; [done|done|]. intros [|k] x Hx; simplify_eq/=. by rewrite Z.add_0_r, Z.mod_small.
  - cbn [forallb] in Hlost. apply andb_true_iff in Hlost as [Hrpc Hlost].
    cbn [app Clerk.commandLoop]. rewrite Hrpc.
    set (ck1 := Clerk.set_leaderId _ ck).
    assert (0 ≤ Clerk.leaderId ck1 < Clerk.servers ck1) as Hl1 by (simpl; apply Z.mod_pos_bound; lia).
    destruct (IH Hlost ck1 Hl1) as (sent & Hc & Hlen & Hsent). rewrite Hc. simpl in *.
    assert (∀ j, (((Clerk.leaderId ck + 1) mod Clerk.servers ck) + j) mod Clerk.servers ck
      = (Clerk.leaderId ck + (1 + j)) mod Clerk.servers ck) as Hmod.
    { intros j. rewrite Z.add_mod_idemp_l by lia. f_equal. lia. }
    exists ((Clerk.leaderId ck, args) :: sent). split_and!; [|simpl; by rewrite Hlen|].
    + rewrite Hmod. do 5 f_equal. lia.
    + intros [|k] x Hx; simplify_eq/=; [by rewrite Z.add_0_r, Z.mod_small|].
      rewrite (Hsent _ _ Hx), Hmod. do 3 f_equal. lia.
Qed.

(** ** Deciding what the cluster may send, to run the system on concrete inputs *)
Definition ae_okb (r : Raft CommandArgs) (args : AppendEntriesArgs CommandArgs) : bool :=
  bool_decide ((Index <$> ae_Entries args)
    = zrange (ae_PrevLogIndex args + 1) (ae_PrevLogIndex args + 1 + zlen (ae_Entries args))) &&
  (negb (ae_Term args =? currentTerm r) || negb (bool_decide (role r = LEADER))) &&
  forallb (λ e, match entryAt (logs r) (Index e) with
                | Some x => negb (Index e <=? commitIndex r) || (Term x =? Term e)
                | None => true
                end) (ae_Entries args).
Definition reply_okb (r : Raft CommandArgs) (serverId : Z) (args : AppendEntriesArgs CommandArgs)
    (reply : AppendEntriesReply) : bool :=
  (0 <=? serverId) && (serverId <? npeers r) &&
  (ae_PrevLogIndex args + zlen (ae_Entries args) <=? last_idx (logs r)) &&
  (aer_XLen reply <=? last_idx (logs r)) && (aer_XIndex reply <=? last_idx (logs r)) &&
  negb (aer_Conflict reply).
Definition act_okb (s : Server) (a : ServerAction) : bool :=
  match a with
  | SApply msg => CommandValid msg && bool_decide (is_Some (ACommand msg))
      && (CommandIndex msg <=? commitIndex (rf (kv s)))
  | SRaft (CAppendEntries args) => ae_okb (rf (kv s)) args
  | SRaft (CAppendReply i args (Some reply)) => reply_okb (rf (kv s)) i args reply
  | SRaft (CSnapReply _ _ _) | SRaft (CAppendReply _ _ None) => false
  | _ => true
  end.

Lemma ae_okb_ok r args : ae_okb r args = true → ae_ok r args.
Proof.
  unfold ae_okb. rewrite !andb_true_iff, bool_decide_eq_true. intros [[Hc Hl] Hf]. split_and!.
  - intros k x Hx. assert ((Index <$> ae_Entries args) !! k = Some (Index x)) as Hk
      by (by rewrite list_lookup_fmap, Hx). rewrite Hc in Hk. by apply lookup_seqZ in Hk as [? _].
  - intros Ht. rewrite (proj2 (Z.eqb_eq _ _) Ht) in Hl. simpl in Hl. by case_bool_decide.
  - intros e x He Hx Hle. rewrite forallb_forall in Hf.
    specialize (Hf e (proj1 (list_elem_of_In _ _) He)). rewrite Hx in Hf. lia.
Qed.

Lemma act_okb_ok s a : act_okb s a = true → act_ok s a.
Proof.
  destruct a as [?|?|?|msg|c]; simpl; try done.
  - rewrite !andb_true_iff, bool_decide_eq_true. intros [[? ?] ?]. left. split_and!; [done|done|lia].
  - destruct c as [?|args|?|?| | |? ?|i args [reply|]|? ? ?|]; simpl; try done; [apply ae_okb_ok|].
    unfold reply_okb. intros Hr reply' [= <-]. split_and!; [lia|lia|intros; lia|]. intros Hconf.
    rewrite Hconf, andb_false_r in Hr. done.
Qed.

Fixpoint srv_exec_ok `{Codec (hard_state CommandArgs)} `{Codec (MemoryKV * gmap Z OperationInfo)}
    failed_decode (s : Server) (l : list ServerAction) : option Server :=
  match l with
  | [] => Some s
  | a :: l => if act_okb s a then s' ← srv_exec failed_decode s a; srv_exec_ok failed_decode s' l else None
  end.

Lemma srv_exec_ok_steps `{Codec (hard_state CommandArgs)} `{Codec (MemoryKV * gmap Z OperationInfo)}
    fd l s s' : srv_exec_ok fd s l = Some s' → rtc (srv_step fd) s s'.
Proof.
  revert s. induction l as [|a l IH]; simpl; intros s Hex; [by simplify_eq|].
  destruct (act_okb s a) eqn:Ha; [|done]. destruct (srv_exec fd s a) as [s1|] eqn:Hs; simplify_eq/=.
  eapply rtc_l; [exists a; split; [by apply act_okb_ok|done]|]. auto.
Qed.

Module KVExamples.
#[local] Existing Instance entry_countable.
#[local] Instance hs_codec : Codec (hard_state CommandArgs) := countable_codec (hard_state CommandArgs).
#[local] Instance hs_laws : CodecLaws (hard_state CommandArgs) := countable_codec_laws _.
#[local] Instance snap_codec : Codec (MemoryKV * gmap Z OperationInfo) := countable_codec _.
#[local] Instance snap_laws : CodecLaws (MemoryKV * gmap Z OperationInfo) := countable_codec_laws _.
Definition fd (_ : list byte) : MemoryKV * gmap Z OperationInfo := (∅, ∅).

Definition put (key : string) (client : Z) : CommandArgs := mkArgs key "v" OP_PUT client 0.
Definition elect (term lastIndex lastTerm : Z) : list ServerAction :=
  [ SRaft CElection;
    SRaft (CVoteReply (mkElection (mkRVArgs term 0 lastIndex lastTerm) 1 false) (Some (mkRVReply term true))) ].

(** Peer 0 of three leads term 1 and takes two commands, at index 1 and 2; the leader of term 2
    replaces index 1 and so drops index 2; peer 0 leads term 3 and takes a command at index 2. *)
Definition until_commit : list ServerAction :=
  elect 1 0 0 ++
  [ SRequest (put "a" 1); SHandler 0; SHandler 0;
    SRequest (put "b" 2); SHandler 1; SHandler 1;
    SRaft (CAppendEntries (mkAEArgs 2 1 0 0 [] 0));
    SRaft (CAppendEntries (mkAEArgs 2 1 0 0 [mkEntry 1 2 (Some (put "c" 3))] 0)) ] ++
  elect 3 1 2 ++
  [ SRequest (put "d" 4); SHandler 2; SHandler 2;
    SRaft (CAppendReply 1 (mkAEArgs 3 0 0 0 [mkEntry 1 2 (Some (put "c" 3)); mkEntry 2 3 (Some (put "d" 4))] 0)
      (Some (mkAEReply 3 true false 0 0 0))) ].
Definition applied_both : list ServerAction :=
  [ SApply (command_msg 1 (2, put "c" 3)); SApply (command_msg 2 (3, put "d" 4)) ].

Definition run (l : list ServerAction) : Server :=
  default (fresh_server 3 0 (-1)) (srv_exec_ok fd (fresh_server 3 0 (-1)) l).


(** *** The hypotheses of the theorems hold on these runs *)
Lemma run_ok l :
  srv_exec_ok fd (fresh_server 3 0 (-1)) l = Some (run l) → rtc (srv_step fd) (fresh_server 3 0 (-1)) (run l).
Proof. apply srv_exec_ok_steps. Qed.
Lemma run_kv_inv l :
  srv_exec_ok fd (fresh_server 3 0 (-1)) l = Some (run l) → kv_ok (kv (run l)).
Proof. intros Hr. apply (srv_steps_ok fd _ _ (run_ok l Hr)). by apply fresh_server_ok. Qed.

Definition msg1 : ApplyMsg CommandArgs := command_msg 1 (2, put "c" 3).
Definition snap_msg : ApplyMsg CommandArgs :=
  mkApplyMsg false None 0 0 true (snapshot_of (kv (run (until_commit ++ applied_both)))) 3 2.

Lemma kv_exactly_once_witness :
  wp (for_each (log_msgs 1 [(2, put "c" 3); (3, put "c" 3)]) (applyMsg fd))
    (λ _ s' _, stateMachine s' = {[ "c" := "v" ]}) (kv (run until_commit)).
Proof.
  eapply wp_mono; [apply (kv_exactly_once fd (kv (run until_commit)) 1 [(2, put "c" 3); (3, put "c" 3)])|].
  - apply run_kv_inv. by vm_compute.
  - by vm_compute.
  - by vm_compute.
  - by vm_compute.
  - intros [|x [|y [|z pre]]] c suf Heq; simplify_eq/=; [right|by left]. intros c' Hc'.
    by apply elem_of_nil in Hc'.
  - intros [] s' w ->. by vm_compute.
Defined.

Lemma kv_applier_never_blocks_witness :
  wp (applyMsg fd msg1) (λ _ s' _, kv_ok s' ∧ 0 ≤ lastApplied s') (kv (run until_commit)).
Proof.
  apply (kv_applier_never_blocks fd 3 0 (-1) (run until_commit) msg1); [done| |].
  - apply run_ok. by vm_compute.
  - left. split_and!; [done|by eexists|by vm_compute].
Defined.

Lemma kv_retry_not_reexecuted_witness :
  wp (commandCheck (put "c" 3)) (λ r _ _, r = Some (mkReply OK ""))
    (kv (run (until_commit ++ [SApply msg1]))).
Proof.
  destruct (kv_retry_not_reexecuted fd (kv (run (until_commit ++ [SApply msg1])))
    (put "c" 3) (mkInfo 0 (mkReply OK "")) 2 3) as [Hc _].
  - apply run_kv_inv. by vm_compute.
  - done.
  - by vm_compute.
  - done.
  - by vm_compute.
  - eapply wp_mono; [exact Hc|]. intros r s' w [-> _]. done.
Defined.

Lemma kv_snapshot_restart_witness :
  wp (taskSnapshot 1) (λ _ s' _, is_Some (StartKVServer fd (npeers (rf s')) (me (rf s'))
    (persister (rf s')) (-1))) (kv (run until_commit)).
Proof.
  eapply wp_mono; [apply (kv_snapshot_restart fd (kv (run until_commit)) 1)|].
  - apply run_kv_inv. by vm_compute.
  - by vm_compute.
  - intros [] s' w (s2 & Hs2 & _). exists s2. exact Hs2.
Defined.

Lemma kv_snapshot_install_witness :
  wp (applyMsg fd snap_msg) (λ _ b' _, lastApplied b' = 2) (kv (fresh_server 3 1 (-1))).
Proof.
  eapply wp_mono; [apply (kv_snapshot_install fd (kv (run (until_commit ++ applied_both)))
    (kv (fresh_server 3 1 (-1))) snap_msg)|].
  - by apply fresh_server_ok.
  - done.
  - done.
  - done.
  - intros [] b' w [_ Hb]. by destruct Hb as (_ & _ & ? & _).
Defined.

Lemma clerk_command_returns_witness :
  ∃ ck' sent, Clerk.Command (Clerk.MakeClerk 3 7) "k" "v" OP_PUT
    [None; Some (mkReply ErrWrongLeader ""); Some (mkReply OK "")] = Some (""%string, ck', sent).
Proof.
  destruct (clerk_command_returns (Clerk.MakeClerk 3 7) "k" "v" OP_PUT
    [None; Some (mkReply ErrWrongLeader "")] (mkReply OK "") []) as (sent & Hc & _); [done..|].
  eexists _, sent. exact Hc.
Defined.
End KVExamples.
