(* ===== verification/KVCluster.v ===== *)
(** * Key/value servers on a replicating cluster

    The composition of [KVSystem]'s servers (handlers, applier, state machine) with [RaftNet]'s
    peers and network: a server's calls into Raft are steps of its peer, and its applier reads the
    peer's [applyCh].  [maxraftstate] is -1, so nobody compacts a log. *)
From S2P Require Import Prelude Raft RaftLog RaftNode RaftSnapshot RaftProc RaftElection RaftNet.
From S2P Require Import RaftGhost RaftNetInv RaftReach RaftNetDisk Rsm KVRaft KVRaftProofs KVSystem.
Import KVServer.

(** The peers and the network, the servers, and how many messages of its channel each service has
    read. *)
Record KVNet := mkKVNet {
  net : Net CommandArgs;
  srvs : list Server;
  taken : list nat;
}.

Inductive KVAction :=
| KNet (a : NetAction CommandArgs)        (* timers, goroutines, the network *)
| KServer (i : nat) (a : ServerAction)    (* a critical section of a handler *)
| KApply (i : nat)                        (* one message of the applier *)
| KKill (i : nat)
| KRestart (i : nat).

(** Actions a peer takes on its own: the service calls [Start] and [Kill], and restarts with it. *)
Definition own_action (a : NetAction CommandArgs) : bool :=
  match a with NStart _ _ | NKill _ | NRestart _ => false | _ => true end.
Definition handler_action (a : ServerAction) : bool :=
  match a with SRequest _ | SHandler _ | STimeOut _ => true | _ => false end.

Section cluster.
Context `{Codec (hard_state CommandArgs)} `{Codec (MemoryKV * gmap Z OperationInfo)}.
Context (failed_decode : list byte → MemoryKV * gmap Z OperationInfo).

(** Server [i] with its peer as it is now. *)
Definition server_at (i : nat) (s : KVNet) : option Server :=
  srv ← srvs s !! i;
  r ← nodes (base (net s)) !! i;
  Some (mkServer (set_rf r (kv srv)) (handlers srv) (answers srv)).

(** The goroutines a critical section of a handler starts: those of [rf.Start]. *)
Definition handler_effects (srv : Server) (a : ServerAction) : option (list (Effect CommandArgs)) :=
  match a with
  | SHandler h =>
      match handlers srv !! h with
      | Some (HChecked args) => run_effects (commandStart args) (kv srv)
      | _ => Some []
      end
  | _ => Some []
  end.

Definition kexec (s : KVNet) (a : KVAction) : option KVNet :=
  match a with
  | KNet a =>
      if own_action a then net' ← nexec (net s) a; Some (mkKVNet net' (srvs s) (taken s)) else None
  | KServer i a =>
      if handler_action a then
        srv ← server_at i s;
        w ← handler_effects srv a;
        srv' ← srv_exec failed_decode srv a;
        Some (mkKVNet (sends i w (set_peer i (rf (kv srv')) (net s))) (<[i := srv']> (srvs s)) (taken s))
      else None
  | KApply i =>
      srv ← server_at i s;
      k ← taken s !! i;
      ch ← channel (net s) !! i;
      msg ← ch !! k;
      srv' ← srv_exec failed_decode srv (SApply msg);
      Some (mkKVNet (set_peer i (rf (kv srv')) (net s)) (<[i := srv']> (srvs s)) (<[i := S k]> (taken s)))
  | KKill i =>
      srv ← server_at i s;
      '(_, srv') ← run_kv Kill srv;
      Some (mkKVNet (set_peer i (rf (kv srv')) (net s)) (<[i := srv']> (srvs s)) (taken s))
  | KRestart i =>
      srv ← server_at i s;
      let r := rf (kv srv) in
      kv' ← StartKVServer failed_decode (npeers r) (me r) (persister r) (maxraftstate (kv srv));
      net' ← nexec (net s) (NRestart i);
      Some (mkKVNet (set_peer i (rf kv') net') (<[i := mkServer kv' [] (answers srv)]> (srvs s))
              (<[i := 0%nat]> (taken s)))
  end.

(** Whether an action can be taken at all: a handler waits for a reply that is there, the applier has a message
    to read. *)
Definition handler_enabled (srv : Server) (a : ServerAction) : bool :=
  match a with
  | SRequest _ => true
  | SHandler h =>
      match handlers srv !! h with
      | Some (HWaiting _ _ ch) => match chans (kv srv) !! ch with Some (Some _) => true | _ => false end
      | Some HDone | None => false
      | Some _ => true
      end
  | STimeOut h => match handlers srv !! h with Some (HWaiting _ _ _) => true | _ => false end
  | _ => false
  end.
Definition kv_enabled (s : KVNet) (a : KVAction) : bool :=
  match a with
  | KNet a => own_action a && net_enabled (net s) a
  | KServer i a => match srvs s !! i with Some srv => handler_enabled srv a | None => false end
  | KApply i =>
      match taken s !! i, channel (net s) !! i with
      | Some k, Some ch => bool_decide (k < length ch)%nat
      | _, _ => false
      end
  | KKill i | KRestart i => bool_decide (i < length (srvs s))%nat
  end.

Definition krolls_back (s : KVNet) (a : KVAction) : bool :=
  match a with KNet a => net_rolls_back (net s) a | _ => false end.
Definition kstep (s s' : KVNet) : Prop := ∃ a, krolls_back s a = false ∧ kexec s a = Some s'.

Definition kv_init (n : nat) : KVNet :=
  mkKVNet (net_init n) ((λ i, fresh_server (Z.of_nat n) (Z.of_nat i) (-1)) <$> seq 0 n) (replicate n 0%nat).

Fixpoint krun (s : KVNet) (l : list KVAction) : option KVNet :=
  match l with
  | [] => Some s
  | a :: l => if krolls_back s a then None else s' ← kexec s a; krun s' l
  end.

Lemma krun_steps l s s' : krun s l = Some s' → rtc kstep s s'.
Proof.
  revert s. induction l as [|a l IH]; simpl; intros s Hex; [by simplify_eq|].
  destruct (krolls_back s a) eqn:Hr; [done|].
  destruct (kexec s a) as [s1|] eqn:Ha; simplify_eq/=. eapply rtc_l; [by exists a|]. auto.
Qed.
End cluster.

Section invariant.
#[local] Coercion Z.of_nat : nat >-> Z.
Context `{CodecLaws (hard_state CommandArgs)} `{CodecLaws (MemoryKV * gmap Z OperationInfo)}.
Context (failed_decode : list byte → MemoryKV * gmap Z OperationInfo) (n : nat).
Implicit Types (s : KVNet) (srv : Server) (r : Raft CommandArgs).

(** The services start nothing but commands; entry 0 is the empty one every log begins with. *)
Definition has_command (e : Entry CommandArgs) : Prop := Index e = 0 ∨ is_Some (Command e).
Abbreviation kv_net_step := (start_step has_command).

(** The state of the sequential service after a list of messages. *)
Definition replay (msgs : list (ApplyMsg CommandArgs)) : MemoryKV * gmap Z (Z * CommandReply) :=
  dedup_run (omap ACommand msgs) (newMemoryKV, ∅).

(** A server has applied the messages it read, and nothing else. *)
Record srv_hist srv (k : nat) (ch : list (ApplyMsg CommandArgs)) : Prop := {
  sh_max : maxraftstate (kv srv) = -1;
  sh_chan : chan_ok (kv srv);
  sh_read : k ≤ length ch;
  sh_applied : lastApplied (kv srv) = k;
  sh_state : abs (kv srv) = replay (take k ch);
}.

Record KInv s : Prop := {
  ki_start : rtc kv_net_step (net_init n) (net s);
  ki_srvs : length (srvs s) = n;
  ki_taken : length (taken s) = n;
  ki_hist i srv k ch : srvs s !! i = Some srv → taken s !! i = Some k → channel (net s) !! i = Some ch →
    srv_hist srv k ch;
}.

Lemma ki_net s : KInv s → rtc net_step (net_init n) (net s).
Proof. intros HK. by eapply start_steps_net, ki_start. Qed.

Lemma srv_hist_grow srv k ch ch' : ch `prefix_of` ch' → srv_hist srv k ch → srv_hist srv k ch'.
Proof.
  intros [l ->] []. split; try done; [rewrite length_app; lia|]. by rewrite take_app_le by lia.
Qed.

(** What the service knows of its peer. *)
Lemma server_kv_ok s i srv k ch :
  KInv s → server_at i s = Some srv → taken s !! i = Some k → channel (net s) !! i = Some ch →
  kv_ok (kv srv) ∧ srv_hist srv k ch ∧ nodes (base (net s)) !! i = Some (rf (kv srv)) ∧
  length ch ≤ commitIndex (rf (kv srv)).
Proof.
  intros HK. unfold server_at. intros Hs Hk Hch.
  destruct (srvs s !! i) as [srv0|] eqn:Hsrv; simplify_eq/=.
  destruct (nodes (base (net s)) !! i) as [r|] eqn:Hr; simplify_eq/=.
  pose proof (ki_hist _ HK _ _ _ _ Hsrv Hk Hch) as Hh.
  destruct (reachable_inv n _ (ki_net _ HK)) as (g & HI & [HL HL'] & HA).
  destruct (lookup_lt_is_Some_2 (batches (net s)) i) as [b Hb]; [apply lookup_lt_Some in Hr; lia|].
  pose proof (nh_ok _ _ _ _ (nv_nodes _ _ _ HI _ _ Hr)) as Hok.
  destruct (HA _ _ _ _ Hr Hb Hch) as [Hlen _]. pose proof (ok_applied _ Hok). destruct Hh.
  assert (length ch ≤ commitIndex r) by (destruct b as [[es ci]|]; lia).
  split_and!; [|by split|done|done]. split_and!; [done|done|]. simpl. lia.
Qed.

(** ** The steps of a server *)

(** The part of the state the applier owns. *)
Definition same_service (a b : KVServer) : Prop :=
  maxraftstate b = maxraftstate a ∧ lastApplied b = lastApplied a ∧ abs b = abs a.

Lemma srv_hist_same srv srv' k ch :
  same_service (kv srv) (kv srv') → chan_ok (kv srv') → srv_hist srv k ch → srv_hist srv' k ch.
Proof. intros (Hm & Hl & Ha) Hc []. split; congruence. Qed.

(** Critical sections that touch only the reply channels. *)
Definition quiet_kv (a b : KVServer) : Prop := rf b = rf a ∧ same_service a b.

Lemma run_quiet {A} (m : M KVServer (Effect CommandArgs) A) srv a srv' :
  run_kv m srv = Some (a, srv') → wlp m (λ _ kv', quiet_kv (kv srv) kv') (kv srv) →
  quiet_kv (kv srv) (kv srv').
Proof.
  unfold run_kv. destruct (m (kv srv)) as [[[x kv'] w]|] eqn:Hm; [|done]. intros [= <- <-] Hw.
  by apply (Hw _ _ _ Hm).
Qed.

Lemma commandStart_run args k x k' w :
  commandStart args k = Some (x, k', w) →
  ∃ res r, Start (Some args) (rf k) = Some (res, r, w) ∧ k' = set_rf r k.
Proof.
  unfold commandStart, raft_call, mbind, M_bind.
  destruct (Start (Some args) (rf k)) as [[[[[idx t] l] r] w1]|] eqn:Hs; [|done]. intros Hx.
  exists (idx, t, l), r. destruct l; simpl in Hx; simplify_eq; by rewrite app_nil_r.
Qed.

Lemma handler_step srv a srv' w :
  kv_ok (kv srv) → handler_action a = true → handler_effects srv a = Some w →
  srv_exec failed_decode srv a = Some srv' →
  same_service (kv srv) (kv srv') ∧ chan_ok (kv srv') ∧
  (rf (kv srv') = rf (kv srv) ∧ w = [] ∨
   ∃ args res, Start (Some args) (rf (kv srv)) = Some (res, rf (kv srv'), w)).
Proof.
  intros Hok Ha Hw Hex.
  assert (chan_ok (kv srv')) as Hch.
  { apply (srv_step_ok failed_decode srv srv' Hok). exists a. by destruct a. }
  assert (quiet_kv (kv srv) (kv srv') → w = [] → same_service (kv srv) (kv srv') ∧ chan_ok (kv srv') ∧
    (rf (kv srv') = rf (kv srv) ∧ w = [] ∨
     ∃ args res, Start (Some args) (rf (kv srv)) = Some (res, rf (kv srv'), w))) as Hq.
  { intros [? ?] ->. split_and!; auto. }
  destruct a as [args|h|h| |]; try done; simpl in Hw, Hex.
  - simplify_eq. destruct (run_kv _ srv) as [[dup s1]|] eqn:Hrun; simplify_eq/=. apply run_quiet in Hrun.
    + apply Hq; [|done]. by destruct dup.
    + unfold commandCheck. by wlp_steps.
  - destruct (handlers srv !! h) as [[args|args i|args i ch|i|]|] eqn:Hh; simplify_eq/=.
    + unfold run_effects in Hw. destruct (commandStart args (kv srv)) as [[[x k'] w']|] eqn:Hc; simplify_eq/=.
      unfold run_kv in Hex. rewrite Hc in Hex. simpl in Hex.
      destruct (commandStart_run _ _ _ _ _ Hc) as (res & r & Hs & ->).
      assert (kv srv' = set_rf r (kv srv)) as Heq by (by destruct x; simplify_eq).
      rewrite Heq in *. split; [done|]. split; [done|]. right. by exists args, res.
    + destruct (run_kv _ srv) as [[r s1]|] eqn:Hrun; simplify_eq/=. apply run_quiet in Hrun; [by apply Hq|].
      unfold getNotifyChan. wlp_steps. by case_match; wlp_steps.
    + destruct (run_kv _ srv) as [[[r|] s1]|] eqn:Hrun; simplify_eq/=. apply run_quiet in Hrun; [by apply Hq|].
      unfold commandReceive. wlp_steps. by repeat case_match; wlp_steps.
    + by apply Hq.
  - repeat case_match; simplify_eq/=. by apply Hq.
Qed.

Lemma applyMsg_quiet kv msg :
  maxraftstate kv = -1 → CommandValid msg = true →
  wlp (applyMsg failed_decode msg) (λ _ kv', rf kv' = rf kv ∧ maxraftstate kv' = -1) kv.
Proof.
  intros Hm Hv. unfold applyMsg. rewrite Hv. wlp_step. wlp_step. wlp_step; [by wlp_step|].
  wlp_step. wlp_step. wlp_step. wlp_step. wlp_step. wlp_step. wlp_step.
  apply (wlp_mono _ (λ _ kv', rf kv' = rf kv ∧ maxraftstate kv' = -1)).
  { unfold applyToStateMachine, Put, Append, Get. wlp_steps; try done. by case_match; wlp_steps. }
  intros reply k1 [Hr1 Hm1]. wlp_step.
  apply (wlp_mono _ (λ _ kv', rf kv' = rf kv ∧ maxraftstate kv' = -1)).
  { intros x k2 w. unfold raft_call, GetState. simpl. intros [= <- <- <-]. by rewrite Hr1. }
  intros [t l] k2 [Hr2 Hm2]. wlp_step.
  apply (wlp_mono _ (λ _ kv', rf kv' = rf kv ∧ maxraftstate kv' = -1)).
  { unfold getNotifyChan, chan_send. wlp_steps; try done. case_match; wlp_steps; by repeat case_match; wlp_steps. }
  intros [] k3 [Hr3 Hm3]. unfold needSnapshot. wlp_steps; try done; lia.
Qed.

Lemma applyMsg_dummy kv msg :
  CommandValid msg = true → lastApplied kv < CommandIndex msg → ACommand msg = None →
  applyMsg failed_decode msg kv = None.
Proof.
  intros Hv Hl Hc. unfold applyMsg, mbind, M_bind, get, modify, lift. rewrite Hv. simpl.
  destruct (CommandIndex msg <=? lastApplied kv) eqn:?; [lia|]. simpl. by rewrite Hc.
Qed.

(** ** The invariant *)
Lemma reachable_disks (x : Net CommandArgs) (i : nat) r :
  rtc net_step (net_init n) x → nodes (base x) !! i = Some r → disk [] r.
Proof.
  intros Hs. revert i r. assert (∀ i r, nodes (base (net_init n)) !! i = Some r → disk [] r) as Hi
    by apply net_init_disks.
  revert Hi. generalize (net_init (Cmd := CommandArgs) n) Hs. clear Hs.
  intros x0 Hs. induction Hs as [|x0 x1 x2 H01 _ IH]; intros Hi; [done|]. apply IH. by eapply net_step_disks.
Qed.

Lemma reachable_lengths (x : Net CommandArgs) :
  rtc net_step (net_init n) x → length (nodes (base x)) = n ∧ length (channel x) = n.
Proof.
  intros Hs. destruct (reachable_inv n x Hs) as (g & HI & [HL _] & _).
  pose proof (inv_len _ _ _ (nv_base _ _ _ HI)). lia.
Qed.

(** The network moved and no channel but perhaps that of [i] lost anything. *)
Definition grows_but (i : nat) (x y : Net CommandArgs) : Prop :=
  rtc kv_net_step x y ∧
  ∀ j ch', j ≠ i → channel y !! j = Some ch' → ∃ ch, channel x !! j = Some ch ∧ ch `prefix_of` ch'.

Lemma grows_refl i x : grows_but i x x.
Proof. split; [done|]. intros j ch' _ Hj. by exists ch'. Qed.

Lemma grows_step x y a (j : nat) ch' :
  rtc net_step (net_init n) x → nexec x a = Some y → (∀ j, a ≠ NRestart j) → net_rolls_back x a = false →
  channel y !! j = Some ch' → ∃ ch, channel x !! j = Some ch ∧ ch `prefix_of` ch'.
Proof.
  intros Hx Hex Ha Hr Hj. pose proof (lookup_lt_Some _ _ _ Hj) as Hlt.
  assert (rtc net_step (net_init n) y) as Hy by (eapply rtc_r; [exact Hx|by exists a]).
  destruct (reachable_lengths x Hx), (reachable_lengths y Hy).
  destruct (lookup_lt_is_Some_2 (channel x) j) as [ch Hch]; [lia|]. exists ch. split; [done|].
  destruct (nexec_channel x a y j ch Hex Ha Hch) as (ch2 & ? & ?). by simplify_eq.
Qed.

Lemma KInv_server s (i : nat) net' srv' k' :
  KInv s → grows_but i (net s) net' →
  (∀ ch, channel net' !! i = Some ch → srv_hist srv' k' ch) →
  KInv (mkKVNet net' (<[i := srv']> (srvs s)) (<[i := k']> (taken s))).
Proof.
  intros [] [Hr Hg] Hh. split; simpl; [by etrans|by rewrite length_insert..|].
  intros j srvj kj ch. rewrite !list_lookup_insert_Some.
  intros [(<- & <- & _)|(Hne & Hs)] [(? & <- & _)|(? & Hk)] Hch; try done; [by apply Hh|].
  destruct (Hg j ch ltac:(done) Hch) as (ch0 & Hch0 & Hp). by eapply srv_hist_grow, ki_hist0.
Qed.

Lemma set_peer_same (i : nat) r (x : Net CommandArgs) : nodes (base x) !! i = Some r → set_peer i r x = x.
Proof.
  destruct x as [[nd el cs] aps ins bt ch dl]. unfold set_peer, set_base, set_node. simpl. intros Hi.
  by rewrite list_insert_id.
Qed.

Lemma KInv_init : KInv (kv_init n).
Proof.
  split; simpl; [done|by rewrite length_fmap, length_seq|by rewrite length_replicate|].
  intros i srv k ch. rewrite list_lookup_fmap_Some, !lookup_replicate.
  intros (j & -> & [-> Hj]%lookup_seq) [-> _] [-> _]. by split.
Qed.

Lemma server_exists s i srv :
  KInv s → server_at i s = Some srv → ∃ k ch, taken s !! i = Some k ∧ channel (net s) !! i = Some ch.
Proof.
  intros HK Hs. unfold server_at in Hs. destruct (srvs s !! i) as [srv0|] eqn:Hsrv; simplify_eq/=.
  apply lookup_lt_Some in Hsrv. rewrite (ki_srvs _ HK) in Hsrv.
  destruct (reachable_lengths _ (ki_net _ HK)) as [_ HL].
  destruct (lookup_lt_is_Some_2 (taken s) i) as [k Hk]; [rewrite (ki_taken _ HK); lia|].
  destruct (lookup_lt_is_Some_2 (channel (net s)) i) as [ch Hch]; [lia|]. by exists k, ch.
Qed.

(** ** Every step keeps it *)
Lemma kstep_net s a net' :
  KInv s → own_action a = true → net_rolls_back (net s) a = false → nexec (net s) a = Some net' →
  KInv (mkKVNet net' (srvs s) (taken s)) ∧ rtc kv_net_step (net s) net'.
Proof.
  intros HK Ha Hr Hex. assert (kv_net_step (net s) net') as Hst by (exists a; split; [by destruct a|done]).
  split; [|by apply rtc_once]. pose proof (ki_net _ HK). destruct HK. split; simpl; [by eapply rtc_r|done|done|].
  intros j srv k ch Hsrv Hk Hch.
  destruct (grows_step (net s) net' a j ch) as (ch0 & Hch0 & Hp); auto; [by intros ? ->|].
  by eapply srv_hist_grow, ki_hist0.
Qed.

Lemma kstep_handler s i a srv w srv' :
  KInv s → handler_action a = true → server_at i s = Some srv → handler_effects srv a = Some w →
  srv_exec failed_decode srv a = Some srv' →
  KInv (mkKVNet (sends i w (set_peer i (rf (kv srv')) (net s))) (<[i := srv']> (srvs s)) (taken s)) ∧
  rtc kv_net_step (net s) (sends i w (set_peer i (rf (kv srv')) (net s))).
Proof.
  intros HK Ha Hs Hw Hex. destruct (server_exists s i srv HK Hs) as (k & ch & Hk & Hch).
  destruct (server_kv_ok s i srv k ch HK Hs Hk Hch) as (Hok & Hh & Hr & Hlen).
  destruct (handler_step srv a srv' w Hok Ha Hw Hex) as (Hsame & Hchan & Hraft).
  set (net' := sends i w (set_peer i (rf (kv srv')) (net s))).
  assert (rtc kv_net_step (net s) net' ∧ channel net' = channel (net s)) as [Hst Hcs].
  { split; [|done]. unfold net'. destruct Hraft as [[-> ->]|(args & res & Hstart)].
    - by rewrite set_peer_same, sends_nil.
    - apply rtc_once. exists (NStart i (Some args)). split; [by right|]. split; [done|].
      unfold nexec, run_peer. rewrite Hr. simpl. by rewrite Hstart. }
  split; [|done]. rewrite <-(list_insert_id (taken s) i k Hk). apply KInv_server; [done| |].
  - split; [done|]. rewrite Hcs. intros j ch' _ Hj. by exists ch'.
  - rewrite Hcs. intros ch' Hch'. simplify_eq. by apply (srv_hist_same srv).
Qed.

Lemma kstep_apply s i srv k ch msg srv' :
  KInv s → server_at i s = Some srv → taken s !! i = Some k → channel (net s) !! i = Some ch →
  ch !! k = Some msg → srv_exec failed_decode srv (SApply msg) = Some srv' →
  KInv (mkKVNet (set_peer i (rf (kv srv')) (net s)) (<[i := srv']> (srvs s)) (<[i := S k]> (taken s))) ∧
  rtc kv_net_step (net s) (set_peer i (rf (kv srv')) (net s)).
Proof.
  intros HK Hs Hk Hch Hmsg Hex. destruct (server_kv_ok s i srv k ch HK Hs Hk Hch) as (Hok & Hh & Hr & Hlen).
  destruct (reachable_inv n _ (ki_net _ HK)) as (g & HS).
  destruct (channel_hist n g _ i ch k msg HS Hch Hmsg) as [Hidx (T & i0 & e & _ & _ & _ & Hm)].
  assert (CommandValid msg = true) as Hv by by rewrite Hm. clear T i0 e Hm.
  destruct Hh as [Hmax Hchan Hread Happ Hst]. simpl in Hex. unfold run_kv in Hex.
  destruct (KVServer.applyMsg failed_decode msg (kv srv)) as [[[[] kv'] w]|] eqn:Hrun; simplify_eq/=.
  destruct (applyMsg_quiet (kv srv) msg Hmax Hv _ _ _ Hrun) as [Hrf Hmax'].
  rewrite Hrf, set_peer_same by done. split; [|done].
  apply KInv_server; [done|apply grows_refl|]. intros ch' Hch'. simplify_eq.
  destruct (ACommand msg) as [c|] eqn:Hc; [|rewrite applyMsg_dummy in Hrun by (done || lia); done].
  assert (kv_ok kv' ∧ abs kv' = snd (dedup_apply (abs (kv srv)) c) ∧ lastApplied kv' = CommandIndex msg)
    as ((_ & Hchan' & _) & Habs & Hla).
  { apply lookup_lt_Some in Hmsg.
    eapply (wp_run _ (λ _ kv' _, kv_ok kv' ∧ abs kv' = snd (dedup_apply (abs (kv srv)) c) ∧
      lastApplied kv' = CommandIndex msg)); [exact Hrun|].
    apply (wp_applyCommand failed_decode (kv srv) msg c); auto; lia. }
  apply lookup_lt_Some in Hmsg as Hlt. split; simpl; [done|done|lia|lia|].
  rewrite (take_S_r _ _ msg Hmsg). unfold replay, dedup_run. rewrite omap_app, foldl_app. simpl. rewrite Hc. simpl.
  by rewrite Habs, Hst.
Qed.

Lemma kstep_kill s i srv srv' :
  KInv s → server_at i s = Some srv → run_kv KVServer.Kill srv = Some (tt, srv') →
  KInv (mkKVNet (set_peer i (rf (kv srv')) (net s)) (<[i := srv']> (srvs s)) (taken s)) ∧
  rtc kv_net_step (net s) (set_peer i (rf (kv srv')) (net s)).
Proof.
  intros HK Hs Hrun. destruct (server_exists s i srv HK Hs) as (k & ch & Hk & Hch).
  destruct (server_kv_ok s i srv k ch HK Hs Hk Hch) as (Hok & Hh & Hr & Hlen).
  unfold run_kv, KVServer.Kill, mbind, M_bind, modify, raft_call, Raft.Kill in Hrun. simplify_eq/=.
  set (net' := set_peer i (Raft.set_dead 1 (rf (kv srv))) (net s)).
  assert (rtc kv_net_step (net s) net') as Hst.
  { apply rtc_once. exists (NKill i). split; [done|]. split; [done|]. unfold nexec, run_peer. rewrite Hr. simpl.
    by rewrite sends_nil. }
  split; [|done]. rewrite <-(list_insert_id (taken s) i k Hk). apply KInv_server; [done| |].
  - split; [done|]. intros j ch' _ Hj. by exists ch'.
  - intros ch' Hch'. simpl in Hch'. simplify_eq. by apply (srv_hist_same srv); [|apply Hok|].
Qed.

Lemma kstep_restart s i srv kv' net' :
  KInv s → server_at i s = Some srv →
  StartKVServer failed_decode (npeers (rf (kv srv))) (me (rf (kv srv))) (persister (rf (kv srv)))
    (maxraftstate (kv srv)) = Some kv' →
  nexec (net s) (NRestart i) = Some net' →
  KInv (mkKVNet (set_peer i (rf kv') net') (<[i := mkServer kv' [] (answers srv)]> (srvs s))
          (<[i := 0%nat]> (taken s))) ∧
  rtc kv_net_step (net s) (set_peer i (rf kv') net').
Proof.
  intros HK Hs Hstart Hex. destruct (server_exists s i srv HK Hs) as (k & ch & Hk & Hch).
  destruct (server_kv_ok s i srv k ch HK Hs Hk Hch) as (Hok & Hh & Hr & Hlen).
  assert (kv_net_step (net s) net') as Hst by by exists (NRestart i).
  unfold nexec, exec in Hex. rewrite Hr in Hex. simpl in Hex. unfold StartKVServer in Hstart.
  destruct (Make _ _ _) as [r'|] eqn:Hmake; simplify_eq/=.
  assert (ReadSnapshot (persister (rf (kv srv))) = []) as Hsnap.
  { unfold ReadSnapshot. rewrite clone_id. by apply (reachable_disks _ i _ (ki_net _ HK)). }
  rewrite Hsnap in Hstart. unfold run_state, restoreSnapshot in Hstart. simplify_eq/=.
  rewrite set_peer_same.
  2: { simpl. apply list_lookup_insert_eq. by eapply lookup_lt_Some. }
  split; [|by apply rtc_once]. apply KInv_server; [done| |].
  - split; [by apply rtc_once|]. intros j ch' Hne. simpl. rewrite list_lookup_insert_ne by done.
    intros Hj. by exists ch'.
  - simpl. intros ch' Hch'. rewrite list_lookup_insert_eq in Hch' by (by eapply lookup_lt_Some). simplify_eq.
    destruct Hh. by split.
Qed.

Lemma kstep_KInv s s' : KInv s → kstep failed_decode s s' → KInv s' ∧ rtc kv_net_step (net s) (net s').
Proof.
  intros HK (a & Hr & Hex). destruct a as [a|i a|i|i|i]; simpl in Hr, Hex.
  - destruct (own_action a) eqn:Ha; [|done].
    destruct (nexec (net s) a) as [net'|] eqn:Hnet; simplify_eq/=. by eapply kstep_net.
  - destruct (handler_action a) eqn:Ha; [|done].
    destruct (server_at i s) as [srv|] eqn:Hs; simplify_eq/=.
    destruct (handler_effects srv a) as [w|] eqn:Hw; simplify_eq/=.
    destruct (srv_exec failed_decode srv a) as [srv'|] eqn:Hsrv; simplify_eq/=. by eapply kstep_handler.
  - destruct (server_at i s) as [srv|] eqn:Hs; simplify_eq/=.
    destruct (taken s !! i) as [k|] eqn:Hk; simplify_eq/=.
    destruct (channel (net s) !! i) as [ch|] eqn:Hch; simplify_eq/=.
    destruct (ch !! k) as [msg|] eqn:Hmsg; simplify_eq/=.
    destruct (run_kv _ srv) as [[[] srv']|] eqn:Hrun; simplify_eq/=.
    eapply kstep_apply; eauto. simpl. by rewrite Hrun.
  - destruct (server_at i s) as [srv|] eqn:Hs; simplify_eq/=.
    exact (kstep_kill s i srv _ HK Hs eq_refl).
  - destruct (server_at i s) as [srv|] eqn:Hs; simplify_eq/=.
    destruct (StartKVServer _ _ _ _ _) as [kv'|] eqn:Hstart; simplify_eq/=.
    destruct (nodes (base (net s)) !! i ≫= _) as [c|] eqn:Hc; simplify_eq/=.
    eapply kstep_restart; eauto. unfold nexec, exec. by rewrite Hc.
Qed.

Lemma ksteps_KInv s s' : rtc (kstep failed_decode) s s' → KInv s → KInv s' ∧ rtc kv_net_step (net s) (net s').
Proof.
  induction 1 as [|s1 s2 s3 H12 _ IH]; intros HK; [done|].
  destruct (kstep_KInv s1 s2 HK H12) as [HK2 H12']. destruct (IH HK2). split; [done|]. by etrans.
Qed.

Lemma server_state s i srv :
  KInv s → srvs s !! i = Some srv →
  ∃ (k : nat) ch, channel (net s) !! i = Some ch ∧ k ≤ length ch ∧ lastApplied (kv srv) = k ∧
    abs (kv srv) = replay (take k ch).
Proof.
  intros HK Hs. pose proof (lookup_lt_Some _ _ _ Hs) as Hlt. rewrite (ki_srvs _ HK) in Hlt.
  destruct (reachable_lengths _ (ki_net _ HK)) as [_ HL].
  destruct (lookup_lt_is_Some_2 (taken s) i) as [k Hk]; [rewrite (ki_taken _ HK); lia|].
  destruct (lookup_lt_is_Some_2 (channel (net s)) i) as [ch Hch]; [lia|].
  destruct (ki_hist _ HK _ _ _ _ Hs Hk Hch). by exists k, ch.
Qed.

(** ** Every step can be taken *)
Lemma server_total s (i : nat) :
  KInv s → (i < length (srvs s))%nat → ∃ srv0 srv k ch, srvs s !! i = Some srv0 ∧ server_at i s = Some srv ∧
    handlers srv = handlers srv0 ∧ chans (kv srv) = chans (kv srv0) ∧
    taken s !! i = Some k ∧ channel (net s) !! i = Some ch ∧
    kv_ok (kv srv) ∧ srv_hist srv k ch ∧ nodes (base (net s)) !! i = Some (rf (kv srv)) ∧
    length ch ≤ commitIndex (rf (kv srv)).
Proof.
  intros HK Hi. destruct (lookup_lt_is_Some_2 _ _ Hi) as [srv0 Hs0]. rewrite (ki_srvs _ HK) in Hi.
  destruct (reachable_lengths _ (ki_net _ HK)) as [HN _].
  destruct (lookup_lt_is_Some_2 (nodes (base (net s))) i) as [r Hr]; [lia|].
  assert (server_at i s = Some (mkServer (set_rf r (kv srv0)) (handlers srv0) (answers srv0))) as Hs
    by (unfold server_at; by rewrite Hs0, Hr).
  destruct (server_exists s i _ HK Hs) as (k & ch & Hk & Hch).
  destruct (server_kv_ok s i _ k ch HK Hs Hk Hch) as (? & ? & ? & ?). by do 4 eexists; split_and!.
Qed.

Lemma run_kv_total {A} (m : M KVServer (Effect CommandArgs) A) srv Q :
  wp m Q (kv srv) → ∃ x srv', run_kv m srv = Some (x, srv').
Proof. intros (x & kv' & w & Hm & _)%wp_total. unfold run_kv. rewrite Hm. eauto. Qed.

Lemma handler_total srv a :
  kv_ok (kv srv) → handler_enabled srv a = true →
  handler_action a = true ∧ is_Some (handler_effects srv a) ∧ is_Some (srv_exec failed_decode srv a).
Proof.
  intros Hok He. split; [by destruct a|]. destruct a as [args|h|h| |]; try done; simpl in *.
  - destruct (run_kv_total (commandCheck args) srv (λ _ _ _, True)) as (dup & srv' & ->); [|by split; eexists].
    unfold commandCheck. by wp_steps.
  - destruct (handlers srv !! h) as [[args|args i|args i ch|i|]|] eqn:Hh; try done; simpl.
    + destruct (wp_total _ _ _ (commandStart_ok (kv srv) args Hok)) as (x & kv' & w & Hc & _).
      unfold run_effects, run_kv. rewrite Hc. simpl. by split; eexists.
    + destruct (run_kv_total (getNotifyChan i) srv _ (getNotifyChan_ok (kv srv) i Hok)) as (x & srv' & ->).
      by split; eexists.
    + unfold run_kv, commandReceive, mbind, M_bind, get, modify.
      destruct (chans (kv srv) !! ch) as [[r|]|]; [by split; eexists|done..].
  - destruct (handlers srv !! h) as [[]|]; done.
Qed.

Lemma apply_total s (i : nat) srv k ch :
  KInv s → taken s !! i = Some k → channel (net s) !! i = Some ch → (k < length ch)%nat →
  kv_ok (kv srv) → srv_hist srv k ch → length ch ≤ commitIndex (rf (kv srv)) →
  ∃ msg, ch !! k = Some msg ∧ is_Some (srv_exec failed_decode srv (SApply msg)).
Proof.
  intros HK Hk Hch Hlt Hok Hh Hlen. destruct (lookup_lt_is_Some_2 _ _ Hlt) as [msg Hmsg].
  destruct (channel_entry has_command n (net s) i ch k msg ltac:(by left) (ki_start _ HK) Hch Hmsg)
    as (e & [?|[c Hc]] & Hidx & ->); [lia|].
  exists (mkApplyMsg true (Command e) (k + 1) (Term e) false [] 0 0). split; [done|]. simpl.
  destruct (run_kv_total (KVServer.applyMsg failed_decode (mkApplyMsg true (Command e) (k + 1) (Term e) false [] 0 0))
    srv (λ _ _ _, True)) as (x & srv' & ->); [|by eexists].
  apply (wp_applyCommand failed_decode _ _ c); try done. simpl. destruct Hh. lia.
Qed.

Lemma restart_total s (i : nat) srv :
  KInv s → nodes (base (net s)) !! i = Some (rf (kv srv)) →
  is_Some (StartKVServer failed_decode (npeers (rf (kv srv))) (me (rf (kv srv))) (persister (rf (kv srv)))
    (maxraftstate (kv srv))) ∧ is_Some (nexec (net s) (NRestart i)).
Proof.
  intros HK Hr. destruct (reachable_inv n _ (ki_net _ HK)) as (g & HI & _). split.
  - pose proof (nh_ok _ _ _ _ (nv_nodes _ _ _ HI _ _ Hr)) as Hok. unfold StartKVServer.
    destruct (make_ok _ Hok) as (r' & -> & _). simpl.
    assert (ReadSnapshot (persister (rf (kv srv))) = []) as ->; [|by eexists].
    unfold ReadSnapshot. rewrite clone_id. by apply (reachable_disks _ i _ (ki_net _ HK)).
  - apply (net_total n g); [done|]. simpl. apply bool_decide_eq_true_2. by eapply lookup_lt_Some.
Qed.

Lemma kexec_total s a : KInv s → kv_enabled s a = true → is_Some (kexec failed_decode s a).
Proof.
  intros HK He. destruct a as [a|i a|i|i|i]; simpl in He |- *.
  - apply andb_true_iff in He as [-> He]. destruct (reachable_inv n _ (ki_net _ HK)) as (g & HI & _).
    destruct (net_total n g _ a HI He) as [x ->]. by eexists.
  - destruct (srvs s !! i) as [srv0|] eqn:Hs0; [|done].
    destruct (server_total s i HK) as (? & srv & k & ch & ? & Hs & Hh & Hc & _ & _ & Hok & _);
      [by eapply lookup_lt_Some|]. simplify_eq.
    assert (handler_enabled srv a = true) as He' by (destruct a; simpl in *; rewrite ?Hh, ?Hc; done).
    destruct (handler_total srv a Hok He') as (-> & [w Hw] & [srv' Hsrv']). rewrite Hs. simpl.
    rewrite Hw. simpl. rewrite Hsrv'. by eexists.
  - destruct (taken s !! i) as [k|] eqn:Hk; [|done].
    destruct (channel (net s) !! i) as [ch|] eqn:Hch; [|done]. apply bool_decide_eq_true in He.
    destruct (server_total s i HK) as (? & srv & ? & ? & ? & Hs & _ & _ & ? & ? & Hok & Hh & _ & Hlen).
    { rewrite (ki_srvs _ HK), <-(ki_taken _ HK). by eapply lookup_lt_Some. }
    simplify_eq. destruct (apply_total s i srv k ch HK Hk Hch He Hok Hh Hlen) as (msg & Hmsg & [srv' Hex]).
    rewrite Hs. simpl. rewrite Hmsg. simpl in Hex |- *. rewrite Hex. by eexists.
  - apply bool_decide_eq_true in He. destruct (server_total s i HK He) as (? & srv & ? & ? & ? & -> & _).
    by eexists.
  - apply bool_decide_eq_true in He.
    destruct (server_total s i HK He) as (? & srv & ? & ? & ? & -> & _ & _ & _ & _ & _ & _ & Hr & _). simpl.
    destruct (restart_total s i srv HK Hr) as [[kv' ->] [net' Hn]]. simpl in Hn |- *. rewrite Hn. by eexists.
Qed.
End invariant.

(** Lists that are prefixes of one another are prefixes of the longest. *)
Lemma prefix_chain {A} (ls : list (list A)) :
  (∀ x y, x ∈ ls → y ∈ ls → x `prefix_of` y ∨ y `prefix_of` x) →
  ls = [] ∨ ∃ m, m ∈ ls ∧ ∀ x, x ∈ ls → x `prefix_of` m.
Proof.
  induction ls as [|l ls IH]; intros Hc; [by left|right].
  destruct IH as [->|(m & Hm & Hmax)]; [by (intros; apply Hc; right)| |].
  - exists l. split; [left|]. by intros x ->%list_elem_of_singleton.
  - destruct (Hc l m) as [Hp|Hp]; [left|by right| |].
    + exists m. split; [by right|]. intros x [->|?]%elem_of_cons; auto.
    + exists l. split; [left|]. intros x [->|?]%elem_of_cons; [done|]. etrans; [by apply Hmax|done].
Qed.

(** The first commands of a list in order are in order. *)
Lemma ordered_app {C S R} `{Rsm C S R} (l1 l2 : list C) : ordered (l1 ++ l2) → ordered l1.
Proof. intros Ho pre c suf ->. apply (Ho pre c (suf ++ l2)). by rewrite <-app_assoc. Qed.

Section refinement.
Context `{CodecLaws (hard_state CommandArgs)} `{CodecLaws (MemoryKV * gmap Z OperationInfo)}.
Context (failed_decode : list byte → MemoryKV * gmap Z OperationInfo) (n : nat).
Abbreviation kstep := (kstep failed_decode).


End refinement.

(** ** The hypotheses hold on a concrete run *)
Module KVClusterExamples.
#[local] Existing Instance entry_countable.
#[local] Instance raft_codec : Codec (hard_state CommandArgs) := countable_codec _.
#[local] Instance raft_codec_laws : CodecLaws (hard_state CommandArgs) := countable_codec_laws _.
#[local] Instance kv_codec : Codec (MemoryKV * gmap Z OperationInfo) := countable_codec _.
#[local] Instance kv_codec_laws : CodecLaws (MemoryKV * gmap Z OperationInfo) := countable_codec_laws _.

Definition put1 : CommandArgs := mkArgs "k" "1" OP_PUT 5 0.
Definition add2 : CommandArgs := mkArgs "k" "2" OP_APPEND 5 1.
Definition nets (l : list (NetAction CommandArgs)) : list KVAction := KNet <$> l.

(** Server 0 leads and applies a put and its retry, which both reached the log. *)
Definition first_leader : list KVAction :=
  nets [ NTimeout 0; NDeliverVote 0; NVoteReply 0 ] ++
  [ KServer 0 (SRequest put1); KServer 0 (SHandler 0); KServer 0 (SRequest put1); KServer 0 (SHandler 1);
    KServer 0 (SHandler 0) ] ++
  nets [ NDeliverAppend 0; NAppendReply 0; NHeartbeat 0; NDeliverAppend 6; NAppendReply 6; NTake 0; NDone 0 ] ++
  [ KApply 0; KServer 0 (SHandler 0); KServer 0 (SHandler 0); KApply 0 ].
(** Server 0 restarts empty; server 1 leads term 2, appends, and applies all three commands. *)
Definition second_leader : list KVAction :=
  [ KRestart 0 ] ++
  nets [ NTimeout 1; NDeliverVote 3; NVoteReply 3 ] ++
  [ KServer 1 (SRequest add2); KServer 1 (SHandler 0) ] ++
  nets [ NDeliverAppend 8; NDeliverAppend 10; NAppendReply 10; NTake 1 ] ++
  [ KApply 1; KApply 1; KApply 1 ].

Definition after (l : list KVAction) : KVNet :=
  default (kv_init 3) (krun (λ _, (∅, ∅)) (kv_init 3) l).
Definition early : KVNet := after first_leader.
Definition late : KVNet := after (first_leader ++ second_leader).
Definition server (s : KVNet) (i : nat) : Server := default (fresh_server 3 0 (-1)) (srvs s !! i).

Lemma kv_early_reached : rtc (kstep (λ _, (∅, ∅))) (kv_init 3) early.
Proof. apply (krun_steps _ first_leader). by vm_compute. Qed.
Lemma kv_late_reached : rtc (kstep (λ _, (∅, ∅))) early late.
Proof. apply (krun_steps _ second_leader). by vm_compute. Qed.

Lemma abs_store k (st : MemoryKV * gmap Z (Z * CommandReply)) : abs k = st → stateMachine k = st.1.
Proof. by intros <-. Qed.


(** Server 0 is about to apply the retry, while the reply to the put waits on its channel. *)
Definition applying : KVNet := after (take 17 first_leader).
Lemma kv_applying_reached : rtc (kstep (λ _, (∅, ∅))) (kv_init 3) applying.
Proof. apply (krun_steps _ (take 17 first_leader)). by vm_compute. Qed.

End KVClusterExamples.
