(* ===== verification/ShardCtrler.v ===== *)
(** * The shard controller ([shardctrler])

    [Module Config] models [stateMachine.go] and the data of [common.go]; [Module ShardCtrler] the
    server; [Module CtrlerClerk] the client.  Go iterates over a map in an unspecified order: the
    order is a parameter ([MapOrder]) of every function that ranges over one. *)
From S2P Require Import Prelude Raft Rsm.

Module Config.
Definition NShards : Z := 10.
Definition OK : string := "OK".
Definition ErrWrongLeader : string := "ErrWrongLeader".
Definition ErrTimeout : string := "ErrTimeout".

(** [Groups] maps a gid to the names of its servers; [Shards] has one gid per shard. *)
Record Config := mkConfig { Num : Z; Shards : list Z; Groups : gmap Z (list string) }.

#[export] Instance Config_eq_dec : EqDecision Config.
Proof. solve_decision. Defined.

Definition DefaultConfig : Config := mkConfig 0 (replicate (Z.to_nat NShards) 0) ∅.

Section ops.
Context `{MapOrder}.
Implicit Types (g2s : gmap Z (list Z)).

(** [dcopy]: a map with fresh slices. *)
Definition dcopy (groups : gmap Z (list string)) : gmap Z (list string) :=
  foldl (λ m '(gid, servers), <[gid := take (length servers) servers]> m) ∅ (map_order groups).

(** [g2s[gid]], the nil slice when absent. *)
Definition shards_of g2s (gid : Z) : list Z := default [] (g2s !! gid).

Definition GroupToShards (cf : Config) : gmap Z (list Z) :=
  let g2s := foldl (λ m '(gid, _), <[gid := []]> m) ∅ (map_order (Groups cf)) in
  foldl (λ m '(shard, gid), <[gid := shards_of m gid ++ [shard]]> m) g2s
    (imap (λ i gid, (Z.of_nat i, gid)) (Shards cf)).

(** [sort.Ints] of the keys. *)
Definition sorted_keys g2s : list Z := merge_sort (≤) (fst <$> map_order g2s).

Definition scanMax g2s (ks : list Z) : Z * Z :=
  foldl (λ '(index, max) gid,
    if max <? zlen (shards_of g2s gid) then (gid, zlen (shards_of g2s gid)) else (index, max)) (-1, -1) ks.

Definition getGidWithMaxShards g2s : Z :=
  if match g2s !! 0 with Some shards => 0 <? zlen shards | None => false end then 0
  else fst (scanMax g2s (sorted_keys g2s)).

Definition scanMin g2s (ks : list Z) : Z * Z :=
  foldl (λ '(index, min) gid,
    if negb (gid =? 0) && (zlen (shards_of g2s gid) <? min) then (gid, zlen (shards_of g2s gid))
    else (index, min)) (-1, NShards + 1) ks.

Definition getGidWithMinShards g2s : Z := fst (scanMin g2s (sorted_keys g2s)).

(** The [for] loop of [Join]; [None] when the fuel runs out or [g2s[source][0]] panics. *)
Fixpoint rebalance (fuel : nat) g2s : option (gmap Z (list Z)) :=
  match fuel with
  | O => None
  | S fuel =>
      let source := getGidWithMaxShards g2s in
      let target := getGidWithMinShards g2s in
      if negb (source =? 0) && (zlen (shards_of g2s source) - zlen (shards_of g2s target) <=? 1)
      then Some g2s
      else
        shard ← index (shards_of g2s source) 0;
        let g1 := <[target := shards_of g2s target ++ [shard]]> g2s in
        rest ← slice_from (shards_of g1 source) 1;
        rebalance fuel (<[source := rest]> g1)
  end.

(** Enough iterations for ten shards: see [rebalance_total]. *)
Definition joinFuel : nat := 1200.

(** [for gid, shards := range g2s { for _, shard := range shards { newShards[shard] = gid } }]. *)
Definition assign (gid : Z) (shards : list Z) (newShards : list Z) : option (list Z) :=
  foldl (λ acc shard, a ← acc; set_index a shard gid) (Some newShards) shards.
Definition assignAll (l : list (Z * list Z)) : option (list Z) :=
  foldl (λ acc '(gid, shards), a ← acc; assign gid shards a) (Some (replicate (Z.to_nat NShards) 0)) l.

(** [MemoryConfigStateMachine] is its list of configurations. *)
Definition NewMemoryConfigStateMachine : list Config := [DefaultConfig].

Definition lastConfig (cf : list Config) : option Config := index cf (zlen cf - 1).

Definition joinGroups (groups G : gmap Z (list string)) : gmap Z (list string) :=
  foldl (λ G '(gid, servers), match G !! gid with Some _ => G | None => <[gid := take (length servers) servers]> G end)
    G (map_order groups).

Definition Join (groups : gmap Z (list string)) (cf : list Config) : option (string * list Config) :=
  last ← lastConfig cf;
  let newConfig := mkConfig (zlen cf) (Shards last) (joinGroups groups (dcopy (Groups last))) in
  g2s ← rebalance joinFuel (GroupToShards newConfig);
  newShards ← assignAll (map_order g2s);
  Some (OK, cf ++ [mkConfig (Num newConfig) newShards (Groups newConfig)]).

(** The loop over the leaving groups: the remaining groups, their shards and the orphans. *)
Definition leaveGroups (gids : list Z) (st : gmap Z (list string) * gmap Z (list Z) * list Z)
    : gmap Z (list string) * gmap Z (list Z) * list Z :=
  foldl (λ '(G, g2s, orphans) gid,
    let G' := match G !! gid with Some _ => delete gid G | None => G end in
    match g2s !! gid with
    | Some shards => (G', delete gid g2s, orphans ++ shards)
    | None => (G', g2s, orphans)
    end) st gids.

Definition placeOrphans (orphans : list Z) g2s : gmap Z (list Z) :=
  foldl (λ g2s shard, let target := getGidWithMinShards g2s in
                      <[target := shards_of g2s target ++ [shard]]> g2s) g2s orphans.

Definition Leave (gids : list Z) (cf : list Config) : option (string * list Config) :=
  last ← lastConfig cf;
  let newConfig := mkConfig (zlen cf) (Shards last) (dcopy (Groups last)) in
  let '(G, g2s, orphanShards) := leaveGroups gids (Groups newConfig, GroupToShards newConfig, []) in
  newShards ←
    (if negb (bool_decide (size G = 0%nat)) then assignAll (map_order (placeOrphans orphanShards g2s))
     else Some (replicate (Z.to_nat NShards) 0));
  Some (OK, cf ++ [mkConfig (Num newConfig) newShards G]).

Definition Move (shard gid : Z) (cf : list Config) : option (string * list Config) :=
  last ← lastConfig cf;
  newShards ← set_index (Shards last) shard gid;
  Some (OK, cf ++ [mkConfig (zlen cf) newShards (dcopy (Groups last))]).

Definition Query (num : Z) (cf : list Config) : option (Config * string) :=
  if (num <? 0) || (zlen cf <=? num) then last ← lastConfig cf; Some (last, OK)
  else c ← index cf num; Some (c, OK).
End ops.
End Config.

(** ** The server *)
Module ShardCtrler.
Import Config.

Definition OP_JOIN : string := "OPJOIN".
Definition OP_LEAVE : string := "OPLEAVE".
Definition OP_MOVE : string := "OPMOVE".
Definition OP_QUERY : string := "OPQUERY".

Record CommandArgs := mkArgs {
  Servers : gmap Z (list string); GIDs : list Z; Shard : Z; GID : Z; QNum : Z; OP : string;
  ClientId : Z; CommandId : Z;
}.
Record CommandReply := mkReply { Err : string; RConfig : Config }.
Record OperationInfo := mkInfo { MaxAppliedCommandId : Z; LastReply : CommandReply }.

(** The zero [Config] of a reply that carries none. *)
Definition noConfig : Config := mkConfig 0 (replicate (Z.to_nat NShards) 0) ∅.

Record ShardCtrler := mkSC {
  rf : Raft CommandArgs;
  dead : Z;
  lastOperations : gmap Z OperationInfo;
  notifyChans : gmap Z nat;
  chans : list (option CommandReply);
  stateMachine : list Config;
}.

Definition set_rf r sc := mkSC r (dead sc) (lastOperations sc) (notifyChans sc) (chans sc) (stateMachine sc).
Definition set_dead d sc := mkSC (rf sc) d (lastOperations sc) (notifyChans sc) (chans sc) (stateMachine sc).
Definition set_lastOperations o sc := mkSC (rf sc) (dead sc) o (notifyChans sc) (chans sc) (stateMachine sc).
Definition set_notify n c sc := mkSC (rf sc) (dead sc) (lastOperations sc) n c (stateMachine sc).
Definition set_stateMachine m sc := mkSC (rf sc) (dead sc) (lastOperations sc) (notifyChans sc) (chans sc) m.

Section server.
Context `{MapOrder} `{Codec (hard_state CommandArgs)}.
Abbreviation SM := (M ShardCtrler (Effect CommandArgs)).

Definition raft_call {A} (m : M (Raft CommandArgs) (Effect CommandArgs) A) : SM A := λ sc,
  match m (rf sc) with
  | Some (a, r, w) => Some (a, set_rf r sc, w)
  | None => None
  end.

Definition isDuplicatedRequest (clientId requestId : Z) (sc : ShardCtrler) : bool :=
  match lastOperations sc !! clientId with
  | Some opinfo => requestId <=? MaxAppliedCommandId opinfo
  | None => false
  end.

Definition removeOutdataedNotifyChan (index : Z) : SM unit :=
  modify (λ sc, set_notify (delete index (notifyChans sc)) (chans sc) sc).

Definition getNotifyChan (index : Z) : SM nat :=
  sc ← get;
  match notifyChans sc !! index with
  | Some ch => mret ch
  | None =>
      modify (λ sc, set_notify (<[index := length (chans sc)]> (notifyChans sc)) (chans sc ++ [None]) sc) ;;
      mret (length (chans sc))
  end.

(** [ch <- reply]; [None] when the buffer is full and the goroutine blocks. *)
Definition chan_send (ch : nat) (reply : CommandReply) : SM unit :=
  sc ← get;
  match chans sc !! ch with
  | Some None => modify (λ sc, set_notify (notifyChans sc) (<[ch := Some reply]> (chans sc)) sc)
  | _ => panic
  end.

(** The reply and the state machine after a command; [None] is a panic. *)
Definition execute (command : CommandArgs) (m : list Config) : option (CommandReply * list Config) :=
  if bool_decide (OP command = OP_JOIN) then
    '(err, m') ← Join (Servers command) m; Some (mkReply err noConfig, m')
  else if bool_decide (OP command = OP_LEAVE) then
    '(err, m') ← Leave (GIDs command) m; Some (mkReply err noConfig, m')
  else if bool_decide (OP command = OP_MOVE) then
    '(err, m') ← Move (Shard command) (GID command) m; Some (mkReply err noConfig, m')
  else if bool_decide (OP command = OP_QUERY) then
    '(config, err) ← Query (QNum command) m; Some (mkReply err config, m)
  else Some (mkReply "" noConfig, m).

Definition applyLogToStateMachine (command : CommandArgs) : SM CommandReply :=
  sc ← get;
  '(reply, m) ← lift (execute command (stateMachine sc));
  modify (set_stateMachine m) ;;
  mret reply.

(** The critical sections of [Command]. *)
Definition commandCheck (args : CommandArgs) : SM (option CommandReply) :=
  sc ← get;
  if negb (bool_decide (OP args = OP_QUERY)) && isDuplicatedRequest (ClientId args) (CommandId args) sc
  then mret (LastReply <$> lastOperations sc !! ClientId args)
  else mret None.
Definition commandStart (args : CommandArgs) : SM (CommandReply + Z) :=
  '(index, _, isLeader) ← raft_call (Start (Some args));
  if negb isLeader then mret (inl (mkReply ErrWrongLeader noConfig)) else mret (inr index).
Definition commandReceive (ch : nat) : SM (option CommandReply) :=
  sc ← get;
  match chans sc !! ch with
  | Some (Some reply) =>
      modify (λ sc, set_notify (notifyChans sc) (<[ch := None]> (chans sc)) sc) ;; mret (Some reply)
  | _ => mret None
  end.
Definition commandTimeOut : CommandReply := mkReply ErrTimeout noConfig.

(** One message of [applier]. *)
Definition applyMsg (msg : ApplyMsg CommandArgs) : SM unit :=
  if CommandValid msg then
    command ← lift (ACommand msg);
    sc ← get;
    reply ←
      (if negb (bool_decide (OP command = OP_QUERY))
          && isDuplicatedRequest (ClientId command) (CommandId command) sc
       then lift (LastReply <$> lastOperations sc !! ClientId command)
       else
         reply ← applyLogToStateMachine command;
         when (negb (bool_decide (OP command = OP_QUERY)))
           (modify (λ sc, set_lastOperations
              (<[ClientId command := mkInfo (CommandId command) reply]> (lastOperations sc)) sc)) ;;
         mret reply);
    '(currentTerm, isLeader) ← raft_call GetState;
    when (isLeader && (CommandTerm msg =? currentTerm))
      (ch ← getNotifyChan (CommandIndex msg); chan_send ch reply)
  else panic.

Definition Kill : SM unit := modify (set_dead 1) ;; raft_call Raft.Kill.
Definition killed : SM bool := gets (λ sc, dead sc =? 1).

Definition StartServer (n self : Z) (p : Persister) : option ShardCtrler :=
  r ← Make n self p;
  Some (mkSC r 0 ∅ ∅ [] NewMemoryConfigStateMachine).
End server.
End ShardCtrler.

(** ** The client *)
Module CtrlerClerk.
Import Config ShardCtrler.

Record Clerk := mkClerk { servers : Z; leaderId : Z; clientId : Z; commandId : Z }.
Definition MakeClerk (n rand : Z) : Clerk := mkClerk n 0 rand 0.

Definition retries (rpc : option CommandReply) : bool :=
  match rpc with
  | None => true
  | Some reply => bool_decide (Err reply = ErrWrongLeader) || bool_decide (Err reply = ErrTimeout)
  end.

(** The loop of [Command], driven by what the successive calls return. *)
Fixpoint commandLoop (ck : Clerk) (args : CommandArgs) (rpcs : list (option CommandReply))
    : option (Config * Clerk * list (Z * CommandArgs)) :=
  match rpcs with
  | [] => None
  | rpc :: rpcs =>
      if retries rpc then
        '(v, ck', sent) ← commandLoop
          (mkClerk (servers ck) ((leaderId ck + 1) mod servers ck) (clientId ck) (commandId ck)) args rpcs;
        Some (v, ck', (leaderId ck, args) :: sent)
      else
        reply ← rpc;
        Some (RConfig reply, mkClerk (servers ck) (leaderId ck) (clientId ck) (commandId ck + 1),
              [(leaderId ck, args)])
  end.

Definition Query (ck : Clerk) (num : Z) :=
  commandLoop ck (mkArgs ∅ [] 0 0 num OP_QUERY (clientId ck) (commandId ck)).
Definition Join (ck : Clerk) (groups : gmap Z (list string)) :=
  commandLoop ck (mkArgs groups [] 0 0 0 OP_JOIN (clientId ck) (commandId ck)).
Definition Leave (ck : Clerk) (gids : list Z) :=
  commandLoop ck (mkArgs ∅ gids 0 0 0 OP_LEAVE (clientId ck) (commandId ck)).
Definition Move (ck : Clerk) (shard gid : Z) :=
  commandLoop ck (mkArgs ∅ [] shard gid 0 OP_MOVE (clientId ck) (commandId ck)).
End CtrlerClerk.
