(* ===== verification/ConfigProofs.v ===== *)
(** * The configuration state machine: rebalancing, independence of map order

    A group-to-shards table is a partition of the shards; every loop of [Join] and [Leave] moves
    shards inside it.  The results do not depend on the order in which Go visits maps. *)
From S2P Require Import Prelude ShardCtrler.
Import Config.

(** ** Maps visited in any order *)
Lemma take_all {A} (l : list A) : take (length l) l = l.
Proof. by rewrite take_ge. Qed.

Section order.
Context `{MapOrder}.

(** Copying a map gives the map. *)
Lemma dcopy_id G : dcopy G = G.
Proof.
  unfold dcopy. pose proof (map_order_perm G) as Hp.
  rewrite (foldl_insert (λ servers : list string, take (length servers) servers));
    [|by eapply listing_NoDup].
  rewrite (listing_map _ _ Hp), (right_id_L ∅ (∪)). rewrite <-(map_fmap_id G) at 2.
  apply map_fmap_ext. intros i x _. apply take_all.
Qed.

Lemma joinGroups_union groups G : joinGroups groups G = G ∪ groups.
Proof.
  unfold joinGroups. pose proof (map_order_perm groups) as Hp.
  rewrite <-(listing_map _ _ Hp) at 2. pose proof (listing_NoDup _ _ Hp) as Hnd. clear Hp.
  revert G. induction (map_order groups) as [|[k v] l IH]; simpl; intros G; [by rewrite (right_id_L ∅ (∪))|].
  simpl in Hnd. apply NoDup_cons in Hnd as [Hk Hnd]. rewrite IH by done. rewrite take_all.
  apply map_eq. intros i. rewrite !lookup_union. destruct (G !! k) as [w|] eqn:HG.
  - destruct (decide (i = k)) as [->|].
    + rewrite HG. by rewrite !union_Some_l.
    + by rewrite lookup_insert_ne.
  - destruct (decide (i = k)) as [->|].
    + rewrite HG, !lookup_insert_eq. rewrite union_Some_l. by rewrite (left_id_L None (∪)).
    + by rewrite !lookup_insert_ne.
Qed.

(** The sorted keys do not depend on the order. *)
Lemma sorted_keys_perm g2s : sorted_keys g2s ≡ₚ (map_to_list g2s).*1.
Proof. unfold sorted_keys. rewrite merge_sort_Permutation. by rewrite map_order_perm. Qed.

Lemma elem_of_sorted_keys g2s k : k ∈ sorted_keys g2s ↔ is_Some (g2s !! k).
Proof.
  rewrite sorted_keys_perm, list_elem_of_fmap. split.
  - intros ([k' v] & -> & Hin%elem_of_map_to_list). by eexists.
  - intros [v Hv%elem_of_map_to_list]. by exists (k, v).
Qed.
End order.

Lemma sorted_keys_order (o1 o2 : MapOrder) g2s :
  @sorted_keys o1 g2s = @sorted_keys o2 g2s.
Proof.
  apply (StronglySorted_unique (≤)); [apply StronglySorted_merge_sort; apply _..|].
  by rewrite !sorted_keys_perm.
Qed.

Lemma getMax_order (o1 o2 : MapOrder) g2s :
  @getGidWithMaxShards o1 g2s = @getGidWithMaxShards o2 g2s.
Proof. unfold getGidWithMaxShards. by rewrite (sorted_keys_order o1 o2). Qed.
Lemma getMin_order (o1 o2 : MapOrder) g2s :
  @getGidWithMinShards o1 g2s = @getGidWithMinShards o2 g2s.
Proof. unfold getGidWithMinShards. by rewrite (sorted_keys_order o1 o2). Qed.

Lemma rebalance_order (o1 o2 : MapOrder) fuel g2s : @rebalance o1 fuel g2s = @rebalance o2 fuel g2s.
Proof.
  revert g2s. induction fuel as [|fuel IH]; intros g2s; [done|]. simpl.
  rewrite (getMax_order o1 o2), (getMin_order o1 o2). case_match; [done|].
  destruct (index _ 0); simpl; [|done]. destruct (slice_from _ 1); simpl; [|done]. apply IH.
Qed.

Lemma placeOrphans_order (o1 o2 : MapOrder) orphans g2s :
  @placeOrphans o1 orphans g2s = @placeOrphans o2 orphans g2s.
Proof.
  unfold placeOrphans. revert g2s. induction orphans as [|x xs IH]; intros g2s; [done|]. simpl.
  rewrite (getMin_order o1 o2). apply IH.
Qed.

Lemma GroupToShards_order (o1 o2 : MapOrder) cf : @GroupToShards o1 cf = @GroupToShards o2 cf.
Proof.
  unfold GroupToShards. f_equal.
  rewrite !(foldl_insert (λ _ : list string, [] : list Z)) by (eapply listing_NoDup, map_order_perm).
  by rewrite !(listing_map _ (Groups cf)) by apply map_order_perm.
Qed.

(** ** The table as a partition of the shards *)
Implicit Types (g : gmap Z (list Z)).

Definition all_shards g : list Z := concat (map_to_list g).*2.
Definition shard_range : list Z := zrange 0 NShards.
Definition partition g : Prop := all_shards g ≡ₚ shard_range.

Lemma all_shards_lookup g k : all_shards g ≡ₚ shards_of g k ++ all_shards (delete k g).
Proof.
  unfold all_shards, shards_of. destruct (g !! k) as [l|] eqn:Hk; simpl.
  - rewrite <-(map_to_list_delete g k l Hk). done.
  - by rewrite delete_id.
Qed.

Lemma all_shards_insert g k l : all_shards (<[k := l]> g) ≡ₚ l ++ all_shards (delete k g).
Proof.
  rewrite (all_shards_lookup _ k). unfold shards_of. rewrite lookup_insert_eq. simpl.
  by rewrite delete_insert_eq.
Qed.

Lemma partition_total g : partition g → length (all_shards g) = 10%nat.
Proof. unfold partition. by intros ->. Qed.

Lemma partition_NoDup g : partition g → NoDup (all_shards g).
Proof. unfold partition. intros ->. apply NoDup_zrange. Qed.

Lemma shards_of_length g k : partition g → zlen (shards_of g k) ≤ 10.
Proof.
  intros Hp%partition_total. rewrite (all_shards_lookup g k), length_app in Hp. lia.
Qed.

(** *** Reading the table off a configuration *)
Section read.
Context `{MapOrder}.

Lemma groups_empty cf :
  foldl (λ m '(gid, _), <[gid := []]> m) ∅ (map_order (Groups cf)) = (λ _, [] : list Z) <$> Groups cf.
Proof.
  rewrite (foldl_insert (λ _ : list string, [] : list Z)) by (eapply listing_NoDup, map_order_perm).
  by rewrite (listing_map _ (Groups cf)), (right_id_L ∅ (∪)) by apply map_order_perm.
Qed.

(** Adding the shards one by one. *)
Definition addShards (l : list (Z * Z)) g : gmap Z (list Z) :=
  foldl (λ m '(shard, gid), <[gid := shards_of m gid ++ [shard]]> m) g l.

Lemma addShards_all l g : all_shards (addShards l g) ≡ₚ all_shards g ++ l.*1.
Proof.
  revert g. induction l as [|[s gid] l IH]; intros g; simpl; [by rewrite app_nil_r|].
  rewrite IH. rewrite all_shards_insert, (all_shards_lookup g gid). solve_Permutation.
Qed.

Lemma addShards_lookup l g k :
  shards_of (addShards l g) k = shards_of g k ++ (filter (λ p, snd p = k) l).*1.
Proof.
  revert g. induction l as [|[s gid] l IH]; intros g; simpl; [by rewrite app_nil_r|].
  rewrite IH, filter_cons. unfold shards_of at 1. case_decide as Hk; simpl in Hk.
  - subst. rewrite lookup_insert_eq. simpl. by rewrite <-(assoc_L (++)).
  - by rewrite lookup_insert_ne.
Qed.

Lemma addShards_dom l g : dom (addShards l g) = dom g ∪ list_to_set l.*2.
Proof.
  revert g. induction l as [|[s gid] l IH]; intros g; simpl; [set_solver|]. rewrite IH, dom_insert_L.
  set_solver.
Qed.

Lemma imap_fst {A} (f : nat → Z) (l : list A) : (imap (λ i x, (f i, x)) l).*1 = f <$> seq 0 (length l).
Proof.
  apply list_eq. intros i. rewrite list_lookup_fmap, list_lookup_imap, list_lookup_fmap.
  destruct (l !! i) as [x|] eqn:Hx; simpl.
  - rewrite lookup_seq_lt by (by eapply lookup_lt_Some). done.
  - apply lookup_ge_None in Hx. by rewrite lookup_seq_ge.
Qed.

Lemma imap_snd {A} (f : nat → Z) (l : list A) : (imap (λ i x, (f i, x)) l).*2 = l.
Proof.
  apply list_eq. intros i. rewrite list_lookup_fmap, list_lookup_imap. by destruct (l !! i).
Qed.

Lemma all_shards_nil (G : gmap Z (list string)) : all_shards ((λ _, []) <$> G) = [].
Proof.
  unfold all_shards. rewrite map_to_list_fmap. induction (map_to_list G) as [|[k v] l IH]; [done|].
  simpl. done.
Qed.

Lemma GroupToShards_eq cf :
  GroupToShards cf = addShards (imap (λ i gid, (Z.of_nat i, gid)) (Shards cf)) ((λ _, []) <$> Groups cf).
Proof. unfold GroupToShards. by rewrite groups_empty. Qed.

Lemma GroupToShards_partition cf : zlen (Shards cf) = NShards → partition (GroupToShards cf).
Proof.
  intros Hlen. unfold partition. rewrite GroupToShards_eq, addShards_all, all_shards_nil.
  rewrite (imap_fst Z.of_nat). unfold shard_range, NShards in *.
  by assert (length (Shards cf) = 10%nat) as -> by lia.
Qed.

Lemma GroupToShards_dom cf : dom (GroupToShards cf) = dom (Groups cf) ∪ list_to_set (Shards cf).
Proof.
  rewrite GroupToShards_eq, addShards_dom, dom_fmap_L, (imap_snd Z.of_nat). done.
Qed.

Lemma GroupToShards_lookup cf k s :
  s ∈ shards_of (GroupToShards cf) k ↔ index (Shards cf) s = Some k.
Proof.
  rewrite GroupToShards_eq, addShards_lookup.
  assert (shards_of ((λ _, []) <$> Groups cf) k = []) as ->.
  { unfold shards_of. rewrite lookup_fmap. by destruct (Groups cf !! k). }
  simpl. rewrite list_elem_of_fmap, index_Some. split.
  - intros ([s' k'] & -> & Hin). apply list_elem_of_filter in Hin as [Hk Hin]. simpl in *. subst k'.
    apply list_elem_of_lookup in Hin as [i Hi]. rewrite list_lookup_imap in Hi.
    destruct (Shards cf !! i) eqn:Hx; simplify_eq/=. rewrite Nat2Z.id. split; [lia|done].
  - intros [Hs Hx]. exists (s, k). split; [done|]. apply list_elem_of_filter. split; [done|].
    apply list_elem_of_lookup. exists (Z.to_nat s). rewrite list_lookup_imap, Hx. simpl.
    by rewrite Z2Nat.id.
Qed.
End read.

(** *** The fullest and the emptiest group *)
Lemma scanMax_spec g ks :
  let '(i, m) := scanMax g ks in
  (∀ k, k ∈ ks → zlen (shards_of g k) ≤ m) ∧
  (i ∈ ks ∧ zlen (shards_of g i) = m ∨ ks = [] ∧ i = -1 ∧ m = -1).
Proof.
  unfold scanMax. induction ks as [|k ks IH] using rev_ind; simpl; [set_solver|].
  rewrite foldl_app. simpl. destruct (foldl _ (-1, -1) ks) as [i m]. destruct IH as [Hmax Hi].
  destruct (m <? zlen (shards_of g k)) eqn:Hlt; split.
  - intros k' [?%Hmax|Hk%list_elem_of_singleton]%elem_of_app; [lia|by subst].
  - left. split; [set_solver|done].
  - intros k' [?%Hmax|Hk%list_elem_of_singleton]%elem_of_app; [lia|subst; lia].
  - destruct Hi as [[? ?]|(-> & -> & ->)]; [left; set_solver|apply Z.ltb_ge in Hlt; exfalso; lia].
Qed.

Lemma scanMin_spec g ks :
  let '(i, m) := scanMin g ks in
  (∀ k, k ∈ ks → k ≠ 0 → m ≤ zlen (shards_of g k)) ∧ m ≤ NShards + 1 ∧
  (i ∈ ks ∧ i ≠ 0 ∧ zlen (shards_of g i) = m ∨ i = -1 ∧ m = NShards + 1).
Proof.
  unfold scanMin. induction ks as [|k ks IH] using rev_ind; simpl; [set_solver by lia|].
  rewrite foldl_app. simpl. destruct (foldl _ (-1, NShards + 1) ks) as [i m]. destruct IH as (Hmin & Hb & Hi).
  destruct (negb (k =? 0) && (zlen (shards_of g k) <? m)) eqn:Hlt; split_and!.
  - intros k' [Hin|Hk%list_elem_of_singleton]%elem_of_app Hk0; [specialize (Hmin _ Hin Hk0); lia|subst; lia].
  - lia.
  - left. split_and!; [set_solver|lia|done].
  - intros k' [Hin|Hk%list_elem_of_singleton]%elem_of_app Hk0; [specialize (Hmin _ Hin Hk0); lia|subst; lia].
  - done.
  - destruct Hi as [(? & ? & ?)|?]; [left; set_solver|by right].
Qed.

Abbreviation load g k := (zlen (shards_of g k)).

Lemma elem_of_all_shards g s : s ∈ all_shards g ↔ ∃ k, s ∈ shards_of g k.
Proof.
  split.
  - unfold all_shards. rewrite list_elem_of_In, in_concat. intros (l & Hl%list_elem_of_In & Hs%list_elem_of_In).
    apply list_elem_of_fmap in Hl as ([k l'] & -> & Hk%elem_of_map_to_list). exists k.
    unfold shards_of. by rewrite Hk.
  - intros [k Hk]. rewrite (all_shards_lookup g k), elem_of_app. by left.
Qed.

Lemma load_dom g k : 0 < load g k → is_Some (g !! k).
Proof. unfold shards_of. destruct (g !! k); simpl; [by eexists|lia]. Qed.

Lemma partition_nonempty g : partition g → ∃ k, 0 < load g k.
Proof.
  intros Hp. assert (0 ∈ all_shards g) as H0 by (rewrite (Hp : all_shards g ≡ₚ _); by apply elem_of_zrange).
  apply elem_of_all_shards in H0 as [k Hk]. exists k. destruct (shards_of g k); [by apply elem_of_nil in Hk|].
  simpl. lia.
Qed.

Section extremes.
Context `{MapOrder}.

Lemma getMax_spec g :
  partition g → let src := getGidWithMaxShards g in
  0 < load g src ∧ (src = 0 ∨ load g 0 = 0 ∧ ∀ k, load g k ≤ load g src).
Proof.
  intros Hp. unfold getGidWithMaxShards. simpl.
  assert (match g !! 0 with Some shards => 0 <? zlen shards | None => false end = (0 <? load g 0)) as ->.
  { unfold shards_of. by destruct (g !! 0). }
  destruct (0 <? load g 0) eqn:H0; [split; [lia|by left]|]. apply Z.ltb_ge in H0.
  pose proof (scanMax_spec g (sorted_keys g)) as Hs. destruct (scanMax g (sorted_keys g)) as [i m].
  destruct Hs as [Hmax Hi]. simpl.
  assert (∀ k, 0 < load g k → load g k ≤ m) as Hle.
  { intros k Hk. apply Hmax, elem_of_sorted_keys. by apply load_dom. }
  destruct (partition_nonempty g Hp) as [k Hk]. specialize (Hle k Hk) as Hk'.
  destruct Hi as [[_ Hi]|(_ & _ & ->)]; [|lia]. split; [lia|]. right. split; [lia|]. intros k'.
  destruct (decide (0 < load g k')) as [?%Hle|]; lia.
Qed.

Lemma getMin_spec g :
  partition g → let tgt := getGidWithMinShards g in
  tgt ≠ 0 ∧ (is_Some (g !! tgt) ∨ tgt = -1 ∧ ∀ k, is_Some (g !! k) → k = 0) ∧
  ∀ k, is_Some (g !! k) → k ≠ 0 → load g tgt ≤ load g k.
Proof.
  intros Hp. unfold getGidWithMinShards. simpl.
  pose proof (scanMin_spec g (sorted_keys g)) as Hs. destruct (scanMin g (sorted_keys g)) as [i m].
  destruct Hs as (Hmin & Hb & Hi). simpl. unfold NShards in *.
  assert (∀ k, is_Some (g !! k) → k ≠ 0 → m ≤ load g k) as Hle.
  { intros k Hk. by apply Hmin, elem_of_sorted_keys. }
  destruct Hi as [(Hi & Hi0 & Hm)|[-> ->]].
  - split_and!; [done|left; by apply elem_of_sorted_keys in Hi|]. by rewrite Hm.
  - assert (∀ k, is_Some (g !! k) → k = 0) as Hall.
    { intros k Hk. destruct (decide (k = 0)) as [|Hne]; [done|].
      pose proof (Hle k Hk Hne). pose proof (shards_of_length g k Hp). lia. }
    split_and!; [done|by right|]. intros k Hk Hne. by destruct Hne; auto.
Qed.
End extremes.

(** *** Moving one shard *)
Definition move g (source target : Z) (x : Z) (rest : list Z) : gmap Z (list Z) :=
  <[source := rest]> (<[target := shards_of g target ++ [x]]> g).

Lemma move_all g source target x rest :
  source ≠ target → shards_of g source = x :: rest →
  all_shards (move g source target x rest) ≡ₚ all_shards g.
Proof.
  intros Hne Hs. unfold move. rewrite all_shards_insert, delete_insert_ne, all_shards_insert by done.
  rewrite (all_shards_lookup g source), (all_shards_lookup (delete source g) target), Hs.
  unfold shards_of at 2. rewrite lookup_delete_ne by done. fold (shards_of g target). solve_Permutation.
Qed.

Lemma move_load g source target x rest k :
  source ≠ target → shards_of g source = x :: rest →
  load (move g source target x rest) k =
    load g k + (if decide (k = target) then 1 else 0) - (if decide (k = source) then 1 else 0).
Proof.
  intros Hne Hs. unfold move, shards_of at 1.
  destruct (decide (k = source)) as [->|Hk]; [rewrite decide_False by done|].
  - rewrite lookup_insert_eq, Hs. simpl. lia.
  - rewrite lookup_insert_ne by done. destruct (decide (k = target)) as [->|Hk'].
    + rewrite lookup_insert_eq. simpl. rewrite length_app. simpl. lia.
    + rewrite lookup_insert_ne by done. fold (shards_of g k). lia.
Qed.

Lemma move_dom g source target x rest :
  is_Some (g !! source) → dom (move g source target x rest) = {[target]} ∪ dom g.
Proof. intros Hs%elem_of_dom. unfold move. rewrite !dom_insert_L. set_solver. Qed.

(** A move from group 0 or to a group with at least two shards less decreases the measure. *)
Definition weight (p : Z * list Z) : nat :=
  if decide (fst p = 0) then (102 * length (snd p))%nat else (length (snd p) * length (snd p))%nat.
Definition measure g : nat := sum_list_with weight (map_to_list g).

Lemma measure_lookup g k : measure g = (weight (k, shards_of g k) + measure (delete k g))%nat.
Proof.
  unfold measure, shards_of. destruct (g !! k) as [l|] eqn:Hk; simpl.
  - by rewrite <-(map_to_list_delete g k l Hk).
  - rewrite delete_id by done. unfold weight at 2. simpl. case_decide; lia.
Qed.

Lemma measure_insert g k l : measure (<[k := l]> g) = (weight (k, l) + measure (delete k g))%nat.
Proof.
  rewrite (measure_lookup _ k). unfold shards_of. rewrite lookup_insert_eq. simpl. by rewrite delete_insert_eq.
Qed.

Lemma measure_move g source target x rest :
  source ≠ target → target ≠ 0 → shards_of g source = x :: rest → load g target < 50 →
  source = 0 ∨ 2 ≤ load g source - load g target →
  (measure (move g source target x rest) < measure g)%nat.
Proof.
  intros Hne Ht Hs Hb Hd. unfold move. rewrite measure_insert, delete_insert_ne, measure_insert by done.
  rewrite (measure_lookup g source), (measure_lookup (delete source g) target).
  rewrite Hs in Hd |- *.
  assert (shards_of (delete source g) target = shards_of g target) as ->
    by (unfold shards_of; by rewrite lookup_delete_ne).
  unfold weight. cbn [fst snd]. rewrite length_app. cbn [length] in *.
  rewrite (decide_False (P := target = 0)) by done.
  set (b := length (shards_of g target)) in *. set (a := length rest) in *.
  generalize (measure (delete target (delete source g))). clearbody a b. intros n.
  assert ((b + 1) * (b + 1) = b * b + 2 * b + 1)%nat as -> by lia.
  assert (S a * S a = a * a + 2 * a + 1)%nat as -> by lia.
  repeat case_decide; first [done|lia].
Qed.

Lemma measure_bound g : partition g → (measure g ≤ 1020)%nat.
Proof.
  intros Hp. assert (∀ k l, (k, l) ∈ map_to_list g → (length l ≤ 10)%nat) as Hl.
  { intros k l Hk%elem_of_map_to_list. pose proof (shards_of_length g k Hp) as Hb.
    unfold shards_of in Hb. rewrite Hk in Hb. simpl in Hb. lia. }
  pose proof (partition_total g Hp) as Ht. unfold all_shards, measure in *.
  assert (∀ ll : list (Z * list Z), (∀ k l, (k, l) ∈ ll → (length l ≤ 10)%nat) →
    (sum_list_with weight ll ≤ 102 * length (concat ll.*2))%nat) as Hgen.
  { induction ll as [|[k l] ll IH]; intros Hll; [done|].
    cbn [sum_list_with fmap list_fmap concat snd]. rewrite length_app.
    specialize (IH ltac:(intros; eapply Hll; by right)). pose proof (Hll k l ltac:(by left)).
    unfold weight at 1. cbn [fst snd].
    assert (length l * length l ≤ 10 * length l)%nat by nia. case_decide; lia. }
  specialize (Hgen _ Hl). lia.
Qed.

(** *** The balancing loop *)
Definition balanced_table g : Prop :=
  load g 0 = 0 ∧ ∀ k1 k2, is_Some (g !! k2) → k2 ≠ 0 → load g k1 ≤ load g k2 + 1.

Section rebalancing.
Context `{MapOrder}.

Lemma rebalance_total fuel g :
  partition g → (measure g < fuel)%nat →
  ∃ g', rebalance fuel g = Some g' ∧ partition g' ∧ balanced_table g' ∧
    ((∃ k, k ≠ 0 ∧ k ∈ dom g) → dom g' = dom g).
Proof.
  revert g. induction fuel as [|fuel IH]; intros g Hp Hm; [lia|]. cbn [rebalance].
  destruct (getMax_spec g Hp) as [Hpos Hmax]. destruct (getMin_spec g Hp) as (Ht0 & Htd & Hmin).
  set (source := getGidWithMaxShards g) in *. set (target := getGidWithMinShards g) in *.
  destruct (negb (source =? 0) && (load g source - load g target <=? 1)) eqn:Hb.
  - exists g. split_and!; try done. destruct Hmax as [?|[H0 Hmax]]; [lia|]. split; [done|].
    intros k1 k2 Hk2 Hne. specialize (Hmax k1). specialize (Hmin k2 Hk2 Hne). lia.
  - assert (source ≠ target) as Hne by (intros Heq; rewrite Heq in *; lia).
    destruct (shards_of g source) as [|x rest] eqn:Hs; [simpl in Hpos; lia|].
    rewrite index_cons_0. cbn [mbind option_bind].
    assert (shards_of (<[target := shards_of g target ++ [x]]> g) source = x :: rest) as ->
      by (unfold shards_of; rewrite lookup_insert_ne by done; exact Hs).
    rewrite slice_from_Some by (simpl; lia). cbn [mbind option_bind drop Z.to_nat Pos.to_nat Pos.iter_op].
    change (drop (Pos.to_nat 1) (x :: rest)) with rest.
    fold (move g source target x rest).
    assert (is_Some (g !! source)) as Hsd by (apply load_dom; rewrite Hs; done).
    destruct (IH (move g source target x rest)) as (g' & Hg' & Hp' & Hbal & Hdom).
    + unfold partition. by rewrite move_all.
    + pose proof (measure_move g source target x rest Hne Ht0 Hs) as Hdec.
      pose proof (shards_of_length g target Hp). rewrite Hs in Hdec. specialize (Hdec ltac:(lia)). lia.
    + exists g'. split_and!; [exact Hg'|done|done|]. intros (k & Hk0 & Hk). rewrite Hdom, move_dom by
        (done || (exists k; rewrite move_dom by done; set_solver)).
      destruct Htd as [Htd%elem_of_dom|[_ Hall]]; [set_solver|]. by destruct Hk0; apply Hall, elem_of_dom.
Qed.

(** [joinFuel] is enough for every configuration. *)
Lemma rebalance_join g :
  partition g →
  ∃ g', rebalance joinFuel g = Some g' ∧ partition g' ∧ balanced_table g' ∧
    ((∃ k, k ≠ 0 ∧ k ∈ dom g) → dom g' = dom g).
Proof. intros Hp. apply rebalance_total; [done|]. pose proof (measure_bound g Hp). unfold joinFuel. lia. Qed.

(** Placing the orphans keeps a table without them in balance. *)
Lemma placeOrphans_spec orphans g :
  all_shards g ++ orphans ≡ₚ shard_range → (∃ k, k ≠ 0 ∧ k ∈ dom g) → 0 ∉ dom g →
  let g' := placeOrphans orphans g in
  partition g' ∧ dom g' = dom g ∧ (∀ k, shards_of g k `prefix_of` shards_of g' k) ∧
  (balanced_table g → balanced_table g').
Proof.
  revert g. induction orphans as [|x xs IH]; intros g Hp Hex H0; simpl.
  { rewrite app_nil_r in Hp. done. }
  assert (∀ k, load g k ≤ 10) as Hlen.
  { intros k. apply Permutation_length in Hp. rewrite (all_shards_lookup g k), !length_app in Hp.
    change (length shard_range) with 10%nat in Hp. lia. }
  assert (let tgt := getGidWithMinShards g in tgt ∈ dom g ∧ tgt ≠ 0 ∧
    ∀ k, k ∈ dom g → k ≠ 0 → load g tgt ≤ load g k) as (Ht & Ht0 & Hmin).
  { unfold getGidWithMinShards. pose proof (scanMin_spec g (sorted_keys g)) as Hs.
    destruct (scanMin g (sorted_keys g)) as [i m]. destruct Hs as (Hmin & Hb & Hi). simpl.
    setoid_rewrite elem_of_sorted_keys in Hmin. unfold NShards in *.
    destruct Hi as [(Hi & ? & Hm)|[-> ->]].
    - rewrite elem_of_dom. apply elem_of_sorted_keys in Hi. split_and!; [done..|].
      intros k Hk%elem_of_dom ?. rewrite Hm. auto.
    - destruct Hex as (k & Hk & Hkd%elem_of_dom). specialize (Hmin k Hkd Hk). specialize (Hlen k). lia. }
  set (tgt := getGidWithMinShards g) in *.
  destruct (IH (<[tgt := shards_of g tgt ++ [x]]> g)) as (Hp' & Hd' & Hpre & Hbal).
  - rewrite <-Hp, all_shards_insert, (all_shards_lookup g tgt). solve_Permutation.
  - rewrite dom_insert_L. set_solver.
  - rewrite dom_insert_L. set_solver.
  - assert (dom (<[tgt := shards_of g tgt ++ [x]]> g) = dom g) as Hd by (rewrite dom_insert_L; set_solver).
    split_and!; [done|by rewrite Hd', Hd| |].
    + intros k. etrans; [|apply Hpre]. unfold shards_of at 2. destruct (decide (k = tgt)) as [->|].
      * rewrite lookup_insert_eq. simpl. by apply prefix_app_r.
      * rewrite lookup_insert_ne by done. done.
    + intros [Hb0 Hb]. apply Hbal. assert (∀ k, load (<[tgt := shards_of g tgt ++ [x]]> g) k =
        load g k + if decide (k = tgt) then 1 else 0) as Hload.
      { intros k. unfold shards_of at 1. case_decide as Hk; [subst|].
        - rewrite lookup_insert_eq. simpl. rewrite length_app. simpl. lia.
        - rewrite lookup_insert_ne by done. fold (shards_of g k). lia. }
      split; [rewrite Hload, decide_False by done; lia|].
      intros k1 k2 Hk2 Hne2. rewrite !Hload. apply elem_of_dom in Hk2. rewrite Hd in Hk2.
      pose proof (Hmin k2 Hk2 Hne2). apply elem_of_dom in Hk2.
      pose proof (Hb k1 k2 Hk2 Hne2). pose proof (Hb tgt k2 Hk2 Hne2).
      repeat case_decide; subst; lia.
Qed.
End rebalancing.

(** *** Writing the table back into the array of shards *)
Definition group_pairs (p : Z * list Z) : list (Z * Z) := (λ s, (s, fst p)) <$> snd p.
Definition pairs (l : list (Z * list Z)) : list (Z * Z) := concat (group_pairs <$> l).

Definition assignPairs (ps : list (Z * Z)) (acc : option (list Z)) : option (list Z) :=
  foldl (λ acc '(s, gid), a ← acc; set_index a s gid) acc ps.

Lemma assign_pairs gid shards acc :
  foldl (λ acc shard, a ← acc; set_index a shard gid) acc shards
  = assignPairs ((λ s, (s, gid)) <$> shards) acc.
Proof. revert acc. induction shards as [|s shards IH]; intros acc; [done|]. simpl. apply IH. Qed.

Lemma assignPairs_None ps : assignPairs ps None = None.
Proof. induction ps as [|[s g] ps IH]; simpl; done. Qed.

Lemma assignPairs_app ps qs acc : assignPairs (ps ++ qs) acc = assignPairs qs (assignPairs ps acc).
Proof. apply foldl_app. Qed.

Lemma assignAll_pairs l : assignAll l = assignPairs (pairs l) (Some (replicate (Z.to_nat NShards) 0)).
Proof.
  unfold assignAll, pairs. generalize (Some (replicate (Z.to_nat NShards) 0)).
  induction l as [|[gid shards] l IH]; intros acc; [done|]. cbn [foldl fmap list_fmap concat].
  rewrite IH, assignPairs_app. f_equal. destruct acc as [a|]; simpl.
  - apply assign_pairs.
  - symmetry. apply assignPairs_None.
Qed.

Lemma assignPairs_spec ps a :
  NoDup ps.*1 → (∀ s, s ∈ ps.*1 → 0 ≤ s < zlen a) →
  ∃ b, assignPairs ps (Some a) = Some b ∧ length b = length a ∧
    (∀ s gid, (s, gid) ∈ ps → index b s = Some gid) ∧
    (∀ s, s ∉ ps.*1 → index b s = index a s).
Proof.
  revert a. induction ps as [|[s gid] ps IH]; intros a Hnd Hr; simpl.
  { exists a. split_and!; try done. intros s gid Hin. by apply elem_of_nil in Hin. }
  simpl in Hnd. apply NoDup_cons in Hnd as [Hs Hnd].
  assert (0 ≤ s < zlen a) as Hsr by (apply Hr; by left).
  unfold assignPairs. simpl. rewrite set_index_Some by done.
  destruct (IH (<[Z.to_nat s := gid]> a)) as (b & Hb & Hlen & Hin & Hout); [done| |].
  { intros s' Hs'. rewrite length_insert. apply Hr. by right. }
  exists b. rewrite length_insert in Hlen. split_and!; [done|done| |].
  - intros s' gid' [[= -> ->]|?]%elem_of_cons; [|auto]. rewrite Hout by done.
    rewrite index_insert, decide_True; done || lia.
  - intros s' [Hne Hs']%not_elem_of_cons. rewrite Hout by done.
    destruct (decide (0 ≤ s')) as [?|Hneg].
    + rewrite index_insert, decide_False; done || lia.
    + unfold index. case_match; [lia|done].
Qed.

Lemma pairs_fst l : (pairs l).*1 = concat l.*2.
Proof.
  unfold pairs. induction l as [|[gid shards] l IH]; [done|].
  change (concat (group_pairs <$> (gid, shards) :: l))
    with (group_pairs (gid, shards) ++ concat (group_pairs <$> l)).
  rewrite fmap_app, IH. change (concat ((gid, shards) :: l).*2) with (shards ++ concat l.*2). f_equal.
  unfold group_pairs. rewrite <-list_fmap_compose. by apply list_fmap_id.
Qed.

Lemma elem_of_pairs l s gid : (s, gid) ∈ pairs l ↔ ∃ shards, (gid, shards) ∈ l ∧ s ∈ shards.
Proof.
  unfold pairs. rewrite list_elem_of_In, in_concat. split.
  - intros (x & Hx%list_elem_of_In & Hs%list_elem_of_In).
    apply list_elem_of_fmap in Hx as ([g sh] & -> & Hin). unfold group_pairs in Hs. apply list_elem_of_fmap in Hs as (s' & [= -> ->] & ?).
    eauto.
  - intros (sh & Hin & Hs). exists (group_pairs (gid, sh)). rewrite <-!list_elem_of_In. split.
    + apply list_elem_of_fmap. by exists (gid, sh).
    + unfold group_pairs. apply list_elem_of_fmap. eauto.
Qed.

Lemma assignAll_spec g l :
  partition g → l ≡ₚ map_to_list g →
  ∃ ns, assignAll l = Some ns ∧ zlen ns = NShards ∧ ∀ s gid, index ns s = Some gid ↔ s ∈ shards_of g gid.
Proof.
  intros Hp Hl. assert ((pairs l).*1 ≡ₚ shard_range) as Hf.
  { rewrite pairs_fst. unfold partition, all_shards in Hp. by rewrite Hl. }
  destruct (assignPairs_spec (pairs l) (replicate (Z.to_nat NShards) 0)) as (ns & Hns & Hlen & Hin & _).
  - rewrite Hf. apply NoDup_zrange.
  - intros s. rewrite Hf. unfold shard_range. rewrite elem_of_zrange. done.
  - exists ns. rewrite assignAll_pairs. rewrite length_replicate in Hlen.
    assert (zlen ns = NShards) as Hz by (rewrite Hlen; done).
    assert (∀ s gid, s ∈ shards_of g gid → index ns s = Some gid) as Hto.
    { intros s gid Hs. apply Hin, elem_of_pairs. unfold shards_of in Hs.
      destruct (g !! gid) as [sh|] eqn:Hg; [|by apply elem_of_nil in Hs]. exists sh. split; [|done].
      rewrite Hl. by apply elem_of_map_to_list. }
    split_and!; [done|done|]. intros s gid. split; [|apply Hto]. intros Hs.
    assert (s ∈ all_shards g) as Hall.
    { rewrite (Hp : all_shards g ≡ₚ _). apply elem_of_zrange. rewrite <-Hz. by apply index_lt_Some in Hs. }
    apply elem_of_all_shards in Hall as [k Hk]. pose proof (Hto s k Hk). by simplify_eq.
Qed.

(** Equal tables give equal arrays, whatever the order. *)
Lemma shards_ext (a b : list Z) :
  zlen a = NShards → zlen b = NShards → (∀ s gid, index a s = Some gid ↔ index b s = Some gid) → a = b.
Proof.
  intros Ha Hb He. apply list_index_eq; [lia|]. intros i Hi.
  destruct (index_total a i) as [x Hx]; [lia|]. rewrite Hx. symmetry. by apply He.
Qed.
