(* ===== verification/ConfigTheorems.v ===== *)
(** * What the shard controller guarantees

    Well-formed configurations, balance and minimal movement of [Join] and [Leave], numbering of
    the history, agreement of replicas that visit maps in different orders, and duplicate
    detection. *)
From S2P Require Import Prelude ShardCtrler ConfigProofs.
Import Config.

(** A configuration: ten shards, group 0 is nobody, and every shard belongs to a group, or to
    nobody when there is none. *)
Definition cfg_ok (c : Config) : Prop :=
  zlen (Shards c) = NShards ∧ (0 ∉ dom (Groups c)) ∧
  (∀ s gid, index (Shards c) s = Some gid →
    (if decide (Groups c = ∅) then gid = 0 else gid ∈ dom (Groups c))).

(** How many shards a group has, and the balance the controller aims for. *)
Definition cload (c : Config) (gid : Z) : Z :=
  zlen (filter (λ s, index (Shards c) s = Some gid) shard_range).
Definition balanced (c : Config) : Prop :=
  ∀ g1 g2, g1 ∈ dom (Groups c) → g2 ∈ dom (Groups c) → cload c g1 ≤ cload c g2 + 1.

Lemma cload_table c g gid :
  partition g → (∀ s k, index (Shards c) s = Some k ↔ s ∈ shards_of g k) → cload c gid = load g gid.
Proof.
  intros Hp Ht. unfold cload. f_equal. apply Permutation_length, NoDup_Permutation.
  - apply NoDup_filter, NoDup_zrange.
  - pose proof (partition_NoDup g Hp) as Hnd. rewrite (all_shards_lookup g gid) in Hnd.
    by apply NoDup_app in Hnd as [? _].
  - intros s. rewrite list_elem_of_filter, Ht. split; [by intros [? _]|]. intros Hs. split; [done|].
    rewrite <-(Hp : all_shards g ≡ₚ _). apply elem_of_all_shards. eauto.
Qed.

Section ops.
Context `{MapOrder}.

Lemma lastConfig_app cf c : lastConfig (cf ++ [c]) = Some c.
Proof.
  unfold lastConfig. rewrite index_app_r by (rewrite length_app; simpl; lia).
  rewrite length_app. simpl. by replace (_ - 1 - _) with 0 by lia.
Qed.

(** The groups of the table of a well-formed configuration whose groups grow to [G]. *)
Lemma table_groups c G k :
  cfg_ok c → Groups c ⊆ G → k ≠ 0 → k ∈ dom (GroupToShards (mkConfig (Num c) (Shards c) G)) ↔ k ∈ dom G.
Proof.
  intros (Hlen & H0 & Hs) Hsub Hk. rewrite GroupToShards_dom. simpl.
  rewrite elem_of_union, elem_of_list_to_set. split; [|by left]. intros [?|Hin]; [done|].
  apply list_elem_of_lookup in Hin as [i Hi]. specialize (Hs (Z.of_nat i) k).
  rewrite index_Some, Nat2Z.id in Hs. specialize (Hs ltac:(split; [lia|done])).
  case_decide; [done|]. by eapply (subseteq_dom _ _ Hsub).
Qed.

Lemma Join_spec groups cf last :
  lastConfig cf = Some last → cfg_ok last → 0 ∉ dom groups → Groups last ∪ groups ≠ ∅ →
  ∃ c, Join groups cf = Some (OK, cf ++ [c]) ∧ Num c = zlen cf ∧ Groups c = Groups last ∪ groups ∧
    cfg_ok c ∧ balanced c.
Proof.
  intros Hlast Hok H0 Hne. pose proof Hok as (Hlen & Hz & Hsh). unfold Join. rewrite Hlast.
  pose proof rebalance_join as Hrb. revert Hrb. generalize (rebalance joinFuel). intros rb Hrb.
  cbn [mbind option_bind].
  cbn [Num Shards Groups].
  rewrite joinGroups_union, dcopy_id. set (G := Groups last ∪ groups) in *.
  set (g := GroupToShards (mkConfig (zlen cf) (Shards last) G)).
  assert (partition g) as Hp by by apply GroupToShards_partition.
  assert (0 ∉ dom G) as HG0 by (unfold G; rewrite dom_union_L; set_solver).
  assert (∀ k, k ≠ 0 → k ∈ dom g ↔ k ∈ dom G) as Hdom.
  { intros k Hk. apply (table_groups (mkConfig (zlen cf) (Shards last) (Groups last))); [done| |done].
    apply map_union_subseteq_l. }
  destruct (Hrb g Hp) as (g' & Hr & Hp' & [Hb0 Hb] & Hd').
  assert (dom g' = dom g) as Hdg.
  { apply Hd'. apply map_choose in Hne as (k & x & Hk%elem_of_dom_2).
    exists k. assert (k ≠ 0) by by intros ->. split; [done|]. by apply Hdom. }
  rewrite Hr. cbn [mbind option_bind]. clear Hr.
  destruct (assignAll_spec g' (map_order g') Hp' (map_order_perm g')) as (ns & Hns & Hnl & Hni).
  rewrite Hns. cbn [mbind option_bind]. eexists. split_and!; [done|done|done| |]; simpl.
  - split_and!; [done|done|]. simpl. intros s gid Hs%Hni. rewrite decide_False by done.
    assert (gid ≠ 0).
    { intros ->. destruct (shards_of g' 0); [by apply elem_of_nil in Hs|simpl in Hb0; lia]. }
    apply Hdom; [done|]. rewrite <-Hdg. apply elem_of_dom, load_dom.
    destruct (shards_of g' gid); [by apply elem_of_nil in Hs|simpl; lia].
  - intros g1 g2 _ Hg2. simpl in *. assert (g2 ≠ 0) by by intros ->.
    rewrite !(cload_table _ g') by done. apply Hb; [|done]. apply elem_of_dom. rewrite Hdg. by apply Hdom.
Qed.

(** *** Leaving *)
Lemma leaveGroups_spec gids G g o :
  let '(G', g', o') := leaveGroups gids (G, g, o) in
  (∀ k, G' !! k = if decide (k ∈ gids) then None else G !! k) ∧
  (∀ k, g' !! k = if decide (k ∈ gids) then None else g !! k) ∧
  all_shards g' ++ o' ≡ₚ all_shards g ++ o.
Proof.
  unfold leaveGroups. revert G g o. induction gids as [|gid gids IH]; intros G g o; simpl.
  { split_and!; try done; intros k; by rewrite decide_False by (apply not_elem_of_nil). }
  set (G1 := match G !! gid with Some _ => delete gid G | None => G end).
  assert (∀ k, G1 !! k = if decide (k = gid) then None else G !! k) as HG1.
  { intros k. unfold G1. destruct (G !! gid) eqn:HG; case_decide; subst;
      by rewrite ?lookup_delete_eq, ?lookup_delete_ne by done. }
  assert (∀ (A : Type) (m m1 m' : gmap Z A), (∀ k, m1 !! k = if decide (k = gid) then None else m !! k) →
    (∀ k, m' !! k = if decide (k ∈ gids) then None else m1 !! k) →
    ∀ k, m' !! k = if decide (k ∈ gid :: gids) then None else m !! k) as Hcomb.
  { intros A m m1 m' Hm1 Hm' k. rewrite Hm', Hm1. repeat case_decide; set_solver. }
  destruct (g !! gid) as [sh|] eqn:Hg.
  - specialize (IH G1 (delete gid g) (o ++ sh)). destruct (foldl _ _ gids) as [[G' g'] o'].
    destruct IH as (HG' & Hg' & Hp). split_and!; [by eapply Hcomb| |].
    + eapply Hcomb; [|done]. intros k. case_decide; subst;
        by rewrite ?lookup_delete_eq, ?lookup_delete_ne by done.
    + rewrite Hp. rewrite (all_shards_lookup g gid). unfold shards_of. rewrite Hg. simpl. solve_Permutation.
  - specialize (IH G1 g o). destruct (foldl _ _ gids) as [[G' g'] o'].
    destruct IH as (HG' & Hg' & Hp). split_and!; [by eapply Hcomb| |done].
    eapply Hcomb; [|done]. intros k. case_decide; by subst.
Qed.

(** Without the groups that leave, the table of a balanced configuration is balanced. *)
Lemma left_balanced (gids : list Z) last (g g' : gmap Z (list Z)) :
  balanced last → 0 ∉ dom (Groups last) → (∀ k, cload last k = load g k) → (∀ k, k ∈ dom g ↔ k ∈ dom (Groups last)) →
  (∀ k, g' !! k = if decide (k ∈ gids) then None else g !! k) → balanced_table g'.
Proof.
  intros Hb Hz Hcl Hdom Hg.
  assert (∀ k, load g' k = if decide (k ∈ gids) then 0 else load g k) as Hload.
  { intros k. unfold shards_of. rewrite Hg. by destruct (decide (k ∈ gids)). }
  assert (∀ k, k ∉ dom (Groups last) → load g k = 0) as Hno.
  { intros k Hk. destruct (decide (0 < load g k)) as [Hpos|]; [|lia].
    destruct Hk. apply Hdom, elem_of_dom. by apply load_dom. }
  split; [rewrite Hload, Hno by done; by destruct (decide (0 ∈ gids))|]. intros k1 k2 Hk2 _.
  rewrite Hg in Hk2. rewrite !Hload. destruct (decide (k2 ∈ gids)) as [|_]; [by destruct Hk2|].
  destruct (decide (k1 ∈ gids)); [lia|]. rewrite <-!Hcl. apply elem_of_dom, Hdom in Hk2.
  destruct (decide (k1 ∈ dom (Groups last))) as [Hk1|Hk1]; [by apply Hb|].
  rewrite (Hcl k1), Hno by done. unfold cload. lia.
Qed.

Lemma Leave_spec gids cf last :
  lastConfig cf = Some last → cfg_ok last →
  ∃ c, Leave gids cf = Some (OK, cf ++ [c]) ∧ Num c = zlen cf ∧
    (∀ k, Groups c !! k = if decide (k ∈ gids) then None else Groups last !! k) ∧ cfg_ok c ∧
    (balanced last → balanced c) ∧
    (Groups c ≠ ∅ → ∀ s gid, index (Shards last) s = Some gid → gid ∉ gids → index (Shards c) s = Some gid).
Proof.
  intros Hlast Hok. pose proof Hok as (Hlen & Hz & Hsh). unfold Leave. rewrite Hlast. cbn [mbind option_bind].
  cbn [Num Shards Groups].
  rewrite dcopy_id. set (g := GroupToShards (mkConfig (zlen cf) (Shards last) (Groups last))).
  assert (partition g) as Hp by by apply GroupToShards_partition.
  pose proof (leaveGroups_spec gids (Groups last) g []) as Hl.
  destruct (leaveGroups gids (Groups last, g, [])) as [[G' g'] o'].
  destruct Hl as (HG & Hg & Hall). rewrite app_nil_r in Hall.
  assert (0 ∉ dom G') as HG0.
  { rewrite not_elem_of_dom, HG. destruct (decide (0 ∈ gids)); [done|]. by apply not_elem_of_dom. }
  case_bool_decide as Hsz.
  - apply map_size_empty_inv in Hsz as ->. cbn [negb mbind option_bind].
    eexists. split_and!; [done|done|done| |done|done]. split_and!; [done|done|].
    cbn [Shards Groups]. intros s gid [_ Hs]%index_Some.
    apply lookup_replicate in Hs as [-> _]. by rewrite decide_True.
  - assert (G' ≠ ∅) as Hne by (intros ->; by destruct Hsz).
    assert (Groups last ≠ ∅) as HGne.
    { intros He. destruct Hne. apply map_eq. intros k. rewrite HG, He, !lookup_empty. by destruct (decide (k ∈ gids)). }
    assert (∀ k, k ∈ dom g ↔ k ∈ dom (Groups last)) as Hdom.
    { intros k. unfold g. rewrite GroupToShards_dom. simpl. rewrite elem_of_union, elem_of_list_to_set.
      split; [|by left]. intros [?|Hin]; [done|]. apply list_elem_of_lookup in Hin as [i Hi].
      specialize (Hsh (Z.of_nat i) k). rewrite decide_False in Hsh by done. apply Hsh.
      apply index_Some. rewrite Nat2Z.id. split; [lia|done]. }
    assert (∀ k, k ∈ dom g' ↔ k ∈ dom G') as Hdom'.
    { intros k. rewrite !elem_of_dom, Hg, HG.
      destruct (decide (k ∈ gids)); [by split; intros []|]. rewrite <-!elem_of_dom. apply Hdom. }
    destruct (placeOrphans_spec o' g') as (Hp' & Hd' & Hpre & Hbal).
    { by rewrite Hall. }
    { apply map_choose in Hne as (k & x & Hk%elem_of_dom_2). exists k. split; [by intros ->|by apply Hdom']. }
    { by rewrite Hdom'. }
    destruct (assignAll_spec _ (map_order (placeOrphans o' g')) Hp' (map_order_perm _)) as (ns & Hns & Hnl & Hni).
    cbn [negb]. rewrite Hns. cbn [mbind option_bind]. eexists. split_and!; [done|done|done| | |]; simpl.
    + split_and!; [done|done|]. simpl. intros s gid Hs%Hni. rewrite decide_False by done.
      apply Hdom'. rewrite <-Hd'. apply elem_of_dom, load_dom.
      destruct (shards_of (placeOrphans o' g') gid); [by apply elem_of_nil in Hs|simpl; lia].
    + intros Hb g1 g2 _ Hg2. simpl in *. rewrite !(cload_table _ (placeOrphans o' g')) by done.
      apply Hbal; [|apply elem_of_dom; rewrite Hd'; by apply Hdom'|by intros ->].
      apply (left_balanced gids last g g'); try done. intros k. apply cload_table; [done|].
      intros s k'. unfold g. by rewrite GroupToShards_lookup.
    + intros _ s gid Hs Hgid. apply Hni. eapply elem_of_prefix; [|apply Hpre].
      unfold shards_of. rewrite Hg, decide_False by done. fold (shards_of g gid).
      unfold g. by apply GroupToShards_lookup.
Qed.
End ops.

(** ** The history of configurations *)
Definition hist_ok (cf : list Config) : Prop :=
  cf ≠ [] ∧ (∀ i c, cf !! i = Some c → Num c = Z.of_nat i) ∧ Forall cfg_ok cf.

Lemma hist_last cf : hist_ok cf → ∃ last, lastConfig cf = Some last ∧ cfg_ok last.
Proof.
  intros (Hne & _ & Hok). unfold lastConfig. destruct (index_total cf (zlen cf - 1)) as [last Hl].
  { destruct cf; [done|]. simpl. lia. }
  exists last. split; [done|]. apply index_Some in Hl as [_ Hl]. exact (Forall_lookup_1 _ _ _ _ Hok Hl).
Qed.

Lemma hist_snoc cf c : hist_ok cf → Num c = zlen cf → cfg_ok c → hist_ok (cf ++ [c]).
Proof.
  intros (Hne & Hn & Hok) Hc Hcok. split_and!; [by destruct cf| |].
  - intros i x. rewrite lookup_app_Some, list_lookup_singleton_Some. intros [?|(Hi & Hi0 & <-)]; [auto|].
    rewrite Hc. f_equal. lia.
  - by apply Forall_app; split; [|constructor].
Qed.

Section history.
Context `{MapOrder}.
Import ShardCtrler.

(** The commands the controller is meant to get. *)
Definition cmd_ok (cmd : CommandArgs) (cf : list Config) : Prop :=
  ∀ last, lastConfig cf = Some last →
    (OP cmd = OP_JOIN → (0 ∉ dom (Servers cmd)) ∧ Groups last ∪ Servers cmd ≠ ∅) ∧
    (OP cmd = OP_MOVE → 0 ≤ Shard cmd < NShards ∧ GID cmd ∈ dom (Groups last)).

Lemma Move_spec shard gid cf last :
  lastConfig cf = Some last → zlen (Shards last) = NShards → 0 ≤ shard < NShards →
  Move shard gid cf = Some (OK, cf ++ [mkConfig (zlen cf) (<[Z.to_nat shard := gid]> (Shards last)) (Groups last)]).
Proof.
  intros Hlast Hlen Hs. unfold Move. rewrite Hlast. cbn [mbind option_bind].
  rewrite set_index_Some by lia. cbn [mbind option_bind]. by rewrite dcopy_id.
Qed.

Lemma Move_ok shard gid c n :
  cfg_ok c → 0 ≤ shard < NShards → gid ∈ dom (Groups c) →
  cfg_ok (mkConfig n (<[Z.to_nat shard := gid]> (Shards c)) (Groups c)).
Proof.
  intros (Hlen & H0 & Hs) Hr Hg. split_and!; simpl; [by rewrite length_insert|done|].
  assert (Groups c ≠ ∅) as Hne by (intros He; rewrite He, dom_empty_L in Hg; by apply elem_of_empty in Hg).
  intros s g Hi. rewrite decide_False by done.
  pose proof (index_lt_Some _ _ _ Hi) as Hb. rewrite length_insert in Hb.
  rewrite index_insert in Hi by lia. destruct (decide (shard = s)); simplify_eq; [done|].
  specialize (Hs s g Hi). by rewrite decide_False in Hs.
Qed.

Lemma execute_join cmd cf :
  OP cmd = OP_JOIN → execute cmd cf = ('(err, m') ← Join (Servers cmd) cf; Some (mkReply err noConfig, m')).
Proof. intros Hop. unfold execute. by rewrite Hop, bool_decide_eq_true_2. Qed.
Lemma execute_leave cmd cf :
  OP cmd = OP_LEAVE → execute cmd cf = ('(err, m') ← Leave (GIDs cmd) cf; Some (mkReply err noConfig, m')).
Proof. intros Hop. unfold execute. by rewrite Hop, bool_decide_eq_false_2, bool_decide_eq_true_2. Qed.
Lemma execute_move cmd cf :
  OP cmd = OP_MOVE → execute cmd cf
    = ('(err, m') ← Move (Shard cmd) (GID cmd) cf; Some (mkReply err noConfig, m')).
Proof. intros Hop. unfold execute. rewrite Hop.
  by rewrite (bool_decide_eq_false_2 (OP_MOVE = OP_JOIN)), (bool_decide_eq_false_2 (OP_MOVE = OP_LEAVE)),
    bool_decide_eq_true_2. Qed.

Lemma execute_read cmd cf :
  hist_ok cf → OP cmd ≠ OP_JOIN → OP cmd ≠ OP_LEAVE → OP cmd ≠ OP_MOVE →
  ∃ reply, execute cmd cf = Some (reply, cf) ∧
    (OP cmd = OP_QUERY → reply = mkReply OK (default noConfig
       (if decide (0 ≤ QNum cmd < zlen cf) then cf !! Z.to_nat (QNum cmd) else lastConfig cf))).
Proof.
  intros Hh H1 H2 H3. unfold execute. rewrite !bool_decide_eq_false_2 by done.
  case_bool_decide as Hq; [|by eexists]. destruct (hist_last cf Hh) as (last & Hlast & _).
  unfold Query. rewrite Hlast. destruct (decide (0 ≤ QNum cmd < zlen cf)) as [Hr|Hr].
  - destruct ((QNum cmd <? 0) || (zlen cf <=? QNum cmd)) eqn:Hb; [lia|].
    destruct (index_total cf (QNum cmd) Hr) as [c Hc]. rewrite Hc. simpl. eexists. split; [done|].
    intros _. apply index_Some in Hc as [_ ->]. done.
  - destruct ((QNum cmd <? 0) || (zlen cf <=? QNum cmd)) eqn:Hb; [|lia]. simpl. by eexists.
Qed.

Lemma execute_ok cmd cf :
  hist_ok cf → cmd_ok cmd cf →
  ∃ reply cf', execute cmd cf = Some (reply, cf') ∧ hist_ok cf' ∧
    (cf' = cf ∨ ∃ c, cf' = cf ++ [c] ∧ Num c = zlen cf).
Proof.
  intros Hh Hcmd. destruct (hist_last cf Hh) as (last & Hlast & Hok).
  destruct (Hcmd last Hlast) as [Hjoin Hmove].
  destruct (decide (OP cmd = OP_JOIN)) as [Hj|Hj].
  { destruct (Hjoin Hj) as [H0 Hne]. destruct (Join_spec (Servers cmd) cf last) as (c & Hr & Hn & _ & Hc & _); [done..|].
    rewrite execute_join, Hr by done. eauto 10 using hist_snoc. }
  destruct (decide (OP cmd = OP_LEAVE)) as [Hl|Hl].
  { destruct (Leave_spec (GIDs cmd) cf last) as (c & Hr & Hn & _ & Hc & _); [done..|].
    rewrite execute_leave, Hr by done. eauto 10 using hist_snoc. }
  destruct (decide (OP cmd = OP_MOVE)) as [Hm|Hm].
  { destruct (Hmove Hm) as [Hs Hg]. pose proof Hok as (Hlen & _). rewrite execute_move by done.
    rewrite (Move_spec _ _ _ last) by done. simpl. eexists _, _. split; [done|]. split; [|eauto].
    apply hist_snoc; [done|done|]. by apply Move_ok. }
  destruct (execute_read cmd cf Hh Hj Hl Hm) as (reply & -> & _).
  exists reply, cf. auto.
Qed.
End history.

(** ** Replicas that visit maps in different orders *)
Section orders.
Import ShardCtrler.

Lemma dcopy_order (o1 o2 : MapOrder) G : @dcopy o1 G = @dcopy o2 G.
Proof. by rewrite !dcopy_id. Qed.

Lemma assignAll_order (o1 o2 : MapOrder) g :
  partition g → assignAll (@map_order o1 _ _ _ _ g) = assignAll (@map_order o2 _ _ _ _ g).
Proof.
  intros Hp. destruct (assignAll_spec g _ Hp (@map_order_perm o1 _ _ _ _ g)) as (a & -> & Ha & Hia).
  destruct (assignAll_spec g _ Hp (@map_order_perm o2 _ _ _ _ g)) as (b & -> & Hb & Hib). f_equal.
  apply shards_ext; [done..|]. intros s k. by rewrite Hia, Hib.
Qed.

Lemma Join_order (o1 o2 : MapOrder) groups cf last :
  lastConfig cf = Some last → zlen (Shards last) = NShards → @Join o1 groups cf = @Join o2 groups cf.
Proof.
  intros Hlast Hlen. unfold Join. rewrite Hlast.
  pose proof (rebalance_order o1 o2 joinFuel) as Heq. pose proof (@rebalance_join o2) as Hrb. revert Heq Hrb.
  generalize (@rebalance o1 joinFuel), (@rebalance o2 joinFuel). intros rb1 rb2 Heq Hrb.
  cbn [mbind option_bind]. rewrite !joinGroups_union, !dcopy_id, (GroupToShards_order o1 o2), Heq.
  set (g := @GroupToShards o2 _).
  assert (partition g) as Hp by by apply GroupToShards_partition.
  destruct (Hrb g Hp) as (g' & -> & Hp' & _). cbn [mbind option_bind].
  by rewrite (assignAll_order o1 o2).
Qed.

Lemma Leave_order (o1 o2 : MapOrder) gids cf last :
  lastConfig cf = Some last → cfg_ok last → @Leave o1 gids cf = @Leave o2 gids cf.
Proof.
  intros Hlast Hok.
  destruct (@Leave_spec o1 gids cf last Hlast Hok) as (c1 & Hr1 & _).
  destruct (@Leave_spec o2 gids cf last Hlast Hok) as (c2 & Hr2 & _).
  revert Hr1 Hr2. unfold Leave. rewrite Hlast. cbn [mbind option_bind Num Shards Groups].
  rewrite !dcopy_id, (GroupToShards_order o1 o2).
  destruct (leaveGroups gids _) as [[G g] o] eqn:Hl. rewrite (placeOrphans_order o1 o2).
  case_bool_decide as Hs; cbn [negb]; [done|].
  assert (partition (@placeOrphans o2 o g)) as Hp; [|by rewrite (assignAll_order o1 o2)].
  pose proof (leaveGroups_spec gids (Groups last)
    (@GroupToShards o2 (mkConfig (zlen cf) (Shards last) (Groups last))) []) as Hspec.
  rewrite Hl in Hspec. destruct Hspec as (HG & Hg & Hall). rewrite app_nil_r in Hall.
  destruct Hok as (Hlen & H0 & Hsh).
  assert (partition (@GroupToShards o2 (mkConfig (zlen cf) (Shards last) (Groups last)))) as Hp0
    by by apply GroupToShards_partition.
  assert (G ≠ ∅) as Hne by (intros ->; by destruct Hs).
  apply map_choose in Hne as (k & x & Hk). rewrite HG in Hk. destruct (decide (k ∈ gids)) as [|Hkg]; [done|].
  apply elem_of_dom_2 in Hk as Hkd. apply placeOrphans_spec.
  - rewrite Hall. exact Hp0.
  - exists k. split; [by intros ->|]. rewrite elem_of_dom, Hg, decide_False by done.
    apply elem_of_dom. rewrite GroupToShards_dom. simpl. apply elem_of_union. by left.
  - rewrite not_elem_of_dom, Hg. destruct (decide (0 ∈ gids)); [done|]. apply not_elem_of_dom.
    rewrite GroupToShards_dom. simpl. rewrite not_elem_of_union, elem_of_list_to_set. split; [done|].
    intros [i Hi]%list_elem_of_lookup. specialize (Hsh (Z.of_nat i) 0).
    rewrite index_Some, Nat2Z.id in Hsh. specialize (Hsh ltac:(split; [lia|done])).
    rewrite decide_False in Hsh; [done|]. intros He. rewrite He, dom_empty_L in Hkd. set_solver.
Qed.

Lemma execute_order (o1 o2 : MapOrder) cmd cf :
  hist_ok cf → @execute o1 cmd cf = @execute o2 cmd cf.
Proof.
  intros Hh. destruct (hist_last cf Hh) as (last & Hlast & Hok). pose proof Hok as (Hlen & _).
  unfold execute. rewrite (Join_order o1 o2 _ _ last), (Leave_order o1 o2 _ _ last) by done.
  unfold Move. rewrite Hlast. cbn [mbind option_bind]. by rewrite (dcopy_order o1 o2).
Qed.
End orders.
