(* ===== verification/CtrlerTheorems.v ===== *)
(** * The shard controller's server, and the properties of [shardctrler] *)
From S2P Require Import Prelude Raft RaftLog RaftNode RaftSnapshot RaftProc Rsm ShardCtrler.
From S2P Require Import ConfigProofs ConfigTheorems.
Import Config ShardCtrler.

(** The controller as an instance of the duplicate-detection scheme; a command that would panic is
    taken as the identity, and excluded by the hypotheses below. *)
#[export] Instance sc_rsm `{MapOrder} : Rsm CommandArgs (list Config) CommandReply := {|
  rsm_client := ClientId;
  rsm_seq := CommandId;
  rsm_writes c := negb (bool_decide (OP c = OP_QUERY));
  rsm_exec c m := default (mkReply "" noConfig, m) (execute c m);
|}.

Definition sc_info (i : OperationInfo) : Z * CommandReply := (MaxAppliedCommandId i, LastReply i).
Definition sc_abs (sc : ShardCtrler) : list Config * gmap Z (Z * CommandReply) :=
  (stateMachine sc, sc_info <$> lastOperations sc).

(** The reply channel of an index is free. *)
Definition chan_free (sc : ShardCtrler) (i : Z) : Prop :=
  match notifyChans sc !! i with Some ch => chans sc !! ch = Some None | None => True end.

Section server.
Context `{MapOrder}.
Implicit Types (sc : ShardCtrler).
Abbreviation SQ A := (A → ShardCtrler → list (Effect CommandArgs) → Prop).

Lemma wp_sc_raft_call {A} (m : M (Raft CommandArgs) (Effect CommandArgs) A) sc (Q : SQ A) :
  wp m (λ a r w, Q a (set_rf r sc) w) (rf sc) → wp (raft_call m) Q sc.
Proof. unfold wp, raft_call. by destruct (m (rf sc)) as [[[a r] w]|]. Qed.

Lemma wp_sc_notify sc i reply (Q : SQ unit) :
  chan_free sc i →
  (∀ sc', sc_abs sc' = sc_abs sc → rf sc' = rf sc → Q tt sc' []) →
  wp (ch ← getNotifyChan i; chan_send ch reply) Q sc.
Proof.
  unfold chan_free. intros Hf HQ. unfold getNotifyChan, chan_send. wp_step. wp_step. wp_step.
  destruct (notifyChans sc !! i) as [ch|] eqn:Hi; wp_steps.
  - rewrite Hf. wp_steps. by apply HQ.
  - simpl. rewrite lookup_app_r, Nat.sub_diag by lia. simpl. wp_steps. by apply HQ.
Qed.

Lemma wp_sc_reply sc c (Q : SQ CommandReply) :
  (applied (snd (sc_abs sc)) c = false ∨ OP c = OP_QUERY → is_Some (execute c (stateMachine sc))) →
  (∀ reply sc', fst (dedup_apply (sc_abs sc) c) = Some reply → sc_abs sc' = snd (dedup_apply (sc_abs sc) c) →
     rf sc' = rf sc → notifyChans sc' = notifyChans sc → chans sc' = chans sc → Q reply sc' []) →
  wp (if negb (bool_decide (OP c = OP_QUERY)) && isDuplicatedRequest (ClientId c) (CommandId c) sc
      then lift (LastReply <$> lastOperations sc !! ClientId c)
      else
        reply ← applyLogToStateMachine c;
        when (negb (bool_decide (OP c = OP_QUERY)))
          (modify (λ sc, set_lastOperations
             (<[ClientId c := mkInfo (CommandId c) reply]> (lastOperations sc)) sc)) ;;
        mret reply) Q sc.
Proof.
  intros Hex HQ. assert (applied (snd (sc_abs sc)) c = isDuplicatedRequest (ClientId c) (CommandId c) sc) as Hdup.
  { unfold applied, isDuplicatedRequest. simpl. rewrite lookup_fmap.
    by destruct (lastOperations sc !! ClientId c) as [[]|]. }
  rewrite Hdup in Hex. unfold dedup_apply in HQ. cbn [sc_abs snd rsm_writes sc_rsm rsm_client rsm_seq rsm_exec] in Hdup, HQ.
  rewrite Hdup in HQ.
  destruct (isDuplicatedRequest (ClientId c) (CommandId c) sc) eqn:Hd;
    destruct (bool_decide (OP c = OP_QUERY)) eqn:Hw; cbn [negb andb] in *.
  2: { unfold isDuplicatedRequest in Hd. destruct (lastOperations sc !! ClientId c) as [info|] eqn:Hi; [|done].
       eapply wp_lift; [done|]. apply HQ; try done. by rewrite lookup_fmap, Hi. }
  all: destruct (execute c (stateMachine sc)) as [[r m']|] eqn:He;
    [|exfalso; assert (is_Some (None : option (CommandReply * list Config))) as [? ?];
       [apply Hex; first [by left|right; by apply bool_decide_eq_true in Hw]|done]].
  all: unfold applyLogToStateMachine; wp_steps; rewrite He; (eapply wp_lift; [done|]); wp_steps;
    apply HQ; try done; unfold sc_abs; simpl; by rewrite ?fmap_insert.
Qed.

Lemma wp_sc_applyCommand sc msg c (Q : SQ unit) :
  CommandValid msg = true → ACommand msg = Some c → chan_free sc (CommandIndex msg) →
  (applied (snd (sc_abs sc)) c = false ∨ OP c = OP_QUERY → is_Some (execute c (stateMachine sc))) →
  (∀ sc' w, sc_abs sc' = snd (dedup_apply (sc_abs sc) c) → rf sc' = rf sc → Q tt sc' w) →
  wp (applyMsg msg) Q sc.
Proof.
  intros Hv Hc Hf Hex HQ. unfold applyMsg. rewrite Hv. wp_step. eapply wp_lift; [exact Hc|].
  wp_step. wp_step. wp_step. apply wp_sc_reply; [done|]. intros reply sc1 _ Habs Hrf Hn Hcs.
  assert (set_rf (rf sc1) sc1 = sc1) as Hself by by destruct sc1.
  wp_step. apply wp_sc_raft_call. unfold GetState. wp_step. cbn beta iota. rewrite Hself. wp_step.
  - apply wp_sc_notify; [unfold chan_free; by rewrite Hn, Hcs|]. intros sc2 Ha2 Hr2. apply HQ; congruence.
  - by apply HQ.
Qed.
End server.

(** ** Theorems *)
Section theorems.
Context `{MapOrder}.

(** C22: [Join] terminates and balances.  On a well-formed configuration, with at least one group
    afterwards, it appends one configuration with the next number, in which the groups are the old
    ones and the new ones, every shard belongs to one of them, and no group has two shards more
    than another. *)
Theorem join_balances (groups : gmap Z (list string)) (cf : list Config) (last : Config) :
  lastConfig cf = Some last → cfg_ok last → (0 ∉ dom groups) → Groups last ∪ groups ≠ ∅ →
  ∃ c, Join groups cf = Some (OK, cf ++ [c]) ∧ Num c = zlen cf ∧ Groups c = Groups last ∪ groups ∧
    cfg_ok c ∧ balanced c.
Proof. apply Join_spec. Qed.

(** C23: [Leave] moves as little as possible.  It appends one configuration without the leaving
    groups in which every shard has an owner (nobody if no group is left), a shard whose group
    stays does not move, and balance is kept. *)
Theorem leave_moves_only_orphans (gids : list Z) (cf : list Config) (last : Config) :
  lastConfig cf = Some last → cfg_ok last →
  ∃ c, Leave gids cf = Some (OK, cf ++ [c]) ∧ Num c = zlen cf ∧
    (∀ k, Groups c !! k = if decide (k ∈ gids) then None else Groups last !! k) ∧ cfg_ok c ∧
    (balanced last → balanced c) ∧
    (Groups c ≠ ∅ → ∀ s gid, index (Shards last) s = Some gid → gid ∉ gids →
       index (Shards c) s = Some gid).
Proof. apply Leave_spec. Qed.

(** The history is append-only and numbered.  A command within the controller's interface never
    panics, keeps every configuration well formed and numbered by its position, and changes the
    history only by appending one configuration; a query changes nothing and answers with the
    configuration of that number, or the latest when there is none. *)
Theorem history_append_only (cmd : CommandArgs) (cf : list Config) :
  hist_ok cf → cmd_ok cmd cf →
  ∃ reply cf', execute cmd cf = Some (reply, cf') ∧ hist_ok cf' ∧
    (cf' = cf ∨ ∃ c, cf' = cf ++ [c] ∧ Num c = zlen cf) ∧
    (OP cmd = OP_QUERY → cf' = cf ∧ reply = mkReply OK (default noConfig
       (if decide (0 ≤ QNum cmd < zlen cf) then cf !! Z.to_nat (QNum cmd) else lastConfig cf))).
Proof.
  intros Hh Hc. destruct (execute_ok cmd cf Hh Hc) as (reply & cf' & He & Hh' & Ha).
  exists reply, cf'. split_and!; [done..|]. intros Hq.
  destruct (execute_read cmd cf Hh) as (r & He' & Hr); [by rewrite Hq..|].
  rewrite He in He'. injection He' as -> ->. auto.
Qed.

(** A retried command does not change the history twice.  Applying a committed command executes
    it, and records the reply, unless the table has a reply of the same client for it or a later
    command; then nothing changes. *)
Theorem ctrler_applies_once (sc : ShardCtrler)
    (msg : ApplyMsg CommandArgs) (c : CommandArgs) :
  hist_ok (stateMachine sc) → cmd_ok c (stateMachine sc) → chan_free sc (CommandIndex msg) →
  CommandValid msg = true → ACommand msg = Some c →
  wp (applyMsg msg) (λ _ sc' _,
    if negb (bool_decide (OP c = OP_QUERY)) && isDuplicatedRequest (ClientId c) (CommandId c) sc
    then sc_abs sc' = sc_abs sc
    else ∃ reply, execute c (stateMachine sc) = Some (reply, stateMachine sc') ∧
      (OP c ≠ OP_QUERY → sc_info <$> lastOperations sc' =
         <[ClientId c := (CommandId c, reply)]> (sc_info <$> lastOperations sc))) sc.
Proof.
  intros Hh Hc Hf Hv Hcmd. destruct (execute_ok c _ Hh Hc) as (reply & cf' & He & _).
  apply (wp_sc_applyCommand sc msg c); [done|done|done|by eauto|]. intros sc' _ Habs _.
  unfold dedup_apply, applied in Habs. simpl in Habs. rewrite lookup_fmap, He in Habs. simpl in Habs.
  unfold isDuplicatedRequest. destruct (bool_decide (OP c = OP_QUERY)) eqn:Hq; cbn [negb andb] in *.
  - injection Habs as -> _. exists reply. split; [done|]. intros Hn. by apply bool_decide_eq_true in Hq.
  - destruct (lastOperations sc !! ClientId c) as [info|]; simpl in Habs;
      [destruct (CommandId c <=? MaxAppliedCommandId info); [done|]|];
      unfold sc_abs in Habs; injection Habs as -> Ho; exists reply; split; try done; by intros _.
Qed.
End theorems.

(** Replicas agree whatever order Go visits their maps in: executing a command on a well-formed
    history gives the same reply and the same history under any two iteration orders. *)
Theorem ctrler_order_independent (o1 o2 : MapOrder) (cmd : CommandArgs) (cf : list Config) :
  hist_ok cf → @execute o1 cmd cf = @execute o2 cmd cf.
Proof. apply execute_order. Qed.

(** [Join] without groups on a configuration without groups gives every shard to group -1, which
    does not exist; after the next join of a real group that phantom group keeps half of the
    shards. *)
Theorem join_nobody_creates_phantom :
  ∃ c1 c2 : Config,
    Join ∅ NewMemoryConfigStateMachine = Some (OK, [DefaultConfig; c1]) ∧
    Shards c1 = replicate 10 (-1) ∧ Groups c1 = ∅ ∧
    Join {[ 1 := ["a"%string] ]} [DefaultConfig; c1] = Some (OK, [DefaultConfig; c1; c2]) ∧
    dom (Groups c2) = {[ 1 ]} ∧ cload c2 (-1) = 5.
Proof.
  exists (mkConfig 1 (replicate 10 (-1)) ∅), (mkConfig 2 [1; 1; 1; 1; 1; -1; -1; -1; -1; -1] {[ 1 := ["a"%string] ]}).
  split_and!; by vm_compute.
Qed.

Module CtrlerExamples.
Definition two : gmap Z (list string) := {[ 1 := ["a"%string]; 2 := ["b"%string] ]}.
Definition cfg2 : Config := mkConfig 1 [1; 1; 1; 1; 1; 2; 2; 2; 2; 2] two.
Definition join_cmd : CommandArgs := mkArgs two [] 0 0 0 OP_JOIN 7 0.

Lemma default_ok : cfg_ok DefaultConfig.
Proof.
  split_and!; [done|done|]. intros s gid [_ Hs]%index_Some. apply lookup_replicate in Hs as [-> _].
  by rewrite decide_True.
Qed.
Lemma fresh_hist_ok : hist_ok NewMemoryConfigStateMachine.
Proof.
  split_and!; [done| |by repeat constructor; try apply default_ok].
  intros [|i] c Hc; by simplify_eq/=.
Qed.
Lemma cfg2_ok : cfg_ok cfg2.
Proof.
  split_and!; [done|by vm_compute|]. intros s gid Hs. rewrite decide_False by done.
  apply index_Some in Hs as [_ Hs]. apply list_elem_of_lookup_2 in Hs. unfold cfg2 in Hs. simpl in Hs.
  assert (gid = 1 ∨ gid = 2) as [-> | ->] by set_solver; by apply elem_of_dom; eexists.
Qed.

Lemma join_balances_witness :
  ∃ c, Join two NewMemoryConfigStateMachine = Some (OK, NewMemoryConfigStateMachine ++ [c]) ∧ balanced c.
Proof.
  destruct (join_balances two NewMemoryConfigStateMachine DefaultConfig) as (c & Hj & _ & _ & _ & Hb);
    [done|apply default_ok|by vm_compute|done|]. exists c. split; [exact Hj|exact Hb].
Defined.

Lemma leave_moves_only_orphans_witness :
  ∃ c, Leave [2] [DefaultConfig; cfg2] = Some (OK, [DefaultConfig; cfg2; c]) ∧ cfg_ok c.
Proof.
  destruct (leave_moves_only_orphans [2] [DefaultConfig; cfg2] cfg2) as (c & Hl & _ & _ & Hok & _);
    [done|apply cfg2_ok|]. exists c. split; [exact Hl|exact Hok].
Defined.

Lemma join_cmd_ok : cmd_ok join_cmd NewMemoryConfigStateMachine.
Proof. intros last [= <-]. split; [|done]. intros _. split; [by vm_compute|done]. Qed.

Lemma history_append_only_witness :
  ∃ reply cf', execute join_cmd NewMemoryConfigStateMachine = Some (reply, cf') ∧ hist_ok cf'.
Proof.
  destruct (history_append_only join_cmd NewMemoryConfigStateMachine fresh_hist_ok join_cmd_ok)
    as (reply & cf' & He & Hh & _). exists reply, cf'. split; [exact He|exact Hh].
Defined.

(** Maps visited backwards. *)
Definition rev_order : MapOrder.
Proof.
  refine {| map_order K _ _ V m := reverse (map_to_list m) |}. intros K ? ? V m. apply reverse_Permutation.
Defined.

Lemma ctrler_order_independent_witness :
  @execute list_order join_cmd NewMemoryConfigStateMachine
  = @execute rev_order join_cmd NewMemoryConfigStateMachine.
Proof. apply (ctrler_order_independent list_order rev_order join_cmd _ fresh_hist_ok). Defined.

Definition server : ShardCtrler := mkSC (p_rf (fresh 3 0)) 0 ∅ ∅ [] NewMemoryConfigStateMachine.

Lemma ctrler_applies_once_witness :
  wp (applyMsg (mkApplyMsg true (Some join_cmd) 1 1 false [] 0 0))
    (λ _ sc' _, ∃ reply, execute join_cmd NewMemoryConfigStateMachine = Some (reply, stateMachine sc')) server.
Proof.
  eapply wp_mono; [apply (ctrler_applies_once server (mkApplyMsg true (Some join_cmd) 1 1 false [] 0 0) join_cmd)|].
  - apply fresh_hist_ok.
  - apply join_cmd_ok.
  - exact I.
  - reflexivity.
  - reflexivity.
  - intros [] sc' w (reply & He & _). exists reply. exact He.
Defined.
End CtrlerExamples.
