(* ===== verification/ShardKV.v ===== *)
(** * The sharded key/value service ([shardkv])

    [Module Shard] models [shard.go]; [Module Group] the state a replica group replicates and the
    commands of its log ([common.go], [rpc.go]); [Module ShardServer] one server of a group, with
    its Raft peer, reply channels and snapshots ([server.go], [snapshot.go]); [Module ShardClerk]
    the client. *)
From Stdlib Require Import Ascii.
From S2P Require Import Prelude Raft ShardCtrler.

Module Shard.
Definition OK : string := "OK".
Definition ErrNoKey : string := "ErrNoKey".
Definition ErrWrongGroup : string := "ErrWrongGroup".
Definition ErrWrongLeader : string := "ErrWrongLeader".
Definition ErrTimeout : string := "ErrTimeout".
Definition ErrNotReady : string := "ErrNotReady".
Definition ErrOutDated : string := "ErrOutDated".

Definition STATUS_SERVING : string := "SERVING".
Definition STATUS_PULLING : string := "PULLING".
Definition STATUS_BEPULLING : string := "BEPULLING".
Definition STATUS_GC : string := "GC".

Record Shard := mkShard { KV : gmap string string; Status : string }.

Definition NewShard : Shard := mkShard ∅ STATUS_SERVING.
Definition Get (sh : Shard) (key : string) : string * string :=
  match KV sh !! key with
  | Some value => (value, OK)
  | None => (""%string, ErrNoKey)
  end.
Definition Put (sh : Shard) (key value : string) : string * Shard :=
  (OK, mkShard (<[key := value]> (KV sh)) (Status sh)).
Definition Append (sh : Shard) (key value : string) : string * Shard :=
  (OK, mkShard (<[key := (default ""%string (KV sh !! key) +:+ value)%string]> (KV sh)) (Status sh)).
Definition dcopy `{MapOrder} (sh : Shard) : gmap string string :=
  foldl (λ m '(k, v), <[k := v]> m) ∅ (map_order (KV sh)).
End Shard.

(** ** What a group replicates *)
Module Group.
Import Config.
Export Shard.

Record CommandArgs := mkArgs { Key : string; Value : string; OP : string; ClientId : Z; CommandId : Z }.
Record CommandReply := mkReply { Err : string; RValue : string }.
Definition OP_GET : string := "OP_GET".
Definition OP_APPEND : string := "OP_APPEND".
Definition OP_PUT : string := "OP_PUT".

Record OperationInfo := mkInfo { MaxAppliedCommandId : Z; LastReply : CommandReply }.
Definition info_dcopy (info : OperationInfo) : OperationInfo :=
  mkInfo (MaxAppliedCommandId info) (mkReply (Err (LastReply info)) (RValue (LastReply info))).

Record ShardOperationArgs := mkSOArgs { ConfigNum : Z; ShardIds : list Z }.
Record ShardOperationReply := mkSOReply {
  so_Err : string; so_ConfigNum : Z;
  so_Shards : gmap Z (gmap string string);
  so_LastOperations : gmap Z OperationInfo;
}.

(** The commands of the log: the [OP] of [Command] with its [Data]. *)
Inductive Command :=
| SHD_OPERATION (args : CommandArgs)
| SHD_Configuration (config : Config)
| SHD_InsertShards (reply : ShardOperationReply)
| SHD_DeleteShards (args : ShardOperationArgs)
| SHD_EmptyEntry.

#[export] Instance Shard_eq_dec : EqDecision Shard.
Proof. solve_decision. Defined.
#[export] Instance CommandArgs_eq_dec : EqDecision CommandArgs.
Proof. solve_decision. Defined.
#[export] Instance CommandReply_eq_dec : EqDecision CommandReply.
Proof. solve_decision. Defined.
#[export] Instance OperationInfo_eq_dec : EqDecision OperationInfo.
Proof. solve_decision. Defined.
#[export] Instance ShardOperationArgs_eq_dec : EqDecision ShardOperationArgs.
Proof. solve_decision. Defined.
#[export] Instance ShardOperationReply_eq_dec : EqDecision ShardOperationReply.
Proof. solve_decision. Defined.
#[export] Instance Command_eq_dec : EqDecision Command.
Proof. solve_decision. Defined.

#[export] Instance Shard_countable : Countable Shard.
Proof. apply (inj_countable' (λ s, (KV s, Status s)) (λ '(k, s), mkShard k s)). by intros []. Defined.
#[export] Instance OperationInfo_countable : Countable OperationInfo.
Proof.
  apply (inj_countable' (λ o, (MaxAppliedCommandId o, Err (LastReply o), RValue (LastReply o)))
    (λ '(m, e, v), mkInfo m (mkReply e v))). by intros [? []].
Defined.
#[export] Instance Config_countable : Countable Config.
Proof.
  apply (inj_countable' (λ c, (Num c, Shards c, Groups c)) (λ '(n, s, g), mkConfig n s g)). by intros [].
Defined.
#[export] Instance Command_countable : Countable Command.
Proof.
  refine (inj_countable'
    (λ c, match c return ((string * string * string * Z * Z) + Config + (string * Z * gmap Z (gmap string string) * gmap Z OperationInfo)
                          + (Z * list Z) + unit) with
          | SHD_OPERATION a => inl (inl (inl (inl (Key a, Value a, OP a, ClientId a, CommandId a))))
          | SHD_Configuration cf => inl (inl (inl (inr cf)))
          | SHD_InsertShards r => inl (inl (inr (so_Err r, so_ConfigNum r, so_Shards r, so_LastOperations r)))
          | SHD_DeleteShards a => inl (inr (ConfigNum a, ShardIds a))
          | SHD_EmptyEntry => inr tt
          end)
    (λ x, match x with
          | inl (inl (inl (inl (k, v, o, c, i)))) => SHD_OPERATION (mkArgs k v o c i)
          | inl (inl (inl (inr cf))) => SHD_Configuration cf
          | inl (inl (inr (e, n, s, l))) => SHD_InsertShards (mkSOReply e n s l)
          | inl (inr (n, l)) => SHD_DeleteShards (mkSOArgs n l)
          | inr tt => SHD_EmptyEntry
          end) _).
  by intros [[]| |[]|[]|].
Defined.

(** The part of [ShardKV] the log determines; [stateMachines] holds the shards by id. *)
Record Replica := mkReplica {
  gid : Z;
  lastConfig : Config;
  currentConfig : Config;
  stateMachines : gmap Z Shard;
  lastOperations : gmap Z OperationInfo;
}.

Definition set_lastConfig c r := mkReplica (gid r) c (currentConfig r) (stateMachines r) (lastOperations r).
Definition set_currentConfig c r := mkReplica (gid r) (lastConfig r) c (stateMachines r) (lastOperations r).
Definition set_stateMachines m r := mkReplica (gid r) (lastConfig r) (currentConfig r) m (lastOperations r).
Definition set_lastOperations o r := mkReplica (gid r) (lastConfig r) (currentConfig r) (stateMachines r) o.

(** [int(key[0]) % NShards], 0 for the empty key. *)
Definition key2shard (key : string) : Z :=
  match key with
  | EmptyString => 0
  | String c _ => Z.of_nat (nat_of_ascii c) mod NShards
  end.

Definition set_status (status : string) (sh : Shard) : Shard := mkShard (KV sh) status.

(** [kv.stateMachines[i].f()]: a nil dereference when the shard is missing. *)
Definition on_shard (i : Z) (f : Shard → Shard) (r : Replica) : option Replica :=
  sh ← stateMachines r !! i;
  Some (set_stateMachines (<[i := f sh]> (stateMachines r)) r).

Definition initStateMachines (r : Replica) : Replica :=
  foldl (λ r i, match stateMachines r !! i with
                | Some _ => r
                | None => set_stateMachines (<[i := NewShard]> (stateMachines r)) r
                end) r (zrange 0 NShards).

Definition isDuplicateRequest (clientId commandId : Z) (r : Replica) : bool :=
  match lastOperations r !! clientId with
  | Some opInfo => commandId <=? MaxAppliedCommandId opInfo
  | None => false
  end.

Definition canServer (shardId : Z) (r : Replica) : option bool :=
  g ← index (Shards (currentConfig r)) shardId;
  if negb (g =? gid r) then Some false else
  sh ← stateMachines r !! shardId;
  Some (bool_decide (Status sh = STATUS_SERVING) || bool_decide (Status sh = STATUS_GC)).

Definition applyLogToStateMachines (operation : CommandArgs) (shardId : Z) (r : Replica)
    : option (CommandReply * Replica) :=
  if bool_decide (OP operation = OP_PUT) then
    sh ← stateMachines r !! shardId;
    let '(err, sh') := Put sh (Key operation) (Value operation) in
    r' ← on_shard shardId (λ _, sh') r; Some (mkReply err "", r')
  else if bool_decide (OP operation = OP_APPEND) then
    sh ← stateMachines r !! shardId;
    let '(err, sh') := Append sh (Key operation) (Value operation) in
    r' ← on_shard shardId (λ _, sh') r; Some (mkReply err "", r')
  else if bool_decide (OP operation = OP_GET) then
    sh ← stateMachines r !! shardId;
    let '(value, err) := Get sh (Key operation) in Some (mkReply err value, r)
  else Some (mkReply "" "", r).

Definition applyOperation (operation : CommandArgs) (r : Replica) : option (CommandReply * Replica) :=
  let shardId := key2shard (Key operation) in
  can ← canServer shardId r;
  if (can : bool) then
    if negb (bool_decide (OP operation = OP_GET))
       && isDuplicateRequest (ClientId operation) (CommandId operation) r
    then info ← lastOperations r !! ClientId operation; Some (LastReply info, r)
    else
      '(reply, r') ← applyLogToStateMachines operation shardId r;
      Some (reply, if bool_decide (OP operation = OP_GET) then r'
                   else set_lastOperations
                     (<[ClientId operation := mkInfo (CommandId operation) reply]> (lastOperations r')) r')
  else Some (mkReply ErrWrongGroup "", r).

(** One iteration of the loop of [updateShardStatus]. *)
Definition updateStatus (nextConfig : Config) (i : Z) (r : Replica) : option Replica :=
  cur ← index (Shards (currentConfig r)) i;
  next ← index (Shards nextConfig) i;
  r1 ← (if negb (cur =? gid r) && (next =? gid r) && negb (cur =? 0)
        then on_shard i (set_status STATUS_PULLING) r else Some r);
  if (cur =? gid r) && negb (next =? gid r) && negb (next =? 0)
  then on_shard i (set_status STATUS_BEPULLING) r1 else Some r1.

Definition updateShardStatus (nextConfig : Config) (r : Replica) : option Replica :=
  foldl (λ acc i, r ← acc; updateStatus nextConfig i r) (Some r) (zrange 0 NShards).

Definition applyConfiguration (nextConfig : Config) (r : Replica) : option (CommandReply * Replica) :=
  if Num nextConfig =? Num (currentConfig r) + 1 then
    r1 ← updateShardStatus nextConfig r;
    Some (mkReply OK "", set_currentConfig nextConfig (set_lastConfig (currentConfig r1) r1))
  else Some (mkReply ErrOutDated "", r).

Section ops.
Context `{MapOrder}.

(** [for key, value := range shardData { shard.KV[key] = value }]. *)
Definition insertData (shardData : gmap string string) (sh : Shard) : Shard :=
  mkShard (foldl (λ m '(k, v), <[k := v]> m) (KV sh) (map_order shardData)) (Status sh).

(** The loop over [shardsInfo.Shards], which a shard that is not being pulled ends. *)
Fixpoint insertShards (l : list (Z * gmap string string)) (r : Replica) : option Replica :=
  match l with
  | [] => Some r
  | (shardId, shardData) :: l =>
      shard ← stateMachines r !! shardId;
      if bool_decide (Status shard = STATUS_PULLING) then
        r' ← on_shard shardId (λ sh, set_status STATUS_GC (insertData shardData sh)) r;
        insertShards l r'
      else Some r
  end.

Definition mergeOperation (ops : gmap Z OperationInfo) (p : Z * OperationInfo) : gmap Z OperationInfo :=
  match ops !! fst p with
  | Some last => if MaxAppliedCommandId last <? MaxAppliedCommandId (snd p) then <[fst p := snd p]> ops else ops
  | None => <[fst p := snd p]> ops
  end.

Definition applyInsertShards (shardsInfo : ShardOperationReply) (r : Replica)
    : option (CommandReply * Replica) :=
  if so_ConfigNum shardsInfo =? Num (currentConfig r) then
    r1 ← insertShards (map_order (so_Shards shardsInfo)) r;
    Some (mkReply OK "", set_lastOperations
      (foldl mergeOperation (lastOperations r1) (map_order (so_LastOperations shardsInfo))) r1)
  else Some (mkReply ErrOutDated "", r).

(** The loop of [applyDeleteShards]. *)
Fixpoint deleteShards (l : list Z) (r : Replica) : option Replica :=
  match l with
  | [] => Some r
  | shardId :: l =>
      shard ← stateMachines r !! shardId;
      if bool_decide (Status shard = STATUS_GC) then
        r' ← on_shard shardId (set_status STATUS_SERVING) r; deleteShards l r'
      else if bool_decide (Status shard = STATUS_BEPULLING) then
        deleteShards l (set_stateMachines (<[shardId := NewShard]> (stateMachines r)) r)
      else Some r
  end.

Definition applyDeleteShards (shardsInfo : ShardOperationArgs) (r : Replica)
    : option (CommandReply * Replica) :=
  if ConfigNum shardsInfo =? Num (currentConfig r) then
    r1 ← deleteShards (ShardIds shardsInfo) r; Some (mkReply OK "", r1)
  else Some (mkReply OK "", r).

Definition applyEmptyEntry (r : Replica) : option (CommandReply * Replica) := Some (mkReply OK "", r).

(** The [switch] of [applier]. *)
Definition applyCommand (cmd : Command) (r : Replica) : option (CommandReply * Replica) :=
  match cmd with
  | SHD_OPERATION operation => applyOperation operation r
  | SHD_Configuration nextConfig => applyConfiguration nextConfig r
  | SHD_InsertShards shardsInfo => applyInsertShards shardsInfo r
  | SHD_DeleteShards shardsInfo => applyDeleteShards shardsInfo r
  | SHD_EmptyEntry => applyEmptyEntry r
  end.

(** [configurationAction]: whether the next configuration may be fetched, and its number. *)
Definition canGetNextConfig (r : Replica) : bool :=
  forallb (λ p, bool_decide (Status (snd p) = STATUS_SERVING)) (map_order (stateMachines r)).
Definition configurationAction (r : Replica) (query : Z → Config) : option Command :=
  if canGetNextConfig r then
    let nextConfig := query (Num (currentConfig r) + 1) in
    if Num nextConfig =? Num (currentConfig r) + 1 then Some (SHD_Configuration nextConfig) else None
  else None.

Definition getShardIdsByStatus (status : string) (r : Replica) : option (gmap Z (list Z)) :=
  foldl (λ acc '(i, shard),
    m ← acc;
    if bool_decide (Status shard = status) then
      g ← index (Shards (lastConfig r)) i;
      if negb (g =? 0) then Some (<[g := default [] (m !! g) ++ [i]]> m) else Some m
    else Some m) (Some ∅) (map_order (stateMachines r)).

(** The requests [migrationAction] and [gcAction] send: per previous owner its servers, and the
    shards in the given status. *)
Definition migrationTasks (status : string) (r : Replica) : option (list (list string * ShardOperationArgs)) :=
  m ← getShardIdsByStatus status r;
  Some ((λ '(g, ids), (default [] (Groups (lastConfig r) !! g), mkSOArgs (Num (currentConfig r)) ids))
          <$> map_order m).
Definition migrationAction (r : Replica) := migrationTasks STATUS_PULLING r.
Definition gcAction (r : Replica) := migrationTasks STATUS_GC r.

(** What the two goroutines propose once a server has answered. *)
Definition migrationReply (reply : option ShardOperationReply) : option Command :=
  match reply with
  | Some pullTaskReply => if bool_decide (so_Err pullTaskReply = OK) then Some (SHD_InsertShards pullTaskReply) else None
  | None => None
  end.
Definition gcReply (args : ShardOperationArgs) (reply : option ShardOperationReply) : option Command :=
  match reply with
  | Some gcTaskReply => if bool_decide (so_Err gcTaskReply = OK) then Some (SHD_DeleteShards args) else None
  | None => None
  end.

Definition noReply (err : string) : ShardOperationReply := mkSOReply err 0 ∅ ∅.

Definition GetShardsData (isLeader : bool) (args : ShardOperationArgs) (r : Replica)
    : option ShardOperationReply :=
  if negb isLeader then Some (noReply ErrWrongLeader) else
  if Num (currentConfig r) <? ConfigNum args then Some (noReply ErrNotReady) else
  shards ← foldl (λ acc shardId, m ← acc; sh ← stateMachines r !! shardId; Some (<[shardId := dcopy sh]> m))
             (Some ∅) (ShardIds args);
  let ops := foldl (λ m '(clientId, operation), <[clientId := info_dcopy operation]> m) ∅
               (map_order (lastOperations r)) in
  Some (mkSOReply OK (ConfigNum args) shards ops).

(** [DeleteShardsData] up to [Execute]: the reply without one, or the command to execute. *)
Definition DeleteShardsData (isLeader : bool) (args : ShardOperationArgs) (r : Replica)
    : ShardOperationReply + Command :=
  if negb isLeader then inl (noReply ErrWrongLeader) else
  if Num (currentConfig r) <? ConfigNum args then inl (noReply OK) else inr (SHD_DeleteShards args).
End ops.
End Group.

(** ** One server of a group *)
Module ShardServer.
Import Config Group.

Record ShardKV := mkSKV {
  rf : Raft Command;
  dead : Z;
  maxraftstate : Z;
  lastApplied : Z;
  replica : Replica;
  notifyChans : gmap Z nat;
  chans : list (option CommandReply);
}.

Definition set_rf x kv := mkSKV x (dead kv) (maxraftstate kv) (lastApplied kv) (replica kv) (notifyChans kv) (chans kv).
Definition set_dead x kv := mkSKV (rf kv) x (maxraftstate kv) (lastApplied kv) (replica kv) (notifyChans kv) (chans kv).
Definition set_lastApplied x kv :=
  mkSKV (rf kv) (dead kv) (maxraftstate kv) x (replica kv) (notifyChans kv) (chans kv).
Definition set_replica x kv :=
  mkSKV (rf kv) (dead kv) (maxraftstate kv) (lastApplied kv) x (notifyChans kv) (chans kv).
Definition set_notify n c kv := mkSKV (rf kv) (dead kv) (maxraftstate kv) (lastApplied kv) (replica kv) n c.

Abbreviation snapshot_data := (gmap Z Shard * gmap Z OperationInfo * Config * Config)%type.

Section server.
Context `{MapOrder} `{Codec (hard_state Command)} `{Codec snapshot_data}.
Context (failed_decode : list byte → snapshot_data).
Abbreviation SM := (M ShardKV (Effect Command)).

Definition raft_call {A} (m : M (Raft Command) (Effect Command) A) : SM A := λ kv,
  match m (rf kv) with
  | Some (a, r, w) => Some (a, set_rf r kv, w)
  | None => None
  end.

Definition getNotifyChans (index : Z) : SM nat :=
  kv ← get;
  match notifyChans kv !! index with
  | Some ch => mret ch
  | None =>
      modify (λ kv, set_notify (<[index := length (chans kv)]> (notifyChans kv)) (chans kv ++ [None]) kv) ;;
      mret (length (chans kv))
  end.
Definition removeOutDatedNotifyChan (index : Z) : SM unit :=
  modify (λ kv, set_notify (delete index (notifyChans kv)) (chans kv) kv).
Definition chan_send (ch : nat) (reply : CommandReply) : SM unit :=
  kv ← get;
  match chans kv !! ch with
  | Some None => modify (λ kv, set_notify (notifyChans kv) (<[ch := Some reply]> (chans kv)) kv)
  | _ => panic
  end.

Definition restoreSnapshot (snap : list byte) : SM unit :=
  match snap with
  | [] => modify (λ kv, set_replica (initStateMachines (replica kv)) kv)
  | _ =>
      let '(m, ops, cur, last) := default (failed_decode snap) (gob_decode snap) in
      modify (λ kv, set_replica (mkReplica (gid (replica kv)) last cur m ops) kv)
  end.

Definition needSnapshot : SM bool :=
  kv ← get;
  if maxraftstate kv =? -1 then mret false
  else size ← raft_call GetRaftStateSize; mret (maxraftstate kv <=? size).

Definition snapshot_of (r : Replica) : list byte :=
  gob_encode (stateMachines r, lastOperations r, currentConfig r, Group.lastConfig r).
Definition takeSnapshot (idx : Z) : SM unit :=
  kv ← get;
  raft_call (Snapshot idx (snapshot_of (replica kv))).

(** The first critical section of [Command]: a reply at once, or [None] to go on with [Execute]. *)
Definition commandCheck (args : CommandArgs) : SM (option CommandReply) :=
  kv ← get;
  if negb (bool_decide (OP args = OP_GET)) && isDuplicateRequest (ClientId args) (CommandId args) (replica kv)
  then mret (LastReply <$> lastOperations (replica kv) !! ClientId args)
  else
    can ← lift (canServer (key2shard (Key args)) (replica kv));
    if negb can then mret (Some (mkReply ErrWrongGroup "")) else mret None.

(** [Execute] up to the wait for the reply. *)
Definition executeStart (command : Command) : SM (CommandReply + Z) :=
  '(index, _, isLeader) ← raft_call (Start (Some command));
  if negb isLeader then mret (inl (mkReply ErrWrongLeader "")) else mret (inr index).
Definition executeReceive (ch : nat) : SM (option CommandReply) :=
  kv ← get;
  match chans kv !! ch with
  | Some (Some reply) =>
      modify (λ kv, set_notify (notifyChans kv) (<[ch := None]> (chans kv)) kv) ;; mret (Some reply)
  | _ => mret None
  end.
Definition executeTimeOut : CommandReply := mkReply ErrTimeout "".

(** [checkEntryInCurrentTermAction] up to [Execute]. *)
Definition checkEntryInCurrentTermAction : SM (option Command) :=
  has ← raft_call HasLogInCurrentTerm;
  mret (if negb has then Some SHD_EmptyEntry else None).

(** One message of [applier]; a message that is neither a command nor a snapshot is only printed. *)
Definition applyMsg (msg : ApplyMsg Command) : SM unit :=
  if CommandValid msg then
    kv ← get;
    if CommandIndex msg <=? lastApplied kv then mret tt else
    modify (set_lastApplied (CommandIndex msg)) ;;
    cmd ← lift (ACommand msg);
    '(reply, r') ← lift (applyCommand cmd (replica kv));
    modify (set_replica r') ;;
    '(currentTerm, isLeader) ← raft_call GetState;
    when (isLeader && (CommandTerm msg =? currentTerm))
      (ch ← getNotifyChans (CommandIndex msg); chan_send ch reply) ;;
    need ← needSnapshot;
    when need (takeSnapshot (CommandIndex msg))
  else if SnapshotValid msg then
    ok ← raft_call (CondInstallSnapshot (SnapshotTerm msg) (SnapshotIndex msg) (Snap msg));
    when ok (restoreSnapshot (Snap msg) ;; modify (set_lastApplied (SnapshotIndex msg)))
  else mret tt.

Definition Kill : SM unit := modify (set_dead 1) ;; raft_call Raft.Kill.
Definition killed : SM bool := gets (λ kv, dead kv =? 1).

Definition StartServer (n self : Z) (p : Persister) (maxraftstate gid : Z) : option ShardKV :=
  r ← Make n self p;
  run_state (restoreSnapshot (ReadSnapshot p))
    (mkSKV r 0 maxraftstate 0 (mkReplica gid DefaultConfig DefaultConfig ∅ ∅) ∅ []).
End server.
End ShardServer.

(** ** The client *)
Module ShardClerk.
Import Config Group.

Record Clerk := mkClerk { config : Config; clientId : Z; commandId : Z; leaderIds : gmap Z Z }.

(** [MakeClerk] with the number [nrand()] and the configuration [Query(-1)] gave. *)
Definition MakeClerk (rand : Z) (cf : Config) : Clerk := mkClerk cf rand 0 ∅.

(** The inner loop of [Command]: the servers of a group in turn, driven by what the calls return.
    The value ([None]: leave the group), the calls made and the results not used. *)
Fixpoint callLoop (servers : list string) (pre new : Z) (rpcs : list (option CommandReply))
    : option (option string * list string * list (option CommandReply)) :=
  match rpcs with
  | [] => None
  | rpc :: rpcs =>
      srv ← index servers new;
      let again :=
        let new' := (new + 1) mod zlen servers in
        if new' =? pre then Some (None, [srv], rpcs)
        else '(v, sent, rest) ← callLoop servers pre new' rpcs; Some (v, srv :: sent, rest) in
      match rpc with
      | Some reply =>
          if bool_decide (Err reply = OK) || bool_decide (Err reply = ErrNoKey)
          then Some (Some (RValue reply), [srv], rpcs)
          else if bool_decide (Err reply = ErrWrongGroup) then Some (None, [srv], rpcs)
          else again
      | None => again
      end
  end.

(** The outer loop, driven also by the configurations the controller returns; [None] while no reply
    was decisive. *)
Fixpoint commandLoop (args : CommandArgs) (configs : list Config) (ck : Clerk)
    (rpcs : list (option CommandReply)) : option (string * Clerk * list (string * CommandArgs)) :=
  g ← index (Shards (config ck)) (key2shard (Key args));
  '(res, ck', sent, rest) ←
    match Groups (config ck) !! g with
    | Some servers =>
        let pre := default 0 (leaderIds ck !! g) in
        let ck' := mkClerk (config ck) (clientId ck) (commandId ck) (<[g := pre]> (leaderIds ck)) in
        '(v, sent, rest) ← callLoop servers pre pre rpcs;
        Some (v, ck', map (λ srv, (srv, args)) sent, rest)
    | None => Some (None, ck, [], rpcs)
    end;
  match res with
  | Some v => Some (v, mkClerk (config ck') (clientId ck') (commandId ck' + 1) (leaderIds ck'), sent)
  | None =>
      match configs with
      | [] => None
      | cf :: configs =>
          '(v, ck'', sent') ← commandLoop args configs
            (mkClerk cf (clientId ck') (commandId ck') (leaderIds ck')) rest;
          Some (v, ck'', sent ++ sent')
      end
  end.

Definition Command (ck : Clerk) (key value op : string) (configs : list Config) :=
  commandLoop (mkArgs key value op (clientId ck) (commandId ck)) configs ck.
Definition Get (ck : Clerk) (key : string) := Command ck key "" OP_GET.
Definition Put (ck : Clerk) (key value : string) := Command ck key value OP_PUT.
Definition Append (ck : Clerk) (key value : string) := Command ck key value OP_APPEND.
End ShardClerk.
