(* ===== verification/ShardKVProofs.v ===== *)
(** * What each command does to a replica of a group

    Every command of the log, on a replica with its ten shards, is total, and changes each shard in
    one of a few ways; the result does not depend on the order in which maps are visited. *)
From S2P Require Import Prelude ShardCtrler ConfigProofs ShardKV.
Import Config Group.

(** The owner of a shard, 0 outside the array, and a shard of a replica. *)
Definition owner (c : Config) (s : Z) : Z := default 0 (index (Shards c) s).
Definition shard (r : Replica) (s : Z) : Shard := default NewShard (stateMachines r !! s).
Abbreviation status r s := (Status (shard r s)).
Abbreviation data r s := (KV (shard r s)).

Definition in_range (s : Z) : Prop := 0 ≤ s < NShards.

Record replica_ok (r : Replica) : Prop := {
  rk_shards s : in_range s → is_Some (stateMachines r !! s);
  rk_dom s : is_Some (stateMachines r !! s) → in_range s;
  rk_cur : zlen (Shards (currentConfig r)) = NShards;
  rk_last : zlen (Shards (lastConfig r)) = NShards;
}.

Definition serves (r : Replica) (s : Z) : bool :=
  (owner (currentConfig r) s =? gid r) &&
  (bool_decide (status r s = STATUS_SERVING) || bool_decide (status r s = STATUS_GC)).

Lemma owner_index c s : zlen (Shards c) = NShards → in_range s → index (Shards c) s = Some (owner c s).
Proof.
  intros Hlen Hs. unfold owner. destruct (index_total (Shards c) s) as [g ->]; [unfold in_range in *; lia|done].
Qed.

Lemma shard_lookup r s : replica_ok r → in_range s → stateMachines r !! s = Some (shard r s).
Proof. intros Hok Hs. unfold shard. by destruct (rk_shards r Hok s Hs) as [sh ->]. Qed.

Lemma key2shard_range key : in_range (key2shard key).
Proof. unfold key2shard, in_range, NShards. destruct key; [lia|]. apply Z.mod_pos_bound. lia. Qed.

Lemma canServer_spec r s : replica_ok r → in_range s → canServer s r = Some (serves r s).
Proof.
  intros Hok Hs. unfold canServer, serves. rewrite owner_index by (done || apply Hok). simpl.
  destruct (owner (currentConfig r) s =? gid r); simpl; [|done]. by rewrite shard_lookup.
Qed.

(** Writing one shard. *)
Lemma on_shard_spec r s f :
  replica_ok r → in_range s →
  on_shard s f r = Some (set_stateMachines (<[s := f (shard r s)]> (stateMachines r)) r).
Proof. intros Hok Hs. unfold on_shard. by rewrite shard_lookup. Qed.

Lemma shard_set r s sh s' :
  shard (set_stateMachines (<[s := sh]> (stateMachines r)) r) s' = if decide (s' = s) then sh else shard r s'.
Proof.
  unfold shard. simpl. case_decide; [subst; by rewrite lookup_insert_eq|]. by rewrite lookup_insert_ne.
Qed.

Lemma replica_ok_set r s sh :
  replica_ok r → in_range s → replica_ok (set_stateMachines (<[s := sh]> (stateMachines r)) r).
Proof.
  intros Hok Hs. split; simpl; try apply Hok.
  - intros s' Hs'. destruct (decide (s' = s)) as [->|]; [rewrite lookup_insert_eq; by eexists|].
    rewrite lookup_insert_ne by done. by apply Hok.
  - intros s'. destruct (decide (s' = s)) as [->|]; [done|]. rewrite lookup_insert_ne by done. apply Hok.
Qed.

(** ** Client operations *)

(** The store after an operation, as the reference has it. *)
Definition op_data (op : CommandArgs) (m : gmap string string) : gmap string string :=
  if bool_decide (OP op = OP_PUT) then <[Key op := Value op]> m
  else if bool_decide (OP op = OP_APPEND) then
    <[Key op := (default ""%string (m !! Key op) +:+ Value op)%string]> m
  else m.

Definition op_reply (op : CommandArgs) (m : gmap string string) : CommandReply :=
  if bool_decide (OP op = OP_PUT) || bool_decide (OP op = OP_APPEND) then mkReply OK ""
  else if bool_decide (OP op = OP_GET) then
    match m !! Key op with Some v => mkReply OK v | None => mkReply ErrNoKey "" end
  else mkReply "" "".

(** Only the shard of the key may change. *)
Definition same_but (r r' : Replica) (s : Z) : Prop :=
  gid r' = gid r ∧ currentConfig r' = currentConfig r ∧ lastConfig r' = lastConfig r ∧
  (∀ s', s' ≠ s → shard r' s' = shard r s').

Lemma applyLog_spec op r s :
  replica_ok r → in_range s →
  ∃ r', applyLogToStateMachines op s r = Some (op_reply op (data r s), r') ∧ replica_ok r' ∧
    same_but r r' s ∧ lastOperations r' = lastOperations r ∧
    data r' s = op_data op (data r s) ∧ status r' s = status r s.
Proof.
  intros Hok Hs. unfold applyLogToStateMachines, op_reply, op_data, Put, Append, Get.
  assert (∀ sh, Status sh = status r s → ∃ r', on_shard s (λ _, sh) r = Some r' ∧ replica_ok r' ∧
    same_but r r' s ∧ lastOperations r' = lastOperations r ∧ data r' s = KV sh ∧ status r' s = status r s) as Hset.
  { intros sh Hsh. rewrite on_shard_spec by done. eexists. split; [done|]. split; [by apply replica_ok_set|].
    split; [split_and!; try done; intros s' ?; by rewrite shard_set, decide_False|].
    split; [done|]. rewrite shard_set, decide_True by done. done. }
  rewrite shard_lookup by done. cbn [mbind option_bind].
  destruct (bool_decide (OP op = OP_PUT)); cbn [orb].
  { destruct (Hset (mkShard (<[Key op := Value op]> (data r s)) (status r s)) eq_refl) as (r' & -> & ? & ? & ? & ? & ?).
    by exists r'. }
  destruct (bool_decide (OP op = OP_APPEND)).
  { destruct (Hset (mkShard (<[Key op := (default ""%string (data r s !! Key op) +:+ Value op)%string]> (data r s))
      (status r s)) eq_refl) as (r' & -> & ? & ? & ? & ? & ?). by exists r'. }
  exists r. destruct (bool_decide (OP op = OP_GET)); [destruct (data r s !! Key op)|]; by split_and!.
Qed.

(** An operation on a shard the group serves is executed, or answered from the table; on any other
    shard it is refused. *)
Lemma applyOperation_spec op r :
  replica_ok r → let s := key2shard (Key op) in
  ∃ reply r', applyOperation op r = Some (reply, r') ∧ replica_ok r' ∧ same_but r r' s ∧
    status r' s = status r s ∧
    ( serves r s = false ∧ reply = mkReply ErrWrongGroup "" ∧ r' = r
    ∨ serves r s = true ∧ OP op ≠ OP_GET ∧ isDuplicateRequest (ClientId op) (CommandId op) r = true ∧ r' = r ∧
        LastReply <$> lastOperations r !! ClientId op = Some reply
    ∨ serves r s = true ∧ reply = op_reply op (data r s) ∧ data r' s = op_data op (data r s) ∧
        (OP op = OP_GET ∨ isDuplicateRequest (ClientId op) (CommandId op) r = false) ∧
        lastOperations r' = (if bool_decide (OP op = OP_GET) then lastOperations r
          else <[ClientId op := mkInfo (CommandId op) reply]> (lastOperations r))).
Proof.
  intros Hok s. pose proof (key2shard_range (Key op)) as Hs. fold s in Hs.
  unfold applyOperation. fold s. rewrite canServer_spec by done. cbn [mbind option_bind].
  destruct (serves r s) eqn:Hserve; [|by eexists _, r; split_and!; try done; left].
  destruct (applyLog_spec op r s Hok Hs) as (r' & Hr' & Hok' & Hsb & Hops & Hd & Hst).
  destruct (bool_decide (OP op = OP_GET)) eqn:Hg; cbn [negb andb].
  - rewrite Hr'. cbn [mbind option_bind]. eexists _, r'. split_and!; try done. right; right.
    apply bool_decide_eq_true in Hg. split_and!; try done. by left.
  - destruct (isDuplicateRequest (ClientId op) (CommandId op) r) eqn:Hdup.
    + pose proof Hdup as Hdup'. unfold isDuplicateRequest in Hdup'.
      destruct (lastOperations r !! ClientId op) as [info|] eqn:Hi; [|done]. cbn [mbind option_bind].
      eexists _, r. split_and!; try done. right; left. apply bool_decide_eq_false in Hg. by split_and!.
    + rewrite Hr'. cbn [mbind option_bind]. eexists _, _. split_and!; [done|by destruct Hok'|done|done|].
      right; right. split_and!; try done; [by right|]. simpl. by rewrite Hops.
Qed.

(** ** Configurations *)
Definition new_status (r : Replica) (next : Config) (s : Z) : string :=
  if negb (owner (currentConfig r) s =? gid r) && (owner next s =? gid r)
     && negb (owner (currentConfig r) s =? 0) then STATUS_PULLING
  else if (owner (currentConfig r) s =? gid r) && negb (owner next s =? gid r) && negb (owner next s =? 0)
  then STATUS_BEPULLING
  else status r s.

(** The fields the shard loops leave alone. *)
Definition same_config (r r' : Replica) : Prop :=
  gid r' = gid r ∧ currentConfig r' = currentConfig r ∧ lastConfig r' = lastConfig r ∧
  lastOperations r' = lastOperations r.

Lemma set_status_same sh : set_status (Status sh) sh = sh.
Proof. by destruct sh. Qed.

Lemma updateStatus_spec next s r :
  replica_ok r → in_range s → zlen (Shards next) = NShards →
  ∃ r', updateStatus next s r = Some r' ∧ replica_ok r' ∧ same_config r r' ∧
    shard r' s = set_status (new_status r next s) (shard r s) ∧ ∀ s', s' ≠ s → shard r' s' = shard r s'.
Proof.
  intros Hok Hs Hn. unfold updateStatus, new_status.
  rewrite !owner_index by (done || apply Hok). cbn [mbind option_bind].
  set (c := owner (currentConfig r) s). set (m := owner next s).
  assert (∀ st, ∃ r', on_shard s (set_status st) r = Some r' ∧ replica_ok r' ∧ same_config r r' ∧
    shard r' s = set_status st (shard r s) ∧ ∀ s', s' ≠ s → shard r' s' = shard r s') as Hset.
  { intros st. rewrite on_shard_spec by done. eexists. split; [done|]. split; [by apply replica_ok_set|].
    split; [done|]. split; [by rewrite shard_set, decide_True|]. intros s' ?. by rewrite shard_set, decide_False. }
  destruct (c =? gid r) eqn:Hc, (m =? gid r) eqn:Hm, (c =? 0) eqn:Hc0, (m =? 0) eqn:Hm0;
    cbn [negb andb mbind option_bind];
    try (exists r; split_and!; try done; symmetry; apply set_status_same);
    try (destruct (Hset STATUS_PULLING) as (r' & -> & ? & ? & ? & ?); by exists r');
    destruct (Hset STATUS_BEPULLING) as (r' & -> & ? & ? & ? & ?); by exists r'.
Qed.

Lemma new_status_same r r' next s :
  same_config r r' → shard r' s = shard r s → new_status r' next s = new_status r next s.
Proof. intros (Hg & Hc & _ & _) Hs. unfold new_status. by rewrite Hg, Hc, Hs. Qed.

Lemma updateAll_spec next l r :
  replica_ok r → zlen (Shards next) = NShards → NoDup l → (∀ s, s ∈ l → in_range s) →
  ∃ r', foldl (λ acc i, r ← acc; updateStatus next i r) (Some r) l = Some r' ∧ replica_ok r' ∧
    same_config r r' ∧
    ∀ s, shard r' s = if decide (s ∈ l) then set_status (new_status r next s) (shard r s) else shard r s.
Proof.
  intros Hok Hn. induction l as [|x l IH] using rev_ind; intros Hnd Hl; simpl.
  { exists r. split_and!; try done. }
  apply NoDup_app in Hnd as (Hnd & Hx & _). rewrite foldl_app.
  destruct IH as (r1 & -> & Hok1 & Hsc1 & Hs1); [done|set_solver|]. simpl.
  assert (x ∉ l) as Hxl by set_solver.
  destruct (updateStatus_spec next x r1) as (r2 & -> & Hok2 & Hsc2 & Hx2 & Ho2); [done|set_solver|done|].
  exists r2. split_and!; [done|done| |].
  - destruct Hsc1 as (?&?&?&?), Hsc2 as (?&?&?&?). split_and!; congruence.
  - intros s. destruct (decide (s = x)) as [->|Hne].
    + rewrite decide_True by set_solver. specialize (Hs1 x). rewrite decide_False in Hs1 by done.
      rewrite Hx2, Hs1. by rewrite (new_status_same r r1).
    + rewrite Ho2, Hs1 by done. destruct (decide (s ∈ l)).
      * by rewrite decide_True by set_solver.
      * by rewrite decide_False by set_solver.
Qed.

Lemma applyConfiguration_spec next r :
  replica_ok r → zlen (Shards next) = NShards → Num next = Num (currentConfig r) + 1 →
  ∃ r', applyConfiguration next r = Some (mkReply OK "", r') ∧ replica_ok r' ∧
    gid r' = gid r ∧ currentConfig r' = next ∧ lastConfig r' = currentConfig r ∧
    lastOperations r' = lastOperations r ∧
    ∀ s, in_range s → shard r' s = set_status (new_status r next s) (shard r s).
Proof.
  intros Hok Hn Hnum. unfold applyConfiguration. destruct (Num next =? _) eqn:He; [|lia].
  unfold updateShardStatus. destruct (updateAll_spec next (zrange 0 NShards) r) as (r1 & -> & Hok1 & Hsc & Hs);
    [done|done|apply NoDup_zrange|intros s; by rewrite elem_of_zrange|].
  destruct Hsc as (Hg & Hc & Hl & Ho). cbn [mbind option_bind]. eexists. split; [done|]. split.
  { destruct Hok1. split; simpl; try done. }
  simpl. split_and!; [done|done|done|done|]. intros s Hr. unfold shard at 1. simpl. fold (shard r1 s).
  rewrite Hs, decide_True; [done|]. by apply elem_of_zrange.
Qed.

(** ** Moving shards *)
Section order.
Context `{MapOrder}.

Lemma insertData_spec d sh : insertData d sh = mkShard (d ∪ KV sh) (Status sh).
Proof.
  unfold insertData. f_equal. rewrite (foldl_insert (λ v : string, v)) by (eapply listing_NoDup, map_order_perm).
  by rewrite (listing_map _ d), map_fmap_id by apply map_order_perm.
Qed.

Lemma dcopy_spec sh : dcopy sh = KV sh.
Proof.
  unfold dcopy. rewrite (foldl_insert (λ v : string, v)) by (eapply listing_NoDup, map_order_perm).
  by rewrite (listing_map _ (KV sh)), map_fmap_id, (right_id_L ∅ (∪)) by apply map_order_perm.
Qed.

(** What inserting does to a shard: nothing, or the data is merged and the shard waits for the
    cleanup at the previous owner. *)
Definition inserted (sd : gmap Z (gmap string string)) (r r' : Replica) (s : Z) : Prop :=
  shard r' s = shard r s ∨
  ∃ d, sd !! s = Some d ∧ status r s = STATUS_PULLING ∧ shard r' s = mkShard (d ∪ data r s) STATUS_GC.

Lemma insertShards_spec l sd r :
  replica_ok r → NoDup l.*1 → (∀ s d, (s, d) ∈ l → sd !! s = Some d ∧ in_range s) →
  ∃ r', insertShards l r = Some r' ∧ replica_ok r' ∧ same_config r r' ∧
    (∀ s, inserted sd r r' s) ∧ (∀ s, s ∉ l.*1 → shard r' s = shard r s).
Proof.
  revert r. induction l as [|[s d] l IH]; intros r Hok Hnd Hl; simpl.
  { exists r. split_and!; try done. intros s. by left. }
  simpl in Hnd. apply NoDup_cons in Hnd as [Hs Hnd]. destruct (Hl s d ltac:(by left)) as [Hsd Hr].
  rewrite shard_lookup by done. cbn [mbind option_bind].
  destruct (bool_decide (status r s = STATUS_PULLING)) eqn:Hst.
  2: { exists r. split_and!; try done. intros s'. by left. }
  apply bool_decide_eq_true in Hst. rewrite on_shard_spec by done. cbn [mbind option_bind].
  rewrite insertData_spec. unfold set_status. cbn [KV].
  set (r1 := set_stateMachines _ r).
  destruct (IH r1) as (r' & -> & Hok' & Hsc & Hins & Hout);
    [by apply replica_ok_set|done|intros s' d' ?; apply Hl; by right|].
  assert (shard r' s = mkShard (d ∪ data r s) STATUS_GC) as Hs'.
  { rewrite Hout by done. unfold r1. by rewrite shard_set, decide_True. }
  assert (∀ s', s' ≠ s → shard r1 s' = shard r s') as H1 by (intros s' ?; unfold r1; by rewrite shard_set, decide_False).
  exists r'. split_and!; [done|done|done| |].
  - intros s'. destruct (decide (s' = s)) as [->|Hne]; [right; by exists d|].
    destruct (Hins s') as [Heq|(d' & Hd' & Hp & Heq)]; rewrite H1 in * by done; [by left|]. right. by exists d'.
  - intros s' [Hne Hs'l]%not_elem_of_cons. by rewrite Hout, H1.
Qed.

Lemma applyInsertShards_spec reply r :
  replica_ok r → (∀ s, is_Some (so_Shards reply !! s) → in_range s) →
  ∃ err r', applyInsertShards reply r = Some (mkReply err "", r') ∧ replica_ok r' ∧
    gid r' = gid r ∧ currentConfig r' = currentConfig r ∧ lastConfig r' = lastConfig r ∧
    (so_ConfigNum reply ≠ Num (currentConfig r) → r' = r) ∧
    (∀ s, inserted (so_Shards reply) r r' s).
Proof.
  intros Hok Hr. unfold applyInsertShards. case_match eqn:Hn.
  - destruct (insertShards_spec (map_order (so_Shards reply)) (so_Shards reply) r)
      as (r1 & -> & Hok1 & (?&?&?&?) & Hins & _); [done|eapply listing_NoDup, map_order_perm| |].
    { intros s d Hin. rewrite map_order_perm in Hin. apply elem_of_map_to_list in Hin. eauto. }
    cbn [mbind option_bind]. eexists _, _. split; [done|]. split; [by destruct Hok1|]. simpl.
    split_and!; try done; try lia.
  - eexists _, r. split_and!; try done. intros s. by left.
Qed.

(** What deleting does to a shard. *)
Definition deleted (ids : list Z) (r r' : Replica) (s : Z) : Prop :=
  shard r' s = shard r s ∨
  s ∈ ids ∧ status r s = STATUS_GC ∧ shard r' s = set_status STATUS_SERVING (shard r s) ∨
  s ∈ ids ∧ status r s = STATUS_BEPULLING ∧ shard r' s = NewShard.

Lemma deleteShards_spec l r :
  replica_ok r → (∀ s, s ∈ l → in_range s) →
  ∃ r', deleteShards l r = Some r' ∧ replica_ok r' ∧ same_config r r' ∧ ∀ s, deleted l r r' s.
Proof.
  revert r. induction l as [|s l IH]; intros r Hok Hl; simpl.
  { exists r. split_and!; try done. intros s. by left. }
  assert (in_range s) as Hs by (apply Hl; by left). rewrite shard_lookup by done. cbn [mbind option_bind].
  rewrite on_shard_spec by done. cbn [mbind option_bind].
  assert (∀ sh, Status sh = STATUS_SERVING →
    deleted [s] r (set_stateMachines (<[s := sh]> (stateMachines r)) r) s →
    ∃ r', deleteShards l (set_stateMachines (<[s := sh]> (stateMachines r)) r) = Some r' ∧ replica_ok r' ∧
      same_config r r' ∧ ∀ s', deleted (s :: l) r r' s') as Hgo.
  { intros sh Hsh Hd. set (r1 := set_stateMachines _ r) in *.
    destruct (IH r1) as (r' & -> & Hok' & Hsc & Hdel); [by apply replica_ok_set|intros ? ?; apply Hl; by right|].
    exists r'. split_and!; try done. intros s'. destruct (decide (s' = s)) as [->|Hne].
    - assert (shard r1 s = sh) as Hs1 by (unfold r1; by rewrite shard_set, decide_True).
      destruct (Hdel s) as [Heq|[(_ & Hg & _)|(_ & Hg & _)]];
        [|rewrite Hs1, Hsh in Hg; done|rewrite Hs1, Hsh in Hg; done].
      destruct Hd as [Hd|[(_ & ? & Hd)|(_ & ? & Hd)]].
      + left. congruence.
      + right; left. split_and!; [by left|done|congruence].
      + right; right. split_and!; [by left|done|congruence].
    - assert (shard r1 s' = shard r s') as Hs1 by (unfold r1; by rewrite shard_set, decide_False).
      destruct (Hdel s') as [Heq|[(? & Hg & Heq)|(? & Hg & Heq)]]; rewrite Hs1 in *; [by left|right; left|right; right];
        (split_and!; [by right|done|done]). }
  destruct (bool_decide (status r s = STATUS_GC)) eqn:Hgc.
  { apply bool_decide_eq_true in Hgc. apply Hgo; [done|]. right; left.
    rewrite shard_set, decide_True by done. split_and!; [by left|done|done]. }
  destruct (bool_decide (status r s = STATUS_BEPULLING)) eqn:Hbe.
  { apply bool_decide_eq_true in Hbe. apply Hgo; [done|]. right; right.
    rewrite shard_set, decide_True by done. split_and!; [by left|done|done]. }
  exists r. split_and!; try done. intros s'. by left.
Qed.

Lemma applyDeleteShards_spec args r :
  replica_ok r → (∀ s, s ∈ ShardIds args → in_range s) →
  ∃ r', applyDeleteShards args r = Some (mkReply OK "", r') ∧ replica_ok r' ∧ same_config r r' ∧
    (ConfigNum args ≠ Num (currentConfig r) → r' = r) ∧ ∀ s, deleted (ShardIds args) r r' s.
Proof.
  intros Hok Hr. unfold applyDeleteShards. case_match eqn:Hn.
  - destruct (deleteShards_spec (ShardIds args) r Hok Hr) as (r' & -> & ? & ? & ?). simpl. exists r'.
    split_and!; try done; try lia.
  - exists r. split_and!; try done. intros s. by left.
Qed.
End order.

(** ** What a leader reads off its replica *)
Section reads.
Context `{MapOrder}.

Lemma canGetNextConfig_spec r s :
  replica_ok r → canGetNextConfig r = true → in_range s → status r s = STATUS_SERVING.
Proof.
  intros Hok Hc Hs. unfold canGetNextConfig in Hc. rewrite forallb_forall in Hc.
  specialize (Hc (s, shard r s)). rewrite <-list_elem_of_In, map_order_perm, elem_of_map_to_list in Hc.
  specialize (Hc (shard_lookup r s Hok Hs)). by apply bool_decide_eq_true in Hc.
Qed.

Definition idsStep (st : string) (r : Replica) (acc : option (gmap Z (list Z))) (p : Z * Shard) :=
  m ← acc;
  if bool_decide (Status (snd p) = st) then
    g ← index (Shards (lastConfig r)) (fst p);
    if negb (g =? 0) then Some (<[g := default [] (m !! g) ++ [fst p]]> m) else Some m
  else Some m.

Lemma getShardIds_fold st r : getShardIdsByStatus st r = foldl (idsStep st r) (Some ∅) (map_order (stateMachines r)).
Proof.
  unfold getShardIdsByStatus. generalize (Some ∅ : option (gmap Z (list Z))).
  induction (map_order (stateMachines r)) as [|[i sh] l IH]; intros acc; [done|]. simpl. by rewrite IH.
Qed.

(** Total, and complete as well as sound: the shards in the status, by their previous owner. *)
Lemma getShardIds_spec st r :
  replica_ok r →
  ∃ m, getShardIdsByStatus st r = Some m ∧
    ∀ s g, (∃ ids, m !! g = Some ids ∧ s ∈ ids) ↔
      in_range s ∧ status r s = st ∧ owner (lastConfig r) s = g ∧ g ≠ 0.
Proof.
  intros Hok. rewrite getShardIds_fold. pose proof (map_order_perm (stateMachines r)) as Hp.
  assert (∀ l, (∀ p, p ∈ l → stateMachines r !! fst p = Some (snd p)) →
    ∃ m, foldl (idsStep st r) (Some ∅) l = Some m ∧
      ∀ s g, (∃ ids, m !! g = Some ids ∧ s ∈ ids) ↔
        s ∈ l.*1 ∧ status r s = st ∧ owner (lastConfig r) s = g ∧ g ≠ 0) as Hgen.
  { clear Hp. induction l as [|[i sh] l IH] using rev_ind; intros Hl.
    { exists ∅. split; [done|]. intros s g. setoid_rewrite lookup_empty. simpl. split.
      - by intros (? & ? & _).
      - intros [Hn _]. by apply elem_of_nil in Hn. }
    rewrite foldl_app. destruct IH as (m & -> & Hm); [intros p Hin; apply Hl, elem_of_app; by left|].
    assert (stateMachines r !! i = Some sh) as Hi by (apply (Hl (i, sh)), elem_of_app; right; by left).
    assert (in_range i) as Hr by (apply (rk_dom r Hok); by eexists).
    assert (status r i = Status sh) as Hst by (unfold shard; by rewrite Hi).
    simpl. unfold idsStep. simpl. rewrite owner_index by (done || apply Hok). cbn [mbind option_bind].
    setoid_rewrite fmap_app. setoid_rewrite elem_of_app. simpl. setoid_rewrite list_elem_of_singleton.
    destruct (bool_decide (Status sh = st)) eqn:Hb.
    - apply bool_decide_eq_true in Hb. destruct (owner (lastConfig r) i =? 0) eqn:H0; simpl.
      + exists m. split; [done|]. intros s g. rewrite Hm. split; [intros (? & ? & ? & ?); auto|].
        intros ([?| ->] & ? & ? & ?); [done|lia].
      + eexists. split; [done|]. intros s g. destruct (decide (g = owner (lastConfig r) i)) as [->|Hne].
        * rewrite lookup_insert_eq. split.
          -- intros (ids & [= <-] & [Hin|Hin%list_elem_of_singleton]%elem_of_app).
             ++ destruct (m !! owner (lastConfig r) i) as [ids|] eqn:Hmi; [|by apply elem_of_nil in Hin].
                destruct (proj1 (Hm s (owner (lastConfig r) i)) ltac:(eauto)) as (? & ? & ? & ?). auto.
             ++ subst s. split_and!; [by right|congruence|done|lia].
          -- intros (Hs & ? & Ho & ?). eexists. split; [done|]. apply elem_of_app.
             destruct Hs as [Hs| ->]; [|right; by left]. left.
             destruct (proj2 (Hm s (owner (lastConfig r) i))) as (ids & -> & ?); [done|]. done.
        * rewrite lookup_insert_ne by done. rewrite Hm. split; [intros (? & ? & ? & ?); auto|].
          intros ([?| ->] & ? & ? & ?); [done|congruence].
    - apply bool_decide_eq_false in Hb. exists m. split; [done|]. intros s g. rewrite Hm.
      split; [intros (? & ? & ? & ?); auto|]. intros ([?| ->] & ? & ? & ?); [done|congruence]. }
  destruct (Hgen (map_order (stateMachines r))) as (m & Hm & Hspec).
  { intros [k v]. rewrite Hp. apply elem_of_map_to_list. }
  exists m. split; [done|]. intros s g. rewrite Hspec. apply and_iff_compat_r.
  rewrite Hp. split.
  - intros ([k v] & -> & Hin%elem_of_map_to_list)%list_elem_of_fmap. apply (rk_dom r Hok). by eexists.
  - intros Hs. apply list_elem_of_fmap. exists (s, shard r s). split; [done|].
    apply elem_of_map_to_list. by apply shard_lookup.
Qed.

(** The shards and the table a previous owner hands over. *)
Lemma GetShardsData_spec args r :
  replica_ok r → (∀ s, s ∈ ShardIds args → in_range s) → ConfigNum args ≤ Num (currentConfig r) →
  ∃ reply, GetShardsData true args r = Some reply ∧ so_Err reply = OK ∧ so_ConfigNum reply = ConfigNum args ∧
    so_LastOperations reply = lastOperations r ∧
    ∀ s, so_Shards reply !! s = if decide (s ∈ ShardIds args) then Some (data r s) else None.
Proof.
  intros Hok Hids Hn. unfold GetShardsData. cbn [negb]. destruct (_ <? _) eqn:Hlt; [lia|].
  assert (∀ l, (∀ s, s ∈ l → in_range s) → ∃ m : gmap Z (gmap string string),
    foldl (λ acc shardId, m ← acc; sh ← stateMachines r !! shardId; Some (<[shardId := dcopy sh]> m)) (Some ∅) l
      = Some m ∧ ∀ s, m !! s = if decide (s ∈ l) then Some (data r s) else None) as Hgen.
  { induction l as [|i l IH] using rev_ind; intros Hl; [by exists ∅|].
    rewrite foldl_app. destruct IH as (m & -> & Hm); [intros; apply Hl, elem_of_app; by left|]. simpl.
    rewrite shard_lookup by (done || (apply Hl, elem_of_app; right; by left)). simpl. eexists. split; [done|].
    intros s. rewrite dcopy_spec. destruct (decide (s = i)) as [->|Hne].
    - rewrite lookup_insert_eq, decide_True; [done|]. apply elem_of_app. right. by left.
    - rewrite lookup_insert_ne, Hm by done. destruct (decide (s ∈ l)) as [Hin|Hin].
      + rewrite decide_True; [done|]. apply elem_of_app. by left.
      + rewrite decide_False; [done|]. rewrite elem_of_app, list_elem_of_singleton. tauto. }
  destruct (Hgen (ShardIds args) Hids) as (m & -> & Hm). cbn [mbind option_bind].
  eexists. split; [done|]. split_and!; try done. simpl.
  rewrite (foldl_insert info_dcopy) by (eapply listing_NoDup, map_order_perm).
  rewrite (listing_map _ (lastOperations r)), (right_id_L ∅ (∪)) by apply map_order_perm.
  rewrite <-(map_fmap_id (lastOperations r)) at 2. apply map_fmap_ext. intros i [x []] _. done.
Qed.
End reads.
