(* ===== verification/ShardSystem.v ===== *)
(** * Many groups: who serves a shard, and with what data

    The replica groups of [shardkv] move through one history of configurations, each at its own
    pace, and hand shards over by pulling.  A group is the sequence of states its log goes through:
    commands act on the last state, while a leader that plans a step or answers another group may
    have applied only part of the log, so it reads any state of the sequence.  Messages are never
    consumed: each may be delayed, repeated or lost. *)
From S2P Require Import Prelude ShardCtrler ConfigProofs ShardKV ShardKVProofs.
Import Config Group.

Inductive Msg :=
| Propose (g : Z) (cmd : Command)                       (* a command a leader of [g] may get into the log *)
| AskPull (h g : Z) (args : ShardOperationArgs)         (* [GetShardsData] sent by [h] to [g] *)
| AskDelete (h g : Z) (args : ShardOperationArgs).      (* [DeleteShardsData] sent by [h] to [g] *)

Record Sys := mkSys {
  now : gmap Z Replica;
  past : list (Z * Replica);
  msgs : list Msg;
}.

(** The specification: one store per shard. *)
Definition Store := Z → gmap string string.
Definition store_set (s : Z) (m : gmap string string) (A : Store) : Store :=
  λ s', if decide (s' = s) then m else A s'.

Definition put (g : Z) (r : Replica) (S : Sys) : Sys :=
  mkSys (<[g := r]> (now S)) ((g, r) :: past S) (msgs S).
Definition add (m : Msg) (S : Sys) : Sys := mkSys (now S) (past S) (m :: msgs S).

(** The operation is executed, not refused and not answered from the table. *)
Definition executed (op : CommandArgs) (r : Replica) : bool :=
  serves r (key2shard (Key op)) &&
  (bool_decide (OP op = OP_GET) || negb (isDuplicateRequest (ClientId op) (CommandId op) r)).

Definition fresh_replica (g : Z) : Replica :=
  initStateMachines (mkReplica g DefaultConfig DefaultConfig ∅ ∅).
Definition init_sys (gs : gset Z) : Sys :=
  mkSys (set_to_map (λ g, (g, fresh_replica g)) gs) ((λ g, (g, fresh_replica g)) <$> elements gs) [].

Section system.
Context `{MapOrder} (cfg : Z → Config).

Inductive sys_step : Sys * Store → Sys * Store → Prop :=
| step_op g r op reply r' S A :
    now S !! g = Some r → applyCommand (SHD_OPERATION op) r = Some (reply, r') →
    sys_step (S, A) (put g r' S,
      if executed op r then store_set (key2shard (Key op)) (op_data op (A (key2shard (Key op)))) A else A)
| step_apply g r cmd reply r' S A :
    Propose g cmd ∈ msgs S → now S !! g = Some r → applyCommand cmd r = Some (reply, r') →
    sys_step (S, A) (put g r' S, A)
| step_config g r query cmd S A :
    (g, r) ∈ past S → (∀ n, ∃ m, 0 ≤ m ∧ query n = cfg m) → configurationAction r query = Some cmd →
    sys_step (S, A) (add (Propose g cmd) S, A)
| step_pull h r m g ids S A :
    (h, r) ∈ past S → getShardIdsByStatus STATUS_PULLING r = Some m → m !! g = Some ids →
    sys_step (S, A) (add (AskPull h g (mkSOArgs (Num (currentConfig r)) ids)) S, A)
| step_data h g args r reply cmd S A :
    AskPull h g args ∈ msgs S → (g, r) ∈ past S → GetShardsData true args r = Some reply →
    migrationReply (Some reply) = Some cmd →
    sys_step (S, A) (add (Propose h cmd) S, A)
| step_gc h r m g ids S A :
    (h, r) ∈ past S → getShardIdsByStatus STATUS_GC r = Some m → m !! g = Some ids →
    sys_step (S, A) (add (AskDelete h g (mkSOArgs (Num (currentConfig r)) ids)) S, A)
| step_delete h g args r cmd S A :
    AskDelete h g args ∈ msgs S → (g, r) ∈ past S → DeleteShardsData true args r = inr cmd →
    sys_step (S, A) (add (Propose g cmd) S, A)
| step_gcdone h g args reply cmd S A :
    AskDelete h g args ∈ msgs S → gcReply args reply = Some cmd →
    sys_step (S, A) (add (Propose h cmd) S, A).

(** What the controller promises about its history: numbered, ten shards, nobody at first, and a
    shard that has an owner keeps having one. *)
Record history_ok : Prop := {
  ho_num n : 0 ≤ n → Num (cfg n) = n;
  ho_len n : 0 ≤ n → zlen (Shards (cfg n)) = NShards;
  ho_start : cfg 0 = DefaultConfig;
  ho_kept n s : 0 ≤ n → owner (cfg n) s ≠ 0 → owner (cfg (n + 1)) s ≠ 0;
}.

Abbreviation own n s := (owner (cfg n) s).
Abbreviation cnum r := (Num (currentConfig r)).
Implicit Types (S : Sys) (A : Store) (r : Replica).

Definition num S (g : Z) : Z := match now S !! g with Some r => cnum r | None => -1 end.

(** What the status of a shard means. *)
Definition status_ok (g n : Z) r (s : Z) : Prop :=
  status r s = STATUS_SERVING ∧ (own n s ≠ g → data r s = ∅) ∨
  status r s = STATUS_PULLING ∧ 1 ≤ n ∧ own n s = g ∧ own (n - 1) s ≠ 0 ∧ own (n - 1) s ≠ g ∧ data r s = ∅ ∨
  status r s = STATUS_GC ∧ 1 ≤ n ∧ own n s = g ∧ own (n - 1) s ≠ 0 ∧ own (n - 1) s ≠ g ∨
  status r s = STATUS_BEPULLING ∧ 1 ≤ n ∧ own (n - 1) s = g ∧ own n s ≠ 0 ∧ own n s ≠ g.

Record view_ok (g : Z) r : Prop := {
  vo_ok : replica_ok r;
  vo_gid : gid r = g;
  vo_g : g ≠ 0;
  vo_num : 0 ≤ cnum r;
  vo_cur : currentConfig r = cfg (cnum r);
  vo_last : 1 ≤ cnum r → lastConfig r = cfg (cnum r - 1);
  vo_status s : in_range s → status_ok g (cnum r) r s;
}.

(** A later state of the same group. *)
Definition status_le (a b : string) : Prop :=
  a = b ∨ b = STATUS_SERVING ∧ (a = STATUS_PULLING ∨ a = STATUS_GC ∨ a = STATUS_BEPULLING) ∨
  a = STATUS_PULLING ∧ b = STATUS_GC.
Definition view_le r r' : Prop :=
  cnum r ≤ cnum r' ∧
  (cnum r = cnum r' → ∀ s, in_range s → status_le (status r s) (status r' s) ∧
     (status r' s = STATUS_BEPULLING → data r s = data r' s)).

(** [h] has not got shard [s] of configuration [n] yet. *)
Definition not_received S (h n s : Z) : Prop :=
  num S h < n ∨ num S h = n ∧ ∃ r, now S !! h = Some r ∧ status r s = STATUS_PULLING.

(** [g] served [s] throughout configuration [m], or serves it now. *)
Definition tenure S (g m s : Z) : Prop :=
  g ≠ 0 ∧ own m s = g ∧ 0 ≤ m ∧
  (m < num S g ∨ m = num S g ∧ ∃ r, now S !! g = Some r ∧ serves r s = true).

(** The shard [s] changes hands from [g] to [h] in configuration [n]. *)
Definition handover (g h n s : Z) : Prop :=
  1 ≤ n ∧ in_range s ∧ own (n - 1) s = g ∧ own n s = h ∧ g ≠ 0 ∧ h ≠ 0 ∧ g ≠ h.

Definition cmd_inv S A (g : Z) (cmd : Command) : Prop :=
  match cmd with
  | SHD_OPERATION _ => False
  | SHD_Configuration c => ∃ n, c = cfg n ∧ 1 ≤ n ∧ n ≤ num S g + 1 ∧
      (n = num S g + 1 → ∀ r s, now S !! g = Some r → in_range s → status r s = STATUS_SERVING)
  | SHD_InsertShards reply => ∀ s d, so_Shards reply !! s = Some d →
      ∃ g0, handover g0 g (so_ConfigNum reply) s ∧ so_ConfigNum reply ≤ num S g0 ∧
        (not_received S g (so_ConfigNum reply) s → d = A s)
  | SHD_DeleteShards args => ∀ s, s ∈ ShardIds args →
      ∃ g0 h, handover g0 h (ConfigNum args) s ∧ ~ not_received S h (ConfigNum args) s
  | SHD_EmptyEntry => True
  end.

Definition msg_inv S A (m : Msg) : Prop :=
  match m with
  | Propose g cmd => cmd_inv S A g cmd
  | AskPull h g args => ∀ s, s ∈ ShardIds args → handover g h (ConfigNum args) s
  | AskDelete h g args => ∀ s, s ∈ ShardIds args →
      handover g h (ConfigNum args) s ∧ ~ not_received S h (ConfigNum args) s
  end.

Record Inv S A : Prop := {
  inv_now g r : now S !! g = Some r → view_ok g r;
  inv_past g r : (g, r) ∈ past S → view_ok g r ∧ ∃ r', now S !! g = Some r' ∧ view_le r r';
  inv_msgs m : m ∈ msgs S → msg_inv S A m;
  inv_tenure g m s : in_range s → tenure S g m s →
    ∀ j, 0 ≤ j ≤ m → own j s ≠ 0 → own j s ≠ g → j < num S (own j s);
  inv_served g r s : in_range s → now S !! g = Some r → serves r s = true → data r s = A s;
  inv_frozen g h n s r : handover g h n s → not_received S h n s → now S !! g = Some r → n ≤ cnum r →
    cnum r = n ∧ status r s = STATUS_BEPULLING ∧ data r s = A s;
  inv_unused s : in_range s → A s = ∅ ∨ ∃ g m, tenure S g m s;
}.

(** ** Later states *)
Section facts.
Context (hist : history_ok).

Lemma num_put g r S x : num (put g r S) x = if decide (x = g) then cnum r else num S x.
Proof. unfold num. simpl. case_decide; [subst; by rewrite lookup_insert_eq|]. by rewrite lookup_insert_ne. Qed.

Lemma num_now g r S : now S !! g = Some r → num S g = cnum r.
Proof. unfold num. by intros ->. Qed.

Lemma status_le_serving b : status_le STATUS_SERVING b → b = STATUS_SERVING.
Proof. intros [<-|[[-> _]|[Heq _]]]; [done|done|discriminate Heq]. Qed.
Lemma status_le_pulling a : status_le a STATUS_PULLING → a = STATUS_PULLING.
Proof. intros [->|[[Heq _]|[_ Heq]]]; [done|discriminate Heq|discriminate Heq]. Qed.
Lemma status_le_bepulling a : status_le a STATUS_BEPULLING → a = STATUS_BEPULLING.
Proof. intros [->|[[Heq _]|[_ Heq]]]; [done|discriminate Heq|discriminate Heq]. Qed.
Lemma status_le_gc b : status_le STATUS_GC b → b = STATUS_SERVING ∨ b = STATUS_GC.
Proof. intros [<-|[[-> _]|[Heq _]]]; [by right|by left|discriminate Heq]. Qed.
Lemma status_le_trans a b c : status_le a b → status_le b c → status_le a c.
Proof.
  intros [->|[[-> Ha]|[-> ->]]] Hbc; [done| |].
  - apply status_le_serving in Hbc as ->. right; left. auto.
  - destruct (status_le_gc _ Hbc) as [-> | ->]; [right; left; auto|by right; right].
Qed.

Lemma view_le_refl r : view_le r r.
Proof. split; [lia|]. intros _ s _. split; [by left|done]. Qed.

Lemma view_le_trans r1 r2 r3 : view_le r1 r2 → view_le r2 r3 → view_le r1 r3.
Proof.
  intros [Hn1 Hs1] [Hn2 Hs2]. split; [lia|]. intros Heq s Hr.
  destruct (Hs1 ltac:(lia) s Hr) as [Hle1 Hd1]. destruct (Hs2 ltac:(lia) s Hr) as [Hle2 Hd2].
  split; [by eapply status_le_trans|]. intros Hb. rewrite Hb in Hle2. apply status_le_bepulling in Hle2.
  rewrite Hd1, Hd2 by done. done.
Qed.

Lemma serves_iff g r s :
  view_ok g r → serves r s = true ↔ own (cnum r) s = g ∧ (status r s = STATUS_SERVING ∨ status r s = STATUS_GC).
Proof.
  intros [_ Hg _ _ Hc _ _]. unfold serves. rewrite Hg, <-Hc.
  rewrite andb_true_iff, orb_true_iff, Z.eqb_eq, !bool_decide_eq_true. done.
Qed.

(** Owners do not disappear. *)
Lemma own_kept m n s : 0 ≤ m ≤ n → own m s ≠ 0 → own n s ≠ 0.
Proof.
  intros [H0 Hmn] Hm. replace n with (m + Z.of_nat (Z.to_nat (n - m))) by lia.
  induction (Z.to_nat (n - m)) as [|k IH]; [by rewrite Z.add_0_r|].
  replace (m + Z.of_nat (Datatypes.S k)) with (m + Z.of_nat k + 1) by lia. apply (ho_kept hist); [lia|done].
Qed.

Section later.
Context S A (g : Z) r r'.
Context (HI : Inv S A) (Hg : now S !! g = Some r) (Hok' : view_ok g r') (Hle : view_le r r').

Lemma num_mono x : num S x ≤ num (put g r' S) x.
Proof. rewrite num_put. case_decide; [|lia]. subst. rewrite (num_now _ r) by done. apply Hle. Qed.

Lemma nr_mono h n s : in_range s → not_received (put g r' S) h n s → not_received S h n s.
Proof.
  intros Hs. unfold not_received. rewrite num_put. simpl. destruct (decide (h = g)) as [->|Hne].
  2: { rewrite lookup_insert_ne by done. done. }
  rewrite lookup_insert_eq, (num_now _ r) by done. destruct Hle as [Hn Hst].
  intros [?|(Hn' & r'' & [= <-] & Hp)]; [left; lia|]. destruct (decide (cnum r = n)) as [Heq|]; [|left; lia].
  right. split; [done|]. exists r. split; [done|]. destruct (Hst ltac:(lia) s Hs) as [Hsl _].
  rewrite Hp in Hsl. by apply status_le_pulling.
Qed.

Lemma tenure_mono x m s : in_range s → tenure S x m s → tenure (put g r' S) x m s.
Proof.
  intros Hs (Hx & Ho & H0 & Ht). split_and!; [done..|]. rewrite num_put. simpl.
  destruct (decide (x = g)) as [->|Hne]; [|rewrite lookup_insert_ne by done; done].
  rewrite lookup_insert_eq. rewrite (num_now _ r) in Ht by done. destruct Hle as [Hn Hst].
  destruct Ht as [?|(-> & r0 & Hr0 & Hserve)]; [left; lia|]. rewrite Hg in Hr0. injection Hr0 as <-.
  destruct (decide (cnum r = cnum r')) as [Heq|]; [|left; lia]. right. split; [done|]. eexists. split; [done|].
  apply (serves_iff g) in Hserve as [Hown Hserve]; [|by eapply inv_now].
  apply (serves_iff g); [done|]. rewrite <-Heq. split; [done|]. destruct (Hst Heq s Hs) as [Hsl _].
  destruct Hserve as [Heq'|Heq']; rewrite Heq' in Hsl; [left; by apply status_le_serving|by apply status_le_gc].
Qed.

Lemma cmd_inv_mono x cmd : cmd_inv S A x cmd → cmd_inv (put g r' S) A x cmd.
Proof.
  pose proof (num_mono x) as Hx. destruct cmd as [|c|reply|args|]; simpl; try done.
  - intros (n & -> & Hn & Hle' & Hsv). exists n. split_and!; [done|done|lia|]. intros Heq r0 s Hr0 Hs.
    destruct (decide (x = g)) as [->|Hne]; [|rewrite lookup_insert_ne in Hr0 by done; apply (Hsv ltac:(lia) r0 s)];
      [|done|done]. rewrite lookup_insert_eq in Hr0. injection Hr0 as <-.
    rewrite num_put, decide_True in Heq, Hx by done. rewrite (num_now _ r) in * by done.
    destruct Hle as [_ Hst]. destruct (Hst ltac:(lia) s Hs) as [Hsl _].
    rewrite (Hsv ltac:(lia) r s Hg Hs) in Hsl. by apply status_le_serving.
  - intros Hr s d Hd. destruct (Hr s d Hd) as (g0 & Hh & Hn & Hnr). exists g0. pose proof (num_mono g0).
    split_and!; [done|lia|]. intros ?. apply Hnr. apply nr_mono; [|done]. by destruct Hh as (_ & ? & _).
  - intros Hd s Hs. destruct (Hd s Hs) as (g0 & h & Hh & Hnr). exists g0, h. split; [done|].
    intros ?. apply Hnr, nr_mono; [|done]. by destruct Hh as (_ & ? & _).
Qed.

Lemma msg_inv_mono m : msg_inv S A m → msg_inv (put g r' S) A m.
Proof.
  destruct m as [x cmd|h x args|h x args]; simpl; [apply cmd_inv_mono|done|].
  intros Hd s Hs. destruct (Hd s Hs) as [Hh Hnr]. split; [done|].
  intros ?. apply Hnr, nr_mono; [|done]. by destruct Hh as (_ & ? & _).
Qed.

(** The parts of the invariant a later state of [g] keeps without further thought. *)
Lemma inv_past_put x rx :
  (x, rx) ∈ past (put g r' S) → view_ok x rx ∧ ∃ r1, now (put g r' S) !! x = Some r1 ∧ view_le rx r1.
Proof.
  simpl. intros [[= -> ->]|Hin]%elem_of_cons.
  - split; [done|]. exists r'. rewrite lookup_insert_eq. split; [done|apply view_le_refl].
  - destruct (inv_past _ _ HI _ _ Hin) as (Hv & r1 & Hr1 & Hl1). split; [done|].
    destruct (decide (x = g)) as [->|Hne].
    + rewrite Hg in Hr1. injection Hr1 as <-. exists r'. rewrite lookup_insert_eq. split; [done|].
      by eapply view_le_trans.
    + exists r1. by rewrite lookup_insert_ne.
Qed.

Lemma inv_now_put x rx : now (put g r' S) !! x = Some rx → view_ok x rx.
Proof.
  simpl. rewrite lookup_insert_Some. intros [[<- <-]|[_ Hx]]; [done|]. by eapply inv_now.
Qed.

Lemma Inv_put :
  (∀ m s, in_range s → tenure (put g r' S) g m s → tenure S g m s ∨
     ∀ j, 0 ≤ j ≤ m → own j s ≠ 0 → own j s ≠ g → j < num S (own j s)) →
  (∀ s, in_range s → serves r' s = true → data r' s = A s) →
  (∀ h n s, handover g h n s → not_received S h n s → n ≤ cnum r' →
     cnum r' = n ∧ status r' s = STATUS_BEPULLING ∧ data r' s = A s) →
  Inv (put g r' S) A.
Proof.
  intros Ht Hd Hf. split.
  - apply inv_now_put.
  - apply inv_past_put.
  - simpl. intros m Hm. apply msg_inv_mono. by eapply inv_msgs.
  - intros x m s Hs Htx j Hj Ho1 Ho2. pose proof (num_mono (own j s)).
    enough (j < num S (own j s)) by lia. destruct (decide (x = g)) as [->|Hne].
    + destruct (Ht m s Hs Htx) as [Htx'|Hall]; [|auto]. by eapply (inv_tenure _ _ HI).
    + eapply (inv_tenure _ _ HI x m s); try done. destruct Htx as (? & ? & ? & Htx). split_and!; try done.
      rewrite num_put, decide_False in Htx by done. simpl in Htx. by rewrite lookup_insert_ne in Htx by done.
  - simpl. intros x rx s Hs. rewrite lookup_insert_Some. intros [[<- <-]|[_ Hx]]; [by apply Hd|].
    by eapply inv_served.
  - simpl. intros x h n s rx Hh Hnr. apply nr_mono in Hnr; [|by destruct Hh as (_ & ? & _)].
    rewrite lookup_insert_Some. intros [[<- <-]|[_ Hx]]; [by eapply Hf|]. by eapply inv_frozen.
  - intros s Hs. destruct (inv_unused _ _ HI s Hs) as [?|(x & m & Htx)]; [by left|]. right.
    exists x, m. by apply tenure_mono.
Qed.
End later.

(** ** Exclusion *)

(** A shard in two statuses. *)
Ltac clash :=
  match goal with
  | H1 : status ?r ?s = ?a, H2 : status ?r ?s = ?b |- _ => rewrite H1 in H2; discriminate H2
  end.

Lemma serves_tenure S A g r s :
  Inv S A → now S !! g = Some r → serves r s = true → tenure S g (cnum r) s.
Proof.
  intros HI Hg Hs. pose proof (inv_now _ _ HI _ _ Hg) as Hv.
  pose proof (proj1 (serves_iff g r s Hv) Hs) as [Ho _]. destruct Hv.
  split_and!; [done..|]. right. split; [by rewrite (num_now _ r)|eauto].
Qed.

Lemma serves_unique S A g1 g2 r1 r2 s :
  Inv S A → in_range s → now S !! g1 = Some r1 → now S !! g2 = Some r2 →
  serves r1 s = true → serves r2 s = true → g1 = g2.
Proof.
  assert (∀ g1 g2 r1 r2, Inv S A → in_range s → now S !! g1 = Some r1 → now S !! g2 = Some r2 →
    serves r1 s = true → serves r2 s = true → cnum r1 ≤ cnum r2 → g1 = g2) as Hwlog.
  { clear. intros g1 g2 r1 r2 HI Hr H1 H2 Hs1 Hs2 Hle. destruct (decide (g1 = g2)) as [|Hne]; [done|].
    pose proof (serves_tenure _ _ _ _ _ HI H1 Hs1) as (Hg1 & Ho1 & H0 & _).
    pose proof (serves_tenure _ _ _ _ _ HI H2 Hs2) as Ht2.
    pose proof (inv_tenure _ _ HI _ _ _ Hr Ht2 (cnum r1)) as Hlt. rewrite Ho1, (num_now _ r1) in Hlt by done.
    specialize (Hlt ltac:(lia) ltac:(done) ltac:(done)). lia. }
  intros HI Hr H1 H2 Hs1 Hs2. destruct (Z.le_ge_cases (cnum r1) (cnum r2)); [eauto|]. symmetry. eauto.
Qed.

(** While a shard is on its way nobody serves it. *)
Lemma serves_not_moving S A g r s g0 h n :
  Inv S A → in_range s → now S !! g = Some r → serves r s = true →
  handover g0 h n s → n ≤ num S g0 → ~ not_received S h n s.
Proof.
  intros HI Hr Hg Hs (H1 & _ & Ho0 & Hoh & Hg0 & Hh & Hne) Hn Hnr.
  pose proof (serves_tenure _ _ _ _ _ HI Hg Hs) as Ht. pose proof Ht as (Hgz & Ho & H0 & _).
  pose proof (num_now _ _ _ Hg) as Hnum.
  assert (tenure S g0 (n - 1) s) as Ht0 by (split_and!; [done|done|lia|left; lia]).
  assert (num S h ≤ n) as Hle by (destruct Hnr as [?|[? _]]; lia).
  destruct (decide (n ≤ cnum r)) as [Hnm|Hnm].
  - destruct (decide (g = h)) as [->|Hgh].
    + destruct Hnr as [Hlt|(_ & r0 & Hr0 & Hp)]; [lia|]. rewrite Hg in Hr0. injection Hr0 as <-.
      apply (serves_iff h) in Hs as [_ [Hs|Hs]]; [clash|clash|by eapply inv_now].
    + pose proof (inv_tenure _ _ HI _ _ _ Hr Ht n ltac:(lia)) as Hlt. rewrite Hoh in Hlt.
      specialize (Hlt Hh ltac:(done)). lia.
  - destruct (decide (g = g0)) as [->|Hgg]; [lia|].
    pose proof (inv_tenure _ _ HI _ _ _ Hr Ht0 (cnum r) ltac:(lia)) as Hlt. rewrite Ho in Hlt.
    specialize (Hlt Hgz Hgg). lia.
Qed.

(** ** Commands that move shards *)
Inductive moved S A (g : Z) r r' (s : Z) : Prop :=
| mv_same : shard r' s = shard r s → moved S A g r r' s
| mv_got g0 :
    status r s = STATUS_PULLING → handover g0 g (cnum r) s → cnum r ≤ num S g0 →
    shard r' s = mkShard (A s) STATUS_GC → moved S A g r r' s
| mv_done : status r s = STATUS_GC → shard r' s = set_status STATUS_SERVING (shard r s) → moved S A g r r' s
| mv_gone :
    status r s = STATUS_BEPULLING → ~ not_received S (own (cnum r) s) (cnum r) s →
    shard r' s = NewShard → moved S A g r r' s.

Section moving.
Context S A (g : Z) r r'.
Context (HI : Inv S A) (Hg : now S !! g = Some r) (Hok' : replica_ok r').
Context (Hgid : gid r' = gid r) (Hcur : currentConfig r' = currentConfig r) (Hlast : lastConfig r' = lastConfig r).
Context (Hmv : ∀ s, in_range s → moved S A g r r' s).

Lemma moved_view_ok : view_ok g r'.
Proof.
  pose proof (inv_now _ _ HI _ _ Hg) as [Hok Hgg Hgz Hn Hc Hl Hst].
  split; rewrite ?Hcur, ?Hlast, ?Hgid; try done. intros s Hs. specialize (Hst s Hs). unfold status_ok in *.
  destruct (Hmv s Hs) as [-> |g0 Hp Hh _ -> |Hgc -> |Hb _ ->]; [done| | |].
  - right; right; left. destruct Hh as (? & _ & <- & ? & ? & ? & ?). by split_and!.
  - rewrite Hgc in Hst. destruct Hst as [[Heq _]|[[Heq _]|[(_ & H1 & Ho & _)|[Heq _]]]]; try discriminate Heq.
    left. done.
  - left. done.
Qed.

Lemma moved_view_le : view_le r r'.
Proof.
  split; rewrite ?Hcur; [lia|]. intros _ s Hs. unfold status_le.
  destruct (Hmv s Hs) as [-> |g0 Hp Hh _ -> |Hgc -> |Hb _ ->]; simpl; (split; [rewrite ?Hp, ?Hgc, ?Hb; tauto|]);
    [done|intros Heq; discriminate Heq..].
Qed.

Lemma Inv_moved : Inv (put g r' S) A.
Proof.
  pose proof (inv_now _ _ HI _ _ Hg) as Hv. pose proof moved_view_ok as Hv'.
  assert (∀ s, in_range s → serves r' s = true → serves r s = true ∧ data r' s = data r s ∨
    data r' s = A s ∧ ∃ g0, handover g0 g (cnum r) s ∧ cnum r ≤ num S g0) as Hsv.
  { intros s Hs Hs'. rewrite (serves_iff g r s Hv). apply (serves_iff g r' s Hv') in Hs' as [Ho Hs'].
    rewrite Hcur in Ho. destruct (Hmv s Hs) as [Heq|g0 Hp Hh Hle Heq|Hgc Heq|Hb Hnr Heq]; rewrite Heq in Hs'; rewrite ?Heq.
    - left. auto.
    - right. eauto.
    - left. auto.
    - pose proof (vo_status _ _ Hv s Hs) as Hst. unfold status_ok in Hst. rewrite Hb in Hst.
      destruct Hst as [[Heq' _]|[[Heq' _]|[[Heq' _]|(_ & _ & _ & _ & ?)]]]; try discriminate Heq'; done. }
  apply (Inv_put S A g r r' HI Hg Hv' moved_view_le).
  - intros m s Hs (Hgz & Ho & H0 & Ht). rewrite num_put, decide_True, Hcur in Ht by done. simpl in Ht.
    rewrite lookup_insert_eq in Ht.
    destruct Ht as [Hlt|(-> & r1 & [= <-] & Hserve)].
    { left. split_and!; [done..|left]. by rewrite (num_now _ r). }
    destruct (Hsv s Hs Hserve) as [[Hserve' _]|(_ & g0 & (H1 & _ & Ho0 & _ & Hg0 & _ & Hne) & Hle)].
    { left. by eapply serves_tenure. }
    right. intros j Hj Hj0 Hjg. assert (tenure S g0 (cnum r - 1) s) as Ht0 by (split_and!; [done|done|lia|left; lia]).
    destruct (decide (j = cnum r)) as [-> |]; [done|]. destruct (decide (own j s = g0)) as [-> |Hjn]; [lia|].
    apply (inv_tenure _ _ HI _ _ _ Hs Ht0); [lia|done|done].
  - intros s Hs Hserve. destruct (Hsv s Hs Hserve) as [[Hserve' ->]|[-> _]]; [by eapply inv_served|done].
  - intros h n s Hh Hnr Hle. assert (in_range s) as Hs by apply Hh. rewrite Hcur in *.
    destruct (inv_frozen _ _ HI _ _ _ _ _ Hh Hnr Hg Hle) as (Hn & Hb & Hd). split; [done|].
    destruct (Hmv s Hs) as [-> |g0 Hp _ _ _|Hgc _|_ Hnr' _]; [done|clash|clash|].
    destruct Hnr'. rewrite Hn. by destruct Hh as (_ & _ & _ & -> & _).
Qed.
End moving.

Lemma Inv_same S A g r : Inv S A → now S !! g = Some r → Inv (put g r S) A.
Proof. intros HI Hg. apply (Inv_moved S A g r r); try done; [eapply inv_now; eauto|]. intros s _. by apply mv_same. Qed.

Lemma Inv_insert S A g r reply err r' :
  Inv S A → now S !! g = Some r → cmd_inv S A g (SHD_InsertShards reply) →
  applyInsertShards reply r = Some (err, r') → Inv (put g r' S) A.
Proof.
  intros HI Hg Hc Happ. pose proof (inv_now _ _ HI _ _ Hg) as Hv. simpl in Hc.
  destruct (applyInsertShards_spec reply r) as (err' & r1 & Happ' & Hok & Hgid & Hcur & Hlast & Hold & Hins);
    [apply Hv|intros s [d Hd]; destruct (Hc s d Hd) as (g0 & Hh & _); apply Hh|].
  rewrite Happ in Happ'. injection Happ' as -> <-. destruct (decide (so_ConfigNum reply = cnum r)) as [Hn|Hn].
  2: { rewrite Hold by done. by apply Inv_same. }
  apply (Inv_moved S A g r r'); try done. intros s Hs. destruct (Hins s) as [?|(d & Hd & Hp & Heq)]; [by apply mv_same|].
  destruct (Hc s d Hd) as (g0 & Hh & Hle & HA). rewrite Hn in *. eapply mv_got; try done. rewrite Heq, HA.
  - destruct (vo_status _ _ Hv s Hs) as [[? _]|[(_ & _ & _ & _ & _ & ->)|[[? _]|[? _]]]]; try clash.
    by rewrite (right_id_L ∅ (∪)).
  - right. rewrite (num_now _ r) by done. eauto.
Qed.

Lemma Inv_delete S A g r args err r' :
  Inv S A → now S !! g = Some r → cmd_inv S A g (SHD_DeleteShards args) →
  applyDeleteShards args r = Some (err, r') → Inv (put g r' S) A.
Proof.
  intros HI Hg Hc Happ. pose proof (inv_now _ _ HI _ _ Hg) as Hv. simpl in Hc.
  destruct (applyDeleteShards_spec args r) as (r1 & Happ' & Hok & (Hgid & Hcur & Hlast & _) & Hold & Hdel);
    [apply Hv|intros s Hs; destruct (Hc s Hs) as (g0 & h & Hh & _); apply Hh|].
  rewrite Happ in Happ'. injection Happ' as -> <-. destruct (decide (ConfigNum args = cnum r)) as [Hn|Hn].
  2: { rewrite Hold by done. by apply Inv_same. }
  apply (Inv_moved S A g r r'); try done. intros s Hs.
  destruct (Hdel s) as [?|[(_ & ? & ?)|(Hin & ? & ?)]]; [by apply mv_same|by apply mv_done|].
  apply mv_gone; try done. destruct (Hc s Hin) as (g0 & h & (_ & _ & _ & Ho & _) & Hnr). rewrite Hn in *. by rewrite Ho.
Qed.

(** ** The next configuration *)
Section configuration.
Context S A (g : Z) r r'.
Context (HI : Inv S A) (Hg : now S !! g = Some r) (Hok' : replica_ok r').
Context (Hserving : ∀ s, in_range s → status r s = STATUS_SERVING).
Context (Hgid : gid r' = gid r) (Hcur : currentConfig r' = cfg (cnum r + 1)) (Hlast : lastConfig r' = currentConfig r).
Context (Hnew : ∀ s, in_range s → shard r' s = set_status (new_status r (cfg (cnum r + 1)) s) (shard r s)).

Lemma config_num : cnum r' = cnum r + 1.
Proof. rewrite Hcur. apply (ho_num hist). pose proof (vo_num _ _ (inv_now _ _ HI _ _ Hg)). lia. Qed.

(** The three things that can happen to a shard. *)
Lemma config_cases s :
  in_range s → let c := own (cnum r) s in let m := own (cnum r + 1) s in
  data r' s = data r s ∧
  (c ≠ 0 ∧ c ≠ g ∧ m = g ∧ status r' s = STATUS_PULLING ∨
   c = g ∧ m ≠ 0 ∧ m ≠ g ∧ status r' s = STATUS_BEPULLING ∨
   status r' s = STATUS_SERVING ∧ (m = g → c = g ∨ c = 0) ∧ (m ≠ g → c ≠ g)).
Proof.
  intros Hs c m. pose proof (inv_now _ _ HI _ _ Hg) as [_ Hgg Hgz Hn0 Hc _ _].
  rewrite Hnew by done. split; [done|]. unfold set_status, new_status. cbn [Status].
  rewrite Hserving, Hgg by done.
  assert (owner (currentConfig r) s = c) as -> by (unfold c; by rewrite <-Hc). fold m. pose proof (ho_kept hist _ s Hn0) as Hk. fold c m in Hk. clearbody c m.
  destruct (c =? g) eqn:Hcg, (m =? g) eqn:Hmg, (c =? 0) eqn:Hc0, (m =? 0) eqn:Hm0; cbn [negb andb];
    apply Z.eqb_eq in Hcg || apply Z.eqb_neq in Hcg; apply Z.eqb_eq in Hmg || apply Z.eqb_neq in Hmg;
    apply Z.eqb_eq in Hc0 || apply Z.eqb_neq in Hc0; apply Z.eqb_eq in Hm0 || apply Z.eqb_neq in Hm0;
    first [exfalso; lia | left; split_and!; [lia..|done] | right; left; split_and!; [lia..|done]
      | right; right; split_and!; [done|lia|lia]].
Qed.

Lemma config_view_ok : view_ok g r'.
Proof.
  pose proof (inv_now _ _ HI _ _ Hg) as [Hok Hgg Hgz Hn Hc Hl Hst]. pose proof config_num as Hnum.
  split; [done|congruence|done|lia| | |].
  - by rewrite Hcur, (ho_num hist) by lia.
  - intros _. rewrite Hlast, Hnum. by replace (cnum r + 1 - 1) with (cnum r) by lia.
  - intros s Hs. destruct (config_cases s Hs) as [Hd Hcs]. specialize (Hst s Hs).
    destruct Hst as [[_ Hst]|[[Heq _]|[[Heq _]|[Heq _]]]]; try (rewrite Hserving in Heq by done; discriminate Heq).
    unfold status_ok. rewrite Hnum, Hd. replace (cnum r + 1 - 1) with (cnum r) by lia.
    destruct Hcs as [(? & ? & ? & ->)|[(? & ? & ? & ->)|(-> & _ & ?)]].
    + right; left. split_and!; [done|lia|done..|auto].
    + right; right; right. split_and!; [done|lia|done..].
    + left. auto.
Qed.

Lemma serves_before s : in_range s → own (cnum r) s = g → serves r s = true.
Proof. intros Hs Ho. apply (serves_iff g); [by eapply inv_now|]. auto. Qed.

(** A shard served after the step was served before it, or never had an owner. *)
Lemma config_serves s :
  in_range s → serves r' s = true → own (cnum r) s = g ∨ ∀ j, 0 ≤ j ≤ cnum r → own j s = 0.
Proof.
  intros Hs Hserve. apply (serves_iff g _ _ config_view_ok) in Hserve as [Ho Hst]. rewrite config_num in Ho.
  destruct (config_cases s Hs) as [_ [(_ & _ & _ & Heq)|[(_ & _ & _ & Heq)|(_ & Hm & _)]]];
    try (rewrite Heq in Hst; by destruct Hst as [Hst|Hst]; discriminate Hst).
  destruct (Hm Ho) as [?|H0]; [by left|]. right. intros j Hj. destruct (decide (own j s = 0)) as [|Hne]; [done|].
  by destruct (own_kept j (cnum r) s Hj Hne).
Qed.

(** A shard that never had an owner is empty. *)
Lemma config_unused s :
  in_range s → own (cnum r + 1) s = g → (∀ j, 0 ≤ j ≤ cnum r → own j s = 0) → A s = ∅.
Proof.
  intros Hs Ho Hnone. pose proof (inv_now _ _ HI _ _ Hg) as Hv. pose proof (vo_num _ _ Hv) as Hn0.
  destruct (inv_unused _ _ HI s Hs) as [?|(x & m & Ht)]; [done|]. exfalso. pose proof Ht as (Hx & Hox & Hm0 & Hm).
  destruct (decide (m ≤ cnum r)) as [Hle|Hgt]; [by rewrite Hnone in Hox by lia|].
  destruct (decide (x = g)) as [-> |Hne]; [rewrite (num_now _ r) in Hm by done; destruct Hm as [?|[? _]]; lia|].
  pose proof (inv_tenure _ _ HI _ _ _ Hs Ht (cnum r + 1) ltac:(lia)) as Hlt. rewrite Ho, (num_now _ r) in Hlt by done.
  specialize (Hlt (vo_g _ _ Hv) ltac:(done)). lia.
Qed.

Lemma Inv_config : Inv (put g r' S) A.
Proof.
  pose proof (inv_now _ _ HI _ _ Hg) as Hv. pose proof config_view_ok as Hv'. pose proof config_num as Hnum.
  pose proof (num_now _ _ _ Hg) as HnS. pose proof (vo_num _ _ Hv) as Hn0.
  apply (Inv_put S A g r r' HI Hg Hv'); [split; [lia|intros; lia]| | |].
  - intros m s Hs (Hgz & Ho & H0 & Ht). rewrite num_put, decide_True in Ht by done. simpl in Ht.
    rewrite lookup_insert_eq in Ht.
    destruct (decide (m ≤ cnum r)) as [Hle|Hgt].
    { left. split_and!; [done..|]. destruct (decide (m = cnum r)) as [-> |]; [|left; lia]. right.
      split; [done|]. exists r. split; [done|]. by apply serves_before. }
    right. destruct Ht as [?|(-> & r1 & [= <-] & Hserve)]; [lia|]. intros j Hj Hj0 Hjg.
    destruct (decide (j = cnum r')) as [-> |]; [done|].
    destruct (config_serves s Hs Hserve) as [Hc|Hnone]; [|by rewrite Hnone in Hj0 by lia].
    apply (inv_tenure _ _ HI g (cnum r) s Hs); [|lia|done|done]. eapply serves_tenure; [done..|]. by apply serves_before.
  - intros s Hs Hserve. destruct (config_cases s Hs) as [-> _].
    destruct (config_serves s Hs Hserve) as [Hc|Hnone].
    { eapply (inv_served _ _ HI); [done..|]. by apply serves_before. }
    apply (serves_iff g _ _ Hv') in Hserve as [Ho _]. rewrite Hnum in Ho. rewrite (config_unused s) by done.
    destruct (vo_status _ _ Hv s Hs) as [[_ Hd]|[[Heq _]|[[Heq _]|[Heq _]]]];
      try (rewrite Hserving in Heq by done; discriminate Heq).
    apply Hd. rewrite Hnone by lia. intros ?. by apply (vo_g _ _ Hv).
  - intros h n s Hh Hnr Hle. assert (in_range s) as Hs by apply Hh. rewrite Hnum in *.
    destruct (decide (n ≤ cnum r)) as [Hle'|].
    { destruct (inv_frozen _ _ HI _ _ _ _ _ Hh Hnr Hg Hle') as (_ & Hb & _). rewrite Hserving in Hb by done. discriminate Hb. }
    replace n with (cnum r + 1) in * by lia. destruct Hh as (_ & _ & Ho & Ho' & Hgz & Hhz & Hne).
    replace (cnum r + 1 - 1) with (cnum r) in Ho by lia. split; [done|].
    destruct (config_cases s Hs) as [-> [(_ & ? & _)|[(_ & _ & _ & ->)|(_ & _ & Hc)]]]; [done| |].
    + split; [done|]. eapply (inv_served _ _ HI); [done..|]. by apply serves_before.
    + destruct Hc; [congruence|done].
Qed.
End configuration.

(** ** Client operations *)
Section operation.
Context S A (g : Z) r r' (s0 : Z).
Context (HI : Inv S A) (Hg : now S !! g = Some r) (Hok' : replica_ok r').
Context (Hgid : gid r' = gid r) (Hcur : currentConfig r' = currentConfig r) (Hlast : lastConfig r' = lastConfig r).
Context (Hs0 : in_range s0) (Hserve : serves r s0 = true).
Context (Hst : ∀ s, status r' s = status r s) (Hdata : ∀ s, s ≠ s0 → data r' s = data r s).

Lemma op_view_ok : view_ok g r'.
Proof.
  pose proof (inv_now _ _ HI _ _ Hg) as Hv. pose proof (proj1 (serves_iff g r s0 Hv) Hserve) as [Ho Hss].
  destruct Hv as [Hok Hgg Hgz Hn Hc Hl Hsok]. split; rewrite ?Hcur, ?Hlast, ?Hgid; try done.
  intros s Hs. specialize (Hsok s Hs). unfold status_ok in *. rewrite Hst.
  destruct (decide (s = s0)) as [-> |Hne]; [|by rewrite Hdata].
  destruct Hsok as [[-> _]|[[Heq _]|[Hsok|[Heq _]]]].
  - by left.
  - rewrite Heq in Hss. by destruct Hss as [Hss|Hss]; discriminate Hss.
  - right; right; left. done.
  - rewrite Heq in Hss. by destruct Hss as [Hss|Hss]; discriminate Hss.
Qed.

Lemma op_view_le : view_le r r'.
Proof.
  split; rewrite ?Hcur; [lia|]. intros _ s Hs. rewrite Hst. split; [by left|]. intros Hb.
  destruct (decide (s = s0)) as [-> |]; [|by rewrite Hdata].
  apply (serves_iff g) in Hserve as [_ [?|?]]; [clash|clash|by eapply inv_now].
Qed.

Lemma op_num x : num (put g r' S) x = num S x.
Proof. rewrite num_put. case_decide; [|done]. subst. rewrite Hcur. by rewrite (num_now _ r). Qed.

Lemma op_tenure x m s : tenure (put g r' S) x m s → tenure S x m s.
Proof.
  unfold tenure. rewrite op_num. intros (? & ? & ? & Ht). split_and!; [done..|]. destruct Ht as [?|(-> & rx & Hx & Hsx)]; [by left|].
  right. split; [done|]. simpl in Hx. apply lookup_insert_Some in Hx as [[<- <-]|[_ Hx]]; [|by eauto].
  exists r. split; [done|]. unfold serves in *. by rewrite Hgid, Hcur, Hst in Hsx.
Qed.

Lemma op_msg m : msg_inv S A m → msg_inv (put g r' S) (store_set s0 (data r' s0) A) m.
Proof.
  intros Hm. pose proof (msg_inv_mono S A g r r' Hg op_view_le m Hm) as Hm'.
  destruct m as [x [| | reply | |]| |]; try exact Hm'. simpl in *. intros s d Hd.
  destruct (Hm' s d Hd) as (g0 & Hh & Hle & HA). exists g0. split_and!; [done..|]. intros Hnr.
  unfold store_set. case_decide as Heq; [|auto]. subst s. exfalso. rewrite op_num in Hle.
  eapply (serves_not_moving S A g r s0); [done..|]. eapply nr_mono; [done..|apply op_view_le|done|done].
Qed.

Lemma Inv_operation : Inv (put g r' S) (store_set s0 (data r' s0) A).
Proof.
  split.
  - apply (inv_now_put S A g r'); [done|apply op_view_ok].
  - eapply inv_past_put; [done..|apply op_view_ok|apply op_view_le].
  - simpl. intros m Hm. apply op_msg. by eapply inv_msgs.
  - intros x m s Hs Ht j Hj Hj0 Hjx. rewrite op_num. apply op_tenure in Ht. by eapply (inv_tenure _ _ HI).
  - simpl. intros x rx s Hs Hx Hsx. unfold store_set. apply lookup_insert_Some in Hx as [[<- <-]|[Hne Hx]].
    + case_decide; [by subst|]. rewrite Hdata by done. eapply (inv_served _ _ HI); [done..|].
      unfold serves in *. by rewrite Hgid, Hcur, Hst in Hsx.
    + case_decide as Heq; [|by eapply (inv_served _ _ HI)]. subst s. destruct Hne. by eapply (serves_unique S A).
  - intros x h n s rx Hh Hnr Hx Hle. assert (in_range s) as Hs by apply Hh.
    apply (nr_mono S g r r') in Hnr; [|done|apply op_view_le|done].
    pose proof (num_now _ _ _ Hx) as Hnx. rewrite op_num in Hnx.
    assert (s ≠ s0) as Hne.
    { intros ->. eapply (serves_not_moving S A g r s0); [done..| |done]. lia. }
    unfold store_set. rewrite decide_False by done. simpl in Hx. apply lookup_insert_Some in Hx as [[<- <-]|[_ Hx]].
    + rewrite Hcur, Hst, Hdata in * by done. by eapply (inv_frozen _ _ HI).
    + by eapply (inv_frozen _ _ HI).
  - intros s Hs. unfold store_set. case_decide as Heq.
    + subst s. right. exists g, (cnum r). eapply tenure_mono; [done..|apply op_view_ok|apply op_view_le|done|].
      by eapply serves_tenure.
    + destruct (inv_unused _ _ HI s Hs) as [?|(x & m & Ht)]; [by left|]. right. exists x, m.
      eapply tenure_mono; [done..|apply op_view_ok|apply op_view_le|done|done].
Qed.
End operation.

Lemma executed_spec op r :
  executed op r = true ↔ serves r (key2shard (Key op)) = true ∧
    (OP op = OP_GET ∨ isDuplicateRequest (ClientId op) (CommandId op) r = false).
Proof.
  unfold executed. rewrite andb_true_iff, orb_true_iff, bool_decide_eq_true, negb_true_iff. done.
Qed.

Lemma Inv_op S A g r op reply r' :
  Inv S A → now S !! g = Some r → applyOperation op r = Some (reply, r') →
  Inv (put g r' S)
    (if executed op r then store_set (key2shard (Key op)) (op_data op (A (key2shard (Key op)))) A else A).
Proof.
  intros HI Hg Happ. pose proof (inv_now _ _ HI _ _ Hg) as Hv. pose proof (key2shard_range (Key op)) as Hs.
  destruct (applyOperation_spec op r) as (reply' & r1 & Happ' & Hok & (Hgid & Hcur & Hlast & Hsame) & Hst & Hcs);
    [apply Hv|]. rewrite Happ in Happ'. injection Happ' as <- <-.
  destruct (executed op r) eqn:He.
  - apply executed_spec in He as [Hserve He].
    destruct Hcs as [(? & _)|[(_ & Hng & Hdup & _)|(_ & _ & Hd & _)]]; [congruence| |].
    { destruct He; [done|congruence]. }
    rewrite <-(inv_served _ _ HI g r _ Hs Hg Hserve), <-Hd. apply (Inv_operation S A g r r'); try done.
    + intros s. destruct (decide (s = key2shard (Key op))) as [-> |]; [done|]. by rewrite Hsame.
    + intros s Hne. by rewrite Hsame.
  - destruct Hcs as [(_ & _ & ->)|[(_ & _ & _ & -> & _)|(Hserve & _ & _ & Hx & _)]]; [by apply Inv_same..|].
    assert (executed op r = true) by (by apply executed_spec). congruence.
Qed.

(** ** Messages *)
Lemma Inv_add S A m : Inv S A → msg_inv S A m → Inv (add m S) A.
Proof.
  intros [? ? Hm ? ? ? ?] Hnew. split; try assumption. intros m' Hm'. simpl in Hm'.
  apply elem_of_cons in Hm' as [-> |Hin]; [exact Hnew|exact (Hm m' Hin)].
Qed.

Lemma past_serving S A g r s :
  Inv S A → (g, r) ∈ past S → cnum r = num S g → in_range s → status r s = STATUS_SERVING →
  ∀ r', now S !! g = Some r' → status r' s = STATUS_SERVING.
Proof.
  intros HI Hp Hn Hs Hst r' Hr'. destruct (inv_past _ _ HI _ _ Hp) as (_ & r1 & Hr1 & _ & Hle).
  rewrite Hr' in Hr1. injection Hr1 as <-. rewrite (num_now _ r') in Hn by done.
  destruct (Hle Hn s Hs) as [Hsl _]. rewrite Hst in Hsl. by apply status_le_serving.
Qed.

Lemma past_num S A g r : Inv S A → (g, r) ∈ past S → cnum r ≤ num S g.
Proof.
  intros HI Hp. destruct (inv_past _ _ HI _ _ Hp) as (_ & r1 & Hr1 & Hle & _). by rewrite (num_now _ r1).
Qed.

Lemma config_msg S A g r query cmd :
  Inv S A → (g, r) ∈ past S → (∀ n, ∃ m, 0 ≤ m ∧ query n = cfg m) → configurationAction r query = Some cmd →
  cmd_inv S A g cmd.
Proof.
  intros HI Hp Hq Hact. unfold configurationAction in Hact. destruct (canGetNextConfig r) eqn:Hcan; [|done].
  destruct (Hq (cnum r + 1)) as (m & Hm0 & Hm). rewrite Hm in Hact. rewrite (ho_num hist) in Hact by done.
  destruct (m =? cnum r + 1) eqn:Heq; [|done]. injection Hact as <-. simpl. exists m.
  pose proof (past_num _ _ _ _ HI Hp) as Hle. destruct (inv_past _ _ HI _ _ Hp) as (Hv & _).
  pose proof (vo_num _ _ Hv). split_and!; [done|lia|lia|]. intros Hm1 r' s Hr' Hs.
  eapply past_serving; try done; [lia|]. apply canGetNextConfig_spec; try done. apply Hv.
Qed.

(** The shards a group asks for, or asks to be deleted, were handed to it by the group it asks. *)
Lemma ids_handover S A h r st m g ids s :
  Inv S A → (h, r) ∈ past S → st = STATUS_PULLING ∨ st = STATUS_GC → getShardIdsByStatus st r = Some m →
  m !! g = Some ids → s ∈ ids → handover g h (cnum r) s ∧ status r s = st.
Proof.
  intros HI Hp Hor Hget Hm Hin. destruct (inv_past _ _ HI _ _ Hp) as (Hv & _).
  destruct (getShardIds_spec st r) as (m' & Hget' & Hspec); [apply Hv|]. rewrite Hget in Hget'. injection Hget' as <-.
  destruct (proj1 (Hspec s g) ltac:(eauto)) as (Hs & Hst & Ho & Hg0).
  assert (1 ≤ cnum r ∧ own (cnum r) s = h ∧ own (cnum r - 1) s ≠ h) as (H1 & Hoh & Hne).
  { destruct (vo_status _ _ Hv s Hs) as [[Heq _]|[(_ & ? & ? & _ & ? & _)|[(_ & ? & ? & _ & ?)|[Heq _]]]]; try done;
      rewrite Hst in Heq; destruct Hor as [-> | ->]; discriminate Heq. }
  rewrite (vo_last _ _ Hv) in Ho by done. pose proof (vo_g _ _ Hv). split; [|done]. split_and!; try done; congruence.
Qed.

Lemma gc_received S A h r s :
  Inv S A → (h, r) ∈ past S → in_range s → status r s = STATUS_GC → ~ not_received S h (cnum r) s.
Proof.
  intros HI Hp Hs Hst Hnr. pose proof (past_num _ _ _ _ HI Hp).
  destruct (inv_past _ _ HI _ _ Hp) as (_ & r1 & Hr1 & _ & Hle).
  destruct Hnr as [?|(Hn & r2 & Hr2 & Hpull)]; [lia|]. rewrite Hr1 in Hr2. injection Hr2 as <-.
  rewrite (num_now _ r1) in Hn by done. destruct (Hle ltac:(done) s Hs) as [Hsl _]. rewrite Hst, Hpull in Hsl.
  apply status_le_gc in Hsl as [Heq|Heq]; discriminate Heq.
Qed.

Lemma data_msg S A h g args r reply cmd :
  Inv S A → msg_inv S A (AskPull h g args) → (g, r) ∈ past S → GetShardsData true args r = Some reply →
  migrationReply (Some reply) = Some cmd → cmd_inv S A h cmd.
Proof.
  intros HI Hask Hp Hget Hmig. simpl in Hask. destruct (inv_past _ _ HI _ _ Hp) as (Hv & r1 & Hr1 & Hle & Hsame).
  unfold migrationReply in Hmig. destruct (bool_decide (so_Err reply = OK)) eqn:Herr; [|done].
  injection Hmig as <-. apply bool_decide_eq_true in Herr.
  assert (ConfigNum args ≤ cnum r) as Hn.
  { unfold GetShardsData in Hget. cbn [negb] in Hget. destruct (_ <? _) eqn:Hlt; [|lia].
    injection Hget as <-. discriminate Herr. }
  destruct (GetShardsData_spec args r) as (reply' & Hget' & _ & Hcn & _ & Hsh);
    [apply Hv|intros s Hin; apply (Hask s Hin)|done|]. rewrite Hget in Hget'. injection Hget' as <-.
  simpl. intros s d Hd. rewrite Hsh in Hd. case_decide as Hin; [|done]. injection Hd as <-. rewrite Hcn.
  exists g. pose proof (Hask s Hin) as Hh. pose proof (num_now _ _ _ Hr1). split_and!; [done|lia|].
  intros Hnr. destruct (inv_frozen _ _ HI _ _ _ _ _ Hh Hnr Hr1) as (Hn1 & Hb & <-); [lia|].
  apply Hsame; [lia|apply Hh|done].
Qed.

(** ** Every reachable state *)
Lemma fresh_shard g s : shard (fresh_replica g) s = NewShard ∧ replica_ok (fresh_replica g).
Proof.
  assert (stateMachines (fresh_replica g) = list_to_map ((λ s, (s, NewShard)) <$> zrange 0 NShards)) as Hsm
    by reflexivity.
  assert (∀ s, is_Some (stateMachines (fresh_replica g) !! s) ↔ in_range s) as Hdom.
  { intros s'. rewrite Hsm, <-not_eq_None_Some, <-not_elem_of_list_to_map, <-list_fmap_compose.
    rewrite (list_fmap_ext _ id), list_fmap_id, elem_of_zrange by done. unfold in_range.
    destruct (decide (0 ≤ s' < NShards)); tauto. }
  split.
  - unfold shard. destruct (stateMachines (fresh_replica g) !! s) as [sh|] eqn:Hs; [|done]. simpl.
    rewrite Hsm in Hs. apply elem_of_list_to_map_2, list_elem_of_fmap in Hs as (? & [= _ ->] & _). done.
  - split; [intros; by apply Hdom|intros; by apply Hdom|done|done].
Qed.

Lemma fresh_config g : gid (fresh_replica g) = g ∧ currentConfig (fresh_replica g) = DefaultConfig.
Proof. split; reflexivity. Qed.

Lemma init_now gs g r : now (init_sys gs) !! g = Some r → g ∈ gs ∧ r = fresh_replica g.
Proof.
  simpl. rewrite lookup_set_to_map by done. intros (g' & Hin & [= -> <-]). done.
Qed.

Lemma fresh_view g : g ≠ 0 → view_ok g (fresh_replica g).
Proof.
  intros Hg. destruct (fresh_shard g 0) as [_ Hok]. pose proof (fresh_shard g) as Hsh.
  destruct (fresh_config g) as [Hgid Hcur]. generalize dependent (fresh_replica g). intros r Hok Hsh Hgid Hcur.
  split; rewrite ?Hcur; [done..| | |].
  - simpl. by rewrite (ho_start hist).
  - simpl. lia.
  - intros s _. left. destruct (Hsh s) as [-> _]. done.
Qed.

Lemma Inv_init gs : 0 ∉ gs → Inv (init_sys gs) (λ _, ∅).
Proof.
  intros H0. assert (∀ g, num (init_sys gs) g ≤ 0) as Hnum.
  { intros g. unfold num. destruct (now (init_sys gs) !! g) as [r|] eqn:Hr; [|lia].
    apply init_now in Hr as [_ ->]. destruct (fresh_config g) as [_ ->]. done. }
  assert (∀ g m s, ~ tenure (init_sys gs) g m s) as Hten.
  { intros g m s (Hg & Ho & Hm & Ht). specialize (Hnum g). replace m with 0 in Ho by (destruct Ht as [?|[? _]]; lia).
    rewrite (ho_start hist) in Ho. unfold owner in Ho.
    destruct (index (Shards DefaultConfig) s) as [x|] eqn:Hi; [|done]. simpl in Ho. subst x.
    unfold index in Hi. destruct (0 <=? s); [|done]. simpl in Hi. apply list_elem_of_lookup_2 in Hi.
    simpl in Hi. set_solver. }
  assert (∀ g, g ∈ gs → g ≠ 0) as Hnz by set_solver. split.
  - intros g r [Hin ->]%init_now. by apply fresh_view, Hnz.
  - intros g r (g' & [= -> ->] & Hin)%list_elem_of_fmap. apply elem_of_elements in Hin. split; [by apply fresh_view, Hnz|].
    exists (fresh_replica g'). split; [|apply view_le_refl]. simpl. rewrite lookup_set_to_map by done. by exists g'.
  - intros m Hm. by apply elem_of_nil in Hm.
  - intros g m s _ Ht. by apply Hten in Ht.
  - intros g r s Hs [_ ->]%init_now _. by destruct (fresh_shard g s) as [-> _].
  - intros g h n s r (H1 & _) _ [_ ->]%init_now Hn. destruct (fresh_config g) as [_ Hc]. rewrite Hc in Hn. simpl in Hn. lia.
  - intros s _. by left.
Qed.

Lemma Inv_cmd S A g r cmd reply r' :
  Inv S A → now S !! g = Some r → cmd_inv S A g cmd → applyCommand cmd r = Some (reply, r') → Inv (put g r' S) A.
Proof.
  intros HI Hg Hc Happ. pose proof (inv_now _ _ HI _ _ Hg) as Hv.
  destruct cmd as [|c|sreply|args|]; simpl in Happ; [done| | | |].
  - destruct Hc as (n & -> & Hn & Hle & Hsv). destruct (decide (n = cnum r + 1)) as [-> |Hne].
    2: { unfold applyConfiguration in Happ. rewrite (ho_num hist) in Happ by lia.
         destruct (n =? cnum r + 1) eqn:He; [lia|]. injection Happ as <- <-. by apply Inv_same. }
    rewrite (num_now _ r) in Hsv by done.
    destruct (applyConfiguration_spec (cfg (cnum r + 1)) r) as (r1 & Happ' & Hok & Hgid & Hcur & Hlast & _ & Hsh);
      [apply Hv|apply (ho_len hist); lia|apply (ho_num hist); lia|].
    rewrite Happ in Happ'. injection Happ' as -> <-. apply (Inv_config S A g r r'); try done. intros. by apply Hsv.
  - by eapply Inv_insert.
  - by eapply Inv_delete.
  - injection Happ as <- <-. by apply Inv_same.
Qed.

Lemma cmd_total S A g r cmd :
  Inv S A → now S !! g = Some r → cmd_inv S A g cmd → is_Some (applyCommand cmd r).
Proof.
  intros HI Hg Hc. pose proof (inv_now _ _ HI _ _ Hg) as Hv.
  destruct cmd as [|c|reply|args|]; simpl in *; [done| | | |by eexists].
  - destruct Hc as (n & -> & Hn & _). destruct (decide (n = cnum r + 1)) as [-> |Hne].
    + destruct (applyConfiguration_spec (cfg (cnum r + 1)) r) as (r1 & -> & _); [apply Hv|apply (ho_len hist); lia
        |apply (ho_num hist); lia|by eexists].
    + unfold applyConfiguration. rewrite (ho_num hist) by lia. destruct (_ =? _) eqn:He; [lia|by eexists].
  - destruct (applyInsertShards_spec reply r) as (? & ? & -> & _); [apply Hv| |by eexists].
    intros s [d Hd]. destruct (Hc s d Hd) as (g0 & Hh & _). apply Hh.
  - destruct (applyDeleteShards_spec args r) as (? & -> & _); [apply Hv| |by eexists].
    intros s Hs. destruct (Hc s Hs) as (g0 & h & Hh & _). apply Hh.
Qed.

Lemma delete_msg S A h g args x :
  msg_inv S A (AskDelete h g args) → cmd_inv S A x (SHD_DeleteShards args).
Proof. intros Hd s Hin. destruct (Hd s Hin) as [Hh Hnr]. by exists g, h. Qed.

Lemma Inv_step S A S' A' : Inv S A → sys_step (S, A) (S', A') → Inv S' A'.
Proof.
  intros HI Hstep. inversion Hstep as [g r op reply r' ? ? Hg Happ|g r cmd reply r' ? ? Hm Hg Happ
    |g r query cmd ? ? Hp Hq Hact|h r m g ids ? ? Hp Hids Hm|h g args r reply cmd ? ? Hm Hp Hget Hmig
    |h r m g ids ? ? Hp Hids Hm|h g args r cmd ? ? Hm Hp Hdel|h g args reply cmd ? ? Hm Hrep]; subst; clear Hstep.
  - by eapply Inv_op.
  - eapply Inv_cmd; try done. by apply (inv_msgs _ _ HI (Propose g cmd)).
  - apply Inv_add; [done|]. by eapply config_msg.
  - apply Inv_add; [done|]. intros s Hin. simpl in Hin. eapply ids_handover; try done. by left.
  - apply Inv_add; [done|]. eapply (data_msg S _ h g args); try done. by eapply inv_msgs.
  - apply Inv_add; [done|]. intros s Hin. simpl in Hin.
    destruct (ids_handover S A' h r STATUS_GC m g ids s) as [Hh Hst]; try done; [by right|]. split; [done|].
    eapply gc_received; try done. apply Hh.
  - apply Inv_add; [done|]. unfold DeleteShardsData in Hdel. cbn [negb] in Hdel. destruct (_ <? _); [done|].
    injection Hdel as <-. apply (inv_msgs _ _ HI) in Hm. by eapply delete_msg.
  - apply Inv_add; [done|]. unfold gcReply in Hrep. destruct reply as [reply|]; [|done].
    destruct (bool_decide _); [|done]. injection Hrep as <-. apply (inv_msgs _ _ HI) in Hm. by eapply delete_msg.
Qed.

Lemma Inv_reachable gs S A : 0 ∉ gs → rtc sys_step (init_sys gs, λ _, ∅) (S, A) → Inv S A.
Proof.
  intros H0 Hrun. enough (∀ x, rtc sys_step (init_sys gs, λ _, ∅) x → Inv (fst x) (snd x)) as Hall
    by exact (Hall _ Hrun).
  apply rtc_ind_r; [by apply Inv_init|]. intros [S1 A1] [S2 A2] _ Hstep IH. by eapply Inv_step.
Qed.
End facts.
End system.
