(* ===== verification/ShardRun.v ===== *)
(** * Running the system of groups on concrete inputs

    An interpreter for [sys_step], the tables of duplicate detection under handover, and the
    controller's history as the one the groups follow. *)
From S2P Require Import Prelude ShardCtrler ConfigProofs ConfigTheorems ShardKV ShardKVProofs ShardSystem.
Import Config Group.

Inductive SysAction :=
| DoOp (g : Z) (op : CommandArgs)
| DoApply (k : nat)
| DoConfig (j : nat)
| DoPull (j : nat) (g : Z)
| DoData (k j : nat)
| DoGC (j : nat) (g : Z)
| DoDelete (k j : nat)
| DoGcDone (k : nat) (reply : option ShardOperationReply).

Section exec.
Context `{MapOrder} (cfg : Z → Config).

(** Messages and past states are named by their position. *)
Definition sys_exec (a : SysAction) (x : Sys * Store) : option (Sys * Store) :=
  let '(Sy, A) := x in
  match a with
  | DoOp g op =>
      r ← now Sy !! g; '(reply, r') ← applyCommand (SHD_OPERATION op) r;
      Some (put g r' Sy, if executed op r
        then store_set (key2shard (Key op)) (op_data op (A (key2shard (Key op)))) A else A)
  | DoApply k =>
      m ← msgs Sy !! k;
      match m with
      | Propose g cmd => r ← now Sy !! g; '(reply, r') ← applyCommand cmd r; Some (put g r' Sy, A)
      | _ => None
      end
  | DoConfig j =>
      '(g, r) ← past Sy !! j; cmd ← configurationAction r (λ n, cfg (Z.max 0 n)); Some (add (Propose g cmd) Sy, A)
  | DoPull j g =>
      '(h, r) ← past Sy !! j; m ← getShardIdsByStatus STATUS_PULLING r; ids ← m !! g;
      Some (add (AskPull h g (mkSOArgs (Num (currentConfig r)) ids)) Sy, A)
  | DoData k j =>
      m ← msgs Sy !! k; '(g', r) ← past Sy !! j;
      match m with
      | AskPull h g args =>
          if decide (g' = g) then
            reply ← GetShardsData true args r; cmd ← migrationReply (Some reply); Some (add (Propose h cmd) Sy, A)
          else None
      | _ => None
      end
  | DoGC j g =>
      '(h, r) ← past Sy !! j; m ← getShardIdsByStatus STATUS_GC r; ids ← m !! g;
      Some (add (AskDelete h g (mkSOArgs (Num (currentConfig r)) ids)) Sy, A)
  | DoDelete k j =>
      m ← msgs Sy !! k; '(g', r) ← past Sy !! j;
      match m with
      | AskDelete h g args =>
          if decide (g' = g) then
            match DeleteShardsData true args r with
            | inl reply => cmd ← gcReply args (Some reply); Some (add (Propose h cmd) Sy, A)
            | inr cmd => Some (add (Propose g cmd) Sy, A)
            end
          else None
      | _ => None
      end
  | DoGcDone k reply =>
      m ← msgs Sy !! k;
      match m with
      | AskDelete h g args => cmd ← gcReply args reply; Some (add (Propose h cmd) Sy, A)
      | _ => None
      end
  end.

Lemma sys_exec_step a x x' : sys_exec a x = Some x' → sys_step cfg x x'.
Proof.
  destruct x as [Sy A]. intros He.
  destruct a as [g op|k|j|j g|k j|j g|k j|k reply]; cbn [sys_exec] in He.
  - apply bind_Some in He as (r & Hr & He). apply bind_Some in He as ([reply r'] & Happ & [= <-]).
    by eapply step_op.
  - apply bind_Some in He as (m & Hm & He). apply list_elem_of_lookup_2 in Hm. destruct m as [g cmd| |]; [|done..].
    apply bind_Some in He as (r & Hr & He). apply bind_Some in He as ([reply r'] & Happ & [= <-]).
    by eapply step_apply.
  - apply bind_Some in He as ([g r] & Hp & He). apply list_elem_of_lookup_2 in Hp.
    apply bind_Some in He as (cmd & Hc & [= <-]). eapply step_config; [done| |done].
    intros n. exists (Z.max 0 n). split; [lia|done].
  - apply bind_Some in He as ([h r] & Hp & He). apply list_elem_of_lookup_2 in Hp.
    apply bind_Some in He as (m & Hm & He). apply bind_Some in He as (ids & Hi & [= <-]). by eapply step_pull.
  - apply bind_Some in He as (m & Hm & He). apply list_elem_of_lookup_2 in Hm.
    apply bind_Some in He as ([g' r] & Hp & He). apply list_elem_of_lookup_2 in Hp.
    destruct m as [|h g args|]; [done| |done]. case_decide; [subst|done].
    apply bind_Some in He as (reply & Hr & He). apply bind_Some in He as (cmd & Hc & [= <-]). by eapply step_data.
  - apply bind_Some in He as ([h r] & Hp & He). apply list_elem_of_lookup_2 in Hp.
    apply bind_Some in He as (m & Hm & He). apply bind_Some in He as (ids & Hi & [= <-]). by eapply step_gc.
  - apply bind_Some in He as (m & Hm & He). apply list_elem_of_lookup_2 in Hm.
    apply bind_Some in He as ([g' r] & Hp & He). apply list_elem_of_lookup_2 in Hp.
    destruct m as [| |h g args]; [done|done|]. case_decide; [subst|done].
    destruct (DeleteShardsData true args r) as [reply|cmd] eqn:Hd.
    + apply bind_Some in He as (cmd & Hc & [= <-]). by eapply step_gcdone.
    + injection He as <-. by eapply step_delete.
  - apply bind_Some in He as (m & Hm & He). apply list_elem_of_lookup_2 in Hm.
    destruct m as [| |h g args]; [done|done|]. apply bind_Some in He as (cmd & Hc & [= <-]). by eapply step_gcdone.
Qed.

Definition sys_run (l : list SysAction) (x : Sys * Store) : option (Sys * Store) :=
  foldl (λ acc a, y ← acc; sys_exec a y) (Some x) l.

Lemma sys_run_steps l x x' : sys_run l x = Some x' → rtc (sys_step cfg) x x'.
Proof.
  unfold sys_run. revert x'. induction l as [|a l IH] using rev_ind; intros x'; [by intros [= ->]|].
  rewrite foldl_app. simpl. intros (y & Hy & Ha)%bind_Some. eapply rtc_r; [by apply IH|by eapply sys_exec_step].
Qed.
End exec.

(** ** The duplicate tables *)
Definition newer (a b : option OperationInfo) : option OperationInfo :=
  match a, b with
  | Some last, Some i => if MaxAppliedCommandId last <? MaxAppliedCommandId i then Some i else Some last
  | None, b => b
  | a, None => a
  end.

Lemma merge_ops_lookup l ops k :
  NoDup l.*1 → foldl mergeOperation ops l !! k = newer (ops !! k) (list_to_map (M:=gmap Z OperationInfo) l !! k).
Proof.
  revert ops. induction l as [|[c i] l IH]; intros ops Hnd; [simpl; by destruct (ops !! k)|].
  simpl in Hnd. apply NoDup_cons in Hnd as [Hc Hnd]. simpl. rewrite IH by done.
  apply (not_elem_of_list_to_map_1 (M:=gmap Z)) in Hc. unfold mergeOperation. simpl.
  destruct (decide (k = c)) as [-> |Hne].
  - rewrite lookup_insert_eq, Hc. unfold newer.
    destruct (ops !! c) as [last|] eqn:Ho; [destruct (_ <? _)|]; rewrite ?lookup_insert_eq, ?Ho; done.
  - rewrite lookup_insert_ne by done.
    destruct (ops !! c) as [last|] eqn:Ho; [destruct (_ <? _)|]; rewrite ?lookup_insert_ne by done; done.
Qed.

Lemma merge_table `{MapOrder} (t : gmap Z OperationInfo) ops k :
  foldl mergeOperation ops (map_order t) !! k = newer (ops !! k) (t !! k).
Proof.
  rewrite merge_ops_lookup by (eapply listing_NoDup, map_order_perm). by rewrite (listing_map _ t) by apply map_order_perm.
Qed.

Definition dup_in (t : gmap Z OperationInfo) (client id : Z) : bool :=
  match t !! client with Some i => id <=? MaxAppliedCommandId i | None => false end.

Lemma newer_dup (t1 t2 t : gmap Z OperationInfo) client id :
  t !! client = newer (t1 !! client) (t2 !! client) →
  dup_in t client id = dup_in t1 client id || dup_in t2 client id.
Proof.
  unfold dup_in. intros ->. destruct (t1 !! client), (t2 !! client); simpl; rewrite ?orb_false_r; try done.
  destruct (_ <? _) eqn:?; lia.
Qed.

(** ** Insertion when all shards of a reply are in the same state *)
Lemma insertShards_all `{MapOrder} l r :
  NoDup l.*1 → (∀ s d, (s, d) ∈ l → ∃ sh, stateMachines r !! s = Some sh ∧ Status sh = STATUS_PULLING) →
  ∃ r', insertShards l r = Some r' ∧ same_config r r' ∧
    ∀ s, stateMachines r' !! s =
      match list_to_map (M:=gmap Z (gmap string string)) l !! s with
      | Some d => (λ sh, mkShard (d ∪ KV sh) STATUS_GC) <$> stateMachines r !! s
      | None => stateMachines r !! s
      end.
Proof.
  revert r. induction l as [|[s d] l IH]; intros r Hnd Hl; [by exists r|].
  simpl in Hnd. apply NoDup_cons in Hnd as [Hs Hnd]. destruct (Hl s d ltac:(by left)) as (sh & Hsh & Hst).
  cbn [insertShards]. rewrite Hsh. cbn [mbind option_bind]. rewrite bool_decide_eq_true_2 by done.
  unfold on_shard. rewrite Hsh. cbn [mbind option_bind]. rewrite insertData_spec. unfold set_status. cbn [KV].
  set (r1 := set_stateMachines _ r). pose proof (not_elem_of_list_to_map_1 (M:=gmap Z) _ _ Hs) as Hs'.
  destruct (IH r1) as (r' & Hr' & Hsc & Hm); [done| |].
  { intros s' d' Hin. assert (s' ≠ s) as Hne by (intros ->; apply Hs, list_elem_of_fmap; by exists (s, d')).
    unfold r1. simpl. rewrite lookup_insert_ne by done. eapply Hl. by right. }
  exists r'. split; [done|]. split; [done|]. intros s'. rewrite Hm. unfold r1. simpl.
  destruct (decide (s' = s)) as [-> |Hne].
  - by rewrite Hs', !lookup_insert_eq, Hsh.
  - by rewrite !lookup_insert_ne.
Qed.

Lemma insertShards_none `{MapOrder} l r :
  (∀ s d, (s, d) ∈ l → ∃ sh, stateMachines r !! s = Some sh ∧ Status sh ≠ STATUS_PULLING) →
  insertShards l r = Some r.
Proof.
  destruct l as [|[s d] l]; [done|]. intros Hl. destruct (Hl s d ltac:(by left)) as (sh & Hsh & Hst).
  cbn [insertShards]. rewrite Hsh. cbn [mbind option_bind]. by rewrite bool_decide_eq_false_2.
Qed.

Lemma replica_eq r1 r2 :
  gid r1 = gid r2 → lastConfig r1 = lastConfig r2 → currentConfig r1 = currentConfig r2 →
  stateMachines r1 = stateMachines r2 → lastOperations r1 = lastOperations r2 → r1 = r2.
Proof. destruct r1, r2. simpl. congruence. Qed.

(** ** The controller's history *)

(** The configurations of a history by number; past its end the last one, renumbered. *)
Definition ctrl_history (h : list Config) (n : Z) : Config :=
  match h !! Z.to_nat n with
  | Some c => c
  | None => let c := default DefaultConfig (last h) in mkConfig n (Shards c) (Groups c)
  end.

Lemma owner_nonzero c s : cfg_ok c → in_range s → owner c s ≠ 0 ↔ Groups c ≠ ∅.
Proof.
  intros (Hlen & H0 & Hs) Hr. unfold owner.
  destruct (index_total (Shards c) s) as [g Hg]; [unfold in_range in *; lia|]. rewrite Hg. simpl.
  specialize (Hs s g Hg). case_decide as He; [subst; naive_solver|]. split; [done|]. intros _ ->. done.
Qed.

Lemma owner_out c s : zlen (Shards c) = NShards → ~ in_range s → owner c s = 0.
Proof.
  intros Hlen Hs. unfold owner. destruct (index (Shards c) s) as [g|] eqn:Hi; [|done].
  apply index_lt_Some in Hi. unfold in_range in Hs. lia.
Qed.

Lemma ctrl_history_ok (h : list Config) :
  hist_ok h → h !! 0%nat = Some DefaultConfig →
  (∀ i c c', h !! i = Some c → h !! S i = Some c' → Groups c ≠ ∅ → Groups c' ≠ ∅) →
  history_ok (ctrl_history h).
Proof.
  intros (Hne & Hnum & Hok) H0 Hkeep. rewrite Forall_lookup in Hok.
  assert (∃ c, last h = Some c ∧ h !! Nat.pred (length h) = Some c) as (cl & Hlast & Hcl).
  { rewrite last_lookup. apply last_is_Some in Hne as [c Hc]. exists c. by rewrite <-last_lookup, Hc. }
  assert (∀ n, 0 ≤ n → ∃ i c, h !! i = Some c ∧ Shards (ctrl_history h n) = Shards c ∧
    (Z.of_nat i = n ∨ Z.of_nat i < n ∧ i = Nat.pred (length h))) as Hval.
  { intros n Hn. unfold ctrl_history. destruct (h !! Z.to_nat n) as [c|] eqn:Hc.
    - exists (Z.to_nat n), c. split_and!; [done..|]. left. lia.
    - apply lookup_ge_None in Hc. pose proof (lookup_lt_Some _ _ _ Hcl). rewrite Hlast. simpl.
      exists (Nat.pred (length h)), cl. split_and!; [done..|]. right. lia. }
  split.
  - intros n Hn. unfold ctrl_history. destruct (h !! Z.to_nat n) as [c|] eqn:Hc; [|done]. rewrite (Hnum _ _ Hc). lia.
  - intros n Hn. destruct (Hval n Hn) as (i & c & Hc & -> & _). by destruct (Hok _ _ Hc).
  - unfold ctrl_history. change (Z.to_nat 0) with 0%nat. by rewrite H0.
  - intros n s Hn Ho. destruct (Hval n Hn) as (i & c & Hc & Hsh & Hi).
    destruct (Hval (n + 1) ltac:(lia)) as (i' & c' & Hc' & Hsh' & Hi').
    assert (owner (ctrl_history h n) s = owner c s) as Heq by (unfold owner; by rewrite Hsh). rewrite Heq in Ho.
    assert (owner (ctrl_history h (n + 1)) s = owner c' s) as -> by (unfold owner; by rewrite Hsh').
    destruct (decide (in_range s)) as [Hs|Hs]; [|by destruct Ho; apply owner_out; [destruct (Hok _ _ Hc)|]].
    rewrite owner_nonzero in Ho |- * by (done || by eapply Hok). pose proof (lookup_lt_Some _ _ _ Hc). pose proof (lookup_lt_Some _ _ _ Hc').
    destruct (decide (i' = i)) as [-> |]; [congruence|]. assert (i' = Datatypes.S i) as -> by lia.
    exact (Hkeep i c c' Hc Hc' Ho).
Qed.
