(* ===== verification/ShardTheorems.v ===== *)
(** * What the sharded service guarantees *)
From S2P Require Import Prelude Raft RaftLog RaftNode RaftSnapshot RaftProc ShardCtrler ConfigProofs ConfigTheorems.
From S2P Require Import ShardKV ShardKVProofs ShardSystem ShardRun.
Import Config Group.

Abbreviation no_data := (λ _ : Z, (∅ : gmap string string)).

Lemma wp_skv_raft_call {A} (m : M (Raft Group.Command) (Effect Group.Command) A) kv
    (Q : A → ShardServer.ShardKV → list (Effect Group.Command) → Prop) :
  wp m (λ a r w, Q a (ShardServer.set_rf r kv) w) (ShardServer.rf kv) → wp (ShardServer.raft_call m) Q kv.
Proof. unfold wp, ShardServer.raft_call. by destruct (m (ShardServer.rf kv)) as [[[a r] w]|]. Qed.

Section theorems.
Context `{MapOrder}.



End theorems.

(** The controller discharges what the groups assume of it.  A history of well-formed
    configurations that starts with the empty one, and in which the last group never leaves, is
    one the groups' theorems apply to. *)
Theorem controller_history_suffices (h : list Config) :
  hist_ok h → h !! 0%nat = Some DefaultConfig →
  (∀ i c c', h !! i = Some c → h !! S i = Some c' → Groups c ≠ ∅ → Groups c' ≠ ∅) →
  history_ok (ctrl_history h).
Proof. apply ctrl_history_ok. Qed.

(** ** Single groups *)

(** C31: Duplicate detection survives a handover.  When a group inserts shards it pulled, its table
    afterwards recognises exactly the commands that its own table or the previous owner's
    recognised, so a write the previous owner executed is not executed again by the new one: the
    new owner's replica does not change. *)
Theorem retry_after_handover `{MapOrder} (args : ShardOperationArgs) (r0 r r' : Replica)
    (sreply : ShardOperationReply) (reply : CommandReply) :
  replica_ok r0 → replica_ok r → (∀ s, s ∈ ShardIds args → in_range s) →
  ConfigNum args ≤ Num (currentConfig r0) → ConfigNum args = Num (currentConfig r) →
  GetShardsData true args r0 = Some sreply → applyInsertShards sreply r = Some (reply, r') →
  (∀ client id, isDuplicateRequest client id r'
     = isDuplicateRequest client id r || isDuplicateRequest client id r0) ∧
  (∀ op, OP op ≠ OP_GET → isDuplicateRequest (ClientId op) (CommandId op) r0 = true →
     ∃ reply', applyOperation op r' = Some (reply', r')).
Proof.
  intros Hok0 Hok Hids Hn0 Hn Hget Hins.
  destruct (GetShardsData_spec args r0) as (sr & Hget' & _ & Hcn & Hops & Hsh); [done..|].
  rewrite Hget in Hget'. injection Hget' as <-.
  destruct (applyInsertShards_spec sreply r) as (err & r1 & Hins' & Hok' & _);
    [done|intros s [d Hd]; rewrite Hsh in Hd; case_decide; [auto|done]|].
  rewrite Hins in Hins'. injection Hins' as -> <-.
  assert (∀ client id, isDuplicateRequest client id r'
    = isDuplicateRequest client id r || isDuplicateRequest client id r0) as Hdup.
  { intros client id. unfold applyInsertShards in Hins. rewrite Hcn, Hn, Z.eqb_refl in Hins.
    apply bind_Some in Hins as (r1 & Hr1 & [= _ <-]).
    destruct (insertShards_spec (map_order (so_Shards sreply)) (so_Shards sreply) r) as (r2 & Hr2 & _ & (_ & _ & _ & Ho) & _);
      [done|eapply listing_NoDup, map_order_perm| |].
    { intros s d Hin. rewrite map_order_perm in Hin. apply elem_of_map_to_list in Hin. split; [done|].
      rewrite Hsh in Hin. case_decide; [auto|done]. }
    rewrite Hr1 in Hr2. injection Hr2 as <-. apply newer_dup. simpl. rewrite merge_table. by rewrite Hops, Ho. }
  split; [done|]. intros op Hop Hd. pose proof (Hdup (ClientId op) (CommandId op)) as Hd'. rewrite Hd, orb_true_r in Hd'.
  destruct (applyOperation_spec op r' Hok') as (reply' & r2 & Happ & _ & _ & _ & Hcs).
  exists reply'. rewrite Happ. destruct Hcs as [(_ & _ & ->)|[(_ & _ & _ & -> & _)|(_ & _ & _ & [?|?] & _)]];
    [done|done|done|congruence].
Qed.

(** Replicas of a group agree on an insertion whatever order Go visits the maps of the reply in,
    as long as the shards of the reply are all waiting for their data or none is. *)
Theorem insert_order_independent (o1 o2 : MapOrder) (sreply : ShardOperationReply) (r : Replica) :
  replica_ok r → (∀ s, is_Some (so_Shards sreply !! s) → in_range s) →
  (∀ s, is_Some (so_Shards sreply !! s) → status r s = STATUS_PULLING) ∨
  (∀ s, is_Some (so_Shards sreply !! s) → status r s ≠ STATUS_PULLING) →
  @applyInsertShards o1 sreply r = @applyInsertShards o2 sreply r.
Proof.
  intros Hok Hr Hcase. unfold applyInsertShards. destruct (_ =? _); [|done].
  assert (∀ (o : MapOrder) s d, (s, d) ∈ map_order (so_Shards sreply) →
    stateMachines r !! s = Some (shard r s) ∧ is_Some (so_Shards sreply !! s)) as Hin.
  { intros o s d Hin. rewrite map_order_perm in Hin. apply elem_of_map_to_list in Hin.
    split; [|by eexists]. apply shard_lookup; [done|]. apply Hr. by eexists. }
  destruct Hcase as [Hp|Hp].
  - assert (∀ o : MapOrder, ∃ r', insertShards (map_order (so_Shards sreply)) r = Some r' ∧ same_config r r' ∧
      ∀ s, stateMachines r' !! s = match so_Shards sreply !! s with
        | Some d => (λ sh, mkShard (d ∪ KV sh) STATUS_GC) <$> stateMachines r !! s
        | None => stateMachines r !! s end) as Hall.
    { intros o. destruct (insertShards_all (map_order (so_Shards sreply)) r) as (r' & Hr' & Hsc & Hm).
      - eapply listing_NoDup, map_order_perm.
      - intros s d [Hs Hd]%Hin. eauto.
      - exists r'. split; [done|]. split; [done|]. intros s. rewrite Hm.
        by rewrite (listing_map _ (so_Shards sreply)) by apply map_order_perm. }
    destruct (Hall o1) as (r1 & -> & (Hg1 & Hc1 & Hl1 & Ho1) & Hm1).
    destruct (Hall o2) as (r2 & -> & (Hg2 & Hc2 & Hl2 & Ho2) & Hm2). cbn [mbind option_bind]. do 2 f_equal.
    apply replica_eq; simpl; try congruence.
    + apply map_eq. intros s. by rewrite Hm1, Hm2.
    + apply map_eq. intros k. by rewrite !merge_table, Ho1, Ho2.
  - rewrite !insertShards_none; [|intros s d [Hs Hd]%Hin; eauto..]. cbn [mbind option_bind]. do 2 f_equal.
    apply replica_eq; simpl; try done. apply map_eq. intros k. by rewrite !merge_table.
Qed.

(** ** Snapshots *)
Section server.
Import ShardServer.
Context `{CodecLaws (hard_state Group.Command)} `{CodecLaws snapshot_data}.
Context (failed_decode : list byte → snapshot_data).

(** C32: Snapshot and restart.  After [takeSnapshot] at an index past the last compaction, a crash
    and [StartServer] give back the shards with their statuses, the duplicate table and both
    configurations. *)
Theorem shardkv_snapshot_restart (kv : ShardKV) (idx : Z) :
  node_ok (rf kv) → first_idx (logs (rf kv)) < idx ≤ commitIndex (rf kv) →
  wp (takeSnapshot idx) (λ _ kv' _, ∃ kv2,
    StartServer failed_decode (npeers (rf kv')) (me (rf kv')) (persister (rf kv')) (maxraftstate kv)
      (gid (replica kv)) = Some kv2 ∧
    replica kv2 = replica kv ∧ logs (rf kv2) = logs (rf kv') ∧ LastApplied (rf kv2) = idx) kv.
Proof.
  intros Hok Hi. pose proof (ok_commit _ Hok). pose proof (ok_log _ Hok) as Hwf.
  unfold takeSnapshot. wp_step. wp_step.
  apply (wp_skv_raft_call (Snapshot idx (snapshot_of (replica kv)))). apply wp_Snapshot; [done|lia|lia|]. intros _.
  destruct (trim_spec (logs (rf kv)) idx) as (Htw & Htf & Htl & _); [done|lia|].
  set (b := snapshot_of (replica kv)).
  set (r := snapshotted (rf kv) (trim (logs (rf kv)) idx) b).
  assert (node_ok r) as Hokr by (apply node_ok_snapshotted; done || lia).
  unfold StartServer. cbn [rf set_rf].
  rewrite (Make_durable r) by (by apply ok_durable || by apply ok_log). cbn [mbind option_bind].
  assert (ReadSnapshot (persister r) = b) as -> by (unfold r, ReadSnapshot; simpl; by rewrite !clone_id).
  unfold run_state, restoreSnapshot, b, snapshot_of.
  pose proof (gob_nonempty (stateMachines (replica kv), lastOperations (replica kv), currentConfig (replica kv),
    Group.lastConfig (replica kv))) as Hne.
  destruct (gob_encode _) as [|c cs] eqn:Hb; [done|]. rewrite <-Hb, gob_roundtrip. simpl.
  eexists. split; [done|]. simpl. split_and!; [by destruct (replica kv)|done|done].
Qed.
End server.

(** ** The client *)
Definition decisive (rpc : option CommandReply) : bool :=
  match rpc with
  | Some reply => bool_decide (Err reply = OK) || bool_decide (Err reply = ErrNoKey)
  | None => false
  end.

(** One group: either the decisive reply is reached, or the group is left after some of the calls. *)
Lemma callLoop_spec servers reply rest lost new :
  forallb (λ x, negb (decisive x)) lost = true → decisive (Some reply) = true → 0 ≤ new < zlen servers →
  ∃ sent, Forall (λ srv, srv ∈ servers) sent ∧
  ( ShardClerk.callLoop servers 0 new (lost ++ Some reply :: rest) = Some (Some (RValue reply), sent, rest) ∧
      length sent = S (length lost)
  ∨ ∃ l1 l2, lost = l1 ++ l2 ∧ l1 ≠ [] ∧ length sent = length l1 ∧
      ShardClerk.callLoop servers 0 new (lost ++ Some reply :: rest) = Some (None, sent, l2 ++ Some reply :: rest)).
Proof.
  intros Hlost Hd. revert new. induction lost as [|x lost IH]; intros new Hnew.
  - destruct (index_total servers new Hnew) as [srv Hsrv]. simpl. rewrite Hsrv. simpl. simpl in Hd. rewrite Hd.
    exists [srv]. apply index_Some in Hsrv as [_ Hsrv]. apply list_elem_of_lookup_2 in Hsrv.
    split; [by constructor|]. by left.
  - simpl in Hlost. apply andb_true_iff in Hlost as [Hx Hlost]. destruct (index_total servers new Hnew) as [srv Hsrv].
    pose proof Hsrv as Hin. apply index_Some in Hin as [_ Hin]. apply list_elem_of_lookup_2 in Hin.
    set (new' := (new + 1) mod zlen servers).
    assert (0 ≤ new' < zlen servers) as Hnew' by (apply Z.mod_pos_bound; lia).
    destruct (IH Hlost new' Hnew') as (sent & Hs & Hcase).
    assert (∃ sent0, Forall (λ srv, srv ∈ servers) sent0 ∧
      ShardClerk.callLoop servers 0 new ((x :: lost) ++ Some reply :: rest) =
      ( if (match x with Some y => bool_decide (Err y = ErrWrongGroup) | None => false end) || (new' =? 0)
        then Some (None, [srv], lost ++ Some reply :: rest)
        else '(v, sent, rest) ← ShardClerk.callLoop servers 0 new' (lost ++ Some reply :: rest);
             Some (v, srv :: sent, rest)) ∧ sent0 = [srv]) as (sent0 & Hs0 & -> & ->).
    { exists [srv]. split; [by constructor|]. split; [|done]. cbn [app ShardClerk.callLoop]. rewrite Hsrv.
      cbn [mbind option_bind]. fold new'. destruct x as [y|]; [|by destruct (new' =? 0)].
      simpl in Hx. destruct (_ || _); [done|]. destruct (bool_decide (Err y = ErrWrongGroup)); [done|].
      by destruct (new' =? 0). }
    destruct (_ || _).
    { exists [srv]. split; [done|]. right. by exists [x], lost. }
    exists (srv :: sent). split; [by constructor|].
    destruct Hcase as [[-> Hl]|(l1 & l2 & -> & Hne & Hl & ->)]; simpl.
    + left. by rewrite Hl.
    + right. exists (x :: l1), l2. split_and!; [done|done|simpl; by rewrite Hl|done].
Qed.

(** The key's shard has a group with servers. *)
Definition routes (key : string) (cf : Config) : Prop :=
  ∃ g servers, index (Shards cf) (key2shard key) = Some g ∧ Groups cf !! g = Some servers ∧ servers ≠ [].

Lemma commandLoop_spec args configs ck lost reply rest :
  routes (Key args) (ShardClerk.config ck) → Forall (routes (Key args)) configs →
  (∀ g l, ShardClerk.leaderIds ck !! g = Some l → l = 0) →
  forallb (λ x, negb (decisive x)) lost = true → decisive (Some reply) = true → (length lost ≤ length configs)%nat →
  ∃ ck' sent, ShardClerk.commandLoop args configs ck (lost ++ Some reply :: rest) = Some (RValue reply, ck', sent) ∧
    ShardClerk.clientId ck' = ShardClerk.clientId ck ∧ ShardClerk.commandId ck' = ShardClerk.commandId ck + 1 ∧
    (∀ g l, ShardClerk.leaderIds ck' !! g = Some l → l = 0) ∧
    length sent = S (length lost) ∧ Forall (λ p, snd p = args) sent.
Proof.
  intros Hr Hrs Hl Hlost Hd Hlen. revert ck lost Hr Hl Hlost Hlen.
  induction configs as [|cf configs IH]; intros ck lost Hr Hl Hlost Hlen;
    destruct Hr as (g & servers & Hg & Hsv & Hne);
    assert (default 0 (ShardClerk.leaderIds ck !! g) = 0) as Hpre
      by (destruct (ShardClerk.leaderIds ck !! g) eqn:Hx; [by apply (Hl g)|done]);
    assert (∀ k l, (<[g := 0]> (ShardClerk.leaderIds ck)) !! k = Some l → l = 0) as Hl'
      by (intros k l; rewrite lookup_insert_Some; intros [[_ <-]|[_ Hk]]; [done|by apply (Hl k)]);
    assert (0 ≤ 0 < zlen servers) as Hz by (destruct servers; [done|simpl; lia]);
    destruct (callLoop_spec servers reply rest lost 0 Hlost Hd Hz) as (sent & _ & Hcase);
    cbn [ShardClerk.commandLoop]; rewrite Hg; cbn [mbind option_bind]; rewrite Hsv, Hpre;
    destruct Hcase as [[-> Hls]|(l1 & l2 & -> & Hl1 & Hls & ->)]; cbn [mbind option_bind];
    try (eexists _, _; split_and!; [done|done|done|exact Hl'|by rewrite length_map|]; apply Forall_map, Forall_true; done).
  - destruct l1; [done|]. simpl in Hlen. lia.
  - rewrite Forall_cons in Hrs. destruct Hrs as [Hcf Hrs]. rewrite forallb_app, andb_true_iff in Hlost.
    destruct Hlost as [_ Hlost]. rewrite length_app in Hlen. destruct l1 as [|x l1]; [done|]. simpl in Hlen.
    destruct (IH Hrs (ShardClerk.mkClerk cf (ShardClerk.clientId ck) (ShardClerk.commandId ck)
      (<[g := 0]> (ShardClerk.leaderIds ck))) l2) as (ck' & sent' & Hc & Hid & Hn & Hl2 & Hls' & Hall);
      [done|exact Hl'|done|lia|]. simpl. rewrite Hc. simpl. eexists _, _.
    split_and!; [done|done|done|done| |].
    + rewrite length_app, length_map, Hls, Hls', !length_app. simpl. lia.
    + apply Forall_app. split; [|done]. apply Forall_map, Forall_true. done.
Qed.

(** C33: The client returns the first decisive reply.  Through lost calls, wrong leaders and moved
    shards, and given configurations that route the key, [Command] returns the value of the first
    [OK] or [ErrNoKey] reply; all calls carried the same arguments, so a retry is recognisable, and
    the command id grows by one, once.  The leader it remembers of a group is always server 0. *)
Theorem shard_clerk_returns (ck : ShardClerk.Clerk) (key value op : string) (configs : list Config)
    (lost rest : list (option CommandReply)) (reply : CommandReply) :
  routes key (ShardClerk.config ck) → Forall (routes key) configs →
  (∀ g l, ShardClerk.leaderIds ck !! g = Some l → l = 0) →
  forallb (λ x, negb (decisive x)) lost = true → decisive (Some reply) = true → (length lost ≤ length configs)%nat →
  ∃ ck' sent, ShardClerk.Command ck key value op configs (lost ++ Some reply :: rest) = Some (RValue reply, ck', sent) ∧
    ShardClerk.commandId ck' = ShardClerk.commandId ck + 1 ∧
    (∀ g l, ShardClerk.leaderIds ck' !! g = Some l → l = 0) ∧ length sent = S (length lost) ∧
    Forall (λ p, snd p = mkArgs key value op (ShardClerk.clientId ck) (ShardClerk.commandId ck)) sent.
Proof.
  intros Hr Hrs Hl Hlost Hd Hlen. unfold ShardClerk.Command.
  destruct (commandLoop_spec (mkArgs key value op (ShardClerk.clientId ck) (ShardClerk.commandId ck)) configs ck lost reply rest)
    as (ck' & sent & Hc & _ & Hn & Hl' & Hls & Hall); try done. eauto 10.
Qed.

(** ** A history with one handover *)
Module ShardExamples.
Definition c1 : Config := mkConfig 1 (replicate 10 1) {[ 1 := ["a"%string] ]}.
Definition c2 : Config :=
  mkConfig 2 [2; 2; 2; 2; 2; 1; 1; 1; 1; 1] {[ 1 := ["a"%string]; 2 := ["b"%string] ]}.
(** The controller's after [Join] of group 1, then of group 2. *)
Definition hist : list Config := [DefaultConfig; c1; c2].
Definition cfg : Z → Config := ctrl_history hist.
Definition gs : gset Z := {[ 1; 2 ]}.

Definition put_d : CommandArgs := mkArgs "d" "x" OP_PUT 7 0.
Definition append_d : CommandArgs := mkArgs "d" "y" OP_APPEND 8 0.

(** Both groups reach configuration 1, group 1 executes a write to shard 0, both reach
    configuration 2, and group 2 pulls the shard. *)
Definition handover_run : list SysAction :=
  [ DoConfig 0; DoConfig 1; DoApply 0; DoApply 1; DoOp 1 put_d; DoConfig 0; DoConfig 1; DoApply 0; DoApply 1;
    DoPull 1 1; DoData 0 0; DoApply 0 ].

Definition start : Sys * Store := (init_sys gs, no_data).
Definition after (l : list SysAction) : Sys * Store := default start (sys_run cfg l start).
Definition group (g : Z) (l : list SysAction) : Replica := default (fresh_replica g) (now (fst (after l)) !! g).

Lemma hist_joined :
  ('(_, h) ← Join {[ 1 := ["a"%string] ]} NewMemoryConfigStateMachine; Join {[ 2 := ["b"%string] ]} h)
  = Some (OK, hist).
Proof. by vm_compute. Qed.

Lemma owners_ok c gids : zlen (Shards c) = NShards → (0 ∉ dom (Groups c)) → Groups c ≠ ∅ → Shards c ⊆ gids →
  Forall (λ g, is_Some (Groups c !! g)) gids → cfg_ok c.
Proof.
  intros Hlen H0 Hne Hsub Hall. split_and!; [done..|]. intros s g [_ Hs]%index_Some. rewrite decide_False by done.
  apply list_elem_of_lookup_2, Hsub in Hs. apply elem_of_dom. rewrite Forall_forall in Hall. auto.
Qed.

Lemma hist_hist_ok : hist_ok hist.
Proof.
  split_and!; [done|intros [|[|[|i]]] c Hc; by simplify_eq/=|].
  constructor; [|constructor; [|constructor; [|constructor]]].
  - split_and!; [done|done|]. intros s g [_ Hs]%index_Some. apply lookup_replicate in Hs as [-> _].
    by rewrite decide_True.
  - apply (owners_ok c1 [1]); [done|by vm_compute|done| |].
    + intros g. unfold c1. simpl. rewrite !elem_of_cons. tauto.
    + repeat constructor; by eexists.
  - apply (owners_ok c2 [1; 2]); [done|by vm_compute|done| |].
    + intros g. unfold c2. simpl. rewrite !elem_of_cons. tauto.
    + repeat constructor; by eexists.
Qed.

Lemma hist_keeps i c c' : hist !! i = Some c → hist !! S i = Some c' → Groups c ≠ ∅ → Groups c' ≠ ∅.
Proof. destruct i as [|[|[|i]]]; intros; by simplify_eq/=. Qed.

Lemma controller_history_suffices_witness : history_ok (ctrl_history hist).
Proof. apply controller_history_suffices; [exact hist_hist_ok|reflexivity|exact hist_keeps]. Defined.

Lemma cfg_history_ok : history_ok cfg.
Proof. apply ctrl_history_ok; [exact hist_hist_ok|reflexivity|exact hist_keeps]. Qed.

(** The runs used below succeed, so their last states are reachable. *)
Lemma after_reachable l :
  match sys_run cfg l start with Some _ => true | None => false end = true → rtc (sys_step cfg) start (after l).
Proof.
  unfold after. destruct (sys_run cfg l start) as [x|] eqn:Hr; [|done]. intros _. by eapply sys_run_steps.
Qed.

Lemma handover_reachable : rtc (sys_step cfg) (init_sys gs, no_data) (fst (after handover_run), snd (after handover_run)).
Proof. rewrite <-surjective_pairing. apply after_reachable. by vm_compute. Qed.

Lemma no_zero : 0 ∉ gs.
Proof. by vm_compute. Qed.




Definition pull_args : ShardOperationArgs := mkSOArgs 2 [3; 4; 2; 1; 0].
Definition pulled : ShardOperationReply := default (noReply OK) (GetShardsData true pull_args (group 1 handover_run)).

(** Group 2 just before it inserts. *)
Definition before_insert : list SysAction := take 11 handover_run.

Lemma reachable_ok g l :
  match sys_run cfg l start with Some _ => true | None => false end = true → g ≠ 0 →
  replica_ok (group g l).
Proof.
  intros Hr Hg. unfold group. destruct (now (fst (after l)) !! g) as [r|] eqn:Hn; [|by apply fresh_shard].
  eapply vo_ok, (inv_now cfg (fst (after l)) (snd (after l)) ltac:(apply (Inv_reachable cfg cfg_history_ok gs);
    [apply no_zero|rewrite <-surjective_pairing; by apply after_reachable])). exact Hn.
Qed.

Lemma pull_range s : s ∈ ShardIds pull_args → in_range s.
Proof. unfold in_range, NShards. simpl. set_solver by lia. Qed.

Lemma retry_after_handover_witness :
  ∃ reply', applyOperation put_d (group 2 handover_run) = Some (reply', group 2 handover_run).
Proof.
  assert (replica_ok (group 1 handover_run)) as Hok1 by (apply reachable_ok; [vm_compute; reflexivity|lia]).
  assert (replica_ok (group 2 before_insert)) as Hok2 by (apply reachable_ok; [vm_compute; reflexivity|lia]).
  assert (2 ≤ Num (currentConfig (group 1 handover_run))) as Hn1 by (vm_compute; congruence).
  assert (2 = Num (currentConfig (group 2 before_insert))) as Hn2 by (vm_compute; reflexivity).
  assert (GetShardsData true pull_args (group 1 handover_run) = Some pulled) as Hget by (vm_compute; reflexivity).
  assert (applyInsertShards pulled (group 2 before_insert) = Some (mkReply OK "", group 2 handover_run)) as Hins
    by (vm_compute; reflexivity).
  destruct (retry_after_handover pull_args _ _ _ pulled _ Hok1 Hok2 pull_range Hn1 Hn2 Hget Hins) as [_ Hretry].
  apply Hretry; [intros Heq; discriminate Heq|vm_compute; reflexivity].
Defined.

Definition rev_order : MapOrder.
Proof.
  refine {| map_order K _ _ V m := reverse (map_to_list m) |}. intros K ? ? V m. apply reverse_Permutation.
Defined.

Lemma insert_order_independent_witness :
  @applyInsertShards list_order pulled (group 2 before_insert)
  = @applyInsertShards rev_order pulled (group 2 before_insert).
Proof.
  assert (∀ s, is_Some (so_Shards pulled !! s) → s ∈ [0; 1; 2; 3; 4]) as Hdom.
  { intros s Hs. apply elem_of_dom in Hs.
    assert (dom (so_Shards pulled) = list_to_set [0; 1; 2; 3; 4]) as Hset by (vm_compute; reflexivity).
    rewrite Hset in Hs. by apply elem_of_list_to_set in Hs. }
  apply (insert_order_independent list_order rev_order).
  - apply reachable_ok; [vm_compute; reflexivity|lia].
  - intros s Hs. apply pull_range. specialize (Hdom s Hs). simpl.
    rewrite !elem_of_cons in Hdom |- *. tauto.
  - left. intros s Hs%Hdom. rewrite !elem_of_cons, elem_of_nil in Hs.
    destruct Hs as [-> |[-> |[-> |[-> |[-> |[]]]]]]; vm_compute; reflexivity.
Defined.

Lemma shard_clerk_returns_witness :
  ∃ ck' sent, ShardClerk.Command (ShardClerk.MakeClerk 7 c1) "d" "v" OP_PUT [c2]
    [Some (mkReply ErrWrongGroup ""); Some (mkReply OK "")] = Some (""%string, ck', sent).
Proof.
  destruct (shard_clerk_returns (ShardClerk.MakeClerk 7 c1) "d" "v" OP_PUT [c2]
    [Some (mkReply ErrWrongGroup "")] [] (mkReply OK "")) as (ck' & sent & Hc & _).
  - exists 1, ["a"%string]. done.
  - constructor; [|constructor]. exists 2, ["b"%string]. done.
  - intros g l Hl. discriminate Hl.
  - reflexivity.
  - reflexivity.
  - simpl. lia.
  - exists ck', sent. exact Hc.
Defined.

(** *** A lost deletion *)

(** Group 2 asks group 1 to delete what it pulled; the leader of group 1 that answers has not yet
    applied configuration 2; group 2 finishes. *)
Definition lost_delete_run : list SysAction := handover_run ++ [DoGC 0 1; DoDelete 0 5; DoApply 0].

(** An unexecuted deletion is acknowledged.  In a reachable state a leader of the previous owner
    that is still behind the configuration of a [DeleteShardsData] request has answered [OK]
    without deleting; the new owner took this for the deletion and has no shard left to clean up,
    while the previous owner keeps the shard in [BEPULLING] and can not take another
    configuration. *)
Theorem delete_acknowledged_without_deleting :
  ∃ (Sy : Sys) (A : Store) (r1 r2 stale : Replica) (args : ShardOperationArgs),
    rtc (sys_step cfg) (init_sys gs, no_data) (Sy, A) ∧ now Sy !! 1 = Some r1 ∧ now Sy !! 2 = Some r2 ∧
    (1, stale) ∈ past Sy ∧ AskDelete 2 1 args ∈ msgs Sy ∧ 0 ∈ ShardIds args ∧
    DeleteShardsData true args stale = inl (noReply OK) ∧
    gcAction r2 = Some [] ∧ status r2 0 = STATUS_SERVING ∧
    status r1 0 = STATUS_BEPULLING ∧ ∀ query, configurationAction r1 query = None.
Proof.
  exists (fst (after lost_delete_run)), (snd (after lost_delete_run)), (group 1 lost_delete_run),
    (group 2 lost_delete_run), (snd (default (0, fresh_replica 0) (past (fst (after handover_run)) !! 5%nat))), pull_args.
  split_and!.
  - rewrite <-surjective_pairing. apply after_reachable. vm_compute; reflexivity.
  - vm_compute; reflexivity.
  - vm_compute; reflexivity.
  - apply (list_elem_of_lookup_2 _ 6). vm_compute; reflexivity.
  - apply (list_elem_of_lookup_2 _ 1). vm_compute; reflexivity.
  - simpl. rewrite !elem_of_cons. tauto.
  - vm_compute; reflexivity.
  - vm_compute; reflexivity.
  - vm_compute; reflexivity.
  - vm_compute; reflexivity.
  - intros query. unfold configurationAction.
    assert (canGetNextConfig (group 1 lost_delete_run) = false) as -> by (vm_compute; reflexivity). done.
Qed.

(** *** Snapshots *)
#[local] Instance hs_codec : Codec (hard_state Group.Command) := countable_codec (hard_state Group.Command).
#[local] Instance hs_laws : CodecLaws (hard_state Group.Command) := countable_codec_laws _.
#[local] Instance snap_codec : Codec ShardServer.snapshot_data := countable_codec _.
#[local] Instance snap_laws : CodecLaws ShardServer.snapshot_data := countable_codec_laws _.
Definition fd (_ : list byte) : ShardServer.snapshot_data := (∅, ∅, DefaultConfig, DefaultConfig).

Definition peer : Raft Group.Command := persisted
  (mkRaft 3 MakePersister 0 0 LEADER 1 0 [mkEntry 0 0 None; mkEntry 1 1 (Some (SHD_OPERATION put_d))]
     1 1 [2; 2; 2] [0; 1; 1]).
Definition server : ShardServer.ShardKV := ShardServer.mkSKV peer 0 100 1 (group 1 handover_run) ∅ [].

Lemma peer_ok : node_ok peer.
Proof.
  split; [cbn; lia|reflexivity|reflexivity| |split; discriminate|discriminate| |apply durable_persisted].
  - split; [done|]. intros [|[|k]] x Hx; cbn in Hx; by simplify_eq.
  - intros _. change (Forall (λ v, v ≤ 2) [2; 2; 2]). repeat constructor; lia.
Qed.

Lemma shardkv_snapshot_restart_witness :
  wp (ShardServer.takeSnapshot 1) (λ _ kv' _, ∃ kv2,
    ShardServer.StartServer fd (npeers (ShardServer.rf kv')) (me (ShardServer.rf kv'))
      (persister (ShardServer.rf kv')) 100 1 = Some kv2 ∧
    status (ShardServer.replica kv2) 0 = STATUS_BEPULLING) server.
Proof.
  eapply wp_mono; [apply (shardkv_snapshot_restart fd server 1 peer_ok); split; [reflexivity|discriminate]|].
  intros [] kv' w (kv2 & Hs & Hr & _). exists kv2. split; [exact Hs|]. rewrite Hr. vm_compute; reflexivity.
Defined.
End ShardExamples.
