(* ===== verification/MapReduce.v ===== *)
(** * MapReduce ([mr])

    [Module Coordinator] models [coordinator.go]: the coordinator's state and its handlers, cut at
    the points where the lock is released or a channel operation may block.  [Module Worker] models
    [worker.go]: partitioning by hash, the intermediate format and the reduce loop, over a file
    system that maps names to contents.  The clock is an argument, the user's map and reduce
    functions are parameters. *)
From stdpp Require Import pretty.
From Stdlib Require Import Ascii.
From S2P Require Import Prelude.

(** ** Names ([formatFilename.go], [rpc.go]) *)
Definition Itoa (i : Z) : string := pretty i.
Definition tmpMapOutFile (mapId reduceId : Z) : string :=
  "intermediate-map-" +:+ Itoa mapId +:+ "-" +:+ Itoa reduceId.
Definition finalMapOutFile (mapId reduceId : Z) : string :=
  "mr-map-" +:+ Itoa mapId +:+ "-" +:+ Itoa reduceId.
Definition tmpReduceOutFile (reduceId : Z) : string := "intermeidate-reduce-" +:+ Itoa reduceId.
Definition finalReduceOutFile (reduceId : Z) : string := "mr-out-" +:+ Itoa reduceId.
#[global] Arguments tmpMapOutFile : simpl never.
#[global] Arguments finalMapOutFile : simpl never.
#[global] Arguments tmpReduceOutFile : simpl never.
#[global] Arguments finalReduceOutFile : simpl never.

Definition MAP : string := "MAP".
Definition REDUCE : string := "REDUCE".
Definition QUIT : string := "QUIT".
Definition DONE : string := "DONE".

(** A [time.Time] in nanoseconds; the zero time is before any reading of the clock. *)
Definition zeroTime : Z := 0.
Definition After (t u : Z) : bool := u <? t.
Definition maxTaskTime : Z := 10.
Definition Second : Z := 1000000000.

Record TaskInfo := mkTask { Id : Z; TaskType : string; Filename : string; Deadline : Z }.
Definition noTask : TaskInfo := mkTask 0 "" "" zeroTime.
Record AssignTaskReply := mkAssign { Info : TaskInfo; NMap : Z; NReduce : Z }.
Record ReportTaskArgs := mkReport { TaskID : Z; RTaskType : string }.

(** The file system: [os.Rename] fails when the source is missing. *)
Abbreviation Files := (gmap string string).
Definition Rename (src dst : string) (fs : Files) : option Files :=
  content ← fs !! src; Some (<[dst := content]> (delete src fs)).

(** ** The coordinator *)
Module Coordinator.

(** [capacity] is that of the channel [taskQueue]. *)
Record Coordinator := mkCoordinator {
  nMap : Z; nReduce : Z; taskQueue : list TaskInfo; capacity : Z;
  taskTraceMap : gmap string TaskInfo; Phase : string;
}.

Definition set_queue q c := mkCoordinator (nMap c) (nReduce c) q (capacity c) (taskTraceMap c) (Phase c).
Definition set_trace m c := mkCoordinator (nMap c) (nReduce c) (taskQueue c) (capacity c) m (Phase c).
Definition set_Phase p c := mkCoordinator (nMap c) (nReduce c) (taskQueue c) (capacity c) (taskTraceMap c) p.

Definition traceKey (taskType : string) (id : Z) : string := taskType +:+ "_" +:+ Itoa id.

(** [c.taskQueue <- task]: [None] while the channel is full. *)
Definition send (task : TaskInfo) (c : Coordinator) : option Coordinator :=
  if zlen (taskQueue c) <? capacity c then Some (set_queue (taskQueue c ++ [task]) c) else None.

(** [AssignTask] up to the first unlock: the answer when the job is done. *)
Definition assignCheck (c : Coordinator) : option AssignTaskReply :=
  if bool_decide (Phase c = DONE) then Some (mkAssign (mkTask 0 QUIT "" zeroTime) 0 0) else None.
(** The receive, which blocks while the queue is empty. *)
Definition assignTake (now : Z) (c : Coordinator) : option (TaskInfo * AssignTaskReply * Coordinator) :=
  match taskQueue c with
  | [] => None
  | task :: rest =>
      let task := mkTask (Id task) (TaskType task) (Filename task) (now + maxTaskTime * Second) in
      Some (task, mkAssign task (nMap c) (nReduce c), set_queue rest c)
  end.
(** The second critical section. *)
Definition assignTrace (task : TaskInfo) (c : Coordinator) : Coordinator :=
  if negb (bool_decide (Phase c = DONE))
  then set_trace (<[traceKey (Phase c) (Id task) := task]> (taskTraceMap c)) c else c.

(** The renames of an accepted task; [None] is [log.Fatalf]. *)
Definition acceptFiles (args : ReportTaskArgs) (c : Coordinator) (fs : Files) : option Files :=
  if bool_decide (RTaskType args = MAP) then
    foldl (λ acc i, fs ← acc; Rename (tmpMapOutFile (TaskID args) i) (finalMapOutFile (TaskID args) i) fs)
      (Some fs) (zrange 0 (nReduce c))
  else if bool_decide (RTaskType args = REDUCE) then
    Rename (tmpReduceOutFile (TaskID args)) (finalReduceOutFile (TaskID args)) fs
  else Some fs.

(** The phase change at the end of [ReportTask], and whether it starts [generateReduceTasks]. *)
Definition advancePhase (c : Coordinator) : bool * Coordinator :=
  if bool_decide (taskQueue c = []) && bool_decide (taskTraceMap c = ∅) && negb (bool_decide (Phase c = DONE)) then
    if bool_decide (Phase c = MAP) then (true, set_Phase REDUCE c)
    else if bool_decide (Phase c = REDUCE) then (false, set_Phase DONE c)
    else (false, c)
  else (false, c).

Definition ReportTask (now : Z) (args : ReportTaskArgs) (c : Coordinator) (fs : Files)
    : option (bool * bool * Coordinator * Files) :=
  let key := traceKey (RTaskType args) (TaskID args) in
  '(accept, c1, fs1) ←
    (if After now (Deadline (default noTask (taskTraceMap c !! key))) then Some (false, c, fs)
     else fs1 ← acceptFiles args c fs; Some (true, set_trace (delete key (taskTraceMap c)) c, fs1));
  let '(start, c2) := advancePhase c1 in
  Some (accept, start, c2, fs1).

(** Iteration [i] of [generateReduceTasks], which runs without the lock. *)
Definition generateReduceTask (i : Z) (c : Coordinator) : option Coordinator :=
  send (mkTask i REDUCE "" zeroTime) c.

Definition Done (c : Coordinator) : bool := bool_decide (Phase c = DONE).

Definition mapTasks (files : list string) : list TaskInfo :=
  imap (λ i file, mkTask (Z.of_nat i) MAP file zeroTime) files.
Definition MakeCoordinator (files : list string) (nReduce : Z) : Coordinator :=
  mkCoordinator (zlen files) nReduce (mapTasks files) (Z.max nReduce (zlen files)) ∅ MAP.

Section retrieve.
Context `{MapOrder}.

(** One iteration of [retriveTimeoutTasks], under the lock: [None] when a send blocks.  An entry
    deleted before the range reaches it is not visited. *)
Definition retrieveTask (now : Z) (key : string) (c : Coordinator) : option Coordinator :=
  match taskTraceMap c !! key with
  | Some task =>
      if After now (Deadline task)
      then send task (set_trace (delete (traceKey (TaskType task) (Id task)) (taskTraceMap c)) c)
      else Some c
  | None => Some c
  end.
Definition retriveTimeoutTasks (now : Z) (c : Coordinator) : option Coordinator :=
  foldl (λ acc key, c ← acc; retrieveTask now key c) (Some c) (fst <$> map_order (taskTraceMap c)).
End retrieve.
End Coordinator.

(** ** The worker *)
Module Worker.

Record KeyValue := mkKV { Key : string; Value : string }.

(** [fnv.New32a] and its [Sum32], on 32-bit words. *)
Definition fnv32a (key : string) : Z :=
  foldl (λ h c, (Z.lxor h (Z.of_nat (nat_of_ascii c)) * 16777619) mod 2 ^ 32) 2166136261 (String.list_ascii_of_string key).
Definition ihash (key : string) : Z := Z.land (fnv32a key) 2147483647.

(** [ihash(kv.Key) % nReduce]; [None] is the division by zero. *)
Definition bucket (nReduce : Z) (key : string) : option Z :=
  if nReduce =? 0 then None else Some (Z.rem (ihash key) nReduce).

(** [fmt.Fprintf("%v\t%v\n", ...)]. *)
Definition tab : ascii := "009".
Definition newline : ascii := "010".
Definition printKV (kv : KeyValue) : string := Key kv +:+ String tab (Value kv +:+ String newline "").

Definition hashKVs (nReduce : Z) (intermediate : list KeyValue) : option (gmap Z (list KeyValue)) :=
  foldl (λ acc kv, m ← acc; i ← bucket nReduce (Key kv); Some (<[i := default [] (m !! i) ++ [kv]]> m))
    (Some ∅) intermediate.

(** Each bucket is written to a temporary file that is renamed when it is complete. *)
Definition writeToFile (taskId nReduce : Z) (intermediate : list KeyValue) (fs : Files) : option Files :=
  hashed ← hashKVs nReduce intermediate;
  Some (foldl (λ fs i, <[tmpMapOutFile taskId i :=
      foldr (λ kv s, printKV kv +:+ s) ""%string (default [] (hashed !! i))]> fs) fs (zrange 0 nReduce)).

Definition generateIntermediate (filename : string) (mapf : string → string → list KeyValue) (fs : Files)
    : option (list KeyValue) :=
  content ← fs !! filename; Some (mapf filename content).

(** [doMapTask] and [doReduceTask] up to the report. *)
Definition doMapTask (taskId : Z) (filename : string) (nReduce : Z) (mapf : string → string → list KeyValue)
    (fs : Files) : option Files :=
  intermediate ← generateIntermediate filename mapf fs; writeToFile taskId nReduce intermediate fs.

(** [strings.Split(s, sep)] for a separator of one byte. *)
Fixpoint Split (s : string) (sep : ascii) : list string :=
  match s with
  | EmptyString => [""%string]
  | String c s =>
      if Ascii.eqb c sep then ""%string :: Split s sep
      else match Split s sep with
           | w :: ws => String c w :: ws
           | [] => [String c ""]
           end
  end.

(** [strings.TrimSpace(s) == ""]: only white space, in ASCII or in UTF-8. *)
Fixpoint blank (s : list Z) : bool :=
  match s with
  | [] => true
  | 9 :: s | 10 :: s | 11 :: s | 12 :: s | 13 :: s | 32 :: s => blank s
  | 194 :: 133 :: s | 194 :: 160 :: s => blank s
  | 225 :: 154 :: 128 :: s | 226 :: 129 :: 159 :: s | 227 :: 128 :: 128 :: s => blank s
  | 226 :: 128 :: c :: s =>
      if (128 <=? c) && (c <=? 138) || (c =? 168) || (c =? 169) || (c =? 175) then blank s else false
  | _ => false
  end.
Definition isBlank (s : string) : bool := blank ((λ c, Z.of_nat (nat_of_ascii c)) <$> String.list_ascii_of_string s).

Definition readIntermediate (taskId nMap : Z) (fs : Files) : option (list string) :=
  foldl (λ acc i, lines ← acc; content ← fs !! finalMapOutFile i taskId; Some (lines ++ Split content newline))
    (Some []) (zrange 0 nMap).

(** The parsing loop; a line without a tab is the index panic. *)
Fixpoint parseLines (lines : list string) : option (list KeyValue) :=
  match lines with
  | [] => Some []
  | line :: lines =>
      if isBlank line then parseLines lines else
      let sp := Split line tab in
      k ← index sp 0; v ← index sp 1; kvs ← parseLines lines; Some (mkKV k v :: kvs)
  end.

(** [sort.Sort] promises a permutation in order of the keys and nothing more. *)
Class SortByKey := {
  sort_keys : list KeyValue → list KeyValue;
  sort_keys_perm l : sort_keys l ≡ₚ l;
  sort_keys_sorted l : StronglySorted (λ a b, String.leb (Key a) (Key b) = true) (sort_keys l);
}.

Section reduce.
Context `{SortByKey} (reducef : string → list string → string).

(** The end of the run of equal keys that starts at [i]. *)
Fixpoint runLength (key : string) (kva : list KeyValue) : nat :=
  match kva with
  | kv :: kva => if bool_decide (Key kv = key) then S (runLength key kva) else 0
  | [] => 0
  end.

(** The outer loop on what is left of [kva]; every iteration consumes at least one pair. *)
Fixpoint reduceLoop (fuel : nat) (kva : list KeyValue) : list (string * string) :=
  match fuel, kva with
  | S fuel, kv :: rest =>
      let n := runLength (Key kv) rest in
      (Key kv, reducef (Key kv) (Value kv :: (Value <$> take n rest))) :: reduceLoop fuel (drop n rest)
  | _, _ => []
  end.

Definition printOutput (p : string * string) : string := p.1 +:+ String " " (p.2 +:+ String newline "").

Definition doReduceTask (taskId nMap : Z) (fs : Files) : option Files :=
  lines ← readIntermediate taskId nMap fs;
  kva ← parseLines lines;
  let kva := sort_keys kva in
  Some (<[tmpReduceOutFile taskId := foldr (λ p s, printOutput p +:+ s) ""%string (reduceLoop (length kva) kva)]> fs).
End reduce.
End Worker.
