(* ===== verification/MRWorker.v ===== *)
(** * What a MapReduce worker computes *)
From stdpp Require Import pretty.
From Stdlib Require Import Ascii.
From S2P Require Import Prelude MapReduce.
Import Worker.

#[export] Instance KeyValue_eq_dec : EqDecision KeyValue.
Proof. solve_decision. Defined.

(** ** Hashing *)
Lemma ihash_range key : 0 ≤ ihash key < 2 ^ 31.
Proof.
  unfold ihash. change 2147483647 with (Z.ones 31). rewrite Z.land_ones by lia. apply Z.mod_pos_bound. lia.
Qed.

Lemma bucket_range nReduce key : 0 < nReduce → ∃ i, bucket nReduce key = Some i ∧ 0 ≤ i < nReduce.
Proof.
  intros Hn. unfold bucket. destruct (nReduce =? 0) eqn:He; [lia|]. eexists. split; [done|].
  pose proof (ihash_range key). apply Z.rem_bound_pos; lia.
Qed.

(** The pairs of one bucket, in order. *)
Definition in_bucket (nReduce i : Z) (l : list KeyValue) : list KeyValue :=
  filter (λ kv, bucket nReduce (Key kv) = Some i) l.

Lemma hashKVs_spec nReduce l :
  0 < nReduce → ∃ m, hashKVs nReduce l = Some m ∧ ∀ i, default [] (m !! i) = in_bucket nReduce i l.
Proof.
  intros Hn. unfold hashKVs. induction l as [|kv l IH] using rev_ind; [by exists ∅|].
  rewrite foldl_app. destruct IH as (m & -> & Hm). simpl.
  destruct (bucket_range nReduce (Key kv) Hn) as (b & Hb & _). rewrite Hb. simpl. eexists. split; [done|].
  intros i. unfold in_bucket. rewrite filter_app, filter_cons, filter_nil, Hb.
  destruct (decide (i = b)) as [-> |Hne].
  - rewrite lookup_insert_eq, decide_True by done. simpl. by rewrite Hm.
  - rewrite lookup_insert_ne, decide_False, app_nil_r by congruence. apply Hm.
Qed.

(** ** Names *)
Lemma string_app_inj (s t u : string) : s +:+ t = s +:+ u → t = u.
Proof. induction s as [|c s IH]; simpl; [done|]. intros [= ?]. auto. Qed.

Lemma Itoa_inj i j : Itoa i = Itoa j → i = j.
Proof. apply (inj pretty). Qed.

(** The characters of a string. *)
Fixpoint occurs (c : ascii) (s : string) : Prop :=
  match s with EmptyString => False | String d s => d = c ∨ occurs c s end.

Lemma occurs_app c s t : occurs c (s +:+ t) ↔ occurs c s ∨ occurs c t.
Proof. induction s as [|d s IH]; simpl; [tauto|]. rewrite IH. tauto. Qed.

(** A decimal number has no hyphen. *)
Lemma pretty_N_no_hyphen (x : N) s : ~ occurs "-" s → ~ occurs "-" (pretty_N_go x s).
Proof.
  revert s. induction (N.lt_wf_0 x) as [x _ IH]; intros s Hs.
  destruct (decide (0 < x)%N) as [Hx|Hx]; [|by replace x with 0%N by lia].
  rewrite pretty_N_go_step by done. apply IH; [apply N.div_lt; lia|].
  simpl. intros [Hc|?]; [|done]. unfold pretty_N_char in Hc. repeat case_match; discriminate Hc.
Qed.

Lemma Itoa_no_hyphen i : 0 ≤ i → ~ occurs "-" (Itoa i).
Proof.
  intros Hi. unfold Itoa. destruct i as [|p|p]; [|apply pretty_N_no_hyphen; tauto|lia].
  simpl. intros [Hc|[]]. discriminate Hc.
Qed.

(** Splitting at the first separator. *)
Lemma sep_inj c s1 s2 t1 t2 :
  ~ occurs c s1 → ~ occurs c s2 → s1 +:+ String c t1 = s2 +:+ String c t2 → s1 = s2 ∧ t1 = t2.
Proof.
  revert s2. induction s1 as [|d s1 IH]; intros [|e s2] H1 H2 Heq; simpl in *; simplify_eq; try tauto.
  destruct (IH s2) as [-> ->]; tauto.
Qed.

Lemma tmpMap_inj i j i' j' : 0 ≤ i → 0 ≤ i' → tmpMapOutFile i j = tmpMapOutFile i' j' → i = i' ∧ j = j'.
Proof.
  intros Hi Hi' Heq. apply string_app_inj in Heq.
  apply (sep_inj "-") in Heq as [Hx Hy]; [|by apply Itoa_no_hyphen..]. split; by apply Itoa_inj.
Qed.

(** ** The intermediate files *)
Definition printAll (l : list KeyValue) : string := foldr (λ kv s, printKV kv +:+ s) ""%string l.

Lemma writeToFile_spec taskId nReduce l fs :
  0 ≤ taskId → 0 < nReduce →
  ∃ fs', writeToFile taskId nReduce l fs = Some fs' ∧
    (∀ i, 0 ≤ i < nReduce → fs' !! tmpMapOutFile taskId i = Some (printAll (in_bucket nReduce i l))) ∧
    (∀ f, (∀ i, 0 ≤ i < nReduce → f ≠ tmpMapOutFile taskId i) → fs' !! f = fs !! f).
Proof.
  intros Ht Hn. unfold writeToFile. destruct (hashKVs_spec nReduce l Hn) as (m & -> & Hm).
  cbn [mbind option_bind]. eexists. split; [done|].
  assert (∀ ids, NoDup ids →
    let fs' := foldl (λ fs i, <[tmpMapOutFile taskId i :=
      foldr (λ kv s, printKV kv +:+ s) ""%string (default [] (m !! i))]> fs) fs ids in
    (∀ i, i ∈ ids → fs' !! tmpMapOutFile taskId i = Some (printAll (in_bucket nReduce i l))) ∧
    (∀ f, (∀ i, i ∈ ids → f ≠ tmpMapOutFile taskId i) → fs' !! f = fs !! f)) as Hgen.
  { induction ids as [|i ids IH] using rev_ind; intros Hnd; simpl.
    { split; [|done]. intros i Hi. by apply elem_of_nil in Hi. }
    apply NoDup_app in Hnd as (Hnd & Hi & _). destruct (IH Hnd) as [IH1 IH2]. rewrite foldl_app. simpl. split.
    - intros j Hj. destruct (decide (j = i)) as [-> |Hne]; [by rewrite lookup_insert_eq, Hm|].
      rewrite lookup_insert_ne; [apply IH1; set_solver|]. intros Heq. apply tmpMap_inj in Heq as [_ ?]; [congruence|lia|lia].
    - intros f Hf. rewrite lookup_insert_ne; [apply IH2; set_solver|]. intros <-. apply (Hf i); set_solver. }
  destruct (Hgen (zrange 0 nReduce) (NoDup_zrange _ _)) as [H1 H2]. split.
  - intros i Hi. apply H1. by apply elem_of_zrange.
  - intros f Hf. apply H2. intros i Hi%elem_of_zrange. auto.
Qed.

(** ** Reading back *)
Lemma Split_app s c t : ~ occurs c s → Split (s +:+ String c t) c = s :: Split t c.
Proof.
  induction s as [|d s IH]; simpl; intros Hs; [by rewrite Ascii.eqb_refl|].
  destruct (Ascii.eqb_spec d c) as [-> |Hne]; [tauto|]. rewrite IH by tauto. done.
Qed.

Lemma Split_none s c : ~ occurs c s → Split s c = [s].
Proof.
  induction s as [|d s IH]; simpl; intros Hs; [done|].
  destruct (Ascii.eqb_spec d c) as [-> |Hne]; [tauto|]. by rewrite IH by tauto.
Qed.

Definition line_of (kv : KeyValue) : string := Key kv +:+ String tab (Value kv).

(** What the format can carry. *)
Definition clean (kv : KeyValue) : Prop :=
  ~ occurs tab (Key kv) ∧ ~ occurs newline (Key kv) ∧ ~ occurs tab (Value kv) ∧ ~ occurs newline (Value kv) ∧
  isBlank (line_of kv) = false.

Lemma string_cons_app c (s t : string) : String c s +:+ t = String c (s +:+ t).
Proof. reflexivity. Qed.

Lemma printKV_line kv t : printKV kv +:+ t = line_of kv +:+ String newline t.
Proof.
  unfold printKV, line_of. generalize (Key kv) (Value kv). intros k v.
  induction k as [|c k IH]; [|rewrite !string_cons_app; f_equal; exact IH].
  change (""%string +:+ String tab (v +:+ String newline "")) with (String tab (v +:+ String newline "")).
  change (""%string +:+ String tab v) with (String tab v). rewrite !string_cons_app. f_equal.
  induction v as [|c v IH]; [done|]. rewrite !string_cons_app. f_equal. exact IH.
Qed.

Lemma Split_printAll l : Forall clean l → Split (printAll l) newline = (line_of <$> l) ++ [""%string].
Proof.
  induction l as [|kv l IH]; intros Hl; [done|]. apply Forall_cons in Hl as [(Hk1 & Hk2 & Hv1 & Hv2 & _) Hl].
  cbn [printAll foldr]. fold (printAll l). rewrite printKV_line, Split_app, IH by
    (done || (unfold line_of; rewrite occurs_app; simpl; intros [?|[Hc|?]]; [done|discriminate Hc|done])).
  done.
Qed.

Lemma parseLines_app l1 l2 :
  parseLines (l1 ++ l2) = (k1 ← parseLines l1; k2 ← parseLines l2; Some (k1 ++ k2)).
Proof.
  induction l1 as [|x l1 IH]; simpl; [by destruct (parseLines l2)|].
  destruct (isBlank x); [done|].
  destruct (index (Split x tab) 0) as [k|]; [|done]. destruct (index (Split x tab) 1) as [v|]; [|done]. simpl.
  rewrite IH. destruct (parseLines l1); [|done]. simpl. by destruct (parseLines l2).
Qed.

Lemma parseLines_lines l : Forall clean l → parseLines ((line_of <$> l) ++ [""%string]) = Some l.
Proof.
  induction l as [|kv l IH]; intros Hl; [done|]. apply Forall_cons in Hl as [(Hk1 & _ & Hv1 & _ & Hb) Hl].
  cbn [fmap list_fmap app parseLines]. rewrite Hb. unfold line_of. rewrite Split_app, Split_none by done.
  simpl. fold line_of. rewrite IH by done. by destruct kv.
Qed.

Lemma readIntermediate_spec r (ls : list (list KeyValue)) fs :
  Forall (Forall clean) ls →
  (∀ i l, ls !! i = Some l → fs !! finalMapOutFile (Z.of_nat i) r = Some (printAll l)) →
  ∃ lines, readIntermediate r (zlen ls) fs = Some lines ∧ parseLines lines = Some (concat ls).
Proof.
  unfold readIntermediate. induction ls as [|l ls IH] using rev_ind; intros Hc Hf.
  { by exists []. }
  apply Forall_app in Hc as [Hcs Hc]. apply Forall_cons in Hc as [Hc _].
  destruct IH as (lines & Hlines & Hparse); [done|intros i l' Hl'; by apply Hf, lookup_app_l_Some|].
  rewrite length_app, Nat2Z.inj_add. cbn [length]. rewrite zrange_snoc by lia. rewrite foldl_app, Hlines. simpl.
  rewrite (Hf (length ls) l) by (by rewrite lookup_app_r, Nat.sub_diag by lia). simpl. eexists. split; [done|].
  rewrite parseLines_app, Hparse, Split_printAll, parseLines_lines, concat_app by done. simpl. by rewrite app_nil_r.
Qed.

(** ** The reduce loop *)
Section reduce.
Context `{SortByKey} (reducef : string → list string → string).

Definition key_le (a b : KeyValue) : Prop := String.leb (Key a) (Key b) = true.

(** All values of a key, in order. *)
Definition values_of (k : string) (l : list KeyValue) : list string := Value <$> filter (λ kv, Key kv = k) l.

Lemma runLength_spec k l :
  Forall (λ kv, Key kv = k) (take (runLength k l) l) ∧
  match drop (runLength k l) l with kv :: _ => Key kv ≠ k | [] => True end.
Proof.
  induction l as [|kv l [IH1 IH2]]; simpl; [done|]. case_bool_decide as Hk; simpl; [|done]. by split; [constructor|].
Qed.

Lemma sorted_drop n (l : list KeyValue) : StronglySorted key_le l → StronglySorted key_le (drop n l).
Proof.
  revert l. induction n as [|n IH]; intros [|x l] Hs; simpl; [constructor|done|constructor|].
  inversion Hs; subst. auto.
Qed.

(** After the run of a key in a sorted list the key does not come back. *)
Lemma run_over k l :
  StronglySorted key_le l → Forall (λ kv, String.leb k (Key kv) = true) l →
  Forall (λ kv, Key kv ≠ k ∧ String.leb k (Key kv) = true) (drop (runLength k l) l).
Proof.
  intros Hs Hk. destruct (runLength_spec k l) as [_ Hhead]. pose proof (sorted_drop (runLength k l) l Hs) as Hd.
  assert (Forall (λ kv, String.leb k (Key kv) = true) (drop (runLength k l) l)) as Hk' by by apply Forall_drop.
  destruct (drop (runLength k l) l) as [|x rest]; [done|]. apply Forall_cons in Hk' as [Hx Hrest].
  inversion Hd as [|? ? _ Hall]; subst. constructor; [done|]. rewrite Forall_forall in *. intros y Hy.
  split; [|auto]. intros Heq. apply Hhead. apply String.leb_antisym; [|done]. rewrite <-Heq. by apply Hall.
Qed.

Lemma filter_all k l : Forall (λ kv, Key kv = k) l → filter (λ kv, Key kv = k) l = l.
Proof. induction 1; [done|]. rewrite filter_cons, decide_True by done. congruence. Qed.
Lemma filter_none k l : Forall (λ kv, Key kv ≠ k) l → filter (λ kv, Key kv = k) l = [].
Proof. induction 1; [done|]. by rewrite filter_cons, decide_False by done. Qed.

Lemma filter_run k l rest :
  Forall (λ kv, Key kv = k) l → Forall (λ kv, Key kv ≠ k) rest → filter (λ kv, Key kv = k) (l ++ rest) = l.
Proof.
  intros Hl Hr. by rewrite filter_app, filter_all, filter_none, app_nil_r.
Qed.

Definition key_lt (k k' : string) : Prop := String.leb k k' = true ∧ k ≠ k'.

(** The loop visits the keys in strictly increasing order and passes each all its values. *)
Lemma reduceLoop_spec fuel l :
  StronglySorted key_le l → (length l ≤ fuel)%nat →
  ∃ ks, reduceLoop reducef fuel l = (λ k, (k, reducef k (values_of k l))) <$> ks ∧
    StronglySorted key_lt ks ∧ ∀ k, k ∈ ks ↔ k ∈ Key <$> l.
Proof.
  revert l. induction fuel as [|fuel IH]; intros l Hs Hf; [by destruct l; [exists []; split_and!; [|constructor|]|simpl in Hf; lia]|].
  destruct l as [|kv l]; [exists []; split_and!; [done|constructor|done]|]. simpl in Hf.
  inversion Hs as [|? ? Hs' Hle]; subst. set (n := runLength (Key kv) l).
  pose proof (run_over (Key kv) l Hs' Hle) as Hover. fold n in Hover.
  destruct (runLength_spec (Key kv) l) as [Hrun _]. fold n in Hrun.
  destruct (IH (drop n l)) as (ks & Hks & Hsorted & Hin); [by apply sorted_drop|rewrite length_drop; lia|].
  assert (∀ k, k ∈ ks → key_lt (Key kv) k) as Hlt.
  { intros k (x & -> & Hx)%Hin%list_elem_of_fmap. rewrite Forall_forall in Hover. destruct (Hover x Hx). done. }
  exists (Key kv :: ks). cbn [reduceLoop]. fold n. rewrite Hks. split_and!.
  - simpl. f_equal.
    + do 2 f_equal. unfold values_of. rewrite filter_cons, decide_True by done. simpl. do 2 f_equal.
      rewrite <-(take_drop n l) at 2. rewrite filter_run; [done|done|].
      eapply Forall_impl; [exact Hover|]. by intros ? [].
    + apply list_fmap_ext. intros i k Hk. f_equal. f_equal. unfold values_of. f_equal.
      destruct (Hlt k (list_elem_of_lookup_2 _ _ _ Hk)) as [_ Hne].
      rewrite filter_cons, decide_False by done. rewrite <-(take_drop n l) at 2. rewrite filter_app.
      rewrite (filter_none k (take n l)); [done|]. eapply Forall_impl; [exact Hrun|]. by intros x ->.
  - constructor; [done|]. by apply Forall_forall.
  - intros k. simpl. rewrite !elem_of_cons, Hin. rewrite <-(take_drop n l) at 2. rewrite fmap_app, elem_of_app.
    split; [tauto|]. intros [?|[Hk|?]]; [tauto| |tauto]. left. apply list_elem_of_fmap in Hk as (x & -> & Hx).
    rewrite Forall_forall in Hrun. auto.
Qed.

Lemma doReduceTask_spec r (ls : list (list KeyValue)) fs :
  Forall (Forall clean) ls →
  (∀ i l, ls !! i = Some l → fs !! finalMapOutFile (Z.of_nat i) r = Some (printAll l)) →
  ∃ ks vs, doReduceTask reducef r (zlen ls) fs = Some (<[tmpReduceOutFile r :=
      foldr (λ p s, printOutput p +:+ s) ""%string ((λ k, (k, reducef k (vs k))) <$> ks)]> fs) ∧
    StronglySorted key_lt ks ∧ (∀ k, k ∈ ks ↔ k ∈ Key <$> concat ls) ∧
    ∀ k, vs k ≡ₚ values_of k (concat ls).
Proof.
  intros Hc Hf. destruct (readIntermediate_spec r ls fs Hc Hf) as (lines & Hl & Hp).
  unfold doReduceTask. rewrite Hl. cbn [mbind option_bind]. rewrite Hp. cbn [mbind option_bind].
  pose proof (sort_keys_perm (concat ls)) as Hperm.
  destruct (reduceLoop_spec (length (sort_keys (concat ls))) (sort_keys (concat ls))) as (ks & -> & Hs & Hin);
    [apply sort_keys_sorted|done|].
  exists ks, (λ k, values_of k (sort_keys (concat ls))). split_and!; [done|done| |].
  - intros k. by rewrite Hin, Hperm.
  - intros k. unfold values_of. by rewrite Hperm.
Qed.
End reduce.
