(* ===== verification/MRSystem.v ===== *)
(** * A MapReduce job: coordinator, workers and files together

    A job interleaves the critical sections of the coordinator's handlers and goroutines with the
    workers.  Between the receive of [AssignTask] and its second critical section a task is neither
    in the queue nor in the trace map, and [generateReduceTasks] fills the queue without the lock;
    [quiet] says that neither is in progress. *)
From stdpp Require Import pretty.
From Stdlib Require Import Ascii.
From S2P Require Import Prelude MapReduce MRWorker.
Import Coordinator Worker.

Record Job := mkJob {
  co : Coordinator;
  fs : Files;
  taken : list TaskInfo;             (* received by [AssignTask], not yet traced *)
  gen : option Z;                    (* the next task of a running [generateReduceTasks] *)
  given : list TaskInfo;             (* tasks workers are executing *)
  reports : list ReportTaskArgs;     (* reports on their way *)
}.

Definition set_co c J := mkJob c (fs J) (taken J) (gen J) (given J) (reports J).
Definition quiet (J : Job) : Prop := taken J = [] ∧ gen J = None.

Section system.
Context `{MapOrder} `{SortByKey}.
Context (mapf : string → string → list KeyValue) (reducef : string → list string → string).

(** The [switch] of [Worker]. *)
Definition do_task (c : Coordinator) (task : TaskInfo) (fs : Files) : option Files :=
  if bool_decide (TaskType task = MAP) then doMapTask (Id task) (Filename task) (nReduce c) mapf fs
  else if bool_decide (TaskType task = REDUCE) then doReduceTask reducef (Id task) (nMap c) fs
  else None.

(** [G] restricts when a report is handled. *)
Inductive job_step (G : Job → Prop) : Job → Job → Prop :=
| js_take J now task reply c :
    0 < now → assignTake now (co J) = Some (task, reply, c) →
    job_step G J (mkJob c (fs J) (task :: taken J) (gen J) (given J) (reports J))
| js_trace J task l1 l2 :
    taken J = l1 ++ task :: l2 →
    job_step G J (mkJob (assignTrace task (co J)) (fs J) (l1 ++ l2) (gen J) (task :: given J) (reports J))
| js_work J task l1 l2 fs' :
    given J = l1 ++ task :: l2 → do_task (co J) task (fs J) = Some fs' →
    job_step G J (mkJob (co J) fs' (taken J) (gen J) (l1 ++ l2) (mkReport (Id task) (TaskType task) :: reports J))
| js_crash J task l1 l2 :
    given J = l1 ++ task :: l2 →
    job_step G J (mkJob (co J) (fs J) (taken J) (gen J) (l1 ++ l2) (reports J))
| js_report J now args l1 l2 accept start c fs' :
    G J → 0 < now → reports J = l1 ++ args :: l2 →
    ReportTask now args (co J) (fs J) = Some (accept, start, c, fs') →
    job_step G J (mkJob c fs' (taken J) (if start : bool then Some 0 else gen J) (given J) (l1 ++ l2))
| js_generate J i c :
    gen J = Some i → i < nReduce (co J) → generateReduceTask i (co J) = Some c →
    job_step G J (mkJob c (fs J) (taken J) (Some (i + 1)) (given J) (reports J))
| js_generated J i :
    gen J = Some i → nReduce (co J) ≤ i →
    job_step G J (mkJob (co J) (fs J) (taken J) None (given J) (reports J))
| js_retrieve J now c :
    0 < now → retriveTimeoutTasks now (co J) = Some c → job_step G J (set_co c J).

Definition start_job (inputs : list string) (R : Z) (fs0 : Files) : Job :=
  mkJob (MakeCoordinator inputs R) fs0 [] None [] [].
End system.

(** ** Names *)
Lemma string_char_ne (n : nat) (s t : string) : String.get n s ≠ String.get n t → s ≠ t.
Proof. by intros Hne ->. Qed.

Lemma tmpMap_finalMap i j i' j' : tmpMapOutFile i j ≠ finalMapOutFile i' j'.
Proof. apply (string_char_ne 0). intros Heq. lazy in Heq. discriminate Heq. Qed.
Lemma tmpMap_tmpReduce i j r : tmpMapOutFile i j ≠ tmpReduceOutFile r.
Proof. apply (string_char_ne 7). intros Heq. lazy in Heq. discriminate Heq. Qed.
Lemma tmpMap_finalReduce i j r : tmpMapOutFile i j ≠ finalReduceOutFile r.
Proof. apply (string_char_ne 0). intros Heq. lazy in Heq. discriminate Heq. Qed.
Lemma finalMap_tmpReduce i j r : finalMapOutFile i j ≠ tmpReduceOutFile r.
Proof. apply (string_char_ne 0). intros Heq. lazy in Heq. discriminate Heq. Qed.
Lemma finalMap_finalReduce i j r : finalMapOutFile i j ≠ finalReduceOutFile r.
Proof. apply (string_char_ne 3). intros Heq. lazy in Heq. discriminate Heq. Qed.
Lemma tmpReduce_finalReduce r r' : tmpReduceOutFile r ≠ finalReduceOutFile r'.
Proof. apply (string_char_ne 0). intros Heq. lazy in Heq. discriminate Heq. Qed.

Create HintDb mr.
#[export] Hint Resolve tmpMap_finalMap tmpMap_tmpReduce tmpMap_finalReduce finalMap_tmpReduce
  finalMap_finalReduce tmpReduce_finalReduce : mr.
#[export] Hint Extern 1 (_ ≠ _) => apply not_eq_sym : mr.

Lemma finalMap_inj i j i' j' : 0 ≤ i → 0 ≤ i' → finalMapOutFile i j = finalMapOutFile i' j' → i = i' ∧ j = j'.
Proof.
  intros Hi Hi' Heq. apply string_app_inj in Heq.
  apply (sep_inj "-"%char) in Heq as [Hx Hy]; [|by apply Itoa_no_hyphen..]. split; by apply Itoa_inj.
Qed.
Lemma tmpReduce_inj r r' : tmpReduceOutFile r = tmpReduceOutFile r' → r = r'.
Proof. intros Heq%string_app_inj. by apply Itoa_inj. Qed.
Lemma finalReduce_inj r r' : finalReduceOutFile r = finalReduceOutFile r' → r = r'.
Proof. intros Heq%string_app_inj. by apply Itoa_inj. Qed.

Definition task_type (t : string) : Prop := t = MAP ∨ t = REDUCE.

Lemma traceKey_inj t t' i i' :
  task_type t → task_type t' → traceKey t i = traceKey t' i' → t = t' ∧ i = i'.
Proof.
  intros [-> | ->] [-> | ->] Heq.
  - split; [done|]. by apply string_app_inj, string_app_inj, Itoa_inj in Heq.
  - apply (f_equal (String.get 0)) in Heq. lazy in Heq. discriminate Heq.
  - apply (f_equal (String.get 0)) in Heq. lazy in Heq. discriminate Heq.
  - split; [done|]. by apply string_app_inj, string_app_inj, Itoa_inj in Heq.
Qed.

(** Names the job writes. *)
Definition generated (f : string) : Prop :=
  ∃ i j, f = tmpMapOutFile i j ∨ f = finalMapOutFile i j ∨ f = tmpReduceOutFile i ∨ f = finalReduceOutFile i.

(** ** The invariant *)
Section invariant.
Context `{MapOrder} `{SortByKey}.
Context (mapf : string → string → list KeyValue) (reducef : string → list string → string).
Context (inputs : list string) (R : Z) (fs0 : Files).

Abbreviation N := (zlen inputs).

(** The pairs map task [i] produces, and what reduce task [r] writes. *)
Definition inter (i : Z) : list KeyValue :=
  match inputs !! Z.to_nat i with
  | Some f => mapf f (default ""%string (fs0 !! f))
  | None => []
  end.
Definition reduceInput (r : Z) : list (list KeyValue) := (λ i, in_bucket R r (inter i)) <$> zrange 0 N.
Definition reduceText (r : Z) : string :=
  let kva := sort_keys (concat (reduceInput r)) in
  foldr (λ p s, printOutput p +:+ s) ""%string (reduceLoop reducef (length kva) kva).

Record inputs_ok : Prop := {
  io_R : 0 < R;
  io_files f : f ∈ inputs → is_Some (fs0 !! f) ∧ ~ generated f;
  io_fresh f : generated f → fs0 !! f = None;
  io_clean i : 0 ≤ i < N → Forall clean (inter i);
}.

Definition task_ok (p : string) (t : TaskInfo) : Prop :=
  TaskType t = MAP ∧ 0 ≤ Id t < N ∧ inputs !! Z.to_nat (Id t) = Some (Filename t) ∨
  TaskType t = REDUCE ∧ 0 ≤ Id t < R ∧ p ≠ MAP.
Definition report_ok (p : string) (a : ReportTaskArgs) : Prop :=
  RTaskType a = MAP ∧ 0 ≤ TaskID a < N ∨ RTaskType a = REDUCE ∧ 0 ≤ TaskID a < R ∧ p ≠ MAP.

(** What a file holds when it is there. *)
Record files_ok (f : Files) : Prop := {
  fo_input x : x ∈ inputs → f !! x = fs0 !! x;
  fo_tmpMap i r s : 0 ≤ i < N → 0 ≤ r < R → f !! tmpMapOutFile i r = Some s → s = printAll (in_bucket R r (inter i));
  fo_finalMap i r s : 0 ≤ i < N → 0 ≤ r < R → f !! finalMapOutFile i r = Some s → s = printAll (in_bucket R r (inter i));
  fo_tmpReduce r s : 0 ≤ r < R → f !! tmpReduceOutFile r = Some s → s = reduceText r;
  fo_finalReduce r s : 0 ≤ r < R → f !! finalReduceOutFile r = Some s → s = reduceText r;
}.

Definition tmp_there (p : string) (i : Z) (f : Files) : Prop :=
  if decide (p = MAP) then ∀ r, 0 ≤ r < R → is_Some (f !! tmpMapOutFile i r) else is_Some (f !! tmpReduceOutFile i).
Definition final_there (p : string) (i : Z) (f : Files) : Prop :=
  if decide (p = MAP) then ∀ r, 0 ≤ r < R → is_Some (f !! finalMapOutFile i r) else is_Some (f !! finalReduceOutFile i).

Definition pool (J : Job) : list TaskInfo :=
  taskQueue (co J) ++ taken J ++ (snd <$> map_to_list (taskTraceMap (co J))).
(** The tasks of the phase that have been generated. *)
Definition limit (J : Job) : Z := if decide (Phase (co J) = MAP) then N else default R (gen J).

(** [dn] are the tasks of the phase whose report was accepted. *)
Record JInv (J : Job) (dn : list Z) : Prop := {
  ji_nMap : nMap (co J) = N;
  ji_nReduce : nReduce (co J) = R;
  ji_capacity : capacity (co J) = Z.max R N;
  ji_phase : Phase (co J) = MAP ∨ Phase (co J) = REDUCE ∨ Phase (co J) = DONE ∧ pool J = [];
  ji_type t : t ∈ pool J → TaskType t = Phase (co J);
  ji_task t : t ∈ pool J ++ given J → task_ok (Phase (co J)) t;
  ji_key k t : taskTraceMap (co J) !! k = Some t → k = traceKey (TaskType t) (Id t);
  ji_tasks : (Id <$> pool J) ++ dn ≡ₚ zrange 0 (limit J);
  ji_gen i : gen J = Some i → Phase (co J) = REDUCE ∧ 0 ≤ i ≤ R;
  ji_maps i : Phase (co J) ≠ MAP → 0 ≤ i < N → final_there MAP i (fs J);
  ji_done i : i ∈ dn → final_there (Phase (co J)) i (fs J);
  ji_reports a : a ∈ reports J → report_ok (Phase (co J)) a ∧
    (RTaskType a = Phase (co J) → TaskID a ∉ dn → tmp_there (Phase (co J)) (TaskID a) (fs J));
  ji_files : files_ok (fs J);
}.
End invariant.
