(* ===== verification/MRInvariant.v ===== *)
(** * The job invariant

    Every step of a job in which reports are handled in quiet states keeps the tasks of a phase
    partitioned between the queue, the handlers, the trace map and the accepted ones, and keeps
    every file equal to what a fault-free execution writes. *)
From S2P Require Import Prelude MapReduce MRWorker MRSystem.
Import Coordinator Worker.

Section invariant.
Context `{MapOrder} `{SortByKey}.
Context (mapf : string → string → list KeyValue) (reducef : string → list string → string).
Context (inputs : list string) (R : Z) (fs0 : Files).
Context (Hin : inputs_ok mapf inputs R fs0).

Abbreviation N := (zlen inputs).
Abbreviation JInv := (JInv mapf reducef inputs R fs0).
Abbreviation files_ok := (files_ok mapf reducef inputs R fs0).
Abbreviation inter := (inter mapf inputs fs0).
Abbreviation pool := (MRSystem.pool).
Implicit Types (J : Job) (dn : list Z) (c : Coordinator).

(** ** Files *)
Lemma input_not_generated x f : x ∈ inputs → generated f → x ≠ f.
Proof. intros Hx Hg ->. destruct (io_files _ _ _ _ Hin f Hx) as [_ Hn]. done. Qed.

Lemma gen_tmpMap i j : generated (tmpMapOutFile i j). Proof. exists i, j. tauto. Qed.
Lemma gen_finalMap i j : generated (finalMapOutFile i j). Proof. exists i, j. tauto. Qed.
Lemma gen_tmpReduce i : generated (tmpReduceOutFile i). Proof. exists i, 0. tauto. Qed.
Lemma gen_finalReduce i : generated (finalReduceOutFile i). Proof. exists i, 0. tauto. Qed.
#[local] Hint Resolve gen_tmpMap gen_finalMap gen_tmpReduce gen_finalReduce : mr.

(** A change confined to the temporary files of one map task. *)
Lemma files_ok_map i f f' :
  0 ≤ i < N → files_ok f →
  (∀ r, 0 ≤ r < R → f' !! tmpMapOutFile i r = Some (printAll (in_bucket R r (inter i)))) →
  (∀ x, (∀ r, 0 ≤ r < R → x ≠ tmpMapOutFile i r) → f' !! x = f !! x) →
  files_ok f'.
Proof.
  intros Hi [Hin1 Htm Hfm Htr Hfr] Hw Ho. split.
  - intros x Hx. rewrite Ho; [auto|]. intros r _. apply input_not_generated; auto with mr.
  - intros i' r s Hi' Hr Hs. destruct (decide (i' = i)) as [-> |Hne]; [rewrite Hw in Hs by done; congruence|].
    rewrite Ho in Hs; [eauto|]. intros r' _ Heq. apply tmpMap_inj in Heq as [? _]; [done|lia|lia].
  - intros i' r s Hi' Hr Hs. rewrite Ho in Hs; [eauto|]. auto with mr.
  - intros r s Hr Hs. rewrite Ho in Hs; [eauto|]. auto with mr.
  - intros r s Hr Hs. rewrite Ho in Hs; [eauto|]. auto with mr.
Qed.

Lemma files_ok_reduce r f :
  0 ≤ r < R → files_ok f → files_ok (<[tmpReduceOutFile r := reduceText mapf reducef inputs R fs0 r]> f).
Proof.
  intros Hr [Hin1 Htm Hfm Htr Hfr]. split.
  - intros x Hx. rewrite lookup_insert_ne; [auto|]. apply not_eq_sym, input_not_generated; auto with mr.
  - intros i r' s Hi Hr' Hs. rewrite lookup_insert_ne in Hs by auto with mr. eauto.
  - intros i r' s Hi Hr' Hs. rewrite lookup_insert_ne in Hs by auto with mr. eauto.
  - intros r' s Hr' Hs. destruct (decide (r' = r)) as [-> |Hne]; [rewrite lookup_insert_eq in Hs; congruence|].
    rewrite lookup_insert_ne in Hs; [eauto|]. intros Heq%tmpReduce_inj. congruence.
  - intros r' s Hr' Hs. rewrite lookup_insert_ne in Hs by auto with mr. eauto.
Qed.

(** An accepted rename of a temporary file to the final one with the same promise. *)
Lemma files_ok_rename_map i r f f' :
  0 ≤ i < N → 0 ≤ r < R → files_ok f → Rename (tmpMapOutFile i r) (finalMapOutFile i r) f = Some f' → files_ok f'.
Proof.
  intros Hi Hr [Hin1 Htm Hfm Htr Hfr] Hren. unfold Rename in Hren. apply bind_Some in Hren as (s & Hs & [= <-]).
  pose proof (Htm i r s Hi Hr Hs) as ->. split.
  - intros x Hx. rewrite lookup_insert_ne, lookup_delete_ne; [auto|apply not_eq_sym, input_not_generated; auto with mr..].
  - intros i' r' s Hi' Hr'. rewrite lookup_insert_ne by auto with mr. rewrite lookup_delete_Some. intros [_ ?]. eauto.
  - intros i' r' s Hi' Hr'. rewrite lookup_insert_Some. intros [[Heq <-]|[_ Hl]].
    + apply finalMap_inj in Heq as [-> ->]; [done|lia|lia].
    + rewrite lookup_delete_ne in Hl by auto with mr. eauto.
  - intros r' s Hr'. rewrite lookup_insert_ne, lookup_delete_ne by auto with mr. eauto.
  - intros r' s Hr'. rewrite lookup_insert_ne, lookup_delete_ne by auto with mr. eauto.
Qed.

Lemma files_ok_rename_reduce r f f' :
  0 ≤ r < R → files_ok f → Rename (tmpReduceOutFile r) (finalReduceOutFile r) f = Some f' → files_ok f'.
Proof.
  intros Hr [Hin1 Htm Hfm Htr Hfr] Hren. unfold Rename in Hren. apply bind_Some in Hren as (s & Hs & [= <-]).
  pose proof (Htr r s Hr Hs) as ->. split.
  - intros x Hx. rewrite lookup_insert_ne, lookup_delete_ne; [auto|apply not_eq_sym, input_not_generated; auto with mr..].
  - intros i' r' s Hi' Hr'. rewrite lookup_insert_ne, lookup_delete_ne by auto with mr. eauto.
  - intros i' r' s Hi' Hr'. rewrite lookup_insert_ne, lookup_delete_ne by auto with mr. eauto.
  - intros r' s Hr'. rewrite lookup_insert_ne by auto with mr. rewrite lookup_delete_Some. intros [_ ?]. eauto.
  - intros r' s Hr'. rewrite lookup_insert_Some. intros [[Heq <-]|[_ Hl]].
    + apply finalReduce_inj in Heq as ->. done.
    + rewrite lookup_delete_ne in Hl by auto with mr. eauto.
Qed.

(** *** The renames of a report *)
Definition renameAll (i : Z) (rs : list Z) (f : Files) : option Files :=
  foldl (λ acc r, f ← acc; Rename (tmpMapOutFile i r) (finalMapOutFile i r) f) (Some f) rs.

Lemma renameAll_spec i rs f :
  0 ≤ i < N → NoDup rs → (∀ r, r ∈ rs → 0 ≤ r < R) → files_ok f →
  (∀ r, r ∈ rs → is_Some (f !! tmpMapOutFile i r)) →
  ∃ f', renameAll i rs f = Some f' ∧ files_ok f' ∧
    (∀ r, r ∈ rs → is_Some (f' !! finalMapOutFile i r)) ∧
    (∀ x, (∀ r, r ∈ rs → x ≠ tmpMapOutFile i r) → is_Some (f !! x) → is_Some (f' !! x)).
Proof.
  intros Hi Hnd Hr Hok Ht. unfold renameAll. induction rs as [|r rs IH] using rev_ind.
  { exists f. split_and!; try done. intros r Hr'. by apply elem_of_nil in Hr'. }
  apply NoDup_app in Hnd as (Hnd & Hni & _). rewrite foldl_app.
  destruct IH as (f1 & -> & Hok1 & Hf1 & Ho1); [done|set_solver|set_solver|]. cbn [foldl mbind option_bind].
  assert (r ∈ rs ++ [r]) as Hrin by set_solver. assert (r ∉ rs) as Hrs by set_solver.
  destruct (Ho1 (tmpMapOutFile i r)) as [s Hs].
  { intros r' Hr' Heq. apply tmpMap_inj in Heq as [_ ->]; [done|lia|lia]. }
  { auto. }
  assert (Rename (tmpMapOutFile i r) (finalMapOutFile i r) f1
    = Some (<[finalMapOutFile i r := s]> (delete (tmpMapOutFile i r) f1))) as Hren by (unfold Rename; by rewrite Hs).
  exists (<[finalMapOutFile i r := s]> (delete (tmpMapOutFile i r) f1)). split_and!; [done| | |].
  - by apply (files_ok_rename_map i r f1); auto.
  - intros r' Hr'. destruct (decide (r' = r)) as [-> |Hne]; [rewrite lookup_insert_eq; by eexists|].
    rewrite lookup_insert_ne by (intros Heq; apply finalMap_inj in Heq as [_ ?]; [congruence|lia|lia]).
    rewrite lookup_delete_ne by auto with mr. apply Hf1. set_solver.
  - intros x Hx Hsx. destruct (decide (x = finalMapOutFile i r)) as [-> |Hne]; [rewrite lookup_insert_eq; by eexists|].
    rewrite lookup_insert_ne, lookup_delete_ne by (try done; apply not_eq_sym, Hx; set_solver).
    apply Ho1; [|done]. intros r' Hr'. apply Hx. set_solver.
Qed.

(** The temporary files of a task. *)
Definition is_tmp (p : string) (i : Z) (x : string) : Prop :=
  if decide (p = MAP) then ∃ r, x = tmpMapOutFile i r else x = tmpReduceOutFile i.

Lemma acceptFiles_spec a c f :
  nReduce c = R → report_ok inputs R REDUCE a → files_ok f → tmp_there R (RTaskType a) (TaskID a) f →
  ∃ f', acceptFiles a c f = Some f' ∧ files_ok f' ∧ final_there R (RTaskType a) (TaskID a) f' ∧
    ∀ x, ~ is_tmp (RTaskType a) (TaskID a) x → is_Some (f !! x) → is_Some (f' !! x).
Proof.
  intros HR [[Ht Hi]|(Ht & Hi & _)] Hok Htmp; unfold acceptFiles, tmp_there, final_there, is_tmp in *; rewrite Ht in *.
  - rewrite bool_decide_eq_true_2, !decide_True in * by done. rewrite HR.
    destruct (renameAll_spec (TaskID a) (zrange 0 R) f) as (f' & Hf & Hok' & Hfin & Ho);
      [done|apply NoDup_zrange|intros r; by rewrite elem_of_zrange|done|intros r; rewrite elem_of_zrange; auto|].
    exists f'. split_and!; [done|done|intros r Hr; by apply Hfin, elem_of_zrange|].
    intros x Hx Hsx. apply Ho; [|done]. intros r _ ->. apply Hx. rewrite decide_True by done. eauto.
  - rewrite bool_decide_eq_false_2, bool_decide_eq_true_2, !decide_False in * by done.
    destruct Htmp as [s Hs]. assert (Rename (tmpReduceOutFile (TaskID a)) (finalReduceOutFile (TaskID a)) f
      = Some (<[finalReduceOutFile (TaskID a) := s]> (delete (tmpReduceOutFile (TaskID a)) f))) as Hren
      by (unfold Rename; by rewrite Hs).
    eexists. split_and!; [done|by eapply files_ok_rename_reduce|rewrite lookup_insert_eq; by eexists|].
    intros x Hx Hsx. rewrite decide_False in Hx by done.
    destruct (decide (x = finalReduceOutFile (TaskID a))) as [-> |]; [rewrite lookup_insert_eq; by eexists|].
    by rewrite lookup_insert_ne, lookup_delete_ne by congruence.
Qed.

Lemma not_tmp_finalMap p i j r : ~ is_tmp p i (finalMapOutFile j r).
Proof.
  unfold is_tmp. destruct (decide (p = MAP)); [intros [r' Heq]|intros Heq].
  - by apply (tmpMap_finalMap i r' j r).
  - by apply (finalMap_tmpReduce j r i).
Qed.
Lemma not_tmp_finalReduce p i r : ~ is_tmp p i (finalReduceOutFile r).
Proof.
  unfold is_tmp. destruct (decide (p = MAP)); [intros [r' Heq]|intros Heq].
  - by apply (tmpMap_finalReduce i r' r).
  - by apply (tmpReduce_finalReduce i r).
Qed.

Lemma final_not_tmp p i p' i' f f' :
  (∀ x, ~ is_tmp p i x → is_Some (f !! x) → is_Some (f' !! x)) →
  final_there R p' i' f → final_there R p' i' f'.
Proof.
  unfold final_there. intros Hx. destruct (decide (p' = MAP)).
  - intros Hf r Hr. apply Hx; [apply not_tmp_finalMap|auto].
  - apply Hx, not_tmp_finalReduce.
Qed.

Lemma tmp_other p i i' f f' :
  (∀ x, ~ is_tmp p i x → is_Some (f !! x) → is_Some (f' !! x)) → 0 ≤ i → 0 ≤ i' → i' ≠ i →
  tmp_there R p i' f → tmp_there R p i' f'.
Proof.
  unfold tmp_there, is_tmp. intros Hx Hi Hi' Hne. destruct (decide (p = MAP)).
  - intros Hf r Hr. apply Hx; [|auto]. intros [r' Heq]. apply tmpMap_inj in Heq as [? _]; [done|lia|lia].
  - apply Hx. intros Heq%tmpReduce_inj. done.
Qed.

(** ** Tasks *)
Definition shape (t : TaskInfo) : Z * string * string := (Id t, TaskType t, Filename t).

Lemma shape_in t (l : list TaskInfo) : shape t ∈ shape <$> l → ∃ t', t' ∈ l ∧ shape t' = shape t.
Proof. intros (t' & Heq & Hl)%list_elem_of_fmap. eauto. Qed.

Lemma task_ok_shape p t t' : shape t = shape t' → task_ok inputs R p t → task_ok inputs R p t'.
Proof. unfold shape, task_ok. intros [= -> -> ->]. done. Qed.

(** Steps that only move tasks around. *)
Lemma JInv_pool J J' dn :
  JInv J dn → nMap (co J') = nMap (co J) → nReduce (co J') = nReduce (co J) →
  capacity (co J') = capacity (co J) → Phase (co J') = Phase (co J) →
  fs J' = fs J → gen J' = gen J → reports J' = reports J →
  shape <$> pool J' ≡ₚ shape <$> pool J →
  (∀ t, t ∈ given J' → shape t ∈ shape <$> (pool J ++ given J)) →
  (∀ k t, taskTraceMap (co J') !! k = Some t → k = traceKey (TaskType t) (Id t)) →
  JInv J' dn.
Proof.
  intros [] E1 E2 E3 E4 E5 E6 E7 Hpool Hgiven Hkey.
  assert (∀ t, t ∈ pool J' → ∃ t', t' ∈ pool J ∧ shape t' = shape t) as Hp.
  { intros t Ht. apply shape_in. rewrite <-Hpool. by apply list_elem_of_fmap_2. }
  split; rewrite ?E1, ?E2, ?E3, ?E4, ?E5, ?E6, ?E7; try done.
  - destruct ji_phase as [?|[?|[? Hnil]]]; [by left|by right; left|]. right; right. split; [done|].
    rewrite Hnil in Hpool. apply Permutation_nil_r, fmap_nil_inv in Hpool. done.
  - intros t (t' & Ht' & [= _ <- _])%Hp. auto.
  - intros t [(t' & Ht' & Heq)%Hp|(t' & Ht' & Heq)%Hgiven%shape_in]%elem_of_app.
    + eapply task_ok_shape; [done|]. apply ji_task, elem_of_app. by left.
    + eapply task_ok_shape; [done|]. auto.
  - assert (Id <$> pool J' ≡ₚ Id <$> pool J) as ->.
    { apply (fmap_Permutation (λ x : Z * string * string, x.1.1)) in Hpool. rewrite <-!list_fmap_compose in Hpool. done. }
    unfold limit. by rewrite E4, E6.
Qed.

Lemma NoDup_ids J dn : JInv J dn → NoDup ((Id <$> pool J) ++ dn).
Proof. intros HJ. rewrite (ji_tasks _ _ _ _ _ _ _ HJ). apply NoDup_zrange. Qed.

Lemma take_ok J dn now task reply c :
  JInv J dn → assignTake now (co J) = Some (task, reply, c) →
  JInv (mkJob c (fs J) (task :: taken J) (gen J) (given J) (reports J)) dn.
Proof.
  intros HJ Ht. unfold assignTake in Ht. destruct (taskQueue (co J)) as [|t rest] eqn:Hq; [done|].
  injection Ht as <- <- <-. apply (JInv_pool J _ dn HJ); try done.
  - unfold MRSystem.pool. cbn [co taskQueue taken set_queue taskTraceMap]. rewrite Hq, !fmap_app, !fmap_cons.
    symmetry. apply Permutation_middle.
  - intros t' Ht'. apply list_elem_of_fmap_2, elem_of_app. by right.
  - apply (ji_key _ _ _ _ _ _ _ HJ).
Qed.

Lemma trace_ok J dn task l1 l2 :
  JInv J dn → taken J = l1 ++ task :: l2 →
  let J' := mkJob (assignTrace task (co J)) (fs J) (l1 ++ l2) (gen J) (task :: given J) (reports J) in
  JInv J' dn ∧ shape <$> pool J' ≡ₚ shape <$> pool J ∧ Phase (co J') = Phase (co J).
Proof.
  intros HJ Ht J'. assert (task ∈ pool J) as Hin'.
  { unfold MRSystem.pool. rewrite Ht. set_solver. }
  pose proof (ji_type _ _ _ _ _ _ _ HJ _ Hin') as Hty.
  assert (Phase (co J) ≠ DONE) as Hnd.
  { destruct (ji_phase _ _ _ _ _ _ _ HJ) as [-> |[-> |[_ Hnil]]]; [done|done|].
    rewrite Hnil in Hin'. by apply elem_of_nil in Hin'. }
  assert (task_type (Phase (co J))) as Htt
    by (destruct (ji_phase _ _ _ _ _ _ _ HJ) as [?|[?|[? _]]]; [by left|by right|done]).
  assert (taskTraceMap (co J) !! traceKey (Phase (co J)) (Id task) = None) as Hnone.
  { destruct (taskTraceMap (co J) !! _) as [t'|] eqn:Hl; [|done]. exfalso.
    pose proof (ji_key _ _ _ _ _ _ _ HJ _ _ Hl) as Hk.
    assert (t' ∈ snd <$> map_to_list (taskTraceMap (co J))) as Ht'.
    { apply list_elem_of_fmap. eexists (_, t'). split; [done|]. by apply elem_of_map_to_list. }
    assert (TaskType t' = Phase (co J)) as Hty' by (apply (ji_type _ _ _ _ _ _ _ HJ); unfold MRSystem.pool; set_solver).
    rewrite Hty' in Hk. apply traceKey_inj in Hk as [_ Hid]; [|done..].
    pose proof (NoDup_ids _ _ HJ) as Hnd'. apply NoDup_app in Hnd' as [Hnd' _].
    unfold MRSystem.pool in Hnd'. rewrite Ht, !fmap_app in Hnd'. apply NoDup_app in Hnd' as (_ & _ & Hnd').
    apply NoDup_app in Hnd' as (_ & Hdis & _). apply (Hdis (Id task)).
    - apply elem_of_app. right. by left.
    - rewrite Hid. by apply list_elem_of_fmap_2. }
  unfold J', assignTrace. rewrite bool_decide_eq_false_2 by done. cbn [negb].
  match goal with |- ?P ∧ ?Q ∧ ?R => assert Q as Hperm end.
  { unfold MRSystem.pool. simpl. rewrite Ht, !fmap_app. rewrite (map_to_list_insert _ _ _ Hnone). simpl.
    apply Permutation_app_head. rewrite <-!Permutation_middle. simpl. done. }
  split; [|done]. apply (JInv_pool J _ dn HJ); try done.
  - simpl. intros t [-> |Htg]%elem_of_cons; apply list_elem_of_fmap_2, elem_of_app; auto.
  - simpl. intros k t. rewrite lookup_insert_Some. intros [[<- <-]|[_ Hl]]; [by rewrite Hty|].
    by apply (ji_key _ _ _ _ _ _ _ HJ).
Qed.

(** *** Retrieval *)
Definition keys_ok c : Prop := ∀ k t, taskTraceMap c !! k = Some t → k = traceKey (TaskType t) (Id t).
Definition traced c : list TaskInfo := snd <$> map_to_list (taskTraceMap c).
(** The same tasks, in the queue or traced. *)
Definition same_tasks c c' : Prop :=
  nMap c' = nMap c ∧ nReduce c' = nReduce c ∧ capacity c' = capacity c ∧ Phase c' = Phase c ∧
  taskQueue c' ++ traced c' ≡ₚ taskQueue c ++ traced c.

Lemma traced_delete c k t :
  taskTraceMap c !! k = Some t → traced c ≡ₚ t :: traced (set_trace (delete k (taskTraceMap c)) c).
Proof.
  intros Hk. unfold traced. simpl. rewrite <-(insert_delete_id (taskTraceMap c) k t) at 1 by done.
  by rewrite map_to_list_insert by apply lookup_delete_eq.
Qed.

Lemma retrieveTask_spec now k c :
  keys_ok c → zlen (taskQueue c ++ traced c) ≤ capacity c →
  ∃ c', retrieveTask now k c = Some c' ∧ keys_ok c' ∧ same_tasks c c'.
Proof.
  intros Hk Hcap. unfold retrieveTask. destruct (taskTraceMap c !! k) as [t|] eqn:Ht; [|by exists c].
  destruct (After now (Deadline t)); [|by exists c]. rewrite <-(Hk k t Ht). unfold send. cbn [taskQueue set_trace capacity].
  pose proof (traced_delete c k t Ht) as Htr. rewrite length_app, Htr in Hcap. simpl in Hcap.
  destruct (_ <? _) eqn:Hlt; [|lia]. eexists. split; [done|]. split.
  - intros k' t'. simpl. rewrite lookup_delete_Some. intros [_ ?]. by apply Hk.
  - split_and!; try done. simpl. rewrite Htr. rewrite <-app_assoc. done.
Qed.

Lemma retrieve_spec now c :
  keys_ok c → zlen (taskQueue c ++ traced c) ≤ capacity c →
  ∃ c', retriveTimeoutTasks now c = Some c' ∧ keys_ok c' ∧ same_tasks c c'.
Proof.
  intros Hk Hcap. unfold retriveTimeoutTasks. generalize (fst <$> map_order (taskTraceMap c)). intros ks.
  induction ks as [|k ks IH] using rev_ind; [by exists c|].
  rewrite foldl_app. destruct IH as (c1 & -> & Hk1 & (E1 & E2 & E3 & E4 & Hp1)). cbn [foldl mbind option_bind].
  destruct (retrieveTask_spec now k c1 Hk1) as (c2 & -> & Hk2 & (F1 & F2 & F3 & F4 & Hp2)); [rewrite Hp1; lia|].
  exists c2. split; [done|]. split; [done|]. split_and!; try congruence. by rewrite Hp2.
Qed.

Lemma limit_bound J dn : JInv J dn → 0 ≤ limit inputs R J ≤ Z.max R N.
Proof.
  intros HJ. pose proof (io_R _ _ _ _ Hin). unfold limit. destruct (decide _); [lia|].
  destruct (gen J) as [i|] eqn:Hg; simpl; [|lia]. destruct (ji_gen _ _ _ _ _ _ _ HJ i Hg). lia.
Qed.

Lemma pool_bound J dn : JInv J dn → zlen (pool J) ≤ limit inputs R J.
Proof.
  intros HJ. pose proof (limit_bound J dn HJ). pose proof (ji_tasks _ _ _ _ _ _ _ HJ) as Hp.
  apply Permutation_length in Hp. rewrite length_app, length_fmap in Hp. unfold zrange in Hp.
  rewrite length_seqZ in Hp. lia.
Qed.

Lemma retrieve_total J dn now :
  JInv J dn → ∃ c, retriveTimeoutTasks now (co J) = Some c ∧ JInv (set_co c J) dn ∧
    shape <$> pool (set_co c J) ≡ₚ shape <$> pool J ∧ Phase c = Phase (co J).
Proof.
  intros HJ. pose proof (pool_bound J dn HJ) as Hb. pose proof (limit_bound J dn HJ) as Hl.
  unfold MRSystem.pool in Hb. rewrite !length_app in Hb.
  destruct (retrieve_spec now (co J)) as (c & Hc & Hk & (E1 & E2 & E3 & E4 & Hp)).
  { exact (ji_key _ _ _ _ _ _ _ HJ). }
  { rewrite (ji_capacity _ _ _ _ _ _ _ HJ). rewrite length_app. unfold traced. lia. }
  assert (shape <$> pool (set_co c J) ≡ₚ shape <$> pool J) as Hperm.
  { apply fmap_Permutation. unfold MRSystem.pool. simpl. fold (traced c) (traced (co J)).
    rewrite !(Permutation_app_comm (taken J)), !app_assoc. by rewrite Hp. }
  exists c. split; [done|]. split; [|done]. apply (JInv_pool J _ dn HJ); try done.
  - intros t Ht. apply list_elem_of_fmap_2, elem_of_app. by right.
Qed.

(** *** Generation *)
Lemma generate_ok J dn i c :
  JInv J dn → gen J = Some i → i < R → generateReduceTask i (co J) = Some c →
  JInv (mkJob c (fs J) (taken J) (Some (i + 1)) (given J) (reports J)) dn.
Proof.
  intros HJ Hg Hi Hc. destruct (ji_gen _ _ _ _ _ _ _ HJ i Hg) as [Hp Hr].
  unfold generateReduceTask, send in Hc. destruct (_ <? _); [|done]. injection Hc as <-.
  set (t := mkTask i REDUCE "" zeroTime).
  assert (pool (mkJob (set_queue (taskQueue (co J) ++ [t]) (co J)) (fs J) (taken J) (Some (i + 1)) (given J) (reports J))
    ≡ₚ t :: pool J) as Hpool.
  { unfold MRSystem.pool. simpl. rewrite <-app_assoc. symmetry. apply Permutation_middle. }
  destruct HJ. split; simpl; try done.
  - right; left. done.
  - intros t'. rewrite Hpool. intros [-> |?]%elem_of_cons; [done|auto].
  - intros t'. rewrite Hpool. intros [[-> |?]%elem_of_cons|?]%elem_of_app; [|apply ji_task, elem_of_app; auto..].
    right. simpl. rewrite Hp. split_and!; [done|lia|lia|done].
  - rewrite Hpool. unfold limit in *. simpl. rewrite Hp, decide_False in * by done. rewrite Hg in ji_tasks. simpl in *.
    rewrite zrange_snoc by lia. rewrite <-ji_tasks. by rewrite Permutation_cons_append.
  - intros i' [= <-]. split; [done|lia].
Qed.

Lemma generated_ok J dn i :
  JInv J dn → gen J = Some i → R ≤ i → JInv (mkJob (co J) (fs J) (taken J) None (given J) (reports J)) dn.
Proof.
  intros HJ Hg Hi. destruct (ji_gen _ _ _ _ _ _ _ HJ i Hg) as [Hp Hr]. destruct HJ. split; simpl; try done.
  unfold limit in *. simpl. rewrite Hp, decide_False in * by done. rewrite Hg in ji_tasks. simpl in *.
  replace R with i by lia. done.
Qed.

Lemma generate_total J dn i : JInv J dn → gen J = Some i → i < R → is_Some (generateReduceTask i (co J)).
Proof.
  intros HJ Hg Hi. pose proof (pool_bound J dn HJ) as Hb. destruct (ji_gen _ _ _ _ _ _ _ HJ i Hg) as [Hp Hr].
  unfold limit in Hb. rewrite Hp, decide_False, Hg in Hb by done. simpl in Hb. unfold MRSystem.pool in Hb. rewrite length_app in Hb.
  unfold generateReduceTask, send. rewrite (ji_capacity _ _ _ _ _ _ _ HJ). destruct (_ <? _) eqn:?; [by eexists|lia].
Qed.

(** *** Work *)
Lemma tmp_mono p i f f' : (∀ x, is_Some (f !! x) → is_Some (f' !! x)) → tmp_there R p i f → tmp_there R p i f'.
Proof. intros Hx. unfold tmp_there. destruct (decide _); auto. Qed.
Lemma final_mono p i f f' : (∀ x, is_Some (f !! x) → is_Some (f' !! x)) → final_there R p i f → final_there R p i f'.
Proof. intros Hx. unfold final_there. destruct (decide _); auto. Qed.

Lemma JInv_work J dn f' l a :
  JInv J dn → files_ok f' → (∀ x, is_Some (fs J !! x) → is_Some (f' !! x)) →
  (∀ t, t ∈ l → t ∈ given J) → report_ok inputs R (Phase (co J)) a →
  (RTaskType a = Phase (co J) → tmp_there R (Phase (co J)) (TaskID a) f') →
  JInv (mkJob (co J) f' (taken J) (gen J) l (a :: reports J)) dn.
Proof.
  intros [] Hok Hx Hl Ha Htmp. split; simpl; try done.
  - intros t [?|?%Hl]%elem_of_app; apply ji_task, elem_of_app; auto.
  - intros i Hp Hi. eapply final_mono; eauto.
  - intros i Hi. eapply final_mono; eauto.
  - intros b [-> |Hb]%elem_of_cons; [auto|]. destruct (ji_reports b Hb) as [Hb1 Hb2]. split; [done|].
    intros Ht Hn. eapply tmp_mono; eauto.
Qed.

(** A worker that finishes has written what the task is to write. *)
Lemma map_files J dn t :
  JInv J dn → t ∈ given J → TaskType t = MAP →
  ∃ f', do_task mapf reducef (co J) t (fs J) = Some f' ∧ files_ok f' ∧ tmp_there R MAP (Id t) f' ∧
    ∀ x, is_Some (fs J !! x) → is_Some (f' !! x).
Proof.
  intros HJ Ht Hty. destruct (ji_task _ _ _ _ _ _ _ HJ t) as [(_ & Hi & Hf)|(Hr & _)];
    [apply elem_of_app; by right| |rewrite Hty in Hr; discriminate Hr].
  pose proof (io_R _ _ _ _ Hin) as HR. pose proof (ji_files _ _ _ _ _ _ _ HJ) as Hok.
  unfold do_task. rewrite bool_decide_eq_true_2 by done. unfold doMapTask, generateIntermediate.
  assert (Filename t ∈ inputs) as Hfin by (by eapply list_elem_of_lookup_2).
  rewrite (fo_input _ _ _ _ _ _ Hok) by done. destruct (io_files _ _ _ _ Hin _ Hfin) as [[s Hs] _]. rewrite Hs.
  cbn [mbind option_bind]. rewrite (ji_nReduce _ _ _ _ _ _ _ HJ).
  assert (mapf (Filename t) s = inter (Id t)) as -> by (unfold MRSystem.inter; by rewrite Hf, Hs).
  destruct (writeToFile_spec (Id t) R (inter (Id t)) (fs J)) as (f' & -> & Hw & Ho); [lia|done|].
  exists f'. split_and!; [done|by eapply files_ok_map| |].
  - unfold tmp_there. rewrite decide_True by done. intros r Hr. rewrite Hw by done. by eexists.
  - intros x Hx. destruct (decide (x ∈ (λ r, tmpMapOutFile (Id t) r) <$> zrange 0 R)) as [Hin'|Hout].
    + apply list_elem_of_fmap in Hin' as (r & -> & Hr%elem_of_zrange). rewrite Hw by done. by eexists.
    + rewrite Ho; [done|]. intros r Hr ->. apply Hout, list_elem_of_fmap. exists r. split; [done|]. by apply elem_of_zrange.
Qed.

Lemma reduceInput_lookup r i l : reduceInput mapf inputs R fs0 r !! i = Some l →
  l = in_bucket R r (inter (Z.of_nat i)) ∧ 0 ≤ Z.of_nat i < N.
Proof.
  unfold reduceInput, zrange. rewrite list_lookup_fmap. destruct (seqZ 0 (N - 0) !! i) as [j|] eqn:Hj; [|done].
  simpl. intros [= <-]. apply lookup_seqZ in Hj as [-> Hj]. split; [done|lia].
Qed.

Lemma reduce_files J dn t :
  JInv J dn → t ∈ given J → TaskType t = REDUCE →
  ∃ f', do_task mapf reducef (co J) t (fs J) = Some f' ∧ files_ok f' ∧ tmp_there R REDUCE (Id t) f' ∧
    ∀ x, is_Some (fs J !! x) → is_Some (f' !! x).
Proof.
  intros HJ Ht Hty. destruct (ji_task _ _ _ _ _ _ _ HJ t) as [(Hm & _)|(_ & Hi & Hph)];
    [apply elem_of_app; by right|rewrite Hty in Hm; discriminate Hm|].
  pose proof (ji_files _ _ _ _ _ _ _ HJ) as Hok.
  unfold do_task. rewrite bool_decide_eq_false_2, bool_decide_eq_true_2 by (done || by rewrite Hty).
  rewrite (ji_nMap _ _ _ _ _ _ _ HJ). unfold doReduceTask.
  assert (zlen (reduceInput mapf inputs R fs0 (Id t)) = N) as Hlen.
  { unfold reduceInput, zrange. rewrite length_fmap, length_seqZ. lia. }
  destruct (readIntermediate_spec (Id t) (reduceInput mapf inputs R fs0 (Id t)) (fs J)) as (lines & Hl & Hp).
  { apply Forall_lookup. intros i l [-> Hi']%reduceInput_lookup. apply Forall_forall. intros kv Hkv.
    apply list_elem_of_filter in Hkv as [_ Hkv]. pose proof (io_clean _ _ _ _ Hin _ Hi') as Hc.
    rewrite Forall_forall in Hc. auto. }
  { intros i l [-> Hi']%reduceInput_lookup. pose proof (ji_maps _ _ _ _ _ _ _ HJ _ Hph Hi') as Hfin.
    unfold final_there in Hfin. rewrite decide_True in Hfin by done. destruct (Hfin (Id t) Hi) as [s Hs].
    rewrite Hs. f_equal. by eapply fo_finalMap. }
  rewrite Hlen in Hl. rewrite Hl. cbn [mbind option_bind]. rewrite Hp. cbn [mbind option_bind].
  eexists. split_and!; [done|by apply files_ok_reduce| |].
  - unfold tmp_there. rewrite decide_False by done. rewrite lookup_insert_eq. by eexists.
  - intros x Hx. destruct (decide (x = tmpReduceOutFile (Id t))) as [-> |]; [rewrite lookup_insert_eq; by eexists|].
    by rewrite lookup_insert_ne.
Qed.

Lemma work_total J dn t :
  JInv J dn → t ∈ given J →
  ∃ f', do_task mapf reducef (co J) t (fs J) = Some f' ∧ files_ok f' ∧ tmp_there R (TaskType t) (Id t) f' ∧
    ∀ x, is_Some (fs J !! x) → is_Some (f' !! x).
Proof.
  intros HJ Ht. destruct (ji_task _ _ _ _ _ _ _ HJ t) as [(Hty & _)|(Hty & _)]; [apply elem_of_app; by right|..];
    rewrite Hty; [by eapply map_files|by eapply reduce_files].
Qed.

Lemma work_ok J dn t l1 l2 f' :
  JInv J dn → given J = l1 ++ t :: l2 → do_task mapf reducef (co J) t (fs J) = Some f' →
  JInv (mkJob (co J) f' (taken J) (gen J) (l1 ++ l2) (mkReport (Id t) (TaskType t) :: reports J)) dn.
Proof.
  intros HJ Hg Hd. assert (t ∈ given J) as Ht by (rewrite Hg; set_solver).
  destruct (work_total J dn t HJ Ht) as (f1 & Hd1 & Hok & Htmp & Hx). rewrite Hd in Hd1. injection Hd1 as <-.
  apply JInv_work; try done.
  - rewrite Hg. set_solver.
  - destruct (ji_task _ _ _ _ _ _ _ HJ t) as [(? & ? & _)|(? & ? & ?)]; [apply elem_of_app; by right|..]; [by left|by right].
  - simpl. intros <-. done.
Qed.

(** *** Reports *)

(** A phase that is not over has a task left, and generation precedes acceptance. *)
Definition alive J dn : Prop :=
  (0 < N → Phase (co J) ≠ DONE → gen J = None → pool J ≠ []) ∧ (∀ i, gen J = Some i → dn = []).

(** What is left to do. *)
Definition rem J dn : Z :=
  if decide (Phase (co J) = MAP) then N - zlen dn + R + 1
  else if decide (Phase (co J) = REDUCE) then R - zlen dn else 0.

(** Nothing is queued, waiting or traced. *)
Definition idle (J : Job) : Prop := quiet J ∧ taskQueue (co J) = [] ∧ taskTraceMap (co J) = ∅.
Definition in_phase p g (J : Job) : Job := mkJob (set_Phase p (co J)) (fs J) (taken J) g (given J) (reports J).

Lemma idle_pool J p g : idle J → pool J = [] ∧ pool (in_phase p g J) = [].
Proof. intros ([Htk _] & Hq & Htr). unfold MRSystem.pool. simpl. by rewrite Hq, Htr, Htk, map_to_list_empty. Qed.

Lemma idle_tasks J dn :
  JInv J dn → idle J → dn ≡ₚ zrange 0 (if decide (Phase (co J) = MAP) then N else R).
Proof.
  intros HJ Hi. pose proof (ji_tasks _ _ _ _ _ _ _ HJ) as Ht. destruct (idle_pool J MAP None Hi) as [Hp _].
  destruct Hi as ([_ Hgen] & _). unfold limit in Ht. by rewrite Hp, Hgen in Ht.
Qed.

Lemma enter_reduce J dn :
  JInv J dn → idle J → Phase (co J) = MAP →
  JInv (in_phase REDUCE (Some 0) J) [] ∧ rem (in_phase REDUCE (Some 0) J) [] ≤ rem J dn.
Proof.
  intros HJ Hi Hm. destruct (idle_pool J REDUCE (Some 0) Hi) as [HpJ Hnil]. pose proof (idle_tasks J dn HJ Hi) as Hdn.
  rewrite decide_True in Hdn by done. pose proof (io_R _ _ _ _ Hin) as HR. destruct HJ. split.
  2: { unfold rem. simpl. rewrite Hm. simpl. rewrite Hdn. unfold zrange. rewrite length_seqZ. lia. }
  split; simpl; try rewrite Hnil; try done.
  - right; left. done.
  - intros t Ht. by apply elem_of_nil in Ht.
  - intros t Ht. simpl in Ht. destruct (ji_task t) as [(? & ? & ?)|(? & ? & ?)]; [apply elem_of_app; by right|by left|done].
  - intros i [= <-]. split; [done|lia].
  - intros i _ Hi'. specialize (ji_done i). rewrite Hm in ji_done. apply ji_done. rewrite Hdn. by apply elem_of_zrange.
  - intros i Hi'. by apply elem_of_nil in Hi'.
  - intros a Ha. destruct (ji_reports a Ha) as [[[Hty ?]|(? & ? & ?)] _]; [|done].
    split; [by left|]. rewrite Hty. intros Heq. discriminate Heq.
Qed.

Lemma enter_done J dn :
  JInv J dn → idle J → Phase (co J) = REDUCE →
  JInv (in_phase DONE (gen J) J) dn ∧ rem (in_phase DONE (gen J) J) dn ≤ rem J dn.
Proof.
  intros HJ Hi Hr. destruct (idle_pool J DONE (gen J) Hi) as [HpJ Hnil]. pose proof (idle_tasks J dn HJ Hi) as Hdn.
  destruct Hi as ([_ Hgen] & _). rewrite Hr, decide_False in Hdn by discriminate. pose proof (io_R _ _ _ _ Hin) as HR. destruct HJ. split.
  2: { unfold rem. simpl. rewrite Hr. simpl. rewrite Hdn. unfold zrange. rewrite length_seqZ. simpl. lia. }
  split; simpl; try rewrite Hnil; try done.
  - right; right. done.
  - intros t Ht. by apply elem_of_nil in Ht.
  - intros t Ht. destruct (ji_task t) as [(? & ? & ?)|(? & ? & ?)]; [apply elem_of_app; by right|by left|by right].
  - unfold limit. simpl. rewrite Hgen. simpl. done.
  - intros i Hi'. by rewrite Hgen in Hi'.
  - intros i _ Hi'. apply ji_maps; [by rewrite Hr|done].
  - intros i Hi'. specialize (ji_done i Hi'). by rewrite Hr in ji_done.
  - intros a Ha. destruct (ji_reports a Ha) as [[[Hty ?]|(Hty & ? & ?)] _].
    + split; [by left|]. rewrite Hty. intros Heq. discriminate Heq.
    + split; [by right|]. rewrite Hty. intros Heq. discriminate Heq.
Qed.

Lemma advance_ok J dn :
  JInv J dn → quiet J →
  let '(start, c) := advancePhase (co J) in
  let J' := mkJob c (fs J) (taken J) (if start then Some 0 else gen J) (given J) (reports J) in
  ∃ dn', JInv J' dn' ∧ alive J' dn' ∧ rem J' dn' ≤ rem J dn.
Proof.
  intros HJ [Htk Hgen]. assert (mkJob (co J) (fs J) (taken J) (gen J) (given J) (reports J) = J) as HJe by by destruct J.
  assert ((taskQueue (co J) ≠ [] ∨ taskTraceMap (co J) ≠ ∅) ∨ Phase (co J) = DONE → alive J dn) as Halive.
  { intros Hx. split; [|intros i Hi; congruence]. intros _ Hnd _ Hnil. destruct Hx as [[Hx|Hx]|?]; [| |done].
    - unfold MRSystem.pool in Hnil. by apply app_nil in Hnil as [? _].
    - unfold MRSystem.pool in Hnil. apply app_nil in Hnil as [_ Hnil]. apply app_nil in Hnil as [_ Hnil].
      by apply fmap_nil_inv, map_to_list_empty_iff in Hnil. }
  unfold advancePhase. destruct (bool_decide (taskQueue (co J) = [])) eqn:Hq; cbn [andb].
  2: { apply bool_decide_eq_false in Hq. rewrite HJe. exists dn. split_and!; [done|tauto|lia]. }
  destruct (bool_decide (taskTraceMap (co J) = ∅)) eqn:Htr; cbn [andb].
  2: { apply bool_decide_eq_false in Htr. rewrite HJe. exists dn. split_and!; [done|tauto|lia]. }
  destruct (bool_decide (Phase (co J) = DONE)) eqn:Hd; cbn [negb].
  { apply bool_decide_eq_true in Hd. rewrite HJe. exists dn. split_and!; [done|tauto|lia]. }
  apply bool_decide_eq_true in Hq, Htr. assert (idle J) as Hi by done.
  destruct (bool_decide (Phase (co J) = MAP)) eqn:Hm.
  - apply bool_decide_eq_true in Hm. destruct (enter_reduce J dn HJ Hi Hm) as [HJ' Hrem]. exists [].
    split_and!; [done|split; [done|by intros]|done].
  - apply bool_decide_eq_false in Hm, Hd. destruct (ji_phase _ _ _ _ _ _ _ HJ) as [?|[Hr|[? _]]]; [done| |done].
    rewrite (bool_decide_eq_true_2 _ Hr). destruct (enter_done J dn HJ Hi Hr) as [HJ' Hrem]. exists dn.
    split_and!; [done|split; [by intros _ ?|simpl; by rewrite Hgen]|done].
Qed.

(** An accepted report moves its task to the accepted ones. *)
Lemma accept_ok J dn a k t l :
  JInv J dn → quiet J → a ∈ reports J → (∀ b, b ∈ l → b ∈ reports J) →
  k = traceKey (RTaskType a) (TaskID a) → taskTraceMap (co J) !! k = Some t →
  ∃ f', acceptFiles a (co J) (fs J) = Some f' ∧
    JInv (mkJob (set_trace (delete k (taskTraceMap (co J))) (co J)) f' (taken J) (gen J) (given J) l) (TaskID a :: dn)
    ∧ task_type (Phase (co J)).
Proof.
  intros HJ [Htk Hgen] Ha Hl -> Ht. pose proof (NoDup_ids J dn HJ) as Hnd.
  assert (t ∈ pool J) as Htp.
  { unfold MRSystem.pool. apply elem_of_app. right. apply elem_of_app. right. apply list_elem_of_fmap.
    eexists (_, t). split; [done|]. by apply elem_of_map_to_list. }
  pose proof (ji_type _ _ _ _ _ _ _ HJ t Htp) as Hty. pose proof (ji_key _ _ _ _ _ _ _ HJ _ _ Ht) as Hk.
  destruct (ji_reports _ _ _ _ _ _ _ HJ a Ha) as [Hra Htmp].
  assert (RTaskType a = Phase (co J) ∧ TaskID a = Id t) as [Hph Hid].
  { rewrite <-Hty. apply traceKey_inj; [destruct Hra as [[? _]|[? _]]; [by left|by right]| |done].
    destruct (ji_task _ _ _ _ _ _ _ HJ t) as [[? _]|[? _]]; [apply elem_of_app; by left|by left|by right]. }
  assert (TaskID a ∉ dn) as Hdn.
  { apply NoDup_app in Hnd as (_ & Hdis & _). apply Hdis. rewrite Hid. by apply list_elem_of_fmap_2. }
  assert (report_ok inputs R REDUCE a) as Hra' by (destruct Hra as [?|(? & ? & _)]; [by left|by right]).
  destruct (acceptFiles_spec a (co J) (fs J)) as (f' & Hf & Hok & Hfin & Hx);
    [apply HJ|done|apply HJ|rewrite Hph; auto|].
  exists f'. split; [done|].
  set (J' := mkJob _ f' _ _ _ _). assert (pool J ≡ₚ t :: pool J') as Hpool.
  { unfold MRSystem.pool, J'. simpl. pose proof (traced_delete _ _ _ Ht) as Htr. unfold traced in Htr. simpl in Htr.
    rewrite Htr. rewrite <-!Permutation_middle. done. }
  destruct HJ. split.
  2: { destruct ji_phase as [?|[?|[? Hnil]]]; [by left|by right|]. rewrite Hnil in Htp. by apply elem_of_nil in Htp. }
  split; simpl; try done.
  - destruct ji_phase as [?|[?|[? Hnil]]]; [by left|by right; left|]. rewrite Hnil in Htp. by apply elem_of_nil in Htp.
  - intros t' Ht'. apply ji_type. rewrite Hpool. by right.
  - intros t' [Ht'|Ht']%elem_of_app; apply ji_task, elem_of_app; [left; rewrite Hpool; by right|by right].
  - intros k' t'. rewrite lookup_delete_Some. intros [_ ?]. auto.
  - assert (limit inputs R J' = limit inputs R J) as -> by done. rewrite <-ji_tasks, Hpool. simpl. rewrite Hid.
    symmetry. apply Permutation_middle.
  - intros i Hp Hi. eapply final_not_tmp; [exact Hx|]. auto.
  - intros i [-> |Hi]%elem_of_cons; [by rewrite <-Hph|]. eapply final_not_tmp; [exact Hx|]. auto.
  - intros b Hb%Hl. destruct (ji_reports b Hb) as [Hb1 Hb2]. split; [done|]. intros Hbt [Hne Hbd]%not_elem_of_cons.
    rewrite <-Hph. eapply tmp_other; [exact Hx| | |done|rewrite Hph; auto].
    + destruct Hra as [[_ ?]|(_ & ? & _)]; lia.
    + destruct Hb1 as [[_ ?]|(_ & ? & _)]; lia.
Qed.

Lemma JInv_reports J dn l :
  JInv J dn → (∀ b, b ∈ l → b ∈ reports J) → JInv (mkJob (co J) (fs J) (taken J) (gen J) (given J) l) dn.
Proof. intros [] Hl. split; simpl; try done. auto. Qed.

(** A report is handled to the end, the job stays in order, and an accepted report is progress. *)
Lemma report_total J dn now a l1 l2 :
  JInv J dn → quiet J → 0 < now → reports J = l1 ++ a :: l2 →
  ∃ accept start c f' dn', ReportTask now a (co J) (fs J) = Some (accept, start, c, f') ∧
    let J' := mkJob c f' (taken J) (if start : bool then Some 0 else gen J) (given J) (l1 ++ l2) in
    JInv J' dn' ∧ alive J' dn' ∧
    (now ≤ Deadline (default noTask (taskTraceMap (co J) !! traceKey (RTaskType a) (TaskID a))) → rem J' dn' < rem J dn).
Proof.
  intros HJ Hq Hnow Hr. assert (∀ b, b ∈ l1 ++ l2 → b ∈ reports J) as Hl by (rewrite Hr; set_solver).
  assert (a ∈ reports J) as Ha by (rewrite Hr; set_solver).
  unfold ReportTask. destruct (After now _) eqn:Hafter.
  - cbn [mbind option_bind]. pose proof (advance_ok _ dn (JInv_reports J dn (l1 ++ l2) HJ Hl) Hq) as Hadv.
    simpl in Hadv. destruct (advancePhase (co J)) as [start c]. destruct Hadv as (dn' & Hadv & Hal & _).
    eexists _, _, _, _, dn'. split; [done|]. split_and!; [done..|]. unfold After in Hafter. lia.
  - destruct (taskTraceMap (co J) !! traceKey (RTaskType a) (TaskID a)) as [t|] eqn:Ht.
    2: { simpl in Hafter. unfold After, zeroTime in Hafter. lia. }
    destruct (accept_ok J dn a _ t (l1 ++ l2) HJ Hq Ha Hl eq_refl Ht) as (f' & -> & HJ' & Hty).
    cbn [mbind option_bind]. pose proof (advance_ok _ _ HJ') as Hadv. simpl in Hadv. specialize (Hadv Hq).
    destruct (advancePhase _) as [start c]. destruct Hadv as (dn' & Hadv & Hal & Hrem).
    eexists _, _, _, _, dn'. split; [done|]. split_and!; [done..|]. intros _.
    unfold rem in Hrem |- *. simpl in *. destruct Hty as [Hp|Hp]; rewrite Hp in *; simpl in *; lia.
Qed.

(** ** Runs *)
Lemma alive_pool J J' dn :
  alive J dn → shape <$> pool J' ≡ₚ shape <$> pool J → Phase (co J') = Phase (co J) → gen J' = gen J → alive J' dn.
Proof.
  intros [H1 H2] Hp Hph Hg. split; rewrite ?Hph, ?Hg; [|done]. intros HN Hnd Hgn Hnil. rewrite Hnil in Hp.
  symmetry in Hp. apply Permutation_nil_r, fmap_nil_inv in Hp. by apply H1.
Qed.

Lemma take_pool J now task reply c :
  assignTake now (co J) = Some (task, reply, c) →
  shape <$> pool (mkJob c (fs J) (task :: taken J) (gen J) (given J) (reports J)) ≡ₚ shape <$> pool J ∧
  Phase c = Phase (co J).
Proof.
  intros Ht. unfold assignTake in Ht. destruct (taskQueue (co J)) as [|t rest] eqn:Hq; [done|].
  injection Ht as <- <- <-. split; [|done]. unfold MRSystem.pool. cbn [co taskQueue taken set_queue taskTraceMap].
  rewrite Hq, !fmap_app, !fmap_cons. symmetry. apply Permutation_middle.
Qed.

Lemma generated_alive J dn i :
  JInv J dn → alive J dn → gen J = Some i → R ≤ i →
  alive (mkJob (co J) (fs J) (taken J) None (given J) (reports J)) dn.
Proof.
  intros HJ [_ Hal] Hg Hi. pose proof (generated_ok J dn i HJ Hg Hi) as HJ'. split; [|done]. intros _ _ _ Hnil.
  pose proof (ji_tasks _ _ _ _ _ _ _ HJ') as Hp. rewrite Hnil, (Hal i Hg) in Hp. apply Permutation_length in Hp.
  unfold limit, zrange in Hp. simpl in Hp. destruct (ji_gen _ _ _ _ _ _ _ HJ i Hg) as [Hph _]. rewrite Hph in Hp.
  rewrite length_seqZ in Hp. simpl in Hp. pose proof (io_R _ _ _ _ Hin). lia.
Qed.

Lemma JInv_step J J' dn :
  JInv J dn → alive J dn → job_step mapf reducef quiet J J' → ∃ dn', JInv J' dn' ∧ alive J' dn'.
Proof.
  intros HJ Hal Hs. destruct Hs as [J now task reply c Hnow Ht|J task l1 l2 Ht|J task l1 l2 fs' Hg Hd|J task l1 l2 Hg
    |J now args l1 l2 accept start c fs' Hq Hnow Hr Hrep|J i c Hg Hi Hc|J i Hg Hi|J now c Hnow Hr].
  - exists dn. destruct (take_pool _ _ _ _ _ Ht). split; [by eapply take_ok|]. by eapply (alive_pool J).
  - exists dn. destruct (trace_ok J dn task l1 l2 HJ Ht) as (HJ' & Hp & Hph). split; [done|]. by eapply (alive_pool J).
  - exists dn. split; [by eapply work_ok|done].
  - exists dn. split; [|done]. apply (JInv_pool J _ dn HJ); try done.
    + intros t Ht. apply list_elem_of_fmap_2, elem_of_app. right. rewrite Hg. simpl in Ht. set_solver.
    + apply HJ.
  - destruct (report_total J dn now args l1 l2) as (? & ? & ? & ? & dn' & Hrep' & HJ' & Hal' & _); [done..|].
    rewrite Hrep in Hrep'. injection Hrep' as <- <- <- <-. by exists dn'.
  - exists dn. rewrite (ji_nReduce _ _ _ _ _ _ _ HJ) in Hi. split; [by eapply generate_ok|].
    destruct Hal as [_ Hal]. split; [done|]. intros _ _. by apply (Hal i).
  - exists dn. rewrite (ji_nReduce _ _ _ _ _ _ _ HJ) in Hi. split; [by eapply generated_ok|by eapply generated_alive].
  - exists dn. destruct (retrieve_total J dn now HJ) as (c' & Hr' & HJ' & Hp & Hph). rewrite Hr in Hr'. injection Hr' as <-.
    split; [done|]. by eapply (alive_pool J).
Qed.

Lemma JInv_start : JInv (start_job inputs R fs0) [].
Proof.
  assert (pool (start_job inputs R fs0) = mapTasks inputs) as Hpool.
  { unfold MRSystem.pool, start_job. simpl. by rewrite map_to_list_empty, app_nil_r. }
  assert (∀ t, t ∈ mapTasks inputs → TaskType t = MAP ∧ 0 ≤ Id t < N ∧ inputs !! Z.to_nat (Id t) = Some (Filename t)) as Ht.
  { intros t (i & Hi)%list_elem_of_lookup. unfold mapTasks in Hi. rewrite list_lookup_imap in Hi.
    destruct (inputs !! i) as [f|] eqn:Hf; [|done]. injection Hi as <-. simpl. pose proof (lookup_lt_Some _ _ _ Hf).
    rewrite Nat2Z.id. split_and!; [done|lia|lia|done]. }
  split; simpl; try done; rewrite ?Hpool.
  - by left.
  - intros t Htp. by apply Ht.
  - rewrite app_nil_r. intros t Htp. left. by apply Ht.
  - rewrite app_nil_r. assert (limit inputs R (start_job inputs R fs0) = N) as -> by done. unfold mapTasks.
    assert (Id <$> imap (λ i file, mkTask (Z.of_nat i) MAP file zeroTime) inputs = zrange 0 N) as ->; [|done].
    apply list_eq. intros i. rewrite list_lookup_fmap, list_lookup_imap. unfold zrange. rewrite Z.sub_0_r.
    destruct (inputs !! i) as [f|] eqn:Hf; simpl; symmetry.
    + apply lookup_seqZ. pose proof (lookup_lt_Some _ _ _ Hf). lia.
    + apply lookup_seqZ_ge. apply lookup_ge_None in Hf. lia.
  - intros i Hi. by apply elem_of_nil in Hi.
  - intros a Ha. by apply elem_of_nil in Ha.
  - pose proof (io_fresh _ _ _ _ Hin) as Hf. split; try done; intros *; rewrite Hf by auto with mr; done.
Qed.

Lemma alive_start : alive (start_job inputs R fs0) [].
Proof.
  split; [|done]. intros HN _ _ Hnil. pose proof (ji_tasks _ _ _ _ _ _ _ JInv_start) as Hp. rewrite Hnil in Hp.
  assert (limit inputs R (start_job inputs R fs0) = N) as Hl by done. rewrite Hl in Hp.
  apply Permutation_length in Hp. unfold zrange in Hp. rewrite length_seqZ in Hp. simpl in Hp. lia.
Qed.

Lemma JInv_reachable J :
  rtc (job_step mapf reducef quiet) (start_job inputs R fs0) J → ∃ dn, JInv J dn ∧ alive J dn.
Proof.
  revert J. apply rtc_ind_r; [exists []; split; [apply JInv_start|apply alive_start]|].
  intros J1 J2 _ Hs (dn & HJ & Hal). by eapply JInv_step.
Qed.
End invariant.
