(* ===== verification/MRProgress.v ===== *)
(** * A job can always finish

    From every state of a job, lost workers and delayed reports included, there is a continuation
    in which it completes: waiting handlers and the generation of reduce tasks end, lost tasks are
    retrieved, and executing a task that is in the queue is progress. *)
From S2P Require Import Prelude MapReduce MRWorker MRSystem MRInvariant.
Import Coordinator Worker.

Section progress.
Context `{MapOrder} `{SortByKey}.
Context (mapf : string → string → list KeyValue) (reducef : string → list string → string).
Context (inputs : list string) (R : Z) (fs0 : Files).
Context (Hin : inputs_ok mapf inputs R fs0) (HN : 0 < zlen inputs).

Abbreviation N := (zlen inputs).
Abbreviation step := (job_step mapf reducef quiet).
Abbreviation rem := (rem inputs R).
(** A state in order, with [dn] accepted. *)
Definition good (J : Job) (dn : list Z) : Prop := JInv mapf reducef inputs R fs0 J dn ∧ alive inputs J dn.

Lemma settle_taken J dn :
  good J dn → ∃ J', rtc step J J' ∧ good J' dn ∧ taken J' = [] ∧ Phase (co J') = Phase (co J) ∧ gen J' = gen J.
Proof.
  remember (length (taken J)) as n eqn:Hn. revert J Hn. induction n as [|n IH]; intros J Hn [HJ Hal].
  { symmetry in Hn. apply length_zero_iff_nil in Hn. exists J. split_and!; done. }
  destruct (taken J) as [|t rest] eqn:Ht; [done|]. simpl in Hn. injection Hn as Hn.
  destruct (trace_ok mapf reducef inputs R fs0 Hin J dn t [] rest HJ Ht) as (HJ1 & Hp & Hph).
  set (J1 := mkJob _ _ _ _ _ _) in *.
  destruct (IH J1 Hn) as (J' & Hs & Hg & Htk & Hph' & Hgen'); [split; [done|by eapply (alive_pool inputs J)]|].
  exists J'. split_and!; [|done|done|congruence|done]. eapply rtc_l; [|done]. by apply (js_trace _ _ _ J t [] rest).
Qed.

Lemma settle_gen J dn :
  good J dn → taken J = [] → ∃ J', rtc step J J' ∧ good J' dn ∧ quiet J' ∧ Phase (co J') = Phase (co J).
Proof.
  intros Hg Ht. destruct (gen J) as [i|] eqn:Hgen; [|by exists J].
  remember (Z.to_nat (R - i)) as n eqn:Hn. revert J i Hg Ht Hgen Hn.
  induction n as [|n IH]; intros J i Hg Ht Hgen Hn; pose proof Hg as [HJ Hal];
    pose proof (ji_nReduce _ _ _ _ _ _ _ HJ) as HR.
  - assert (step J (mkJob (co J) (fs J) (taken J) None (given J) (reports J))) as Hs by (apply (js_generated _ _ _ J i); [done|lia]).
    exists (mkJob (co J) (fs J) (taken J) None (given J) (reports J)). split; [by apply rtc_once|].
    split_and!; [|done|done]. split; [eapply generated_ok|eapply generated_alive]; (done || lia).
  - destruct (generate_total _ _ _ _ _ Hin J dn i HJ Hgen) as [c Hc]; [lia|].
    assert (step J (mkJob c (fs J) (taken J) (Some (i + 1)) (given J) (reports J))) as Hs
      by (apply (js_generate _ _ _ J i c); [done|lia|done]).
    pose proof (generate_ok _ _ _ _ _ J dn i c HJ Hgen ltac:(lia) Hc) as HJ'. set (J1 := mkJob _ _ _ _ _ _) in *.
    destruct (IH J1 (i + 1)) as (J' & Hs' & Hg' & Hq & Hph); [|done|done|lia|].
    { split; [done|]. destruct Hal as [_ Hal]. split; [done|]. intros _ _. by apply (Hal i). }
    exists J'. split_and!; [by eapply rtc_l|done|done|]. rewrite Hph. unfold J1, generateReduceTask, send in *.
    destruct (_ <? _); [|done]. by injection Hc as <-.
Qed.

(** A lost task goes back to the queue once its deadline is over. *)
Lemma retrieveTask_queue now k c c' : retrieveTask now k c = Some c' → taskQueue c ≠ [] → taskQueue c' ≠ [].
Proof.
  unfold retrieveTask, send. destruct (taskTraceMap c !! k) as [t|]; [|by intros [= ->]].
  destruct (After now (Deadline t)); [|by intros [= ->]]. destruct (_ <? _); [|done]. intros [= <-] _. simpl.
  by destruct (taskQueue c).
Qed.

Lemma retrieve_queue now c c' :
  keys_ok c → retriveTimeoutTasks now c = Some c' →
  (∃ k ks t, (fst <$> map_order (taskTraceMap c)) = k :: ks ∧ taskTraceMap c !! k = Some t ∧ Deadline t < now) →
  taskQueue c' ≠ [].
Proof.
  intros Hk Hr (k & ks & t & Hks & Ht & Hd). unfold retriveTimeoutTasks in Hr. rewrite Hks in Hr. simpl in Hr.
  destruct (retrieveTask now k c) as [c1|] eqn:Hc1.
  2: { exfalso. clear -Hr. induction ks as [|x ks IH]; [done|by apply IH]. }
  assert (taskQueue c1 ≠ []) as Hq.
  { unfold retrieveTask, send in Hc1. rewrite Ht in Hc1. unfold After in Hc1. destruct (Deadline t <? now) eqn:?; [|lia].
    destruct (_ <? _) in Hc1; [|done]. injection Hc1 as <-. simpl. by destruct (taskQueue c). }
  clear -Hr Hq. revert c' Hr. induction ks as [|x ks IH] using rev_ind; intros c'; [by intros [= <-]|].
  rewrite foldl_app. simpl. intros (c2 & Hc2 & Hx)%bind_Some. eapply retrieveTask_queue; [done|auto].
Qed.

Lemma requeue J dn :
  good J dn → quiet J → Phase (co J) ≠ DONE →
  ∃ J', rtc step J J' ∧ good J' dn ∧ quiet J' ∧ Phase (co J') = Phase (co J) ∧ taskQueue (co J') ≠ [].
Proof.
  intros [HJ Hal] Hq Hnd. destruct (taskQueue (co J)) as [|t0 rest] eqn:Hqueue.
  2: { exists J. split_and!; [done|done|done|done|by rewrite Hqueue]. }
  assert (taskTraceMap (co J) ≠ ∅) as Htr.
  { intros Hemp. destruct Hal as [Hal _]. destruct Hq as [Htk Hgen]. apply (Hal HN Hnd Hgen).
    unfold pool. by rewrite Hqueue, Htk, Hemp, map_to_list_empty. }
  assert (∃ k ks t, (fst <$> map_order (taskTraceMap (co J))) = k :: ks ∧ taskTraceMap (co J) !! k = Some t) as (k & ks & t & Hks & Ht).
  { pose proof (map_order_perm (taskTraceMap (co J))) as Hp.
    destruct (map_order (taskTraceMap (co J))) as [|[k t] l] eqn:Hl.
    - symmetry in Hp. apply Permutation_nil_r, map_to_list_empty_iff in Hp. done.
    - exists k, (fst <$> l), t. split; [done|]. apply elem_of_map_to_list. rewrite <-Hp. by left. }
  destruct (retrieve_total mapf reducef inputs R fs0 Hin J dn (Z.max 1 (Deadline t + 1)) HJ) as (c & Hc & HJ' & Hp & Hph).
  exists (set_co c J). split_and!; [|split; [done|by eapply (alive_pool inputs J)]|done|done|].
  - apply rtc_once, (js_retrieve _ _ _ J (Z.max 1 (Deadline t + 1))); [lia|done].
  - eapply retrieve_queue; [|done|]; [exact (ji_key _ _ _ _ _ _ _ HJ)|]. exists k, ks, t. split_and!; [done|done|lia].
Qed.

(** One task from the queue: assigned, executed and accepted. *)
Lemma one_task J dn :
  good J dn → quiet J → taskQueue (co J) ≠ [] →
  ∃ J' dn', rtc step J J' ∧ good J' dn' ∧ rem J' dn' < rem J dn.
Proof.
  intros [HJ Hal] [Htk Hgen] Hq.
  destruct (assignTake 1 (co J)) as [[[t reply] c]|] eqn:Ht; [|by unfold assignTake in Ht; destruct (taskQueue (co J))].
  pose proof (take_ok mapf reducef inputs R fs0 J dn 1 t reply c HJ Ht) as HJ1.
  assert (step J (mkJob c (fs J) (t :: taken J) (gen J) (given J) (reports J))) as S1 by (by eapply (js_take _ _ _ J 1)).
  destruct (take_pool J 1 t reply c Ht) as [_ Hph1]. set (J1 := mkJob c _ _ _ _ _) in *.
  assert (taken J1 = [] ++ t :: []) as Htk1 by (unfold J1; simpl; by rewrite Htk).
  destruct (trace_ok mapf reducef inputs R fs0 Hin J1 dn t [] [] HJ1 Htk1) as (HJ2 & _ & Hph2).
  pose proof (js_trace mapf reducef quiet J1 t [] [] Htk1) as S2. set (J2 := mkJob (assignTrace t (co J1)) _ _ _ _ _) in *.
  assert (given J2 = [] ++ t :: given J) as Hg2 by done.
  destruct (work_total mapf reducef inputs R fs0 Hin J2 dn t HJ2) as (f3 & Hd & _); [by left|].
  pose proof (work_ok mapf reducef inputs R fs0 Hin J2 dn t [] (given J) f3 HJ2 Hg2 Hd) as HJ3.
  pose proof (js_work mapf reducef quiet J2 t [] (given J) f3 Hg2 Hd) as S3. set (J3 := mkJob (co J2) f3 _ _ _ _) in *.
  set (a := mkReport (Id t) (TaskType t)) in *. assert (reports J3 = [] ++ a :: reports J) as Hr3 by done.
  assert (quiet J3) as Hq3 by (split; [done|exact Hgen]).
  destruct (report_total mapf reducef inputs R fs0 Hin J3 dn 1 a [] (reports J) HJ3 Hq3 ltac:(lia) Hr3)
    as (accept & start & c4 & f4 & dn' & Hrep & HJ4 & Hal4 & Hrem).
  pose proof (js_report mapf reducef quiet J3 1 a [] (reports J) accept start c4 f4 Hq3 ltac:(lia) Hr3 Hrep) as S4.
  eexists _, dn'. split; [|split; [by split|]].
  { eapply rtc_l; [exact S1|]. eapply rtc_l; [exact S2|]. eapply rtc_l; [exact S3|]. by apply rtc_once. }
  assert (rem J3 dn = rem J dn) as Hsame by (unfold MRInvariant.rem; simpl in Hph2 |- *; by rewrite Hph2, Hph1).
  rewrite <-Hsame. apply Hrem.
  assert (Phase c ≠ DONE ∧ TaskType t = Phase c) as [Hnd Hty].
  { assert (t ∈ pool J1) as Hin1 by (unfold pool; rewrite Htk1; set_solver).
    split; [|by apply (ji_type _ _ _ _ _ _ _ HJ1)]. intros Hdone.
    destruct (ji_phase _ _ _ _ _ _ _ HJ1) as [Hx|[Hx|[_ Hnil]]]; simpl in *;
      [rewrite Hdone in Hx; discriminate Hx|rewrite Hdone in Hx; discriminate Hx|].
    rewrite Hnil in Hin1. by apply elem_of_nil in Hin1. }
  simpl. unfold assignTrace. rewrite bool_decide_eq_false_2 by done. cbn [negb taskTraceMap set_trace].
  rewrite Hty, lookup_insert_eq. simpl. unfold assignTake in Ht. destruct (taskQueue (co J)); [done|].
  injection Ht as <- _ _. simpl. unfold maxTaskTime, Second. lia.
Qed.

Lemma rem_pos J dn : good J dn → quiet J → Phase (co J) ≠ DONE → 0 < rem J dn.
Proof.
  intros [HJ [Hal _]] [_ Hgen] Hnd. specialize (Hal HN Hnd Hgen). pose proof (ji_tasks _ _ _ _ _ _ _ HJ) as Hp.
  apply Permutation_length in Hp. rewrite length_app, length_fmap in Hp. unfold zrange in Hp. rewrite length_seqZ in Hp.
  pose proof (io_R _ _ _ _ Hin). unfold limit in Hp. rewrite Hgen in Hp. simpl in Hp.
  assert (0 < length (pool J))%nat by (destruct (pool J); [done|simpl; lia]). unfold MRInvariant.rem.
  destruct (ji_phase _ _ _ _ _ _ _ HJ) as [Hph|[Hph|[? _]]]; [| |done]; rewrite Hph in *; simpl in *; lia.
Qed.

Lemma can_finish J dn : good J dn → ∃ J', rtc step J J' ∧ Phase (co J') = DONE.
Proof.
  intros Hg. remember (Z.to_nat (rem J dn)) as n eqn:Hn. revert J dn Hg Hn.
  induction (lt_wf n) as [n _ IH]. intros J dn Hg Hn.
  destruct (settle_taken J dn Hg) as (J1 & S1 & Hg1 & Ht1 & Hp1 & _).
  destruct (settle_gen J1 dn Hg1 Ht1) as (J2 & S2 & Hg2 & Hq2 & Hp2).
  destruct (decide (Phase (co J2) = DONE)) as [Hd|Hnd]; [exists J2; split; [by etrans|done]|].
  destruct (requeue J2 dn Hg2 Hq2 Hnd) as (J3 & S3 & Hg3 & Hq3 & Hp3 & Hqueue).
  pose proof (rem_pos J2 dn Hg2 Hq2 Hnd) as Hpos.
  destruct (one_task J3 dn Hg3 Hq3 Hqueue) as (J4 & dn4 & S4 & Hg4 & Hrem).
  assert (rem J3 dn = rem J dn) as H3 by (unfold MRInvariant.rem; by rewrite Hp3, Hp2, Hp1).
  assert (rem J2 dn = rem J dn) as H2 by (unfold MRInvariant.rem; by rewrite Hp2, Hp1).
  destruct (IH (Z.to_nat (rem J4 dn4)) ltac:(lia) J4 dn4 Hg4 eq_refl) as (J' & S5 & Hd).
  exists J'. split; [|done]. do 4 (etrans; [eassumption|]). done.
Qed.
End progress.
