(* ===== verification/MRSequential.v ===== *)
(** * The sequential MapReduce program, as a reference

    [main/mrsequential.go] reads every input, sorts all pairs and reduces them in one loop.  Reducing
    bucket by bucket gives the same lines ([reduce_buckets]). *)
From stdpp Require Import pretty.
From Stdlib Require Import Ascii.
From S2P Require Import Prelude MapReduce MRWorker MRSystem.
Import Coordinator Worker.

(** ** The sequential program ([main/mrsequential.go]) *)
Module Sequential.
Section sequential.
Context `{SortByKey} (mapf : string → string → list KeyValue) (reducef : string → list string → string).

(** The pairs of all input files; [None] is [log.Fatalf] on a file that cannot be opened. *)
Definition gather (files : list string) (fs : Files) : option (list KeyValue) :=
  foldl (λ acc filename, intermediate ← acc; content ← fs !! filename; Some (intermediate ++ mapf filename content))
    (Some []) files.

Definition oname : string := "mr-out-0".
Definition main (files : list string) (fs : Files) : option Files :=
  intermediate ← gather files fs;
  let intermediate := sort_keys intermediate in
  Some (<[oname := foldr (λ p s, printOutput p +:+ s) ""%string
            (reduceLoop reducef (length intermediate) intermediate)]> fs).
End sequential.
End Sequential.

(** [Reduce] of [mrapps/wc.go]. *)
Definition wcReduce (key : string) (values : list string) : string := Itoa (zlen values).

(** ** The pairs of a job *)
Definition printLines (ps : list (string * string)) : string := foldr (λ p s, printOutput p +:+ s) ""%string ps.

Section pairs.
Context (mapf : string → string → list KeyValue) (inputs : list string) (R : Z) (fs0 : Files).

Definition allPairs : list KeyValue := concat ((λ f, mapf f (default ""%string (fs0 !! f))) <$> inputs).

Lemma inter_all : concat (inter mapf inputs fs0 <$> zrange 0 (zlen inputs)) = allPairs.
Proof.
  unfold allPairs. f_equal. apply list_eq. intros i. rewrite !list_lookup_fmap. unfold zrange, inter.
  destruct (decide (i < length inputs)%nat) as [Hi|Hi].
  - rewrite lookup_seqZ_lt by lia. simpl. rewrite Z.add_0_l, Nat2Z.id.
    destruct (lookup_lt_is_Some_2 inputs i Hi) as [f ->]. done.
  - rewrite lookup_seqZ_ge by lia. by rewrite lookup_ge_None_2 by lia.
Qed.

Lemma in_bucket_concat r ls : concat (in_bucket R r <$> ls) = in_bucket R r (concat ls).
Proof.
  induction ls as [|l ls IH]; csimpl; [done|]. rewrite IH. unfold in_bucket. by rewrite filter_app.
Qed.

Lemma reduceInput_all r : concat (reduceInput mapf inputs R fs0 r) = in_bucket R r allPairs.
Proof.
  unfold reduceInput. rewrite <-inter_all, <-in_bucket_concat, <-list_fmap_compose. done.
Qed.

Lemma values_of_bucket k r l : bucket R k = Some r → values_of k (in_bucket R r l) = values_of k l.
Proof.
  intros Hk. unfold values_of, in_bucket. f_equal. induction l as [|kv l IH]; [done|]. rewrite !filter_cons.
  destruct (decide (Key kv = k)) as [<-|Hne].
  - rewrite decide_True, filter_cons, decide_True by done. by rewrite IH.
  - destruct (decide _); [rewrite filter_cons, decide_False by done|]; done.
Qed.

Lemma keys_of_bucket k r l : k ∈ Key <$> in_bucket R r l ↔ bucket R k = Some r ∧ k ∈ Key <$> l.
Proof.
  rewrite !list_elem_of_fmap. unfold in_bucket. split.
  - intros (kv & -> & [Hb Hin]%list_elem_of_filter). eauto.
  - intros (Hb & kv & -> & Hin). exists kv. split; [done|]. by apply list_elem_of_filter.
Qed.
End pairs.

Lemma values_of_perm k l l' : l ≡ₚ l' → values_of k l ≡ₚ values_of k l'.
Proof. intros Hp. unfold values_of. by rewrite Hp. Qed.

Section loops.
Context `{SortByKey} (reducef : string → list string → string).

(** What the reduce loop makes of an unsorted list. *)
Lemma sortedLoop_spec l :
  ∃ ks vs, reduceLoop reducef (length (sort_keys l)) (sort_keys l) = (λ k, (k, reducef k (vs k))) <$> ks ∧
    StronglySorted key_lt ks ∧ (∀ k, k ∈ ks ↔ k ∈ Key <$> l) ∧ ∀ k, vs k ≡ₚ values_of k l.
Proof.
  destruct (reduceLoop_spec reducef (length (sort_keys l)) (sort_keys l)) as (ks & Hl & Hs & Hk);
    [apply sort_keys_sorted|done|].
  exists ks, (λ k, values_of k (sort_keys l)). split_and!; [done|done| |intros k; apply values_of_perm, sort_keys_perm].
  intros k. by rewrite Hk, (sort_keys_perm l).
Qed.

Lemma key_lt_NoDup ks : StronglySorted key_lt ks → NoDup ks.
Proof.
  induction 1 as [|k ks Hs IH Hk]; constructor; [|done]. intros Hin. rewrite Forall_forall in Hk.
  by destruct (Hk k Hin) as [_ Hne].
Qed.

Definition reduceAll (l : list KeyValue) : list (string * string) :=
  reduceLoop reducef (length (sort_keys l)) (sort_keys l).

Lemma reduceAll_NoDup l : NoDup (reduceAll l).
Proof.
  destruct (sortedLoop_spec l) as (ks & vs & Hl & Hs & _). unfold reduceAll. rewrite Hl.
  apply NoDup_fmap_2; [|by apply key_lt_NoDup]. by intros x y [= ->].
Qed.

(** A reduce function that does not look at the order of the values. *)
Definition order_free : Prop := ∀ k vs vs', vs ≡ₚ vs' → reducef k vs = reducef k vs'.

Lemma elem_of_reduceAll l k v :
  order_free → (k, v) ∈ reduceAll l ↔ k ∈ Key <$> l ∧ v = reducef k (values_of k l).
Proof.
  intros Ho. destruct (sortedLoop_spec l) as (ks & vs & Hl & _ & Hk & Hv). unfold reduceAll. rewrite Hl.
  rewrite list_elem_of_fmap, <-Hk. split.
  - intros (k' & [= -> ->] & Hin). split; [done|]. by apply Ho.
  - intros [Hin ->]. exists k. split; [|done]. f_equal. by apply Ho.
Qed.

(** Reducing bucket by bucket is reducing everything. *)
Lemma reduce_buckets R l :
  0 < R → order_free → (zrange 0 R ≫= λ r, reduceAll (in_bucket R r l)) ≡ₚ reduceAll l.
Proof.
  intros HR Ho. apply NoDup_Permutation; [| apply reduceAll_NoDup|].
  - apply NoDup_bind; [|intros; apply reduceAll_NoDup|apply NoDup_seqZ].
    intros r1 r2 [k v] _ _ [Hk1 _]%elem_of_reduceAll [Hk2 _]%elem_of_reduceAll; [|done..].
    apply keys_of_bucket in Hk1 as [Hb1 _], Hk2 as [Hb2 _]. congruence.
  - intros [k v]. rewrite list_elem_of_bind. setoid_rewrite elem_of_reduceAll; [|done..]. split.
    + intros (r & [[Hb Hk]%keys_of_bucket ->] & _). by rewrite values_of_bucket.
    + intros [Hk ->]. destruct (bucket_range R k HR) as (r & Hb & Hr). exists r.
      rewrite keys_of_bucket, values_of_bucket by done. split; [done|]. unfold zrange. rewrite elem_of_seqZ. lia.
Qed.
End loops.

Lemma gather_all (mapf : string → string → list KeyValue) (inputs : list string) (fs0 : Files) :
  (∀ f, f ∈ inputs → is_Some (fs0 !! f)) → Sequential.gather mapf inputs fs0 = Some (allPairs mapf inputs fs0).
Proof.
  unfold Sequential.gather, allPairs. induction inputs as [|f l IH] using rev_ind; intros Hin; [done|].
  rewrite foldl_app, IH by set_solver. simpl. destruct (Hin f) as [c Hc]; [set_solver|].
  rewrite Hc, fmap_app, concat_app. simpl. by rewrite Hc, app_nil_r.
Qed.
