(* ===== verification/MRRun.v ===== *)
(** * Runs of a job, executed

    A scheduler picks the next step; [run] executes a schedule and [run_steps] says that it is a
    path of [job_step].  [small] jobs and schedules for it are the concrete inputs of the witnesses;
    the last two schedules handle a report in one of the windows that [quiet] excludes. *)
From stdpp Require Import pretty sorting.
From Stdlib Require Import Ascii.
From S2P Require Import Prelude MapReduce MRWorker MRSystem MRSequential.
Import Coordinator Worker.

(** [sort.Sort] as a merge sort. *)
Definition kv_le (a b : KeyValue) : Prop := String.le (Key a) (Key b).
#[export] Instance kv_le_dec : RelDecision kv_le.
Proof. intros a b. unfold kv_le. apply _. Defined.
#[export] Instance kv_le_trans : Transitive kv_le.
Proof. intros a b c. unfold kv_le. apply transitivity. Qed.
#[export] Instance kv_le_total : Total kv_le.
Proof. intros a b. unfold kv_le. apply (total String.le). Qed.

Lemma kv_le_sorted l : StronglySorted (λ a b, String.leb (Key a) (Key b) = true) (merge_sort kv_le l).
Proof.
  pose proof (StronglySorted_merge_sort kv_le l) as Hs. induction Hs as [|a l' Hs IH Ha]; constructor; [done|].
  eapply Forall_impl; [done|]. intros b Hb. by apply Is_true_eq_true.
Qed.

#[export] Instance merge_sort_keys : SortByKey :=
  {| sort_keys := merge_sort kv_le; sort_keys_perm l := merge_sort_Permutation kv_le l; sort_keys_sorted := kv_le_sorted |}.

(** ** Schedules *)
Inductive act :=
  | ATake (now : Z) | ATrace (i : nat) | AWork (i : nat) | ACrash (i : nat) | AReport (now : Z) (i : nat)
  | AGenerate | AGenerated | ARetrieve (now : Z).

Definition pick {A} (l : list A) (i : nat) : option (A * list A) := x ← l !! i; Some (x, take i l ++ drop (S i) l).

Lemma pick_split {A} (l : list A) i x r : pick l i = Some (x, r) → ∃ l1 l2, l = l1 ++ x :: l2 ∧ r = l1 ++ l2.
Proof.
  unfold pick. intros (y & Hy & [= -> <-])%bind_Some. exists (take i l), (drop (S i) l).
  split; [|done]. symmetry. by apply take_drop_middle.
Qed.

Section run.
Context `{MapOrder} `{SortByKey}.
Context (mapf : string → string → list KeyValue) (reducef : string → list string → string).
Context (G : Job → Prop) `{∀ J, Decision (G J)}.

Definition exec (J : Job) (a : act) : option Job :=
  match a with
  | ATake now =>
      '(t, _, c) ← assignTake now (co J);
      if 0 <? now then Some (mkJob c (fs J) (t :: taken J) (gen J) (given J) (reports J)) else None
  | ATrace i =>
      '(t, l) ← pick (taken J) i;
      Some (mkJob (assignTrace t (co J)) (fs J) l (gen J) (t :: given J) (reports J))
  | AWork i =>
      '(t, l) ← pick (given J) i; f ← do_task mapf reducef (co J) t (fs J);
      Some (mkJob (co J) f (taken J) (gen J) l (mkReport (Id t) (TaskType t) :: reports J))
  | ACrash i => '(t, l) ← pick (given J) i; Some (mkJob (co J) (fs J) (taken J) (gen J) l (reports J))
  | AReport now i =>
      '(a, l) ← pick (reports J) i; '(_, start, c, f) ← ReportTask now a (co J) (fs J);
      if (0 <? now) && bool_decide (G J)
      then Some (mkJob c f (taken J) (if start : bool then Some 0 else gen J) (given J) l) else None
  | AGenerate =>
      i ← gen J; c ← generateReduceTask i (co J);
      if i <? nReduce (co J) then Some (mkJob c (fs J) (taken J) (Some (i + 1)) (given J) (reports J)) else None
  | AGenerated =>
      i ← gen J;
      if nReduce (co J) <=? i then Some (mkJob (co J) (fs J) (taken J) None (given J) (reports J)) else None
  | ARetrieve now => c ← retriveTimeoutTasks now (co J); if 0 <? now then Some (set_co c J) else None
  end.

Definition run (acts : list act) (J : Job) : option Job := foldl (λ acc a, J ← acc; exec J a) (Some J) acts.

Lemma exec_step J a J' : exec J a = Some J' → job_step mapf reducef G J J'.
Proof.
  destruct a as [now|i|i|i|now i| | |now]; simpl.
  - intros ([[t r] c] & Ht & Hx)%bind_Some. destruct (0 <? now) eqn:?; [|done]. injection Hx as <-. eapply js_take; [|done]; lia.
  - intros ([t l] & (l1 & l2 & Hl & ->)%pick_split & [= <-])%bind_Some. by apply js_trace.
  - intros ([t l] & (l1 & l2 & Hl & ->)%pick_split & (f & Hf & [= <-])%bind_Some)%bind_Some. by apply js_work.
  - intros ([t l] & (l1 & l2 & Hl & ->)%pick_split & [= <-])%bind_Some. by eapply js_crash.
  - intros ([a l] & (l1 & l2 & Hl & ->)%pick_split & ([[[acc start] c] f] & Hr & Hx)%bind_Some)%bind_Some.
    destruct (0 <? now) eqn:?; [|done]. simpl in Hx. case_bool_decide; [|done]. injection Hx as <-.
    eapply js_report; [done| |done|done]; lia.
  - intros (i & Hi & (c & Hc & Hx)%bind_Some)%bind_Some. destruct (_ <? _) eqn:?; [|done]. injection Hx as <-.
    eapply js_generate; [done| |done]; lia.
  - intros (i & Hi & Hx)%bind_Some. destruct (_ <=? _) eqn:?; [|done]. injection Hx as <-. eapply js_generated; [done|]; lia.
  - intros (c & Hc & Hx)%bind_Some. destruct (0 <? now) eqn:?; [|done]. injection Hx as <-. eapply js_retrieve; [|done]; lia.
Qed.

Lemma run_steps acts J J' : run acts J = Some J' → rtc (job_step mapf reducef G) J J'.
Proof.
  unfold run. revert J'. induction acts as [|a acts IH] using rev_ind; intros J'; [by intros [= ->]|].
  rewrite foldl_app. simpl. intros (J1 & HJ1 & HJ2)%bind_Some. eapply rtc_r; [by apply IH|by eapply exec_step].
Qed.
End run.

#[export] Instance quiet_dec J : Decision (quiet J).
Proof. destruct J as [c f [|t l] [i|] g r]; [right|left|right|right]; unfold quiet; simpl; naive_solver. Defined.

(** ** A small job: one word per file, counted *)
Definition oneWord (filename content : string) : list KeyValue := [mkKV content "1"].
Definition smallFiles : Files := {[ "a"%string := "w"%string; "b"%string := "w"%string ]}.
Definition smallStart : Job := start_job ["a"; "b"]%string 1 smallFiles.

(** A worker crashes with task 0, which is retrieved after the deadline; both maps, then the reduce. *)
Definition smallMaps : list act :=
  [ATake 1; ATrace 0; ACrash 0; ATake 2; ATrace 0; AWork 0; AReport 3 0; ARetrieve 20000000000; ATake 20000000000;
   ATrace 0; AWork 0].
Definition smallRest : list act :=
  [AReport 20000000001 0; AGenerate; AGenerated; ATake 20000000002; ATrace 0; AWork 0; AReport 20000000003 0].

Definition smallAfter (acts : list act) : Job := default smallStart (run oneWord wcReduce quiet acts smallStart).

Lemma small_reachable acts :
  is_Some (run oneWord wcReduce quiet acts smallStart) →
  rtc (job_step oneWord wcReduce quiet) smallStart (smallAfter acts).
Proof. unfold smallAfter. intros [J HJ]. rewrite HJ. by apply run_steps in HJ. Qed.

Lemma short_not_generated (s : string) : String.get 1 s = None → ~ generated s.
Proof. intros Hs (i & j & [-> |[-> |[-> | ->]]]); lazy in Hs; discriminate Hs. Qed.

Lemma small_ok : inputs_ok oneWord ["a"; "b"]%string 1 smallFiles.
Proof.
  split.
  - lia.
  - intros f [-> |[-> |[]%elem_of_nil]%elem_of_cons]%elem_of_cons; (split; [by eexists|by apply short_not_generated]).
  - intros f Hf. destruct (smallFiles !! f) as [c|] eqn:Hc; [|done]. exfalso. revert Hc. unfold smallFiles.
    rewrite lookup_insert_Some, lookup_singleton_Some. intros [[<- _]|(_ & <- & _)]; revert Hf; by apply short_not_generated.
  - intros i Hi. assert (i = 0 ∨ i = 1) as [-> | ->] by (simpl in Hi; lia);
      (constructor; [|constructor]); split_and!; vm_compute; naive_solver.
Qed.

Lemma wcReduce_order_free : order_free wcReduce.
Proof. intros k vs vs' Hp. unfold wcReduce. by rewrite Hp. Qed.
