(* ===== verification/MRLoop.v ===== *)
(** * The loop of a worker

    [Worker] of [worker.go], driven by what its calls of [AssignTask] return, and how it appears in a job:
    every pass of the loop is a [js_work] step of [MRSystem]. *)
From stdpp Require Import pretty.
From Stdlib Require Import Ascii.
From S2P Require Import Prelude MapReduce MRWorker MRSystem MRSequential MRRun.
Import Coordinator Worker.

(** What [call] does: it ends the process when it cannot dial, returns false when the call failed, and true
    with a reply. *)
Inductive CallResult (A : Type) :=
| CallFatal
| CallFailed
| CallOk (reply : A).
#[global] Arguments CallFatal {A}.
#[global] Arguments CallFailed {A}.
#[global] Arguments CallOk {A} reply.

Section loop.
Context `{MapOrder} `{SortByKey}.
Context (mapf : string → string → list KeyValue) (reducef : string → list string → string).

(** [reportTask], after its call: [None] ends the process; the reply keeps its zero value when the call fails. *)
Definition reportTask (result : CallResult bool) : option bool :=
  match result with CallFatal => None | CallFailed => Some false | CallOk accept => Some accept end.

(** [Worker]: whether it quit, the files, and the reports it sent, in order; [None] is a fatal exit.  Every
    pass has the result of its call of [AssignTask] and that of [ReportTask], which it makes when it had a task
    to do; whether the report was accepted is only logged. *)
Fixpoint Worker (calls : list (CallResult AssignTaskReply * CallResult bool)) (fs : Files) :
    option (bool * Files * list ReportTaskArgs) :=
  match calls with
  | [] => Some (false, fs, [])
  | (CallFatal, _) :: _ => None
  | (CallFailed, _) :: calls => Worker calls fs
  | (CallOk reply, result) :: calls =>
      let t := Info reply in
      if bool_decide (TaskType t = MAP) then
        fs ← doMapTask (Id t) (Filename t) (NReduce reply) mapf fs; _ ← reportTask result;
        '(q, fs, rs) ← Worker calls fs;
        Some (q, fs, mkReport (Id t) MAP :: rs)
      else if bool_decide (TaskType t = REDUCE) then
        fs ← doReduceTask reducef (Id t) (NMap reply) fs; _ ← reportTask result;
        '(q, fs, rs) ← Worker calls fs;
        Some (q, fs, mkReport (Id t) REDUCE :: rs)
      else if bool_decide (TaskType t = QUIT) then Some (true, fs, [])
      else Worker calls fs
  end.

(** The tasks of the replies before the first that says [QUIT]. *)
Fixpoint assigned (calls : list (CallResult AssignTaskReply * CallResult bool)) : list TaskInfo :=
  match calls with
  | [] => []
  | (CallOk reply, _) :: calls => if bool_decide (TaskType (Info reply) = QUIT) then [] else Info reply :: assigned calls
  | _ :: calls => assigned calls
  end.

(** What a coordinator answers: [QUIT], or a task with its numbers of map and reduce tasks. *)
Definition from_coordinator (c : Coordinator) (call : CallResult AssignTaskReply * CallResult bool) : Prop :=
  match call.1 with
  | CallOk reply => TaskType (Info reply) = QUIT ∨
      (task_type (TaskType (Info reply)) ∧ NMap reply = nMap c ∧ NReduce reply = nReduce c)
  | _ => True
  end.

(** One pass of the loop with a task. *)
Lemma worker_pass (G : Job → Prop) (J : Job) t fs1 rest :
  given J = t :: rest → do_task mapf reducef (co J) t (fs J) = Some fs1 →
  job_step mapf reducef G J
    (mkJob (co J) fs1 (taken J) (gen J) rest (mkReport (Id t) (TaskType t) :: reports J)).
Proof. intros Hg Hd. by apply (js_work mapf reducef G J t [] rest). Qed.

(** A worker without competitors: its loop is a sequence of [js_work] steps that executes the tasks it was
    given, in order, and leaves one report for each; it ends exactly at a reply that says [QUIT]. *)
Theorem worker_loop_works (G : Job → Prop) (calls : list (CallResult AssignTaskReply * CallResult bool)) (J : Job) l q fs' rs :
  Forall (from_coordinator (co J)) calls → given J = assigned calls ++ l →
  Worker calls (fs J) = Some (q, fs', rs) →
  rtc (job_step mapf reducef G) J (mkJob (co J) fs' (taken J) (gen J) l (reverse rs ++ reports J)) ∧
  rs = (λ t, mkReport (Id t) (TaskType t)) <$> assigned calls ∧
  (q = true ↔ ∃ reply, CallOk reply ∈ calls.*1 ∧ TaskType (Info reply) = QUIT).
Proof.
  revert J rs. induction calls as [|[[| |reply] result] calls IH]; intros J rs Hfrom Hg Hrun; cbn [Worker assigned] in *.
  - simplify_eq. simpl in Hg. destruct J. simpl in *. subst. split_and!; [done|done|].
    split; [done|]. by intros (? & ?%elem_of_nil & _).
  - done.
  - apply Forall_cons in Hfrom as [_ Hfrom]. destruct (IH J rs Hfrom Hg Hrun) as (? & ? & Hq).
    split_and!; [done..|]. rewrite Hq, fmap_cons. clear. set_solver.
  - apply Forall_cons in Hfrom as [Ht Hfrom]. set (t := Info reply) in *.
    destruct (decide (TaskType t = QUIT)) as [Hquit|Hquit].
    { rewrite bool_decide_eq_true_2 in Hg |- * by done. rewrite Hquit in Hrun. cbn in Hrun.
      injection Hrun as <- <- <-. destruct J. simpl in *. subst. split_and!; [done|done|]. split; [|done]. intros _. exists reply. split; [left|done]. }
    rewrite bool_decide_eq_false_2 in Hg |- * by done. cbn [app] in Hg.
    destruct Ht as [Ht|(Htt & HM & HR)]; [done|].
    assert (∃ fs1 rs1, do_task mapf reducef (co J) t (fs J) = Some fs1 ∧ Worker calls fs1 = Some (q, fs', rs1) ∧
      rs = mkReport (Id t) (TaskType t) :: rs1) as (fs1 & rs1 & Hdo & Hrun1 & ->).
    { unfold do_task. rewrite <-HM, <-HR. assert (TaskType t = MAP ∨ TaskType t = REDUCE) as [Ht|Ht] by exact Htt; rewrite Ht in Hrun |- *; cbn in Hrun |- *.
      - destruct (doMapTask _ _ _ _ _) as [fs1|] eqn:Hd; simplify_eq/=.
        destruct (reportTask result); simplify_eq/=.
        destruct (Worker calls fs1) as [[[q1 f1] r1]|] eqn:Hw; simplify_eq/=. by exists fs1, r1.
      - destruct (doReduceTask _ _ _ _) as [fs1|] eqn:Hd; simplify_eq/=.
        destruct (reportTask result); simplify_eq/=.
        destruct (Worker calls fs1) as [[[q1 f1] r1]|] eqn:Hw; simplify_eq/=. by exists fs1, r1. }
    pose proof (worker_pass G J t fs1 _ Hg Hdo) as Hstep.
    destruct (IH (mkJob (co J) fs1 (taken J) (gen J) (assigned calls ++ l)
      (mkReport (Id t) (TaskType t) :: reports J)) rs1 Hfrom eq_refl Hrun1) as (Hsteps & -> & Hq). split_and!.
    + eapply rtc_l; [exact Hstep|]. simpl in Hsteps. by rewrite reverse_cons, <-app_assoc.
    + done.
    + rewrite Hq. split.
      * intros (r & ? & ?). exists r. split; [by right|done].
      * intros (r & [[= <-]|?]%elem_of_cons & ?); [done|]. by exists r.
Qed.
End loop.

(** ** A worker of the small job

    Its first call fails, the second returns the first map task (nobody hears of the answer to its report),
    the third says [QUIT]. *)
Definition loopStart : Job := smallAfter [ATake 1; ATrace 0].
Definition loopCalls : list (CallResult AssignTaskReply * CallResult bool) :=
  ((CallFailed, CallFailed) ::
   ((λ t, (CallOk (mkAssign t (nMap (co loopStart)) (nReduce (co loopStart))), CallFailed)) <$> given loopStart)) ++
  [(CallOk (mkAssign (mkTask 0 QUIT "" zeroTime) 0 0), CallFailed)].
Definition loopEnd : option (bool * Files * list ReportTaskArgs) := Worker oneWord wcReduce loopCalls (fs loopStart).
Definition loopFiles : Files := from_option (λ r, r.1.2) ∅ loopEnd.

Lemma worker_loop_works_witness :
  let J := mkJob (co loopStart) loopFiles (taken loopStart) (gen loopStart) [] [mkReport 0 MAP] in
  rtc (job_step oneWord wcReduce quiet) loopStart J.
Proof.
  apply (worker_loop_works oneWord wcReduce quiet loopCalls loopStart [] true loopFiles [mkReport 0 MAP]).
  - repeat constructor; vm_compute; naive_solver.
  - by vm_compute.
  - by vm_compute.
Defined.
