(* ===== verification/MRApps.v ===== *)
(** * The plug-ins of [mrapps]

    The map and reduce functions of [wc.go], [indexer.go], [nocrash.go], [crash.go] and [early_exit.go],
    and what a job computes with them.  A string is a sequence of bytes; [strings.FieldsFunc] goes
    through its runes, so the decoding of UTF-8 is modelled; [unicode.IsLetter] is a parameter. *)
From stdpp Require Import pretty.
From Stdlib Require Import Ascii.
From S2P Require Import Prelude MapReduce MRWorker MRSystem MRInvariant MRProgress MRSequential MRRun MRTheorems.
Import Coordinator Worker.

(** ** Runes *)

Definition code (a : ascii) : Z := Z.of_N (N_of_ascii a).

(** How long the encoding is that starts with a byte, and the range of its second byte; 0 for a byte that
    starts none. *)
Definition rune_len (a : Z) : Z :=
  if a <? 128 then 1 else if a <? 194 then 0 else if a <? 224 then 2 else if a <? 240 then 3
  else if a <? 245 then 4 else 0.
Definition second_ok (a b : Z) : bool :=
  ((if a =? 224 then 160 else if a =? 240 then 144 else 128) <=? b) &&
  (b <=? (if a =? 237 then 159 else if a =? 244 then 143 else 191)).
Definition cont_ok (b : Z) : bool := (128 <=? b) && (b <=? 191).

Definition RuneError : Z := 65533.

(** [for _, r := range s], each rune with its bytes; a byte that starts no encoding is a [RuneError]. *)
Fixpoint runes (s : string) : list (Z * string) :=
  match s with
  | EmptyString => []
  | String a s1 =>
      let bad := (RuneError, String a "") :: runes s1 in
      let k := rune_len (code a) in
      if k =? 1 then (code a, String a "") :: runes s1
      else match s1 with
      | String b s2 =>
          if negb (second_ok (code a) (code b)) then bad
          else if k =? 2 then
            (Z.land (code a) 31 * 64 + Z.land (code b) 63, String a (String b "")) :: runes s2
          else match s2 with
          | String c s3 =>
              if negb (cont_ok (code c)) then bad
              else if k =? 3 then
                (Z.land (code a) 15 * 4096 + Z.land (code b) 63 * 64 + Z.land (code c) 63,
                 String a (String b (String c ""))) :: runes s3
              else match s3 with
              | String d s4 =>
                  if negb (cont_ok (code d)) then bad
                  else if k =? 4 then
                    (Z.land (code a) 7 * 262144 + Z.land (code b) 63 * 4096 + Z.land (code c) 63 * 64 + Z.land (code d) 63,
                     String a (String b (String c (String d "")))) :: runes s4
                  else bad
              | EmptyString => bad
              end
          | EmptyString => bad
          end
      | EmptyString => bad
      end
  end.

(** [strings.FieldsFunc(s, f)]: the maximal runs of runes that are not separators. *)
Fixpoint fields (f : Z → bool) (rs : list (Z * string)) (cur : option string) : list string :=
  match rs with
  | [] => match cur with Some w => [w] | None => [] end
  | (r, b) :: rs' =>
      if f r then match cur with Some w => w :: fields f rs' None | None => fields f rs' None end
      else fields f rs' (Some (default ""%string cur +:+ b))
  end.
Definition FieldsFunc (s : string) (f : Z → bool) : list string := fields f (runes s) None.

(** [unicode.IsLetter]; tab and newline are not letters. *)
Class Letters := {
  IsLetter : Z → bool;
  IsLetter_tab : IsLetter 9 = false;
  IsLetter_newline : IsLetter 10 = false
}.

Definition words `{Letters} (s : string) : list string := FieldsFunc s (λ r, negb (IsLetter r)).

(** [strings.Join]. *)
Fixpoint Join (elems : list string) (sep : string) : string :=
  match elems with
  | [] => ""
  | [x] => x
  | x :: elems' => x +:+ (sep +:+ Join elems' sep)
  end.

(** [sort.Strings]. *)
Definition Strings (l : list string) : list string := merge_sort String.le l.

(** ** The plug-ins *)

Module wc.
Definition Map `{Letters} (filename contents : string) : list KeyValue := (λ w, mkKV w "1") <$> words contents.
(** Its [Reduce] is [wcReduce]. *)
End wc.

Module indexer.
(** The set [m] is ranged over in any order. *)
Definition Map `{Letters} `{MapOrder} (document value : string) : list KeyValue :=
  let m := foldl (λ m w, <[w := true]> m) (∅ : gmap string bool) (words value) in
  (λ p, mkKV p.1 document) <$> map_order m.
Definition Reduce (key : string) (values : list string) : string :=
  Itoa (zlen values) +:+ (" " +:+ Join (Strings values) ",").
End indexer.

Module nocrash.
Definition Map (filename contents : string) : list KeyValue :=
  [mkKV "a" filename; mkKV "b" (Itoa (Z.of_nat (String.length filename)));
   mkKV "c" (Itoa (Z.of_nat (String.length contents))); mkKV "d" "xyzzy"].
Definition Reduce (key : string) (values : list string) : string := Join (Strings values) " ".
End nocrash.

Module crash.
(** [rr] is the random number below 1000; [None] is [os.Exit(1)], and a delay changes nothing here. *)
Definition maybeCrash (rr : Z) : option unit := if rr <? 330 then None else Some tt.
Definition Map (rr : Z) (filename contents : string) : option (list KeyValue) :=
  _ ← maybeCrash rr;
  Some [mkKV "a" filename; mkKV "b" (Itoa (Z.of_nat (String.length filename)));
        mkKV "c" (Itoa (Z.of_nat (String.length contents))); mkKV "d" "xyzzy"].
Definition Reduce (rr : Z) (key : string) (values : list string) : option string :=
  _ ← maybeCrash rr; Some (Join (Strings values) " ").
End crash.

Module early_exit.
Definition Map (filename contents : string) : list KeyValue := [mkKV filename "1"].
(** The sleep of some keys changes nothing here. *)
Definition Reduce (key : string) (values : list string) : string := Itoa (zlen values).
End early_exit.

(** ** What a line looks like *)

(** White space is below 33 or above 127. *)
Lemma blank_cons x l :
  blank (x :: l) = true →
  ((x < 33 ∨ 128 ≤ x) ∧ blank l = true) ∨
  (∃ y l', l = y :: l' ∧ 128 ≤ x ∧ 128 ≤ y ∧ blank l' = true) ∨
  (∃ y z l', l = y :: z :: l' ∧ 128 ≤ x ∧ 128 ≤ y ∧ 128 ≤ z ∧ blank l' = true).
Proof.
  intros Hb. cbn [blank] in Hb.
  repeat match type of Hb with
  | context [match ?y with _ => _ end] => is_var y; destruct y; try discriminate Hb
  end; try (left; split; [lia|exact Hb]).
  all: try (right; left; do 2 eexists; split; [reflexivity|]; split; [lia|]; split; [lia|exact Hb]).
  all: try (right; right; do 3 eexists; split; [reflexivity|]; split; [lia|]; split; [lia|]; split; [lia|exact Hb]).
  destruct (_ || _) eqn:Hz; [|discriminate Hb].
  right. right. do 3 eexists. split; [reflexivity|]. split; [lia|]. split; [lia|]. split; [lia|exact Hb].
Qed.

Lemma blank_bytes l x : blank l = true → x ∈ l → x < 33 ∨ 128 ≤ x.
Proof.
  remember (length l) as k eqn:Hk. revert l Hk. induction (lt_wf k) as [k _ IH]. intros [|y l] -> Hb Hx; [by apply elem_of_nil in Hx|].
  apply elem_of_cons in Hx as [-> | Hx].
  - apply blank_cons in Hb as [[? _]|[(? & ? & _ & ? & _)|(? & ? & ? & _ & ? & _)]]; [done|by right..].
  - apply blank_cons in Hb as [[_ Hb]|[(y1 & l' & -> & _ & H1 & Hb)|(y1 & y2 & l' & -> & _ & H1 & H2 & Hb)]].
    + apply (IH (length l)) with l; simpl; (done || lia).
    + apply elem_of_cons in Hx as [-> | Hx]; [by right|]. apply (IH (length l')) with l'; simpl; (done || lia).
    + apply elem_of_cons in Hx as [-> | [-> | Hx]%elem_of_cons]; [by right..|]. apply (IH (length l')) with l'; simpl; (done || lia).
Qed.

Lemma code_lt a : 0 ≤ code a < 256.
Proof. unfold code. pose proof (N_ascii_bounded a). lia. Qed.

Lemma elem_of_chars c s : occurs c s → code c ∈ (λ c, Z.of_nat (nat_of_ascii c)) <$> String.list_ascii_of_string s.
Proof.
  induction s as [|d s IH]; simpl; [done|]. intros [-> | Hs]; csimpl; [|right; by apply IH].
  unfold code, nat_of_ascii. rewrite N_nat_Z. left.
Qed.

Lemma visible_not_blank c s : occurs c s → 33 ≤ code c < 128 → isBlank s = false.
Proof.
  intros Hc Hv. destruct (isBlank s) eqn:Hb; [|done]. apply elem_of_chars in Hc. unfold isBlank in Hb.
  destruct (blank_bytes _ _ Hb Hc); lia.
Qed.

(** ** Words *)

(** An ASCII character occurs only as a rune of its own. *)
Lemma runes_ascii s r b c : (r, b) ∈ runes s → occurs c b → code c < 128 → r = code c.
Proof.
  remember (String.length s) as k eqn:Hk. revert s Hk. induction (lt_wf k) as [k _ IH].
  intros [|a s1] -> Hin Hc Hlt; [by apply elem_of_nil in Hin|].
  assert (Hrec : ∀ s', (String.length s' ≤ String.length s1)%nat → (r, b) ∈ runes s' → r = code c).
  { intros s' Hl Hs. apply (IH (String.length s')) with s'; simpl; (done || lia). }
  assert (Hbad : rune_len (code a) ≠ 1 → (r, b) ∈ (RuneError, String a "") :: runes s1 → r = code c).
  { intros Hk [[= -> ->]|Hs]%elem_of_cons; [|by apply (Hrec s1)]. simpl in Hc. destruct Hc as [-> | []].
    unfold rune_len in Hk. case_match; lia. }
  cbn [runes] in Hin. destruct (Z.eqb_spec (rune_len (code a)) 1) as [H1|H1].
  { apply elem_of_cons in Hin as [[= -> ->]|Hs]; [|by apply (Hrec s1)]. by destruct Hc as [-> | []]. }
  assert (Ha : 128 ≤ code a) by (unfold rune_len in H1; case_match; lia).
  specialize (Hbad H1). destruct s1 as [|x s2]; [by apply Hbad|].
  destruct (second_ok (code a) (code x)) eqn:Hx; cbn [negb] in Hin; [|by apply Hbad].
  assert (Hx' : 128 ≤ code x) by (unfold second_ok in Hx; repeat case_match; lia).
  destruct (rune_len (code a) =? 2).
  { apply elem_of_cons in Hin as [[= -> ->]|Hs]; [|by apply (Hrec s2); [simpl; lia|]]. destruct Hc as [-> | [-> | []]]; lia. }
  destruct s2 as [|y s3]; [by apply Hbad|].
  destruct (cont_ok (code y)) eqn:Hy; cbn [negb] in Hin; [|by apply Hbad]. unfold cont_ok in Hy.
  destruct (rune_len (code a) =? 3).
  { apply elem_of_cons in Hin as [[= -> ->]|Hs]; [|by apply (Hrec s3); [simpl; lia|]]. destruct Hc as [-> | [-> | [-> | []]]]; lia. }
  destruct s3 as [|z s4]; [by apply Hbad|].
  destruct (cont_ok (code z)) eqn:Hz; cbn [negb] in Hin; [|by apply Hbad]. unfold cont_ok in Hz.
  destruct (rune_len (code a) =? 4); [|by apply Hbad].
  apply elem_of_cons in Hin as [[= -> ->]|Hs]; [|by apply (Hrec s4); [simpl; lia|]].
  destruct Hc as [-> | [-> | [-> | [-> | []]]]]; lia.
Qed.

(** The characters of a field are those of runes that are not separators. *)
Lemma fields_chars f rs cur w c :
  w ∈ fields f rs cur → occurs c w →
  (∃ w0, cur = Some w0 ∧ occurs c w0) ∨ ∃ r b, (r, b) ∈ rs ∧ f r = false ∧ occurs c b.
Proof.
  revert cur. induction rs as [|[r b] rs IH]; intros cur Hw Hc; simpl in Hw.
  - destruct cur as [w0|]; [|by apply elem_of_nil in Hw]. apply list_elem_of_singleton in Hw as ->. left. by exists w0.
  - assert (Hlater : ∀ cur', w ∈ fields f rs cur' → (∃ w0, cur' = Some w0 ∧ occurs c w0) ∨
      ∃ r' b', (r', b') ∈ (r, b) :: rs ∧ f r' = false ∧ occurs c b').
    { intros cur' Hin. destruct (IH cur' Hin Hc) as [?|(r' & b' & ? & ?)]; [by left|right].
      exists r', b'. split; [by right|done]. }
    destruct (f r) eqn:Hf.
    + destruct cur as [w0|]; [apply elem_of_cons in Hw as [-> | Hw]|]; [left; by exists w0|..];
        destruct (Hlater None Hw) as [(? & ? & _)|?]; [done|by right|done|by right].
    + destruct (Hlater _ Hw) as [(w1 & [= <-] & Ho)|?]; [|by right].
      apply occurs_app in Ho as [Ho|Ho].
      * destruct cur as [w0|]; simpl in Ho; [left; by exists w0|done].
      * right. exists r, b. split; [left|done].
Qed.

Lemma words_clean `{Letters} s w : w ∈ words s → ~ occurs tab w ∧ ~ occurs newline w.
Proof.
  intros Hw. split; intros Hc; destruct (fields_chars _ _ _ _ _ Hw Hc) as [(? & ? & _)|(r & b & Hin & Hf & Ho)]; try done.
  - apply (runes_ascii s r b tab) in Ho as ->; [|done|done].
    change (code tab) with 9 in Hf. by rewrite IsLetter_tab in Hf.
  - apply (runes_ascii s r b newline) in Ho as ->; [|done|done].
    change (code newline) with 10 in Hf. by rewrite IsLetter_newline in Hf.
Qed.

(** ** What the jobs compute *)

Lemma Strings_perm l l' : l ≡ₚ l' → Strings l = Strings l'.
Proof.
  intros Hp. unfold Strings. apply (StronglySorted_unique String.le).
  - apply (StronglySorted_merge_sort _).
  - apply (StronglySorted_merge_sort _).
  - by rewrite !merge_sort_Permutation.
Qed.

(** No [Reduce] of these plug-ins looks at the order of the values, so a job with any of them writes the
    lines of the sequential program. *)
Lemma indexer_order_free : order_free indexer.Reduce.
Proof. intros k vs vs' Hp. unfold indexer.Reduce. by rewrite (Strings_perm vs vs' Hp), Hp. Qed.
Lemma nocrash_order_free : order_free nocrash.Reduce.
Proof. intros k vs vs' Hp. unfold nocrash.Reduce. by rewrite (Strings_perm vs vs' Hp). Qed.

(** The input files can be read and none has the name of a file the job makes. *)
Record readable (inputs : list string) (fs0 : Files) : Prop := {
  rd_files f : f ∈ inputs → is_Some (fs0 !! f) ∧ ~ generated f;
  rd_fresh f : generated f → fs0 !! f = None
}.

Lemma readable_ok mapf inputs R fs0 :
  readable inputs fs0 → 0 < R →
  (∀ f contents, f ∈ inputs → Forall clean (mapf f contents)) → inputs_ok mapf inputs R fs0.
Proof.
  intros [Hf Hfr] HR Hc. split; [done|done|done|]. intros i Hi. unfold inter.
  destruct (inputs !! Z.to_nat i) as [f|] eqn:Hl; [|by apply lookup_ge_None_1 in Hl; lia].
  apply Hc. by eapply list_elem_of_lookup_2.
Qed.

Section jobs.
Context `{Letters} `{MapOrder} `{SortByKey}.
Context (inputs : list string) (R : Z) (fs0 : Files).

Definition content (f : string) : string := default ""%string (fs0 !! f).

(** All words of all inputs; how often one occurs; the inputs it occurs in. *)
Definition allWords : list string := inputs ≫= λ f, words (content f).
Definition occurrences (w : string) : Z := zlen (filter (λ x, x = w) allWords).
Definition documents (w : string) : list string := filter (λ f, w ∈ words (content f)) inputs.

Lemma wc_pairs : allPairs wc.Map inputs fs0 = (λ w, mkKV w "1") <$> allWords.
Proof.
  unfold allPairs, allWords, wc.Map. induction inputs as [|f l IH]; csimpl; [done|].
  by rewrite IH, fmap_app.
Qed.

Lemma wc_keys w : w ∈ Key <$> allPairs wc.Map inputs fs0 ↔ 0 < occurrences w.
Proof.
  rewrite wc_pairs, <-list_fmap_compose. unfold occurrences.
  replace (Key ∘ (λ w, mkKV w "1") <$> allWords) with allWords by (symmetry; apply list_fmap_id). split.
  - intros Hw. assert (Hin : w ∈ filter (λ x, x = w) allWords) by by apply list_elem_of_filter.
    destruct (filter _ allWords); [by apply elem_of_nil in Hin|simpl; lia].
  - intros Hp. destruct (filter (λ x, x = w) allWords) as [|x l] eqn:Hf; [simpl in Hp; lia|].
    assert (Hx : x ∈ x :: l) by left. rewrite <-Hf in Hx. by apply list_elem_of_filter in Hx as [-> ?].
Qed.

Lemma wc_values w : zlen (values_of w (allPairs wc.Map inputs fs0)) = occurrences w.
Proof.
  rewrite wc_pairs. unfold values_of, occurrences. rewrite length_fmap. induction allWords as [|x l IH]; [done|].
  csimpl. rewrite !filter_cons. simpl. case_decide; simpl; lia.
Qed.

Lemma wc_clean f contents : Forall clean (wc.Map f contents).
Proof.
  apply Forall_forall. intros kv (w & -> & Hw)%list_elem_of_fmap. apply words_clean in Hw as [Ht Hn].
  split_and!; [done|done|by intros [Hc|[]]|by intros [Hc|[]]|].
  apply (visible_not_blank "1"); [unfold line_of; rewrite occurs_app; simpl; tauto|vm_compute; split; [discriminate|reflexivity]].
Qed.

(** The indexer's map gives every word of a document once. *)
Lemma index_set_spec (ws : list string) w b :
  foldl (λ m w, <[w := true]> m) (∅ : gmap string bool) ws !! w = Some b ↔ w ∈ ws ∧ b = true.
Proof.
  induction ws as [|x ws IH] using rev_ind; [simpl; rewrite lookup_empty; set_solver|].
  rewrite foldl_app. cbn [foldl]. rewrite elem_of_app, list_elem_of_singleton.
  destruct (decide (x = w)) as [->|Hne]; [rewrite lookup_insert_eq; naive_solver|].
  rewrite lookup_insert_ne, IH by done. naive_solver.
Qed.

Lemma indexer_keys f contents w : w ∈ Key <$> indexer.Map f contents ↔ w ∈ words contents.
Proof.
  unfold indexer.Map. rewrite <-list_fmap_compose, map_order_perm, list_elem_of_fmap. split.
  - intros ([w' b] & -> & Hin%elem_of_map_to_list). by apply index_set_spec in Hin as [? _].
  - intros Hw. exists (w, true). split; [done|]. apply elem_of_map_to_list. by apply index_set_spec.
Qed.

Lemma indexer_values f contents w :
  values_of w (indexer.Map f contents) = if decide (w ∈ words contents) then [f] else [].
Proof.
  assert (Hnd : NoDup (Key <$> indexer.Map f contents)).
  { unfold indexer.Map. rewrite <-list_fmap_compose, map_order_perm. apply NoDup_fst_map_to_list. }
  assert (Hv : ∀ kv, kv ∈ indexer.Map f contents → Value kv = f).
  { unfold indexer.Map. by intros kv (p & -> & _)%list_elem_of_fmap. }
  pose proof (indexer_keys f contents w) as Hk. unfold values_of.
  induction (indexer.Map f contents) as [|kv l IH]; [|].
  - rewrite decide_False; [done|]. rewrite <-Hk. apply not_elem_of_nil.
  - apply NoDup_cons in Hnd as [Hni Hnd]. rewrite filter_cons. csimpl in Hk.
    destruct (decide (Key kv = w)) as [<-|Hne].
    + rewrite decide_True by (apply Hk; left). csimpl. rewrite (Hv kv) by left. f_equal.
      destruct (filter (λ kv', Key kv' = Key kv) l) as [|kv' l'] eqn:Hf; [done|]. exfalso. apply Hni.
      assert (Hin : kv' ∈ kv' :: l') by left. rewrite <-Hf in Hin. apply list_elem_of_filter in Hin as [<- Hin].
      by apply list_elem_of_fmap_2.
    + apply IH; [done|intros; apply Hv; by right|]. rewrite <-Hk, elem_of_cons. naive_solver.
Qed.

(** The documents of a word, up to order, are its values. *)
Lemma indexer_documents w : values_of w (allPairs indexer.Map inputs fs0) = documents w.
Proof.
  unfold allPairs, documents. induction inputs as [|f l IH]; csimpl; [done|].
  unfold values_of in *. rewrite filter_app, fmap_app, IH. change (Value <$> filter _ ?l) with (values_of w l).
  rewrite indexer_values, filter_cons. unfold content. by case_decide.
Qed.

Lemma indexer_all_keys w : w ∈ Key <$> allPairs indexer.Map inputs fs0 ↔ documents w ≠ [].
Proof.
  unfold allPairs, documents. induction inputs as [|f l IH]; csimpl; [set_solver|].
  rewrite fmap_app, elem_of_app, indexer_keys, IH, filter_cons. fold (content f). case_decide; naive_solver.
Qed.

(** A name that survives the intermediate files: no tab, no newline, and something to see. *)
Definition printable (f : string) : Prop :=
  ~ occurs tab f ∧ ~ occurs newline f ∧ ∃ c, occurs c f ∧ 33 ≤ code c < 128.

Lemma indexer_clean f contents : printable f → Forall clean (indexer.Map f contents).
Proof.
  intros (Ht & Hn & c & Hc & Hv). apply Forall_forall. intros kv Hkv.
  assert (Hk : Key kv ∈ words contents) by (rewrite <-(indexer_keys f); by apply list_elem_of_fmap_2).
  apply words_clean in Hk as [Hkt Hkn]. unfold indexer.Map in Hkv. apply list_elem_of_fmap in Hkv as (p & -> & _).
  split_and!; [done..|]. apply (visible_not_blank c); [unfold line_of; rewrite occurs_app; simpl; tauto|done].
Qed.


(** An indexer job that is done lists, for every word of some input in increasing order, the number of
    documents it occurs in and their names in order, provided the names have no tab or newline and are not
    blank. *)
Theorem indexer_job J r :
  readable inputs fs0 → 0 < R → (∀ f, f ∈ inputs → printable f) →
  rtc (job_step indexer.Map indexer.Reduce quiet) (start_job inputs R fs0) J → Done (co J) = true → 0 ≤ r < R →
  ∃ ws, fs J !! finalReduceOutFile r = Some (printLines ((λ w,
      (w, Itoa (zlen (documents w)) +:+ (" " +:+ Join (Strings (documents w)) ","))) <$> ws)) ∧
    StronglySorted key_lt ws ∧ ∀ w, w ∈ ws ↔ bucket R w = Some r ∧ documents w ≠ [].
Proof.
  intros Hin HR Hpr Hr Hd Hrange.
  destruct (done_lines indexer.Map indexer.Reduce inputs R fs0 J r) as (ks & vs & Hl & Hs & Hk & Hv); try done.
  { apply readable_ok; [done|done|]. intros. by apply indexer_clean, Hpr. }
  exists ks. split; [|split; [done|intros w; by rewrite Hk, indexer_all_keys]].
  rewrite Hl. do 2 f_equal. apply list_fmap_ext. intros i w Hw%list_elem_of_lookup_2. f_equal.
  rewrite (indexer_order_free w _ _ (Hv w Hw)). by rewrite indexer_documents.
Qed.

End jobs.

(** ** Two files *)

(** ASCII letters. *)
#[local] Instance ascii_letters : Letters.
Proof.
  refine {| IsLetter r := (65 <=? r) && (r <=? 90) || (97 <=? r) && (r <=? 122) |}; reflexivity.
Defined.

Definition twoFiles : Files := {[ "a"%string := "to be, or"%string; "b"%string := "not to be"%string ]}.
Definition twoStart : Job := start_job ["a"; "b"]%string 1 twoFiles.

Lemma two_readable : readable ["a"; "b"]%string twoFiles.
Proof.
  split.
  - intros f [-> |[-> |[]%elem_of_nil]%elem_of_cons]%elem_of_cons; (split; [by eexists|by apply short_not_generated]).
  - intros f Hf. destruct (twoFiles !! f) as [c|] eqn:Hc; [|done]. exfalso. revert Hc. unfold twoFiles.
    rewrite lookup_insert_Some, lookup_singleton_Some. intros [[<- _]|(_ & <- & _)]; revert Hf; by apply short_not_generated.
Qed.

(** The job after a list of acts, and that it can be reached. *)
Definition twoAfter mapf reducef (acts : list act) : Job := default twoStart (run mapf reducef quiet acts twoStart).
Lemma two_reachable mapf reducef acts :
  is_Some (run mapf reducef quiet acts twoStart) →
  rtc (job_step mapf reducef quiet) twoStart (twoAfter mapf reducef acts).
Proof. unfold twoAfter. intros [J HJ]. rewrite HJ. by apply run_steps in HJ. Qed.


Lemma indexer_job_witness :
  fs (twoAfter indexer.Map indexer.Reduce (smallMaps ++ smallRest)) !! finalReduceOutFile 0 =
    Some (printLines [("be", "2 a,b"); ("not", "1 b"); ("or", "1 a"); ("to", "2 a,b")]%string) ∧
  ∃ ws, fs (twoAfter indexer.Map indexer.Reduce (smallMaps ++ smallRest)) !! finalReduceOutFile 0 =
      Some (printLines ((λ w, (w, Itoa (zlen (documents ["a"; "b"]%string twoFiles w)) +:+
        (" " +:+ Join (Strings (documents ["a"; "b"]%string twoFiles w)) ","))) <$> ws)) ∧
    StronglySorted key_lt ws ∧
    ∀ w, w ∈ ws ↔ bucket 1 w = Some 0 ∧ documents ["a"; "b"]%string twoFiles w ≠ [].
Proof.
  split; [vm_compute; reflexivity|].
  apply (indexer_job ["a"; "b"]%string 1 twoFiles).
  - exact two_readable.
  - lia.
  - intros f [-> |[-> |[]%elem_of_nil]%elem_of_cons]%elem_of_cons; (split_and!;
      [intros Hc; vm_compute in Hc; naive_solver..|]);
      [exists "a"%char|exists "b"%char]; (split; [by left|vm_compute; split; [discriminate|reflexivity]]).
  - apply two_reachable. vm_compute. by eexists.
  - vm_compute. reflexivity.
  - lia.
Defined.
