(* ===== verification/MRTiming.v ===== *)
(** * The plug-ins that look at the processes of a job

    [mtiming.go] and [rtiming.go] count the workers that run at the same time, through files in the
    working directory and signal 0; [jobcount.go] counts the calls of its map function the same way.
    [nparallel] is cut where other processes can act in between: creating the file, reading the
    directory, one probe per name, and, after the sleep, removing the file. *)
From stdpp Require Import pretty.
From Stdlib Require Import Ascii.
From S2P Require Import Prelude MapReduce MRWorker MRApps.
Import Worker.

(** ** [fmt.Sscanf] with one [%d] *)

Definition is_blank (a : ascii) : bool := (code a =? 32) || ((9 <=? code a) && (code a <=? 13) && negb (code a =? 10)).
Definition is_digit (a : ascii) : bool := (48 <=? code a) && (code a <=? 57).

Fixpoint skip_blanks (s : string) : string :=
  match s with String a s' => if is_blank a then skip_blanks s' else s | EmptyString => s end.

(** The longest front of digits and underscores, which is handed to [strconv.ParseInt]. *)
Fixpoint token (s : string) : string :=
  match s with
  | String a s' => if is_digit a || (code a =? 95) then String a (token s') else EmptyString
  | EmptyString => EmptyString
  end.

(** [ParseInt] with base 10 for digits; an underscore is an error. *)
Fixpoint digits (acc : Z) (s : string) : option Z :=
  match s with
  | EmptyString => Some acc
  | String a s => if is_digit a then digits (acc * 10 + (code a - 48)) s else None
  end.

(** [%d]: blanks, a sign, digits; what follows them is not looked at.  A number that does not fit an [int]
    is an error. *)
Definition scan_int (s : string) : option Z :=
  let s := skip_blanks s in
  let '(sign, s) := match s with
                    | String a s' => if code a =? 45 then (-1, s') else if code a =? 43 then (1, s') else (1, s)
                    | EmptyString => (1, s)
                    end in
  match token s with
  | EmptyString => None
  | t => v ← digits 0 t;
         if (- 2 ^ 63 <=? sign * v) && (sign * v <? 2 ^ 63) then Some (sign * v) else None
  end.

(** The literal part of the format must be there. *)
Fixpoint strip (p s : string) : option string :=
  match p, s with
  | EmptyString, _ => Some s
  | String a p, String b s => if bool_decide (a = b) then strip p s else None
  | _, EmptyString => None
  end.
Definition Sscanf (name lit : string) : option Z := s ← strip lit name; scan_int s.

(** ** [nparallel] *)

Definition lit (phase : string) : string := "mr-worker-" +:+ (phase +:+ "-").
Definition myfilename (phase : string) (pid : Z) : string := lit phase +:+ Itoa pid.

(** Where a worker is in [nparallel]. *)
Inductive PC :=
| Called
| Created                                     (* its file is written *)
| Probing (names : list string) (ret : Z)     (* in the loop over the names *)
| Sleeping (ret : Z)
| Returned (ret : Z).

Record Proc := mkProc { pid : Z; alive : bool; pc : PC }.

(** The directory and the workers; a worker that was killed leaves its file. *)
Record Dir := mkDir { files : gset string; procs : list Proc }.

Inductive TEvent :=
| TCreate (i : nat)
| TRead (i : nat) (names : list string)       (* [Readdirnames]: the files in some order *)
| TProbe (i : nat)
| TRemove (i : nat)
| TKilled (i : nat).

(** [syscall.Kill(xpid, 0)] succeeds. *)
Definition pid_alive (x : Z) (ps : list Proc) : bool := existsb (λ p, (pid p =? x) && alive p) ps.

Definition set_pc (i : nat) (q : PC) (d : Dir) : Dir :=
  mkDir (files d) (alter (λ p, mkProc (pid p) (alive p) q) i (procs d)).

(** One event of a run of [nparallel(phase)]: [None] when it cannot happen, or is the panic of
    [os.Remove] on a file that is gone. *)
Definition tstep (phase : string) (d : Dir) (ev : TEvent) : option Dir :=
  match ev with
  | TCreate i =>
      p ← procs d !! i;
      match pc p with
      | Called =>
          if alive p then Some (set_pc i Created (mkDir ({[myfilename phase (pid p)]} ∪ files d) (procs d)))
          else None
      | _ => None
      end
  | TRead i names =>
      p ← procs d !! i;
      match pc p with
      | Created =>
          if alive p && bool_decide (names ≡ₚ elements (files d))
          then Some (set_pc i (Probing (take (Z.to_nat 1000000) names) 0) d) else None
      | _ => None
      end
  | TProbe i =>
      p ← procs d !! i;
      match pc p with
      | Probing [] ret => if alive p then Some (set_pc i (Sleeping ret) d) else None
      | Probing (name :: names) ret =>
          if alive p then
            let found := match Sscanf name (lit phase) with
                         | Some xpid => pid_alive xpid (procs d)
                         | None => false
                         end in
            Some (set_pc i (Probing names (if found then ret + 1 else ret)) d)
          else None
      | _ => None
      end
  | TRemove i =>
      p ← procs d !! i;
      match pc p with
      | Sleeping ret =>
          if alive p && bool_decide (myfilename phase (pid p) ∈ files d)
          then Some (set_pc i (Returned ret) (mkDir (files d ∖ {[myfilename phase (pid p)]}) (procs d)))
          else None
      | _ => None
      end
  | TKilled i =>
      p ← procs d !! i;
      Some (mkDir (files d) (<[i := mkProc (pid p) false (pc p)]> (procs d)))
  end.

Fixpoint trun (phase : string) (d : Dir) (evs : list TEvent) : option Dir :=
  match evs with [] => Some d | ev :: evs => d' ← tstep phase d ev; trun phase d' evs end.

(** ** The plug-ins *)
Module mtiming.
(** The steps of the call [nparallel("map")]. *)
Definition nparallel : Dir → TEvent → option Dir := tstep "map".
(** [Map]: [ts] is the time as [Sprintf] prints it, [n] what [nparallel] returned. *)
Definition Map (ts : string) (pid n : Z) (filename contents : string) : list KeyValue :=
  [mkKV ("times-" +:+ Itoa pid) ts; mkKV ("parallel-" +:+ Itoa pid) (Itoa n)].
Definition Reduce (key : string) (values : list string) : string := Join (Strings values) " ".
End mtiming.

Module rtiming.
(** The same function in this plug-in, called as [nparallel("reduce")]. *)
Definition nparallel : Dir → TEvent → option Dir := tstep "reduce".
Definition Map (filename contents : string) : list KeyValue :=
  (λ k, mkKV k "1") <$> ["a"; "b"; "c"; "d"; "e"; "f"; "g"; "h"; "i"; "j"].
Definition Reduce (n : Z) (key : string) (values : list string) : string := Itoa n.
End rtiming.

Module jobcount.
(** [Map] in the process [me] whose variable [count] is given: the file, the new count, the pairs. *)
Definition Map (me count : Z) (fs : gset string) (filename contents : string) :
    gset string * Z * list KeyValue :=
  ({["mr-worker-jobcount-" +:+ (Itoa me +:+ ("-" +:+ Itoa count))]} ∪ fs, count + 1, [mkKV "a" "x"]).
Definition Reduce (fs : gset string) (key : string) (values : list string) : string :=
  Itoa (zlen (filter (λ f, is_Some (strip "mr-worker-jobcount" f)) (elements fs))).
End jobcount.

(** ** Printing a number and scanning it *)
Fixpoint all_digits (s : string) : bool :=
  match s with String a s' => is_digit a && all_digits s' | EmptyString => true end.

Lemma token_digits s : all_digits s = true → token s = s.
Proof. induction s as [|a s IH]; simpl; [done|]. intros [-> ?]%andb_true_iff. simpl. by rewrite IH. Qed.

Lemma digit_code (y : N) : (y < 10)%N → code (pretty_N_char y) = 48 + Z.of_N y.
Proof.
  intros Hy. destruct y as [|q]; [done|].
  do 4 (destruct q as [q|q|]; try lia; try done).
Qed.

Lemma pretty_N_go_digits (x : N) s : all_digits s = true → all_digits (pretty_N_go x s) = true.
Proof.
  revert s. induction (N.lt_wf_0 x) as [x _ IH]; intros s Hs.
  destruct (decide (0 < x)%N) as [Hx|Hx]; [|by replace x with 0%N by lia].
  rewrite pretty_N_go_step by done. apply IH; [apply N.div_lt; lia|]. simpl. rewrite Hs.
  unfold is_digit. rewrite digit_code by (apply N.mod_lt; lia). pose proof (N.mod_lt x 10 ltac:(lia)).
  generalize dependent (x `mod` 10)%N. intros y Hy. rewrite andb_true_r. lia.
Qed.

Lemma pretty_N_go_value (x : N) s : digits 0 (pretty_N_go x s) = digits (Z.of_N x) s.
Proof.
  revert s. induction (N.lt_wf_0 x) as [x _ IH]; intros s.
  destruct (decide (0 < x)%N) as [Hx|Hx]; [|by replace x with 0%N by lia].
  rewrite pretty_N_go_step by done. rewrite IH by (apply N.div_lt; lia). simpl.
  assert (x mod 10 < 10)%N as Hm by (apply N.mod_lt; lia).
  pose proof (N.div_mod x 10 ltac:(lia)) as Hdm. generalize dependent (x `mod` 10)%N.
  generalize (x / 10)%N. intros d y Hxy Hy. unfold is_digit. rewrite digit_code by done.
  rewrite (proj2 (andb_true_iff _ _)) by lia. f_equal. lia.
Qed.

Lemma Itoa_digits x : 0 ≤ x → all_digits (Itoa x) = true ∧ digits 0 (Itoa x) = Some x ∧ Itoa x ≠ ""%string.
Proof.
  intros Hx. unfold Itoa. destruct x as [|q|q]; [done| |lia].
  change (pretty (Z.pos q)) with (pretty (N.pos q)). unfold pretty, pretty_N. rewrite decide_False by done.
  split_and!.
  - by apply pretty_N_go_digits.
  - by rewrite pretty_N_go_value.
  - intros He. pose proof (pretty_N_go_value (N.pos q) "") as Hv. by rewrite He in Hv.
Qed.

Lemma scan_Itoa x : 0 ≤ x < 2 ^ 63 → scan_int (Itoa x) = Some x.
Proof.
  intros Hx. destruct (Itoa_digits x) as (Hd & Hv & Hne); [lia|]. unfold scan_int.
  destruct (Itoa x) as [|a s] eqn:Hs; [done|]. pose proof (token_digits _ Hd) as Ht.
  simpl in Hd. apply andb_true_iff in Hd as [Ha _]. unfold is_digit in Ha.
  assert (skip_blanks (String a s) = String a s) as ->.
  { simpl. unfold is_blank. by rewrite (proj2 (orb_false_iff _ _)) by lia. }
  rewrite (proj2 (Z.eqb_neq (code a) 45)), (proj2 (Z.eqb_neq (code a) 43)) by lia.
  rewrite Ht, Hv. cbn [mbind option_bind]. rewrite (proj2 (andb_true_iff _ _)) by lia. f_equal. lia.
Qed.

Lemma strip_app l s : strip l (l +:+ s) = Some s.
Proof. induction l as [|a l IH]; simpl; [done|]. by rewrite bool_decide_eq_true_2. Qed.

(** A worker's file name is read back as its process number. *)
Lemma Sscanf_myfilename phase x : 0 ≤ x < 2 ^ 63 → Sscanf (myfilename phase x) (lit phase) = Some x.
Proof. intros Hx. unfold Sscanf, myfilename. rewrite strip_app. simpl. by apply scan_Itoa. Qed.

Lemma myfilename_inj phase x y : myfilename phase x = myfilename phase y → x = y.
Proof. intros Heq%string_app_inj. by apply Itoa_inj. Qed.

(** ** Counting the workers *)
Section timing.
Context (phase : string) (pids : list Z) (fs0 : gset string).
Context (Hpids : NoDup pids) (Hrange : Forall (λ x, 0 ≤ x < 2 ^ 63) pids).
Context (Hother : ∀ f, f ∈ fs0 → Sscanf f (lit phase) = None).
Context (Hsmall : Z.of_nat (size fs0) + zlen pids ≤ 1000000).
Implicit Types (d : Dir) (p : Proc).

Definition scans (f : string) : Prop := is_Some (Sscanf f (lit phase)).
#[local] Instance scans_dec f : Decision (scans f).
Proof. unfold scans. apply _. Defined.

(** What is known of a worker, by where it is. *)
Definition pc_ok (fs : gset string) p : Prop :=
  match pc p with
  | Called => True
  | Created => myfilename phase (pid p) ∈ fs
  | Probing names ret => myfilename phase (pid p) ∈ fs ∧ 0 ≤ ret ∧
      ret + zlen (filter scans names) ≤ zlen pids ∧ (myfilename phase (pid p) ∈ names ∨ 1 ≤ ret)
  | Sleeping ret => myfilename phase (pid p) ∈ fs ∧ 1 ≤ ret ≤ zlen pids
  | Returned ret => 1 ≤ ret ≤ zlen pids
  end.

Record TInv d : Prop := {
  ti_pids : pid <$> procs d = pids;
  ti_files f : f ∈ files d → f ∈ fs0 ∨ f ∈ (myfilename phase <$> pids);
  ti_pc i p : procs d !! i = Some p → pc_ok (files d) p;
}.

Lemma pid_range d i p : TInv d → procs d !! i = Some p → 0 ≤ pid p < 2 ^ 63.
Proof.
  intros HI Hi. rewrite Forall_forall in Hrange. apply Hrange. rewrite <-(ti_pids _ HI).
  apply list_elem_of_fmap. exists p. split; [done|]. by eapply list_elem_of_lookup_2.
Qed.

Lemma inv_set d i p q fs' :
  TInv d → procs d !! i = Some p →
  (∀ f, f ∈ fs' → f ∈ fs0 ∨ f ∈ (myfilename phase <$> pids)) →
  (∀ j p', j ≠ i → procs d !! j = Some p' → pc_ok (files d) p' → pc_ok fs' p') →
  pc_ok fs' (mkProc (pid p) (alive p) q) → TInv (set_pc i q (mkDir fs' (procs d))).
Proof.
  intros [Hp Hf Hpc] Hi Hfs Hj Hq. split; simpl; [|done|].
  - rewrite <-Hp. apply list_eq. intros k. rewrite !list_lookup_fmap.
    destruct (decide (k = i)) as [->|]; [|by rewrite list_lookup_alter_ne].
    by rewrite list_lookup_alter_eq, Hi.
  - intros k pk. destruct (decide (k = i)) as [->|].
    + rewrite list_lookup_alter_eq, Hi. by intros [= <-].
    + rewrite list_lookup_alter_ne by done. intros Hk. eapply Hj; [done|done|]. by eapply Hpc.
Qed.

(** Same files: nothing changes for the others. *)
Lemma timing_move d i p q :
  TInv d → procs d !! i = Some p → pc_ok (files d) (mkProc (pid p) (alive p) q) → TInv (set_pc i q d).
Proof.
  intros HI Hi Hq. pose proof (inv_set d i p q (files d) HI Hi (ti_files _ HI)) as Hs.
  destruct d. by apply Hs.
Qed.

Lemma pid_alive_self d i p : procs d !! i = Some p → alive p = true → pid_alive (pid p) (procs d) = true.
Proof.
  intros Hi Ha. apply existsb_exists. exists p. split; [|by rewrite Z.eqb_refl, Ha].
  apply list_elem_of_In. by eapply list_elem_of_lookup_2.
Qed.

(** The listing of the directory. *)
Lemma listing_length d names :
  TInv d → names ≡ₚ elements (files d) → take (Z.to_nat 1000000) names = names.
Proof.
  intros HI Hn. apply take_ge. rewrite (Permutation_length Hn).
  assert (length (elements (files d)) ≤ size fs0 + length pids)%nat; [|lia].
  assert (elements (files d) ⊆+ elements fs0 ++ (myfilename phase <$> pids)) as Hs.
  { apply NoDup_submseteq; [apply NoDup_elements|]. intros f Hf%elem_of_elements%(ti_files _ HI).
    rewrite elem_of_app, elem_of_elements. done. }
  apply submseteq_length in Hs. by rewrite length_app, length_fmap in Hs.
Qed.

Lemma listing_scans d names :
  TInv d → names ≡ₚ elements (files d) → zlen (filter scans names) ≤ zlen pids.
Proof.
  intros HI Hn. assert (filter scans names ⊆+ (myfilename phase <$> pids)) as Hs.
  { apply NoDup_submseteq.
    - apply NoDup_filter. rewrite Hn. apply NoDup_elements.
    - intros f [[x Hx] Hf]%list_elem_of_filter. rewrite Hn, elem_of_elements in Hf.
      destruct (ti_files _ HI f Hf) as [H0|]; [|done]. by rewrite (Hother f H0) in Hx. }
  apply submseteq_length in Hs. rewrite length_fmap in Hs. lia.
Qed.

Lemma other_file d i j p p' :
  TInv d → procs d !! i = Some p → procs d !! j = Some p' → j ≠ i →
  myfilename phase (pid p') ≠ myfilename phase (pid p).
Proof.
  intros HI Hi Hj Hne Heq%myfilename_inj. apply Hne. apply (NoDup_lookup pids j i (pid p')); [done| |].
  - by rewrite <-(ti_pids _ HI), list_lookup_fmap, Hj.
  - by rewrite <-(ti_pids _ HI), list_lookup_fmap, Hi, Heq.
Qed.

(** A file more or another file less does not change what is known of a worker. *)
Lemma pc_ok_files fs fs' p :
  (myfilename phase (pid p) ∈ fs → myfilename phase (pid p) ∈ fs') → pc_ok fs p → pc_ok fs' p.
Proof. unfold pc_ok. destruct (pc p); naive_solver. Qed.

Lemma probe_inv d i p name names ret :
  TInv d → procs d !! i = Some p → pc p = Probing (name :: names) ret → alive p = true →
  let found := match Sscanf name (lit phase) with Some x => pid_alive x (procs d) | None => false end in
  TInv (set_pc i (Probing names (if found then ret + 1 else ret)) d).
Proof.
  intros HI Hi Hpc Ha found. apply (timing_move d i p); [done|done|].
  pose proof (ti_pc _ HI _ _ Hi) as Hok. unfold pc_ok in Hok |- *. rewrite Hpc in Hok. simpl.
  destruct Hok as (Hf & Hr & Hc & Hown). rewrite filter_cons in Hc. unfold found.
  assert (Sscanf name (lit phase) = None → ¬ scans name) as Hno by (unfold scans; intros ->; by intros []).
  destruct (Sscanf name (lit phase)) as [x|] eqn:Hs.
  - rewrite decide_True in Hc by (by exists x). cbn [length] in Hc.
    split_and!; [done|by case_match; lia|by case_match; lia|].
    destruct Hown as [[<-|?]%elem_of_cons|?]; [|by left|by right; case_match; lia].
    rewrite Sscanf_myfilename in Hs by (by eapply pid_range). injection Hs as <-.
    right. rewrite (pid_alive_self d i p) by done. lia.
  - rewrite decide_False in Hc by auto. split_and!; [done|done|done|].
    destruct Hown as [[<-|?]%elem_of_cons|?]; [|by left|by right].
    by rewrite Sscanf_myfilename in Hs by (by eapply pid_range).
Qed.

Lemma tstep_inv d ev d' : TInv d → tstep phase d ev = Some d' → TInv d'.
Proof.
  intros HI Hex. destruct ev as [i|i names|i|i|i]; simpl in Hex;
    (destruct (procs d !! i) as [p|] eqn:Hi; simplify_eq/=); pose proof (ti_pc _ HI _ _ Hi) as Hok.
  - destruct (pc p) eqn:Hpc; simplify_eq/=. destruct (alive p); simplify_eq/=.
    eapply (inv_set d i p); [done|done| | |].
    + intros f [->%elem_of_singleton|?]%elem_of_union; [|by eapply ti_files].
      right. rewrite <-(ti_pids _ HI), <-list_fmap_compose. apply list_elem_of_fmap. exists p.
      split; [done|]. by eapply list_elem_of_lookup_2.
    + intros j p' _ _. apply pc_ok_files. set_solver.
    + unfold pc_ok. simpl. set_solver.
  - destruct (pc p) eqn:Hpc; simplify_eq/=. destruct (alive p) eqn:Ha; simplify_eq/=.
    case_bool_decide as Hn; simplify_eq/=. apply (timing_move d i p); [done|done|].
    unfold pc_ok in Hok |- *. rewrite Hpc in Hok. simpl. rewrite (listing_length d) by done.
    split_and!; [done|lia|by apply (listing_scans d)|]. left. by rewrite Hn, elem_of_elements.
  - destruct (pc p) as [| |[|name names] ret| |] eqn:Hpc; simplify_eq/=; destruct (alive p) eqn:Ha; simplify_eq/=.
    + apply (timing_move d i p); [done|done|]. unfold pc_ok in Hok |- *. rewrite Hpc in Hok. simpl in *.
      destruct Hok as (Hf & Hr & Hc & [?%elem_of_nil|?]); [done|]. split; [done|]. lia.
    + by apply (probe_inv d i p name names ret).
  - destruct (pc p) eqn:Hpc; simplify_eq/=. destruct (alive p); simplify_eq/=.
    case_bool_decide as Hin; simplify_eq/=. eapply (inv_set d i p); [done|done| | |].
    + intros f [? _]%elem_of_difference. by eapply ti_files.
    + intros j p' Hne Hj. apply pc_ok_files. pose proof (other_file d i j p p' HI Hi Hj Hne). set_solver.
    + unfold pc_ok in Hok |- *. rewrite Hpc in Hok. simpl. by destruct Hok.
  - destruct HI as [Hp Hf Hpc]. split; simpl; [|done|].
    + rewrite list_fmap_insert. simpl. rewrite Hp. apply list_insert_id. by rewrite <-Hp, list_lookup_fmap, Hi.
    + intros k pk. rewrite list_lookup_insert_Some. intros [(<- & <- & _)|[_ Hk]]; [done|by eapply Hpc].
Qed.

Lemma trun_inv evs d d' : TInv d → trun phase d evs = Some d' → TInv d'.
Proof.
  revert d. induction evs as [|ev evs IH]; simpl; intros d HI Hex; [by simplify_eq|].
  destruct (tstep phase d ev) as [d1|] eqn:Hs; simplify_eq/=. eapply IH; [|done]. by eapply tstep_inv.
Qed.

Definition job_start : Dir := mkDir fs0 ((λ x, mkProc x true Called) <$> pids).

Lemma job_start_inv : TInv job_start.
Proof.
  split; simpl; [|by left|].
  - rewrite <-list_fmap_compose. apply list_eq. intros k. rewrite list_lookup_fmap. by destruct (pids !! k).
  - intros i p. rewrite list_lookup_fmap_Some. by intros (x & -> & _).
Qed.

(** What [nparallel] returns: in a directory without files of other jobs, whatever the workers do in
    between and whichever of them are killed, a worker counts at least itself and at most all workers
    of the job; and it always finds its file when it comes to remove it. *)
Theorem nparallel_counts evs d i p :
  trun phase job_start evs = Some d → procs d !! i = Some p →
  (∀ ret, pc p = Returned ret → 1 ≤ ret ≤ zlen pids) ∧
  (∀ ret, pc p = Sleeping ret → alive p = true → is_Some (tstep phase d (TRemove i))).
Proof.
  intros Hrun Hi. pose proof (trun_inv _ _ _ job_start_inv Hrun) as HI.
  pose proof (ti_pc _ HI _ _ Hi) as Hok. unfold pc_ok in Hok. split; intros ret Hpc; rewrite Hpc in Hok; [done|].
  intros Ha. simpl. rewrite Hi. simpl. rewrite Hpc, Ha, bool_decide_eq_true_2 by tauto. by eexists.
Qed.
End timing.

(** ** Counting the calls *)
Definition job_file (me count : Z) : string := "mr-worker-jobcount-" +:+ (Itoa me +:+ ("-" +:+ Itoa count)).

(** The map tasks of a job, each run by the process given; the counters start at 0. *)
Fixpoint run_maps (calls : list Z) (st : gset string * gmap Z Z) : gset string * gmap Z Z :=
  match calls with
  | [] => st
  | me :: calls =>
      let '(fs, count, _) := jobcount.Map me (default 0 (st.2 !! me)) st.1 "" "" in
      run_maps calls (fs, <[me := count]> st.2)
  end.

Lemma job_file_inj me count me' count' :
  0 ≤ me → 0 ≤ me' → job_file me count = job_file me' count' → me = me' ∧ count = count'.
Proof.
  intros H1 H2 Heq%string_app_inj. apply (sep_inj "-") in Heq as [? ?]; [|by apply Itoa_no_hyphen..].
  split; by apply Itoa_inj.
Qed.

Lemma jobs_prefix me count : is_Some (strip "mr-worker-jobcount" (job_file me count)).
Proof. by eexists. Qed.

(** Every counted file was written by a process under an earlier count. *)
Definition counted (fs : gset string) (cs : gmap Z Z) : Prop :=
  ∀ f, f ∈ fs → is_Some (strip "mr-worker-jobcount" f) →
    ∃ me c, 0 ≤ me ∧ f = job_file me c ∧ c < default 0 (cs !! me).

Lemma run_maps_counts calls fs cs :
  Forall (λ me, 0 ≤ me) calls → counted fs cs →
  zlen (filter (λ f, is_Some (strip "mr-worker-jobcount" f)) (elements (run_maps calls (fs, cs)).1)) =
    zlen (filter (λ f, is_Some (strip "mr-worker-jobcount" f)) (elements fs)) + zlen calls.
Proof.
  intros Hme. revert fs cs. induction Hme as [|me calls Hme _ IH]; intros fs cs Hc; [simpl; lia|].
  cbn [run_maps jobcount.Map fst snd]. set (c := default 0 (cs !! me)). fold (job_file me c). rewrite IH.
  - assert (job_file me c ∉ fs) as Hnew.
    { intros Hin. destruct (Hc _ Hin (jobs_prefix me c)) as (me' & c' & ? & Heq & Hlt).
      destruct (job_file_inj _ _ _ _ Hme ltac:(done) Heq) as [<- <-]. unfold c in Hlt. lia. }
    rewrite elements_union_singleton by done. rewrite filter_cons, decide_True by apply jobs_prefix.
    cbn [length]. lia.
  - intros f [->%elem_of_singleton|Hin]%elem_of_union Hp.
    + exists me, c. split_and!; [done|done|]. rewrite lookup_insert_eq. simpl. lia.
    + destruct (Hc f Hin Hp) as (me' & c' & ? & ? & Hlt). exists me', c'. split_and!; [done|done|].
      destruct (decide (me = me')) as [<-|]; [rewrite lookup_insert_eq; simpl; unfold c; lia|].
      by rewrite lookup_insert_ne.
Qed.

(** A job-count job in a directory without such files reports, for its key, how often map tasks were
    run, by whichever processes. *)
Theorem jobcount_counts (calls : list Z) (fs0 : gset string) (key : string) (values : list string) :
  Forall (λ me, 0 ≤ me) calls → (∀ f, f ∈ fs0 → strip "mr-worker-jobcount" f = None) →
  jobcount.Reduce (run_maps calls (fs0, ∅)).1 key values = Itoa (zlen calls).
Proof.
  intros Hme Hno. unfold jobcount.Reduce. f_equal. rewrite run_maps_counts.
  - rewrite filter_drop; [simpl; lia|]. intros f Hf%elem_of_elements. rewrite (Hno f Hf). by intros [].
  - done.
  - intros f Hf. rewrite (Hno f Hf). by intros [].
Qed.

(** *** Witnesses *)
Definition two_workers : list TEvent :=
  [ TCreate 0; TCreate 1;
    TRead 0 ["mr-worker-map-12"; "mr-worker-map-7"; "pg.txt"]; TProbe 0; TProbe 0; TProbe 0; TProbe 0; TRemove 0 ].
Definition two_pids : list Z := [7; 12].
Definition two_files : gset string := {["pg.txt"]}.
Definition two_done : Dir := default (job_start two_pids two_files) (trun "map" (job_start two_pids two_files) two_workers).

Lemma nparallel_counts_witness :
  procs two_done !! 0%nat = Some (mkProc 7 true (Returned 2)) ∧ 1 ≤ 2 ≤ 2.
Proof.
  assert (procs two_done !! 0%nat = Some (mkProc 7 true (Returned 2))) as Hp by by vm_compute.
  split; [done|].
  destruct (nparallel_counts "map" two_pids two_files ltac:(by apply (bool_decide_unpack _); vm_compute)
    ltac:(by repeat constructor) ltac:(by intros f ->%elem_of_singleton; vm_compute) ltac:(by vm_compute)
    two_workers two_done 0 _ ltac:(by vm_compute) Hp) as [H _].
  by apply (H 2).
Defined.

Lemma jobcount_counts_witness :
  jobcount.Reduce (run_maps [7; 12; 7] ({["pg.txt"]}, ∅)).1 "a" ["x"; "x"; "x"] = "3".
Proof.
  rewrite (jobcount_counts [7; 12; 7] {["pg.txt"]} "a" ["x"; "x"; "x"]); [by vm_compute| |].
  - by repeat constructor.
  - by intros f ->%elem_of_singleton.
Defined.
