(* ===== verification/Bitset.v ===== *)
(** * Bitsets of the linearizability checker ([porcupine/bitset.go])

    A bitset is a slice of 64-bit words, bit [pos] being bit [pos mod 64] of word [pos / 64]; an
    index outside the slice is the run-time panic [None].  [bit] is the set a bitset stands for. *)
From S2P Require Import Prelude.

Definition word64 (x : Z) : Z := x mod 2 ^ 64.
(** The conversion [uint(x)]. *)
Definition uint (x : Z) : Z := word64 x.

(** [math/bits.OnesCount64]. *)
Definition OnesCount64 (x : Z) : Z := zlen (filter (λ i, Z.testbit x i = true) (zrange 0 64)).

Module Bitset.
Abbreviation bitset := (list Z).

Definition newBitset (bits : Z) : bitset :=
  let extra := if negb (bits mod 64 =? 0) then 1 else 0 in
  let chunks := bits / 64 + extra in
  replicate (Z.to_nat chunks) 0.

(** [clone] copies into a fresh slice. *)
Definition clone (b : bitset) : bitset := b.

Definition bitsetIndex (pos : Z) : Z * Z := (pos / 64, pos mod 64).

Definition set (b : bitset) (pos : Z) : option bitset :=
  let '(major, minor) := bitsetIndex pos in
  w ← index b major; set_index b major (Z.lor w (word64 (Z.shiftl 1 minor))).

Definition clear (b : bitset) (pos : Z) : option bitset :=
  let '(major, minor) := bitsetIndex pos in
  w ← index b major; set_index b major (Z.ldiff w (word64 (Z.shiftl 1 minor))).

Definition get (b : bitset) (pos : Z) : option bool :=
  let '(major, minor) := bitsetIndex pos in
  w ← index b major; Some (negb (Z.land w (word64 (Z.shiftl 1 minor)) =? 0)).

Definition popcnt (b : bitset) : Z := uint (foldl (λ total v, total + OnesCount64 v) 0 b).

Definition hash (b : bitset) : Z := foldl (λ hash v, Z.lxor hash v) (popcnt b) b.

(** The loop over the words. *)
Fixpoint sameWords (b b2 : bitset) : bool :=
  match b, b2 with
  | v :: b, v2 :: b2 => if negb (v =? v2) then false else sameWords b b2
  | _, _ => true
  end.
Definition equals (b b2 : bitset) : bool :=
  if negb (zlen b =? zlen b2) then false else sameWords b b2.

(** ** The set of a bitset *)
Definition bit (b : bitset) (pos : Z) : bool := Z.testbit (default 0 (index b (pos / 64))) (pos mod 64).
(** The words are words, and [n] positions fit. *)
Record wf (n : Z) (b : bitset) : Prop := {
  wf_words v : v ∈ b → 0 ≤ v < 2 ^ 64;
  wf_size : n ≤ 64 * zlen b;
}.

Lemma mask_bit m i : 0 ≤ m < 64 → 0 ≤ i → Z.testbit (word64 (Z.shiftl 1 m)) i = (i =? m).
Proof.
  intros Hm Hi. unfold word64. rewrite Z.shiftl_1_l, Z.mod_small by (split; [lia|apply Z.pow_lt_mono_r; lia]).
  rewrite Z.pow2_bits_eqb by lia. apply Z.eqb_sym.
Qed.

Lemma mask_land m w : 0 ≤ m < 64 → negb (Z.land w (word64 (Z.shiftl 1 m)) =? 0) = Z.testbit w m.
Proof.
  intros Hm. destruct (Z.testbit w m) eqn:Hb; [|].
  - destruct (Z.eqb_spec (Z.land w (word64 (Z.shiftl 1 m))) 0) as [Hz|]; [|done]. exfalso.
    apply (f_equal (λ x, Z.testbit x m)) in Hz. rewrite Z.land_spec, mask_bit, Hb, Z.testbit_0_l in Hz by lia. lia.
  - destruct (Z.eqb_spec (Z.land w (word64 (Z.shiftl 1 m))) 0) as [|Hz]; [done|]. exfalso. apply Hz.
    apply Z.bits_inj'. intros i Hi. rewrite Z.land_spec, mask_bit, Z.testbit_0_l by lia.
    destruct (Z.eqb_spec i m) as [-> |]; [by rewrite Hb|apply andb_false_r].
Qed.

Lemma word_bits v : (∀ i, 64 ≤ i → Z.testbit v i = false) → 0 ≤ v → 0 ≤ v < 2 ^ 64.
Proof.
  intros Hb Hv. split; [done|]. replace v with (v mod 2 ^ 64); [apply Z.mod_pos_bound; lia|].
  apply Z.bits_inj'. intros i Hi. destruct (decide (i < 64)) as [Hlt|Hge].
  - by rewrite Z.mod_pow2_bits_low.
  - rewrite Z.mod_pow2_bits_high by lia. symmetry. apply Hb. lia.
Qed.

Lemma word_high v i : 0 ≤ v < 2 ^ 64 → 64 ≤ i → Z.testbit v i = false.
Proof. intros Hv Hi. rewrite <-(Z.mod_small v (2 ^ 64)) by done. apply Z.mod_pow2_bits_high. lia. Qed.

Lemma pos_split (p q : Z) : p / 64 = q / 64 → p mod 64 = q mod 64 → p = q.
Proof. intros. rewrite (Z.div_mod p 64), (Z.div_mod q 64) by lia. congruence. Qed.

Section positions.
Context (n : Z).

Lemma pos_index b pos : wf n b → 0 ≤ pos < n → 0 ≤ pos / 64 < zlen b.
Proof.
  intros [_ Hs] Hp. split; [apply Z.div_pos; lia|]. apply Z.div_lt_upper_bound; lia.
Qed.

(** Changing one word changes the bits of that word. *)
Lemma bit_insert b major w pos :
  0 ≤ major < zlen b → 0 ≤ pos →
  bit (<[Z.to_nat major := w]> b) pos = if decide (major = pos / 64) then Z.testbit w (pos mod 64) else bit b pos.
Proof.
  intros Hm Hp. unfold bit. rewrite index_insert by (done || (apply Z.div_pos; lia)). by case_decide.
Qed.

Lemma wf_insert b major w : wf n b → 0 ≤ w < 2 ^ 64 → wf n (<[Z.to_nat major := w]> b).
Proof.
  intros [Hw Hs] Hr. split; [|by rewrite length_insert].
  intros v [i [(_ & <- & _)|[_ Hv]]%list_lookup_insert_Some]%list_elem_of_lookup; [done|].
  apply Hw. by eapply list_elem_of_lookup_2.
Qed.

Lemma set_spec b pos :
  wf n b → 0 ≤ pos < n →
  ∃ b', set b pos = Some b' ∧ wf n b' ∧ length b' = length b ∧
    ∀ q, 0 ≤ q → bit b' q = (q =? pos) || bit b q.
Proof.
  intros Hwf Hp. pose proof (pos_index b pos Hwf Hp) as Hi. pose proof (Z.mod_pos_bound pos 64 ltac:(lia)) as Hm.
  unfold set, bitsetIndex. destruct (index_total b (pos / 64) Hi) as [w Hw]. rewrite Hw. simpl.
  rewrite set_index_Some by done. eexists. split; [done|].
  assert (0 ≤ w < 2 ^ 64) as Hwr.
  { apply index_Some in Hw as [_ Hw]. eapply (wf_words n b); [done|]. by eapply list_elem_of_lookup_2. }
  split_and!; [|by rewrite length_insert|].
  - apply wf_insert; [done|]. apply word_bits.
    + intros i Hi64. rewrite Z.lor_spec, mask_bit, (word_high w) by lia. destruct (Z.eqb_spec i (pos mod 64)); [lia|done].
    + apply Z.lor_nonneg. split; [lia|]. unfold word64. apply Z.mod_pos_bound. lia.
  - intros q Hq. rewrite bit_insert by lia. pose proof (Z.mod_pos_bound q 64 ltac:(lia)) as Hmq.
    case_decide as Hd.
    + rewrite Z.lor_spec, mask_bit by lia. unfold bit. rewrite <-Hd, Hw. simpl. rewrite orb_comm. f_equal.
      destruct (Z.eqb_spec q pos) as [-> |Hne]; [lia|]. destruct (Z.eqb_spec (q mod 64) (pos mod 64)); [|done].
      exfalso. apply Hne. by apply pos_split.
    + destruct (Z.eqb_spec q pos) as [-> |]; [done|done].
Qed.

Lemma clear_spec b pos :
  wf n b → 0 ≤ pos < n →
  ∃ b', clear b pos = Some b' ∧ wf n b' ∧ length b' = length b ∧
    ∀ q, 0 ≤ q → bit b' q = negb (q =? pos) && bit b q.
Proof.
  intros Hwf Hp. pose proof (pos_index b pos Hwf Hp) as Hi. pose proof (Z.mod_pos_bound pos 64 ltac:(lia)) as Hm.
  unfold clear, bitsetIndex. destruct (index_total b (pos / 64) Hi) as [w Hw]. rewrite Hw. simpl.
  rewrite set_index_Some by done. eexists. split; [done|].
  assert (0 ≤ w < 2 ^ 64) as Hwr.
  { apply index_Some in Hw as [_ Hw]. eapply (wf_words n b); [done|]. by eapply list_elem_of_lookup_2. }
  split_and!; [|by rewrite length_insert|].
  - apply wf_insert; [done|]. apply word_bits.
    + intros i Hi64. rewrite Z.ldiff_spec, (word_high w) by lia. done.
    + apply Z.ldiff_nonneg. left. lia.
  - intros q Hq. rewrite bit_insert by lia. pose proof (Z.mod_pos_bound q 64 ltac:(lia)) as Hmq.
    case_decide as Hd.
    + rewrite Z.ldiff_spec, mask_bit by lia. unfold bit. rewrite <-Hd, Hw. simpl. rewrite andb_comm. f_equal. f_equal.
      destruct (Z.eqb_spec q pos) as [-> |Hne]; [lia|]. destruct (Z.eqb_spec (q mod 64) (pos mod 64)); [|done].
      exfalso. apply Hne. by apply pos_split.
    + destruct (Z.eqb_spec q pos) as [-> |]; [done|done].
Qed.

Lemma get_spec b pos : wf n b → 0 ≤ pos < n → get b pos = Some (bit b pos).
Proof.
  intros Hwf Hp. pose proof (pos_index b pos Hwf Hp) as Hi. pose proof (Z.mod_pos_bound pos 64 ltac:(lia)) as Hm.
  unfold get, bitsetIndex, bit. destruct (index_total b (pos / 64) Hi) as [w ->]. simpl. by rewrite mask_land.
Qed.

Lemma newBitset_wf : 0 ≤ n → wf n (newBitset n) ∧ ∀ q, bit (newBitset n) q = false.
Proof.
  intros Hn. unfold newBitset. split; [split|].
  - intros v Hv. apply elem_of_replicate in Hv as [-> _]. lia.
  - rewrite length_replicate. pose proof (Z.div_mod n 64 ltac:(lia)). pose proof (Z.mod_pos_bound n 64 ltac:(lia)).
    pose proof (Z.div_pos n 64 ltac:(lia) ltac:(lia)). destruct (n mod 64 =? 0) eqn:?; simpl; lia.
  - intros q. unfold bit, index. destruct (0 <=? q / 64); [|apply Z.testbit_0_l].
    destruct (replicate _ 0 !! _) as [v|] eqn:Hv; [|apply Z.testbit_0_l].
    apply lookup_replicate in Hv as [-> _]. apply Z.testbit_0_l.
Qed.
End positions.

(** A bitset is determined by its bits. *)
Lemma bits_eq n n' b b' : wf n b → wf n' b' → length b = length b' → (∀ q, 0 ≤ q → bit b q = bit b' q) → b = b'.
Proof.
  intros Hb Hb' Hl Hq. apply list_index_eq; [by rewrite Hl|]. intros i Hi.
  destruct (index_total b i Hi) as [w Hw]. destruct (index_total b' i) as [w' Hw']; [by rewrite <-Hl|].
  rewrite Hw, Hw'. f_equal.
  assert (0 ≤ w < 2 ^ 64 ∧ 0 ≤ w' < 2 ^ 64) as [Hr Hr'].
  { apply index_Some in Hw as [_ Hw], Hw' as [_ Hw'].
    split; [eapply (wf_words n b)|eapply (wf_words n' b')]; try done; by eapply list_elem_of_lookup_2. }
  apply Z.bits_inj'. intros j Hj. destruct (decide (j < 64)) as [Hlt|Hge]; [|by rewrite !word_high by lia].
  specialize (Hq (i * 64 + j) ltac:(lia)). unfold bit in Hq.
  replace ((i * 64 + j) / 64) with i in Hq by (rewrite Z.div_add_l, Z.div_small by lia; lia).
  replace ((i * 64 + j) mod 64) with j in Hq by (rewrite Z.add_comm, Z.mod_add, Z.mod_small by lia; lia).
  by rewrite Hw, Hw' in Hq.
Qed.

Lemma sameWords_eq b b2 : length b = length b2 → sameWords b b2 = true ↔ b = b2.
Proof.
  revert b2. induction b as [|v b IH]; intros [|v2 b2] Hl; simpl in *; [done|done|done|].
  destruct (Z.eqb_spec v v2) as [-> |Hne]; simpl; [|naive_solver]. rewrite IH by lia. naive_solver.
Qed.

Lemma equals_eq b b2 : equals b b2 = true ↔ b = b2.
Proof.
  unfold equals. destruct (Z.eqb_spec (zlen b) (zlen b2)) as [Hl|Hl]; simpl.
  - apply sameWords_eq. lia.
  - split; [done|]. by intros ->.
Qed.

(** Undoing [set]. *)
Lemma clear_set n b b1 pos :
  wf n b → 0 ≤ pos < n → bit b pos = false → set b pos = Some b1 → clear b1 pos = Some b.
Proof.
  intros Hb Hp Hbit Hs. destruct (set_spec n b pos Hb Hp) as (b' & Hs' & Hwf & Hl & Hq).
  rewrite Hs in Hs'. injection Hs' as <-. destruct (clear_spec n b1 pos Hwf Hp) as (b2 & Hc & Hwf2 & Hl2 & Hq2).
  rewrite Hc. f_equal. apply (bits_eq n n); [done|done|congruence|]. intros q Hq0. rewrite Hq2, Hq by done.
  destruct (Z.eqb_spec q pos) as [-> |]; [by rewrite Hbit|done].
Qed.

(** ** Counting *)
Lemma filter_shift (P : Z → Prop) `{∀ x, Decision (P x)} a n :
  length (filter P (seqZ a n)) = length (filter (λ i, P (a + i)) (seqZ 0 n)).
Proof.
  rewrite <-(Z.add_0_r a) at 1. rewrite <-fmap_add_seqZ. induction (seqZ 0 n) as [|i l IH]; [done|].
  csimpl. rewrite !filter_cons. case_decide; simpl; congruence.
Qed.

Lemma count_bits b :
  foldl (λ total v, total + OnesCount64 v) 0 b = zlen (filter (λ i, bit b i = true) (zrange 0 (64 * zlen b))).
Proof.
  induction b as [|v b IH] using rev_ind; [done|]. rewrite foldl_app, IH. simpl. rewrite length_app. simpl. unfold zrange.
  replace (64 * Z.of_nat (length b + 1) - 0) with (64 * zlen b + 64) by lia. rewrite Z.sub_0_r.
  rewrite seqZ_app, filter_app, length_app, Nat2Z.inj_add by lia. f_equal.
  - do 2 f_equal. apply filter_in. intros i [H0 H1]%elem_of_seqZ. unfold bit. rewrite index_app_l; [done|].
    apply Z.div_lt_upper_bound; lia.
  - unfold OnesCount64, zrange. rewrite Z.add_0_l, (filter_shift _ (64 * zlen b)). do 2 f_equal. apply filter_in.
    intros i [H0 H1]%elem_of_seqZ. unfold bit. replace (64 * zlen b + i) with (zlen b * 64 + i) by lia.
    rewrite Z.div_add_l, (Z.div_small i), Z.add_0_r, index_app_r, Z.sub_diag by lia.
    by rewrite Z.add_comm, Z.mod_add, Z.mod_small by lia.
Qed.
End Bitset.
