(* ===== verification/Porcupine.v ===== *)
(** * The linearizability checker ([porcupine])

    Values of a history have type [interface{}] in the code; here a call carries an [Inp] and a
    return an [Out], and the type assertion a model's [Step] starts with is the match in [callStep].
    Nodes of the doubly linked list live in a heap and are shared by address; a nil dereference, an
    index out of range and a failed assertion are [None].  The search loop takes fuel, and reads the
    kill flag from [kill], the value loaded in each iteration. *)
From S2P Require Import Prelude Bitset.

(** ** Histories and models ([model.go]) *)
Inductive EventKind := CallEvent | ReturnEvent.
Inductive entryKind := callEntry | returnEntry.
#[export] Instance entryKind_eq_dec : EqDecision entryKind.
Proof. solve_decision. Defined.
Inductive CheckResult := Unknown | Ok | Illegal.
#[export] Instance CheckResult_eq_dec : EqDecision CheckResult.
Proof. solve_decision. Defined.

Record Operation (Inp Out : Type) := mkOperation {
  OpClientId : Z; Input : Inp; Call : Z; Output : Out; Return : Z;
}.
#[global] Arguments mkOperation {_ _} _ _ _ _ _.
#[global] Arguments OpClientId {_ _} _.
#[global] Arguments Input {_ _} _.
#[global] Arguments Call {_ _} _.
#[global] Arguments Output {_ _} _.
#[global] Arguments Return {_ _} _.

Record Event (Inp Out : Type) := mkEvent { EvClientId : Z; Kind : EventKind; EvValue : Inp + Out; EvId : Z }.
#[global] Arguments mkEvent {_ _} _ _ _ _.
#[global] Arguments EvClientId {_ _} _.
#[global] Arguments Kind {_ _} _.
#[global] Arguments EvValue {_ _} _.
#[global] Arguments EvId {_ _} _.

(** A model as its author writes it, where a function may be nil, and after [fillDefault]. *)
Record Model (Inp Out St : Type) := mkModel {
  mPartition : option (list (Operation Inp Out) → list (list (Operation Inp Out)));
  mPartitionEvent : option (list (Event Inp Out) → list (list (Event Inp Out)));
  mInit : St;
  mStep : St → Inp → Out → bool * St;
  mEqual : option (St → St → bool);
  mDescribeOperation : option (Inp → Out → string);
  mDescribeState : option (St → string);
}.
#[global] Arguments mkModel {_ _ _} _ _ _ _ _ _ _.
#[global] Arguments mPartition {_ _ _} _.
#[global] Arguments mPartitionEvent {_ _ _} _.
#[global] Arguments mInit {_ _ _} _.
#[global] Arguments mStep {_ _ _} _.
#[global] Arguments mEqual {_ _ _} _.
#[global] Arguments mDescribeOperation {_ _ _} _.
#[global] Arguments mDescribeState {_ _ _} _.

Record Full (Inp Out St : Type) := mkFull {
  Partition : list (Operation Inp Out) → list (list (Operation Inp Out));
  PartitionEvent : list (Event Inp Out) → list (list (Event Inp Out));
  Init : St;
  Step : St → Inp → Out → bool * St;
  Equal : St → St → bool;
  DescribeOperation : Inp → Out → string;
  DescribeState : St → string;
}.
#[global] Arguments mkFull {_ _ _} _ _ _ _ _ _ _.
#[global] Arguments Partition {_ _ _} _.
#[global] Arguments PartitionEvent {_ _ _} _.
#[global] Arguments Init {_ _ _} _.
#[global] Arguments Step {_ _ _} _.
#[global] Arguments Equal {_ _ _} _.
#[global] Arguments DescribeOperation {_ _ _} _.
#[global] Arguments DescribeState {_ _ _} _.

(** [fmt.Sprintf] with the verb [%v]. *)
Class Sprint (A : Type) := sprint : A → string.

Section model.
Context {Inp Out St : Type} `{EqDecision St} `{Sprint Inp} `{Sprint Out} `{Sprint St}.

Definition NoPartition (history : list (Operation Inp Out)) : list (list (Operation Inp Out)) := [history].
Definition NoPartitionEvent (history : list (Event Inp Out)) : list (list (Event Inp Out)) := [history].
Definition ShallowEqual (state1 state2 : St) : bool := bool_decide (state1 = state2).
Definition DefaultDescribeOperation (input : Inp) (output : Out) : string := sprint input +:+ " -> " +:+ sprint output.
Definition DefaultDescribeState (state : St) : string := sprint state.

Definition fillDefault (model : Model Inp Out St) : Full Inp Out St :=
  mkFull (default NoPartition (mPartition model)) (default NoPartitionEvent (mPartitionEvent model))
    (mInit model) (mStep model) (default ShallowEqual (mEqual model))
    (default DefaultDescribeOperation (mDescribeOperation model)) (default DefaultDescribeState (mDescribeState model)).
End model.

(** ** Entries ([checker.go]) *)
Record entry (Inp Out : Type) := mkEntry { kind : entryKind; value : Inp + Out; id : Z; time : Z; clientId : Z }.
#[global] Arguments mkEntry {_ _} _ _ _ _ _.
#[global] Arguments kind {_ _} _.
#[global] Arguments value {_ _} _.
#[global] Arguments id {_ _} _.
#[global] Arguments time {_ _} _.
#[global] Arguments clientId {_ _} _.

(** [byTime.Less]. *)
Definition Less {Inp Out} (a b : entry Inp Out) : bool :=
  if negb (time a =? time b) then time a <? time b
  else bool_decide (kind a = callEntry) && bool_decide (kind b = returnEntry).

(** [sort.Sort(byTime(entries))] promises a permutation in which nothing is less than what is before it. *)
Class SortByTime := {
  sort_time {Inp Out} : list (entry Inp Out) → list (entry Inp Out);
  sort_time_perm {Inp Out} (l : list (entry Inp Out)) : sort_time l ≡ₚ l;
  sort_time_sorted {Inp Out} (l : list (entry Inp Out)) : StronglySorted (λ a b, Less b a = false) (sort_time l);
}.

Section entries.
Context {Inp Out : Type}.

Definition opEntries (id : Z) (elem : Operation Inp Out) : list (entry Inp Out) :=
  [mkEntry callEntry (inl (Input elem)) id (Call elem) (OpClientId elem);
   mkEntry returnEntry (inr (Output elem)) id (Return elem) (OpClientId elem)].
Definition rawEntries (history : list (Operation Inp Out)) : list (entry Inp Out) :=
  concat (imap (λ i elem, opEntries (Z.of_nat i) elem) history).
Definition makeEntries `{SortByTime} (history : list (Operation Inp Out)) : list (entry Inp Out) :=
  sort_time (rawEntries history).

(** The loop of [renumber]. *)
Fixpoint renumberLoop (m : gmap Z Z) (id : Z) (events : list (Event Inp Out)) : list (Event Inp Out) :=
  match events with
  | [] => []
  | v :: events =>
      match m !! EvId v with
      | Some r => mkEvent (EvClientId v) (Kind v) (EvValue v) r :: renumberLoop m id events
      | None => mkEvent (EvClientId v) (Kind v) (EvValue v) id :: renumberLoop (<[EvId v := id]> m) (id + 1) events
      end
  end.
Definition renumber (events : list (Event Inp Out)) : list (Event Inp Out) := renumberLoop ∅ 0 events.

Definition convertEntries (events : list (Event Inp Out)) : list (entry Inp Out) :=
  imap (λ i elem,
    mkEntry (match Kind elem with ReturnEvent => returnEntry | CallEvent => callEntry end)
      (EvValue elem) (EvId elem) (Z.of_nat i) (EvClientId elem)) events.
End entries.

(** ** The linked list *)
Abbreviation ptr := nat.
Record node (Inp Out : Type) := mkNode {
  nvalue : option (Inp + Out); nmatch : option ptr; nid : Z; next : option ptr; prev : option ptr;
}.
#[global] Arguments mkNode {_ _} _ _ _ _ _.
#[global] Arguments nvalue {_ _} _.
#[global] Arguments nmatch {_ _} _.
#[global] Arguments nid {_ _} _.
#[global] Arguments next {_ _} _.
#[global] Arguments prev {_ _} _.

Module Checker.
Import Bitset.

Section list.
Context {Inp Out : Type}.
Abbreviation node := (node Inp Out).
Abbreviation heap := (list node).

Definition set_next (x : option ptr) (n : node) : node := mkNode (nvalue n) (nmatch n) (nid n) x (prev n).
Definition set_prev (x : option ptr) (n : node) : node := mkNode (nvalue n) (nmatch n) (nid n) (next n) x.
(** Assigning to a field of the node at [a]. *)
Definition upd (a : ptr) (f : node → node) (h : heap) : option heap := n ← h !! a; Some (<[a := f n]> h).

Definition insertBefore (n : ptr) (mark : option ptr) (h : heap) : option heap :=
  match mark with
  | None => Some h
  | Some mark =>
      m ← h !! mark;
      let beforeMark := prev m in
      h ← upd mark (set_prev (Some n)) h;
      h ← upd n (set_next (Some mark)) h;
      match beforeMark with
      | None => Some h
      | Some b => h ← upd n (set_prev (Some b)) h; upd b (set_next (Some n)) h
      end
  end.

(** [length], which follows at most [fuel] links. *)
Fixpoint nodeLength (fuel : nat) (n : option ptr) (h : heap) : option Z :=
  match n, fuel with
  | None, _ => Some 0
  | Some _, O => None
  | Some a, S fuel => x ← h !! a; l ← nodeLength fuel (next x) h; Some (l + 1)
  end.

(** One iteration of [makeLinkedEntries], on the root, the map of the returns and the heap. *)
Definition linkEntry (s : option ptr * gmap Z ptr * heap) (elem : entry Inp Out)
    : option (option ptr * gmap Z ptr * heap) :=
  let '(root, matches, h) := s in
  let a := length h in
  match kind elem with
  | returnEntry =>
      h ← insertBefore a root (h ++ [mkNode (Some (value elem)) None (id elem) None None]);
      Some (Some a, <[id elem := a]> matches, h)
  | callEntry =>
      h ← insertBefore a root (h ++ [mkNode (Some (value elem)) (matches !! id elem) (id elem) None None]);
      Some (Some a, matches, h)
  end.
Definition makeLinkedEntries (entries : list (entry Inp Out)) : option (option ptr * heap) :=
  '(root, _, h) ← foldl (λ acc elem, s ← acc; linkEntry s elem) (Some (None, ∅, [])) (rev entries);
  Some (root, h).

Definition lift (e : ptr) (h : heap) : option heap :=
  entry ← h !! e; p ← prev entry; h ← upd p (set_next (next entry)) h;
  entry ← h !! e; x ← next entry; h ← upd x (set_prev (prev entry)) h;
  entry ← h !! e; m ← nmatch entry;
  mt ← h !! m; p ← prev mt; h ← upd p (set_next (next mt)) h;
  mt ← h !! m;
  match next mt with
  | Some x => upd x (set_prev (prev mt)) h
  | None => Some h
  end.

Definition unlift (e : ptr) (h : heap) : option heap :=
  entry ← h !! e; m ← nmatch entry;
  mt ← h !! m; p ← prev mt; h ← upd p (set_next (Some m)) h;
  mt ← h !! m;
  h ← match next mt with Some x => upd x (set_prev (Some m)) h | None => Some h end;
  entry ← h !! e; p ← prev entry; h ← upd p (set_next (Some e)) h;
  entry ← h !! e; x ← next entry; upd x (set_prev (Some e)) h.
End list.

(** ** The search *)
Section search.
Context {Inp Out St : Type} (model : Full Inp Out St).
Abbreviation heap := (list (node Inp Out)).

Record cacheEntry := mkCache { ceLinearized : bitset; ceState : St }.

Definition cacheContains (cache : gmap Z (list cacheEntry)) (entry : cacheEntry) : bool :=
  existsb (λ elem, equals (ceLinearized entry) (ceLinearized elem) && Equal model (ceState entry) (ceState elem))
    (default [] (cache !! hash (ceLinearized entry))).

(** The variables of [checkSingle]: the list, the current entry, the operations linearized so far, the cache,
    the stack of calls with the states before them, the state, and the longest prefixes, which are shared
    by address ([seqs] is where they live). *)
Record conf := mkConf {
  hp : heap; cur : option ptr; linearized : bitset; cache : gmap Z (list cacheEntry);
  calls : list (ptr * St); state : St; seqs : list (list Z); longest : list (option nat);
}.

(** [model.Step(state, entry.value, matching.value)] with the assertions on the values. *)
Definition callStep (st : St) (i o : option (Inp + Out)) : option (bool * St) :=
  match i, o with
  | Some (inl i), Some (inr o) => Some (Step model st i o)
  | _, _ => None
  end.

(** The ids of the calls on the stack. *)
Definition callIds (h : heap) (calls : list (ptr * St)) : option (list Z) := mapM (λ c, nid <$> (h !! c.1)) calls.

(** The update of [longest] when the search backs up: the cell of a call on the stack gets the new sequence,
    at address [a] of [sq], when it is longer. *)
Definition longerPrefix (sq : list (list Z)) (a : nat) (callsLen : Z) (l : list (option nat)) (id : Z)
    : option (list (option nat)) :=
  cell ← index l id;
  match cell with
  | None => set_index l id (Some a)
  | Some p => old ← sq !! p; if zlen old <? callsLen then set_index l id (Some a) else Some l
  end.
Definition updateLongest (c : conf) : option conf :=
  seq ← callIds (hp c) (calls c);
  let sq := seqs c ++ [seq] in
  lg ← foldl (λ acc id, l ← acc; longerPrefix sq (length (seqs c)) (zlen (calls c)) l id) (Some (longest c)) seq;
  Some (mkConf (hp c) (cur c) (linearized c) (cache c) (calls c) (state c) sq lg).

(** The loop body: the next state of the loop, or [inr] with the result it returns. *)
Definition body (head : ptr) (computePartial killed : bool) (c : conf) : option (conf + bool) :=
  if killed then Some (inr false) else
  e ← cur c; entry ← hp c !! e;
  match nmatch entry with
  | Some m =>
      matching ← hp c !! m;
      '(ok, newState) ← callStep (state c) (nvalue entry) (nvalue matching);
      let move := mkConf (hp c) (next entry) (linearized c) (cache c) (calls c) (state c) (seqs c) (longest c) in
      if ok : bool then
        newLinearized ← set (clone (linearized c)) (uint (nid entry));
        let newCacheEntry := mkCache newLinearized newState in
        if negb (cacheContains (cache c) newCacheEntry) then
          let hash := hash newLinearized in
          let cache := <[hash := default [] (cache c !! hash) ++ [newCacheEntry]]> (cache c) in
          lin ← set (linearized c) (uint (nid entry));
          h ← lift e (hp c);
          hd ← h !! head;
          Some (inl (mkConf h (next hd) lin cache (calls c ++ [(e, state c)]) newState (seqs c) (longest c)))
        else Some (inl move)
      else Some (inl move)
  | None =>
      match last (calls c) with
      | None => Some (inr false)
      | Some (e, st) =>
          c ← (if computePartial : bool then updateLongest c else Some c);
          entry ← hp c !! e;
          lin ← clear (linearized c) (uint (nid entry));
          h ← unlift e (hp c);
          entry ← h !! e;
          Some (inl (mkConf h (next entry) lin (cache c) (take (length (calls c) - 1) (calls c)) st
                      (seqs c) (longest c)))
      end
  end.

(** The result: the verdict, and the longest prefixes with the sequences they point to. *)
Abbreviation outcome := (bool * (list (list Z) * list (option nat)))%type.

Fixpoint loop (fuel : nat) (i : nat) (head : ptr) (computePartial : bool) (kill : nat → bool) (c : conf) : option outcome :=
  match fuel with
  | O => None
  | S fuel =>
      hd ← hp c !! head;
      match next hd with
      | None =>
          seq ← callIds (hp c) (calls c);
          Some (true, (seqs c ++ [seq], replicate (length (longest c)) (Some (length (seqs c)))))
      | Some _ =>
          r ← body head computePartial (kill i) c;
          match r with
          | inl c => loop fuel (S i) head computePartial kill c
          | inr b => Some (b, (seqs c, longest c))
          end
      end
  end.

Definition checkSingle (fuel : nat) (history : list (entry Inp Out)) (computePartial : bool) (kill : nat → bool) : option outcome :=
  '(entry, h) ← makeLinkedEntries history;
  l ← nodeLength (length h) entry h;
  let n := l / 2 in
  let headEntry := length h in
  h ← insertBefore headEntry entry (h ++ [mkNode None None (-1) None None]);
  loop fuel 0 headEntry computePartial kill
    (mkConf h entry (newBitset (uint n)) ∅ [] (Init model) [] (replicate (Z.to_nat n) None)).
End search.

(** ** Partitions in parallel *)
Section parallel.
Context {Inp Out St : Type} `{MapOrder}.
Abbreviation entries := (list (entry Inp Out)).
Abbreviation outcome := (bool * (list (list Z) * list (option nat)))%type.

Record linearizationInfo := mkInfo { history : list entries; partialLinearizations : list (list (list Z)) }.

(** What [select] receives next: the result of the goroutine of a partition, or the timer. *)
Inductive signal := Done (i : nat) | TimedOut.

(** The loop around [select]: [ok], whether it timed out, and the goroutines heard of.  [single i] is what the
    goroutine of partition [i] returns while the kill flag is not set; it is set only when the loop is left.
    [None] when the loop is still waiting at the end of the signals, or a signal cannot occur. *)
Fixpoint selectLoop (single : nat → option outcome) (len : nat) (computeInfo : bool) (timeout : Z)
    (ok : bool) (heard : list nat) (sigs : list signal) : option (bool * bool * list nat) :=
  match sigs with
  | [] => None
  | Done i :: sigs =>
      if bool_decide (i ∈ heard) then None else
      '(result, _) ← single i;
      let heard := heard ++ [i] in
      let ok := ok && result in
      if negb ok && negb computeInfo then Some (ok, false, heard)
      else if (len <=? length heard)%nat then Some (ok, false, heard)
      else selectLoop single len computeInfo timeout ok heard sigs
  | TimedOut :: _ => if 0 <? timeout then Some (ok, true, heard) else None
  end.

(** The distinct sequences [longest] points to, in the order the map lists them. *)
Definition uniquePartials (o : outcome) : option (list (list Z)) :=
  let '(_, (sq, lg)) := o in
  let ptrs : gmap nat unit := foldl (λ set v, match v with Some p => <[p := tt]> set | None => set end) ∅ lg in
  mapM (λ kv, sq !! kv.1) (map_order ptrs).

(** [kill i] is what the goroutine of partition [i] loads from the kill flag, when the loop did not wait for it. *)
Definition checkParallel (model : Full Inp Out St) (fuel : nat) (hist : list entries) (computeInfo : bool) (timeout : Z)
    (kill : nat → nat → bool) (sigs : list signal) : option (CheckResult * linearizationInfo) :=
  let single kill i := h ← hist !! i; checkSingle model fuel h computeInfo kill in
  '(ok, timedOut, heard) ←
    selectLoop (single (λ _, false)) (length hist) computeInfo timeout true [] sigs;
  info ← (if computeInfo : bool then
            partials ← mapM (λ i, o ← (if bool_decide (i ∈ heard) then single (λ _, false) i else single (kill i) i);
                              uniquePartials o) (seq 0 (length hist));
            Some (mkInfo hist partials)
          else Some (mkInfo [] []));
  Some (if negb ok then Illegal else if timedOut : bool then Unknown else Ok, info).
End parallel.
#[global] Arguments linearizationInfo : clear implicits.

Section check.
Context {Inp Out St : Type} `{MapOrder} `{SortByTime} `{EqDecision St} `{Sprint Inp} `{Sprint Out} `{Sprint St}.
Context (model : Model Inp Out St) (fuel : nat).

Definition checkEvents (history : list (Event Inp Out)) (verbose : bool) (timeout : Z)
    (kill : nat → nat → bool) (sigs : list signal) : option (CheckResult * linearizationInfo Inp Out) :=
  let model := fillDefault model in
  let partitions := PartitionEvent model history in
  checkParallel model fuel ((λ sub, convertEntries (renumber sub)) <$> partitions) verbose timeout kill sigs.

Definition checkOperations (history : list (Operation Inp Out)) (verbose : bool) (timeout : Z)
    (kill : nat → nat → bool) (sigs : list signal) : option (CheckResult * linearizationInfo Inp Out) :=
  let model := fillDefault model in
  let partitions := Partition model history in
  checkParallel model fuel (makeEntries <$> partitions) verbose timeout kill sigs.

(** The API ([porcupine.go]). *)
Definition CheckOperations (history : list (Operation Inp Out)) kill sigs : option bool :=
  '(res, _) ← checkOperations history false 0 kill sigs; Some (bool_decide (res = Ok)).
Definition CheckOperationsTimeout (history : list (Operation Inp Out)) (timeout : Z) kill sigs : option CheckResult :=
  '(res, _) ← checkOperations history false timeout kill sigs; Some res.
Definition CheckOperationsVerbose (history : list (Operation Inp Out)) (timeout : Z) kill sigs
    : option (CheckResult * linearizationInfo Inp Out) :=
  checkOperations history true timeout kill sigs.
Definition CheckEvents (history : list (Event Inp Out)) kill sigs : option bool :=
  '(res, _) ← checkEvents history false 0 kill sigs; Some (bool_decide (res = Ok)).
Definition CheckEventsTimeout (history : list (Event Inp Out)) (timeout : Z) kill sigs : option CheckResult :=
  '(res, _) ← checkEvents history false timeout kill sigs; Some res.
Definition CheckEventsVerbose (history : list (Event Inp Out)) (timeout : Z) kill sigs
    : option (CheckResult * linearizationInfo Inp Out) :=
  checkEvents history true timeout kill sigs.
End check.

(** ** Visualization ([visualization.go]) *)
Section visualization.
Context {Inp Out St : Type}.

Record historyElement := mkElement { ClientId : Z; Start : Z; End_ : Z; Description : string }.
Record linearizationStep := mkStep { Index : Z; StateDescription : string }.
Record partitionVisualizationData := mkVisual {
  History : list historyElement; PartialLinearizations : list (list linearizationStep); Largest : gmap Z Z;
}.

(** [sort.Slice] by decreasing length. *)
Context (sort_partials : list (list Z) → list (list Z)).
Context (model : Full Inp Out St).

Definition noElement : historyElement := mkElement 0 0 0 "".

(** The loop over the entries: the elements, and the values of the calls and of the returns.  An index outside
    [history] and a nil value given to [DescribeOperation] are panics. *)
Definition visualEntry (s : list historyElement * gmap Z Inp * gmap Z Out) (elem : entry Inp Out)
    : option (list historyElement * gmap Z Inp * gmap Z Out) :=
  let '(history, callValue, returnValue) := s in
  x ← index history (id elem);
  match kind elem, value elem with
  | callEntry, inl i =>
      history ← set_index history (id elem) (mkElement (clientId elem) (time elem) (End_ x) (Description x));
      Some (history, <[id elem := i]> callValue, returnValue)
  | returnEntry, inr o =>
      i ← callValue !! id elem;
      history ← set_index history (id elem) (mkElement (ClientId x) (Start x) (time elem) (DescribeOperation model i o));
      Some (history, callValue, <[id elem := o]> returnValue)
  | _, _ => None
  end.

(** The loop over one partial linearization; [None] where the code panics because the model rejects it. *)
Fixpoint visualPartial (callValue : gmap Z Inp) (returnValue : gmap Z Out) (i : Z) (len : Z) (st : St)
    (partial : list Z) (largestIndex largestSize : gmap Z Z)
    : option (list linearizationStep * gmap Z Z * gmap Z Z) :=
  match partial with
  | [] => Some ([], largestIndex, largestSize)
  | histId :: partial =>
      inp ← callValue !! histId; out ← returnValue !! histId;
      let '(ok, st) := Step model st inp out in
      if negb ok then None else
      let bigger := default 0 (largestSize !! histId) <? len in
      let largestSize := if bigger then <[histId := len]> largestSize else largestSize in
      let largestIndex := if bigger then <[histId := i]> largestIndex else largestIndex in
      '(steps, largestIndex, largestSize) ←
        visualPartial callValue returnValue i len st partial largestIndex largestSize;
      Some (mkStep histId (DescribeState model st) :: steps, largestIndex, largestSize)
  end.

Fixpoint visualPartials (callValue : gmap Z Inp) (returnValue : gmap Z Out) (i : Z) (partials : list (list Z))
    (largestIndex largestSize : gmap Z Z) : option (list (list linearizationStep) * gmap Z Z) :=
  match partials with
  | [] => Some ([], largestIndex)
  | partial :: partials =>
      '(steps, largestIndex, largestSize) ←
        visualPartial callValue returnValue i (zlen partial) (Init model) partial largestIndex largestSize;
      '(rest, largestIndex) ← visualPartials callValue returnValue (i + 1) partials largestIndex largestSize;
      Some (steps :: rest, largestIndex)
  end.

Definition visualPartition (hist : list (entry Inp Out)) (partials : list (list Z)) : option partitionVisualizationData :=
  let n := zlen hist / 2 in
  '(history, callValue, returnValue) ←
    foldl (λ acc elem, s ← acc; visualEntry s elem) (Some (replicate (Z.to_nat n) noElement, ∅, ∅)) hist;
  '(linearizations, largestIndex) ← visualPartials callValue returnValue 0 (sort_partials partials) ∅ ∅;
  Some (mkVisual history linearizations largestIndex).
End visualization.

Section data.
Context {Inp Out St : Type} `{EqDecision St} `{Sprint Inp} `{Sprint Out} `{Sprint St}.

Definition computeVisualizationData (sort_partials : list (list Z) → list (list Z)) (model : Model Inp Out St)
    (info : linearizationInfo Inp Out) : option (list partitionVisualizationData) :=
  let model := fillDefault model in
  mapM (λ partition, hist ← history info !! partition; partials ← partialLinearizations info !! partition;
         visualPartition sort_partials model hist partials) (seq 0 (length (history info))).
End data.
End Checker.
