(* ===== verification/PorcupineList.v ===== *)
(** * The checker's linked list

    [seg h p l q] says that the nodes at [l] are linked in this order in heap [h], after [p] and
    before [q].  [lift] takes a call and its return out of the list and [unlift] restores the heap
    exactly. *)
From S2P Require Import Prelude Bitset Porcupine.
Import Checker.

Section dll.
Context {Inp Out : Type}.
Abbreviation node := (node Inp Out).
Abbreviation heap := (list node).
Implicit Types (h : heap) (l : list ptr) (p q : option ptr).

Definition first_or l q : option ptr := match l with a :: _ => Some a | [] => q end.
Fixpoint last_or p l : option ptr := match l with a :: l => last_or (Some a) l | [] => p end.

Fixpoint seg h p l q : Prop :=
  match l with
  | [] => True
  | a :: l => ∃ n, h !! a = Some n ∧ prev n = p ∧ next n = first_or l q ∧ seg h (Some a) l q
  end.

(** What never changes in a node. *)
Definition sinfo (n : node) : option (Inp + Out) * option ptr * Z := (nvalue n, nmatch n, nid n).

Lemma first_or_app l1 l2 q : first_or (l1 ++ l2) q = first_or l1 (first_or l2 q).
Proof. by destruct l1. Qed.
Lemma last_or_app p l1 l2 : last_or p (l1 ++ l2) = last_or (last_or p l1) l2.
Proof. revert p. induction l1 as [|a l1 IH]; intros p; simpl; auto. Qed.

Lemma seg_app h p l1 l2 q :
  seg h p (l1 ++ l2) q ↔ seg h p l1 (first_or l2 q) ∧ seg h (last_or p l1) l2 q.
Proof.
  revert p. induction l1 as [|a l1 IH]; intros p; simpl; [tauto|]. setoid_rewrite IH.
  rewrite first_or_app. naive_solver.
Qed.

Lemma seg_ext h h' p l q : (∀ a, a ∈ l → h !! a = h' !! a) → seg h p l q → seg h' p l q.
Proof.
  revert p. induction l as [|a l IH]; intros p Hext; simpl; [done|]. intros (n & Hn & Hp & Hx & Hs).
  exists n. rewrite <-Hext by set_solver. split_and!; [done..|]. apply IH; [set_solver|done].
Qed.

Lemma seg_lookup h p l q a : seg h p l q → a ∈ l → is_Some (h !! a).
Proof.
  revert p. induction l as [|b l IH]; intros p; simpl; [by intros _ ?%elem_of_nil|].
  intros (n & Hn & _ & _ & Hs) [-> |Hin]%elem_of_cons; [by eexists|by eapply IH].
Qed.

Lemma upd_Some (a : ptr) f h n : h !! a = Some n → upd a f h = Some (<[a := f n]> h).
Proof. intros Hn. unfold upd. by rewrite Hn. Qed.

Lemma upd_static (a : ptr) (f : node → node) h n :
  (∀ n, sinfo (f n) = sinfo n) → h !! a = Some n → sinfo <$> <[a := f n]> h = sinfo <$> h.
Proof.
  intros Hf Hn. rewrite list_fmap_insert, Hf. apply list_insert_id. by rewrite list_lookup_fmap, Hn.
Qed.

(** ** Taking one node out *)
Definition unlink (x : ptr) h : option heap :=
  n ← h !! x; p ← prev n; h ← upd p (set_next (next n)) h;
  match next n with Some y => upd y (set_prev (prev n)) h | None => Some h end.
Definition relink (x : ptr) h : option heap :=
  n ← h !! x; p ← prev n; h ← upd p (set_next (Some x)) h;
  match next n with Some y => upd y (set_prev (Some x)) h | None => Some h end.

(** Writing to nodes outside of a segment. *)
Lemma seg_insert h p l q (a : ptr) n : a ∉ l → seg h p l q → seg (<[a := n]> h) p l q.
Proof.
  intros Ha. apply seg_ext. intros b Hb. rewrite list_lookup_insert_ne; [done|]. by intros ->.
Qed.

(** Writing a node back. *)
Lemma insert_back h (a : ptr) m n : h !! a = Some n → <[a := n]> (<[a := m]> h) = h.
Proof. intros Hn. rewrite list_insert_insert_eq. by apply list_insert_id. Qed.

(** The last node. *)
Lemma unlink_last h l1 (a x : ptr) na nx :
  a ∉ l1 → a ≠ x → h !! a = Some na → h !! x = Some nx → prev na = last_or None l1 → next na = Some x →
  prev nx = Some a → next nx = None → seg h None l1 (Some a) →
  ∃ h', unlink x h = Some h' ∧ seg h' None (l1 ++ [a]) None ∧ relink x h' = Some h ∧
    h' !! x = h !! x ∧ sinfo <$> h' = sinfo <$> h.
Proof.
  intros Hal Hax Hna Hnx Hpa Hxa Hpx Hxx Hs1. pose proof (lookup_lt_Some _ _ _ Hna) as Hlt.
  assert ((<[a := set_next None na]> h : heap) !! x = Some nx) as Hx1 by by rewrite list_lookup_insert_ne.
  exists (<[a := set_next None na]> h). unfold unlink. rewrite Hnx. simpl. rewrite Hpx. simpl.
  rewrite (upd_Some a _ h na Hna), Hxx. simpl. split_and!; [done| | |done|by eapply upd_static].
  - apply seg_app. split; [by apply seg_insert|]. eexists. rewrite list_lookup_insert_eq by done. naive_solver.
  - unfold relink. rewrite Hx1. simpl. rewrite Hpx, Hxx. simpl.
    erewrite upd_Some by (by rewrite list_lookup_insert_eq). simpl. f_equal. rewrite <-(insert_back h a (set_next None na) na) at 2 by done.
    f_equal. destruct na; simpl in *. by subst.
Qed.

(** A node with a successor. *)
Lemma unlink_mid h l1 (a x y : ptr) l3 na nx ny :
  NoDup (l1 ++ a :: x :: y :: l3) → h !! a = Some na → h !! x = Some nx → h !! y = Some ny →
  prev na = last_or None l1 → next na = Some x → prev nx = Some a → next nx = Some y → prev ny = Some x →
  next ny = first_or l3 None → seg h None l1 (Some a) → seg h (Some y) l3 None →
  ∃ h', unlink x h = Some h' ∧ seg h' None (l1 ++ a :: y :: l3) None ∧ relink x h' = Some h ∧
    h' !! x = h !! x ∧ sinfo <$> h' = sinfo <$> h.
Proof.
  intros Hnd Hna Hnx Hny Hpa Hxa Hpx Hxx Hpy Hxy Hs1 Hs3.
  apply NoDup_app in Hnd as (_ & Hdis & (Ha & (Hx & (Hy & _)%NoDup_cons)%NoDup_cons)%NoDup_cons).
  assert (a ∉ l1) as Hal by (intros Hin; apply (Hdis _ Hin); left).
  assert (y ∉ l1) as Hyl by (intros Hin; apply (Hdis _ Hin); set_solver).
  assert (a ≠ x ∧ a ≠ y ∧ x ≠ y) as (Hax & Hay & Hxy') by set_solver.
  pose proof (lookup_lt_Some _ _ _ Hna) as Hla. pose proof (lookup_lt_Some _ _ _ Hny) as Hly.
  set (h1 := <[a := set_next (Some y) na]> h).
  assert (h1 !! y = Some ny) as Hy1 by (unfold h1; by rewrite list_lookup_insert_ne).
  set (h2 := <[y := set_prev (Some a) ny]> h1).
  assert (h2 !! x = Some nx) as Hx2 by (unfold h2, h1; by rewrite !list_lookup_insert_ne).
  assert (h2 !! a = Some (set_next (Some y) na)) as Ha2 by (unfold h2, h1; by rewrite list_lookup_insert_ne, list_lookup_insert_eq).
  exists h2. unfold unlink. rewrite Hnx. simpl. rewrite Hpx. simpl. rewrite (upd_Some a _ h na Hna), Hxx. simpl.
  rewrite (upd_Some y _ h1 ny Hy1). split_and!; [done| | |done|].
  - apply seg_app. split; [do 2 (apply seg_insert; [done|]); done|]. simpl. eexists. split_and!; [exact Ha2|done|done|]. eexists.
    split; [apply list_lookup_insert_eq; unfold h1; by rewrite length_insert|]. simpl. split_and!; [done|done|].
    do 2 (apply seg_insert; [set_solver|]). done.
  - unfold relink. rewrite Hx2. simpl. rewrite Hpx, Hxx. simpl. rewrite (upd_Some a _ h2 _ Ha2). simpl.
    erewrite upd_Some by (rewrite list_lookup_insert_ne by done; unfold h2; apply list_lookup_insert_eq; unfold h1; by rewrite length_insert).
    f_equal. apply list_eq. intros b. destruct (decide (b = y)) as [-> |Hby].
    { rewrite list_lookup_insert_eq, Hny by (unfold h2, h1; by rewrite !length_insert). destruct ny; simpl in *. by subst. }
    rewrite list_lookup_insert_ne by done. destruct (decide (b = a)) as [-> |Hba].
    { rewrite list_lookup_insert_eq, Hna by (unfold h2, h1; by rewrite !length_insert). destruct na; simpl in *. by subst. }
    unfold h2, h1. by rewrite !list_lookup_insert_ne.
  - unfold h2, h1. erewrite upd_static; [by eapply upd_static|done|done].
Qed.

Lemma unlink_spec h l1 a x l2 :
  NoDup (l1 ++ a :: x :: l2) → seg h None (l1 ++ a :: x :: l2) None →
  ∃ h', unlink x h = Some h' ∧ seg h' None (l1 ++ a :: l2) None ∧ relink x h' = Some h ∧
    h' !! x = h !! x ∧ sinfo <$> h' = sinfo <$> h.
Proof.
  intros Hnd [Hs1 (na & Hna & Hpa & Hxa & nx & Hnx & Hpx & Hxx & Hs2)]%seg_app. simpl in *. destruct l2 as [|y l3].
  - apply NoDup_app in Hnd as (_ & Hdis & (Ha & _)%NoDup_cons).
    apply (unlink_last h l1 a x na nx); try done; [|set_solver]. intros Hin. apply (Hdis _ Hin). left.
  - destruct Hs2 as (ny & Hny & Hpy & Hxy & Hs3). by apply (unlink_mid h l1 a x y l3 na nx ny).
Qed.

(** ** [lift] and [unlift] *)
Lemma upd_ne (a b : ptr) f h h' : upd a f h = Some h' → a ≠ b → h' !! b = h !! b.
Proof. unfold upd. intros (n & Hn & [= <-])%bind_Some Hne. by rewrite list_lookup_insert_ne. Qed.

Lemma lift_unlink h (e : ptr) n (p y m : ptr) h1 nm (pm : ptr) :
  h !! e = Some n → prev n = Some p → p ≠ e → next n = Some y → y ≠ e → nmatch n = Some m →
  unlink e h = Some h1 → h1 !! m = Some nm → prev nm = Some pm → pm ≠ m → lift e h = unlink m h1.
Proof.
  intros Hn Hp Hpe Hy Hye Hm Hu Hnm Hpm Hpmm. unfold unlink in Hu. rewrite Hn in Hu. simpl in Hu. rewrite Hp in Hu. simpl in Hu.
  apply bind_Some in Hu as (h2 & Hu & Hu2). rewrite Hy in Hu2.
  assert (h2 !! e = Some n) as He2 by (rewrite <-Hn; by eapply upd_ne).
  assert (h1 !! e = Some n) as He1 by (rewrite <-He2; by eapply upd_ne).
  unfold lift. rewrite Hn. simpl. rewrite Hp. simpl. rewrite Hu. simpl. rewrite He2. simpl. rewrite Hy. simpl. rewrite Hp, Hu2.
  simpl. rewrite He1. simpl. rewrite Hm. simpl. unfold unlink. rewrite Hnm. simpl. rewrite Hpm. simpl.
  destruct (upd pm _ h1) as [h3|] eqn:Hu3; simpl; [|done].
  by rewrite (upd_ne _ _ _ _ _ Hu3 Hpmm), Hnm; simpl; rewrite Hpm.
Qed.

Lemma unlift_relink h (e : ptr) n (m : ptr) nm (pm : ptr) h1 n' (p y : ptr) :
  h !! e = Some n → nmatch n = Some m → h !! m = Some nm → prev nm = Some pm → pm ≠ m → relink m h = Some h1 →
  h1 !! e = Some n' → prev n' = Some p → p ≠ e → next n' = Some y → unlift e h = relink e h1.
Proof.
  intros Hn Hm Hnm Hpm Hpmm Hr Hn' Hp Hpe Hy. unfold relink in Hr. rewrite Hnm in Hr. simpl in Hr. rewrite Hpm in Hr. simpl in Hr.
  apply bind_Some in Hr as (h2 & Hu & Hr). unfold unlift. rewrite Hn. simpl. rewrite Hm. simpl. rewrite Hnm. simpl.
  rewrite Hpm. simpl. rewrite Hu. simpl. rewrite (upd_ne _ _ _ _ _ Hu Hpmm), Hnm. simpl.
  assert (match next nm with Some x => upd x (set_prev (Some m)) h2 | None => Some h2 end = Some h1) as ->
    by (by destruct (next nm)).
  simpl. unfold relink. rewrite Hn'. simpl. rewrite Hp. simpl. destruct (upd p _ h1) as [h3|] eqn:Hu3; simpl; [|done].
  rewrite (upd_ne _ _ _ _ _ Hu3 Hpe), Hn'. simpl. by rewrite Hy.
Qed.

Lemma seg_node h l1 a x l2 :
  seg h None (l1 ++ a :: x :: l2) None →
  ∃ n, h !! x = Some n ∧ prev n = Some a ∧ next n = first_or l2 None.
Proof. intros [_ (na & _ & _ & _ & n & Hn & Hp & Hx & _)]%seg_app. eauto. Qed.

Lemma static_match h h' (a : ptr) n n' :
  sinfo <$> h = sinfo <$> h' → h !! a = Some n → h' !! a = Some n' → sinfo n = sinfo n'.
Proof.
  intros Hs Hn Hn'. apply (f_equal (.!! a)) in Hs. rewrite !list_lookup_fmap, Hn, Hn' in Hs. by apply (inj Some) in Hs.
Qed.

(** In a list with call [e] and, later, its return [m], [lift] removes both and [unlift] undoes it. *)
Lemma lift_spec h hd l1 e l2 m l3 n :
  NoDup (hd :: l1 ++ e :: l2 ++ m :: l3) → seg h None (hd :: l1 ++ e :: l2 ++ m :: l3) None →
  h !! e = Some n → nmatch n = Some m →
  ∃ h', lift e h = Some h' ∧ seg h' None (hd :: l1 ++ l2 ++ l3) None ∧ unlift e h' = Some h ∧
    sinfo <$> h' = sinfo <$> h.
Proof.
  intros Hnd Hs Hn Hm.
  (* the nodes before [e] and before [m] once [e] is out *)
  destruct (exists_last (l := hd :: l1)) as (pre & a & Hpre); [done|].
  assert (hd :: l1 ++ e :: l2 ++ m :: l3 = pre ++ a :: e :: (l2 ++ m :: l3)) as Heq.
  { change (hd :: l1 ++ e :: l2 ++ m :: l3) with ((hd :: l1) ++ e :: l2 ++ m :: l3). by rewrite Hpre, <-app_assoc. }
  rewrite Heq in Hnd, Hs. destruct (seg_node h _ _ _ _ Hs) as (n0 & Hn0 & Hpn & Hxn).
  rewrite Hn in Hn0. injection Hn0 as <-.
  destruct (unlink_spec h pre a e (l2 ++ m :: l3) Hnd Hs) as (h1 & Hu1 & Hs1 & Hr1 & He1 & Hst1).
  destruct (exists_last (l := a :: l2)) as (pre2 & b & Hpre2); [done|].
  assert (pre ++ a :: l2 ++ m :: l3 = (pre ++ pre2) ++ b :: m :: l3) as Heq2.
  { change (a :: l2 ++ m :: l3) with ((a :: l2) ++ m :: l3). by rewrite Hpre2, <-!app_assoc. }
  assert (NoDup (pre ++ a :: l2 ++ m :: l3)) as Hnd1.
  { eapply sublist_NoDup; [exact Hnd|]. apply sublist_app; [done|]. by do 2 constructor. }
  assert (e ≠ a) as Hea by (apply NoDup_app in Hnd as (_ & _ & [? _]%NoDup_cons); set_solver).
  assert (b ≠ m) as Hbm by (rewrite Heq2 in Hnd1; apply NoDup_app in Hnd1 as (_ & _ & [? _]%NoDup_cons); set_solver).
  assert (∃ y, next n = Some y ∧ y ≠ e) as (y & Hy & Hye).
  { rewrite Hxn. apply NoDup_app in Hnd as (_ & _ & [_ [Hne _]%NoDup_cons]%NoDup_cons).
    destruct l2 as [|y l2]; simpl; eexists; (split; [done|set_solver]). }
  rewrite Heq2 in Hs1, Hnd1. destruct (seg_node h1 _ _ _ _ Hs1) as (nm & Hnm & Hpm & Hxm).
  destruct (unlink_spec h1 (pre ++ pre2) b m l3 Hnd1 Hs1) as (h2 & Hu2 & Hs2 & Hr2 & Hm2 & Hst2).
  assert (∃ n2, h2 !! e = Some n2) as [n2 Hn2].
  { apply lookup_lt_is_Some_2. apply lookup_lt_Some in Hn.
    apply (f_equal length) in Hst1, Hst2. rewrite !length_fmap in Hst1, Hst2. lia. }
  assert (sinfo n2 = sinfo n) as Hsn by (eapply (static_match h2 h); [congruence|done|done]).
  exists h2. split_and!; [|  | |congruence].
  - rewrite (lift_unlink h e n a y m h1 nm b); done.
  - assert (hd :: l1 ++ l2 ++ l3 = (pre ++ pre2) ++ b :: l3) as ->; [|done].
    change (hd :: l1 ++ l2 ++ l3) with ((hd :: l1) ++ l2 ++ l3). rewrite Hpre, <-!app_assoc. f_equal.
    change ([a] ++ l2 ++ l3) with ((a :: l2) ++ l3). by rewrite Hpre2, <-app_assoc.
  - rewrite (unlift_relink h2 e n2 m nm b h1 n a y); try done.
    + injection Hsn as _ Hx _. congruence.
    + congruence.
    + congruence.
Qed.

(** ** Building the list *)
Lemma insertBefore_spec h a (x : node) :
  length h = a → next x = None → prev x = None → ∀ l,
  NoDup l → seg h None l None →
  ∃ h', insertBefore a (first_or l None) (h ++ [x]) = Some h' ∧ seg h' None (a :: l) None ∧
    sinfo <$> h' = sinfo <$> (h ++ [x]).
Proof.
  intros Ha Hx Hp l Hnd Hs.
  assert (∀ b, b ∈ l → (h ++ [x]) !! b = h !! b) as Hold.
  { intros b Hb. destruct (seg_lookup h None l None b Hs Hb) as [n Hn]. apply lookup_app_l. by eapply lookup_lt_Some. }
  assert ((h ++ [x]) !! a = Some x) as Hnew by (rewrite lookup_app_r by lia; by rewrite Ha, Nat.sub_diag).
  destruct l as [|b l]; simpl.
  { exists (h ++ [x]). split_and!; [done| |done]. exists x. naive_solver. }
  destruct Hs as (n & Hn & Hpn & Hxn & Hs). apply NoDup_cons in Hnd as [Hb Hnd].
  assert (a ≠ b) as Hab by (apply lookup_lt_Some in Hn; lia).
  rewrite Hold, Hn by set_solver. simpl. erewrite upd_Some by (by rewrite Hold, Hn by set_solver). simpl.
  erewrite upd_Some by (by rewrite list_lookup_insert_ne). simpl. rewrite Hpn. eexists. split; [done|]. split.
  - exists (set_next (Some b) x). split_and!; [|done|done|].
    { apply list_lookup_insert_eq. rewrite length_insert. by eapply lookup_lt_Some. }
    exists (set_prev (Some a) n). split_and!; [|done|done|].
    { rewrite list_lookup_insert_ne by done. apply list_lookup_insert_eq. rewrite length_app. apply lookup_lt_Some in Hn. lia. }
    eapply seg_ext; [|exact Hs]. intros c Hc. rewrite !list_lookup_insert_ne; [by rewrite Hold by set_solver|set_solver|].
    intros ->. destruct (seg_lookup h _ _ _ _ Hs Hc) as [? ?%lookup_lt_Some]. lia.
  - erewrite upd_static; [eapply upd_static; [done|]|done|by rewrite list_lookup_insert_ne]. by rewrite Hold, Hn by set_solver.
Qed.

Lemma nodeLength_spec h p l fuel :
  seg h p l None → (length l ≤ fuel)%nat → nodeLength fuel (first_or l None) h = Some (zlen l).
Proof.
  revert p fuel. induction l as [|a l IH]; intros p fuel Hs Hf; [by destruct fuel|].
  destruct fuel as [|fuel]; simpl in *; [lia|]. destruct Hs as (n & Hn & _ & Hx & Hs). rewrite Hn. simpl.
  rewrite Hx, (IH (Some a)) by (done || lia). simpl. f_equal. lia.
Qed.
End dll.
