(* ===== verification/PorcupineSearch.v ===== *)
(** * The search decides linearizability

    An [item] is the call or the return of an operation, and the remaining history is a list of
    items.  [Lin evs st σ] says that the operations [σ] can be taken one after the other, each among
    the calls before the first return ([lead]), each accepted by the model.  From a frame of the
    search the loop either returns true and there is such a sequence, or it comes back to the first
    return and there is none; what the cache excludes has been searched without success. *)
From S2P Require Import Prelude Bitset Porcupine PorcupineList.
Import Checker Bitset.

#[local] Arguments body : simpl never.

Inductive item := C (k : Z) | R (k : Z).
#[export] Instance item_eq_dec : EqDecision item.
Proof. solve_decision. Defined.
Definition op_of (it : item) : Z := match it with C k | R k => k end.

(** The operations that may be linearized first. *)
Fixpoint lead (evs : list item) : list Z :=
  match evs with C k :: evs => k :: lead evs | _ => [] end.
Definition remove (k : Z) (evs : list item) : list item := filter (λ it, op_of it ≠ k) evs.

Section semantics.
Context {Inp Out St : Type} (model : Full Inp Out St) (opio : Z → option (Inp * Out)).

Inductive Lin : list item → St → list Z → Prop :=
| Lin_nil st : Lin [] st []
| Lin_cons evs st k i o st' σ :
    k ∈ lead evs → opio k = Some (i, o) → Step model st i o = (true, st') → Lin (remove k evs) st' σ →
    Lin evs st (k :: σ).

(** The state after running operations in order, if the model accepts them. *)
Fixpoint replay (st : St) (σ : list Z) : option St :=
  match σ with
  | [] => Some st
  | k :: σ =>
      '(i, o) ← opio k;
      let '(ok, st') := Step model st i o in if ok : bool then replay st' σ else None
  end.

Lemma replay_snoc st σ k :
  replay st (σ ++ [k]) =
  (st1 ← replay st σ; '(i, o) ← opio k; let '(ok, st') := Step model st1 i o in if ok : bool then Some st' else None).
Proof.
  revert st. induction σ as [|j σ IH]; intros st; simpl.
  - destruct (opio k) as [[i o]|]; [|done]. simpl. by destruct (Step model st i o) as [[] ?].
  - destruct (opio j) as [[i o]|]; [|done]. simpl. destruct (Step model st i o) as [[] ?]; [apply IH|done].
Qed.

Lemma Lin_cons_inv evs st k i o ok st' σ :
  opio k = Some (i, o) → Step model st i o = (ok, st') → Lin evs st (k :: σ) → ok = true ∧ Lin (remove k evs) st' σ.
Proof.
  intros Hio Hstep Hlin. inversion Hlin as [|? ? ? i' o' st1 ? _ Hio' Hstep' Hrest]; subst.
  rewrite Hio in Hio'. injection Hio' as <- <-. rewrite Hstep in Hstep'. by injection Hstep' as -> ->.
Qed.
End semantics.

(** A history in which every call has its return, later. *)
Record wfe (evs : list item) : Prop := {
  wfe_nodup : NoDup evs;
  wfe_return k : C k ∈ evs → R k ∈ evs;
  wfe_order l1 k l2 : evs = l1 ++ R k :: l2 → C k ∈ l1;
}.

Lemma filter_split {A} (P : A → Prop) `{∀ x, Decision (P x)} (l l1 l2 : list A) (x : A) :
  filter P l = l1 ++ x :: l2 → ∃ k1 k2, l = k1 ++ x :: k2 ∧ filter P k1 = l1 ∧ filter P k2 = l2.
Proof.
  revert l1. induction l as [|y l IH]; intros l1; [by destruct l1|]. rewrite filter_cons. case_decide as Hy.
  - destruct l1 as [|z l1]; simpl.
    + intros [= <- <-]. by exists [], l.
    + intros [= <- Hl]. destruct (IH l1 Hl) as (k1 & k2 & -> & <- & <-). exists (y :: k1), k2.
      split_and!; [done| |done]. by rewrite filter_cons, decide_True.
  - intros Hl. destruct (IH l1 Hl) as (k1 & k2 & -> & <- & <-). exists (y :: k1), k2.
    split_and!; [done| |done]. by rewrite filter_cons, decide_False.
Qed.

Lemma wfe_filter (P : Z → Prop) `{∀ x, Decision (P x)} evs : wfe evs → wfe (filter (λ it, P (op_of it)) evs).
Proof.
  intros [Hn Hr Ho]. split.
  - by apply NoDup_filter.
  - intros k [HP Hk]%list_elem_of_filter. apply list_elem_of_filter. auto.
  - intros l1 k l2 Hf. assert (R k ∈ filter (λ it, P (op_of it)) evs) as [HP _]%list_elem_of_filter by (rewrite Hf; set_solver).
    apply filter_split in Hf as (k1 & k2 & Heq & <- & _). apply list_elem_of_filter. split; [done|by eapply Ho].
Qed.

(** Calls alone are not a history. *)
Lemma calls_only evs : wfe evs → Forall (λ it, it = C (op_of it)) evs → evs = [].
Proof.
  intros Hw Hc. destruct evs as [|it evs]; [done|]. exfalso. pose proof Hc as [Hit _]%Forall_cons.
  assert (R (op_of it) ∈ it :: evs) as Hr by (apply (wfe_return _ Hw); rewrite <-Hit; left).
  rewrite Forall_forall in Hc. specialize (Hc _ Hr). simpl in Hc. discriminate Hc.
Qed.

(** Where a call and its return are. *)
Lemma split_op evs pre k rest :
  wfe evs → evs = pre ++ C k :: rest →
  ∃ r1 r2, rest = r1 ++ R k :: r2 ∧ remove k evs = pre ++ r1 ++ r2.
Proof.
  intros Hw Heq. pose proof (wfe_nodup _ Hw) as Hnd.
  assert (R k ∈ rest) as (r1 & r2 & ->)%list_elem_of_split.
  { assert (R k ∈ evs) as Hr by (apply (wfe_return _ Hw); rewrite Heq; set_solver).
    rewrite Heq in Hr. apply elem_of_app in Hr as [Hr|Hr]; [|set_solver]. exfalso.
    apply list_elem_of_split in Hr as (p1 & p2 & ->).
    assert (C k ∈ p1) as Hc by (eapply (wfe_order _ Hw); rewrite Heq; by rewrite <-app_assoc).
    rewrite Heq in Hnd. apply NoDup_app in Hnd as (_ & Hd & _). apply (Hd (C k)); [|left]. set_solver. }
  exists r1, r2. split; [done|]. rewrite Heq in *. unfold remove.
  assert (∀ l : list item, C k ∉ l → R k ∉ l → filter (λ it, op_of it ≠ k) l = l) as Hid.
  { intros l Hc Hr. apply filter_keep. intros [j|j] Hj; simpl; intros ->; set_solver. }
  apply NoDup_app in Hnd as (_ & Hd & Hnd). apply NoDup_cons in Hnd as [Hck Hnd].
  apply NoDup_app in Hnd as (_ & Hd' & [Hr2 _]%NoDup_cons).
  rewrite filter_app, filter_cons, decide_False, filter_app, filter_cons, decide_False by (simpl; tauto).
  assert ((C k ∉ pre) ∧ (R k ∉ pre)) as [? ?] by (split; intros Hin; apply (Hd _ Hin); set_solver).
  assert (R k ∉ r1) by (intros Hin; apply (Hd' _ Hin); left). assert ((C k ∉ r1) ∧ (C k ∉ r2)) as [? ?] by set_solver.
  by rewrite !Hid.
Qed.

Section search.
Context {Inp Out St : Type} (model : Full Inp Out St) (opio : Z → option (Inp * Out)).
Context (Hequal : ∀ s s', Equal model s s' = true → s = s').
Context (n : Z) (evs0 : list item) (hd : ptr) (addr : item → ptr) (S0 : list (option (Inp + Out) * option ptr * Z)).
Context (computePartial : bool).

(** The history in the heap: [n] operations, the node of each item and what is in it. *)
Record history_ok : Prop := {
  ho_wfe : wfe evs0;
  ho_n : n < 2 ^ 64;
  ho_id it : it ∈ evs0 → 0 ≤ op_of it < n;
  ho_addr it it' : it ∈ evs0 → it' ∈ evs0 → addr it = addr it' → it = it';
  ho_head it : it ∈ evs0 → addr it ≠ hd;
  ho_info k : C k ∈ evs0 → ∃ i o, opio k = Some (i, o) ∧
    S0 !! addr (C k) = Some (Some (inl i), Some (addr (R k)), k) ∧
    S0 !! addr (R k) = Some (Some (inr o), None, k);
}.
Context (Hok : history_ok).

Abbreviation conf := (@conf Inp Out St).
Abbreviation cacheEntry := (@cacheEntry St).
Abbreviation Lin := (Lin model opio).
Definition nokill (i : nat) : bool := false.
Abbreviation run := (λ fuel i c, loop model fuel i hd computePartial nokill c).

Definition minus (lin : bitset) : list item := filter (λ it, bit lin (op_of it) = false) evs0.
Definition dead (e : cacheEntry) : Prop := ∀ σ, ~ Lin (minus (ceLinearized e)) (ceState e) σ.
Definition within (b b' : bitset) : Prop := ∀ q, 0 ≤ q → bit b q = true → bit b' q = true.
Definition cached (e : cacheEntry) (m : gmap Z (list cacheEntry)) : Prop := ∃ h, e ∈ default [] (m !! h).

(** The sequences [longest] points to are accepted by the model. *)
Definition legal (ids : list Z) : Prop := is_Some (replay model opio (Init model) ids).
Definition cells_ok (sq : list (list Z)) (lg : list (option nat)) : Prop :=
  length lg = Z.to_nat n ∧ ∀ p, Some p ∈ lg → ∃ ids, sq !! p = Some ids ∧ legal ids.

Record inv (c : conf) : Prop := {
  iv_heap : seg (hp c) None (hd :: (addr <$> minus (linearized c))) None;
  iv_static : sinfo <$> hp c = S0;
  iv_lin : Bitset.wf n (linearized c);
  iv_calls x : x ∈ calls c → ∃ k, C k ∈ evs0 ∧ x.1 = addr (C k);
  iv_state : ∃ ids, callIds (hp c) (calls c) = Some ids ∧ replay model opio (Init model) ids = Some (state c);
  iv_longest : cells_ok (seqs c) (longest c);
}.
Definition cache_ok (c : conf) : Prop :=
  ∀ e, cached e (cache c) → dead e ∨ within (ceLinearized e) (linearized c).

(** The loop gets from one state to another, or returns. *)
Definition runs (c c' : conf) : Prop := ∃ k0, ∀ k i, ∃ i', run (k0 + k)%nat i c = run k i' c'.
Definition returns (c : conf) (r : bool * (list (list Z) * list (option nat))) : Prop :=
  ∃ k0, ∀ k i, run (k0 + k)%nat i c = Some r.

#[local] Instance runs_preorder : PreOrder runs.
Proof.
  split; [intros c; exists 0%nat; intros k i; by exists i|].
  intros c1 c2 c3 [k1 H1] [k2 H2]. exists (k1 + k2)%nat. intros k i.
  destruct (H1 (k2 + k)%nat i) as [i' E1]. destruct (H2 k i') as [i'' E2]. exists i''. by rewrite <-Nat.add_assoc, E1, E2.
Qed.
Lemma runs_returns c c' r : runs c c' → returns c' r → returns c r.
Proof.
  intros [k1 H1] [k2 H2]. exists (k1 + k2)%nat. intros k i. destruct (H1 (k2 + k)%nat i) as [i' E1].
  by rewrite <-Nat.add_assoc, E1.
Qed.

(** The search failed from [c] and is at a return. *)
Record failed (c c' : conf) : Prop := {
  fa_inv : inv c';
  fa_heap : hp c' = hp c;
  fa_lin : linearized c' = linearized c;
  fa_calls : calls c' = calls c;
  fa_state : state c' = state c;
  fa_cur : ∃ k, R k ∈ minus (linearized c) ∧ cur c' = Some (addr (R k));
  fa_cache e : cached e (cache c') → cached e (cache c) ∨ dead e;
}.

Lemma wfe_minus lin : wfe (minus lin).
Proof. exact (wfe_filter (λ k, bit lin k = false) evs0 (ho_wfe Hok)). Qed.

Lemma minus_sub lin it : it ∈ minus lin → it ∈ evs0 ∧ bit lin (op_of it) = false.
Proof. unfold minus. by intros [? ?]%list_elem_of_filter. Qed.

Lemma addr_NoDup lin : NoDup (hd :: (addr <$> minus lin)).
Proof.
  apply NoDup_cons. split.
  - intros (it & Hit & [Hin _]%minus_sub)%list_elem_of_fmap. by apply (ho_head Hok it).
  - apply NoDup_fmap_2_strong; [|apply wfe_minus]. intros x y [Hx _]%minus_sub [Hy _]%minus_sub. by apply (ho_addr Hok).
Qed.

Lemma node_of c it :
  inv c → it ∈ evs0 → ∃ x, hp c !! addr it = Some x ∧ S0 !! addr it = Some (sinfo x).
Proof.
  intros Hc Hit. assert (is_Some (S0 !! addr it)) as [s Hs].
  { destruct it as [k|k]; [by destruct (ho_info Hok k Hit) as (i & o & _ & -> & _)|].
    assert (C k ∈ evs0) as Hk.
    { apply list_elem_of_split in Hit as (l1 & l2 & Heq). rewrite Heq.
      pose proof (wfe_order _ (ho_wfe Hok) _ _ _ Heq). set_solver. }
    by destruct (ho_info Hok k Hk) as (i & o & _ & _ & ->). }
  rewrite <-(iv_static c Hc) in Hs |- *. rewrite list_lookup_fmap in Hs |- *.
  destruct (hp c !! addr it) as [x|]; [|done]. by exists x.
Qed.

(** The node of the head and what it points to. *)
Lemma head_node c : inv c → ∃ x, hp c !! hd = Some x ∧ next x = first_or (addr <$> minus (linearized c)) None.
Proof. intros Hc. destruct (iv_heap c Hc) as (x & Hx & _ & Hn & _). eauto. Qed.

(** The ids on the stack, which are those of operations. *)
Lemma callIds_range c ids : inv c → callIds (hp c) (calls c) = Some ids → Forall (λ id, 0 ≤ id < n) ids.
Proof.
  intros Hc. unfold callIds. pose proof (iv_calls c Hc) as Hx. revert ids. induction (calls c) as [|x l IH]; intros ids.
  { by intros [= <-]. }
  simpl. intros (id & Hid & (ids' & Hids' & [= <-])%bind_Some)%bind_Some.
  constructor; [|apply IH; [intros y Hy; apply Hx; by right|done]].
  destruct (Hx x) as (k & Hk & Hx1); [left|]. destruct (node_of c (C k) Hc Hk) as (y & Hy & Hs).
  destruct (ho_info Hok k Hk) as (i & o & _ & Hi & _). rewrite Hi in Hs. injection Hs as _ _ Hidk.
  rewrite Hx1, Hy in Hid. injection Hid as <-. rewrite <-Hidk. apply (ho_id Hok _ Hk).
Qed.

(** The ids are in the part of the nodes that does not change. *)
Lemma callIds_static (h h' : list (node Inp Out)) (cs : list (ptr * St)) : sinfo <$> h = sinfo <$> h' → callIds h cs = callIds h' cs.
Proof.
  intros Hs. unfold callIds. apply mapM_ext. intros x. apply (f_equal (.!! x.1)) in Hs. rewrite !list_lookup_fmap in Hs.
  destruct (h !! x.1) as [a|], (h' !! x.1) as [b|]; simpl in *; try done. by injection Hs as _ _ ->.
Qed.

Lemma longerPrefix_total sq a len lg x ids :
  0 ≤ x < n → sq !! a = Some ids → legal ids → cells_ok sq lg →
  ∃ lg', longerPrefix sq a len lg x = Some lg' ∧ cells_ok sq lg'.
Proof.
  intros Hx Ha Hleg [Hl Hp].
  assert (cells_ok sq (<[Z.to_nat x := Some a]> lg)) as Hset.
  { split; [by rewrite length_insert|]. intros p.
    intros [i [(_ & [= <-] & _)|[_ Hi]]%list_lookup_insert_Some]%list_elem_of_lookup; [by eexists|].
    apply Hp. by eapply list_elem_of_lookup_2. }
  unfold longerPrefix. destruct (index_total lg x) as [cell Hcell]; [lia|]. rewrite Hcell. simpl.
  rewrite set_index_Some by lia. destruct cell as [p|]; [|by eexists].
  apply index_Some in Hcell as [_ Hcell]. destruct (Hp p) as (old & -> & _); [by eapply list_elem_of_lookup_2|].
  simpl. case_match; by eexists.
Qed.

Lemma updateLongest_total c :
  inv c → ∃ sq lg, updateLongest c = Some (mkConf (hp c) (cur c) (linearized c) (cache c) (calls c) (state c) sq lg) ∧
    cells_ok sq lg.
Proof.
  intros Hc. destruct (iv_state c Hc) as (ids & Hids & Hleg). pose proof (callIds_range c ids Hc Hids) as Hr.
  unfold updateLongest. rewrite Hids. simpl.
  assert (∀ sq lg l, sq !! length (seqs c) = Some ids → Forall (λ id, 0 ≤ id < n) l → cells_ok sq lg →
    ∃ lg', foldl (λ acc id, l ← acc; longerPrefix sq (length (seqs c)) (zlen (calls c)) l id) (Some lg) l = Some lg' ∧
      cells_ok sq lg') as Hfold.
  { clear Hids Hr. intros sq lg l Hsq Hr. revert lg. induction Hr as [|x l Hx Hr IH]; intros lg Hlg; [by exists lg|]. simpl.
    destruct (longerPrefix_total sq (length (seqs c)) (zlen (calls c)) lg x ids Hx Hsq) as (lg1 & -> & Hlg1);
      [by eexists|done|]. by apply IH. }
  destruct (Hfold (seqs c ++ [ids]) (longest c) ids) as (lg & -> & Hlg); [|done| |by eexists _, lg].
  { by rewrite lookup_app_r, Nat.sub_diag by lia. }
  destruct (iv_longest c Hc) as [Hl Hp]. split; [done|]. intros p (s & Hs & Hls)%Hp. exists s.
  split; [|done]. rewrite lookup_app_l; [done|]. by eapply lookup_lt_Some.
Qed.

(** ** Steps of the loop *)
Lemma minus_set lin lin' k :
  (∀ q, 0 ≤ q → bit lin' q = (q =? k) || bit lin q) → minus lin' = remove k (minus lin).
Proof.
  intros Hb. unfold minus, remove. pose proof (ho_id Hok) as Hid. induction evs0 as [|it evs IH]; [done|].
  assert (minus_ : filter (λ it, bit lin' (op_of it) = false) evs =
    filter (λ it, op_of it ≠ k) (filter (λ it, bit lin (op_of it) = false) evs)) by (apply IH; set_solver).
  rewrite !filter_cons. specialize (Hid it ltac:(left)). rewrite Hb by lia.
  destruct (bit lin (op_of it)), (Z.eqb_spec (op_of it) k); simpl; rewrite ?filter_cons, ?minus_;
    repeat case_decide; done || congruence.
Qed.

Lemma step_body c c1 :
  inv c → minus (linearized c) ≠ [] → body model hd computePartial false c = Some (inl c1) → runs c c1.
Proof.
  intros Hc Hne Hb. exists 1%nat. intros k i. exists (S i). simpl. destruct (head_node c Hc) as (x & -> & Hx). simpl.
  rewrite Hx. destruct (minus (linearized c)); [done|]. simpl. change (nokill i) with false. by rewrite Hb.
Qed.

Lemma step_return c b :
  inv c → minus (linearized c) ≠ [] → body model hd computePartial false c = Some (inr b) →
  returns c (b, (seqs c, longest c)).
Proof.
  intros Hc Hne Hb. exists 1%nat. intros k i. simpl. destruct (head_node c Hc) as (x & -> & Hx). simpl.
  rewrite Hx. destruct (minus (linearized c)); [done|]. simpl. change (nokill i) with false. by rewrite Hb.
Qed.

Lemma step_exit c : inv c → minus (linearized c) = [] → ∃ sq lg, returns c (true, (sq, lg)) ∧ cells_ok sq lg.
Proof.
  intros Hc Hne. destruct (iv_state c Hc) as (ids & Hids & Hleg).
  exists (seqs c ++ [ids]), (replicate (length (longest c)) (Some (length (seqs c)))). split.
  - exists 1%nat. intros k i. simpl.
    destruct (head_node c Hc) as (x & -> & Hx). simpl. rewrite Hx, Hne. simpl. by rewrite Hids.
  - split; [rewrite length_replicate; apply (iv_longest c Hc)|]. intros p [[= ->] _]%elem_of_replicate.
    exists ids. rewrite lookup_app_r, Nat.sub_diag by lia. split; [done|by eexists].
Qed.

Lemma uint_id k : 0 ≤ k < n → uint k = k.
Proof. intros Hk. pose proof (ho_n Hok). unfold uint, word64. apply Z.mod_small. lia. Qed.

Definition moveTo (c : conf) (p : option ptr) : conf :=
  mkConf (hp c) p (linearized c) (cache c) (calls c) (state c) (seqs c) (longest c).

Lemma inv_moveTo c p : inv c → inv (moveTo c p).
Proof. by intros []. Qed.

(** The node of a remaining call, and that of its return. *)
Lemma call_node c pre k rest :
  inv c → minus (linearized c) = pre ++ C k :: rest →
  ∃ x y i o, hp c !! addr (C k) = Some x ∧ nmatch x = Some (addr (R k)) ∧ nid x = k ∧ nvalue x = Some (inl i) ∧
    next x = first_or (addr <$> rest) None ∧ hp c !! addr (R k) = Some y ∧ nvalue y = Some (inr o) ∧
    opio k = Some (i, o).
Proof.
  intros Hc Hm. assert (C k ∈ evs0) as Hk by (apply (minus_sub (linearized c)); rewrite Hm; set_solver).
  pose proof (wfe_return _ (ho_wfe Hok) k Hk) as HRk. destruct (ho_info Hok k Hk) as (i & o & Hio & HC & HR).
  destruct (node_of c _ Hc Hk) as (x & Hx & Hsx). destruct (node_of c _ Hc HRk) as (y & Hy & Hsy).
  rewrite HC in Hsx. rewrite HR in Hsy. injection Hsx as ? ? ?. injection Hsy as ? ? ?.
  exists x, y, i, o. split_and!; try done. pose proof (iv_heap c Hc) as Hs. rewrite Hm, fmap_app, fmap_cons in Hs.
  change (hd :: (addr <$> pre) ++ addr (C k) :: (addr <$> rest)) with ((hd :: (addr <$> pre)) ++ addr (C k) :: (addr <$> rest)) in Hs.
  apply seg_app in Hs as [_ (x' & Hx' & _ & Hn & _)]. rewrite Hx in Hx'. by injection Hx' as <-.
Qed.

(** The state after a call has been taken. *)
Definition pushed (c : conf) (k : Z) (h : list (node Inp Out)) (lin : bitset) (st : St) : conf :=
  mkConf h (first_or (addr <$> minus lin) None) lin
    (<[hash lin := default [] (cache c !! hash lin) ++ [mkCache lin st]]> (cache c))
    (calls c ++ [(addr (C k), state c)]) st (seqs c) (longest c).

Lemma cached_pushed c k h lin st e :
  cached e (cache (pushed c k h lin st)) → cached e (cache c) ∨ e = mkCache lin st.
Proof.
  intros [b Hb]. simpl in Hb. destruct (decide (b = hash lin)) as [-> |Hne].
  - rewrite lookup_insert_eq in Hb. simpl in Hb. apply elem_of_app in Hb as [Hb|Hb]; [left; by eexists|right; set_solver].
  - rewrite lookup_insert_ne in Hb by done. left. by eexists.
Qed.

(** Taking call [k]: the heap after [lift] is a frame of the search without [k], and [unlift] leads back. *)
Lemma push_inv c pre k rest lin :
  inv c → minus (linearized c) = pre ++ C k :: rest → set (linearized c) k = Some lin →
  ∃ h, lift (addr (C k)) (hp c) = Some h ∧ unlift (addr (C k)) h = Some (hp c) ∧
    (∀ i o st, opio k = Some (i, o) → Step model (state c) i o = (true, st) → inv (pushed c k h lin st)) ∧
    minus lin = remove k (minus (linearized c)) ∧
    (length (minus lin) < length (minus (linearized c)))%nat ∧ clear lin k = Some (linearized c) ∧
    within (linearized c) lin ∧ ~ within lin (linearized c).
Proof.
  intros Hc Hm Hset.
  assert (C k ∈ evs0 ∧ bit (linearized c) k = false) as [Hk Hbit].
  { apply (minus_sub (linearized c) (C k)). rewrite Hm. set_solver. }
  pose proof (ho_id Hok _ Hk) as Hr. simpl in Hr.
  destruct (set_spec n (linearized c) k (iv_lin c Hc) Hr) as (lin' & Hset' & Hwf & _ & Hbits).
  rewrite Hset in Hset'. injection Hset' as <-.
  pose proof (minus_set (linearized c) lin k Hbits) as Hminus.
  destruct (split_op _ _ _ _ (wfe_minus (linearized c)) Hm) as (r1 & r2 & Hrest & Hrem).
  destruct (call_node c pre k rest Hc Hm) as (x & y & i & o & Hx & Hmx & Hidx & _).
  pose proof (iv_heap c Hc) as Hs. pose proof (addr_NoDup (linearized c)) as Hnd.
  rewrite Hm, Hrest in Hs, Hnd. rewrite fmap_app, fmap_cons, fmap_app, fmap_cons in Hs, Hnd.
  destruct (lift_spec (hp c) hd _ _ _ _ _ x Hnd Hs Hx Hmx) as (h & Hl & Hs' & Hu & Hst).
  exists h. split_and!; [done|done| |done| |eapply (clear_set n); [apply (iv_lin c Hc)|done..]| |].
  - intros i' o' st Hio Hstep. split; simpl; [|rewrite Hst; apply (iv_static c Hc)|done| | |apply (iv_longest c Hc)].
    + rewrite Hminus, Hrem, !fmap_app. exact Hs'.
    + intros z [Hz|Hz]%elem_of_app; [by apply (iv_calls c Hc)|]. apply list_elem_of_singleton in Hz as ->. by exists k.
    + destruct (iv_state c Hc) as (ids & Hids & Hrep). exists (ids ++ [k]). split.
      * rewrite <-(callIds_static h (hp c)) in Hids by done. unfold callIds in *. apply mapM_Some in Hids. apply mapM_Some.
        apply Forall2_app; [done|]. constructor; [|constructor]. simpl.
        apply (f_equal (.!! addr (C k))) in Hst. rewrite !list_lookup_fmap, Hx in Hst.
        destruct (h !! addr (C k)) as [x'|]; [|done]. injection Hst as _ _ Hx'. simpl. by rewrite Hx', Hidx.
      * rewrite replay_snoc, Hrep. simpl. rewrite Hio. simpl. by rewrite Hstep.
  - rewrite Hminus, Hrem, Hm, Hrest. rewrite !length_app. simpl. rewrite length_app. simpl. lia.
  - intros q Hq Hb. by rewrite Hbits, Hb, orb_true_r.
  - intros Hw. specialize (Hw k ltac:(lia)). rewrite Hbits, Z.eqb_refl, Hbit in Hw by lia. by specialize (Hw eq_refl).
Qed.

(** The body at a call. *)
Lemma body_call c pre k rest i o ok st :
  inv c → minus (linearized c) = pre ++ C k :: rest → cur c = Some (addr (C k)) →
  opio k = Some (i, o) → Step model (state c) i o = (ok, st) →
  ∃ lin, set (linearized c) k = Some lin ∧
  body model hd computePartial false c =
    if ok && negb (cacheContains model (cache c) (mkCache lin st))
    then h ← lift (addr (C k)) (hp c); Some (inl (pushed c k h lin st))
    else Some (inl (moveTo c (first_or (addr <$> rest) None))).
Proof.
  intros Hc Hm Hcur Hio Hstep. destruct (call_node c pre k rest Hc Hm) as (x & y & i' & o' & Hx & Hmx & Hid & Hvx & Hnx & Hy & Hvy & Hio').
  rewrite Hio in Hio'. injection Hio' as <- <-.
  assert (C k ∈ evs0) as Hk by (apply (minus_sub (linearized c)); rewrite Hm; set_solver).
  pose proof (ho_id Hok _ Hk) as Hr. simpl in Hr.
  destruct (set_spec n (linearized c) k (iv_lin c Hc) Hr) as (lin & Hset & _). exists lin. split; [done|].
  unfold body. rewrite Hcur. simpl. rewrite Hx. simpl. rewrite Hmx. simpl. rewrite Hy. simpl. rewrite Hvx, Hvy. simpl.
  rewrite Hstep, Hnx, Hid, (uint_id k Hr). unfold clone. destruct ok; simpl; [|done]. rewrite Hset. simpl.
  destruct (cacheContains model (cache c) (mkCache lin st)) eqn:Hcc; simpl; [done|].
  destruct (push_inv c pre k rest lin Hc Hm Hset) as (h & Hl & _ & Hinv & _). rewrite Hl. simpl.
  specialize (Hinv i o st Hio Hstep). destruct (head_node _ Hinv) as (z & Hz & Hzn). simpl in Hz, Hzn. rewrite Hz. simpl. by rewrite Hzn.
Qed.

Lemma return_node c k :
  inv c → R k ∈ evs0 → ∃ y, hp c !! addr (R k) = Some y ∧ nmatch y = None.
Proof.
  intros Hc HR. destruct (node_of c _ Hc HR) as (y & Hy & Hs). exists y. split; [done|].
  assert (C k ∈ evs0) as Hk.
  { apply list_elem_of_split in HR as (l1 & l2 & Heq). rewrite Heq.
    pose proof (wfe_order _ (ho_wfe Hok) _ _ _ Heq). set_solver. }
  destruct (ho_info Hok k Hk) as (i & o & _ & _ & HRi). rewrite HRi in Hs. by injection Hs as _ ? _.
Qed.

(** Backing up from the frame of call [j] to where it was taken. *)
Lemma pop_step c0 pre j rest lin st h c :
  inv c0 → minus (linearized c0) = pre ++ C j :: rest → set (linearized c0) j = Some lin →
  lift (addr (C j)) (hp c0) = Some h → failed (pushed c0 j h lin st) c →
  ∃ sq lg, runs c (mkConf (hp c0) (first_or (addr <$> rest) None) (linearized c0) (cache c) (calls c0) (state c0) sq lg) ∧
    cells_ok sq lg.
Proof.
  intros Hc0 Hm Hset Hl Hf. destruct (push_inv c0 pre j rest lin Hc0 Hm Hset) as (h' & Hl' & Hu & _ & _ & _ & Hclear & _).
  rewrite Hl in Hl'. injection Hl' as <-. pose proof (fa_inv _ _ Hf) as Hc.
  destruct (fa_cur _ _ Hf) as (k & Hk & Hcur). simpl in Hk. pose proof Hk as [HR _]%minus_sub.
  destruct (return_node c k Hc HR) as (y & Hy & Hny).
  assert (∃ sq lg, (if computePartial then updateLongest c else Some c) =
      Some (mkConf (hp c) (cur c) (linearized c) (cache c) (calls c) (state c) sq lg) ∧ cells_ok sq lg)
    as (sq & lg & Hupd & Hlg).
  { destruct computePartial; [by apply updateLongest_total|]. exists (seqs c), (longest c).
    split; [by destruct c|apply (iv_longest c Hc)]. }
  exists sq, lg. split; [|done]. apply step_body; [done| |].
  { rewrite (fa_lin _ _ Hf). simpl. intros Hnil. rewrite Hnil in Hk. by apply elem_of_nil in Hk. }
  destruct (call_node c0 pre j rest Hc0 Hm) as (x & _ & _ & _ & Hx & _ & Hid & _ & Hnx & _).
  assert (∃ x', hp c !! addr (C j) = Some x' ∧ nid x' = j) as (x' & Hx' & Hidx').
  { assert (C j ∈ evs0) as Hj by (apply (minus_sub (linearized c0)); rewrite Hm; set_solver).
    destruct (node_of c _ Hc Hj) as (x' & Hx' & Hs'). exists x'. split; [done|].
    destruct (ho_info Hok j Hj) as (i & o & _ & HCi & _). rewrite HCi in Hs'. by injection Hs' as _ _ <-. }
  assert (0 ≤ j < n) as Hjr by (apply (ho_id Hok (C j)), (minus_sub (linearized c0)); rewrite Hm; set_solver).
  unfold body. rewrite Hcur. simpl. rewrite Hy. simpl. rewrite Hny, (fa_calls _ _ Hf). simpl.
  rewrite last_snoc, Hupd. simpl. rewrite Hx'. simpl. rewrite Hidx', (uint_id j Hjr), (fa_lin _ _ Hf), (fa_heap _ _ Hf). simpl.
  rewrite Hclear. simpl. rewrite Hu. simpl. rewrite Hx. simpl. rewrite Hnx. do 3 f_equal.
  rewrite (fa_calls _ _ Hf). simpl. rewrite length_app. simpl. by rewrite Nat.add_sub, take_app_length.
Qed.

(** ** The frames of the search *)
Definition succeeds (c : conf) : Prop :=
  ∃ σ sq lg, Lin (minus (linearized c)) (state c) σ ∧ returns c (true, (sq, lg)) ∧ cells_ok sq lg.
Definition outcome_of (c : conf) : Prop :=
  succeeds c ∨ ((∀ σ, ~ Lin (minus (linearized c)) (state c) σ) ∧ ∃ c', runs c c' ∧ failed c c').

Lemma lead_app pre suf : Forall (λ it, it = C (op_of it)) pre → lead (pre ++ suf) = (op_of <$> pre) ++ lead suf.
Proof. induction 1 as [|it pre Hit _ IH]; [done|]. rewrite Hit. csimpl. by rewrite IH. Qed.

Lemma cacheContains_cached (c : conf) e :
  cacheContains model (cache c) e = true → cached e (cache c).
Proof.
  unfold cacheContains. intros (e' & Hin & Heq)%existsb_exists. apply andb_true_iff in Heq as [Hl Hs].
  apply equals_eq in Hl. apply Hequal in Hs. exists (hash (ceLinearized e)). apply list_elem_of_In.
  assert (e' = e) as -> by (destruct e, e'; simpl in *; congruence). done.
Qed.

(** What happens when the call at hand is tried. *)
Definition after (c : conf) (rest : list item) (c' : conf) : Prop :=
  inv c' ∧ cache_ok c' ∧ hp c' = hp c ∧ linearized c' = linearized c ∧ calls c' = calls c ∧ state c' = state c ∧
  cur c' = first_or (addr <$> rest) None ∧ ∀ e, cached e (cache c') → cached e (cache c) ∨ dead e.

Lemma try_call c pre k rest :
  (∀ c', (length (minus (linearized c')) < length (minus (linearized c)))%nat → inv c' → cache_ok c' →
     cur c' = first_or (addr <$> minus (linearized c')) None → outcome_of c') →
  inv c → cache_ok c → minus (linearized c) = pre ++ C k :: rest → Forall (λ it, it = C (op_of it)) pre →
  cur c = Some (addr (C k)) →
  succeeds c ∨
  ((∀ σ, ~ Lin (minus (linearized c)) (state c) (k :: σ)) ∧ ∃ c', runs c c' ∧ after c rest c').
Proof.
  intros IH Hc Hcache Hm Hpre Hcur.
  destruct (call_node c pre k rest Hc Hm) as (_ & _ & i & o & _ & _ & _ & _ & _ & _ & _ & Hio).
  destruct (Step model (state c) i o) as [ok st] eqn:Hstep.
  destruct (body_call c pre k rest i o ok st Hc Hm Hcur Hio Hstep) as (lin & Hset & Hbody).
  destruct (push_inv c pre k rest lin Hc Hm Hset) as (h & Hl & Hu & Hinv & Hminus & Hlt & Hclear & Hw1 & Hw2).
  assert (minus (linearized c) ≠ []) as Hne by (rewrite Hm; by destruct pre).
  assert (∀ σ, Lin (minus (linearized c)) (state c) (k :: σ) → ok = true ∧ Lin (minus lin) st σ) as Hinvert.
  { intros σ Hlin. rewrite Hminus. by eapply Lin_cons_inv. }
  destruct (ok && negb (cacheContains model (cache c) (mkCache lin st))) eqn:Hcase.
  - apply andb_true_iff in Hcase as [-> _]. rewrite Hl in Hbody. simpl in Hbody.
    pose proof (step_body c _ Hc Hne Hbody) as Hrun.
    specialize (Hinv i o st Hio Hstep).
    destruct (IH (pushed c k h lin st)) as [(σ & sq & lg & Hlin & Hret & Hlg)|(Hdead & c3 & Hr3 & Hf3)]; [exact Hlt|done| |done|..].
    + intros e He%cached_pushed. destruct He as [He| ->]; [|right; by intros q].
      destruct (Hcache e He) as [?|Hw]; [by left|right]. intros q Hq Hb. apply Hw1; [done|]. by apply Hw.
    + left. exists (k :: σ), sq, lg. split_and!; [|by eapply runs_returns|done].
      eapply Lin_cons; [rewrite Hm, lead_app by done; set_solver|done|done|]. simpl in Hlin. by rewrite <-Hminus.
    + right. simpl in Hdead. split; [intros σ [_ Hlin]%Hinvert; by apply (Hdead σ)|].
      destruct (pop_step c pre k rest lin st h c3 Hc Hm Hset Hl Hf3) as (sq & lg & Hr4 & Hlg).
      assert (∀ e, cached e (cache c3) → cached e (cache c) ∨ dead e) as Hnew.
      { intros e [He%cached_pushed|?]%(fa_cache _ _ Hf3); [|by right]. destruct He as [?| ->]; [by left|right; exact Hdead]. }
      eexists. split; [by do 2 (etrans; [eassumption|])|]. split_and!; try done.
      * split; simpl; [apply (iv_heap c Hc)|apply (iv_static c Hc)|apply (iv_lin c Hc)|apply (iv_calls c Hc)|apply (iv_state c Hc)|done].
      * intros e He. simpl in He. destruct (Hnew e He) as [?|?]; [|by left]. by apply Hcache.
  - right. split.
    + intros σ [-> Hlin]%Hinvert. simpl in Hcase. apply negb_false_iff, cacheContains_cached in Hcase.
      destruct (Hcache _ Hcase) as [Hd|Hw]; [by apply (Hd σ)|done].
    + exists (moveTo c (first_or (addr <$> rest) None)). split; [by apply step_body|].
      split_and!; [by apply inv_moveTo|done..|]. intros e He. by left.
Qed.

(** Scanning the calls of a frame. *)
Lemma scan suf : ∀ c pre,
  (∀ c', (length (minus (linearized c')) < length (minus (linearized c)))%nat → inv c' → cache_ok c' →
     cur c' = first_or (addr <$> minus (linearized c')) None → outcome_of c') →
  inv c → cache_ok c → minus (linearized c) = pre ++ suf → Forall (λ it, it = C (op_of it)) pre →
  cur c = first_or (addr <$> suf) None →
  succeeds c ∨
  ((∀ k σ, k ∈ lead suf → ~ Lin (minus (linearized c)) (state c) (k :: σ)) ∧
   minus (linearized c) ≠ [] ∧ ∃ c', runs c c' ∧ failed c c').
Proof.
  induction suf as [|[k|k] rest IHs]; intros c pre IH Hc Hcache Hm Hpre Hcur.
  - left. assert (minus (linearized c) = []) as Hnil.
    { apply calls_only; [apply wfe_minus|]. by rewrite Hm, app_nil_r. }
    destruct (step_exit c Hc Hnil) as (sq & lg & Hr & Hlg). exists [], sq, lg. rewrite Hnil. split_and!; [constructor|done|done].
  - destruct (try_call c pre k rest IH Hc Hcache Hm Hpre Hcur) as [Hl|(Hk & c1 & Hr1 & Hc1 & Hcache1 & Hh1 & Hl1 & Hcs1 & Hs1 & Hcur1 & Hnew)];
      [by left|].
    destruct (IHs c1 (pre ++ [C k])) as [(σ & sq & lg & Hlin & Hret & Hlg)|(Hrest & Hne & c2 & Hr2 & Hf2)]; try done.
    + by rewrite Hl1.
    + by rewrite Hl1, Hm, <-app_assoc.
    + apply Forall_app. split; [done|]. by constructor.
    + left. rewrite Hl1, Hs1 in Hlin. exists σ, sq, lg. split_and!; [done|by eapply runs_returns|done].
    + right. rewrite Hl1, Hs1 in Hrest. rewrite Hl1 in Hne. split_and!; [|done|].
      * intros k' σ [-> |Hin]%elem_of_cons; [apply Hk|by apply Hrest].
      * exists c2. split; [by etrans|]. destruct Hf2 as [F1 F2 F3 F4 F5 F6 F7].
        split; try congruence; [by rewrite <-Hl1|]. intros e [?|?]%F7; [by apply Hnew|by right].
  - right. split_and!; [by intros ? ? ?%elem_of_nil|rewrite Hm; by destruct pre|]. exists c. split; [done|].
    split; try done; [|by left]. exists k. split; [rewrite Hm; set_solver|done].
Qed.

Lemma frame c :
  inv c → cache_ok c → cur c = first_or (addr <$> minus (linearized c)) None → outcome_of c.
Proof.
  remember (length (minus (linearized c))) as m eqn:Hm. revert c Hm.
  induction (lt_wf m) as [m _ IH]. intros c -> Hc Hcache Hcur.
  destruct (scan (minus (linearized c)) c []) as [?|(Hk & Hne & Hf)]; try done.
  { intros c' Hlt. exact (IH _ Hlt c' eq_refl). }
  { by left. }
  right. split; [|done]. intros σ Hlin. inversion Hlin; subst; [congruence|]. by eapply Hk.
Qed.

(** The search from the beginning. *)
Lemma search_decides c :
  inv c → cache c = ∅ → calls c = [] → linearized c = newBitset n → cur c = first_or (addr <$> evs0) None →
  minus (linearized c) = evs0 →
  ∃ b sq lg, returns c (b, (sq, lg)) ∧ cells_ok sq lg ∧ (b = true ↔ ∃ σ, Lin evs0 (state c) σ).
Proof.
  intros Hc Hemp Hcalls Hlin Hcur Hm. destruct (frame c) as [(σ & sq & lg & Hs & Hr & Hlg)|(Hd & c' & Hr & Hf)]; [done| |by rewrite Hm| |].
  { intros e [b Hb]. rewrite Hemp, lookup_empty in Hb. simpl in Hb. by apply elem_of_nil in Hb. }
  { exists true, sq, lg. rewrite Hm in Hs. naive_solver. }
  rewrite Hm in Hd. exists false, (seqs c'), (longest c'). destruct (fa_cur _ _ Hf) as (k & Hk & Hcur').
  pose proof Hk as [HR _]%minus_sub. destruct (return_node c' k (fa_inv _ _ Hf) HR) as (y & Hy & Hny).
  split_and!; [|apply (iv_longest _ (fa_inv _ _ Hf))|naive_solver].
  eapply runs_returns; [done|]. apply step_return; [exact (fa_inv _ _ Hf)| |].
  - rewrite (fa_lin _ _ Hf). intros Hnil. rewrite Hnil in Hk. by apply elem_of_nil in Hk.
  - unfold body. rewrite Hcur'. simpl. rewrite Hy. simpl. by rewrite Hny, (fa_calls _ _ Hf), Hcalls.
Qed.
End search.
