(* ===== verification/PorcupineHistory.v ===== *)
(** * From histories to the search

    The list [makeLinkedEntries] builds is the one the search works on ([checkSingle_decides]), and
    a sequence the search finds is a linearization: a permutation of the operations that the model
    accepts and that keeps the order of operations that do not overlap. *)
From S2P Require Import Prelude Bitset Porcupine PorcupineList PorcupineSearch.
Import Checker Bitset.

Section link.
Context {Inp Out : Type}.
Abbreviation entry := (entry Inp Out).
Implicit Types (es : list entry) (e : entry).

Definition item_of e : item := match kind e with callEntry => C (id e) | returnEntry => R (id e) end.

(** The address of an item, of the return a call is matched with, and what the nodes hold. *)
Fixpoint pos_addr es (it : item) : ptr :=
  match es with [] => 0%nat | e :: es => if decide (item_of e = it) then length es else pos_addr es it end.
Fixpoint ret_addr es (k : Z) : option ptr :=
  match es with [] => None | e :: es => if decide (item_of e = R k) then Some (length es) else ret_addr es k end.
Definition info_of es e : option (Inp + Out) * option ptr * Z :=
  (Some (value e), match kind e with callEntry => ret_addr es (id e) | returnEntry => None end, id e).
Fixpoint static_of es : list (option (Inp + Out) * option ptr * Z) :=
  match es with [] => [] | e :: es => static_of es ++ [info_of es e] end.
Fixpoint addrs (m : nat) : list ptr := match m with O => [] | S m => m :: addrs m end.

Lemma elem_of_addrs m a : a ∈ addrs m ↔ (a < m)%nat.
Proof. induction m as [|m IH]; simpl; [set_solver by lia|]. rewrite elem_of_cons, IH. lia. Qed.
Lemma NoDup_addrs m : NoDup (addrs m).
Proof. induction m; simpl; constructor; [|done]. rewrite elem_of_addrs. lia. Qed.
Lemma length_static es : length (static_of es) = length es.
Proof. induction es as [|e es IH]; simpl; [done|]. rewrite length_app, IH. simpl. lia. Qed.

Lemma link_spec es :
  ∃ m h, foldl (λ acc elem, s ← acc; linkEntry s elem) (Some (None, ∅, [])) (rev es) =
      Some (first_or (addrs (length es)) None, m, h) ∧
    (∀ k, m !! k = ret_addr es k) ∧ sinfo <$> h = static_of es ∧ seg h None (addrs (length es)) None.
Proof.
  induction es as [|e es (m & h & Hf & Hm & Hst & Hs)].
  { by exists ∅, []. }
  assert (length h = length es) as Hlen by (by rewrite <-(length_static es), <-Hst, length_fmap).
  simpl. rewrite foldl_app, Hf. simpl. rewrite Hlen. destruct (kind e) eqn:Hk.
  - destruct (insertBefore_spec h (length es) (mkNode (Some (value e)) (m !! id e) (id e) None None) Hlen eq_refl eq_refl
      (addrs (length es)) (NoDup_addrs _) Hs) as (h' & Hi & Hs' & Hst'). rewrite Hi. simpl.
    exists m, h'. split_and!; [done| | |done].
    + intros k. rewrite Hm, decide_False; [done|]. unfold item_of. by rewrite Hk.
    + rewrite Hst', fmap_app, Hst. simpl. unfold info_of, sinfo. simpl. by rewrite Hk, Hm.
  - destruct (insertBefore_spec h (length es) (mkNode (Some (value e)) None (id e) None None) Hlen eq_refl eq_refl
      (addrs (length es)) (NoDup_addrs _) Hs) as (h' & Hi & Hs' & Hst'). rewrite Hi. simpl.
    exists (<[id e := length es]> m), h'. split_and!; [done| | |done].
    + intros k. unfold item_of. rewrite Hk. case_decide as Hd; [injection Hd as <-; by rewrite lookup_insert_eq|].
      rewrite lookup_insert_ne by congruence. apply Hm.
    + rewrite Hst', fmap_app, Hst. simpl. unfold info_of, sinfo. simpl. by rewrite Hk.
Qed.

Lemma pos_addr_lt es it : it ∈ item_of <$> es → (pos_addr es it < length es)%nat.
Proof.
  induction es as [|e es IH]; simpl; [by intros ?%elem_of_nil|]. case_decide as Hd; [lia|].
  intros [?|Hin]%elem_of_cons; [congruence|]. specialize (IH Hin). lia.
Qed.

Lemma addrs_items es : NoDup (item_of <$> es) → pos_addr es <$> (item_of <$> es) = addrs (length es).
Proof.
  induction es as [|e es IH]; [done|]. rewrite fmap_cons. intros [He Hnd]%NoDup_cons. simpl.
  rewrite decide_True by done. f_equal. rewrite <-IH by done. apply list_fmap_ext. intros i it Hit.
  simpl. rewrite decide_False; [done|]. intros Heq. apply He. rewrite Heq. by eapply list_elem_of_lookup_2.
Qed.

Lemma pos_addr_inj es it it' :
  it ∈ item_of <$> es → it' ∈ item_of <$> es → pos_addr es it = pos_addr es it' → it = it'.
Proof.
  induction es as [|e es IH]; simpl; [by intros ?%elem_of_nil|]. intros H1 H2 Heq.
  apply elem_of_cons in H1, H2. repeat case_decide; try congruence.
  - destruct H2 as [?|H2]; [congruence|]. apply pos_addr_lt in H2. lia.
  - destruct H1 as [?|H1]; [congruence|]. apply pos_addr_lt in H1. lia.
  - destruct H1, H2; try congruence. by apply IH.
Qed.

Lemma ret_addr_pos es k : R k ∈ item_of <$> es → ret_addr es k = Some (pos_addr es (R k)).
Proof.
  induction es as [|e es IH]; simpl; [by intros ?%elem_of_nil|]. case_decide; [done|].
  intros [?|Hin]%elem_of_cons; [congruence|]. by apply IH.
Qed.

Lemma ret_addr_skip l1 es k : R k ∉ item_of <$> l1 → pos_addr (l1 ++ es) (R k) = pos_addr es (R k).
Proof.
  induction l1 as [|e l1 IH]; [done|]. rewrite fmap_cons, not_elem_of_cons. intros [He Hl]. simpl.
  rewrite decide_False by congruence. auto.
Qed.

(** The node at the address of the item of [e]. *)
Lemma static_pos l1 e l2 :
  item_of e ∉ item_of <$> l1 → static_of (l1 ++ e :: l2) !! pos_addr (l1 ++ e :: l2) (item_of e) = Some (info_of l2 e).
Proof.
  intros He. induction l1 as [|x l1 IH]; simpl.
  - rewrite decide_True by done. rewrite lookup_app_r, length_static, Nat.sub_diag by (by rewrite length_static). done.
  - rewrite fmap_cons, not_elem_of_cons in He. destruct He as [Hx He]. rewrite decide_False by congruence.
    rewrite lookup_app_l; [auto|]. rewrite length_static. apply pos_addr_lt. rewrite fmap_app. set_solver.
Qed.

(** The return a call is matched with. *)
Lemma ret_of_call l1 e l2 k :
  wfe (item_of <$> (l1 ++ e :: l2)) → item_of e = C k → ret_addr l2 k = Some (pos_addr (l1 ++ e :: l2) (R k)).
Proof.
  intros Hw He. pose proof (wfe_nodup _ Hw) as Hnd. rewrite fmap_app, fmap_cons, He in Hw, Hnd.
  destruct (split_op _ _ _ _ Hw eq_refl) as (r1 & r2 & Hr & _).
  rewrite ret_addr_pos by (rewrite Hr; set_solver). f_equal. symmetry.
  change (e :: l2) with ([e] ++ l2). rewrite app_assoc. apply ret_addr_skip. rewrite fmap_app. simpl. rewrite He.
  rewrite Hr in Hnd. apply NoDup_app in Hnd as (_ & Hd & _). intros [Hin|Hin]%elem_of_app; [|set_solver].
  apply (Hd _ Hin). set_solver.
Qed.
End link.

(** ** [checkSingle] decides [Lin] *)
Section single.
Context {Inp Out St : Type} (model : Full Inp Out St).
Context (Hequal : ∀ s s', Equal model s s' = true → s = s').
Context (opio : Z → option (Inp * Out)) (es : list (entry Inp Out)).

(** A complete history: every operation has one call and, later, one return. *)
Record entries_ok : Prop := {
  eo_wfe : wfe (item_of <$> es);
  eo_id e : e ∈ es → 0 ≤ id e < zlen es / 2;
  eo_size : zlen es < 2 ^ 64;
  eo_value e : e ∈ es → ∃ i o, opio (id e) = Some (i, o) ∧
    value e = match kind e with callEntry => inl i | returnEntry => inr o end;
}.

Lemma entries_history :
  entries_ok →
  history_ok opio (zlen es / 2) (item_of <$> es) (length es) (pos_addr es) (static_of es ++ [(None, None, -1)]).
Proof.
  intros Hes. pose proof (wfe_nodup _ (eo_wfe Hes)) as Hnd. split.
  - exact (eo_wfe Hes).
  - pose proof (eo_size Hes). assert (zlen es / 2 ≤ zlen es) by (apply Z.div_le_upper_bound; lia). lia.
  - intros it (e & -> & He)%list_elem_of_fmap. unfold item_of. pose proof (eo_id Hes e He). by destruct (kind e).
  - intros it it'. apply pos_addr_inj.
  - intros it Hit. apply pos_addr_lt in Hit. lia.
  - intros k Hk. pose proof (wfe_return _ (eo_wfe Hes) k Hk) as HR.
    assert (∀ it, it ∈ item_of <$> es → (static_of es ++ [(None, None, -1)]) !! pos_addr es it = static_of es !! pos_addr es it) as Hskip.
    { intros it Hit. apply lookup_app_l. rewrite length_static. by apply pos_addr_lt. }
    rewrite !Hskip by done. clear Hskip.
    apply list_elem_of_fmap in Hk as (e & Hek & He), HR as (r & Hrk & Hr).
    destruct (eo_value Hes e He) as (i & o & Hio & Hv). destruct (eo_value Hes r Hr) as (i' & o' & Hio' & Hv').
    assert (kind e = callEntry ∧ id e = k) as [Hke Hide] by (unfold item_of in Hek; destruct (kind e); naive_solver).
    assert (kind r = returnEntry ∧ id r = k) as [Hkr Hidr] by (unfold item_of in Hrk; destruct (kind r); naive_solver).
    rewrite Hide in Hio. rewrite Hidr, Hio in Hio'. injection Hio' as <- <-. rewrite Hke in Hv. rewrite Hkr in Hv'.
    exists i, o. split; [done|].
    apply list_elem_of_split in He as (l1 & l2 & Hes1), Hr as (r1 & r2 & Hes2). split.
    + rewrite Hek, Hes1, static_pos.
      2: { rewrite Hes1, fmap_app, fmap_cons in Hnd. apply NoDup_app in Hnd as (_ & Hd & _). intros Hin. apply (Hd _ Hin). left. }
      unfold info_of. rewrite Hke, Hide, Hv. do 3 f_equal. rewrite <-(ret_of_call l1 e l2); [done|rewrite <-Hes1; apply (eo_wfe Hes)|congruence].
    + rewrite Hrk, Hes2, static_pos.
      2: { rewrite Hes2, fmap_app, fmap_cons in Hnd. apply NoDup_app in Hnd as (_ & Hd & _). intros Hin. apply (Hd _ Hin). left. }
      unfold info_of. by rewrite Hkr, Hidr, Hv'.
Qed.

Lemma minus_new n evs : (∀ q, bit (newBitset n) q = false) → minus evs (newBitset n) = evs.
Proof.
  intros Hb. unfold minus. induction evs as [|it evs IH]; [done|]. by rewrite filter_cons, decide_True, IH.
Qed.

Lemma checkSingle_decides computePartial :
  entries_ok →
  ∃ b sq lg N, (∀ fuel, (N ≤ fuel)%nat → checkSingle model fuel es computePartial nokill = Some (b, (sq, lg))) ∧
    cells_ok model opio (zlen es / 2) sq lg ∧ (b = true ↔ ∃ σ, Lin model opio (item_of <$> es) (Init model) σ).
Proof.
  intros Hes. pose proof (entries_history Hes) as Hok. pose proof (wfe_nodup _ (eo_wfe Hes)) as Hnd.
  pose proof (eo_size Hes) as Hsz. set (n := zlen es / 2) in *.
  assert (0 ≤ n < 2 ^ 64) as Hn by (split; [apply Z.div_pos; lia|apply (ho_n _ _ _ _ _ _ Hok)]).
  destruct (link_spec es) as (m & h & Hf & _ & Hst & Hs).
  assert (length h = length es) as Hlen by (by rewrite <-(length_static es), <-Hst, length_fmap).
  destruct (insertBefore_spec h (length es) (mkNode None None (-1) None None) Hlen eq_refl eq_refl
    (addrs (length es)) (NoDup_addrs _) Hs) as (h' & Hi & Hs' & Hst').
  assert (length (addrs (length es)) = length es) as Hla by (generalize (length es); intros x; induction x; simpl; lia).
  assert (∀ fuel, checkSingle model fuel es computePartial nokill =
    loop model fuel 0 (length es) computePartial nokill (mkConf h' (first_or (addrs (length es)) None) (newBitset n) ∅ []
      (Init model) [] (replicate (Z.to_nat n) None))) as Hcs.
  { intros fuel. unfold checkSingle, makeLinkedEntries. rewrite Hf. simpl.
    rewrite (nodeLength_spec h None) by (done || lia). simpl. rewrite Hla, Hlen, Hi. simpl. fold n.
    by rewrite (Z.mod_small n (2 ^ 64) Hn : uint n = n). }
  destruct (newBitset_wf n ltac:(lia)) as [Hwf Hbits]. set (c := mkConf _ _ _ _ _ _ _ _) in *.
  destruct (search_decides model opio Hequal n (item_of <$> es) (length es) (pos_addr es)
    (static_of es ++ [(None, None, -1)]) computePartial Hok c) as (b & sq & lg & (N & Hret) & Hlg & Hb); try done.
  - split; simpl; [|by rewrite Hst', fmap_app, Hst|done|by intros ? ?%elem_of_nil|by exists []|].
    + rewrite minus_new, addrs_items by done. exact Hs'.
    + split; [by rewrite length_replicate|]. intros p [? _]%elem_of_replicate. done.
  - simpl. by rewrite addrs_items.
  - by apply minus_new.
  - exists b, sq, lg, N. split_and!; [|done|done]. intros fuel Hfuel. rewrite Hcs.
    replace fuel with (N + (fuel - N))%nat by lia. apply Hret.
Qed.
End single.

(** ** Linearizations *)

(** [x] is before [y]. *)
Definition before (x y : item) (evs : list item) : Prop := ∃ l1 l2, evs = l1 ++ x :: l2 ∧ y ∈ l2.

Lemma before_cons x y z evs : before x y (z :: evs) ↔ (x = z ∧ y ∈ evs) ∨ before x y evs.
Proof.
  split.
  - intros ([|w l1] & l2 & Heq & Hy); injection Heq as -> ->; [by left|right]. by exists l1, l2.
  - intros [[-> Hy]|(l1 & l2 & -> & Hy)]; [by exists [], evs|]. by exists (z :: l1), l2.
Qed.

Lemma before_filter (P : item → Prop) `{∀ x, Decision (P x)} x y evs :
  P x → P y → before x y (filter P evs) ↔ before x y evs.
Proof.
  intros Hx Hy. induction evs as [|z evs IH]; [done|]. rewrite filter_cons, before_cons. case_decide as Hz.
  - rewrite before_cons, IH, list_elem_of_filter. naive_solver.
  - rewrite IH. naive_solver.
Qed.

(** No return is before a call among the first ones. *)
Lemma lead_spec k evs : NoDup evs → C k ∈ evs → k ∈ lead evs ↔ ∀ b, ~ before (R b) (C k) evs.
Proof.
  intros Hnd Hin. induction evs as [|[j|j] evs IH]; [by apply elem_of_nil in Hin|..]; simpl; apply NoDup_cons in Hnd as [Hj Hnd].
  - rewrite elem_of_cons. setoid_rewrite before_cons. destruct (decide (k = j)) as [-> |Hne].
    + split; [|by left]. intros _ b [[? _]|(l1 & l2 & -> & Hl)]; [done|]. apply Hj. set_solver.
    + assert (C k ∈ evs) as Hin' by set_solver. rewrite (IH Hnd Hin'). naive_solver.
  - setoid_rewrite before_cons. assert (C k ∈ evs) as Hin' by set_solver. split; [by intros ?%elem_of_nil|].
    intros Hb. exfalso. apply (Hb j). by left.
Qed.

Section order.
Context {Inp Out St : Type} (model : Full Inp Out St) (opio : Z → option (Inp * Out)).

Definition calls_of (evs : list item) : list Z :=
  omap (λ it, match it with C k => Some k | R _ => None end) evs.

(** A linearization of a history of items. *)
Record linearizes (evs : list item) (st : St) (σ : list Z) : Prop := {
  lz_perm : σ ≡ₚ calls_of evs;
  lz_legal : is_Some (replay model opio st σ);
  lz_order l1 a l2 b l3 : σ = l1 ++ a :: l2 ++ b :: l3 → ~ before (R b) (C a) evs;
}.

Lemma elem_of_calls_of k evs : k ∈ calls_of evs ↔ C k ∈ evs.
Proof.
  unfold calls_of. rewrite list_elem_of_omap. split; [|intros ?; by exists (C k)].
  intros ([j|j] & Hj & Heq); [by injection Heq as ->|done].
Qed.

Lemma lead_calls k evs : k ∈ lead evs → C k ∈ evs.
Proof. induction evs as [|[j|j] evs IH]; simpl; [by intros ?%elem_of_nil| |by intros ?%elem_of_nil]. set_solver. Qed.

Lemma calls_of_remove k evs : NoDup evs → C k ∈ evs → calls_of evs ≡ₚ k :: calls_of (remove k evs).
Proof.
  intros Hnd Hin. induction evs as [|it evs IH]; [by apply elem_of_nil in Hin|]. apply NoDup_cons in Hnd as [Hit Hnd].
  unfold remove. rewrite filter_cons. fold (remove k evs). destruct it as [j|j]; simpl.
  - destruct (decide (j = k)) as [-> |Hne].
    + destruct (decide (k ≠ k)); [done|]. f_equiv. unfold remove.
      assert (∀ l : list item, C k ∉ l → calls_of (filter (λ it, op_of it ≠ k) l) = calls_of l) as Hid; [|by rewrite Hid].
      intros l Hl. induction l as [|[i|i] l IHl]; [done|..]; rewrite filter_cons; simpl.
      * destruct (decide (i ≠ k)) as [|Hik]; [simpl; rewrite IHl by set_solver; done|].
        exfalso. apply Hl. assert (i = k) as -> by (by destruct (decide (i = k))). left.
      * destruct (decide (i ≠ k)); simpl; apply IHl; set_solver.
    + destruct (decide (j ≠ k)); [|done]. simpl. rewrite IH by (done || set_solver). apply Permutation_swap.
  - destruct (decide (j ≠ k)); simpl; apply IH; (done || set_solver).
Qed.

Lemma wfe_remove k evs : wfe evs → wfe (remove k evs).
Proof. exact (wfe_filter (λ j, j ≠ k) evs). Qed.

Lemma before_remove k a b evs : a ≠ k → b ≠ k → before (R b) (C a) (remove k evs) ↔ before (R b) (C a) evs.
Proof. intros Ha Hb. unfold remove. by apply before_filter. Qed.

Lemma Lin_linearizes evs st σ : wfe evs → Lin model opio evs st σ → linearizes evs st σ.
Proof.
  intros Hw Hl. induction Hl as [st|evs st k i o st' σ Hk Hio Hstep Hl IH].
  { split; [done|by eexists|]. by intros [] ? ? ? ?. }
  destruct (IH (wfe_remove k evs Hw)) as [Hp Hleg Ho]. pose proof (lead_calls _ _ Hk) as Hin.
  pose proof (wfe_nodup _ Hw) as Hnd. split.
  - by rewrite (calls_of_remove k evs Hnd Hin), Hp.
  - simpl. rewrite Hio. simpl. by rewrite Hstep.
  - intros l1 a l2 b l3 Heq Hb. destruct l1 as [|x l1]; simpl in Heq; injection Heq as <- Hσ.
    + by apply (proj1 (lead_spec k evs Hnd Hin) Hk b).
    + assert (∀ x, x ∈ σ → x ≠ k) as Hne.
      { intros y Hy ->. rewrite Hp, elem_of_calls_of in Hy. unfold remove in Hy. by apply list_elem_of_filter in Hy as [? _]. }
      apply (Ho l1 a l2 b l3 Hσ). apply before_remove; [apply Hne; rewrite Hσ; set_solver..|done].
Qed.

Lemma linearizes_Lin evs st σ : wfe evs → linearizes evs st σ → Lin model opio evs st σ.
Proof.
  revert evs st. induction σ as [|k σ IH]; intros evs st Hw [Hp Hleg Ho].
  { assert (evs = []) as ->; [|constructor]. apply calls_only; [done|]. apply Forall_forall. intros [j|j] Hj; [done|].
    exfalso. apply list_elem_of_split in Hj as (l1 & l2 & Heq). pose proof (wfe_order _ Hw _ _ _ Heq) as Hc.
    assert (j ∈ calls_of evs) as Hin by (apply elem_of_calls_of; rewrite Heq; set_solver).
    rewrite <-Hp in Hin. by apply elem_of_nil in Hin. }
  pose proof (wfe_nodup _ Hw) as Hnd. assert (C k ∈ evs) as Hin by (apply elem_of_calls_of; rewrite <-Hp; left).
  simpl in Hleg. destruct (opio k) as [[i o]|] eqn:Hio; [|by destruct Hleg]. simpl in Hleg.
  destruct (Step model st i o) as [[] st'] eqn:Hstep; [|by destruct Hleg].
  rewrite (calls_of_remove k evs Hnd Hin) in Hp. apply (inj (cons k)) in Hp.
  assert (∀ x, x ∈ σ → x ≠ k) as Hne.
  { intros x Hx ->. rewrite Hp, elem_of_calls_of in Hx. unfold remove in Hx. by apply list_elem_of_filter in Hx as [? _]. }
  eapply Lin_cons; [|done|done|].
  - apply lead_spec; [done|done|]. intros b (l1 & l2 & Heq & Hk2).
    assert (C b ∈ l1) as Hb by by eapply (wfe_order _ Hw). destruct (decide (b = k)) as [-> |Hbk].
    { rewrite Heq in Hnd. apply NoDup_app in Hnd as (_ & Hd & _). apply (Hd _ Hb). set_solver. }
    assert (b ∈ σ) as (s1 & s2 & Hσ)%list_elem_of_split.
    { rewrite Hp, elem_of_calls_of. apply list_elem_of_filter. split; [done|]. rewrite Heq. set_solver. }
    apply (Ho [] k s1 b s2); [by rewrite Hσ|]. by exists l1, l2.
  - apply IH; [by apply wfe_remove|]. split; [done|done|]. intros l1 a l2 b l3 Hσ Hb.
    apply (Ho (k :: l1) a l2 b l3); [by rewrite Hσ|].
    apply before_remove in Hb; [done|apply Hne; rewrite Hσ; set_solver..].
Qed.
End order.
