(* ===== verification/PorcupineOps.v ===== *)
(** * Linearizability of histories of operations

    [linearizable] is the textbook definition for complete histories: the operations in some order
    that the model accepts and in which no operation comes after one that was invoked after its
    return.  [checkSingle] on the entries of a history decides it, and [selectLoop] combines the
    verdicts of the partitions whatever the order in which they arrive. *)
From S2P Require Import Prelude Bitset Porcupine PorcupineList PorcupineSearch PorcupineHistory.
Import Checker.

Section linearizable.
Context {Inp Out St : Type} (model : Full Inp Out St).
Abbreviation Operation := (Operation Inp Out).
Implicit Types (ops history : list Operation) (st : St).

(** The state after operations in this order, when the model accepts each. *)
Fixpoint accept st ops : option St :=
  match ops with
  | [] => Some st
  | o :: ops => let '(ok, st') := Step model st (Input o) (Output o) in if ok : bool then accept st' ops else None
  end.

(** [a] may come before [b]: [b] had not returned when [a] was invoked. *)
Definition may_precede (a b : Operation) : Prop := Call a ≤ Return b.

Definition linearizable history : Prop :=
  ∃ ops, ops ≡ₚ history ∧ is_Some (accept (Init model) ops) ∧ StronglySorted may_precede ops.

(** A complete history: no operation returns before it is invoked; and it fits in memory. *)
Definition complete history : Prop := Forall (λ o, Call o ≤ Return o) history ∧ 2 * zlen history < 2 ^ 64.

Definition opio_of history (k : Z) : option (Inp * Out) := (λ o, (Input o, Output o)) <$> index history k.

(** *** Entries *)
Definition callE (k : Z) (o : Operation) : entry Inp Out := mkEntry callEntry (inl (Input o)) k (Call o) (OpClientId o).
Definition retE (k : Z) (o : Operation) : entry Inp Out := mkEntry returnEntry (inr (Output o)) k (Return o) (OpClientId o).

Lemma elem_of_rawEntries history e :
  e ∈ rawEntries history ↔ ∃ k o, index history k = Some o ∧ (e = callE k o ∨ e = retE k o).
Proof.
  unfold rawEntries. rewrite list_elem_of_In, in_concat. setoid_rewrite <-list_elem_of_In. split.
  - intros (l & (i & o & -> & Hi)%elem_of_lookup_imap & He). exists (Z.of_nat i), o. split.
    + apply index_Some. rewrite Nat2Z.id. split; [lia|done].
    + unfold opEntries in He. set_solver.
  - intros (k & o & [Hk Hi]%index_Some & He). exists (opEntries k o). split; [|unfold opEntries; set_solver].
    apply elem_of_lookup_imap. exists (Z.to_nat k), o. by rewrite Z2Nat.id.
Qed.

Lemma raw_snoc history o : rawEntries (history ++ [o]) = rawEntries history ++ opEntries (zlen history) o.
Proof. unfold rawEntries. rewrite imap_app, concat_app. simpl. by rewrite Nat.add_0_r. Qed.

Lemma raw_items history : item_of <$> rawEntries history = zrange 0 (zlen history) ≫= λ k, [C k; R k].
Proof.
  induction history as [|o history IH] using rev_ind; [done|]. rewrite raw_snoc, fmap_app, IH.
  rewrite length_app, Nat2Z.inj_add, zrange_snoc, bind_app by lia. done.
Qed.

Lemma raw_length history : zlen (rawEntries history) = 2 * zlen history.
Proof.
  induction history as [|o history IH] using rev_ind; [done|]. rewrite raw_snoc, !length_app. simpl. lia.
Qed.

Lemma raw_NoDup history : NoDup (item_of <$> rawEntries history).
Proof.
  rewrite raw_items. apply NoDup_bind; [| |apply NoDup_zrange].
  - intros x y z _ _. set_solver.
  - intros x _. repeat constructor; set_solver.
Qed.
End linearizable.

Section sorted.
Context {Inp Out : Type} `{SortByTime}.
Abbreviation Operation := (Operation Inp Out).
Implicit Types (history : list Operation).

Lemma make_perm history : makeEntries history ≡ₚ rawEntries history.
Proof. apply sort_time_perm. Qed.

Lemma make_NoDup history : NoDup (item_of <$> makeEntries history).
Proof. rewrite make_perm. apply raw_NoDup. Qed.

Lemma elem_of_make history e :
  e ∈ makeEntries history ↔ ∃ k o, index history k = Some o ∧ (e = callE k o ∨ e = retE k o).
Proof. rewrite make_perm. apply elem_of_rawEntries. Qed.

(** The entries of two items, in the order of the items. *)
Lemma before_Less (es : list (entry Inp Out)) e1 e2 :
  StronglySorted (λ a b, Less b a = false) es → NoDup (item_of <$> es) → e1 ∈ es → e2 ∈ es →
  before (item_of e1) (item_of e2) (item_of <$> es) → Less e2 e1 = false.
Proof.
  intros Hs Hnd He1 He2. induction Hs as [|e es Hs IH Hall]; [by apply elem_of_nil in He1|].
  rewrite fmap_cons in Hnd |- *. apply NoDup_cons in Hnd as [Hi Hnd]. rewrite before_cons.
  assert (∀ x, x ∈ es → item_of x ∈ item_of <$> es) as Hmem by (intros x Hx; by apply list_elem_of_fmap_2).
  intros [[Heq Hin]|Hb].
  - assert (e1 = e) as -> by (apply elem_of_cons in He1 as [?|He1]; [done|]; rewrite <-Heq in Hi; by apply Hmem in He1).
    apply elem_of_cons in He2 as [-> |He2]; [done|]. rewrite Forall_forall in Hall. by apply Hall.
  - pose proof Hb as (l1 & l2 & Heq & Hl2).
    assert (item_of e1 ∈ item_of <$> es ∧ item_of e2 ∈ item_of <$> es) as [Hm1 Hm2] by (rewrite Heq; set_solver).
    apply elem_of_cons in He1 as [-> |He1]; [done|]. apply elem_of_cons in He2 as [-> |He2]; [done|]. by apply IH.
Qed.

Lemma before_total (x y : item) l : x ≠ y → x ∈ l → y ∈ l → before x y l ∨ before y x l.
Proof.
  intros Hne. induction l as [|z l IH]; [by intros ?%elem_of_nil|]. rewrite !before_cons, !elem_of_cons. naive_solver.
Qed.

Lemma callE_Less k (o : Operation) k' (o' : Operation) : Less (retE k o) (callE k' o') = (Return o <? Call o').
Proof. unfold Less. simpl. destruct (Z.eqb_spec (Return o) (Call o')) as [-> |]; simpl; [|done]. by rewrite Z.ltb_irrefl. Qed.
Lemma retE_Less k (o : Operation) k' (o' : Operation) : Less (callE k o) (retE k' o') = (Call o <=? Return o').
Proof. unfold Less. simpl. destruct (Z.eqb_spec (Call o) (Return o')); simpl; lia. Qed.

(** In the entries of a history, the return of [b] is before the call of [a] exactly when [b] returned first. *)
Lemma before_make history a b oa ob :
  index history a = Some oa → index history b = Some ob →
  before (R b) (C a) (item_of <$> makeEntries history) ↔ Return ob < Call oa.
Proof.
  intros Ha Hb.
  assert (callE a oa ∈ makeEntries history) as Hina by (apply elem_of_make; eauto).
  assert (retE b ob ∈ makeEntries history) as Hinb by (apply elem_of_make; eauto).
  pose proof (make_NoDup history) as Hnd.
  pose proof (sort_time_sorted (rawEntries history)) as Hs. fold (makeEntries history) in Hs. split.
  - intros Hbef. pose proof (before_Less _ (retE b ob) (callE a oa) Hs Hnd Hinb Hina Hbef) as HL.
    rewrite retE_Less in HL. lia.
  - intros Hlt. destruct (before_total (R b) (C a) (item_of <$> makeEntries history)) as [?|Hbef]; try done.
    + by apply (list_elem_of_fmap_2 item_of) in Hinb.
    + by apply (list_elem_of_fmap_2 item_of) in Hina.
    + exfalso. pose proof (before_Less _ (callE a oa) (retE b ob) Hs Hnd Hina Hinb Hbef) as HL. rewrite callE_Less in HL. lia.
Qed.

Lemma elem_of_items history k :
  (C k ∈ item_of <$> makeEntries history ↔ is_Some (index history k)) ∧
  (R k ∈ item_of <$> makeEntries history ↔ is_Some (index history k)).
Proof.
  rewrite !list_elem_of_fmap. setoid_rewrite elem_of_make. split.
  - split; [intros (e & He & j & o & Hj & [-> | ->]); [injection He as ->; by eexists|discriminate He]|]. intros [o Ho]. exists (callE k o). split; [done|]. exists k, o. auto.
  - split; [intros (e & He & j & o & Hj & [-> | ->]); [discriminate He|injection He as ->; by eexists]|]. intros [o Ho]. exists (retE k o). split; [done|]. exists k, o. auto.
Qed.

Lemma makeEntries_ok history : complete history → entries_ok (opio_of history) (makeEntries history).
Proof.
  intros [Hle Hsz]. assert (zlen (makeEntries history) = 2 * zlen history) as Hlen by (rewrite make_perm; apply raw_length).
  split.
  - split; [apply make_NoDup| |].
    + intros k Hk. apply elem_of_items. by apply elem_of_items in Hk.
    + intros l1 k l2 Heq.
      assert (is_Some (index history k)) as [o Ho] by (apply elem_of_items; rewrite Heq; set_solver).
      assert (C k ∈ item_of <$> makeEntries history) as HC by (apply elem_of_items; by eexists).
      rewrite Heq in HC. apply elem_of_app in HC as [HC|HC]; [done|]. exfalso.
      assert (before (R k) (C k) (item_of <$> makeEntries history)) as Hb by (exists l1, l2; split; [done|set_solver]).
      apply (before_make history k k o o Ho Ho) in Hb. apply index_Some in Ho as [_ Ho].
      eapply Forall_lookup_1 in Hle; [|done]. simpl in Hle. lia.
  - intros e (k & o & Hk & He)%elem_of_make. rewrite Hlen, Z.mul_comm, Z.div_mul by lia.
    apply index_lt_Some in Hk. by destruct He as [-> | ->].
  - lia.
  - intros e (k & o & Hk & He)%elem_of_make. exists (Input o), (Output o). unfold opio_of.
    destruct He as [-> | ->]; simpl; by rewrite Hk.
Qed.
End sorted.

(** ** Orders of indices and orders of operations *)
Lemma sorted_pairs {A} (P : A → A → Prop) l :
  StronglySorted P l ↔ ∀ l1 a l2 b l3, l = l1 ++ a :: l2 ++ b :: l3 → P a b.
Proof.
  split.
  - intros Hs. induction Hs as [|x l Hs IH Hx]; intros l1 a l2 b l3 Heq; [by destruct l1|].
    destruct l1 as [|y l1]; simpl in Heq; injection Heq as -> ->; [|by eapply IH].
    rewrite Forall_forall in Hx. apply Hx. set_solver.
  - intros Hp. induction l as [|x l IH]; constructor.
    + apply IH. intros l1 a l2 b l3 ->. by apply (Hp (x :: l1) a l2 b l3).
    + apply Forall_forall. intros y (l1 & l2 & ->)%list_elem_of_split. by apply (Hp [] x l1 y l2).
Qed.

Section decide.
Context {Inp Out St : Type} `{SortByTime} (model : Full Inp Out St).
Abbreviation Operation := (Operation Inp Out).
Implicit Types (history ops : list Operation).

(** [σ] lists indices of operations of [history], [ops] the operations. *)
Definition names history (σ : list Z) ops : Prop := Forall2 (λ k o, index history k = Some o) σ ops.

Lemma names_all history : names history (zrange 0 (zlen history)) history.
Proof.
  apply Forall2_same_length_lookup. unfold zrange. rewrite Z.sub_0_r. split.
  { rewrite length_seqZ. lia. }
  intros i k o [-> _]%lookup_seqZ Ho. apply index_Some. rewrite Z.add_0_l, Nat2Z.id. split; [lia|done].
Qed.

Lemma names_perm history σ σ' ops : names history σ ops → σ ≡ₚ σ' → ∃ ops', names history σ' ops' ∧ ops ≡ₚ ops'.
Proof.
  intros Hn Hp. revert ops Hn. induction Hp as [|k σ σ' Hp IH|j k σ|σ σ' σ'' Hp1 IH1 Hp2 IH2]; intros ops Hn.
  - inversion Hn; subst. exists []. by split.
  - inversion Hn as [|? o ? ops1 Ho Hn1]; subst. destruct (IH ops1 Hn1) as (ops' & ? & ?). exists (o :: ops'). split; [by constructor|by f_equiv].
  - inversion Hn as [|? o ? ops1 Ho Hn1]; subst. inversion Hn1 as [|? o' ? ops2 Ho' Hn2]; subst.
    exists (o' :: o :: ops2). split; [by repeat constructor|apply Permutation_swap].
  - destruct (IH1 ops Hn) as (o1 & ? & ?). destruct (IH2 o1) as (o2 & ? & ?); [done|]. exists o2. split; [done|by etrans].
Qed.

Lemma names_perm_r history σ ops ops' : names history σ ops → ops ≡ₚ ops' → ∃ σ', names history σ' ops' ∧ σ ≡ₚ σ'.
Proof.
  intros Hn Hp. revert σ Hn. induction Hp as [|o ops ops' Hp IH|o o' ops|ops ops' ops'' Hp1 IH1 Hp2 IH2]; intros σ Hn.
  - inversion Hn; subst. exists []. by split.
  - inversion Hn as [|k ? σ1 ? Ho Hn1]; subst. destruct (IH σ1 Hn1) as (σ' & ? & ?). exists (k :: σ'). split; [by constructor|by f_equiv].
  - inversion Hn as [|k ? σ1 ? Ho Hn1]; subst. inversion Hn1 as [|k' ? σ2 ? Ho' Hn2]; subst.
    exists (k' :: k :: σ2). split; [by repeat constructor|apply Permutation_swap].
  - destruct (IH1 σ Hn) as (o1 & ? & ?). destruct (IH2 o1) as (o2 & ? & ?); [done|]. exists o2. split; [done|by etrans].
Qed.

Lemma names_replay history σ ops st : names history σ ops → replay model (opio_of history) st σ = accept model st ops.
Proof.
  intros Hn. revert st. induction Hn as [|k o σ ops Ho Hn IH]; intros st; [done|]. simpl.
  assert (opio_of history k = Some (Input o, Output o)) as -> by (unfold opio_of; by rewrite Ho). simpl. destruct (Step model st (Input o) (Output o)) as [[] st']; [apply IH|done].
Qed.

Lemma names_order history σ ops :
  names history σ ops →
  StronglySorted (λ a b, ~ before (R b) (C a) (item_of <$> makeEntries history)) σ ↔ StronglySorted may_precede ops.
Proof.
  intros Hn. induction Hn as [|k o σ ops Ho Hn IH]; [split; constructor|].
  assert (∀ j p, index history j = Some p →
    ~ before (R j) (C k) (item_of <$> makeEntries history) ↔ may_precede o p) as Hpair.
  { intros j p Hp. rewrite (before_make history k j o p) by done. unfold may_precede. lia. }
  assert (Forall (λ b, ~ before (R b) (C k) (item_of <$> makeEntries history)) σ ↔ Forall (may_precede o) ops) as Hall.
  { clear IH. induction Hn as [|j p σ ops Hp Hn IH]; [split; constructor|]. rewrite !Forall_cons, IH, (Hpair j p Hp). done. }
  split; intros Hs; inversion Hs; subst; constructor; (by apply IH) || (by apply Hall).
Qed.

Lemma calls_of_make history : calls_of (item_of <$> makeEntries history) ≡ₚ zrange 0 (zlen history).
Proof.
  unfold calls_of. rewrite make_perm, raw_items. apply reflexive_eq.
  induction (zrange 0 (zlen history)) as [|k l IH]; [done|]. csimpl. by f_equal.
Qed.

Lemma linearizes_ops history st :
  (∃ σ, linearizes model (opio_of history) (item_of <$> makeEntries history) st σ) ↔
  ∃ ops, ops ≡ₚ history ∧ is_Some (accept model st ops) ∧ StronglySorted may_precede ops.
Proof.
  split.
  - intros (σ & [Hp Hleg Ho]). rewrite calls_of_make in Hp.
    destruct (names_perm history _ σ history (names_all history)) as (ops & Hn & Hperm); [done|]. exists ops.
    split_and!; [done|by rewrite <-(names_replay history σ)|]. apply (names_order history σ); [done|]. by apply sorted_pairs.
  - intros (ops & Hp & Hleg & Ho).
    destruct (names_perm_r history _ history ops (names_all history)) as (σ & Hn & Hperm); [done|]. exists σ. split.
    + by rewrite calls_of_make.
    + by rewrite (names_replay history σ ops).
    + intros l1 a l2 b l3 Hσ. revert l1 a l2 b l3 Hσ. apply sorted_pairs. by apply (names_order history σ ops).
Qed.

(** [checkSingle] on one partition. *)
Lemma single_decides history computePartial :
  (∀ s s', Equal model s s' = true → s = s') → complete history →
  ∃ b sq lg N, (∀ fuel, (N ≤ fuel)%nat →
      checkSingle model fuel (makeEntries history) computePartial (λ _, false) = Some (b, (sq, lg))) ∧
    cells_ok model (opio_of history) (zlen history) sq lg ∧ (b = true ↔ linearizable model history).
Proof.
  intros Heq Hc. pose proof (makeEntries_ok history Hc) as Hok.
  destruct (checkSingle_decides model Heq (opio_of history) (makeEntries history) computePartial Hok)
    as (b & sq & lg & N & Hf & Hlg & Hb).
  assert (zlen (makeEntries history) / 2 = zlen history) as Hn.
  { rewrite make_perm, raw_length, Z.mul_comm. by apply Z.div_mul. }
  rewrite Hn in Hlg. exists b, sq, lg, N. split_and!; [exact Hf|done|]. rewrite Hb. unfold linearizable. rewrite <-linearizes_ops.
  pose proof (eo_wfe _ _ Hok) as Hw.
  split; intros [σ Hσ]; exists σ; [by apply Lin_linearizes|by apply linearizes_Lin].
Qed.
End decide.
