(* ===== verification/PorcupineParallel.v ===== *)
(** * Combining the partitions, and drawing the result

    The verdict of [selectLoop] does not depend on the order in which partitions finish; the partial
    linearizations that are collected are accepted by the model, so that drawing them cannot
    panic. *)
From S2P Require Import Prelude Bitset Porcupine PorcupineList PorcupineSearch PorcupineHistory PorcupineOps.
Import Checker.

Abbreviation outcome := (bool * (list (list Z) * list (option nat)))%type.

Section select.
Context (single : nat → option outcome) (len : nat) (b : nat → bool).
Context (Hsingle : ∀ i o, single i = Some o → (i < len)%nat ∧ o.1 = b i).
Context (computeInfo : bool) (timeout : Z).

Record heard_ok (ok : bool) (heard : list nat) : Prop := {
  hd_nodup : NoDup heard;
  hd_range i : i ∈ heard → (i < len)%nat;
  hd_ok : ok = true ↔ ∀ i, i ∈ heard → b i = true;
}.

Lemma select_sound sigs ok heard ok' timedOut heard' :
  heard_ok ok heard → selectLoop single len computeInfo timeout ok heard sigs = Some (ok', timedOut, heard') →
  heard_ok ok' heard' ∧ (timedOut = true → 0 < timeout) ∧
  (ok' = true ∨ computeInfo = true → timedOut = false → (len ≤ length heard')%nat).
Proof.
  revert ok heard. induction sigs as [|[i|] sigs IH]; intros ok heard Hh; simpl; [done| |].
  - case_bool_decide as Hin; [done|]. intros ([result r] & Hs & Hrun)%bind_Some.
    destruct (Hsingle i _ Hs) as [Hi Hr]. simpl in Hr. subst result.
    assert (heard_ok (ok && b i) (heard ++ [i])) as Hh'.
    { destruct Hh as [Hnd Hrange Hok]. split.
      - apply NoDup_app. split_and!; [done|set_solver|repeat constructor; set_solver].
      - intros j [?|Hj]%elem_of_app; [auto|]. apply list_elem_of_singleton in Hj as ->. done.
      - rewrite andb_true_iff, Hok. setoid_rewrite elem_of_app. setoid_rewrite list_elem_of_singleton. naive_solver. }
    destruct (negb (ok && b i) && negb computeInfo) eqn:Hbreak.
    { injection Hrun as <- <- <-. split_and!; [done|done|]. intros [Hx|Hx]; rewrite Hx in Hbreak; simpl in Hbreak; [done|].
      by rewrite andb_false_r in Hbreak. }
    destruct (len <=? length (heard ++ [i]))%nat eqn:Hlen; [|by eapply IH].
    injection Hrun as <- <- <-. split_and!; [done|done|]. intros _ _. by apply Nat.leb_le.
  - destruct (0 <? timeout) eqn:Ht; [|done]. intros [= <- <- <-]. split_and!; [done|lia|done].
Qed.

(** Everything heard of is everything there is. *)
Lemma heard_all ok heard i : heard_ok ok heard → (len ≤ length heard)%nat → (i < len)%nat → i ∈ heard.
Proof.
  intros [Hnd Hr _] Hlen Hi. assert (heard ⊆+ seq 0 len) as Hsub.
  { apply NoDup_submseteq; [done|]. intros j Hj%Hr. apply elem_of_seq. lia. }
  assert (heard ≡ₚ seq 0 len) as ->; [|apply elem_of_seq; lia].
  apply submseteq_length_Permutation; [done|]. by rewrite length_seq.
Qed.

Lemma select_total order ok heard :
  (∀ i, (i < len)%nat → is_Some (single i)) → order ≠ [] → heard ++ order ≡ₚ seq 0 len →
  ∃ ok' heard', selectLoop single len computeInfo timeout ok heard (Done <$> order) = Some (ok', false, heard').
Proof.
  clear Hsingle b. intros Hs. revert ok heard. induction order as [|i order IH]; intros ok heard Hne Hp; [done|]. simpl.
  assert (i ∈ seq 0 len) as Hi by (rewrite <-Hp; set_solver). apply elem_of_seq in Hi.
  assert (NoDup (heard ++ i :: order)) as (_ & Hd & _)%NoDup_app by (rewrite Hp; apply NoDup_seq).
  rewrite bool_decide_eq_false_2 by (intros Hin; apply (Hd _ Hin); left).
  destruct (Hs i) as [[r x] Hr]; [lia|]. rewrite Hr. simpl.
  destruct (negb (ok && r) && negb computeInfo); [by eexists _, _|].
  destruct (len <=? length (heard ++ [i]))%nat eqn:Hlen; [by eexists _, _|]. apply Nat.leb_gt in Hlen.
  apply IH; [|by rewrite <-app_assoc]. intros ->. apply Permutation_length in Hp. rewrite length_seq in Hp.
  rewrite length_app in *. simpl in *. lia.
Qed.
End select.

Section partitions.
Context {Inp Out St : Type} `{MapOrder} `{SortByTime} (model : Full Inp Out St).
Context (Hequal : ∀ s s', Equal model s s' = true → s = s').
Abbreviation Operation := (Operation Inp Out).
Implicit Types (parts : list (list Operation)).

(** Enough fuel for every partition. *)
Lemma parts_decide parts computePartial :
  Forall complete parts →
  ∃ N, ∀ fuel, (N ≤ fuel)%nat → ∀ sub, sub ∈ parts →
    ∃ b sq lg, checkSingle model fuel (makeEntries sub) computePartial (λ _, false) = Some (b, (sq, lg)) ∧
      cells_ok model (opio_of sub) (zlen sub) sq lg ∧ (b = true ↔ linearizable model sub).
Proof.
  induction 1 as [|sub parts Hc _ [N IH]]; [exists 0%nat; intros ? _ ? ?%elem_of_nil; done|].
  destruct (single_decides model sub computePartial Hequal Hc) as (b & sq & lg & N' & Hf & Hlg & Hb).
  exists (N `max` N')%nat. intros fuel Hfuel sub' [-> |Hin]%elem_of_cons; [|apply IH; [lia|done]].
  exists b, sq, lg. split_and!; [apply Hf; lia|done|done].
Qed.

(** The verdict of the partitions. *)
Lemma parallel_verdict parts fuel verbose timeout kill sigs res info :
  (∀ sub, sub ∈ parts → ∃ b r, checkSingle model fuel (makeEntries sub) verbose (λ _, false) = Some (b, r) ∧
     (b = true ↔ linearizable model sub)) →
  checkParallel model fuel (makeEntries <$> parts) verbose timeout kill sigs = Some (res, info) →
  match res with
  | Ok => ∀ sub, sub ∈ parts → linearizable model sub
  | Illegal => ∃ sub, sub ∈ parts ∧ ~ linearizable model sub
  | Unknown => 0 < timeout
  end.
Proof.
  intros Hdec. unfold checkParallel. intros ([[ok timedOut] heard] & Hsel & (inf & _ & [= <- _])%bind_Some)%bind_Some.
  rewrite length_fmap in Hsel.
  set (single := λ i, h ← (makeEntries <$> parts) !! i; checkSingle model fuel h verbose (λ _, false)) in *.
  set (b := λ i, match single i with Some o => o.1 | None => false end).
  assert (∀ i o, single i = Some o → (i < length parts)%nat ∧ o.1 = b i) as Hs.
  { intros i o Ho. unfold b. rewrite Ho. split; [|done]. unfold single in Ho. apply bind_Some in Ho as (h & Hh & _).
    apply lookup_lt_Some in Hh. by rewrite length_fmap in Hh. }
  assert (∀ i sub, parts !! i = Some sub → b i = true ↔ linearizable model sub) as Hb.
  { intros i sub Hi. destruct (Hdec sub) as (v & r & Hv & Hlin); [by eapply list_elem_of_lookup_2|].
    unfold b, single. rewrite list_lookup_fmap, Hi. simpl. rewrite Hv. done. }
  destruct (select_sound single (length parts) b Hs verbose timeout sigs true [] ok timedOut heard) as (Hh & Ht & Hl);
    [split; [constructor|by intros ? ?%elem_of_nil|split; [by intros _ ? ?%elem_of_nil|done]]|exact Hsel|].
  destruct ok; simpl.
  - destruct timedOut; [by apply Ht|]. intros sub [i Hi]%list_elem_of_lookup. apply (Hb i sub Hi).
    apply (hd_ok _ _ _ _ Hh); [done|]. eapply heard_all; [done|by apply Hl; [left|]|by eapply lookup_lt_Some].
  - assert (∃ i, i ∈ heard ∧ b i = false) as (i & Hi & Hbi).
    { destruct (decide (Forall (λ i, b i = true) heard)) as [Hall|Hex].
      - rewrite Forall_forall in Hall. by apply (hd_ok _ _ _ _ Hh) in Hall.
      - apply not_Forall_Exists in Hex; [|apply _]. apply Exists_exists in Hex as (i & Hi & Hbi). exists i.
        split; [done|]. simpl in Hbi. by destruct (b i). }
    pose proof (hd_range _ _ _ _ Hh i Hi) as Hlt. destruct (lookup_lt_is_Some_2 parts i Hlt) as [sub Hsub].
    exists sub. split; [by eapply list_elem_of_lookup_2|]. rewrite <-(Hb i sub Hsub), Hbi. done.
Qed.

Lemma parallel_total parts fuel timeout kill order :
  (∀ sub, sub ∈ parts → is_Some (checkSingle model fuel (makeEntries sub) false (λ _, false))) →
  parts ≠ [] → order ≡ₚ seq 0 (length parts) →
  ∃ res info, checkParallel model fuel (makeEntries <$> parts) false timeout kill (Done <$> order) = Some (res, info) ∧ res ≠ Unknown.
Proof.
  intros Hdec Hne Hp. unfold checkParallel. rewrite length_fmap.
  set (single := λ i, h ← (makeEntries <$> parts) !! i; checkSingle model fuel h false (λ _, false)).
  destruct (select_total single (length parts) false timeout order true []) as (ok & heard & Hsel); [| |done|].
  - intros i Hi. destruct (lookup_lt_is_Some_2 parts i Hi) as [sub Hsub]. unfold single.
    rewrite list_lookup_fmap, Hsub. simpl. apply Hdec. by eapply list_elem_of_lookup_2.
  - intros ->. apply Permutation_nil_l in Hp. destruct parts; [done|]. discriminate Hp.
  - rewrite Hsel. simpl. eexists _, _. split; [done|]. by destruct ok.
Qed.
End partitions.

(** ** The partial linearizations *)
Section partials.
Context {Inp Out St : Type} `{MapOrder} (model : Full Inp Out St) (opio : Z → option (Inp * Out)).

Lemma ptrs_elem (lg : list (option nat)) (m : gmap nat unit) p :
  is_Some (foldl (λ set v, match v with Some p => <[p := tt]> set | None => set end) m lg !! p) →
  Some p ∈ lg ∨ is_Some (m !! p).
Proof.
  revert m. induction lg as [|v lg IH]; intros m; simpl; [by right|]. intros [?|Hm]%IH; [left; by right|].
  destruct v as [q|]; [|by right]. destruct (decide (p = q)) as [-> |Hne]; [left; left|].
  rewrite lookup_insert_ne in Hm by done. by right.
Qed.

Lemma uniquePartials_legal n b sq lg :
  cells_ok model opio n sq lg →
  ∃ partials, uniquePartials (b, (sq, lg)) = Some partials ∧ Forall (legal model opio) partials.
Proof.
  intros [_ Hp]. unfold uniquePartials. set (ptrs := foldl _ ∅ lg).
  assert (∀ kv, kv ∈ map_order ptrs → ∃ ids, sq !! kv.1 = Some ids ∧ legal model opio ids) as Hall.
  { intros [p []] Hin. rewrite map_order_perm in Hin. apply elem_of_map_to_list in Hin. apply Hp.
    destruct (ptrs_elem lg ∅ p) as [?|[? Hx]]; [by eexists|done|]. by rewrite lookup_empty in Hx. }
  induction (map_order ptrs) as [|kv l IH]; [by exists []|]. simpl.
  destruct (Hall kv) as (ids & -> & Hids); [left|]. simpl. destruct IH as (partials & -> & Hl); [set_solver|].
  exists (ids :: partials). split; [done|by constructor].
Qed.

(** Drawing one partial linearization. *)
Lemma visualPartial_total cv rv i len st partial li ls :
  (∀ k a o, opio k = Some (a, o) → cv !! k = Some a ∧ rv !! k = Some o) →
  is_Some (replay model opio st partial) → is_Some (visualPartial model cv rv i len st partial li ls).
Proof.
  intros Hv. revert st li ls. induction partial as [|k partial IH]; intros st li ls; simpl; [by eexists|].
  destruct (opio k) as [[a o]|] eqn:Hk; [|by intros [? ?]]. destruct (Hv k a o Hk) as [-> ->]. simpl.
  destruct (Step model st a o) as [[] st'] eqn:Hs; [|by intros [? ?]]. simpl. intros Hr.
  edestruct (IH st') as [[[steps li'] ls'] ->]; [done|]. simpl. by eexists.
Qed.

Lemma visualPartials_total cv rv i partials li ls :
  (∀ k a o, opio k = Some (a, o) → cv !! k = Some a ∧ rv !! k = Some o) →
  Forall (legal model opio) partials → is_Some (visualPartials model cv rv i partials li ls).
Proof.
  intros Hv Hl. revert i li ls. induction Hl as [|p partials Hp Hl IH]; intros i li ls; simpl; [by eexists|].
  destruct (visualPartial_total cv rv i (zlen p) (Init model) p li ls Hv Hp) as [[[steps li'] ls'] ->]. simpl.
  destruct (IH (i + 1) li' ls') as [[rest li''] ->]. simpl. by eexists.
Qed.

(** The loop over the entries finds the value of every call and return. *)
Lemma visualEntries_total es pre suf :
  entries_ok opio es → es = pre ++ suf →
  ∃ hist cv rv,
    foldl (λ acc elem, s ← acc; visualEntry model s elem) (Some (replicate (Z.to_nat (zlen es / 2)) noElement, ∅, ∅)) pre =
      Some (hist, cv, rv) ∧ length hist = Z.to_nat (zlen es / 2) ∧
    ∀ e, e ∈ pre → ∃ a o, opio (id e) = Some (a, o) ∧
      match kind e with callEntry => cv !! id e = Some a | returnEntry => rv !! id e = Some o end.
Proof.
  intros Hes. revert suf. induction pre as [|e pre IH] using rev_ind; intros suf Heq.
  { exists (replicate (Z.to_nat (zlen es / 2)) noElement), ∅, ∅. rewrite length_replicate. split_and!; [done|done|by intros ? ?%elem_of_nil]. }
  rewrite <-app_assoc in Heq. destruct (IH ([e] ++ suf) Heq) as (hist & cv & rv & Hf & Hlen & Hall).
  assert (e ∈ es) as He by (rewrite Heq; set_solver). destruct (eo_value _ _ Hes e He) as (a & o & Hio & Hv).
  pose proof (eo_id _ _ Hes e He) as Hid. rewrite foldl_app, Hf. simpl. unfold visualEntry.
  destruct (index_total hist (id e)) as [x Hx]; [lia|]. rewrite Hx. simpl. destruct (kind e) eqn:Hk; rewrite Hv.
  - rewrite set_index_Some by lia. simpl. eexists _, _, rv. split; [done|]. rewrite length_insert. split; [done|].
    intros e' [He'|He']%elem_of_app.
    + destruct (Hall e' He') as (a' & o' & Hio' & Hc). exists a', o'. split; [done|]. destruct (kind e'); [|done].
      destruct (decide (id e' = id e)) as [Hie|Hne]; [|by rewrite lookup_insert_ne].
      rewrite Hie in *. rewrite lookup_insert_eq. congruence.
    + apply list_elem_of_singleton in He' as ->. exists a, o. rewrite Hk, lookup_insert_eq. done.
  - assert (cv !! id e = Some a) as Hcv.
    { assert (C (id e) ∈ item_of <$> pre) as (c & Hc & Hin)%list_elem_of_fmap.
      { apply (wfe_order _ (eo_wfe _ _ Hes) _ _ (item_of <$> suf)). rewrite Heq, fmap_app. f_equal. csimpl.
        f_equal. unfold item_of. by rewrite Hk. }
      unfold item_of in Hc. destruct (Hall c Hin) as (a' & o' & Hio' & Hcv). destruct (kind c); [|done].
      injection Hc as Hc. rewrite <-Hc, Hio in Hio'. injection Hio' as <- <-. by rewrite Hc. }
    rewrite Hcv. simpl. rewrite set_index_Some by lia. simpl. eexists _, cv, _. split; [done|]. rewrite length_insert.
    split; [done|]. intros e' [He'|He']%elem_of_app.
    + destruct (Hall e' He') as (a' & o' & Hio' & Hc). exists a', o'. split; [done|]. destruct (kind e'); [done|].
      destruct (decide (id e' = id e)) as [Hie|Hne]; [|by rewrite lookup_insert_ne].
      rewrite Hie in *. rewrite lookup_insert_eq. congruence.
    + apply list_elem_of_singleton in He' as ->. exists a, o. rewrite Hk, lookup_insert_eq. done.
Qed.

End partials.

Section draw.
Context {Inp Out St : Type} `{MapOrder} `{SortByTime} (model : Full Inp Out St).
Context (sort_partials : list (list Z) → list (list Z)) (sort_partials_perm : ∀ l, sort_partials l ≡ₚ l).

Lemma visualPartition_total (sub : list (Operation Inp Out)) partials :
  complete sub → Forall (legal model (opio_of sub)) partials →
  is_Some (visualPartition sort_partials model (makeEntries sub) partials).
Proof.
  intros Hc Hl. pose proof (makeEntries_ok sub Hc) as Hes. unfold visualPartition.
  destruct (visualEntries_total model _ _ (makeEntries sub) [] Hes) as (hist & cv & rv & -> & _ & Hall); [by rewrite app_nil_r|].
  simpl. destruct (visualPartials_total model (opio_of sub) cv rv 0 (sort_partials partials) ∅ ∅) as [[lin li] ->].
  - intros k a o Hk. unfold opio_of in Hk. apply fmap_Some in Hk as (op & Hop & [= -> ->]).
    destruct (Hall (callE k op)) as (a' & o' & Hio & Hcv); [apply elem_of_make; eauto|].
    destruct (Hall (retE k op)) as (a2 & o2 & Hio2 & Hrv); [apply elem_of_make; eauto|].
    simpl in Hio, Hio2, Hcv, Hrv. unfold opio_of in Hio, Hio2. rewrite Hop in Hio, Hio2. by simplify_eq/=.
  - by rewrite sort_partials_perm.
  - simpl. by eexists.
Qed.

End draw.

Lemma mapM_build {A B} (f : A → option B) (P : A → B → Prop) l :
  (∀ x, x ∈ l → ∃ y, f x = Some y ∧ P x y) → ∃ ys, mapM f l = Some ys ∧ Forall2 P l ys.
Proof.
  induction l as [|x l IH]; intros Hl; [by exists []|]. destruct (Hl x) as (y & Hy & Hp); [left|].
  destruct IH as (ys & Hys & Hps); [set_solver|]. exists (y :: ys). simpl. rewrite Hy. simpl. rewrite Hys. simpl.
  split; [done|by constructor].
Qed.

Section verbose.
Context {Inp Out St : Type} `{MapOrder} `{SortByTime} (model : Full Inp Out St).

(** A verbose check that has heard of every partition. *)
Lemma parallel_verbose (parts : list (list (Operation Inp Out))) fuel kill order :
  (∀ sub, sub ∈ parts → ∃ b sq lg, checkSingle model fuel (makeEntries sub) true (λ _, false) = Some (b, (sq, lg)) ∧
     cells_ok model (opio_of sub) (zlen sub) sq lg) →
  parts ≠ [] → order ≡ₚ seq 0 (length parts) →
  ∃ res partials, checkParallel model fuel (makeEntries <$> parts) true 0 kill (Done <$> order) =
      Some (res, mkInfo (makeEntries <$> parts) partials) ∧
    Forall2 (λ i ps, ∀ sub, parts !! i = Some sub → Forall (legal model (opio_of sub)) ps) (seq 0 (length parts)) partials.
Proof.
  intros Hdec Hne Hp. unfold checkParallel. rewrite length_fmap.
  set (single := λ kill i, h ← (makeEntries <$> parts) !! i; checkSingle model fuel h true kill).
  set (b := λ i, match single (λ _, false) i with Some o => o.1 | None => false end).
  assert (∀ i sub, parts !! i = Some sub → single (λ _, false) i = checkSingle model fuel (makeEntries sub) true (λ _, false)) as Hsub.
  { intros i sub Hi. unfold single. by rewrite list_lookup_fmap, Hi. }
  destruct (select_total (single (λ _, false)) (length parts) true 0 order true []) as (ok & heard & Hsel); [| |done|].
  { intros i Hi. destruct (lookup_lt_is_Some_2 parts i Hi) as [sub Hs]. rewrite (Hsub i sub Hs).
    destruct (Hdec sub) as (? & ? & ? & -> & _); [by eapply list_elem_of_lookup_2|by eexists]. }
  { intros ->. apply Permutation_nil_l in Hp. destruct parts; [done|]. discriminate Hp. }
  match goal with |- context [selectLoop ?f] => change f with (single (λ _, false)) end. rewrite Hsel. simpl.
  destruct (select_sound (single (λ _, false)) (length parts) b) with true 0 (Done <$> order) true (@nil nat) ok false heard
    as (Hh & _ & Hl); [| |exact Hsel|].
  { intros i o Ho. unfold b. rewrite Ho. split; [|done]. unfold single in Ho. apply bind_Some in Ho as (h & Hx & _).
    apply lookup_lt_Some in Hx. by rewrite length_fmap in Hx. }
  { split; [constructor|by intros ? ?%elem_of_nil|split; [by intros _ ? ?%elem_of_nil|done]]. }
  specialize (Hl (or_intror eq_refl) eq_refl).
  edestruct (mapM_build (λ i, o ← (if bool_decide (i ∈ heard) then single (λ _, false) i else single (kill i) i); uniquePartials o)
    (λ i ps, ∀ sub, parts !! i = Some sub → Forall (legal model (opio_of sub)) ps) (seq 0 (length parts))) as (partials & Hm & Hps).
  { intros i Hi%elem_of_seq. destruct (lookup_lt_is_Some_2 parts i) as [sub Hs]; [lia|].
    rewrite bool_decide_eq_true_2 by (eapply heard_all; [done|done|lia]). rewrite (Hsub i sub Hs).
    destruct (Hdec sub) as (v & sq & lg & -> & Hlg); [by eapply list_elem_of_lookup_2|]. simpl.
    destruct (uniquePartials_legal model (opio_of sub) _ v sq lg Hlg) as (ps & Hps & Hleg). exists ps.
    split; [exact Hps|]. intros sub' Hs'. rewrite Hs in Hs'. by injection Hs' as <-. }
  cbv beta delta [single] in Hm. rewrite Hm. simpl. by eexists _, partials.
Qed.
End verbose.
