(* ===== verification/KVModel.v ===== *)
(** * The key/value model of the checker ([models/kv.go])

    Histories are partitioned by key and every partition is checked against the value of one key.
    [MapSpec] is the specification over all keys. *)
From S2P Require Import Prelude Porcupine.

Record KvInput := mkKvInput { Op : Z; KvKey : string; KvValue : string }.
Record KvOutput := mkKvOutput { OutValue : string }.
#[export] Instance KvInput_eq_dec : EqDecision KvInput.
Proof. solve_decision. Defined.
#[export] Instance KvOutput_eq_dec : EqDecision KvOutput.
Proof. solve_decision. Defined.

Abbreviation KvOperation := (Operation KvInput KvOutput).
Definition key_of (v : KvOperation) : string := KvKey (Input v).

Module KvModel.

(** [sort.Strings]. *)
Definition sortStrings (keys : list string) : list string := merge_sort String.le keys.

Section partition.
Context `{MapOrder}.

Definition group (history : list KvOperation) : gmap string (list KvOperation) :=
  foldl (λ m v, <[key_of v := default [] (m !! key_of v) ++ [v]]> m) ∅ history.
Definition Partition (history : list KvOperation) : list (list KvOperation) :=
  let m := group history in
  let keys := sortStrings (fst <$> map_order m) in
  (λ k, default [] (m !! k)) <$> keys.
End partition.

Definition Init : string := "".

Definition Step (st : string) (inp : KvInput) (out : KvOutput) : bool * string :=
  if Op inp =? 0 then (bool_decide (OutValue out = st), st)
  else if Op inp =? 1 then (true, KvValue inp)
  else (true, st +:+ KvValue inp).

Definition DescribeOperation (inp : KvInput) (out : KvOutput) : string :=
  if Op inp =? 0 then "get('" +:+ KvKey inp +:+ "') -> '" +:+ OutValue out +:+ "'"
  else if Op inp =? 1 then "put('" +:+ KvKey inp +:+ "', '" +:+ KvValue inp +:+ "')"
  else if Op inp =? 2 then "append('" +:+ KvKey inp +:+ "', '" +:+ KvValue inp +:+ "')"
  else "<invalid>".

Definition KvModel `{MapOrder} : Model KvInput KvOutput string :=
  mkModel (Some Partition) None Init Step None (Some DescribeOperation) None.
End KvModel.

(** The specification of the store as a whole. *)
Module MapSpec.
Definition Step (st : gmap string string) (inp : KvInput) (out : KvOutput) : bool * gmap string string :=
  let v := default ""%string (st !! KvKey inp) in
  if Op inp =? 0 then (bool_decide (OutValue out = v), st)
  else if Op inp =? 1 then (true, <[KvKey inp := KvValue inp]> st)
  else (true, <[KvKey inp := v +:+ KvValue inp]> st).
Definition Model : Model KvInput KvOutput (gmap string string) := mkModel None None ∅ Step None None None.
End MapSpec.
