(* ===== verification/KVModelProofs.v ===== *)
(** * Partitioning by key is sound and complete

    A history of the store is linearizable exactly when the operations on every key are
    ([partition_local]).  Linearizations of the keys are merged by linearization points: every
    operation gets a point between its invocation and its return, in the order of its key. *)
From S2P Require Import Prelude Bitset Porcupine PorcupineList PorcupineSearch PorcupineHistory PorcupineOps KVModel.
Import Checker.

Definition on_key (k : string) (ops : list KvOperation) : list KvOperation := filter (λ o, key_of o = k) ops.

(** ** [Partition] *)
Section group.
Context `{MapOrder}.

Lemma group_lookup history k : default [] (KvModel.group history !! k) = on_key k history.
Proof.
  unfold KvModel.group. induction history as [|v history IH] using rev_ind; [done|]. rewrite foldl_app. simpl.
  unfold on_key. rewrite filter_app, filter_cons, filter_nil. fold (on_key k history). case_decide as Hk.
  - subst k. by rewrite lookup_insert_eq, <-IH.
  - rewrite lookup_insert_ne by congruence. by rewrite IH, app_nil_r.
Qed.

Lemma group_dom history k : is_Some (KvModel.group history !! k) ↔ k ∈ key_of <$> history.
Proof.
  unfold KvModel.group. induction history as [|v history IH] using rev_ind.
  { simpl. rewrite lookup_empty. split; [by intros [? ?]|by intros ?%elem_of_nil]. }
  rewrite foldl_app, fmap_app, elem_of_app, <-IH. simpl. rewrite list_elem_of_singleton.
  destruct (decide (k = key_of v)) as [-> |Hne]; [rewrite lookup_insert_eq|rewrite lookup_insert_ne by congruence]; naive_solver.
Qed.

Lemma Partition_spec history :
  ∃ keys, KvModel.Partition history = (λ k, on_key k history) <$> keys ∧ NoDup keys ∧ StronglySorted String.le keys ∧
    ∀ k, k ∈ keys ↔ k ∈ key_of <$> history.
Proof.
  unfold KvModel.Partition, KvModel.sortStrings. set (ks := fst <$> map_order (KvModel.group history)).
  assert (ks ≡ₚ (map_to_list (KvModel.group history)).*1) as Hks by (unfold ks; by rewrite map_order_perm).
  exists (merge_sort String.le ks). split_and!.
  - apply list_fmap_ext. intros i k _. apply group_lookup.
  - rewrite merge_sort_Permutation, Hks. apply NoDup_fst_map_to_list.
  - apply StronglySorted_merge_sort; apply _.
  - intros k. rewrite merge_sort_Permutation, Hks, <-group_dom, list_elem_of_fmap. split.
    + intros ([k' v] & -> & Hin%elem_of_map_to_list). by eexists.
    + intros [v Hv]. exists (k, v). split; [done|by apply elem_of_map_to_list].
Qed.
End group.

(** ** Running the store and running the keys *)
Section models.
Context `{MapOrder} `{Sprint KvInput} `{Sprint KvOutput} `{Sprint string} `{Sprint (gmap string string)}.
Abbreviation kv := (fillDefault KvModel.KvModel).
Abbreviation store := (fillDefault MapSpec.Model).
Implicit Types (ops history : list KvOperation) (st : gmap string string).

(** One step of the store is one step of its key. *)
Lemma step_store st inp out :
  let '(ok, st') := MapSpec.Step st inp out in
  KvModel.Step (default ""%string (st !! KvKey inp)) inp out = (ok, default ""%string (st' !! KvKey inp)) ∧
  ∀ k, k ≠ KvKey inp → st' !! k = st !! k.
Proof.
  unfold MapSpec.Step, KvModel.Step. destruct (Op inp =? 0); [done|]. destruct (Op inp =? 1);
    (split; [by rewrite lookup_insert_eq|]; intros k Hk; by rewrite lookup_insert_ne).
Qed.

Lemma accept_store ops st :
  is_Some (accept store st ops) ↔ ∀ k, is_Some (accept kv (default ""%string (st !! k)) (on_key k ops)).
Proof.
  revert st. induction ops as [|o ops IH]; intros st; [split; [by eexists|by eexists]|]. cbn [accept].
  pose proof (step_store st (Input o) (Output o)) as Hs. simpl Step. change (Porcupine.Step store) with MapSpec.Step.
  destruct (MapSpec.Step st (Input o) (Output o)) as [ok st'] eqn:Hstep. destruct Hs as [Hk Hne].
  assert (∀ k, on_key k (o :: ops) = if decide (key_of o = k) then o :: on_key k ops else on_key k ops) as Hcons by done.
  destruct ok.
  - rewrite IH. split; intros Hall k; specialize (Hall k); rewrite Hcons in *; case_decide as Hd.
    + subst k. cbn [accept]. change (Porcupine.Step kv) with KvModel.Step. unfold key_of. by rewrite Hk.
    + by rewrite <-Hne by (unfold key_of in Hd; congruence).
    + subst k. cbn [accept] in Hall. change (Porcupine.Step kv) with KvModel.Step in Hall. unfold key_of in *. by rewrite Hk in Hall.
    + by rewrite Hne by (unfold key_of in Hd; congruence).
  - split; [by intros [? ?]|]. intros Hall. specialize (Hall (key_of o)). rewrite Hcons, decide_True in Hall by done.
    cbn [accept] in Hall. change (Porcupine.Step kv) with KvModel.Step in Hall. unfold key_of in Hall. by rewrite Hk in Hall.
Qed.

(** ** Linearization points *)
Abbreviation pointed := (KvOperation * Z)%type.
Definition by_point (a b : pointed) : Prop := a.2 ≤ b.2.
Definition in_interval (x : pointed) : Prop := Call x.1 ≤ x.2 ≤ Return x.1.

Lemma points ops m :
  StronglySorted may_precede ops → Forall (λ o, Call o ≤ Return o ∧ m ≤ Return o) ops →
  ∃ pl : list pointed, fst <$> pl = ops ∧ StronglySorted by_point pl ∧ Forall (λ x, in_interval x ∧ m ≤ x.2) pl.
Proof.
  intros Hs. revert m. induction Hs as [|o ops Hs IH Ho]; intros m Hm; [exists []; split_and!; constructor|].
  apply Forall_cons in Hm as [[Hcr Hmr] Hm]. destruct (IH (Z.max m (Call o))) as (pl & Hpl & Hsp & Hint).
  { rewrite Forall_forall in Ho, Hm |- *. intros x Hx. specialize (Ho x Hx). specialize (Hm x Hx). unfold may_precede in Ho. lia. }
  exists ((o, Z.max m (Call o)) :: pl). split_and!.
  - by rewrite fmap_cons, Hpl.
  - constructor; [done|]. eapply Forall_impl; [exact Hint|]. unfold by_point. simpl. intros x [_ ?]. lia.
  - constructor; [unfold in_interval; simpl; lia|]. eapply Forall_impl; [exact Hint|]. simpl. intros x [? ?]. split; [done|lia].
Qed.

Lemma points_order (pl : list pointed) :
  StronglySorted by_point pl → Forall in_interval pl → StronglySorted may_precede (fst <$> pl).
Proof.
  intros Hs. induction Hs as [|x pl Hs IH Hx]; intros Hi; [constructor|]. apply Forall_cons in Hi as [Hxi Hi].
  csimpl. constructor; [by apply IH|]. apply Forall_fmap. rewrite Forall_forall in Hx, Hi |- *. intros y Hy.
  specialize (Hx y Hy). specialize (Hi y Hy). unfold by_point, in_interval, may_precede in *. simpl. lia.
Qed.

Definition pkey (k : string) (pl : list pointed) : list pointed := filter (λ x, key_of x.1 = k) pl.

(** Merging two lists of operations on different keys. *)
Lemma merge_points (pl1 pl2 : list pointed) :
  StronglySorted by_point pl1 → StronglySorted by_point pl2 →
  (∀ x y, x ∈ pl1 → y ∈ pl2 → key_of x.1 ≠ key_of y.1) →
  ∃ pl, StronglySorted by_point pl ∧ pl ≡ₚ pl1 ++ pl2 ∧ ∀ k, pkey k pl = pkey k pl1 ++ pkey k pl2.
Proof.
  intros Hs1. revert pl2. induction Hs1 as [|x pl1 Hs1 IH1 Hx]; intros pl2 Hs2 Hd; [by exists pl2|].
  induction Hs2 as [|y pl2 Hs2 IH2 Hy].
  { exists (x :: pl1). rewrite app_nil_r. split_and!; [by constructor|done|]. intros k. by rewrite app_nil_r. }
  destruct (decide (x.2 ≤ y.2)) as [Hle|Hgt].
  - destruct (IH1 (y :: pl2)) as (pl & Hs & Hp & Hk); [by constructor|intros; apply Hd; set_solver|].
    exists (x :: pl). split_and!; [|by rewrite Hp|].
    + constructor; [done|]. rewrite Hp. apply Forall_app. split; [done|]. constructor; [done|].
      eapply Forall_impl; [exact Hy|]. unfold by_point. intros z. lia.
    + intros k. specialize (Hk k). unfold pkey in *. rewrite !filter_cons, Hk. by case_decide.
  - destruct IH2 as (pl & Hs & Hp & Hk); [intros; apply Hd; set_solver|].
    exists (y :: pl). split_and!.
    + constructor; [done|]. rewrite Hp. apply Forall_app. split; [|done]. constructor; [unfold by_point; lia|].
      eapply Forall_impl; [exact Hx|]. unfold by_point. intros z. lia.
    + by rewrite Hp, Permutation_middle.
    + intros k. specialize (Hk k). unfold pkey in *. rewrite (filter_cons _ y pl), (filter_cons _ y pl2), Hk.
      case_decide as Hyk; [|done]. enough (filter (λ z : pointed, key_of z.1 = k) (x :: pl1) = []) as -> by done.
      apply filter_drop. intros z Hz Hzk. apply (Hd z y); [done|left|congruence].
Qed.

Lemma fst_pkey k (pl : list pointed) : fst <$> pkey k pl = on_key k (fst <$> pl).
Proof.
  unfold pkey, on_key. induction pl as [|x pl IH]; [done|]. csimpl. rewrite !filter_cons. case_decide; csimpl; congruence.
Qed.

Lemma on_key_sorted k ops : StronglySorted may_precede ops → StronglySorted may_precede (on_key k ops).
Proof.
  induction 1 as [|o ops Hs IH Ho]; [constructor|]. unfold on_key. rewrite filter_cons. case_decide; [|done].
  constructor; [done|]. rewrite Forall_forall in Ho |- *. intros x [_ Hx]%list_elem_of_filter. auto.
Qed.

Lemma on_key_keys history keys :
  NoDup keys → (∀ k, k ∈ key_of <$> history → k ∈ keys) → (keys ≫= λ k, on_key k history) ≡ₚ history.
Proof.
  intros Hnd. induction history as [|o history IH]; intros Hall.
  { apply reflexive_eq. clear. induction keys; [done|]. by csimpl. }
  assert (key_of o ∈ keys) as Hin by (apply Hall; left). 
  trans (o :: (keys ≫= λ k, on_key k history)); [|rewrite IH by set_solver; done]. clear IH Hall.
  induction Hnd as [|k keys Hk Hnd IH]; [by apply elem_of_nil in Hin|]. csimpl. unfold on_key at 1. rewrite filter_cons.
  fold (on_key k history). case_decide as Hd.
  - simpl. f_equiv. apply reflexive_eq. f_equal. subst k. clear -Hk. induction keys as [|j keys IH]; [done|]. csimpl.
    rewrite IH by set_solver. f_equal. unfold on_key. rewrite filter_cons, decide_False; [done|]. set_solver.
  - rewrite IH by set_solver. by rewrite Permutation_middle.
Qed.

(** The keys in [keys], merged. *)
Lemma merge_keys history keys :
  Forall (λ o, Call o ≤ Return o) history → NoDup keys → (∀ k, k ∈ keys → linearizable kv (on_key k history)) →
  ∃ pl : list pointed, StronglySorted by_point pl ∧ Forall in_interval pl ∧
    (fst <$> pl) ≡ₚ (keys ≫= λ k, on_key k history) ∧
    ∀ k, is_Some (accept kv ""%string (on_key k (fst <$> pl))).
Proof.
  intros Hcr Hnd. induction Hnd as [|k keys Hk Hnd IH]; intros Hlin.
  { exists []. split_and!; [constructor|constructor|done|by eexists]. }
  destruct IH as (pl1 & Hs1 & Hi1 & Hp1 & Ha1); [intros; apply Hlin; set_solver|].
  destruct (Hlin k) as (ops & Hp & Hacc & Hs); [left|]. change (Porcupine.Init kv) with ""%string in Hacc.
  assert (∀ o, o ∈ ops → key_of o = k ∧ Call o ≤ Return o) as Hops.
  { intros o Ho. rewrite Hp in Ho. unfold on_key in Ho. apply list_elem_of_filter in Ho as [? Ho].
    rewrite Forall_forall in Hcr. auto. }
  assert (∃ m, Forall (λ o : KvOperation, Call o ≤ Return o ∧ m ≤ Return o) ops) as [m Hm].
  { clear -Hops. induction ops as [|o ops IH]; [by exists 0|]. destruct IH as [m Hm]; [intros; apply Hops; set_solver|].
    exists (Z.min m (Return o)). constructor; [split; [apply Hops; left|lia]|].
    eapply Forall_impl; [exact Hm|]. simpl. intros x [? ?]. split; [done|lia]. }
  destruct (points ops m Hs Hm) as (pl2 & Hf2 & Hs2 & Hi2).
  assert (∀ x, x ∈ pl2 → key_of x.1 = k) as Hk2 by (intros x Hx; apply Hops; rewrite <-Hf2; by apply list_elem_of_fmap_2).
  assert (∀ x, x ∈ pl1 → key_of x.1 ≠ k) as Hk1.
  { intros x Hx Hxk. apply Hk. apply (list_elem_of_fmap_2 fst) in Hx. rewrite Hp1, list_elem_of_bind in Hx.
    destruct Hx as (j & Hj & Hin). unfold on_key in Hj. apply list_elem_of_filter in Hj as [? _]. congruence. }
  destruct (merge_points pl2 pl1 Hs2 Hs1) as (pl & Hsp & Hpp & Hkp); [intros x y Hx%Hk2 Hy%Hk1; congruence|].
  exists pl. split_and!; [done| | |].
  - rewrite Hpp. apply Forall_app. split; [|done]. eapply Forall_impl; [exact Hi2|]. by intros x [? _].
  - rewrite Hpp, fmap_app, Hf2, Hp, Hp1. done.
  - intros j. rewrite <-fst_pkey, Hkp, fmap_app, !fst_pkey, Hf2. destruct (decide (j = k)) as [-> |Hne].
    + assert (on_key k ops = ops) as -> by (apply filter_keep; intros o Ho; by apply Hops).
      rewrite <-(fst_pkey k pl1). unfold pkey. rewrite (filter_drop (λ x : pointed, key_of x.1 = k) pl1 Hk1).
      by rewrite app_nil_r.
    + assert (on_key j ops = []) as ->; [|apply Ha1]. apply filter_drop. intros o [Ho _]%Hops. congruence.
Qed.

Lemma partition_local history :
  Forall (λ o, Call o ≤ Return o) history →
  linearizable store history ↔ ∀ sub, sub ∈ KvModel.Partition history → linearizable kv sub.
Proof.
  intros Hcr. destruct (Partition_spec history) as (keys & -> & Hnd & _ & Hkeys). split.
  - intros (ops & Hp & Hacc & Hs) sub (k & -> & _)%list_elem_of_fmap. exists (on_key k ops). split_and!.
    + unfold on_key. by rewrite Hp.
    + pose proof (proj1 (accept_store ops ∅) Hacc k) as Hk. exact Hk.
    + by apply on_key_sorted.
  - intros Hall. destruct (merge_keys history keys Hcr Hnd) as (pl & Hs & Hi & Hp & Ha).
    { intros k Hk. apply Hall. by apply (list_elem_of_fmap_2 (λ k, on_key k history)). }
    exists (fst <$> pl). split_and!; [|apply (accept_store _ ∅)|by apply points_order].
    + rewrite Hp. apply on_key_keys; [done|]. intros k. by rewrite Hkeys.
    + exact Ha.
Qed.
End models.
