(* ===== verification/PorcupineTheorems.v ===== *)
(** * What the linearizability checker guarantees *)
From stdpp Require Import pretty.
From S2P Require Import Prelude Bitset Porcupine PorcupineList PorcupineSearch PorcupineHistory PorcupineOps.
From S2P Require Import PorcupineParallel KVModel KVModelProofs.
Import Checker.

(** ** Bitsets and the linked list *)

(** C36: On bitsets for [n] operations the bit operations are those of a finite set: every position below [n] is in
    range, [set] adds exactly its position and [clear] removes exactly it, [get] reads membership, the words
    stay within 64 bits, two bitsets of the same length are [equals] exactly when they have the same members, and
    [popcnt] counts the members. *)
Theorem bitset_is_a_set n b pos :
  Bitset.wf n b → 0 ≤ pos < n →
  (∃ b', Bitset.set b pos = Some b' ∧ Bitset.wf n b' ∧ ∀ q, 0 ≤ q → Bitset.bit b' q = (q =? pos) || Bitset.bit b q) ∧
  (∃ b', Bitset.clear b pos = Some b' ∧ Bitset.wf n b' ∧ ∀ q, 0 ≤ q → Bitset.bit b' q = negb (q =? pos) && Bitset.bit b q) ∧
  Bitset.get b pos = Some (Bitset.bit b pos) ∧
  (∀ b', Bitset.wf n b' → length b' = length b →
     Bitset.equals b b' = true ↔ ∀ q, 0 ≤ q → Bitset.bit b q = Bitset.bit b' q) ∧
  Bitset.popcnt b = uint (zlen (filter (λ i, Bitset.bit b i = true) (zrange 0 (64 * zlen b)))).
Proof.
  intros Hb Hp. split_and!.
  - destruct (Bitset.set_spec n b pos Hb Hp) as (b' & ? & ? & _ & ?). eauto.
  - destruct (Bitset.clear_spec n b pos Hb Hp) as (b' & ? & ? & _ & ?). eauto.
  - by apply (Bitset.get_spec n).
  - intros b' Hb' Hl. rewrite Bitset.equals_eq. split; [by intros ->|]. by apply (Bitset.bits_eq n n).
  - unfold Bitset.popcnt. by rewrite Bitset.count_bits.
Qed.

Lemma bitset_is_a_set_witness : Bitset.get (Bitset.newBitset 70) 65 = Some (Bitset.bit (Bitset.newBitset 70) 65).
Proof. apply (bitset_is_a_set 70); [apply Bitset.newBitset_wf; lia|lia]. Defined.

(** Taking a call and its return out of the linked list leaves the other nodes linked in their order, whether
    the two are next to each other or not, and [unlift] restores every node exactly as it was. *)
Theorem lift_unlift {Inp Out} (h : list (node Inp Out)) hd l1 e l2 m l3 n :
  NoDup (hd :: l1 ++ e :: l2 ++ m :: l3) → seg h None (hd :: l1 ++ e :: l2 ++ m :: l3) None →
  h !! e = Some n → nmatch n = Some m →
  ∃ h', lift e h = Some h' ∧ seg h' None (hd :: l1 ++ l2 ++ l3) None ∧ unlift e h' = Some h.
Proof. intros Hnd Hs Hn Hm. destruct (lift_spec h hd l1 e l2 m l3 n) as (h' & ? & ? & ? & _); eauto. Qed.

Definition twoNodes : list (node nat nat) :=
  [mkNode (Some (inr 1%nat)) None 0 None (Some 1%nat); mkNode (Some (inl 1%nat)) (Some 0%nat) 0 (Some 0%nat) (Some 2%nat);
   mkNode None None (-1) (Some 1%nat) None].
Lemma lift_unlift_witness : ∃ h', lift 1%nat twoNodes = Some h' ∧ seg h' None [2%nat] None ∧ unlift 1%nat h' = Some twoNodes.
Proof.
  apply (lift_unlift twoNodes 2%nat [] 1%nat [] 0%nat [] (mkNode (Some (inl 1%nat)) (Some 0%nat) 0 (Some 0%nat) (Some 2%nat))).
  - repeat constructor; set_solver.
  - simpl. eauto 15.
  - done.
  - done.
Defined.

(** ** One history *)
Section single.
Context {Inp Out St : Type} `{SortByTime} (model : Full Inp Out St).

(** C14: For a complete history the search of [checkSingle] (not killed) ends after finitely many iterations
    without a run-time panic, and returns true exactly when the history is linearizable: the bitset, the cache
    of visited configurations and the backtracking over the linked list neither lose nor invent a linearization. *)
Theorem checkSingle_correct (history : list (Operation Inp Out)) (computePartial : bool) :
  (∀ s s', Equal model s s' = true → s = s') → complete history →
  ∃ b r N, (∀ fuel, (N ≤ fuel)%nat →
      checkSingle model fuel (makeEntries history) computePartial (λ _, false) = Some (b, r)) ∧
    (b = true ↔ linearizable model history).
Proof.
  intros Heq Hc. destruct (single_decides model history computePartial Heq Hc) as (b & sq & lg & N & ? & _ & ?).
  by exists b, (sq, lg), N.
Qed.
End single.

Section check.
Context {Inp Out St : Type} `{MapOrder} `{SortByTime} `{EqDecision St} `{Sprint Inp} `{Sprint Out} `{Sprint St}.
Context (model : Model Inp Out St).
Abbreviation parts history := (Partition (fillDefault model) history).
Definition equal_sound : Prop := ∀ eq, mEqual model = Some eq → ∀ s s', eq s s' = true → s = s'.

Lemma equal_fillDefault : equal_sound → ∀ s s', Equal (fillDefault model) s s' = true → s = s'.
Proof.
  unfold equal_sound, fillDefault. simpl. destruct (mEqual model) as [eq|]; simpl; [intros He; by apply He|].
  intros _ s s'. unfold ShallowEqual. apply bool_decide_eq_true.
Qed.

(** Whatever the order in which partitions finish and whether or not the timer fires, an [Ok] of
    [checkOperations] means that every partition is linearizable, [Illegal] that some partition is not, and
    [Unknown] is only returned when there is a timeout. *)
Theorem checkOperations_verdict history :
  equal_sound → Forall complete (parts history) →
  ∃ N, ∀ fuel verbose timeout kill sigs res info, (N ≤ fuel)%nat →
    checkOperations model fuel history verbose timeout kill sigs = Some (res, info) →
    match res with
    | Ok => ∀ sub, sub ∈ parts history → linearizable (fillDefault model) sub
    | Illegal => ∃ sub, sub ∈ parts history ∧ ~ linearizable (fillDefault model) sub
    | Unknown => 0 < timeout
    end.
Proof.
  intros Heq Hc. destruct (parts_decide (fillDefault model) (equal_fillDefault Heq) _ true Hc) as [N1 Hd1].
  destruct (parts_decide (fillDefault model) (equal_fillDefault Heq) _ false Hc) as [N2 Hd2].
  exists (N1 `max` N2)%nat. intros fuel verbose timeout kill sigs res info Hfuel Hrun.
  eapply (parallel_verdict (fillDefault model) (parts history)); [|exact Hrun]. intros sub Hsub.
  destruct verbose; [destruct (Hd1 fuel ltac:(lia) sub Hsub) as (b & sq & lg & ? & _ & ?)
                    |destruct (Hd2 fuel ltac:(lia) sub Hsub) as (b & sq & lg & ? & _ & ?)]; by exists b, (sq, lg).
Qed.

Lemma decide_all history :
  equal_sound → Forall complete (parts history) → parts history ≠ [] →
  ∃ N, ∀ fuel kill order, (N ≤ fuel)%nat → order ≡ₚ seq 0 (length (parts history)) →
    ∃ ok, CheckOperations model fuel history kill (Done <$> order) = Some ok ∧
      (ok = true ↔ ∀ sub, sub ∈ parts history → linearizable (fillDefault model) sub).
Proof.
  intros Heq Hc Hne. destruct (parts_decide (fillDefault model) (equal_fillDefault Heq) _ false Hc) as [N Hdec].
  exists N. intros fuel kill order Hfuel Hp. specialize (Hdec fuel Hfuel).
  destruct (parallel_total (fillDefault model) (parts history) fuel 0 kill order) as (res & info & Hrun & Hu); [|done|done|].
  { intros sub Hsub. destruct (Hdec sub Hsub) as (b & sq & lg & -> & _). by eexists. }
  unfold CheckOperations, checkOperations. rewrite Hrun. simpl. eexists. split; [done|].
  pose proof (parallel_verdict (fillDefault model) (parts history) fuel false 0 kill (Done <$> order) res info) as Hv.
  specialize (Hv ltac:(intros sub Hsub; destruct (Hdec sub Hsub) as (b & sq & lg & ? & _ & ?); by exists b, (sq, lg)) Hrun).
  rewrite bool_decide_eq_true. destruct res; [done| |]; [naive_solver|].
  split; [done|]. intros Hall. destruct Hv as (sub & Hsub & Hno). exfalso. auto.
Qed.

(** Without a timeout, with at least one partition, [CheckOperations] returns once all partitions have
    finished, in whatever order, and returns true exactly when every partition is linearizable. *)
Theorem CheckOperations_decides history :
  equal_sound → Forall complete (parts history) → parts history ≠ [] →
  ∃ N, ∀ fuel kill order, (N ≤ fuel)%nat → order ≡ₚ seq 0 (length (parts history)) →
    ∃ ok, CheckOperations model fuel history kill (Done <$> order) = Some ok ∧
      (ok = true ↔ ∀ sub, sub ∈ parts history → linearizable (fillDefault model) sub).
Proof. apply decide_all. Qed.

(** The partial linearizations a verbose check collects are sequences the model accepts, so that
    [computeVisualizationData] on its result does not panic. *)
Theorem verbose_result_can_be_drawn sort_partials history :
  (∀ l, sort_partials l ≡ₚ l) → equal_sound → Forall complete (parts history) → parts history ≠ [] →
  ∃ N, ∀ fuel kill order, (N ≤ fuel)%nat → order ≡ₚ seq 0 (length (parts history)) →
    ∃ res info data, CheckOperationsVerbose model fuel history 0 kill (Done <$> order) = Some (res, info) ∧
      computeVisualizationData sort_partials model info = Some data.
Proof.
  intros Hsort Heq Hc Hne. destruct (parts_decide (fillDefault model) (equal_fillDefault Heq) _ true Hc) as [N Hdec].
  exists N. intros fuel kill order Hfuel Hp.
  destruct (parallel_verbose (fillDefault model) (parts history) fuel kill order) as (res & partials & Hrun & Hps); [|done|done|].
  { intros sub Hsub. destruct (Hdec fuel Hfuel sub Hsub) as (b & sq & lg & ? & ? & _). eauto. }
  unfold CheckOperationsVerbose, checkOperations. rewrite Hrun. exists res, (mkInfo (makeEntries <$> parts history) partials).
  unfold computeVisualizationData. cbn [Checker.history partialLinearizations]. rewrite length_fmap.
  edestruct (mapM_build (λ partition, hist ← (makeEntries <$> parts history) !! partition; ps ← partials !! partition;
    visualPartition sort_partials (fillDefault model) hist ps) (λ _ _, True) (seq 0 (length (parts history)))) as (data & Hd & _).
  { intros i Hi%elem_of_seq. destruct (lookup_lt_is_Some_2 (parts history) i) as [sub Hsub]; [lia|].
    rewrite list_lookup_fmap, Hsub. simpl.
    destruct (Forall2_lookup_l _ _ _ i i Hps) as (ps & Hpi & Hleg); [apply lookup_seq_lt; lia|]. rewrite Hpi. simpl.
    destruct (visualPartition_total (fillDefault model) sort_partials Hsort sub ps) as [d Hd]; [|by apply Hleg|by exists d].
    rewrite Forall_forall in Hc. apply Hc. by eapply list_elem_of_lookup_2. }
  exists data. split; [done|exact Hd].
Qed.
End check.

(** ** The key/value model *)
Section kv.
Context `{MapOrder} `{SortByTime} `{Sprint KvInput} `{Sprint KvOutput} `{Sprint string} `{Sprint (gmap string string)}.

(** C30: Splitting a history of the key/value store by key is sound and complete, as the model's partition function
    must be: the history is linearizable for the store exactly when the operations of every key are linearizable
    for the value of that key alone. *)
Theorem kv_partition_local (history : list KvOperation) :
  Forall (λ o, Call o ≤ Return o) history →
  linearizable (fillDefault MapSpec.Model) history ↔
  ∀ sub, sub ∈ KvModel.Partition history → linearizable (fillDefault KvModel.KvModel) sub.
Proof. apply partition_local. Qed.

(** C13: [CheckOperations] with the key/value model decides linearizability of the store: on a complete, nonempty
    history it returns, for every order in which the keys' searches finish, and returns true exactly when some order
    of all operations is a correct run of the store that respects real time. *)
Theorem kv_check_decides (history : list KvOperation) :
  complete history → history ≠ [] →
  ∃ N, ∀ fuel kill order, (N ≤ fuel)%nat → order ≡ₚ seq 0 (length (KvModel.Partition history)) →
    ∃ ok, CheckOperations KvModel.KvModel fuel history kill (Done <$> order) = Some ok ∧
      (ok = true ↔ linearizable (fillDefault MapSpec.Model) history).
Proof.
  intros [Hcr Hsz] Hne. destruct (Partition_spec history) as (keys & Hk & _ & _ & Hkeys).
  destruct (decide_all KvModel.KvModel history) as [N HN]; [done| | |].
  - simpl. rewrite Hk. apply Forall_fmap, Forall_forall. intros k _. unfold compose, complete, on_key. split.
    + apply Forall_forall. intros o [_ Ho]%list_elem_of_filter. rewrite Forall_forall in Hcr. auto.
    + pose proof (length_filter (λ o, key_of o = k) history). lia.
  - simpl. rewrite Hk. destruct history as [|o history]; [done|].
    assert (key_of o ∈ keys) as Hin by (apply Hkeys; left). destruct keys; [by apply elem_of_nil in Hin|done].
  - exists N. intros fuel kill order Hfuel Hp. destruct (HN fuel kill order Hfuel Hp) as (ok & Hok & Hiff).
    exists ok. split; [done|]. rewrite Hiff. symmetry. by apply partition_local.
Qed.

(** On an empty history the key/value model has no partition, so [checkParallel] waits for a result that no
    goroutine sends: without a timeout the check never returns. *)
Theorem kv_check_empty_waits fuel kill sigs : CheckOperations KvModel.KvModel fuel [] kill sigs = None.
Proof.
  unfold CheckOperations, checkOperations, checkParallel. simpl.
  replace (KvModel.Partition []) with (@nil (list KvOperation)).
  2: { destruct (Partition_spec []) as (keys & -> & _ & _ & Hk). destruct keys as [|k keys]; [done|].
       exfalso. assert (k ∈ k :: keys) as Hin%Hk by left. by apply elem_of_nil in Hin. }
  by destruct sigs as [|[i|] sigs].
Qed.
End kv.

(** ** Concrete checks *)

(** [sort.Sort] as a merge sort. *)
Definition entry_le {Inp Out} (a b : entry Inp Out) : Prop := Less b a = false.
#[local] Instance entry_le_dec {Inp Out} : RelDecision (@entry_le Inp Out).
Proof. intros a b. unfold entry_le. apply _. Defined.
#[local] Instance entry_le_trans {Inp Out} : Transitive (@entry_le Inp Out).
Proof.
  intros a b c. unfold entry_le, Less. destruct (Z.eqb_spec (time b) (time a)), (Z.eqb_spec (time c) (time b)),
    (Z.eqb_spec (time c) (time a)); simpl; try lia. by destruct (kind a), (kind b), (kind c).
Qed.
#[local] Instance entry_le_total {Inp Out} : Total (@entry_le Inp Out).
Proof.
  intros a b. unfold entry_le, Less. destruct (Z.eqb_spec (time b) (time a)), (Z.eqb_spec (time a) (time b)); simpl; try lia.
  destruct (kind a), (kind b); simpl; auto.
Qed.
#[local] Instance merge_sort_time : SortByTime :=
  {| sort_time Inp Out := merge_sort (@entry_le Inp Out);
     sort_time_perm Inp Out l := merge_sort_Permutation entry_le l;
     sort_time_sorted Inp Out l := StronglySorted_merge_sort entry_le l |}.

#[local] Instance sprint_input : Sprint KvInput := λ i, "{" +:+ pretty (Op i) +:+ " " +:+ KvKey i +:+ " " +:+ KvValue i +:+ "}".
#[local] Instance sprint_output : Sprint KvOutput := λ o, "{" +:+ OutValue o +:+ "}".
#[local] Instance sprint_string : Sprint string := λ s, s.
#[local] Instance sprint_map : Sprint (gmap string string) := λ _, "map"%string.

(** Two overlapping operations on ["x"], one on ["y"]; with [stale] the read returns what nobody wrote. *)
Definition appendX : KvOperation := mkOperation 0 (mkKvInput 2 "x" "a") 1 (mkKvOutput "") 4.
Definition getX (v : string) : KvOperation := mkOperation 1 (mkKvInput 0 "x" "") 2 (mkKvOutput v) 5.
Definition putY : KvOperation := mkOperation 0 (mkKvInput 1 "y" "b") 6 (mkKvOutput "") 7.
Definition good : list KvOperation := [appendX; getX "a"; putY].
Definition stale : list KvOperation := [appendX; getX "b"; putY].

Lemma good_complete : complete good.
Proof. split; [|by vm_compute]. unfold good. rewrite !Forall_cons. simpl. split_and!; [lia..|constructor]. Qed.
Lemma good_parts : Forall complete (Partition (fillDefault KvModel.KvModel) good).
Proof.
  replace (Partition (fillDefault KvModel.KvModel) good) with [[appendX; getX "a"]; [putY]] by (vm_compute; reflexivity).
  rewrite !Forall_cons. split_and!; [split; [|by vm_compute]|split; [|by vm_compute]|constructor];
    rewrite !Forall_cons; simpl; (split_and!; [lia..|constructor]).
Qed.
Lemma kv_equal_sound : equal_sound KvModel.KvModel.
Proof. by intros eq [=]. Qed.

Example good_passes :
  CheckOperations KvModel.KvModel 100 good (λ _ _, false) [Done 1; Done 0] = Some true.
Proof. vm_compute. reflexivity. Qed.
Example stale_fails :
  CheckOperations KvModel.KvModel 100 stale (λ _ _, false) [Done 0] = Some false.
Proof. vm_compute. reflexivity. Qed.

Lemma checkSingle_correct_witness :
  ∃ b r N, (∀ fuel, (N ≤ fuel)%nat →
      checkSingle (fillDefault MapSpec.Model) fuel (makeEntries good) true (λ _, false) = Some (b, r)) ∧
    (b = true ↔ linearizable (fillDefault MapSpec.Model) good).
Proof.
  apply checkSingle_correct; [|exact good_complete]. intros s s'. simpl. unfold ShallowEqual. apply bool_decide_eq_true_1.
Defined.

Lemma checkOperations_verdict_witness :
  ∃ N, ∀ fuel verbose timeout kill sigs res info, (N ≤ fuel)%nat →
    checkOperations KvModel.KvModel fuel good verbose timeout kill sigs = Some (res, info) →
    match res with
    | Ok => ∀ sub, sub ∈ Partition (fillDefault KvModel.KvModel) good → linearizable (fillDefault KvModel.KvModel) sub
    | Illegal => ∃ sub, sub ∈ Partition (fillDefault KvModel.KvModel) good ∧ ~ linearizable (fillDefault KvModel.KvModel) sub
    | Unknown => 0 < timeout
    end.
Proof. apply checkOperations_verdict; [exact kv_equal_sound|exact good_parts]. Defined.

Lemma CheckOperations_decides_witness :
  ∃ N, ∀ fuel kill order, (N ≤ fuel)%nat → order ≡ₚ seq 0 (length (Partition (fillDefault KvModel.KvModel) good)) →
    ∃ ok, CheckOperations KvModel.KvModel fuel good kill (Done <$> order) = Some ok ∧
      (ok = true ↔ ∀ sub, sub ∈ Partition (fillDefault KvModel.KvModel) good → linearizable (fillDefault KvModel.KvModel) sub).
Proof. apply CheckOperations_decides; [exact kv_equal_sound|exact good_parts|by vm_compute]. Defined.

Lemma verbose_result_can_be_drawn_witness :
  ∃ N, ∀ fuel kill order, (N ≤ fuel)%nat → order ≡ₚ seq 0 (length (Partition (fillDefault KvModel.KvModel) good)) →
    ∃ res info data, CheckOperationsVerbose KvModel.KvModel fuel good 0 kill (Done <$> order) = Some (res, info) ∧
      computeVisualizationData (λ l, l) KvModel.KvModel info = Some data.
Proof. apply verbose_result_can_be_drawn; [done|exact kv_equal_sound|exact good_parts|by vm_compute]. Defined.

Lemma kv_partition_local_witness :
  linearizable (fillDefault MapSpec.Model) good ↔
  ∀ sub, sub ∈ KvModel.Partition good → linearizable (fillDefault KvModel.KvModel) sub.
Proof. apply kv_partition_local. apply good_complete. Defined.

Lemma kv_check_decides_witness :
  ∃ N, ∀ fuel kill order, (N ≤ fuel)%nat → order ≡ₚ seq 0 (length (KvModel.Partition good)) →
    ∃ ok, CheckOperations KvModel.KvModel fuel good kill (Done <$> order) = Some ok ∧
      (ok = true ↔ linearizable (fillDefault MapSpec.Model) good).
Proof. apply kv_check_decides; [exact good_complete|done]. Defined.
