(* ===== verification/Graph.v ===== *)
(** * Reachability and depth-first search

    What the crawlers of [lab0] and the type checker of [labgob] share: a graph given by its successor
    lists, reachability in it, sets closed under successors, and the recursive search that marks a
    node before it visits the successors. *)
From S2P Require Import Prelude.


(** ** Loops *)

(** A loop over [xs] whose body may fail. *)
Fixpoint range_loop {B St} (body : B → St → option St) (xs : list B) (st : St) : option St :=
  match xs with
  | [] => Some st
  | x :: xs' => st' ← body x st; range_loop body xs' st'
  end.

Lemma range_loop_app {B St} (body : B → St → option St) xs ys st :
  range_loop body (xs ++ ys) st = range_loop body xs st ≫= range_loop body ys.
Proof.
  revert st. induction xs as [|x xs IH]; intros st; simpl; [done|].
  destruct (body x st); simpl; [apply IH|done].
Qed.

Lemma range_loop_ext {B St} (f g : B → St → option St) xs st :
  (∀ x st, f x st = g x st) → range_loop f xs st = range_loop g xs st.
Proof.
  intros Heq. revert st. induction xs as [|x xs IH]; intros st; simpl; [done|].
  rewrite Heq. destruct (g x st); simpl; [apply IH|done].
Qed.

(** What the body keeps when it succeeds, the loop keeps. *)
Lemma range_loop_keeps {B St} (body : B → St → option St) (P : St → Prop) (xs : list B) st st' :
  (∀ x st st', x ∈ xs → P st → body x st = Some st' → P st') →
  P st → range_loop body xs st = Some st' → P st'.
Proof.
  revert st. induction xs as [|x xs IH]; intros st Hstep HP Hrun; simpl in Hrun; [by simplify_eq|].
  apply bind_Some in Hrun as (st1 & H1 & H2). apply (IH st1); [|by eapply Hstep; [left|..]|done].
  intros y st2 st3 Hy. apply Hstep. by right.
Qed.

(** Splitting a counting loop. *)
Lemma zrange_app a b c : a ≤ b ≤ c → zrange a c = zrange a b ++ zrange b c.
Proof.
  intros Hb. unfold zrange. replace (c - a) with ((b - a) + (c - b)) by lia.
  rewrite seqZ_app by lia. do 2 f_equal. lia.
Qed.

(** A counting loop with an invariant. *)
Lemma range_loop_zrange {St} (body : Z → St → option St) (P : Z → St → Prop) k st :
  0 ≤ k → P 0 st →
  (∀ i st, 0 ≤ i < k → P i st → ∃ st', body i st = Some st' ∧ P (i + 1) st') →
  ∃ st', range_loop body (zrange 0 k) st = Some st' ∧ P k st'.
Proof.
  intros Hk H0 Hstep.
  cut (∀ m, 0 ≤ m → m ≤ k → ∃ st', range_loop body (zrange 0 m) st = Some st' ∧ P m st').
  { intros Hcut. by apply Hcut. }
  apply (natlike_ind (λ m, m ≤ k → ∃ st', range_loop body (zrange 0 m) st = Some st' ∧ P m st')).
  - intros _. exists st. by rewrite zrange_nil.
  - intros m Hm IH Hle. destruct IH as (st1 & H1 & HP1); [lia|].
    destruct (Hstep m st1) as (st2 & H2 & HP2); [lia|done|].
    exists st2. unfold Z.succ. rewrite zrange_snoc, range_loop_app, H1 by lia. simpl. by rewrite H2.
Qed.

(** A counting loop that succeeded, with an invariant. *)
Lemma range_loop_counts {St} (body : Z → St → option St) (P : Z → St → Prop) k st st' :
  0 ≤ k → P 0 st →
  (∀ i st st', 0 ≤ i < k → P i st → body i st = Some st' → P (i + 1) st') →
  range_loop body (zrange 0 k) st = Some st' → P k st'.
Proof.
  intros Hk H0 Hstep. revert st'.
  cut (∀ m, 0 ≤ m → m ≤ k → ∀ st', range_loop body (zrange 0 m) st = Some st' → P m st').
  { intros Hcut. by apply Hcut. }
  apply (natlike_ind (λ m, m ≤ k → ∀ st', range_loop body (zrange 0 m) st = Some st' → P m st')).
  - intros _ st'. rewrite zrange_nil by lia. simpl. by intros [= <-].
  - intros m Hm IH Hle st'. unfold Z.succ. rewrite zrange_snoc, range_loop_app by lia.
    intros (st1 & H1 & H2)%bind_Some. simpl in H2. apply bind_Some in H2 as (st2 & H2 & [= <-]).
    apply (Hstep m st1); [lia| |done]. apply IH; [lia|done].
Qed.

(** ** Graphs *)

Section graph.
Context {A : Type} `{Countable A}.
Variable succ : A → list A.

(** [y] is a successor of [x]; reachability is the reflexive-transitive closure. *)
Definition edge (x y : A) : Prop := y ∈ succ x.
Definition reaches : A → A → Prop := rtc edge.

(** A set that contains the successors of its members. *)
Definition closed (X : gset A) : Prop := ∀ x y, x ∈ X → y ∈ succ x → y ∈ X.

(** The search: the marked nodes and the order in which they were marked.  [None]: out of fuel. *)
Fixpoint dfs (fuel : nat) (x : A) (st : gset A * list A) : option (gset A * list A) :=
  match fuel with
  | O => None
  | S fuel' =>
      if decide (x ∈ st.1) then Some st
      else range_loop (dfs fuel') (succ x) ({[x]} ∪ st.1, st.2 ++ [x])
  end.

Lemma closed_reaches X x y : closed X → x ∈ X → reaches x y → y ∈ X.
Proof. intros Hc Hx Hr. induction Hr as [|x y z Hxy _ IH]; [done|]. eauto. Qed.

Lemma closed_empty : closed ∅.
Proof. intros x y Hx. set_solver. Qed.

(** A closed set of reachable nodes that contains the root holds exactly what the root reaches. *)
Lemma closed_is_reach X x :
  closed X → x ∈ X → (∀ y, y ∈ X → reaches x y) → ∀ y, y ∈ X ↔ reaches x y.
Proof. intros Hc Hx Hr y. split; [apply Hr|by apply closed_reaches]. Qed.

(** ** What a search does

    Between two states of a search started at one of [roots]: the new nodes are marked in the order
    of the log, once each, are reachable from the roots and have their successors marked. *)
Record searched (roots : list A) (st st' : gset A * list A) (new : list A) : Prop := {
  se_log : st'.2 = st.2 ++ new;
  se_marked : st'.1 = st.1 ∪ list_to_set new;
  se_nodup : NoDup new;
  se_fresh : ∀ y, y ∈ new → y ∉ st.1;
  se_reach : ∀ y, y ∈ new → ∃ r, r ∈ roots ∧ reaches r y;
  se_succ : ∀ y z, y ∈ new → z ∈ succ y → z ∈ st'.1;
  se_roots : ∀ r, r ∈ roots → r ∈ st'.1
}.

Lemma searched_nil st : searched [] st st [].
Proof. split; [by rewrite app_nil_r|set_solver|apply NoDup_nil_2|set_solver..]. Qed.

Lemma searched_seen x st : x ∈ st.1 → searched [x] st st [].
Proof. intros Hx. split; [by rewrite app_nil_r|set_solver|apply NoDup_nil_2|set_solver..]. Qed.

Lemma searched_app x xs st st1 st2 n1 n2 :
  searched [x] st st1 n1 → searched xs st1 st2 n2 → searched (x :: xs) st st2 (n1 ++ n2).
Proof.
  intros [Hl1 Hm1 Hn1 Hf1 Hr1 Hs1 Ho1] [Hl2 Hm2 Hn2 Hf2 Hr2 Hs2 Ho2].
  split.
  - by rewrite Hl2, Hl1, (assoc_L (++)).
  - rewrite Hm2, Hm1. set_solver.
  - apply NoDup_app. split_and!; [done| |done]. intros y Hy1 Hy2. apply (Hf2 y Hy2). set_solver.
  - intros y [Hy|Hy]%elem_of_app; [by apply Hf1|]. specialize (Hf2 y Hy). set_solver.
  - intros y [Hy|Hy]%elem_of_app; [destruct (Hr1 y Hy) as (r & ? & ?)|destruct (Hr2 y Hy) as (r & ? & ?)];
      exists r; set_solver.
  - intros y z [Hy|Hy]%elem_of_app Hz; [specialize (Hs1 y z Hy Hz)|specialize (Hs2 y z Hy Hz)]; set_solver.
  - intros r [->|Hr]%elem_of_cons; [specialize (Ho1 x)|specialize (Ho2 r Hr)]; set_solver.
Qed.

Lemma searched_node x st st' new :
  x ∉ st.1 → searched (succ x) ({[x]} ∪ st.1, st.2 ++ [x]) st' new →
  searched [x] st st' (x :: new).
Proof.
  intros Hx [Hl Hm Hn Hf Hr Hs Ho]. simpl in *. split.
  - rewrite Hl. by rewrite <-(assoc_L (++)).
  - rewrite Hm. set_solver.
  - apply NoDup_cons. split; [|done]. intros Hin. specialize (Hf x Hin). set_solver.
  - intros y [->|Hy]%elem_of_cons; [done|]. specialize (Hf y Hy). set_solver.
  - intros y Hy. exists x. split; [set_solver|]. apply elem_of_cons in Hy as [->|Hy]; [apply rtc_refl|].
    destruct (Hr y Hy) as (r & Hrx & Hry). by eapply rtc_l.
  - intros y z [->|Hy]%elem_of_cons Hz; [by apply Ho|by eapply Hs].
  - set_solver.
Qed.

Lemma dfs_searched fuel x st st' :
  dfs fuel x st = Some st' → ∃ new, searched [x] st st' new.
Proof.
  revert x st st'. induction fuel as [|fuel IH]; intros x st st' Hd; [done|].
  simpl in Hd. case_decide as Hx; [simplify_eq; exists []; by apply searched_seen|].
  assert (Hloop : ∀ xs st st', range_loop (dfs fuel) xs st = Some st' → ∃ new, searched xs st st' new).
  { clear -IH. intros xs. induction xs as [|y xs IHxs]; intros st st' Hl; simpl in Hl.
    - simplify_eq. exists []. apply searched_nil.
    - apply bind_Some in Hl as (st1 & H1 & H2). destruct (IH _ _ _ H1) as [n1 Hn1].
      destruct (IHxs _ _ H2) as [n2 Hn2]. eexists. by eapply searched_app. }
  destruct (Hloop _ _ _ Hd) as [new Hnew]. eexists. by apply searched_node.
Qed.

(** ** The search returns

    One unit of fuel per unmarked node of a finite closed set that contains the root, and one more,
    is enough: every call below a new node has one unmarked node less. *)
Definition unmarked (U : gset A) (st : gset A * list A) : nat := size (U ∖ st.1).

Lemma unmarked_mono U (st st' : gset A * list A) : st.1 ⊆ st'.1 → (unmarked U st' ≤ unmarked U st)%nat.
Proof. intros Hs. apply subseteq_size. set_solver. Qed.

Lemma unmarked_node U x (st : gset A * list A) l :
  x ∈ U → x ∉ st.1 → (unmarked U ({[x]} ∪ st.1, l) < unmarked U st)%nat.
Proof. intros HU Hx. apply subset_size. set_solver. Qed.

Lemma dfs_returns U fuel x st :
  closed U → x ∈ U → (unmarked U st < fuel)%nat → ∃ st', dfs fuel x st = Some st'.
Proof.
  intros Hc. revert x st. induction fuel as [|fuel IH]; intros x st Hx Hf; [lia|].
  simpl. case_decide as Hm; [by eexists|].
  assert (Hloop : ∀ xs st, (∀ y, y ∈ xs → y ∈ U) → (unmarked U st < fuel)%nat →
    ∃ st', range_loop (dfs fuel) xs st = Some st').
  { clear -IH. intros xs. induction xs as [|y xs IHxs]; intros st HU Hf; [by eexists|].
    destruct (IH y st) as [st1 H1]; [set_solver|done|]. simpl. rewrite H1. simpl.
    destruct (dfs_searched _ _ _ _ H1) as [new Hn]. apply IHxs; [set_solver|].
    enough (unmarked U st1 ≤ unmarked U st)%nat by lia.
    apply unmarked_mono. rewrite (se_marked _ _ _ _ Hn). set_solver. }
  apply Hloop; [intros y Hy; by eapply Hc|].
  pose proof (unmarked_node U x st (st.2 ++ [x]) Hx Hm). lia.
Qed.

(** From a closed set of marked nodes a search marks exactly what its root reaches, and the set is
    closed again. *)
Lemma searched_reach x st st' new :
  closed st.1 → searched [x] st st' new → ∀ y, y ∈ st'.1 ↔ y ∈ st.1 ∨ reaches x y.
Proof.
  intros Hc [Hl Hm Hn Hf Hr Hs Ho] y. split.
  - rewrite Hm. intros [Hy|Hy]%elem_of_union; [by left|right].
    destruct (Hr y) as (r & ->%list_elem_of_singleton & ?); [set_solver|done].
  - assert (Hc' : closed st'.1).
    { intros z w Hz Hw. rewrite Hm in Hz. apply elem_of_union in Hz as [Hz|Hz]; [|set_solver].
      rewrite Hm. specialize (Hc z w Hz Hw). set_solver. }
    intros [Hy|Hy]; [set_solver|]. eapply closed_reaches; [done| |exact Hy]. set_solver.
Qed.

Lemma searched_closed x st st' new : closed st.1 → searched [x] st st' new → closed st'.1.
Proof.
  intros Hc Hs y z Hy Hz. pose proof (searched_reach x st st' new Hc Hs) as Hr.
  apply Hr. apply Hr in Hy as [Hy|Hy]; [left; by eapply Hc|right; by eapply rtc_r].
Qed.

End graph.

Section budget.
Context {A : Type} `{Countable A}.

(** What is left to pay when every unmarked node of [U] costs [cost]. *)
Definition budget (cost : A → nat) (U seen : gset A) : nat := sum_list_with cost (elements (U ∖ seen)).

Lemma budget_mark cost (U seen : gset A) x :
  x ∈ U → x ∉ seen → budget cost U seen = (cost x + budget cost U ({[x]} ∪ seen))%nat.
Proof.
  intros HU Hx. unfold budget.
  assert (Heq : U ∖ seen = {[x]} ∪ U ∖ ({[x]} ∪ seen)).
  { apply set_eq. intros y. destruct (decide (y = x)); set_solver. }
  rewrite Heq, elements_union_singleton by set_solver. done.
Qed.

Lemma budget_same cost (U seen : gset A) x : x ∈ seen → budget cost U ({[x]} ∪ seen) = budget cost U seen.
Proof. intros Hx. unfold budget. f_equal. f_equal. set_solver. Qed.

End budget.

Lemma sum_list_with_insert {B} (f : B → nat) l i x y :
  l !! i = Some x → (sum_list_with f (<[i := y]> l) + f x = sum_list_with f l + f y)%nat.
Proof.
  intros Hi. assert (Hlt : (i < length l)%nat) by by apply lookup_lt_Some in Hi.
  rewrite insert_take_drop by done. rewrite <-(take_drop_middle l i x) at 3 by done.
  rewrite !sum_list_with_app. simpl. lia.
Qed.
