(* ===== verification/Crawler.v ===== *)
(** * The web crawlers of [lab0/crawler.go]

    The three crawlers of the file: [Serial], a recursion; [ConcurrentMutex], one goroutine per link
    with a shared map; [ConcurrentChannel], a master that starts one worker per page.  Every state
    keeps, beside the code's variables, the list of the calls to [Fetch] in the order they were made. *)
From S2P Require Import Prelude Graph.


(** [type Fetcher interface]: the page's links and an error. *)
Class Fetcher := Fetch : string → list string * option string.

(** ** The canned fetcher *)

Record fakeResult := { body : string; urls : list string }.

(** [type fakeFetcher map[string]*fakeResult]. *)
Definition fakeFetcher : Type := gmap string fakeResult.

Definition fakeFetcher_Fetch (f : fakeFetcher) : Fetcher := λ url,
  match f !! url with
  | Some res => (urls res, None)
  | None => ([], Some (String.append "not found: " url))
  end.

(** [var fetcher]. *)
Definition fetcher : fakeFetcher := list_to_map [
  ("http://golang.org/",
   {| body := "The Go Programming Language";
      urls := ["http://golang.org/pkg/"; "http://golang.org/cmd/"] |});
  ("http://golang.org/pkg/",
   {| body := "Packages";
      urls := ["http://golang.org/"; "http://golang.org/cmd/"; "http://golang.org/pkg/fmt/";
               "http://golang.org/pkg/os/"] |});
  ("http://golang.org/pkg/fmt/",
   {| body := "Package fmt"; urls := ["http://golang.org/"; "http://golang.org/pkg/"] |});
  ("http://golang.org/pkg/os/",
   {| body := "Package os"; urls := ["http://golang.org/"; "http://golang.org/pkg/"] |})]%string.

(** The links a crawler follows from a page: none when the fetch fails. *)
Definition links `{Fetcher} (url : string) : list string :=
  match Fetch url with
  | (us, None) => us
  | (_, Some _) => []
  end.

(** ** Serial crawler *)

Section crawlers.
Context `{F : Fetcher}.

(** [fetched], as the set of the keys it maps to [true], and the calls to [Fetch] so far. *)
Definition SerialState : Type := gset string * list string.

Fixpoint Serial (fuel : nat) (url : string) (st : SerialState) : option SerialState :=
  match fuel with
  | O => None
  | S fuel' =>
      let '(fetched, calls) := st in
      if decide (url ∈ fetched) then Some (fetched, calls)
      else
        let fetched := {[url]} ∪ fetched in
        let calls := calls ++ [url] in
        match Fetch url with
        | (_, Some _) => Some (fetched, calls)
        | (us, None) => range_loop (Serial fuel') us (fetched, calls)
        end
  end.

(** ** Concurrent crawler with shared state and mutex

    Each goroutine runs [ConcurrentMutex] once; its program counter says where.  [wg] is the counter
    of its [WaitGroup], [parent] the goroutine whose [done.Done()] it defers (none for the caller). *)

Inductive MutexPc :=
  | Locking                      (** before [f.mu.Lock()] *)
  | Fetching                     (** [already] was false; before [fetcher.Fetch(url)] *)
  | Spawning (us : list string)  (** in the loop: the links it has still to start a goroutine for *)
  | Returning                    (** before [return], and the deferred [done.Done()] *)
  | Returned.

Record MutexThread := mkThread {
  th_url : string;
  th_pc : MutexPc;
  th_parent : option nat;
  th_wg : nat
}.

(** [fetchState], the goroutines in the order they were started, and the calls to [Fetch]. *)
Record MutexState := mkMutex {
  mx_fetched : gset string;
  mx_threads : list MutexThread;
  mx_calls : list string
}.

(** [makeState()], with one goroutine about to call [ConcurrentMutex(url, fetcher, f)]. *)
Definition makeState (url : string) : MutexState :=
  mkMutex ∅ [mkThread url Locking None 0] [].

Definition set_pc (t : MutexThread) (pc : MutexPc) : MutexThread :=
  mkThread (th_url t) pc (th_parent t) (th_wg t).

(** [done.Done()] on the [WaitGroup] of goroutine [p]. *)
Definition wg_done (p : option nat) (ts : list MutexThread) : list MutexThread :=
  match p with
  | None => ts
  | Some i => alter (λ t, mkThread (th_url t) (th_pc t) (th_parent t) (th_wg t - 1)) i ts
  end.

(** One step of goroutine [i]; [None] when it cannot move. *)
Definition ConcurrentMutex (i : nat) (s : MutexState) : option MutexState :=
  t ← mx_threads s !! i;
  let at_pc pc := <[i := set_pc t pc]> (mx_threads s) in
  match th_pc t with
  | Locking =>
      (* the critical section *)
      let already := bool_decide (th_url t ∈ mx_fetched s) in
      Some (mkMutex ({[th_url t]} ∪ mx_fetched s)
                    (at_pc (if already then Returning else Fetching)) (mx_calls s))
  | Fetching =>
      let pc := match Fetch (th_url t) with (_, Some _) => Returning | (us, None) => Spawning us end in
      Some (mkMutex (mx_fetched s) (at_pc pc) (mx_calls s ++ [th_url t]))
  | Spawning (u :: us) =>
      (* done.Add(1); go func() { ... }() *)
      let t' := mkThread (th_url t) (Spawning us) (th_parent t) (th_wg t + 1) in
      Some (mkMutex (mx_fetched s)
                    (<[i := t']> (mx_threads s) ++ [mkThread u Locking (Some i) 0]) (mx_calls s))
  | Spawning [] =>
      (* done.Wait() *)
      if decide (th_wg t = 0%nat) then Some (mkMutex (mx_fetched s) (at_pc Returning) (mx_calls s))
      else None
  | Returning => Some (mkMutex (mx_fetched s) (wg_done (th_parent t) (at_pc Returned)) (mx_calls s))
  | Returned => None
  end.

Definition mutex_step (s s' : MutexState) : Prop := ∃ i, ConcurrentMutex i s = Some s'.

(** ** Concurrent crawler with channels

    The channel is unbuffered: a send completes when the master receives. *)

Inductive WorkerPc :=
  | WFetch (url : string)        (** before [fetcher.Fetch(url)] *)
  | WSend (us : list string)     (** before [ch <- us] *)
  | WExit.

Inductive MasterPc :=
  | MRange                       (** waiting in [for urls := range ch] *)
  | MLoop (us : list string)     (** in the inner loop: the links left *)
  | MDone.

Record ChanState := mkChan {
  ch_n : Z;
  ch_fetched : gset string;
  ch_master : MasterPc;
  ch_workers : list WorkerPc;
  ch_calls : list string
}.

(** [ConcurrentChannel(url, fetcher)]: the goroutine that sends [url], and the master's variables. *)
Definition ConcurrentChannel (url : string) : ChanState :=
  mkChan 1 ∅ MRange [WSend [url]] [].

(** The body of [worker]: fetch, then send. *)
Definition worker (i : nat) (s : ChanState) : option ChanState :=
  w ← ch_workers s !! i;
  match w with
  | WFetch url =>
      let us := match Fetch url with (_, Some _) => [] | (us, None) => us end in
      Some (mkChan (ch_n s) (ch_fetched s) (ch_master s) (<[i := WSend us]> (ch_workers s))
                   (ch_calls s ++ [url]))
  | _ => None
  end.

(** The rendezvous: goroutine [i] sends and the master receives. *)
Definition receive (i : nat) (s : ChanState) : option ChanState :=
  w ← ch_workers s !! i;
  match w, ch_master s with
  | WSend us, MRange =>
      Some (mkChan (ch_n s) (ch_fetched s) (MLoop us) (<[i := WExit]> (ch_workers s)) (ch_calls s))
  | _, _ => None
  end.

(** One iteration of the inner loop, or the end of the outer loop's body. *)
Definition master (s : ChanState) : option ChanState :=
  match ch_master s with
  | MLoop (u :: us) =>
      if decide (u ∈ ch_fetched s) then
        Some (mkChan (ch_n s) (ch_fetched s) (MLoop us) (ch_workers s) (ch_calls s))
      else
        Some (mkChan (ch_n s + 1) ({[u]} ∪ ch_fetched s) (MLoop us)
                     (ch_workers s ++ [WFetch u]) (ch_calls s))
  | MLoop [] =>
      let n := ch_n s - 1 in
      Some (mkChan n (ch_fetched s) (if n =? 0 then MDone else MRange) (ch_workers s) (ch_calls s))
  | _ => None
  end.

Inductive chan_step (s s' : ChanState) : Prop :=
  | chan_worker i : worker i s = Some s' → chan_step s s'
  | chan_receive i : receive i s = Some s' → chan_step s s'
  | chan_master : master s = Some s' → chan_step s s'.

End crawlers.
