(* ===== verification/CrawlerMutex.v ===== *)
(** * The crawler with a shared map

    The invariant of [ConcurrentMutex] over every interleaving of its goroutines, the absence of
    deadlock, and a measure that every step decreases. *)
From S2P Require Import Prelude Graph Crawler.


Definition live (t : MutexThread) : bool := match th_pc t with Returned => false | _ => true end.

(** Number of unfinished goroutines that will call [Done] on goroutine [i]'s [WaitGroup]. *)
Definition live_child (i : nat) (t : MutexThread) : bool := live t && bool_decide (th_parent t = Some i).
Definition children (i : nat) (ts : list MutexThread) : nat := length (filter (λ t, live_child i t) ts).

(** URLs of the goroutines that are about to fetch. *)
Definition pending (ts : list MutexThread) : list string :=
  omap (λ t, match th_pc t with Fetching => Some (th_url t) | _ => None end) ts.

(** A link that some goroutine has still to look at. *)
Definition awaited (ts : list MutexThread) (y : string) : Prop :=
  ∃ i t, ts !! i = Some t ∧ (th_url t = y ∧ th_pc t = Locking ∨ ∃ us, th_pc t = Spawning us ∧ y ∈ us).

(** Goroutines and their [WaitGroup]s form a tree: the counter is the number of unfinished children, a
    child is younger than its parent, and a parent with an unfinished child has not passed [Wait]. *)
Record tree_inv (ts : list MutexThread) : Prop := {
  tr_wg : ∀ i t, ts !! i = Some t → th_wg t = children i ts;
  tr_parent : ∀ j t, ts !! j = Some t →
    match th_parent t with
    | None => j = 0%nat
    | Some i => (i < j)%nat ∧ (live t → ∃ p us, ts !! i = Some p ∧ th_pc p = Spawning us)
    end
}.

Section mutex.
Context `{F : Fetcher}.
Variable start : string.

Record mutex_inv (s : MutexState) : Prop := {
  mi_calls : NoDup (mx_calls s ++ pending (mx_threads s));
  mi_fetched : ∀ y, y ∈ mx_fetched s ↔ y ∈ mx_calls s ++ pending (mx_threads s);
  mi_reach : ∀ i t, mx_threads s !! i = Some t → reaches links start (th_url t);
  mi_reached : ∀ y, y ∈ mx_fetched s → reaches links start y;
  mi_loop : ∀ i t us, mx_threads s !! i = Some t → th_pc t = Spawning us →
    ∀ y, y ∈ us → y ∈ links (th_url t);
  mi_cover : ∀ x y, x ∈ mx_calls s → y ∈ links x → y ∈ mx_fetched s ∨ awaited (mx_threads s) y;
  mi_start : start ∈ mx_fetched s ∨ awaited (mx_threads s) start;
  mi_tree : tree_inv (mx_threads s)
}.

(** ** Updating one goroutine *)

Lemma pending_insert ts i t t' :
  ts !! i = Some t →
  ∃ l1 l2, pending ts = l1 ++ pending [t] ++ l2 ∧ pending (<[i := t']> ts) = l1 ++ pending [t'] ++ l2.
Proof.
  intros Hi. exists (pending (take i ts)), (pending (drop (S i) ts)).
  assert (Hlt : (i < length ts)%nat) by by apply lookup_lt_Some in Hi.
  rewrite insert_take_drop by done. rewrite <-(take_drop_middle ts i t) at 1 by done.
  unfold pending. rewrite <-!omap_app. done.
Qed.

Lemma pending_same ts i t t' :
  ts !! i = Some t → pending [t] = pending [t'] → pending (<[i := t']> ts) = pending ts.
Proof.
  intros Hi Heq. destruct (pending_insert ts i t t' Hi) as (l1 & l2 & -> & ->). by rewrite Heq.
Qed.

Lemma children_insert ts i t t' k :
  ts !! i = Some t →
  (children k (<[i := t']> ts) + (if live_child k t then 1 else 0) =
   children k ts + (if live_child k t' then 1 else 0))%nat.
Proof.
  intros Hi. assert (Hlt : (i < length ts)%nat) by by apply lookup_lt_Some in Hi.
  unfold children. rewrite insert_take_drop by done.
  rewrite <-(take_drop_middle ts i t) at 3 by done.
  rewrite !filter_app, !filter_cons, !length_app.
  destruct (live_child k t), (live_child k t'); simpl; lia.
Qed.

Lemma children_snoc ts t k :
  children k (ts ++ [t]) = (children k ts + (if live_child k t then 1 else 0))%nat.
Proof.
  unfold children. rewrite filter_app, length_app, filter_cons.
  by destruct (live_child k t).
Qed.

Lemma children_zero ts k : children k ts = 0%nat ↔ ∀ j t, ts !! j = Some t → live_child k t = false.
Proof.
  unfold children. rewrite length_zero_iff_nil. split.
  - intros Hn j t Hj. destruct (live_child k t) eqn:Hl; [|done].
    assert (t ∈ filter (λ t, live_child k t) ts) as Hin.
    { apply list_elem_of_filter. split; [by rewrite Hl|by eapply list_elem_of_lookup_2]. }
    rewrite Hn in Hin. by apply elem_of_nil in Hin.
  - intros Hall. destruct (filter _ ts) as [|t l] eqn:Hf; [done|].
    assert (t ∈ filter (λ t, live_child k t) ts) as Hin by (rewrite Hf; left).
    apply list_elem_of_filter in Hin as [Hl [j Hj]%list_elem_of_lookup_1].
    rewrite (Hall _ _ Hj) in Hl. done.
Qed.

Lemma awaited_insert ts i t t' y :
  ts !! i = Some t → awaited ts y →
  awaited (<[i := t']> ts) y ∨ (th_url t = y ∧ th_pc t = Locking) ∨ (∃ us, th_pc t = Spawning us ∧ y ∈ us).
Proof.
  intros Hi (j & u & Hj & Hu). destruct (decide (j = i)) as [->|Hne]; [simplify_eq; naive_solver|].
  left. exists j, u. by rewrite list_lookup_insert_ne.
Qed.

Lemma awaited_snoc ts t y : awaited ts y → awaited (ts ++ [t]) y.
Proof. intros (j & u & Hj & Hu). exists j, u. split; [by apply lookup_app_l_Some|done]. Qed.

(** ** The tree of goroutines *)

Lemma live_child_set_pc k t pc :
  live t = true → live (set_pc t pc) = true → live_child k (set_pc t pc) = live_child k t.
Proof. unfold live_child. simpl. by intros -> ->. Qed.

(** A goroutine with no unfinished child may move on freely while it is not finished. *)
Lemma tree_set_pc ts i t pc :
  tree_inv ts → ts !! i = Some t → live t = true → live (set_pc t pc) = true →
  (∀ us, th_pc t = Spawning us → children i ts = 0%nat) →
  tree_inv (<[i := set_pc t pc]> ts).
Proof.
  intros [Hwg Hpar] Hi Hl Hl' Hsp.
  assert (Hch : ∀ k, children k (<[i := set_pc t pc]> ts) = children k ts).
  { intros k. pose proof (children_insert ts i t (set_pc t pc) k Hi) as Hc.
    rewrite live_child_set_pc in Hc by done. destruct (live_child k t); lia. }
  split.
  - intros j u Hj. rewrite Hch. apply list_lookup_insert_Some in Hj as [(-> & <- & _)|[_ Hj]]; [|by eapply Hwg].
    exact (Hwg _ _ Hi).
  - assert (Hkeep : ∀ j u, ts !! j = Some u → live u → ∀ k, th_parent u = Some k →
      ∃ p us, <[i := set_pc t pc]> ts !! k = Some p ∧ th_pc p = Spawning us).
    { intros j u Hj Hlu k Hk. pose proof (Hpar j u Hj) as Hp. rewrite Hk in Hp.
      destruct Hp as [_ Hp]. destruct (Hp Hlu) as (p & us & Hkp & Hpc).
      destruct (decide (k = i)) as [->|Hne]; [|exists p, us; by rewrite list_lookup_insert_ne].
      simplify_eq. pose proof (proj1 (children_zero ts i) (Hsp _ Hpc) j u Hj) as Hz.
      unfold live_child in Hz. destruct (live u); [|done]. by rewrite bool_decide_true in Hz. }
    intros j u Hj. apply list_lookup_insert_Some in Hj as [(-> & <- & _)|[_ Hj]].
    + pose proof (Hpar j t Hi) as Hp. simpl. destruct (th_parent t) as [k|] eqn:Hk; [|done].
      split; [by destruct Hp|]. intros _. apply (Hkeep j t); [done|by rewrite Hl|done].
    + pose proof (Hpar j u Hj) as Hp. destruct (th_parent u) as [k|] eqn:Hk; [|done].
      split; [by destruct Hp|]. intros Hlu. by apply (Hkeep j u).
Qed.

Lemma tree_spawn ts i t u us :
  tree_inv ts → ts !! i = Some t → th_pc t = Spawning (u :: us) →
  tree_inv (<[i := mkThread (th_url t) (Spawning us) (th_parent t) (th_wg t + 1)]> ts ++
            [mkThread u Locking (Some i) 0]).
Proof.
  intros [Hwg Hpar] Hi Hpc. set (t' := mkThread _ _ _ _).
  assert (Hlen : (i < length ts)%nat) by by apply lookup_lt_Some in Hi.
  assert (Hl : live t = true) by by unfold live; rewrite Hpc.
  assert (Hch : ∀ k, children k (<[i := t']> ts ++ [mkThread u Locking (Some i) 0]) =
    (children k ts + (if decide (k = i) then 1 else 0))%nat).
  { intros k. rewrite children_snoc. pose proof (children_insert ts i t t' k Hi) as Hc.
    assert (live_child k t' = live_child k t) as Heq by (unfold live_child; by rewrite Hl).
    rewrite Heq in Hc. unfold live_child at 1. simpl. case_decide; subst.
    - rewrite bool_decide_true by done. destruct (live_child i t); lia.
    - rewrite bool_decide_false by naive_solver. destruct (live_child k t); lia. }
  assert (Hsp : ∀ k p us', ts !! k = Some p → th_pc p = Spawning us' →
    ∃ p us, (<[i := t']> ts ++ [mkThread u Locking (Some i) 0]) !! k = Some p ∧ th_pc p = Spawning us).
  { intros k p us' Hk Hp. rewrite lookup_app_l by (rewrite length_insert; by apply lookup_lt_Some in Hk).
    destruct (decide (k = i)) as [->|Hne]; [|exists p, us'; by rewrite list_lookup_insert_ne].
    exists t', us. by rewrite list_lookup_insert_eq. }
  split; intros j v [[_ Hj]|[-> Hj]]%lookup_snoc_Some.
  - rewrite Hch. apply list_lookup_insert_Some in Hj as [(-> & <- & _)|[Hne Hj]].
    + simpl. rewrite (Hwg _ _ Hi). by rewrite decide_True.
    + rewrite decide_False by done. rewrite (Hwg _ _ Hj). lia.
  - simplify_eq. rewrite Hch, length_insert, decide_False by lia. simpl. symmetry.
    rewrite Nat.add_0_r. apply children_zero. intros j w Hj. unfold live_child.
    destruct (th_parent w) as [k|] eqn:Hk; [|by rewrite andb_false_r].
    pose proof (Hpar j w Hj) as Hp. rewrite Hk in Hp. apply lookup_lt_Some in Hj.
    rewrite bool_decide_false; [by rewrite andb_false_r|]. intros [= ->]. lia.
  - apply list_lookup_insert_Some in Hj as [(-> & <- & _)|[Hne Hj]].
    + pose proof (Hpar _ _ Hi) as Hp. simpl. destruct (th_parent t); [|done]. destruct Hp as [? Hp].
      split; [done|]. intros _. destruct Hp as (p & us' & ? & ?); [by rewrite Hl|]. by eapply Hsp.
    + pose proof (Hpar _ _ Hj) as Hp. destruct (th_parent v); [|done]. destruct Hp as [? Hp].
      split; [done|]. intros Hlv. destruct (Hp Hlv) as (p & us' & ? & ?). by eapply Hsp.
  - simplify_eq. simpl. rewrite length_insert. split; [done|]. intros _. by eapply Hsp.
Qed.

(** [Done] changes a counter and nothing else. *)
Lemma wg_done_lookup p ts j t :
  wg_done p ts !! j = Some t →
  ∃ u, ts !! j = Some u ∧ th_url t = th_url u ∧ th_pc t = th_pc u ∧ th_parent t = th_parent u ∧
    th_wg t = (th_wg u - (if decide (p = Some j) then 1 else 0))%nat.
Proof.
  destruct p as [i|]; simpl; [|intros Hj; exists t; repeat split; [done|lia]].
  intros Hj. destruct (decide (j = i)) as [->|Hne].
  - rewrite list_lookup_alter_eq in Hj. apply fmap_Some in Hj as (u & Hu & ->). exists u.
    by rewrite decide_True.
  - rewrite list_lookup_alter_ne in Hj by done. exists t. rewrite decide_False by naive_solver.
    repeat split; [done|lia].
Qed.

Lemma wg_done_lookup_back p ts j u :
  ts !! j = Some u → ∃ t, wg_done p ts !! j = Some t ∧ th_url t = th_url u ∧ th_pc t = th_pc u.
Proof.
  intros Hj. destruct p as [i|]; simpl; [|by exists u].
  destruct (decide (j = i)) as [->|Hne].
  - rewrite list_lookup_alter_eq, Hj. by eexists.
  - rewrite list_lookup_alter_ne by done. by exists u.
Qed.

Lemma children_alter f i ts k :
  (∀ t, live_child k (f t) = live_child k t) → children k (alter f i ts) = children k ts.
Proof.
  intros Hf. unfold children. revert i. induction ts as [|t ts IH]; intros [|i]; csimpl; [done..| |].
  - rewrite !filter_cons, Hf. by destruct (live_child k t).
  - rewrite !filter_cons. destruct (live_child k t); csimpl; by rewrite IH.
Qed.

Lemma wg_done_children p ts k : children k (wg_done p ts) = children k ts.
Proof. destruct p as [i|]; [|done]. by apply children_alter. Qed.

Lemma wg_done_pending p ts : pending (wg_done p ts) = pending ts.
Proof.
  destruct p as [i|]; [|done]. simpl. unfold pending. revert i.
  induction ts as [|t ts IH]; intros [|i]; csimpl; [done..|]. by rewrite IH.
Qed.

Lemma wg_done_awaited p ts y : awaited ts y → awaited (wg_done p ts) y.
Proof.
  intros (j & t & Hj & Ht). destruct (wg_done_lookup_back p ts j t Hj) as (u & Hu & Heq & Hpc).
  exists j, u. split; [done|]. by rewrite Heq, Hpc.
Qed.

Lemma tree_return ts i t :
  tree_inv ts → ts !! i = Some t → th_pc t = Returning →
  tree_inv (wg_done (th_parent t) (<[i := set_pc t Returned]> ts)).
Proof.
  intros [Hwg Hpar] Hi Hpc.
  assert (Hl : live t = true) by by unfold live; rewrite Hpc.
  assert (Hch : ∀ k, children k (<[i := set_pc t Returned]> ts) =
    (children k ts - (if decide (th_parent t = Some k) then 1 else 0))%nat).
  { intros k. pose proof (children_insert ts i t (set_pc t Returned) k Hi) as Hc.
    unfold live_child in Hc. rewrite Hl in Hc. simpl in Hc.
    destruct (decide (th_parent t = Some k));
      [rewrite bool_decide_true in Hc by done|rewrite bool_decide_false in Hc by done]; lia. }
  split.
  - intros j u Hj. apply wg_done_lookup in Hj as (v & Hv & _ & _ & _ & ->).
    rewrite wg_done_children, Hch.
    apply list_lookup_insert_Some in Hv as [(-> & <- & _)|[_ Hv]]; simpl; f_equal; by apply Hwg.
  - intros j u Hj. apply wg_done_lookup in Hj as (v & Hv & _ & Hpcv & -> & _).
    apply list_lookup_insert_Some in Hv as [(-> & <- & _)|[Hne Hv]].
    + pose proof (Hpar _ _ Hi) as Hp. simpl in *. destruct (th_parent t); [|done]. split; [by destruct Hp|].
      unfold live. by rewrite Hpcv.
    + pose proof (Hpar _ _ Hv) as Hp. destruct (th_parent v) as [k|] eqn:Hk; [|done].
      destruct Hp as [? Hp]. split; [done|]. intros Hlu.
      destruct Hp as (p & us & Hkp & Hps); [unfold live in *; by rewrite Hpcv in Hlu|].
      destruct (decide (k = i)) as [->|Hne']; [simplify_eq; congruence|].
      destruct (wg_done_lookup_back (th_parent t) (<[i := set_pc t Returned]> ts) k p) as (q & ? & _ & ?).
      { by rewrite list_lookup_insert_ne. }
      exists q, us. split; [done|congruence].
Qed.

(** ** Every step keeps the invariant *)

Lemma links_ok url us : Fetch url = (us, None) → links url = us.
Proof. unfold links. by intros ->. Qed.

Lemma mutex_init : mutex_inv (makeState start).
Proof.
  split; simpl.
  - apply NoDup_nil_2.
  - set_solver.
  - intros [|i] t Ht; simplify_eq/=. apply rtc_refl.
  - set_solver.
  - intros [|i] t us Ht Hpc; simplify_eq/=.
  - set_solver.
  - right. exists 0%nat, (mkThread start Locking None 0). naive_solver.
  - split.
    + intros [|i] t Ht; simplify_eq/=. unfold children. rewrite filter_cons. by csimpl.
    + intros [|i] t Ht; by simplify_eq/=.
Qed.

(** The facts about links survive when goroutine [i] moves without dropping a link: what it no longer
    awaits has been marked. *)
Lemma inv_move s i t pc fetched calls :
  mutex_inv s → mx_threads s !! i = Some t →
  tree_inv (<[i := set_pc t pc]> (mx_threads s)) →
  NoDup (calls ++ pending (<[i := set_pc t pc]> (mx_threads s))) →
  (∀ y, y ∈ fetched ↔ y ∈ calls ++ pending (<[i := set_pc t pc]> (mx_threads s))) →
  (∀ y, y ∈ fetched → y ∈ mx_fetched s ∨ y = th_url t) → mx_fetched s ⊆ fetched →
  (∀ us, pc = Spawning us → ∀ y, y ∈ us → y ∈ links (th_url t)) →
  (th_pc t = Locking → th_url t ∈ fetched) → (∀ us, th_pc t = Spawning us → us = []) →
  (∀ x y, x ∈ calls → y ∈ links x →
     x ∈ mx_calls s ∨ awaited (<[i := set_pc t pc]> (mx_threads s)) y) →
  mutex_inv (mkMutex fetched (<[i := set_pc t pc]> (mx_threads s)) calls).
Proof.
  intros [Hnd Hf Hr Hrd Hl Hc Hst Htr] Hi Htr' Hnd' Hf' Hnew Hsub Hlp Hlock Hsp Hcalls.
  assert (Haw : ∀ y, y ∈ mx_fetched s ∨ awaited (mx_threads s) y →
    y ∈ fetched ∨ awaited (<[i := set_pc t pc]> (mx_threads s)) y).
  { intros y [Hy|Hy]; [left; by apply Hsub|].
    destruct (awaited_insert _ i t (set_pc t pc) y Hi Hy) as [Ha|[[<- Hpc]|(us & Hpc & Hy')]];
      [by right|left; by apply Hlock|]. rewrite (Hsp us Hpc) in Hy'. by apply elem_of_nil in Hy'. }
  split; simpl; [done|done| | | | |by apply Haw|done].
  - intros j u Hj. apply list_lookup_insert_Some in Hj as [(-> & <- & _)|[_ Hj]]; [by apply (Hr j t)|by apply (Hr j)].
  - intros y Hy. destruct (Hnew y Hy) as [Hy' | ->]; [by apply Hrd|by apply (Hr i)].
  - intros j u us Hj Hpc. apply list_lookup_insert_Some in Hj as [(-> & <- & _)|[_ Hj]];
      [by apply Hlp|by apply (Hl j u us)].
  - intros x y Hx Hy. destruct (Hcalls x y Hx Hy) as [Hx'|Ha]; [|by right]. apply Haw. by apply (Hc x).
Qed.

Lemma inv_lock s i t :
  mutex_inv s → mx_threads s !! i = Some t → th_pc t = Locking →
  mutex_inv (mkMutex ({[th_url t]} ∪ mx_fetched s)
    (<[i := set_pc t (if bool_decide (th_url t ∈ mx_fetched s) then Returning else Fetching)]> (mx_threads s))
    (mx_calls s)).
Proof.
  intros Hinv Hi Hpc. pose proof Hinv as [Hnd Hf Hr Hrd Hl Hc Hst Htr].
  set (pc := if bool_decide _ then _ else _).
  assert (Hlive : live t = true ∧ live (set_pc t pc) = true).
  { unfold live, pc. rewrite Hpc. simpl. by case_bool_decide. }
  destruct (pending_insert _ i t (set_pc t pc) Hi) as (l1 & l2 & Hp & Hp').
  assert (Hpt : pending [t] = []) by by unfold pending; simpl; rewrite Hpc.
  rewrite Hpt, app_nil_l in Hp. rewrite Hp in Hnd. setoid_rewrite Hp in Hf.
  assert (Hpt' : pending [set_pc t pc] = if bool_decide (th_url t ∈ mx_fetched s) then [] else [th_url t]).
  { unfold pending, pc. simpl. by case_bool_decide. }
  apply inv_move with (s := s); try done.
  - apply tree_set_pc; [done..|naive_solver|naive_solver|]. intros us Hus. congruence.
  - rewrite Hp', Hpt'. case_bool_decide as Hin; [by rewrite app_nil_l|].
    apply (NoDup_Permutation_proper _ (th_url t :: (mx_calls s ++ l1 ++ l2))); [|apply NoDup_cons; split; [|done]].
    + simpl. rewrite !(assoc_L (++)). by rewrite <-Permutation_middle.
    + by rewrite <-Hf.
  - intros y. rewrite Hp', Hpt', elem_of_union, elem_of_singleton, Hf.
    case_bool_decide as Hin; rewrite ?Hf in Hin; set_solver.
  - set_solver.
  - set_solver.
  - intros us Heq. unfold pc in Heq. by case_bool_decide.
  - intros _. set_solver.
  - intros us Hus. congruence.
  - intros x y Hx _. by left.
Qed.

Lemma inv_fetch s i t :
  mutex_inv s → mx_threads s !! i = Some t → th_pc t = Fetching →
  mutex_inv (mkMutex (mx_fetched s)
    (<[i := set_pc t (match Fetch (th_url t) with (_, Some _) => Returning | (us, None) => Spawning us end)]>
       (mx_threads s)) (mx_calls s ++ [th_url t])).
Proof.
  intros Hinv Hi Hpc. pose proof Hinv as [Hnd Hf Hr Hrd Hl Hc Hst Htr].
  set (pc := match Fetch (th_url t) with (_, Some _) => Returning | (us, None) => Spawning us end).
  assert (Hlive : live t = true ∧ live (set_pc t pc) = true).
  { unfold live, pc. rewrite Hpc. simpl. by destruct (Fetch _) as [? []]. }
  destruct (pending_insert _ i t (set_pc t pc) Hi) as (l1 & l2 & Hp & Hp').
  assert (Hpt : pending [t] = [th_url t]) by by unfold pending; simpl; rewrite Hpc.
  assert (Hpt' : pending [set_pc t pc] = []).
  { unfold pending, pc. simpl. by destruct (Fetch _) as [? []]. }
  rewrite Hpt in Hp. rewrite Hp in Hnd. setoid_rewrite Hp in Hf.
  apply inv_move with (s := s); try done.
  - apply tree_set_pc; [done..|naive_solver|naive_solver|]. intros us Hus. congruence.
  - rewrite Hp', Hpt', app_nil_l. revert Hnd. apply NoDup_Permutation_proper.
    rewrite <-(assoc_L (++)). f_equiv. simpl. by rewrite Permutation_middle.
  - intros y. rewrite Hp', Hpt', Hf. set_solver.
  - set_solver.
  - intros us Heq y Hy. unfold pc in Heq. destruct (Fetch (th_url t)) as [us' []] eqn:HF; simplify_eq.
    by rewrite (links_ok _ _ HF).
  - intros Hlk. congruence.
  - intros us Hus. congruence.
  - intros x y [Hx| ->%list_elem_of_singleton]%elem_of_app Hy; [by left|right].
    exists i, (set_pc t pc). rewrite list_lookup_insert_eq by by apply lookup_lt_Some in Hi.
    split; [done|right]. unfold links in Hy. unfold pc. simpl. destruct (Fetch (th_url t)) as [us []]; set_solver.
Qed.

Lemma inv_wait s i t :
  mutex_inv s → mx_threads s !! i = Some t → th_pc t = Spawning [] → th_wg t = 0%nat →
  mutex_inv (mkMutex (mx_fetched s) (<[i := set_pc t Returning]> (mx_threads s)) (mx_calls s)).
Proof.
  intros Hinv Hi Hpc Hwg. pose proof Hinv as [Hnd Hf Hr Hrd Hl Hc Hst Htr].
  assert (Hp : pending (<[i := set_pc t Returning]> (mx_threads s)) = pending (mx_threads s)).
  { apply pending_same with t; [done|]. unfold pending. simpl. by rewrite Hpc. }
  apply inv_move with (s := s); rewrite ?Hp; try done.
  - apply tree_set_pc; [done..|by unfold live; rewrite Hpc|done|].
    intros us _. by rewrite <-(tr_wg _ Htr i t Hi).
  - intros y Hy. by left.
  - intros Hlk. congruence.
  - intros us Hus. congruence.
  - intros x y Hx _. by left.
Qed.

Lemma inv_return s i t :
  mutex_inv s → mx_threads s !! i = Some t → th_pc t = Returning →
  mutex_inv (mkMutex (mx_fetched s)
    (wg_done (th_parent t) (<[i := set_pc t Returned]> (mx_threads s))) (mx_calls s)).
Proof.
  intros Hinv Hi Hpc. pose proof Hinv as [Hnd Hf Hr Hrd Hl Hc Hst Htr].
  assert (Hp : pending (<[i := set_pc t Returned]> (mx_threads s)) = pending (mx_threads s)).
  { apply pending_same with t; [done|]. unfold pending. simpl. by rewrite Hpc. }
  assert (Hlk : ∀ j u, wg_done (th_parent t) (<[i := set_pc t Returned]> (mx_threads s)) !! j = Some u →
    ∃ v, mx_threads s !! j = Some v ∧ th_url u = th_url v ∧
      (∀ us, th_pc u = Spawning us → th_pc v = Spawning us)).
  { intros j u Hj. apply wg_done_lookup in Hj as (v & Hv & Hu & Hupc & _).
    apply list_lookup_insert_Some in Hv as [(-> & <- & _)|[_ Hv]].
    - exists t. split_and!; [done..|]. intros us Hus. by rewrite Hupc in Hus.
    - exists v. split_and!; [done..|]. by rewrite Hupc. }
  assert (Haw : ∀ y, awaited (mx_threads s) y →
    awaited (wg_done (th_parent t) (<[i := set_pc t Returned]> (mx_threads s))) y).
  { intros y Hy. apply wg_done_awaited.
    destruct (awaited_insert _ i t (set_pc t Returned) y Hi Hy) as [?|[[_ ?]|(us & ? & _)]]; [done|congruence..]. }
  split; simpl; rewrite ?wg_done_pending, ?Hp; try done.
  - intros j u (v & Hv & -> & _)%Hlk. by apply (Hr j).
  - intros j u us (v & Hv & -> & Hpcv)%Hlk Hus. by apply (Hl j v); [|apply Hpcv].
  - intros x y Hx Hy. destruct (Hc x y Hx Hy); auto.
  - destruct Hst; auto.
  - by apply tree_return.
Qed.

Lemma inv_spawn s i t u us :
  mutex_inv s → mx_threads s !! i = Some t → th_pc t = Spawning (u :: us) →
  mutex_inv (mkMutex (mx_fetched s)
    (<[i := mkThread (th_url t) (Spawning us) (th_parent t) (th_wg t + 1)]> (mx_threads s) ++
       [mkThread u Locking (Some i) 0]) (mx_calls s)).
Proof.
  intros Hinv Hi Hpc. pose proof Hinv as [Hnd Hf Hr Hrd Hl Hc Hst Htr].
  set (t' := mkThread _ _ _ _). set (c := mkThread u _ _ _).
  assert (Hp : pending (<[i := t']> (mx_threads s) ++ [c]) = pending (mx_threads s)).
  { transitivity (pending (<[i := t']> (mx_threads s))).
    - unfold pending. rewrite omap_app. simpl. by rewrite app_nil_r.
    - apply pending_same with t; [done|]. unfold pending. simpl. by rewrite Hpc. }
  assert (Hu : ∀ y, y ∈ u :: us → y ∈ links (th_url t)) by by apply (Hl i).
  assert (Haw : ∀ y, awaited (mx_threads s) y → awaited (<[i := t']> (mx_threads s) ++ [c]) y).
  { intros y Hy. destruct (awaited_insert _ i t t' y Hi Hy) as [?|[[_ ?]|(us' & Heq & Hy')]];
      [by apply awaited_snoc|congruence|]. rewrite Hpc in Heq. simplify_eq.
    apply elem_of_cons in Hy' as [->|Hy'].
    - exists (length (mx_threads s)), c. split; [|by left].
      rewrite lookup_app_r by by rewrite length_insert. by rewrite length_insert, Nat.sub_diag.
    - apply awaited_snoc. exists i, t'. rewrite list_lookup_insert_eq by by apply lookup_lt_Some in Hi.
      split; [done|right]. by exists us. }
  split; simpl; rewrite ?Hp; try done; [| | | |by apply tree_spawn].
  - intros j v [[_ Hj]|[_ <-]]%lookup_snoc_Some.
    + apply list_lookup_insert_Some in Hj as [(-> & <- & _)|[_ Hj]]; [by apply (Hr j t)|by apply (Hr j)].
    + simpl. eapply rtc_r; [by apply (Hr i)|]. apply Hu. left.
  - intros j v us' [[_ Hj]|[_ <-]]%lookup_snoc_Some Hv; [|done].
    apply list_lookup_insert_Some in Hj as [(-> & <- & _)|[_ Hj]]; [|by apply (Hl j v us')].
    simpl in *. simplify_eq. intros y Hy. apply Hu. by right.
  - intros x y Hx Hy. destruct (Hc x y Hx Hy); auto.
  - destruct Hst; auto.
Qed.

Lemma mutex_step_inv s s' : mutex_inv s → mutex_step s s' → mutex_inv s'.
Proof.
  intros Hinv [i Hs]. unfold ConcurrentMutex in Hs.
  apply bind_Some in Hs as (t & Hi & Hs).
  destruct (th_pc t) as [| |[|u us]| |] eqn:Hpc; simplify_eq.
  - by apply inv_lock.
  - by apply inv_fetch.
  - case_decide; [|done]. simplify_eq. by apply inv_wait.
  - by apply inv_spawn.
  - by apply inv_return.
Qed.

Lemma mutex_reachable_inv s : rtc mutex_step (makeState start) s → mutex_inv s.
Proof.
  apply (rtc_preserve mutex_step mutex_inv); [|apply mutex_init].
  intros; by eapply mutex_step_inv.
Qed.

(** ** Completion *)

Lemma mutex_root s : rtc mutex_step (makeState start) s → ∃ t, mx_threads s !! 0%nat = Some t.
Proof.
  intros Hr. apply lookup_lt_is_Some. revert Hr.
  apply (rtc_preserve mutex_step (λ s, 0 < length (mx_threads s))%nat); [|simpl; lia].
  clear. intros s s' Hlen [i Hs]. unfold ConcurrentMutex in Hs.
  apply bind_Some in Hs as (t & Hi & Hs).
  destruct (th_pc t) as [| |[|u us]| |]; try case_decide; simplify_eq/=;
    rewrite ?length_app, ?length_insert; [lia..|].
  destruct (th_parent t); simpl; rewrite ?length_alter, length_insert; lia.
Qed.

(** When the first goroutine has returned, so have all others. *)
Lemma tree_all_returned ts t0 :
  tree_inv ts → ts !! 0%nat = Some t0 → th_pc t0 = Returned →
  ∀ j t, ts !! j = Some t → th_pc t = Returned.
Proof.
  intros [_ Hpar] H0 Hpc. induction j as [j IH] using lt_wf_ind. intros t Hj.
  destruct (th_pc t) eqn:Ht; try done; exfalso.
  all: pose proof (Hpar j t Hj) as Hp; destruct (th_parent t) as [i|]; [|congruence].
  all: destruct Hp as [Hlt Hp]; destruct Hp as (p & us0 & Hi & Hps); [by unfold live; rewrite Ht|].
  all: specialize (IH i Hlt p Hi); congruence.
Qed.

(** A goroutine that is not finished can move, or has a younger one it waits for. *)
Lemma tree_progress s : tree_inv (mx_threads s) →
  ∀ n i t, (length (mx_threads s) - i ≤ n)%nat → mx_threads s !! i = Some t → live t = true →
  ∃ s', mutex_step s s'.
Proof.
  intros [Hwg Hpar]. induction n as [|n IH]; intros i t Hn Hi Hl.
  { apply lookup_lt_Some in Hi. lia. }
  unfold mutex_step, ConcurrentMutex. unfold live in Hl.
  destruct (th_pc t) as [| |[|u us]| |] eqn:Hpc; try done; try (eexists; exists i; rewrite Hi; simpl; by rewrite Hpc).
  destruct (decide (th_wg t = 0%nat)) as [Hz|Hz].
  { eexists. exists i. rewrite Hi. simpl. by rewrite Hpc, decide_True. }
  rewrite (Hwg i t Hi) in Hz.
  destruct (filter (λ t, live_child i t) (mx_threads s)) as [|c l] eqn:Hf; [by unfold children in Hz; rewrite Hf in Hz|].
  assert (Hc : c ∈ filter (λ t, live_child i t) (mx_threads s)) by (rewrite Hf; left).
  apply list_elem_of_filter in Hc as [Hc [j Hj]%list_elem_of_lookup_1].
  apply andb_prop_elim in Hc as [Hlc Hpc'%bool_decide_unpack].
  pose proof (Hpar j c Hj) as Hp. rewrite Hpc' in Hp. destruct Hp as [Hlt _].
  pose proof (lookup_lt_Some _ _ _ Hj). apply (IH j c); [lia|done|]. by apply Is_true_true.
Qed.

(** With every goroutine returned, what was fetched is what can be reached, each page once. *)
Lemma mutex_complete s :
  mutex_inv s → (∀ j t, mx_threads s !! j = Some t → th_pc t = Returned) →
  NoDup (mx_calls s) ∧ (∀ y, y ∈ mx_calls s ↔ reaches links start y) ∧
  (∀ y, y ∈ mx_fetched s ↔ reaches links start y).
Proof.
  intros [Hnd Hf Hr Hrd Hl Hc Hst Htr] Hall.
  assert (Hpend : pending (mx_threads s) = []).
  { destruct (pending (mx_threads s)) as [|y l] eqn:Hp; [done|].
    assert (Hy : y ∈ pending (mx_threads s)) by (rewrite Hp; left).
    apply list_elem_of_omap in Hy as (t & [j Hj]%list_elem_of_lookup_1 & Ht).
    by rewrite (Hall j t Hj) in Ht. }
  assert (Haw : ∀ y, awaited (mx_threads s) y → False).
  { intros y (j & t & Hj & [[_ Ht]|(us & Ht & _)]); rewrite (Hall j t Hj) in Ht; done. }
  rewrite Hpend, app_nil_r in Hnd. setoid_rewrite Hpend in Hf. setoid_rewrite app_nil_r in Hf.
  assert (Hreach : ∀ y, y ∈ mx_fetched s ↔ reaches links start y).
  { apply closed_is_reach; [|by destruct Hst as [?|[]%Haw]|done].
    intros x y Hx%Hf Hy. by destruct (Hc x y Hx Hy) as [?|[]%Haw]. }
  split_and!; [done| |done]. intros y. by rewrite <-Hreach, Hf.
Qed.

(** ** Termination *)

Definition pc_weight (url : string) (pc : MutexPc) : nat :=
  match pc with
  | Locking => 2
  | Fetching => 3 + 3 * length (links url)
  | Spawning us => 2 + 3 * length us
  | Returning => 1
  | Returned => 0
  end.

Definition weight (t : MutexThread) : nat := pc_weight (th_url t) (th_pc t).

Definition page_cost (u : string) : nat := 4 + 3 * length (links u).

Definition mutex_measure (U : gset string) (s : MutexState) : nat :=
  sum_list_with weight (mx_threads s) + budget page_cost U (mx_fetched s).

Lemma wg_done_weight p ts : sum_list_with weight (wg_done p ts) = sum_list_with weight ts.
Proof.
  destruct p as [i|]; [|done]. simpl. revert i.
  induction ts as [|t ts IH]; intros [|i]; csimpl; [done..|]. by rewrite IH.
Qed.

Lemma weight_insert ts i t t' :
  ts !! i = Some t →
  (sum_list_with weight (<[i := t']> ts) + pc_weight (th_url t) (th_pc t) =
   sum_list_with weight ts + pc_weight (th_url t') (th_pc t'))%nat.
Proof. apply (sum_list_with_insert weight). Qed.

Lemma mutex_step_measure U s s' :
  closed links U → start ∈ U → mutex_inv s → mutex_step s s' →
  (mutex_measure U s' < mutex_measure U s)%nat.
Proof.
  intros HU HsU Hinv [i Hs]. unfold ConcurrentMutex in Hs.
  apply bind_Some in Hs as (t & Hi & Hs). unfold mutex_measure.
  pose proof (λ t', weight_insert _ i t t' Hi) as Hw.
  destruct (th_pc t) as [| |[|u us]| |] eqn:Hpc; simplify_eq; cbn [mx_threads mx_fetched].
  - case_bool_decide as Hm.
    + specialize (Hw (set_pc t Returning)). rewrite budget_same by done. simpl in Hw. lia.
    + specialize (Hw (set_pc t Fetching)). rewrite (budget_mark _ U (mx_fetched s) (th_url t)); 
        [|by eapply closed_reaches, (mi_reach _ Hinv i)|done].
      assert (page_cost (th_url t) = 4 + 3 * length (links (th_url t)))%nat by done. simpl in Hw. lia.
  - destruct (Fetch (th_url t)) as [us [e|]] eqn:HF;
      match goal with |- context [set_pc t ?pc] => specialize (Hw (set_pc t pc)) end;
      simpl in Hw; [lia|]. rewrite (links_ok _ _ HF) in Hw. lia.
  - case_decide; simplify_eq/=. specialize (Hw (set_pc t Returning)). simpl in *. lia.
  - match goal with |- context [<[i := ?t']> _] => specialize (Hw t') end.
    assert (Hc : sum_list_with weight [mkThread u Locking (Some i) 0] = 2%nat) by done.
    rewrite sum_list_with_app, Hc. simpl in Hw. lia.
  - rewrite wg_done_weight. specialize (Hw (set_pc t Returned)). simpl in Hw. lia.
Qed.

End mutex.
