(* ===== verification/CrawlerChannel.v ===== *)
(** * The crawler with channels

    The invariant of the master and its workers over every interleaving, the absence of deadlock and
    of leaked goroutines, and a measure that every step decreases. *)
From S2P Require Import Prelude Graph Crawler.


(** URLs of the workers that are about to fetch. *)
Definition wpending (ws : list WorkerPc) : list string :=
  omap (λ w, match w with WFetch u => Some u | _ => None end) ws.

(** Goroutines that have still to send. *)
Definition active (ws : list WorkerPc) : nat :=
  sum_list_with (λ w, match w with WExit => 0 | _ => 1 end)%nat ws.

(** A link on its way to the master, or in the list it goes through. *)
Definition in_flight (s : ChanState) (y : string) : Prop :=
  (∃ us, WSend us ∈ ch_workers s ∧ y ∈ us) ∨ (∃ us, ch_master s = MLoop us ∧ y ∈ us).

Section channel.
Context `{F : Fetcher}.
Variable start : string.

Record chan_inv (s : ChanState) : Prop := {
  ci_calls : NoDup (ch_calls s ++ wpending (ch_workers s));
  ci_fetched : ∀ y, y ∈ ch_fetched s ↔ y ∈ ch_calls s ++ wpending (ch_workers s);
  ci_reached : ∀ y, y ∈ ch_fetched s → reaches links start y;
  ci_flight : ∀ y, in_flight s y → reaches links start y;
  ci_cover : ∀ x y, x ∈ ch_calls s → y ∈ links x → y ∈ ch_fetched s ∨ in_flight s y;
  ci_start : start ∈ ch_fetched s ∨ in_flight s start;
  ci_n : ch_n s = Z.of_nat (active (ch_workers s)) +
         match ch_master s with MLoop _ => 1 | _ => 0 end;
  ci_wait : ch_master s = MRange → ch_n s ≠ 0;
  ci_done : ch_master s = MDone → ch_n s = 0
}.

(** ** Updating one worker *)

Lemma wpending_insert ws i w w' :
  ws !! i = Some w →
  ∃ l1 l2, wpending ws = l1 ++ wpending [w] ++ l2 ∧ wpending (<[i := w']> ws) = l1 ++ wpending [w'] ++ l2.
Proof.
  intros Hi. exists (wpending (take i ws)), (wpending (drop (S i) ws)).
  assert (Hlt : (i < length ws)%nat) by by apply lookup_lt_Some in Hi.
  rewrite insert_take_drop by done. rewrite <-(take_drop_middle ws i w) at 1 by done.
  unfold wpending. rewrite <-!omap_app. done.
Qed.

Lemma elem_of_insert_other (ws : list WorkerPc) (i : nat) w w' us :
  ws !! i = Some w → w ≠ WSend us → WSend us ∈ ws → WSend us ∈ <[i := w']> ws.
Proof.
  intros Hi Hne [j Hj]%list_elem_of_lookup_1. apply list_elem_of_lookup. exists j.
  rewrite list_lookup_insert_ne; [done|]. intros ->. by simplify_eq.
Qed.

Lemma elem_of_insert_inv (ws : list WorkerPc) (i : nat) w v : v ∈ <[i := w]> ws → v = w ∨ v ∈ ws.
Proof.
  intros [j Hj]%list_elem_of_lookup_1. apply list_lookup_insert_Some in Hj as [(_ & <- & _)|[_ Hj]];
    [by left|right; by eapply list_elem_of_lookup_2].
Qed.

Lemma chan_init : chan_inv (ConcurrentChannel start).
Proof.
  assert (Hs : in_flight (ConcurrentChannel start) start).
  { left. exists [start]. simpl. split; left. }
  split; simpl; try done; [apply NoDup_nil_2|set_solver..| | |by right].
  - intros y [(us & Hus & Hy)|(us & [=] & _)]. simpl in Hus.
    apply list_elem_of_singleton in Hus as [= ->]. apply list_elem_of_singleton in Hy as ->. apply rtc_refl.
  - set_solver.
Qed.

(** ** Every step keeps the invariant *)

Lemma inv_worker s i s' : chan_inv s → worker i s = Some s' → chan_inv s'.
Proof.
  intros [Hnd Hf Hr Hfl Hc Hst Hn Hw Hd] Hs. unfold worker in Hs.
  apply bind_Some in Hs as (w & Hi & Hs). destruct w as [url| |]; simplify_eq.
  assert (Hus : match Fetch url with (_, Some _) => [] | (us, None) => us end = links url).
  { unfold links. by destruct (Fetch url) as [? []]. }
  rewrite Hus. destruct (wpending_insert _ i _ (WSend (links url)) Hi) as (l1 & l2 & Hp & Hp').
  simpl in Hp, Hp'. rewrite Hp in Hnd. setoid_rewrite Hp in Hf.
  assert (Hurl : url ∈ ch_fetched s) by (apply Hf; set_solver).
  assert (Hin : WSend (links url) ∈ <[i := WSend (links url)]> (ch_workers s)).
  { apply list_elem_of_insert. by apply lookup_lt_Some in Hi. }
  assert (Haw : ∀ y, in_flight s y → in_flight (mkChan (ch_n s) (ch_fetched s) (ch_master s)
    (<[i := WSend (links url)]> (ch_workers s)) (ch_calls s ++ [url])) y).
  { intros y [(us & Hu & Hy)|Hm]; [left|by right]. exists us. split; [|done].
    by eapply elem_of_insert_other. }
  split; simpl; try done.
  - rewrite Hp'. revert Hnd. apply NoDup_Permutation_proper. rewrite <-(assoc_L (++)). f_equiv.
    simpl. by rewrite Permutation_middle.
  - intros y. rewrite Hp', Hf. set_solver.
  - intros y [(us & Hu & Hy)|Hm]; [|apply Hfl; by right].
    apply elem_of_insert_inv in Hu as [[= ->]|Hu]; [|apply Hfl; left; eauto].
    eapply rtc_r; [by apply Hr|done].
  - intros x y [Hx| ->%list_elem_of_singleton]%elem_of_app Hy.
    + destruct (Hc x y Hx Hy); [by left|right; by apply Haw].
    + right. left. by exists (links url).
  - destruct Hst; [by left|right; by apply Haw].
  - rewrite Hn. unfold active.
    pose proof (sum_list_with_insert (λ w, match w with WExit => 0 | _ => 1 end)%nat _ i _
      (WSend (links url)) Hi). simpl in *. lia.
Qed.

Lemma inv_receive s i s' : chan_inv s → receive i s = Some s' → chan_inv s'.
Proof.
  intros [Hnd Hf Hr Hfl Hc Hst Hn Hw Hd] Hs. unfold receive in Hs.
  apply bind_Some in Hs as (w & Hi & Hs). destruct w as [|us|]; try done.
  destruct (ch_master s) eqn:Hm; simplify_eq.
  destruct (wpending_insert _ i _ WExit Hi) as (l1 & l2 & Hp & Hp').
  assert (Hpe : wpending (<[i := WExit]> (ch_workers s)) = wpending (ch_workers s)) by by rewrite Hp, Hp'.
  set (s' := mkChan _ _ _ _ _).
  assert (Haw : ∀ y, in_flight s y → in_flight s' y).
  { intros y [(vs & Hu & Hy)|(vs & Heq & _)]; [|congruence].
    destruct (decide (us = vs)) as [<-|Hne]; [right; by exists us|].
    left. exists vs. split; [|done]. eapply elem_of_insert_other; [done|congruence|done]. }
  assert (Hback : ∀ y, in_flight s' y → in_flight s y).
  { intros y [(vs & Hu & Hy)|(vs & [= <-] & Hy)]; left; [|exists us; eauto using list_elem_of_lookup_2].
    apply elem_of_insert_inv in Hu as [?|Hu]; [done|by exists vs]. }
  split; try done; simpl.
  - by rewrite Hpe.
  - by rewrite Hpe.
  - intros y Hy. by apply Hfl, Hback.
  - intros x y Hx Hy. destruct (Hc x y Hx Hy); [by left|right; by apply Haw].
  - destruct Hst; [by left|right; by apply Haw].
  - rewrite Hn. unfold active.
    pose proof (sum_list_with_insert (λ w, match w with WExit => 0 | _ => 1 end)%nat _ i _ WExit Hi).
    simpl in *. lia.
Qed.

(** The end of the outer loop's body. *)
Lemma inv_master_end s :
  chan_inv s → ch_master s = MLoop [] →
  chan_inv (mkChan (ch_n s - 1) (ch_fetched s) (if ch_n s - 1 =? 0 then MDone else MRange)
    (ch_workers s) (ch_calls s)).
Proof.
  intros [Hnd Hf Hr Hfl Hc Hst Hn Hw Hd] Hm. set (s' := mkChan _ _ _ _ _). rewrite Hm in Hn.
  assert (Haw : ∀ y, in_flight s y → in_flight s' y).
  { intros y [?|(vs & Heq & Hy)]; [by left|]. rewrite Hm in Heq. simplify_eq. by apply elem_of_nil in Hy. }
  assert (Hback : ∀ y, in_flight s' y → in_flight s y).
  { intros y [?|(vs & Heq & Hy)]; [by left|]. simpl in Heq. by destruct (ch_n s - 1 =? 0). }
  split; try done; simpl; [by intros y Hy%Hback; apply Hfl|..].
  - intros x y Hx Hy. destruct (Hc x y Hx Hy); [by left|right; by apply Haw].
  - destruct Hst; [by left|right; by apply Haw].
  - destruct (ch_n s - 1 =? 0); lia.
  - destruct (ch_n s - 1 =? 0) eqn:Hz; [done|]. lia.
  - destruct (ch_n s - 1 =? 0) eqn:Hz; [lia|done].
Qed.

(** One link of the list: it leaves the list, and nothing else does. *)
Lemma flight_pop s u us n f ws c y :
  ch_master s = MLoop (u :: us) → (∀ w : WorkerPc, w ∈ ch_workers s → w ∈ ws) → in_flight s y →
  y = u ∨ in_flight (mkChan n f (MLoop us) ws c) y.
Proof.
  intros Hm Hws [(vs & ? & ?)|(vs & Heq & Hy)]; [right; left; exists vs; auto|].
  rewrite Hm in Heq. simplify_eq. apply elem_of_cons in Hy as [->|Hy]; [by left|right; right; by exists us].
Qed.

Lemma inv_master_seen s u us :
  chan_inv s → ch_master s = MLoop (u :: us) → u ∈ ch_fetched s →
  chan_inv (mkChan (ch_n s) (ch_fetched s) (MLoop us) (ch_workers s) (ch_calls s)).
Proof.
  intros [Hnd Hf Hr Hfl Hc Hst Hn Hw Hd] Hm Hin. set (s' := mkChan _ _ _ _ _). rewrite Hm in Hn.
  assert (Haw : ∀ y, in_flight s y → y ∈ ch_fetched s ∨ in_flight s' y).
  { intros y Hy. destruct (flight_pop s u us (ch_n s) (ch_fetched s) (ch_workers s) (ch_calls s) y Hm)
      as [->|?]; auto. }
  split; try done; simpl.
  - intros y [?|(vs & [= <-] & Hy)]; apply Hfl; [by left|right; exists (u :: us); split; [done|by right]].
  - intros x y Hx Hy. destruct (Hc x y Hx Hy); [by left|by apply Haw].
  - destruct Hst; [by left|by apply Haw].
Qed.

Lemma inv_master_new s u us :
  chan_inv s → ch_master s = MLoop (u :: us) → u ∉ ch_fetched s →
  chan_inv (mkChan (ch_n s + 1) ({[u]} ∪ ch_fetched s) (MLoop us) (ch_workers s ++ [WFetch u]) (ch_calls s)).
Proof.
  intros [Hnd Hf Hr Hfl Hc Hst Hn Hw Hd] Hm Hin. set (s' := mkChan _ _ _ _ _). rewrite Hm in Hn.
  assert (Hu : reaches links start u) by (apply Hfl; right; exists (u :: us); split; [done|left]).
  assert (Haw : ∀ y, in_flight s y → y ∈ {[u]} ∪ ch_fetched s ∨ in_flight s' y).
  { intros y Hy. destruct (flight_pop s u us (ch_n s + 1) ({[u]} ∪ ch_fetched s)
      (ch_workers s ++ [WFetch u]) (ch_calls s) y Hm) as [->|?]; [set_solver|done|left; set_solver|by right]. }
  assert (Hp : wpending (ch_workers s ++ [WFetch u]) = wpending (ch_workers s) ++ [u]).
  { unfold wpending. by rewrite omap_app. }
  split; try done; simpl; rewrite ?Hp, ?(assoc_L (++)).
  - apply NoDup_app. split_and!; [done| |apply NoDup_singleton]. intros y Hy%Hf ->%list_elem_of_singleton. done.
  - intros y. rewrite elem_of_union, elem_of_singleton, Hf. set_solver.
  - intros y [->%elem_of_singleton|Hy]%elem_of_union; auto.
  - intros y [(vs & Hv & Hy)|(vs & [= <-] & Hy)]; apply Hfl; [left|right; exists (u :: us); split; [done|by right]].
    exists vs. split; [|done]. simpl in Hv. apply elem_of_app in Hv as [?|[=]%list_elem_of_singleton]. done.
  - intros x y Hx Hy. destruct (Hc x y Hx Hy); [left; set_solver|by apply Haw].
  - destruct Hst; [left; set_solver|by apply Haw].
  - unfold active in *. rewrite sum_list_with_app. simpl. lia.
Qed.

Lemma chan_step_inv s s' : chan_inv s → chan_step s s' → chan_inv s'.
Proof.
  intros Hinv [i Hs|i Hs|Hs]; [by eapply inv_worker|by eapply inv_receive|].
  unfold master in Hs. destruct (ch_master s) as [|[|u us]|] eqn:Hm; simplify_eq.
  - by apply inv_master_end.
  - case_decide; simplify_eq; [by eapply inv_master_seen|by eapply inv_master_new].
Qed.

Lemma chan_reachable_inv s : rtc chan_step (ConcurrentChannel start) s → chan_inv s.
Proof.
  apply (rtc_preserve chan_step chan_inv); [|apply chan_init]. intros; by eapply chan_step_inv.
Qed.

(** ** Completion *)

Lemma active_zero ws : active ws = 0%nat → ∀ w, w ∈ ws → w = WExit.
Proof.
  intros Hz w Hw. pose proof (sum_list_with_in w (λ w, match w with WExit => 0 | _ => 1 end)%nat ws Hw) as Hle.
  unfold active in Hz. destruct w; [lia..|done].
Qed.

Lemma active_pos ws : active ws ≠ 0%nat → ∃ i w, ws !! i = Some w ∧ w ≠ WExit.
Proof.
  induction ws as [|w ws IH]; [done|]. unfold active in *. simpl. intros Hp.
  destruct w as [u|us|]; [by exists 0%nat, (WFetch u)|by exists 0%nat, (WSend us)|].
  destruct IH as (i & w & Hi & Hw); [lia|]. by exists (S i), w.
Qed.

(** When the master leaves its loop no goroutine is left. *)
Lemma chan_done_exit s : chan_inv s → ch_master s = MDone → ∀ w, w ∈ ch_workers s → w = WExit.
Proof. intros Hinv Hm. apply active_zero. pose proof (ci_n s Hinv). pose proof (ci_done s Hinv Hm). rewrite Hm in *. lia. Qed.

Lemma chan_progress s : chan_inv s → ch_master s ≠ MDone → ∃ s', chan_step s s'.
Proof.
  intros Hinv Hm. destruct (ch_master s) as [|[|u us]|] eqn:Hpc; [| | |done].
  - assert (Ha : active (ch_workers s) ≠ 0%nat).
    { pose proof (ci_n s Hinv) as Hn. pose proof (ci_wait s Hinv Hpc). rewrite Hpc in Hn. lia. }
    destruct (active_pos _ Ha) as (i & w & Hi & Hw). destruct w as [url|us|]; [| |done].
    + eexists. apply (chan_worker _ _ i). unfold worker. by rewrite Hi.
    + eexists. apply (chan_receive _ _ i). unfold receive. rewrite Hi. simpl. by rewrite Hpc.
  - eexists. apply chan_master. unfold master. by rewrite Hpc.
  - destruct (decide (u ∈ ch_fetched s)) eqn:Hd; eexists; apply chan_master; unfold master; by rewrite Hpc, Hd.
Qed.

Lemma chan_complete s :
  chan_inv s → ch_master s = MDone →
  NoDup (ch_calls s) ∧ (∀ y, y ∈ ch_calls s ↔ reaches links start y) ∧
  (∀ y, y ∈ ch_fetched s ↔ reaches links start y).
Proof.
  intros Hinv Hm. pose proof (chan_done_exit s Hinv Hm) as Hex.
  destruct Hinv as [Hnd Hf Hr Hfl Hc Hst Hn Hw Hd].
  assert (Hpend : wpending (ch_workers s) = []).
  { destruct (wpending (ch_workers s)) as [|y l] eqn:Hp; [done|].
    assert (Hy : y ∈ wpending (ch_workers s)) by (rewrite Hp; left).
    apply list_elem_of_omap in Hy as (w & Hw' & Heq). by rewrite (Hex w Hw') in Heq. }
  assert (Haw : ∀ y, in_flight s y → False).
  { intros y [(us & Hus & _)|(us & Hus & _)]; [by specialize (Hex _ Hus)|congruence]. }
  rewrite Hpend, app_nil_r in Hnd. setoid_rewrite Hpend in Hf. setoid_rewrite app_nil_r in Hf.
  assert (Hreach : ∀ y, y ∈ ch_fetched s ↔ reaches links start y).
  { apply closed_is_reach; [|by destruct Hst as [?|[]%Haw]|done].
    intros x y Hx%Hf Hy. by destruct (Hc x y Hx Hy) as [?|[]%Haw]. }
  split_and!; [done| |done]. intros y. by rewrite <-Hreach, Hf.
Qed.

(** ** Termination *)

Definition wweight (w : WorkerPc) : nat :=
  match w with WFetch u => 3 + length (links u) | WSend us => 2 + length us | WExit => 0 end.

Definition mweight (m : MasterPc) : nat := match m with MLoop us => 1 + length us | _ => 0 end.

Definition page_price (u : string) : nat := 4 + length (links u).

Definition chan_measure (U : gset string) (s : ChanState) : nat :=
  sum_list_with wweight (ch_workers s) + mweight (ch_master s) + budget page_price U (ch_fetched s).

Lemma chan_step_measure U s s' :
  closed links U → start ∈ U → chan_inv s → chan_step s s' →
  (chan_measure U s' < chan_measure U s)%nat.
Proof.
  intros HU HsU Hinv [i Hs|i Hs|Hs]; unfold worker, receive, master in Hs; unfold chan_measure.
  - apply bind_Some in Hs as (w & Hi & Hs). destruct w as [url| |]; simplify_eq. cbn [ch_workers ch_master ch_fetched].
    match goal with |- context [<[i := ?w']> _] => pose proof (sum_list_with_insert wweight _ i _ w' Hi) as Hw end.
    simpl in Hw. unfold links in Hw. destruct (Fetch url) as [us []]; simpl in *; lia.
  - apply bind_Some in Hs as (w & Hi & Hs). destruct w as [|us|]; try done.
    destruct (ch_master s) eqn:Hm; simplify_eq. cbn [ch_workers ch_master ch_fetched].
    pose proof (sum_list_with_insert wweight _ i _ WExit Hi) as Hw. simpl in *. lia.
  - destruct (ch_master s) as [|[|u us]|] eqn:Hm; simplify_eq; cbn [ch_workers ch_master ch_fetched].
    + destruct (ch_n s - 1 =? 0); simpl; lia.
    + case_decide as Hin; simplify_eq; cbn [ch_workers ch_master ch_fetched]; [simpl; lia|].
      assert (Hu : u ∈ U).
      { eapply closed_reaches; [done..|]. apply (ci_flight s Hinv). right. exists (u :: us). split; [done|left]. }
      rewrite (budget_mark _ U (ch_fetched s) u) by done.
      assert (page_price u = 4 + length (links u))%nat by done.
      rewrite sum_list_with_app. simpl. lia.
Qed.

End channel.
