(* ===== verification/CrawlerTheorems.v ===== *)
(** * The crawlers visit what can be reached, once

    The serial crawler is the depth-first search of [Graph]; the concurrent ones end, under every
    schedule, with the same set of pages, each fetched once. *)
From S2P Require Import Prelude Graph Crawler CrawlerMutex CrawlerChannel.


(** ** The serial crawler is a depth-first search *)

Section serial.
Context `{F : Fetcher}.

Lemma Serial_dfs fuel url st : Serial fuel url st = dfs links fuel url st.
Proof.
  revert url st. induction fuel as [|fuel IH]; intros url [fetched calls]; simpl; [done|].
  case_decide; [done|]. unfold links at 2. destruct (Fetch url) as [us [e|]]; [done|].
  by apply range_loop_ext.
Qed.

End serial.

(** ** A finite web

    The pages of a canned fetcher and every page they link to. *)

Definition pages (f : fakeFetcher) : gset string :=
  dom f ∪ list_to_set (mjoin ((λ p, urls p.2) <$> map_to_list f)).

Lemma pages_closed (f : fakeFetcher) (url : string) :
  closed (@links (fakeFetcher_Fetch f)) ({[url]} ∪ pages f).
Proof.
  intros x y _ Hy. unfold links, Fetch, fakeFetcher_Fetch in Hy.
  destruct (f !! x) as [res|] eqn:Hx; [|by apply elem_of_nil in Hy].
  apply elem_of_union_r, elem_of_union_r, elem_of_list_to_set, list_elem_of_join.
  exists (urls res). split; [done|]. apply list_elem_of_fmap. exists (x, res). split; [done|].
  by apply elem_of_map_to_list.
Qed.

Lemma pages_start (f : fakeFetcher) (url : string) : url ∈ {[url]} ∪ pages f.
Proof. by apply elem_of_union_l, elem_of_singleton. Qed.

(** ** Executable schedules *)

(** Run the first goroutine that can move, again and again. *)
Fixpoint mutex_drive `{Fetcher} (fuel : nat) (s : MutexState) : MutexState :=
  match fuel with
  | O => s
  | S fuel' =>
      match head (omap (λ i, ConcurrentMutex i s) (seq 0 (length (mx_threads s)))) with
      | Some s' => mutex_drive fuel' s'
      | None => s
      end
  end.

Lemma head_omap {A B} (f : A → option B) l y : head (omap f l) = Some y → ∃ x, f x = Some y.
Proof.
  intros Hh. assert (Hy : y ∈ omap f l) by (destruct (omap f l); simplify_eq/=; left).
  apply list_elem_of_omap in Hy as (x & _ & Hx). by exists x.
Qed.

Lemma mutex_drive_steps `{Fetcher} fuel s : rtc mutex_step s (mutex_drive fuel s).
Proof.
  revert s. induction fuel as [|fuel IH]; intros s; simpl; [done|].
  destruct (head _) as [s'|] eqn:Hh; [|done]. apply head_omap in Hh as [i Hi].
  eapply rtc_l; [by exists i|apply IH].
Qed.

(** The same for the master and its workers: a worker that can fetch or send goes first. *)
Fixpoint chan_drive `{Fetcher} (fuel : nat) (s : ChanState) : ChanState :=
  match fuel with
  | O => s
  | S fuel' =>
      match head (omap (λ i, worker i s) (seq 0 (length (ch_workers s)))),
            head (omap (λ i, receive i s) (seq 0 (length (ch_workers s)))), master s with
      | Some s', _, _ | None, Some s', _ | None, None, Some s' => chan_drive fuel' s'
      | None, None, None => s
      end
  end.

Lemma chan_drive_steps `{Fetcher} fuel s : rtc chan_step s (chan_drive fuel s).
Proof.
  revert s. induction fuel as [|fuel IH]; intros s; simpl; [done|].
  destruct (head (omap (λ i, worker i s) _)) as [s1|] eqn:Hw;
    [|destruct (head (omap (λ i, receive i s) _)) as [s2|] eqn:Hr; [|destruct (master s) as [s3|] eqn:Hm; [|done]]].
  - apply head_omap in Hw as [i Hi]. eapply rtc_l; [by apply (chan_worker _ _ i)|apply IH].
  - apply head_omap in Hr as [i Hi]. eapply rtc_l; [by apply (chan_receive _ _ i)|apply IH].
  - eapply rtc_l; [by apply chan_master|apply IH].
Qed.

(** ** The theorems *)

(** [Serial] returns, marks exactly the pages reachable from its URL (beside those marked before),
    and calls [Fetch] once for each newly marked page and for no other. *)
Theorem serial_crawl_correct `{F : Fetcher} (U fetched0 : gset string) (url : string) :
  closed links U → url ∈ U → closed links fetched0 →
  ∃ fetched calls, Serial (S (size U)) url (fetched0, []) = Some (fetched, calls) ∧
    (∀ y, y ∈ fetched ↔ y ∈ fetched0 ∨ reaches links url y) ∧
    NoDup calls ∧ (∀ y, y ∈ calls ↔ y ∈ fetched ∧ y ∉ fetched0).
Proof.
  intros HU Hurl H0. rewrite Serial_dfs.
  destruct (dfs_returns links U (S (size U)) url (fetched0, []) HU Hurl) as [[fetched calls] Hd].
  { unfold unmarked. pose proof (subseteq_size (U ∖ fetched0) U). set_solver by lia. }
  destruct (dfs_searched _ _ _ _ _ Hd) as [new Hs]. exists fetched, calls.
  pose proof (searched_reach links url (fetched0, []) (fetched, calls) new H0 Hs) as Hr.
  destruct Hs as [Hl Hm Hn Hf _ _ _]. simpl in *. subst calls. split_and!; [done..|].
  intros y. rewrite Hm. split; [set_solver|]. set_solver.
Qed.

Lemma serial_crawl_correct_witness :
  let F := fakeFetcher_Fetch fetcher in
  "http://golang.org/pkg/os/"%string ∈ ({["http://golang.org/"%string]} ∪ pages fetcher) ∧
  ∃ fetched calls,
    Serial (S (size ({["http://golang.org/"%string]} ∪ pages fetcher))) "http://golang.org/" (∅, []) =
      Some (fetched, calls) ∧ NoDup calls.
Proof.
  split; [apply (bool_decide_unpack _); vm_compute; exact I|].
  destruct (@serial_crawl_correct (fakeFetcher_Fetch fetcher)
    ({["http://golang.org/"%string]} ∪ pages fetcher) ∅ "http://golang.org/") as (f & c & H1 & _ & H2 & _).
  - apply pages_closed.
  - apply pages_start.
  - apply closed_empty.
  - exact (ex_intro _ f (ex_intro _ c (conj H1 H2))).
Defined.

(** Under every schedule of its goroutines [ConcurrentMutex] takes a bounded number of steps and
    never deadlocks before its first call returns; when that call returns all goroutines have
    returned, and the pages fetched are exactly those reachable from the URL, each fetched once. *)
Theorem mutex_crawl_correct `{F : Fetcher} (U : gset string) (url : string) :
  closed links U → url ∈ U →
  (∀ n s, nsteps mutex_step n (makeState url) s → (n ≤ mutex_measure U (makeState url))%nat) ∧
  ∀ s, rtc mutex_step (makeState url) s →
    ∃ caller, mx_threads s !! 0%nat = Some caller ∧
      (th_pc caller ≠ Returned → ∃ s', mutex_step s s') ∧
      (th_pc caller = Returned →
         (∀ t, t ∈ mx_threads s → th_pc t = Returned) ∧
         NoDup (mx_calls s) ∧ ∀ y, y ∈ mx_calls s ↔ reaches links url y).
Proof.
  intros HU Hurl. split.
  - intros n s Hs.
    pose proof (nsteps_measure mutex_step (mutex_inv url) (mutex_measure U) n (makeState url) s
      (λ a b, mutex_step_inv url a b) (λ a b, mutex_step_measure url U a b HU Hurl) (mutex_init url) Hs). lia.
  - intros s Hs. pose proof (mutex_reachable_inv url s Hs) as Hinv.
    destruct (mutex_root url s Hs) as [caller H0]. exists caller. split; [done|]. split.
    + intros Hpc. apply (tree_progress s (mi_tree _ _ Hinv) (length (mx_threads s)) 0 caller); [lia|done|].
      unfold live. by destruct (th_pc caller).
    + intros Hpc. pose proof (tree_all_returned _ _ (mi_tree _ _ Hinv) H0 Hpc) as Hall.
      destruct (mutex_complete url s Hinv Hall) as (Hnd & Hc & _). split_and!; [|done..].
      intros t [j Hj]%list_elem_of_lookup_1. by apply (Hall j).
Qed.

Lemma mutex_crawl_correct_witness :
  let F := fakeFetcher_Fetch fetcher in
  let s := mutex_drive 100 (makeState "http://golang.org/") in
  length (mx_calls s) = 5%nat ∧ NoDup (mx_calls s) ∧
  reaches links "http://golang.org/" "http://golang.org/pkg/os/".
Proof.
  intros F s.
  destruct (@mutex_crawl_correct F ({["http://golang.org/"%string]} ∪ pages fetcher) "http://golang.org/")
    as [_ Hall]; [apply pages_closed|apply pages_start|].
  destruct (Hall s (mutex_drive_steps _ _)) as (caller & H0 & _ & Hret).
  assert (Hpc : th_pc caller = Returned).
  { assert (Hs : (th_pc <$> mx_threads s !! 0%nat) = Some Returned) by (vm_compute; reflexivity).
    rewrite H0 in Hs. by injection Hs. }
  destruct (Hret Hpc) as (_ & Hnd & Hc). split; [vm_compute; reflexivity|]. split; [done|].
  apply Hc. apply (bool_decide_unpack _). vm_compute. exact I.
Defined.

(** C37: Under every schedule of the master and its workers [ConcurrentChannel] takes a bounded number
    of steps and never deadlocks; when the master leaves its loop every goroutine has ended, and the
    pages fetched are exactly those reachable from the URL, each fetched once. *)
Theorem channel_crawl_correct `{F : Fetcher} (U : gset string) (url : string) :
  closed links U → url ∈ U →
  (∀ n s, nsteps chan_step n (ConcurrentChannel url) s → (n ≤ chan_measure U (ConcurrentChannel url))%nat) ∧
  ∀ s, rtc chan_step (ConcurrentChannel url) s →
    (ch_master s ≠ MDone → ∃ s', chan_step s s') ∧
    (ch_master s = MDone →
       (∀ w, w ∈ ch_workers s → w = WExit) ∧
       NoDup (ch_calls s) ∧ ∀ y, y ∈ ch_calls s ↔ reaches links url y).
Proof.
  intros HU Hurl. split.
  - intros n s Hs.
    pose proof (nsteps_measure chan_step (chan_inv url) (chan_measure U) n (ConcurrentChannel url) s
      (λ a b, chan_step_inv url a b) (λ a b, chan_step_measure url U a b HU Hurl) (chan_init url) Hs). lia.
  - intros s Hs. pose proof (chan_reachable_inv url s Hs) as Hinv. split; [by apply (chan_progress url)|].
    intros Hm. split; [by apply (chan_done_exit url)|].
    destruct (chan_complete url s Hinv Hm) as (Hnd & Hc & _). done.
Qed.

Lemma channel_crawl_correct_witness :
  let F := fakeFetcher_Fetch fetcher in
  let s := chan_drive 100 (ConcurrentChannel "http://golang.org/") in
  length (ch_calls s) = 5%nat ∧ NoDup (ch_calls s) ∧ (∀ w, w ∈ ch_workers s → w = WExit).
Proof.
  intros F s.
  destruct (@channel_crawl_correct F ({["http://golang.org/"%string]} ∪ pages fetcher) "http://golang.org/")
    as [_ Hall]; [apply pages_closed|apply pages_start|].
  destruct (Hall s (chan_drive_steps _ _)) as [_ Hdone].
  destruct Hdone as (Hw & Hnd & _); [vm_compute; reflexivity|].
  split; [vm_compute; reflexivity|done].
Defined.
