(* ===== verification/BinTree.v ===== *)
(** * Walking binary trees: [lab0/binarytree.go]

    [Walk] sends the values of a tree on a channel and closes it; [Same] starts two walkers and compares
    what they send.  The channels are unbuffered: a send is one step with the receive it meets.  The
    struct [tree.Tree] ([Left], [Value], [Right]) is that of [golang.org/x/tour/tree]. *)
From S2P Require Import Prelude.


(** [*tree.Tree]; [Nil] is the nil pointer. *)
Inductive Tree :=
  | Nil
  | Node (Left : Tree) (Value : Z) (Right : Tree).

(** ** A walker

    The stack of a goroutine that runs [Walk]: calls of [traverse] about to start, and calls about to
    send their value. *)
Inductive Frame :=
  | Enter (t : Tree)
  | Send (Value : Z) (Right : Tree).

Inductive Walker :=
  | Running (stack : list Frame)
  | Closed                        (** after [close(ch)] *)
  | Panicked.                     (** a nil pointer was dereferenced *)

(** [if t != nil { traverse(t, ch) }]. *)
Definition call_traverse (t : Tree) (stack : list Frame) : list Frame :=
  match t with Nil => stack | Node _ _ _ => Enter t :: stack end.

(** One step of a walker up to its next send: the start of [traverse], or the [close] of [Walk]. *)
Definition traverse (w : Walker) : option Walker :=
  match w with
  | Running (Enter Nil :: _) => Some Panicked
  | Running (Enter (Node l v r) :: stack) => Some (Running (call_traverse l (Send v r :: stack)))
  | Running [] => Some Closed
  | _ => None
  end.

(** [v, ok := <-ch]: what a receive gets and how the walker goes on; [None]: it has to wait. *)
Definition receive_from (w : Walker) : option (Z * bool * Walker) :=
  match w with
  | Running (Send v r :: stack) => Some (v, true, Running (call_traverse r stack))
  | Closed => Some (0, false, Closed)
  | _ => None
  end.

(** [go Walk(t, ch)]. *)
Definition Walk (t : Tree) : Walker := Running [Enter t].

(** ** [Same] *)

Inductive SamePc :=
  | Recv1                          (** before [v1, ok1 := <-c1] *)
  | Recv2 (v1 : Z) (ok1 : bool)    (** before [v2, ok2 := <-c2] *)
  | Ret (same : bool).

Record SameState := mkSame { walker1 : Walker; walker2 : Walker; caller : SamePc }.

Definition Same_start (t1 t2 : Tree) : SameState := mkSame (Walk t1) (Walk t2) Recv1.

(** The body of the loop after both receives. *)
Definition compare (v1 : Z) (ok1 : bool) (v2 : Z) (ok2 : bool) : SamePc :=
  if negb (Bool.eqb ok1 ok2) || negb (v1 =? v2) then Ret false
  else if negb ok1 || negb ok2 then Ret true
  else Recv1.

Inductive same_step : SameState → SameState → Prop :=
  | same_walk1 w w' u c : traverse w = Some w' → same_step (mkSame w u c) (mkSame w' u c)
  | same_walk2 w u u' c : traverse u = Some u' → same_step (mkSame w u c) (mkSame w u' c)
  | same_recv1 w w' u v ok : receive_from w = Some (v, ok, w') →
      same_step (mkSame w u Recv1) (mkSame w' u (Recv2 v ok))
  | same_recv2 w u u' v1 ok1 v ok : receive_from u = Some (v, ok, u') →
      same_step (mkSame w u (Recv2 v1 ok1)) (mkSame w u' (compare v1 ok1 v ok)).

(** The values of a tree from left to right. *)
Fixpoint inorder (t : Tree) : list Z :=
  match t with
  | Nil => []
  | Node l v r => inorder l ++ v :: inorder r
  end.

(** ** What a walker has still to send *)

Definition frame_values (f : Frame) : list Z :=
  match f with
  | Enter t => inorder t
  | Send v r => v :: inorder r
  end.

Definition rest (w : Walker) : list Z :=
  match w with
  | Running stack => mjoin (frame_values <$> stack)
  | _ => []
  end.

(** No frame enters a nil tree. *)
Definition good (w : Walker) : Prop :=
  match w with
  | Running stack => Forall (λ f, f ≠ Enter Nil) stack
  | Closed => True
  | Panicked => False
  end.

Lemma rest_call t stack : rest (Running (call_traverse t stack)) = inorder t ++ rest (Running stack).
Proof. by destruct t. Qed.

Lemma good_call t stack : good (Running stack) → good (Running (call_traverse t stack)).
Proof. destruct t; simpl; [done|]. intros. by constructor. Qed.

Lemma traverse_rest w w' : good w → traverse w = Some w' → rest w' = rest w ∧ good w'.
Proof.
  intros Hg Hw. destruct w as [[|[[|l v r]|v r] stack]| |]; simplify_eq/=; [done|by inversion Hg|].
  inversion Hg; subst. split; [|apply good_call; by constructor].
  change (mjoin (frame_values <$> call_traverse l (Send v r :: stack)))
    with (rest (Running (call_traverse l (Send v r :: stack)))).
  rewrite rest_call. simpl. by rewrite <-(assoc_L (++)).
Qed.

Lemma receive_rest w v ok w' :
  good w → receive_from w = Some (v, ok, w') →
  good w' ∧ (if ok then rest w = v :: rest w' else v = 0 ∧ rest w = [] ∧ w' = Closed).
Proof.
  intros Hg Hw. destruct w as [[|[t|v0 r] stack]| |]; simplify_eq/=; [|done].
  inversion Hg; subst. split; [by apply good_call|].
  change (mjoin (frame_values <$> call_traverse r stack)) with (rest (Running (call_traverse r stack))).
  by rewrite rest_call.
Qed.

(** A walker moves by itself or has something to receive. *)
Lemma walker_ready w : good w → (∃ w', traverse w = Some w') ∨ (∃ r, receive_from w = Some r).
Proof.
  destruct w as [[|[[|l v r]|v r] stack]| |]; simpl; intros Hg; [left|left|left|right|right|done]; by eexists.
Qed.

(** ** The comparison over every schedule *)

Section same.
Variables t1 t2 : Tree.

Definition agree (p : list Z) (s : SameState) : Prop :=
  inorder t2 = p ++ rest (walker2 s) ∧
  match caller s with
  | Recv1 => inorder t1 = p ++ rest (walker1 s)
  | Recv2 v true => inorder t1 = p ++ v :: rest (walker1 s)
  | Recv2 v false => v = 0 ∧ inorder t1 = p
  | Ret _ => True
  end.

Definition same_inv (s : SameState) : Prop :=
  good (walker1 s) ∧ good (walker2 s) ∧
  match caller s with
  | Ret b => b = bool_decide (inorder t1 = inorder t2)
  | _ => ∃ p, agree p s
  end.

Lemma compare_inv p w u u' v1 ok1 v ok :
  agree p (mkSame w u (Recv2 v1 ok1)) → good w → good u → receive_from u = Some (v, ok, u') →
  same_inv (mkSame w u' (compare v1 ok1 v ok)).
Proof.
  intros [H2 H1] Hw Hu Hr. destruct (receive_rest _ _ _ _ Hu Hr) as [Hu' Hrest]. simpl in *.
  unfold compare. destruct ok1, ok; simpl.
  - rewrite Hrest in H2. destruct (Z.eqb_spec v1 v) as [->|Hne]; simpl.
    + split_and!; [done..|]. exists (p ++ [v]). split; simpl; by rewrite <-(assoc_L (++)).
    + split_and!; [done..|]. symmetry. apply bool_decide_eq_false. rewrite H1, H2.
      intros Heq%(inj (p ++.)). congruence.
  - destruct Hrest as (_ & Hn & _). split_and!; [done..|]. symmetry. apply bool_decide_eq_false.
    rewrite H1, H2, Hn. intros Heq%(inj (p ++.)). done.
  - destruct H1 as [_ H1]. split_and!; [done..|]. symmetry. apply bool_decide_eq_false.
    rewrite H1, H2, Hrest. intros Heq. apply (f_equal length) in Heq. rewrite length_app in Heq. simpl in Heq. lia.
  - destruct H1 as [-> H1], Hrest as (-> & Hn & _). simpl. split_and!; [done..|]. symmetry.
    apply bool_decide_eq_true. by rewrite H2, Hn, app_nil_r.
Qed.

Lemma same_step_inv s s' : same_inv s → same_step s s' → same_inv s'.
Proof.
  intros (Hg1 & Hg2 & Hc) Hs.
  destruct Hs as [w w' u c Ht|w u u' c Ht|w w' u v ok Hr|w u u' v1 ok1 v ok Hr]; simpl in *.
  - destruct (traverse_rest _ _ Hg1 Ht) as [Hrest Hg]. split_and!; [done..|]. simpl.
    destruct c as [|v1 ok1|]; [| |done]; destruct Hc as (p & H2 & H1); exists p; split; simpl in *; [done|by rewrite Hrest|done|].
    destruct ok1; [by rewrite Hrest|done].
  - destruct (traverse_rest _ _ Hg2 Ht) as [Hrest Hg]. split_and!; [done..|]. simpl.
    destruct c; [| |done]; destruct Hc as (p & H2 & H1); exists p; split; simpl in *; [by rewrite Hrest|done|by rewrite Hrest|done].
  - destruct (receive_rest _ _ _ _ Hg1 Hr) as [Hg Hrest]. split_and!; [done..|]. simpl.
    destruct Hc as (p & H2 & H1). exists p. split; [done|]. simpl in *. destruct ok; [by rewrite <-Hrest|].
    destruct Hrest as (-> & Hn & _). split; [done|]. by rewrite H1, Hn, app_nil_r.
  - destruct Hc as (p & Hp). by eapply compare_inv.
Qed.

Lemma same_init : t1 ≠ Nil → t2 ≠ Nil → same_inv (Same_start t1 t2).
Proof.
  intros H1 H2. split_and!; simpl; [constructor; [congruence|done]..|].
  exists []. split; simpl; by rewrite app_nil_r.
Qed.

Lemma same_progress s : same_inv s → (∀ b, caller s ≠ Ret b) → ∃ s', same_step s s'.
Proof.
  destruct s as [w u c]. intros (Hg1 & Hg2 & _) Hc. simpl in *. destruct c as [|v1 ok1|b].
  - destruct (walker_ready w Hg1) as [[w' Hw]|[[[v ok] w'] Hw]]; eexists; [by eapply same_walk1|by eapply same_recv1].
  - destruct (walker_ready u Hg2) as [[u' Hu]|[[[v ok] u'] Hu]]; eexists; [by eapply same_walk2|by eapply same_recv2].
  - by destruct (Hc b).
Qed.

(** ** Termination *)

Fixpoint tree_weight (t : Tree) : nat :=
  match t with Nil => 0 | Node l _ r => tree_weight l + 3 + tree_weight r end.

Definition frame_weight (f : Frame) : nat :=
  match f with Enter t => tree_weight t | Send _ r => 2 + tree_weight r end.

Definition walker_weight (w : Walker) : nat :=
  match w with Running stack => 1 + sum_list_with frame_weight stack | _ => 0 end.

Definition pc_rank (c : SamePc) : nat := match c with Recv1 => 2 | Recv2 _ _ => 1 | Ret _ => 0 end.

Definition same_measure (s : SameState) : nat :=
  walker_weight (walker1 s) + walker_weight (walker2 s) + pc_rank (caller s).

Lemma call_weight t stack :
  sum_list_with frame_weight (call_traverse t stack) = (tree_weight t + sum_list_with frame_weight stack)%nat.
Proof. by destruct t. Qed.

Lemma traverse_weight w w' : traverse w = Some w' → (walker_weight w' < walker_weight w)%nat.
Proof.
  destruct w as [[|[[|l v r]|v r] stack]| |]; intros ?; simplify_eq/=; [lia..|].
  rewrite call_weight. simpl. lia.
Qed.

Lemma receive_weight w v ok w' :
  receive_from w = Some (v, ok, w') →
  (walker_weight w' + (if ok then 2 else 0) = walker_weight w)%nat.
Proof.
  destruct w as [[|[t|v0 r] stack]| |]; intros ?; simplify_eq/=; [|done]. rewrite call_weight. lia.
Qed.

Lemma same_step_measure s s' : same_step s s' → (same_measure s' < same_measure s)%nat.
Proof.
  intros Hs. unfold same_measure.
  destruct Hs as [w w' u c Ht|w u u' c Ht|w w' u v ok Hr|w u u' v1 ok1 v ok Hr]; simpl.
  - pose proof (traverse_weight _ _ Ht). lia.
  - pose proof (traverse_weight _ _ Ht). lia.
  - pose proof (receive_weight _ _ _ _ Hr). destruct ok; lia.
  - pose proof (receive_weight _ _ _ _ Hr). unfold compare.
    destruct ok1, ok, (v1 =? v); simpl in *; lia.
Qed.

End same.

(** ** The theorem *)

(** For two trees that are not nil, under every schedule of the walkers and the caller, [Same]
    returns after a bounded number of steps without deadlock or panic, and returns true exactly when
    the trees hold the same sequence of values from left to right. *)
Theorem Same_correct (t1 t2 : Tree) :
  t1 ≠ Nil → t2 ≠ Nil →
  (∀ n s, nsteps same_step n (Same_start t1 t2) s → (n ≤ same_measure (Same_start t1 t2))%nat) ∧
  ∀ s, rtc same_step (Same_start t1 t2) s →
    walker1 s ≠ Panicked ∧ walker2 s ≠ Panicked ∧
    ((∀ b, caller s ≠ Ret b) → ∃ s', same_step s s') ∧
    (∀ b, caller s = Ret b → (b = true ↔ inorder t1 = inorder t2)).
Proof.
  intros H1 H2. split.
  - intros n s Hs. pose proof (nsteps_measure same_step (λ _, True) same_measure n _ s
      (λ _ _ _ _, I) (λ a b _, same_step_measure a b) I Hs). lia.
  - intros s Hs.
    assert (Hinv : same_inv t1 t2 s).
    { revert Hs. apply (rtc_preserve same_step (same_inv t1 t2)); [apply same_step_inv|by apply same_init]. }
    pose proof Hinv as (Hg1 & Hg2 & Hc). split_and!; [by intros Hp; rewrite Hp in Hg1|by intros Hp; rewrite Hp in Hg2|by apply same_progress with t1 t2|].
    intros b Hb. rewrite Hb in Hc. subst b. apply bool_decide_eq_true.
Qed.

(** Trees of different shape with the same values. *)
Lemma Same_correct_witness :
  let t1 := Node (Node Nil 1 Nil) 2 Nil in
  let t2 := Node Nil 1 (Node Nil 2 Nil) in
  (∃ s, same_step (Same_start t1 t2) s) ∧
  ∀ s b, rtc same_step (Same_start t1 t2) s → caller s = Ret b → b = true.
Proof.
  intros t1 t2. destruct (Same_correct t1 t2) as [_ Hall]; [discriminate|discriminate|]. split.
  - apply (Hall (Same_start t1 t2)); [constructor|]. intros b. discriminate.
  - intros s b Hs Hb. destruct (Hall s Hs) as (_ & _ & _ & Hret). by apply (Hret b Hb).
Defined.
