(* ===== verification/Labgob.v ===== *)
(** * The encoder's checks: [labgob/labgob.go]

    [labgob] wraps [encoding/gob] with two checks: [checkType] walks the type of a value and complains
    about lower-case field names, [checkDefault] walks the variable a value is decoded into and complains
    about parts that are not zero.  Types are the nodes of a graph, as [reflect] presents them: a type
    may mention itself through a pointer, a slice or a map. *)
From S2P Require Import Prelude Graph.



(** A [reflect.Type], compared by identity. *)
Definition rtype : Type := positive.

(** The kinds the code tells apart.  [Scalar] stands for the list [reflect.Bool ... reflect.String] of
    [checkDefault1], [Other] for interfaces, channels, functions and the rest. *)
Inductive Kind :=
  | Struct (fields : list (string * rtype))
  | Slice (elem : rtype)
  | Array (elem : rtype)
  | Ptr (elem : rtype)
  | Map (key elem : rtype)
  | Scalar
  | Other.

Record TypeInfo := { Name : string; kind : Kind }.

(** The declarations of the program: what [reflect] knows about each type. *)
Class Types := type_info : rtype → TypeInfo.

(** [unicode.IsUpper] of the first rune of a name; Go's rule for exported identifiers is the same. *)
Class Unicode := IsUpper : string → bool.

(** What is printed. *)
Inductive Message :=
  | LowerCase (field type : string)
  | NonDefault (what : string).

(** The package's variables, and what it has printed. *)
Record gobState := mkGob {
  checked : gset rtype;
  errorCount : Z;
  printed : list Message
}.

(** The program starts with [checked == nil]. *)
Definition gob_init : gobState := mkGob ∅ 0 [].

Section labgob.
Context `{T : Types} `{U : Unicode}.

Definition Kind_of (t : rtype) : Kind := kind (type_info t).

(** ** Lower-case fields *)

Definition mark_checked (t : rtype) (st : gobState) : gobState :=
  mkGob ({[t]} ∪ checked st) (errorCount st) (printed st).

(** The complaint about one field. *)
Definition check_field (t : rtype) (name : string) (st : gobState) : gobState :=
  if IsUpper name then st
  else mkGob (checked st) (errorCount st + 1) (printed st ++ [LowerCase name (Name (type_info t))]).

Fixpoint checkType (fuel : nat) (t : rtype) (st : gobState) : option gobState :=
  match fuel with
  | O => None
  | S fuel' =>
      if decide (t ∈ checked st) then Some st
      else
        let st := mark_checked t st in
        match Kind_of t with
        | Struct fields =>
            range_loop (λ f st, checkType fuel' f.2 (check_field t f.1 st)) fields st
        | Slice elem | Array elem | Ptr elem => checkType fuel' elem st
        | Map key elem => st' ← checkType fuel' elem st; checkType fuel' key st'
        | Scalar | Other => Some st
        end
  end.

(** ** Values that are not zero *)

Inductive Content :=
  | CBool (b : bool)
  | CInt (z : Z)
  | CFloat (width bits : Z)
  | CString (s : string).

(** [reflect.DeepEqual(reflect.Zero(t).Interface(), value.Interface())]; [-0.0 == 0.0]. *)
Definition is_zero (c : Content) : bool :=
  match c with
  | CBool b => negb b
  | CInt z => z =? 0
  | CFloat w bits => (bits =? 0) || (bits =? 2 ^ (w - 1))
  | CString s => bool_decide (s = EmptyString)
  end.

(** A [reflect.Value] with its type. *)
Inductive Value :=
  | VStruct (t : rtype) (fields : list Value)
  | VPtr (t : rtype) (target : option Value)
  | VScalar (t : rtype) (c : Content)
  | VOther (t : rtype).

Definition TypeOf (v : Value) : rtype :=
  match v with VStruct t _ | VPtr t _ | VScalar t _ | VOther t => t end.

(** The values of a type. *)
Inductive has_type : Value → rtype → Prop :=
  | ht_struct t fields vs : Kind_of t = Struct fields →
      Forall2 (λ v f, has_type v (snd f)) vs fields → has_type (VStruct t vs) t
  | ht_nil t elem : Kind_of t = Ptr elem → has_type (VPtr t None) t
  | ht_ptr t elem v : Kind_of t = Ptr elem → has_type v elem → has_type (VPtr t (Some v)) t
  | ht_scalar t c : Kind_of t = Scalar → has_type (VScalar t c) t
  | ht_other t : match Kind_of t with Slice _ | Array _ | Map _ _ | Other => True | _ => False end →
      has_type (VOther t) t.

(** The name of a field below [name]. *)
Definition field_name (name field : string) : string :=
  if bool_decide (name = EmptyString) then field
  else String.append name (String.append "." field).

(** The body of the last case.  [value.Interface()] panics on a value that was reached through an
    unexported field: [ro] is [reflect]'s flag for such values. *)
Definition check_scalar (ro : bool) (t : rtype) (c : Content) (name : string) (st : gobState) :
    option gobState :=
  if ro then None
  else if is_zero c then Some st
  else
    let what := if bool_decide (name = EmptyString) then Name (type_info t) else name in
    let out := if errorCount st <? 1 then [NonDefault what] else [] in
    Some (mkGob (checked st) (errorCount st + 1) (printed st ++ out)).

(** [checkDefault1(value, depth, name)] with [left = 4 - depth], so that [depth > 3] is [left = 0].
    [None] is a panic. *)
Fixpoint checkDefault1 (left : nat) (ro : bool) (value : Value) (name : string) (st : gobState) :
    option gobState :=
  match left with
  | O => Some st
  | S left' =>
      match Kind_of (TypeOf value), value with
      | Struct fields, VStruct _ vs =>
          range_loop (λ f st,
            vv ← vs !! f.1;
            checkDefault1 left' (ro || negb (IsUpper f.2.1)) vv (field_name name f.2.1) st)
            (imap pair fields) st
      | Ptr _, VPtr _ None => Some st
      | Ptr _, VPtr _ (Some v) => checkDefault1 left' ro v name st
      | Scalar, VScalar t c => check_scalar ro t c name st
      | Slice _, _ | Array _, _ | Map _ _, _ | Other, _ => Some st
      | _, _ => None
      end
  end.

(** [checkDefault(value)]; [None] as argument is the nil interface. *)
Definition checkDefault (value : option Value) (st : gobState) : option gobState :=
  match value with
  | None => Some st
  | Some v => checkDefault1 3 false v "" st
  end.

(** [checkValue(value)]: [reflect.TypeOf] of the nil interface is nil, whose [Kind] panics. *)
Definition checkValue (fuel : nat) (value : option Value) (st : gobState) : option gobState :=
  v ← value; checkType fuel (TypeOf v) st.

(** ** The wrappers

    The functions of [encoding/gob] are arguments; a [LabEncoder] holds one [gob.Encoder]. *)

Definition Encode {Enc R} (gob_Encode : option Value → Enc → R) (fuel : nat) (enc : Enc)
    (e : option Value) (st : gobState) : option (R * gobState) :=
  st' ← checkValue fuel e st; Some (gob_Encode e enc, st').

Definition EncodeValue {Enc R} (gob_EncodeValue : Value → Enc → R) (fuel : nat) (enc : Enc)
    (value : Value) (st : gobState) : option (R * gobState) :=
  st' ← checkValue fuel (Some value) st; Some (gob_EncodeValue value enc, st').

Definition Decode {Dec R} (gob_Decode : option Value → Dec → R) (fuel : nat) (dec : Dec)
    (e : option Value) (st : gobState) : option (R * gobState) :=
  st' ← checkValue fuel e st;
  st'' ← checkDefault e st';
  Some (gob_Decode e dec, st'').

Definition Register {Reg} (gob_Register : option Value → Reg → Reg) (fuel : nat) (value : option Value)
    (reg : Reg) (st : gobState) : option (Reg * gobState) :=
  st' ← checkValue fuel value st; Some (gob_Register value reg, st').

Definition RegisterName {Reg} (gob_RegisterName : string → option Value → Reg → Reg) (fuel : nat)
    (name : string) (value : option Value) (reg : Reg) (st : gobState) : option (Reg * gobState) :=
  st' ← checkValue fuel value st; Some (gob_RegisterName name value reg, st').

(** ** The type walk is a depth-first search *)

(** The types a type mentions, in the order [checkType] visits them. *)
Definition mentions (t : rtype) : list rtype :=
  match Kind_of t with
  | Struct fields => fields.*2
  | Slice elem | Array elem | Ptr elem => [elem]
  | Map key elem => [elem; key]
  | Scalar | Other => []
  end.

(** The complaints a type deserves: one per lower-case field. *)
Definition complaints (t : rtype) : list Message :=
  match Kind_of t with
  | Struct fields => (λ f, LowerCase f.1 (Name (type_info t))) <$> filter (λ f, IsUpper f.1 = false) fields
  | _ => []
  end.

(** [st'] is [st] after the types [new] were walked and the fields of [own] complained about. *)
Record walked (st st' : gobState) (new : list rtype) (own : list Message) : Prop := {
  wk_printed : printed st' ≡ₚ printed st ++ own ++ mjoin (complaints <$> new);
  wk_count : errorCount st' = errorCount st + zlen (own ++ mjoin (complaints <$> new))
}.

(** The walk and the search, started with the same marked types, end alike. *)
Definition same_walk (log : list rtype) (st : gobState) (own : list Message)
    (r : option (gset rtype * list rtype)) (r' : option gobState) : Prop :=
  match r, r' with
  | Some (c, log'), Some st' => ∃ new, log' = log ++ new ∧ checked st' = c ∧ walked st st' new own
  | None, None => True
  | _, _ => False
  end.

Lemma walked_refl st : walked st st [] [].
Proof. split; simpl; [by rewrite app_nil_r|lia]. Qed.

Lemma walked_trans st st1 st2 n1 n2 o1 o2 :
  walked st st1 n1 o1 → walked st1 st2 n2 o2 → walked st st2 (n1 ++ n2) (o1 ++ o2).
Proof.
  intros [Hp1 Hc1] [Hp2 Hc2]. split.
  - rewrite Hp2, Hp1, fmap_app, join_app. solve_Permutation.
  - rewrite Hc2, Hc1, fmap_app, join_app, !length_app. lia.
Qed.

(** Two parts of a walk in sequence. *)
Lemma same_walk_bind log st o1 o2 r r' (k : _ → option (gset rtype * list rtype)) (k' : _ → option gobState) :
  same_walk log st o1 r r' →
  (∀ log1 st1, same_walk log1 st1 o2 (k (checked st1, log1)) (k' st1)) →
  same_walk log st (o1 ++ o2) (r ≫= k) (r' ≫= k').
Proof.
  intros Hr Hk. destruct r as [[c log1]|], r' as [st1|]; try done. simpl in *.
  destruct Hr as (n1 & -> & <- & Hw1). specialize (Hk (log ++ n1) st1).
  destruct (k _) as [[c2 log2]|], (k' st1) as [st2|]; try done. simpl in *.
  destruct Hk as (n2 & -> & <- & Hw2). exists (n1 ++ n2). split; [by rewrite (assoc_L (++))|].
  split; [done|]. by eapply walked_trans.
Qed.

(** The complaint about a field belongs to the type that has it. *)
Definition field_complaint (t : rtype) (f : string * rtype) : list Message :=
  if IsUpper f.1 then [] else [LowerCase f.1 (Name (type_info t))].

Lemma complaints_fields t fields :
  Kind_of t = Struct fields → complaints t = mjoin (field_complaint t <$> fields).
Proof.
  unfold complaints. intros ->. induction fields as [|f fields IH]; [done|].
  unfold field_complaint at 1. rewrite filter_cons. csimpl. destruct (IsUpper f.1); csimpl; by rewrite IH.
Qed.

Lemma same_walk_field t f log st r r' :
  same_walk log (check_field t f.1 st) [] r r' → same_walk log st (field_complaint t f) r r'.
Proof.
  destruct r as [[c log']|], r' as [st'|]; try done. simpl. intros (new & -> & Hc & [Hp Hn]).
  exists new. split_and!; [done..|]. unfold check_field, field_complaint in *. simpl in *.
  destruct (IsUpper f.1); split; simpl in *; [done|done| |lia]. rewrite Hp. by rewrite <-(assoc_L (++)).
Qed.

Lemma same_walk_node t log st r r' :
  same_walk (log ++ [t]) (mark_checked t st) (complaints t) r r' → same_walk log st [] r r'.
Proof.
  destruct r as [[c log']|], r' as [st'|]; try done. simpl. intros (new & -> & Hc & [Hp Hn]).
  exists (t :: new). split_and!; [by rewrite <-(assoc_L (++))|done|]. split; csimpl; simpl in *; [done|].
  by rewrite Hn.
Qed.

Lemma checkType_dfs fuel t log st :
  same_walk log st [] (dfs mentions fuel t (checked st, log)) (checkType fuel t st).
Proof.
  revert t log st. induction fuel as [|fuel IH]; intros t log st; [done|].
  simpl. case_decide as Hin.
  { exists []. rewrite app_nil_r. split_and!; [done..|apply walked_refl]. }
  apply (same_walk_node t). unfold complaints at 1, mentions.
  assert (Hdone : same_walk (log ++ [t]) (mark_checked t st) [] (Some ({[t]} ∪ checked st, log ++ [t]))
    (Some (mark_checked t st))).
  { exists []. rewrite app_nil_r. split_and!; [done..|apply walked_refl]. }
  assert (Hone : ∀ x l s, same_walk l s [] (range_loop (dfs mentions fuel) [x] (checked s, l)) (checkType fuel x s)).
  { intros x l s. simpl. specialize (IH x l s). by destruct (dfs _ fuel x _). }
  destruct (Kind_of t) as [fields|e|e|e|k e| |] eqn:Hk; [|apply (Hone e)..|apply (same_walk_bind _ _ [] []);
    [apply (IH e)|intros; apply (Hone k)]|done|done].
  pose proof (complaints_fields t fields Hk) as Hc. unfold complaints in Hc. rewrite Hk in Hc. rewrite Hc.
  change ({[t]} ∪ checked st) with (checked (mark_checked t st)). clear Hk Hc Hdone Hone Hin.
  generalize (log ++ [t]), (mark_checked t st). clear log st.
  induction fields as [|f fields IHf]; intros log st; csimpl.
  - exists []. rewrite app_nil_r. split_and!; [done..|apply walked_refl].
  - apply same_walk_bind; [|intros; apply IHf]. apply same_walk_field.
    replace (checked st) with (checked (check_field t f.1 st)); [apply IH|].
    unfold check_field. by destruct (IsUpper f.1).
Qed.

(** ** What the value walk sees *)

(** A scalar the walk looks at: whether it was reached through an unexported field, the name it is
    reported by, and its content. *)
Record Leaf := mkLeaf { lf_ro : bool; lf_type : rtype; lf_name : string; lf_content : Content }.

Fixpoint leaves (left : nat) (ro : bool) (value : Value) (name : string) : list Leaf :=
  match left with
  | O => []
  | S left' =>
      match value with
      | VStruct t vs =>
          match Kind_of t with
          | Struct fields =>
              mjoin (zip_with (λ f v, leaves left' (ro || negb (IsUpper f.1)) v (field_name name f.1)) fields vs)
          | _ => []
          end
      | VPtr _ (Some v) => leaves left' ro v name
      | VPtr _ None => []
      | VScalar t c => [mkLeaf ro t name c]
      | VOther _ => []
      end
  end.

Definition visit (l : Leaf) (st : gobState) : option gobState :=
  check_scalar (lf_ro l) (lf_type l) (lf_content l) (lf_name l) st.

(** On a value of its type the walk is the sequence of its scalars. *)
Lemma checkDefault1_leaves left ro v t name st :
  has_type v t → checkDefault1 left ro v name st = range_loop visit (leaves left ro v name) st.
Proof.
  revert ro v t name st. induction left as [|left IH]; intros ro v t name st Hv; [done|].
  simpl. destruct Hv as [t fields vs Hk Hvs|t elem Hk|t elem v Hk Hv|t c Hk|t Hk]; simpl; try rewrite Hk.
  - cut (∀ off pre, length pre = off →
      range_loop (λ f st, vv ← (pre ++ vs) !! f.1;
        checkDefault1 left (ro || negb (IsUpper f.2.1)) vv (field_name name f.2.1) st)
        (imap (λ i f, (off + i, f)%nat) fields) st =
      range_loop visit (mjoin (zip_with (λ f v,
        leaves left (ro || negb (IsUpper f.1)) v (field_name name f.1)) fields vs)) st).
    { intros Hcut. by apply (Hcut 0%nat []). }
    clear Hk. revert st. induction Hvs as [|v f vs fields Hv Hvs IHl]; intros st off pre Hoff; [done|].
    csimpl. rewrite range_loop_app, Nat.add_0_r, lookup_app_r, Hoff, Nat.sub_diag by lia. simpl.
    rewrite (IH _ _ _ _ _ Hv). destruct (range_loop visit _ st) as [st'|]; simpl; [|done].
    rewrite <-(IHl st' (S off) (pre ++ [v])) by (rewrite length_app; simpl; lia).
    rewrite <-(assoc_L (++)). simpl. f_equal. apply imap_ext. intros i x _. unfold compose. f_equal. lia.
  - done.
  - by apply IH with elem.
  - unfold visit. simpl. by destruct (check_scalar _ _ _ _ _).
  - by destruct (Kind_of t).
Qed.

(** Walking scalars that were reached through exported fields only. *)
Lemma visit_exported ls st :
  Forall (λ l, lf_ro l = false) ls →
  let bad := filter (λ l, is_zero (lf_content l) = false) ls in
  ∃ st', range_loop visit ls st = Some st' ∧ checked st' = checked st ∧
    errorCount st' = errorCount st + zlen bad.
Proof.
  intros Hl. revert st. induction Hl as [|l ls Hro Hl IH]; intros st; simpl.
  { exists st. split_and!; [done..|lia]. }
  unfold visit at 2, check_scalar. rewrite Hro. rewrite filter_cons.
  destruct (is_zero (lf_content l)); simpl; [apply IH|].
  match goal with |- context [range_loop visit ls ?s] => destruct (IH s) as (st' & Hst' & Hc & Hn) end.
  exists st'. split_and!; [done..|]. simpl in *. lia.
Qed.

(** Walking past a scalar that was reached through an unexported field. *)
Lemma visit_unexported ls st : Exists (λ l, lf_ro l = true) ls → range_loop visit ls st = None.
Proof.
  intros Hl. revert st. induction Hl as [l ls Hro|l ls Hl IH]; intros st; simpl.
  - unfold visit at 2, check_scalar. by rewrite Hro.
  - destruct (visit l st); simpl; [apply IH|done].
Qed.

End labgob.
