(* ===== verification/LabgobTheorems.v ===== *)
(** * What the encoder's checks report *)
From S2P Require Import Prelude Graph Labgob.


(** ** A few types to evaluate on: those of [labgob]'s own tests *)

(** ASCII capitals. *)
Definition ascii_upper : Unicode := λ name,
  match name with
  | String c _ => (65 <=? Z.of_nat (Ascii.nat_of_ascii c)) && (Z.of_nat (Ascii.nat_of_ascii c) <=? 90)
  | EmptyString => false
  end.

Definition int_t : rtype := 1%positive.
Definition T4 : rtype := 2%positive.
Definition T4_ptr : rtype := 3%positive.
Definition map_t : rtype := 4%positive.
Definition slice_t : rtype := 5%positive.

(** [type T4 struct { Yes int; no int }], [*T4], [map[*T4]int], [[]map[*T4]int]. *)
Definition test_types : Types := λ t,
  match t with
  | 2 => {| Name := "T4"; kind := Struct [("Yes", int_t); ("no", int_t)] |}
  | 3 => {| Name := ""; kind := Ptr T4 |}
  | 4 => {| Name := ""; kind := Map T4_ptr int_t |}
  | 5 => {| Name := ""; kind := Slice map_t |}
  | _ => {| Name := "int"; kind := Scalar |}
  end%positive%string.

Definition test_universe : gset rtype := {[int_t; T4; T4_ptr; map_t; slice_t]}.

Lemma test_universe_closed : closed (@mentions test_types) test_universe.
Proof.
  assert (Hall : set_Forall (λ x, Forall (.∈ test_universe) (@mentions test_types x)) test_universe)
    by (apply (bool_decide_unpack _); vm_compute; exact I).
  intros x y Hx Hy. specialize (Hall x Hx). rewrite Forall_forall in Hall. by apply Hall.
Qed.

(** ** The theorems *)

Section theorems.
Context `{T : Types} `{UC : Unicode}.

(** The walk from a set of checked types that is closed marks what the type mentions, at any depth. *)
Lemma checkType_walk (U : gset rtype) t st :
  closed mentions U → t ∈ U → closed mentions (checked st) →
  ∃ st' new, checkType (S (size U)) t st = Some st' ∧ NoDup new ∧
    (∀ y, y ∈ new ↔ reaches mentions t y ∧ y ∉ checked st) ∧
    (∀ y, y ∈ checked st' ↔ y ∈ checked st ∨ reaches mentions t y) ∧
    walked st st' new [].
Proof.
  intros HU Ht Hc. destruct (dfs_returns mentions U (S (size U)) t (checked st, []) HU Ht) as [[c log] Hd].
  { unfold unmarked. simpl. pose proof (subseteq_size (U ∖ checked st) U). set_solver by lia. }
  pose proof (checkType_dfs (S (size U)) t [] st) as Hw. rewrite Hd in Hw.
  destruct (checkType (S (size U)) t st) as [st'|] eqn:Hct; [|done].
  destruct Hw as (new & Hlog & Hchk & Hw). simpl in Hlog. subst log c.
  destruct (dfs_searched _ _ _ _ _ Hd) as [new' Hs]. exists st', new.
  pose proof (se_log _ _ _ _ _ Hs) as Hl. simpl in Hl. subst new'.
  pose proof (searched_reach mentions t (checked st, []) (checked st', new) new Hc Hs) as Hr.
  destruct Hs as [_ Hm Hn Hf _ _ _]. simpl in *. split_and!; [done|done| |done|done].
  intros y. split.
  - intros Hy. pose proof (Hf y Hy). assert (Hy' : y ∈ checked st') by (rewrite Hm; set_solver).
    apply Hr in Hy' as [?|?]; done.
  - intros [Hy Hny]. assert (Hy' : y ∈ checked st') by (apply Hr; by right). rewrite Hm in Hy'. set_solver.
Qed.

(** [checkType] returns on recursive types too, and over the life of the program complains exactly
    once about each lower-case field of every type that the value's type mentions, directly or not: the
    new complaints are those of the types reached now and not checked before. *)
Theorem checkType_reports_once (U : gset rtype) (t : rtype) (st : gobState) :
  closed mentions U → t ∈ U → closed mentions (checked st) →
  ∃ st' new, checkType (S (size U)) t st = Some st' ∧ NoDup new ∧
    (∀ y, y ∈ new ↔ reaches mentions t y ∧ y ∉ checked st) ∧
    (∀ y, y ∈ checked st' ↔ y ∈ checked st ∨ reaches mentions t y) ∧ closed mentions (checked st') ∧
    printed st' ≡ₚ printed st ++ mjoin (complaints <$> new) ∧
    errorCount st' = errorCount st + zlen (mjoin (complaints <$> new)).
Proof.
  intros HU Ht Hc. destruct (checkType_walk U t st HU Ht Hc) as (st' & new & Hct & Hn & Hnew & Hr & [Hp He]).
  exists st', new. split_and!; try done. intros y z Hy Hz. apply Hr. apply Hr in Hy as [Hy|Hy].
  - left. by eapply Hc.
  - right. by eapply rtc_r.
Qed.


(** Decoding into a pointer to a struct that has a lower-case scalar field does not just warn: the
    type check returns, with the struct's type checked, and the check for default values then panics,
    whatever the field holds. *)
Theorem Decode_lowercase_panics {Dec R} (gob_Decode : option Value → Dec → R) (dec : Dec)
    (U : gset rtype) (pt t : rtype) fields vs i name ft (st : gobState) :
  closed mentions U → pt ∈ U → closed mentions (checked st) →
  has_type (VPtr pt (Some (VStruct t vs))) pt → Kind_of t = Struct fields →
  fields !! i = Some (name, ft) → IsUpper name = false → Kind_of ft = Scalar →
  let e := Some (VPtr pt (Some (VStruct t vs))) in
  (∃ st', checkValue (S (size U)) e st = Some st' ∧ t ∈ checked st' ∧ checkDefault e st' = None) ∧
  Decode gob_Decode (S (size U)) dec e st = None.
Proof.
  intros HU Hpt Hc Hv Hk Hi Hlow Hft e.
  destruct (checkType_walk U pt st HU Hpt Hc) as (st' & _ & Hct & _ & _ & Hr & _).
  assert (Hel : ∃ elem, Kind_of pt = Ptr elem ∧ has_type (VStruct t vs) elem) by (inversion Hv; eauto).
  destruct Hel as (elem & Hkp & Hs).
  assert (Helem : elem = t ∧ Forall2 (λ v f, has_type v (snd f)) vs fields).
  { inversion Hs; subst. split; [done|]. congruence. }
  destruct Helem as [-> Hvs].
  assert (Hpanic : checkDefault e st' = None).
  { unfold e, checkDefault. rewrite (checkDefault1_leaves 3 false _ pt "" st' Hv).
    apply visit_unexported, Exists_exists.
    destruct (Forall2_lookup_r _ _ _ i (name, ft) Hvs Hi) as (w & Hw & Htw). simpl in Htw.
    inversion Htw as [| | |t' c Hkc|t' Hot]; subst; try congruence; [|by rewrite Hft in Hot].
    exists (mkLeaf true ft (field_name "" name) c). split; [|done]. cbn [leaves]. rewrite Hk.
    apply list_elem_of_join. eexists. split; [|apply list_elem_of_lookup; exists i; rewrite lookup_zip_with, Hi; simpl;
      rewrite Hw; simpl; reflexivity]. simpl. rewrite Hlow. simpl. left. }
  split; [exists st'|]; unfold Decode, checkValue, e in *; simpl in *; rewrite Hct; simpl; [|by rewrite Hpanic].
  split_and!; [done| |done]. apply Hr. right. apply rtc_once. unfold edge, mentions. rewrite Hkp. left.
Qed.

End theorems.

(** ** Witnesses *)

Lemma checkType_reports_once_witness :
  ∃ st', @checkType test_types ascii_upper (S (size test_universe)) slice_t gob_init = Some st' ∧
    T4 ∈ checked st' ∧ errorCount st' = 1.
Proof.
  destruct (@checkType_reports_once test_types ascii_upper test_universe slice_t gob_init)
    as (st' & new & Hct & _ & _ & Hr & _).
  - apply test_universe_closed.
  - apply (bool_decide_unpack _). vm_compute. exact I.
  - apply closed_empty.
  - exists st'. split; [exact Hct|]. split.
    + apply Hr. right. apply (rtc_l _ _ map_t); [apply list_elem_of_singleton; reflexivity|].
      apply (rtc_l _ _ T4_ptr); [unfold edge; apply (bool_decide_unpack _); vm_compute; exact I|].
      apply rtc_once. apply list_elem_of_singleton; reflexivity.
    + assert (Hev : (errorCount <$> @checkType test_types ascii_upper (S (size test_universe)) slice_t gob_init)
        = Some 1) by (vm_compute; reflexivity).
      rewrite Hct in Hev. by injection Hev.
Defined.

(** The reply variable of [TestDefault], [DD{99}], as a [T4] whose lower-case field is left out. *)
Definition DD_types : Types := λ t,
  match t with
  | 2 => {| Name := "DD"; kind := Struct [("X", int_t)] |}
  | 3 => {| Name := ""; kind := Ptr T4 |}
  | _ => {| Name := "int"; kind := Scalar |}
  end%positive%string.


Lemma Decode_lowercase_panics_witness :
  @Decode test_types ascii_upper unit unit (λ _ _, tt) (S (size test_universe)) tt
    (Some (VPtr T4_ptr (Some (VStruct T4 [VScalar int_t (CInt 0); VScalar int_t (CInt 0)])))) gob_init = None.
Proof.
  apply (@Decode_lowercase_panics test_types ascii_upper unit unit (λ _ _, tt) tt test_universe T4_ptr T4
    [("Yes", int_t); ("no", int_t)]%string [VScalar int_t (CInt 0); VScalar int_t (CInt 0)] 1 "no" int_t gob_init).
  - apply test_universe_closed.
  - apply (bool_decide_unpack _). vm_compute. exact I.
  - apply closed_empty.
  - apply (@ht_ptr test_types _ T4); [reflexivity|].
    apply (@ht_struct test_types _ [("Yes", int_t); ("no", int_t)]%string); [reflexivity|].
    constructor; [|constructor; [|constructor]]; apply (@ht_scalar test_types); reflexivity.
  - reflexivity.
  - reflexivity.
  - reflexivity.
  - reflexivity.
Defined.
