(* ===== verification/Labrpc.v ===== *)
(** * The RPC simulator: [labrpc/labrpc.go]

    A network connects client ends to servers; each call becomes a request that its own goroutine
    ([processReq]) carries to the server and back, losing or delaying it on the way, while another
    goroutine runs the handler.  The goroutines are cut where they meet the network's lock, a channel or
    a timer; [run] interleaves the pieces in the order of a list of events.  What [labgob] makes of
    arguments and replies is a list of bytes; when a handler returns, and what, is an event too, since
    handlers belong to the program that uses the network. *)
From S2P Require Import Prelude.


(** ** Names

    Ends and servers are named by an [interface{}]: here an integer or a string; nil is [None]. *)
Inductive Any := AInt (z : Z) | AStr (s : string).

#[global] Instance Any_eq_dec : EqDecision Any.
Proof. solve_decision. Defined.

#[global] Instance Any_countable : Countable Any.
Proof.
  refine (inj_countable' (λ a, match a with AInt z => inl z | AStr s => inr s end)
                         (λ x, match x with inl z => AInt z | inr s => AStr s end) _).
  by intros [].
Defined.

(** What a piece of code does to the program: go on, end it ([log.Fatalf], a panic), or wait. *)
Inductive Outcome (A : Type) := Next (a : A) | Crash | Blocked.
Arguments Next {A} _.
Arguments Crash {A}.
Arguments Blocked {A}.

(** ** Services and servers *)

(** One method as [reflect] describes it, and the receiver's whole method list. *)
Record Method := mkMethod {
  m_name : string;
  m_PkgPath : string;
  m_NumIn : Z;
  m_In2_is_ptr : bool;
  m_NumOut : Z
}.

(** [rcvr] identifies the object whose methods handle the calls. *)
Record Service := mkService { svc_name : string; svc_rcvr : positive; svc_methods : gset string }.

(** The test on a method: it is a handler. *)
Definition suitable (m : Method) : bool :=
  bool_decide (m_PkgPath m = EmptyString) && (m_NumIn m =? 3) && m_In2_is_ptr m && (m_NumOut m =? 0).

(** [MakeService(rcvr)]: [name] is the name of the receiver's type. *)
Definition MakeService (name : string) (rcvr : positive) (methods : list Method) : Service :=
  mkService name rcvr (list_to_set (m_name <$> filter (λ m, suitable m) methods)).

Record Server := mkServer { services : gmap string Service; srv_count : Z }.

Definition MakeServer : Server := mkServer ∅ 0.

Definition AddService (svc : Service) (rs : Server) : Server :=
  mkServer (<[svc_name svc := svc]> (services rs)) (srv_count rs).

(** [rs.GetCount()]. *)
Definition Server_GetCount (rs : Server) : Z := srv_count rs.

(** The character ['.']. *)
Definition dot_char : Ascii.ascii := Ascii.ascii_of_nat 46.

(** [strings.LastIndex(s, ".")]: -1 when there is none. *)
Fixpoint LastIndex_dot (s : string) : Z :=
  match s with
  | EmptyString => -1
  | String c s' =>
      let i := LastIndex_dot s' in
      if 0 <=? i then i + 1 else if bool_decide (c = dot_char) then 0 else -1
  end.

(** [s[:i]] and [s[i:]], which panic out of range. *)
Definition str_to (s : string) (i : Z) : option string :=
  if (0 <=? i) && (i <=? Z.of_nat (String.length s)) then Some (String.substring 0 (Z.to_nat i) s) else None.
Definition str_from (s : string) (i : Z) : option string :=
  if (0 <=? i) && (i <=? Z.of_nat (String.length s))
  then Some (String.substring (Z.to_nat i) (String.length s - Z.to_nat i) s) else None.

(** The part of [Server.dispatch] under the lock: the counter, and the service with the method's name.
    An unknown service ends the program, and so does a name without a dot. *)
Definition Server_dispatch (svcMeth : string) (rs : Server) : Outcome (Server * Service * string) :=
  let rs := mkServer (services rs) (srv_count rs + 1) in
  let dot := LastIndex_dot svcMeth in
  match str_to svcMeth dot, str_from svcMeth (dot + 1) with
  | Some serviceName, Some methodName =>
      match services rs !! serviceName with
      | Some service => Next (rs, service, methodName)
      | None => Crash
      end
  | _, _ => Crash
  end.

(** [Service.dispatch] up to the call of the method: an unknown method ends the program. *)
Definition Service_dispatch (methname : string) (svc : Service) : Outcome (positive * string) :=
  if decide (methname ∈ svc_methods svc) then Next (svc_rcvr svc, methname) else Crash.

(** ** The network *)

(** A [*Server] is an address of the heap of servers. *)
Definition sptr : Type := positive.

Record Network := mkNetwork {
  reliable : bool;
  longDelays : bool;
  longReordering : bool;
  ends : gset Any;
  enabled : gmap Any bool;
  servers : gmap Any (option sptr);
  connections : gmap Any (option Any);
  done : bool;
  count : Z;
  bytes : Z
}.

Definition MakeNetwork : Network := mkNetwork true false false ∅ ∅ ∅ ∅ false 0 0.

(** [close(rn.done)] panics when it is closed already. *)
Definition Cleanup (rn : Network) : option Network :=
  if done rn then None
  else Some (mkNetwork (reliable rn) (longDelays rn) (longReordering rn) (ends rn) (enabled rn) (servers rn)
                       (connections rn) true (count rn) (bytes rn)).

Definition Reliable (yes : bool) (rn : Network) : Network :=
  mkNetwork yes (longDelays rn) (longReordering rn) (ends rn) (enabled rn) (servers rn)
            (connections rn) (done rn) (count rn) (bytes rn).

Definition LongReordering (yes : bool) (rn : Network) : Network :=
  mkNetwork (reliable rn) (longDelays rn) yes (ends rn) (enabled rn) (servers rn)
            (connections rn) (done rn) (count rn) (bytes rn).

Definition LongDelays (yes : bool) (rn : Network) : Network :=
  mkNetwork (reliable rn) yes (longReordering rn) (ends rn) (enabled rn) (servers rn)
            (connections rn) (done rn) (count rn) (bytes rn).

(** [log.Fatalf] when the end exists. *)
Definition MakeEnd (endname : Any) (rn : Network) : option Network :=
  if decide (endname ∈ ends rn) then None
  else Some (mkNetwork (reliable rn) (longDelays rn) (longReordering rn) ({[endname]} ∪ ends rn)
                       (<[endname := false]> (enabled rn)) (servers rn)
                       (<[endname := None]> (connections rn)) (done rn) (count rn) (bytes rn)).

Definition AddServer (servername : Any) (rs : sptr) (rn : Network) : Network :=
  mkNetwork (reliable rn) (longDelays rn) (longReordering rn) (ends rn) (enabled rn)
            (<[servername := Some rs]> (servers rn)) (connections rn) (done rn) (count rn) (bytes rn).

Definition DeleteServer (servername : Any) (rn : Network) : Network :=
  mkNetwork (reliable rn) (longDelays rn) (longReordering rn) (ends rn) (enabled rn)
            (<[servername := None]> (servers rn)) (connections rn) (done rn) (count rn) (bytes rn).

Definition Connect (endname servername : Any) (rn : Network) : Network :=
  mkNetwork (reliable rn) (longDelays rn) (longReordering rn) (ends rn) (enabled rn) (servers rn)
            (<[endname := Some servername]> (connections rn)) (done rn) (count rn) (bytes rn).

Definition Enable (endname : Any) (yes : bool) (rn : Network) : Network :=
  mkNetwork (reliable rn) (longDelays rn) (longReordering rn) (ends rn) (<[endname := yes]> (enabled rn))
            (servers rn) (connections rn) (done rn) (count rn) (bytes rn).

(** [rn.enabled[endname]] and [rn.servers[servername]] with Go's zero values. *)
Definition is_enabled (endname : Any) (rn : Network) : bool := default false (enabled rn !! endname).
Definition server_at (servername : Any) (rn : Network) : option sptr := mjoin (servers rn !! servername).

(** [rn.GetCount(servername)] dereferences the server's pointer: a panic when it is nil. *)
Definition GetCount (servername : Any) (heap : gmap sptr Server) (rn : Network) : option Z :=
  p ← server_at servername rn; rs ← heap !! p; Some (Server_GetCount rs).

Definition GetTotalCount (rn : Network) : Z := count rn.
Definition GetTotalBytes (rn : Network) : Z := bytes rn.

(** [enabled, servername, server, reliable, longreordering]. *)
Definition readEndnameInfo (endname : Any) (rn : Network) :
    bool * option Any * option sptr * bool * bool :=
  let servername := mjoin (connections rn !! endname) in
  let server := sn ← servername; server_at sn rn in
  (is_enabled endname rn, servername, server, reliable rn, longReordering rn).

Definition isServerDead (endname servername : Any) (server : sptr) (rn : Network) : bool :=
  negb (is_enabled endname rn) || negb (bool_decide (server_at servername rn = Some server)).

(** The signed [w]-bit integer that [z] wraps to. *)
Definition wrap_signed (w z : Z) : Z := (z + 2 ^ (w - 1)) mod 2 ^ w - 2 ^ (w - 1).

(** [atomic.AddInt32(&rn.count, 1)] and [atomic.AddInt64(&rn.bytes, n)]. *)
Definition add_count (rn : Network) : Network :=
  mkNetwork (reliable rn) (longDelays rn) (longReordering rn) (ends rn) (enabled rn) (servers rn)
            (connections rn) (done rn) (wrap_signed 32 (count rn + 1)) (bytes rn).
Definition add_bytes (n : Z) (rn : Network) : Network :=
  mkNetwork (reliable rn) (longDelays rn) (longReordering rn) (ends rn) (enabled rn) (servers rn)
            (connections rn) (done rn) (count rn) (wrap_signed 64 (bytes rn + n)).

(** ** A call on its way *)

(** What [processReq] has read about its end. *)
Record Route := mkRoute { rt_name : Any; rt_server : sptr; rt_reliable : bool; rt_reorder : bool }.

(** Where the call is.  From [PAccepted] on the program counter is that of [processReq]. *)
Inductive ReqPc :=
  | PSend                                   (** in the [select] of [Call] *)
  | PAccepted                               (** received from [endCh] *)
  | PDeliver (rt : Route)                   (** before the request is dropped or dispatched *)
  | PWaiting (rt : Route)                   (** in the loop that waits for the handler *)
  | PDecide (rt : Route) (reply : option (list Byte.byte))  (** after the loop; [None]: [replyOK == false] *)
  | PDelayed (reply : list Byte.byte)       (** in the [AfterFunc] of long reordering *)
  | PTimeout                                (** in the [AfterFunc] of a request with no server *)
  | PReturned (reply : option (list Byte.byte)).  (** [Call] got the reply; [None] is [replyMsg{false, nil}] *)

(** The goroutine that runs the handler. *)
Inductive HandlerPc :=
  | HIdle                                   (** not started *)
  | HStarting (server : sptr)               (** before [server.dispatch(req)] *)
  | HRunning (rcvr : positive) (meth : string)  (** in the method *)
  | HReturned (rcvr : positive) (meth : string) (reply : list Byte.byte).  (** before or after [ech <- r] *)

Record Request := mkRequest {
  rq_end : Any;
  rq_svcMeth : string;
  rq_args : list Byte.byte;
  rq_pc : ReqPc;
  rq_handler : HandlerPc
}.

(** The whole program: the network, the heap of servers, the calls in the order they were made, whether
    the goroutine of [MakeNetwork] still runs, and the calls whose handler was started, in order. *)
Record Sys := mkSys {
  net : Network;
  heap : gmap sptr Server;
  calls : list Request;
  looping : bool;
  started : list nat
}.

Definition at_pc (r : Request) (pc : ReqPc) : Request :=
  mkRequest (rq_end r) (rq_svcMeth r) (rq_args r) pc (rq_handler r).
Definition at_handler (r : Request) (h : HandlerPc) : Request :=
  mkRequest (rq_end r) (rq_svcMeth r) (rq_args r) (rq_pc r) h.

(** [s] after call [i] became [r] and the network [rn]. *)
Definition put (i : nat) (r : Request) (rn : Network) (s : Sys) : Sys :=
  mkSys rn (heap s) (<[i := r]> (calls s)) (looping s) (started s).

(** ** The pieces of [ClientEnd.Call] and [Network.processReq]

    Each takes the call's index and gives the next state; [Blocked] when the code cannot go on there.
    Random numbers are arguments. *)

(** [end.Call(svcMeth, args, reply)] up to the [select], for an end [MakeEnd] has made. *)
Definition Call (endname : Any) (svcMeth : string) (args : list Byte.byte) (s : Sys) : Outcome Sys :=
  if decide (endname ∈ ends (net s)) then
    Next (mkSys (net s) (heap s) (calls s ++ [mkRequest endname svcMeth args PSend HIdle]) (looping s) (started s))
  else Blocked.

(** [case xreq := <-rn.endCh]: the network's goroutine takes the request. *)
Definition accept (i : nat) (s : Sys) : Outcome Sys :=
  match calls s !! i with
  | Some r =>
      match rq_pc r, looping s with
      | PSend, true => Next (put i (at_pc r PAccepted) (add_bytes (zlen (rq_args r)) (add_count (net s))) s)
      | _, _ => Blocked
      end
  | None => Blocked
  end.

(** [case <-e.done]: the network has been destroyed. *)
Definition refuse (i : nat) (s : Sys) : Outcome Sys :=
  match calls s !! i with
  | Some r =>
      match rq_pc r, done (net s) with
      | PSend, true => Next (put i (at_pc r (PReturned None)) (net s) s)
      | _, _ => Blocked
      end
  | None => Blocked
  end.

(** [case <-rn.done] of the network's goroutine. *)
Definition stop_loop (s : Sys) : Outcome Sys :=
  if done (net s) && looping s then Next (mkSys (net s) (heap s) (calls s) false (started s)) else Blocked.

(** [processReq]: the end's information, and the first test. *)
Definition processReq (i : nat) (s : Sys) : Outcome Sys :=
  match calls s !! i with
  | Some r =>
      match rq_pc r with
      | PAccepted =>
          match readEndnameInfo (rq_end r) (net s) with
          | (true, Some servername, Some server, rel, reord) =>
              Next (put i (at_pc r (PDeliver (mkRoute servername server rel reord))) (net s) s)
          | _ => Next (put i (at_pc r PTimeout) (net s) s)
          end
      | _ => Blocked
      end
  | None => Blocked
  end.

(** Drop the request, or start the handler's goroutine; [rnd] is [rand.Int()]. *)
Definition deliver (i : nat) (rnd : Z) (s : Sys) : Outcome Sys :=
  match calls s !! i with
  | Some r =>
      match rq_pc r with
      | PDeliver rt =>
          if negb (rt_reliable rt) && (rnd mod 1000 <? 100)
          then Next (put i (at_pc r (PReturned None)) (net s) s)
          else Next (put i (at_handler (at_pc r (PWaiting rt)) (HStarting (rt_server rt))) (net s) s)
      | _ => Blocked
      end
  | None => Blocked
  end.

(** [r := server.dispatch(req)] up to the call of the method. *)
Definition dispatch (i : nat) (s : Sys) : Outcome Sys :=
  match calls s !! i with
  | Some r =>
      match rq_handler r with
      | HStarting p =>
          match heap s !! p with
          | Some rs =>
              match Server_dispatch (rq_svcMeth r) rs with
              | Next (rs', svc, methname) =>
                  match Service_dispatch methname svc with
                  | Next (rcvr, meth) =>
                      Next (mkSys (net s) (<[p := rs']> (heap s))
                                  (<[i := at_handler r (HRunning rcvr meth)]> (calls s)) (looping s)
                                  (started s ++ [i]))
                  | _ => Crash
                  end
              | _ => Crash
              end
          | None => Crash
          end
      | _ => Blocked
      end
  | None => Blocked
  end.

(** The method returns and the reply is encoded. *)
Definition handler_returns (i : nat) (reply : list Byte.byte) (s : Sys) : Outcome Sys :=
  match calls s !! i with
  | Some r =>
      match rq_handler r with
      | HRunning rcvr meth => Next (put i (at_handler r (HReturned rcvr meth reply)) (net s) s)
      | _ => Blocked
      end
  | None => Blocked
  end.

(** [case reply = <-ech]. *)
Definition receive_reply (i : nat) (s : Sys) : Outcome Sys :=
  match calls s !! i with
  | Some r =>
      match rq_pc r, rq_handler r with
      | PWaiting rt, HReturned _ _ reply => Next (put i (at_pc r (PDecide rt (Some reply))) (net s) s)
      | _, _ => Blocked
      end
  | None => Blocked
  end.

(** [case <-time.After(100 * time.Millisecond)]: stop waiting when the server is dead. *)
Definition poll (i : nat) (s : Sys) : Outcome Sys :=
  match calls s !! i with
  | Some r =>
      match rq_pc r with
      | PWaiting rt =>
          if isServerDead (rq_end r) (rt_name rt) (rt_server rt) (net s)
          then Next (put i (at_pc r (PDecide rt None)) (net s) s)
          else Next s
      | _ => Blocked
      end
  | None => Blocked
  end.

(** After the loop; [rnd1] is [rand.Int()], [rnd2] is [rand.Intn(900)]. *)
Definition decide_reply (i : nat) (rnd1 rnd2 : Z) (s : Sys) : Outcome Sys :=
  match calls s !! i with
  | Some r =>
      match rq_pc r with
      | PDecide rt reply =>
          let serverDead := isServerDead (rq_end r) (rt_name rt) (rt_server rt) (net s) in
          match reply, serverDead with
          | Some b, false =>
              if negb (rt_reliable rt) && (rnd1 mod 1000 <? 100)
              then Next (put i (at_pc r (PReturned None)) (net s) s)
              else if rt_reorder rt && (rnd2 <? 600)
              then Next (put i (at_pc r (PDelayed b)) (net s) s)
              else Next (put i (at_pc r (PReturned (Some b))) (add_bytes (zlen b) (net s)) s)
          | _, _ => Next (put i (at_pc r (PReturned None)) (net s) s)
          end
      | _ => Blocked
      end
  | None => Blocked
  end.

(** The timers of [time.AfterFunc]. *)
Definition fire (i : nat) (s : Sys) : Outcome Sys :=
  match calls s !! i with
  | Some r =>
      match rq_pc r with
      | PDelayed b => Next (put i (at_pc r (PReturned (Some b))) (add_bytes (zlen b) (net s)) s)
      | PTimeout => Next (put i (at_pc r (PReturned None)) (net s) s)
      | _ => Blocked
      end
  | None => Blocked
  end.

(** ** All goroutines together *)

(** What the rest of the program does to the network. *)
Inductive Admin :=
  | AMakeEnd (e : Any)
  | AAddServer (n : Any) (p : sptr)
  | ADeleteServer (n : Any)
  | AConnect (e n : Any)
  | AEnable (e : Any) (yes : bool)
  | AReliable (yes : bool)
  | ALongReordering (yes : bool)
  | ALongDelays (yes : bool)
  | ACleanup.

Definition admin (a : Admin) (rn : Network) : option Network :=
  match a with
  | AMakeEnd e => MakeEnd e rn
  | AAddServer n p => Some (AddServer n p rn)
  | ADeleteServer n => Some (DeleteServer n rn)
  | AConnect e n => Some (Connect e n rn)
  | AEnable e yes => Some (Enable e yes rn)
  | AReliable yes => Some (Reliable yes rn)
  | ALongReordering yes => Some (LongReordering yes rn)
  | ALongDelays yes => Some (LongDelays yes rn)
  | ACleanup => Cleanup rn
  end.

Inductive Event :=
  | ECall (e : Any) (svcMeth : string) (args : list Byte.byte)
  | EAccept (i : nat) | ERefuse (i : nat) | EStop
  | EProcess (i : nat) | EDeliver (i : nat) (rnd : Z)
  | EDispatch (i : nat) | EHandler (i : nat) (reply : list Byte.byte)
  | EReceive (i : nat) | EPoll (i : nat) | EDecide (i : nat) (rnd1 rnd2 : Z) | EFire (i : nat)
  | EAdmin (a : Admin)
  | EServer (p : sptr)                     (** [MakeServer()] at a fresh address *)
  | EService (p : sptr) (svc : Service).   (** [AddService] *)

Definition perform (ev : Event) (s : Sys) : Outcome Sys :=
  match ev with
  | ECall e m args => Call e m args s
  | EAccept i => accept i s
  | ERefuse i => refuse i s
  | EStop => stop_loop s
  | EProcess i => processReq i s
  | EDeliver i rnd => deliver i rnd s
  | EDispatch i => dispatch i s
  | EHandler i reply => handler_returns i reply s
  | EReceive i => receive_reply i s
  | EPoll i => poll i s
  | EDecide i r1 r2 => decide_reply i r1 r2 s
  | EFire i => fire i s
  | EAdmin a =>
      match admin a (net s) with
      | Some rn => Next (mkSys rn (heap s) (calls s) (looping s) (started s))
      | None => Crash
      end
  | EServer p =>
      match heap s !! p with
      | None => Next (mkSys (net s) (<[p := MakeServer]> (heap s)) (calls s) (looping s) (started s))
      | Some _ => Blocked
      end
  | EService p svc =>
      match heap s !! p with
      | Some rs => Next (mkSys (net s) (<[p := AddService svc rs]> (heap s)) (calls s) (looping s) (started s))
      | None => Crash
      end
  end.

Definition net_init : Sys := mkSys MakeNetwork ∅ [] true [].

(** A run of the program, and the events it performed. *)
Fixpoint run (evs : list Event) (s : Sys) : Outcome Sys :=
  match evs with
  | [] => Next s
  | ev :: evs' =>
      match perform ev s with
      | Next s' => run evs' s'
      | Crash => Crash
      | Blocked => Blocked
      end
  end.
