(* ===== verification/LabrpcProofs.v ===== *)
(** * Runs of the RPC simulator

    Every event touches at most one call; [local] says how.  The trace invariant ties the state of
    each call to the events that brought it there. *)
From S2P Require Import Prelude Labrpc.


(** ** What an event does to its call *)

Inductive local (s : Sys) (i : nat) (r : Request) : Event → Request → Prop :=
  | l_accept : rq_pc r = PSend → local s i r (EAccept i) (at_pc r PAccepted)
  | l_refuse : rq_pc r = PSend → local s i r (ERefuse i) (at_pc r (PReturned None))
  | l_route rt : rq_pc r = PAccepted → local s i r (EProcess i) (at_pc r (PDeliver rt))
  | l_no_route : rq_pc r = PAccepted → local s i r (EProcess i) (at_pc r PTimeout)
  | l_drop rt rnd : rq_pc r = PDeliver rt → local s i r (EDeliver i rnd) (at_pc r (PReturned None))
  | l_start rt rnd : rq_pc r = PDeliver rt →
      local s i r (EDeliver i rnd) (at_handler (at_pc r (PWaiting rt)) (HStarting (rt_server rt)))
  | l_dispatch p rcvr meth : rq_handler r = HStarting p →
      local s i r (EDispatch i) (at_handler r (HRunning rcvr meth))
  | l_handler rcvr meth b : rq_handler r = HRunning rcvr meth →
      local s i r (EHandler i b) (at_handler r (HReturned rcvr meth b))
  | l_receive rt rcvr meth b : rq_pc r = PWaiting rt → rq_handler r = HReturned rcvr meth b →
      local s i r (EReceive i) (at_pc r (PDecide rt (Some b)))
  | l_dead rt : rq_pc r = PWaiting rt → isServerDead (rq_end r) (rt_name rt) (rt_server rt) (net s) = true →
      local s i r (EPoll i) (at_pc r (PDecide rt None))
  | l_lost rt reply r1 r2 : rq_pc r = PDecide rt reply →
      local s i r (EDecide i r1 r2) (at_pc r (PReturned None))
  | l_delay rt b r1 r2 : rq_pc r = PDecide rt (Some b) →
      isServerDead (rq_end r) (rt_name rt) (rt_server rt) (net s) = false →
      local s i r (EDecide i r1 r2) (at_pc r (PDelayed b))
  | l_reply rt b r1 r2 : rq_pc r = PDecide rt (Some b) →
      isServerDead (rq_end r) (rt_name rt) (rt_server rt) (net s) = false →
      local s i r (EDecide i r1 r2) (at_pc r (PReturned (Some b)))
  | l_fire b : rq_pc r = PDelayed b → local s i r (EFire i) (at_pc r (PReturned (Some b)))
  | l_expire : rq_pc r = PTimeout → local s i r (EFire i) (at_pc r (PReturned None)).

(** The call an event is about, when it is about its handler's start or end. *)
Definition starts (i : nat) (ev : Event) : Prop := ev = EDispatch i.
#[global] Instance starts_dec i ev : Decision (starts i ev).
Proof.
  unfold starts. destruct ev as [| | | | | |j| | | | | | | |]; try (right; congruence).
  destruct (decide (j = i)) as [->|]; [by left|right; congruence].
Defined.

(** How often the handler of call [i] was started. *)
Definition times_started (i : nat) (evs : list Event) : nat := length (filter (starts i) evs).

Ltac crush_event :=
  repeat match goal with
  | H : Next _ = Next _ |- _ => injection H as H; subst
  | H : Crash = Next _ |- _ => discriminate H
  | H : Blocked = Next _ |- _ => discriminate H
  | H : match ?x with _ => _ end = Next _ |- _ => destruct x eqn:?; simplify_eq
  end.

(** Every event leaves the calls alone, adds one, or takes one of them a step further. *)
Lemma perform_calls ev s s' :
  perform ev s = Next s' →
  (calls s' = calls s ∧ ∀ i, ¬ starts i ev) ∨
  (∃ e m args, ev = ECall e m args ∧ calls s' = calls s ++ [mkRequest e m args PSend HIdle]) ∨
  (∃ i r r', calls s !! i = Some r ∧ calls s' = <[i := r']> (calls s) ∧ local s i r ev r').
Proof.
  intros Hp. destruct ev as [e m args|i|i| |i|i rnd|i|i b|i|i|i r1 r2|i|a|p|p svc]; simpl in Hp;
    unfold Call, accept, refuse, stop_loop, processReq, deliver, dispatch, handler_returns, receive_reply,
      poll, decide_reply, fire in Hp; crush_event; simpl;
    first [ left; split; [reflexivity|intros ? [=]]
          | right; left; do 3 eexists; split; reflexivity
          | right; right; do 3 eexists; split; [eassumption|split; [reflexivity|]]; by econstructor ].
Qed.

(** ** Runs *)

Lemma run_snoc evs ev s s' :
  run (evs ++ [ev]) s = Next s' → ∃ s1, run evs s = Next s1 ∧ perform ev s1 = Next s'.
Proof.
  revert s. induction evs as [|e evs IH]; intros s; simpl.
  - destruct (perform ev s) eqn:Hp; [|done..]. intros [= <-]. eauto.
  - destruct (perform e s) as [s2| |]; [|done..]. apply IH.
Qed.

Lemma run_app evs1 evs2 s s1 : run evs1 s = Next s1 → run (evs1 ++ evs2) s = run evs2 s1.
Proof.
  revert s. induction evs1 as [|e evs IH]; intros s; simpl; [by intros [= ->]|].
  destruct (perform e s) as [s2| |]; [|done..]. apply IH.
Qed.

(** An invariant of runs, by induction on their last event. *)
Lemma run_invariant (P : list Event → Sys → Prop) s0 :
  P [] s0 → (∀ evs ev s s', run evs s0 = Next s → P evs s → perform ev s = Next s' → P (evs ++ [ev]) s') →
  ∀ evs s, run evs s0 = Next s → P evs s.
Proof.
  intros H0 Hstep evs. induction evs as [|ev evs IH] using rev_ind; intros s Hr.
  - simpl in Hr. by simplify_eq.
  - apply run_snoc in Hr as (s1 & H1 & H2). eauto.
Qed.

(** ** The trace invariant *)

(** Call [i] was decided in favour of the reply [b]: at some moment of the run the network looked and
    the server it had sent the request to was registered and the end enabled. *)
Definition decided (evs : list Event) (i : nat) (e : Any) (b : list Byte.byte) : Prop :=
  ∃ evs1 evs2 r1 r2 s1 rt, evs = evs1 ++ EDecide i r1 r2 :: evs2 ∧ run evs1 net_init = Next s1 ∧
    isServerDead e (rt_name rt) (rt_server rt) (net s1) = false ∧
    EHandler i b ∈ evs1.

Record call_inv (evs : list Event) (i : nat) (r : Request) : Prop := {
  cv_started : times_started i evs =
    match rq_handler r with HRunning _ _ | HReturned _ _ _ => 1%nat | _ => 0%nat end;
  cv_returned : ∀ rcvr meth b, rq_handler r = HReturned rcvr meth b → EHandler i b ∈ evs;
  cv_pc : match rq_pc r with
    | PSend | PAccepted | PDeliver _ | PTimeout => rq_handler r = HIdle
    | PWaiting _ => rq_handler r ≠ HIdle
    | PDecide _ (Some b) => ∃ rcvr meth, rq_handler r = HReturned rcvr meth b
    | PDecide _ None => True
    | PDelayed b | PReturned (Some b) =>
        (∃ rcvr meth, rq_handler r = HReturned rcvr meth b) ∧ decided evs i (rq_end r) b
    | PReturned None => True
    end
}.

Definition trace_inv (evs : list Event) (s : Sys) : Prop :=
  (∀ i r, calls s !! i = Some r → call_inv evs i r) ∧
  (∀ i, (length (calls s) ≤ i)%nat → times_started i evs = 0%nat).

Lemma times_started_snoc i evs ev :
  times_started i (evs ++ [ev]) = (times_started i evs + (if decide (starts i ev) then 1 else 0))%nat.
Proof.
  unfold times_started. rewrite filter_app, length_app, filter_cons. by destruct (decide (starts i ev)).
Qed.

Lemma decided_snoc evs ev i e b : decided evs i e b → decided (evs ++ [ev]) i e b.
Proof.
  intros (evs1 & evs2 & r1 & r2 & s1 & rt & -> & ?). exists evs1, (evs2 ++ [ev]), r1, r2, s1, rt.
  split; [by rewrite <-(assoc_L (++))|done].
Qed.

(** A call that an event does not touch keeps its invariant. *)
Lemma call_inv_snoc evs ev i r : ¬ starts i ev → call_inv evs i r → call_inv (evs ++ [ev]) i r.
Proof.
  intros Hns [Hs Hr Hp]. split.
  - rewrite times_started_snoc, decide_False by done. lia.
  - intros rcvr meth b Hb. apply elem_of_app. left. by eapply Hr.
  - destruct (rq_pc r) as [| | | |? []| | |[]]; try done; (split; [by destruct Hp|apply decided_snoc; by destruct Hp]).
Qed.

Lemma call_inv_local evs s i r ev r' :
  run evs net_init = Next s → call_inv evs i r → local s i r ev r' → call_inv (evs ++ [ev]) i r'.
Proof.
  intros Hrun [Hs Hr Hp] Hl.
  assert (Hdec : ∀ rt b rcvr meth r1 r2, rq_handler r = HReturned rcvr meth b →
    isServerDead (rq_end r) (rt_name rt) (rt_server rt) (net s) = false →
    decided (evs ++ [EDecide i r1 r2]) i (rq_end r) b).
  { intros rt b rcvr meth r1 r2 Hh Hd. exists evs, [], r1, r2, s, rt. eauto. }
  assert (Hkeep : ∀ rcvr meth b, rq_handler r = HReturned rcvr meth b → EHandler i b ∈ evs ++ [ev]).
  { intros. apply elem_of_app. left. by eapply Hr. }
  destruct Hl; split; simpl; rewrite ?times_started_snoc; try done;
    repeat match goal with H : rq_pc _ = _ |- _ => rewrite H in Hp end.
  all: try (rewrite decide_False by (intros [=]); rewrite Hs; lia).
  all: try (rewrite decide_True by done; rewrite Hs).
  all: repeat match goal with H : rq_handler _ = _ |- _ => rewrite H end.
  all: try done.
  all: try (rewrite decide_False by (intros [=]); rewrite Hs, ?Hp; lia).
  - destruct (rq_pc r) as [| | | |? []| | |[]]; try done; try congruence;
      [destruct Hp as (? & ? & ?)|destruct Hp as [(? & ? & ?) _]..]; congruence.
  - rewrite decide_False by (intros [=]). rewrite Hs. by match goal with H : rq_handler r = _ |- _ => rewrite H end.
  - intros rcvr' meth' b' [= -> -> ->]. apply elem_of_app. right. left.
  - destruct (rq_pc r) as [| | | |? []| | |[]]; try done; try congruence;
      [destruct Hp as (? & ? & ?)|destruct Hp as [(? & ? & ?) _]..]; congruence.
  - eauto.
  - split; [done|]. destruct Hp as (rcvr & meth & Hh). by eapply Hdec.
  - split; [done|]. destruct Hp as (rcvr & meth & Hh). by eapply Hdec.
  - destruct Hp as [Hh Hd]. split; [done|]. by apply decided_snoc.
Qed.

Lemma net_trace_ok evs s : run evs net_init = Next s → trace_inv evs s.
Proof.
  apply (run_invariant trace_inv); [by split|]. clear. intros evs ev s s' Hrun [Hc Hz] Hp.
  destruct (perform_calls ev s s' Hp) as [[Heq Hns]|[(e & m & args & -> & Heq)|(i & r & r' & Hi & Heq & Hl)]];
    split; rewrite Heq.
  - intros i r Hi. apply call_inv_snoc; [apply Hns|by apply Hc].
  - intros i Hi. rewrite times_started_snoc, decide_False by done. by rewrite Hz.
  - intros j r [[_ Hj]|[-> <-]]%lookup_snoc_Some; [apply call_inv_snoc; [done|by apply Hc]|].
    split; [|done|done]. rewrite times_started_snoc, decide_False by done. by rewrite Hz.
  - intros j Hj. rewrite length_app in Hj. simpl in Hj.
    rewrite times_started_snoc, decide_False by done. rewrite Hz; lia.
  - intros j u [(-> & <- & _)|[Hne Hj]]%list_lookup_insert_Some.
    + eapply call_inv_local; [done|by apply Hc|done].
    + apply call_inv_snoc; [|by apply Hc]. destruct Hl; intros [=]; congruence.
  - intros j Hj. rewrite length_insert in Hj. rewrite times_started_snoc, decide_False; [by rewrite Hz|].
    apply lookup_lt_Some in Hi. destruct Hl; intros [=]; lia.
Qed.

(** ** Servers that are gone *)

(** A server comes (back) under a name by [AddServer] only. *)
Lemma perform_server_at ev s s' n p :
  perform ev s = Next s' → server_at n (net s') = Some p →
  server_at n (net s) = Some p ∨ ev = EAdmin (AAddServer n p).
Proof.
  intros Hp Hs. destruct ev as [e m args|i|i| |i|i rnd|i|i b|i|i|i r1 r2|i|a|q|q svc]; simpl in Hp;
    unfold Call, accept, refuse, stop_loop, processReq, deliver, dispatch, handler_returns, receive_reply,
      poll, decide_reply, fire in Hp; crush_event; simpl in Hs; try (left; exact Hs).
  destruct a as [e|n' q|n'|e n'|e yes|yes|yes|yes|]; simpl in *; unfold MakeEnd, Cleanup in *;
    repeat case_decide; repeat case_match; simplify_eq; try (left; exact Hs); unfold server_at in *; simpl in *.
  - destruct (decide (n = n')) as [<-|Hne]; [|left; by rewrite lookup_insert_ne in Hs].
    rewrite lookup_insert_eq in Hs. simpl in Hs. simplify_eq. by right.
  - left. destruct (decide (n = n')) as [<-|Hne]; [by rewrite lookup_insert_eq in Hs|].
    by rewrite lookup_insert_ne in Hs.
Qed.

(** Call [i] was sent to a server that is no longer the one registered, and is not decided yet (or was
    answered with a failure). *)
Definition doomed (i : nat) (rt : Route) (s : Sys) : Prop :=
  server_at (rt_name rt) (net s) ≠ Some (rt_server rt) ∧
  ∃ r, calls s !! i = Some r ∧
    (rq_pc r = PDeliver rt ∨ rq_pc r = PWaiting rt ∨ (∃ reply, rq_pc r = PDecide rt reply) ∨
     rq_pc r = PReturned None).

Lemma dead_server e n p rn : server_at n rn ≠ Some p → isServerDead e n p rn = true.
Proof. intros Hs. unfold isServerDead. rewrite (bool_decide_false _ Hs). by rewrite orb_true_r. Qed.

Lemma doomed_step i rt ev s s' :
  ev ≠ EAdmin (AAddServer (rt_name rt) (rt_server rt)) →
  doomed i rt s → perform ev s = Next s' → doomed i rt s'.
Proof.
  intros Hev [Hgone (r & Hi & Hpc)] Hp. split.
  { intros Hs. by destruct (perform_server_at _ _ _ _ _ Hp Hs). }
  destruct (perform_calls ev s s' Hp) as [[Heq _]|[(e & m & args & _ & Heq)|(j & u & u' & Hj & Heq & Hl)]];
    rewrite Heq; [by eauto|exists r; split; [by apply lookup_app_l_Some|done]|].
  destruct (decide (j = i)) as [->|Hne]; [|exists r; by rewrite list_lookup_insert_ne]. simplify_eq.
  exists u'. split; [rewrite list_lookup_insert_eq; [done|by apply lookup_lt_Some in Hi]|].
  pose proof (dead_server (rq_end r) _ _ _ Hgone) as Hdead.
  destruct Hl as [H|H|rt' H|H|rt' rnd H|rt' rnd H|p rcvr meth _|rcvr meth b _|rt' rcvr meth b H Hh|rt' H Hd
    |rt' reply r1 r2 H|rt' b r1 r2 H Hd|rt' b r1 r2 H Hd|b H|H]; simpl; try exact Hpc;
    rewrite H in Hpc; destruct Hpc as [Hpc|[Hpc|[[reply0 Hpc]|Hpc]]]; simplify_eq; try congruence; eauto 6.
Qed.

Lemma doomed_run i rt evs s s' :
  EAdmin (AAddServer (rt_name rt) (rt_server rt)) ∉ evs →
  doomed i rt s → run evs s = Next s' → doomed i rt s'.
Proof.
  revert s. induction evs as [|ev evs IH]; intros s Hn Hd Hr; simpl in Hr; [by simplify_eq|].
  destruct (perform ev s) as [s1| |] eqn:Hp; [|done..].
  apply (IH s1); [set_solver| |done]. eapply doomed_step; [|done..]. set_solver.
Qed.

(** ** Progress *)

(** The events of a call's own goroutines in [Call] and [processReq]. *)
Definition own (i : nat) (ev : Event) : Prop :=
  match ev with
  | EAccept j | ERefuse j | EProcess j | EDeliver j _ | EReceive j | EPoll j | EDecide j _ _ | EFire j => j = i
  | _ => False
  end.

(** How far a call is from its return. *)
Definition rank (r : Request) : nat :=
  match rq_pc r with
  | PSend => 6 | PAccepted => 5 | PDeliver _ => 4 | PWaiting _ => 3 | PDecide _ _ => 2
  | PDelayed _ | PTimeout => 1 | PReturned _ => 0
  end.

(** The call waits for a handler that has not returned, on a server that is not dead. *)
Definition waits_for_handler (s : Sys) (r : Request) : Prop :=
  ∃ rt, rq_pc r = PWaiting rt ∧ isServerDead (rq_end r) (rt_name rt) (rt_server rt) (net s) = false ∧
    ∀ rcvr meth b, rq_handler r ≠ HReturned rcvr meth b.

Lemma local_rank s i r ev r' : local s i r ev r' → (rank r' ≤ rank r)%nat.
Proof.
  unfold rank. destruct 1; simpl; repeat match goal with H : rq_pc r = _ |- _ => rewrite H end; lia.
Qed.

Lemma perform_rank ev s s' i r :
  perform ev s = Next s' → calls s !! i = Some r → ∃ r', calls s' !! i = Some r' ∧ (rank r' ≤ rank r)%nat.
Proof.
  intros Hp Hi.
  destruct (perform_calls ev s s' Hp) as [[Heq _]|[(e & m & args & _ & Heq)|(j & u & u' & Hj & Heq & Hl)]];
    rewrite Heq.
  - by exists r.
  - exists r. split; [by apply lookup_app_l_Some|done].
  - destruct (decide (j = i)) as [->|Hne]; [|exists r; by rewrite list_lookup_insert_ne].
    simplify_eq. exists u'. split; [|by eapply local_rank].
    rewrite list_lookup_insert_eq; [done|by apply lookup_lt_Some in Hi].
Qed.

(** The network's goroutine ends only when the network is destroyed. *)
Lemma loop_done evs s : run evs net_init = Next s → looping s = true ∨ done (net s) = true.
Proof.
  apply (run_invariant (λ _ s, looping s = true ∨ done (net s) = true)); [by left|]. clear.
  intros _ ev s s' _ Hinv Hp. destruct ev as [e m args|i|i| |i|i rnd|i|i b|i|i|i r1 r2|i|a|q|q svc]; simpl in Hp;
    unfold Call, accept, refuse, stop_loop, processReq, deliver, dispatch, handler_returns, receive_reply,
      poll, decide_reply, fire in Hp; crush_event; simpl in *; auto.
  - right. by apply andb_prop in Heqb as [? _].
  - destruct a; simpl in *; unfold MakeEnd, Cleanup in *; repeat case_decide; repeat case_match; simplify_eq/=; auto.
Qed.

Lemma put_lookup i r rn s u :
  calls s !! i = Some u → calls (put i r rn s) !! i = Some r.
Proof. intros Hi. simpl. apply list_lookup_insert_eq. by apply lookup_lt_Some in Hi. Qed.

Lemma call_moves s i r :
  looping s = true ∨ done (net s) = true → calls s !! i = Some r →
  (∃ reply, rq_pc r = PReturned reply) ∨ waits_for_handler s r ∨
  ∃ ev s' r', own i ev ∧ perform ev s = Next s' ∧ calls s' !! i = Some r' ∧ (rank r' < rank r)%nat.
Proof.
  intros Hld Hi.
  assert (Hgo : ∀ ev r' rn, own i ev → perform ev s = Next (put i r' rn s) → (rank r' < rank r)%nat →
    ∃ ev s' r', own i ev ∧ perform ev s = Next s' ∧ calls s' !! i = Some r' ∧ (rank r' < rank r)%nat).
  { intros ev r' rn Ho Hp Hr. exists ev, (put i r' rn s), r'. split_and!; [done..| |done]. by eapply put_lookup. }
  unfold rank in *.
  destruct (rq_pc r) as [| |rt|rt|rt reply|b| |reply] eqn:Hpc; [right; right|right; right|right; right| |right; right|right; right|right; right|].
  - destruct Hld as [Hl|Hd].
    + eapply (Hgo (EAccept i)); [done|simpl; unfold accept; by rewrite Hi, Hpc, Hl|simpl; lia].
    + eapply (Hgo (ERefuse i)); [done|simpl; unfold refuse; by rewrite Hi, Hpc, Hd|simpl; lia].
  - destruct (readEndnameInfo (rq_end r) (net s)) as [[[[en sn] sv] rel] reord] eqn:Hinfo.
    destruct en; [destruct sn as [sn|]; [destruct sv as [sv|]|]|];
      (eapply (Hgo (EProcess i)); [done|simpl; unfold processReq; by rewrite Hi, Hpc, Hinfo|simpl; lia]).
  - eapply (Hgo (EDeliver i 500)); [done|simpl; unfold deliver; rewrite Hi, Hpc|].
    + destruct (negb (rt_reliable rt)); reflexivity.
    + simpl. lia.
  - destruct (isServerDead (rq_end r) (rt_name rt) (rt_server rt) (net s)) eqn:Hdead.
    { right; right. eapply (Hgo (EPoll i)); [done|simpl; unfold poll; by rewrite Hi, Hpc, Hdead|simpl; lia]. }
    destruct (rq_handler r) as [|p|rcvr meth|rcvr meth b] eqn:Hh;
      [right; left; exists rt; split_and!; [done..|intros; congruence]..|].
    right; right. eapply (Hgo (EReceive i)); [done|simpl; unfold receive_reply; by rewrite Hi, Hpc, Hh|simpl; lia].
  - destruct reply as [b|], (isServerDead (rq_end r) (rt_name rt) (rt_server rt) (net s)) eqn:Hdead;
      [|destruct (negb (rt_reliable rt) && (500 mod 1000 <? 100)) eqn:Hrel;
        [|destruct (rt_reorder rt && (700 <? 600)) eqn:Hreo]|..];
      (eapply (Hgo (EDecide i 500 700)); [done|simpl; unfold decide_reply; by rewrite Hi, Hpc, ?Hdead, ?Hrel, ?Hreo|simpl; lia]).
  - eapply (Hgo (EFire i)); [done|simpl; unfold fire; by rewrite Hi, Hpc|simpl; lia].
  - eapply (Hgo (EFire i)); [done|simpl; unfold fire; by rewrite Hi, Hpc|simpl; lia].
  - left. by exists reply.
Qed.

(** ** Service and method names *)

Fixpoint no_dot (s : string) : bool :=
  match s with
  | EmptyString => true
  | String c s' => negb (bool_decide (c = dot_char)) && no_dot s'
  end.

Lemma append_cons c s x : String.append (String c s) x = String c (String.append s x).
Proof. done. Qed.

Lemma length_append s x : String.length (String.append s x) = (String.length s + String.length x)%nat.
Proof. induction s as [|c s IH]; [done|]. rewrite append_cons. simpl. by rewrite IH. Qed.

Lemma LastIndex_none m : no_dot m = true → LastIndex_dot m = -1.
Proof.
  induction m as [|c m IH]; [done|]. simpl. intros [Hc Hm]%andb_prop. rewrite (IH Hm). simpl.
  by destruct (bool_decide (c = dot_char)).
Qed.

Lemma LastIndex_last s m :
  no_dot m = true → LastIndex_dot (String.append s (String dot_char m)) = Z.of_nat (String.length s).
Proof.
  intros Hm. induction s as [|c s IH].
  - change (String.append "" (String dot_char m)) with (String dot_char m). simpl.
    rewrite (LastIndex_none m Hm). reflexivity.
  - rewrite append_cons. cbn [LastIndex_dot String.length]. rewrite IH.
    destruct (0 <=? Z.of_nat (String.length s)) eqn:Hle; lia.
Qed.

Lemma substring_all x : String.substring 0 (String.length x) x = x.
Proof. induction x as [|c x IH]; [done|]. simpl. by rewrite IH. Qed.

Lemma substring_prefix s x : String.substring 0 (String.length s) (String.append s x) = s.
Proof. induction s as [|c s IH]; [by destruct x|]. rewrite append_cons. simpl. by rewrite IH. Qed.

Lemma substring_suffix s c x :
  String.substring (S (String.length s)) (String.length x) (String.append s (String c x)) = x.
Proof.
  induction s as [|d s IH].
  - change (String.append "" (String c x)) with (String c x). simpl. apply substring_all.
  - rewrite append_cons. simpl. apply IH.
Qed.

Lemma str_split s m :
  no_dot m = true →
  let x := String.append s (String dot_char m) in
  str_to x (LastIndex_dot x) = Some s ∧ str_from x (LastIndex_dot x + 1) = Some m.
Proof.
  intros Hm x. unfold str_to, str_from, x. rewrite (LastIndex_last s m Hm), length_append.
  cbn [String.length].
  assert (Hin : ∀ k n, 0 ≤ k ≤ n → (0 <=? k) && (k <=? n) = true).
  { intros k n Hk. apply andb_true_iff. split; apply Z.leb_le; lia. }
  rewrite !Hin by lia.
  split; f_equal.
  - rewrite Nat2Z.id. apply substring_prefix.
  - replace (Z.to_nat (Z.of_nat (String.length s) + 1)) with (S (String.length s)) by lia.
    replace (String.length s + S (String.length m) - S (String.length s))%nat with (String.length m) by lia.
    apply substring_suffix.
Qed.

(** ** Counters *)

Lemma wrap_signed_small w z : 0 < w → - 2 ^ (w - 1) ≤ z < 2 ^ (w - 1) → wrap_signed w z = z.
Proof.
  intros Hw Hz. unfold wrap_signed. rewrite Z.mod_small; [lia|].
  replace (2 ^ w) with (2 * 2 ^ (w - 1)); [lia|]. rewrite <-Z.pow_succ_r by lia. f_equal. lia.
Qed.

Lemma wrap_signed_add w z n : 0 < w → wrap_signed w (wrap_signed w z + n) = wrap_signed w (z + n).
Proof.
  intros Hw. unfold wrap_signed. f_equal.
  replace ((z + 2 ^ (w - 1)) mod 2 ^ w - 2 ^ (w - 1) + n + 2 ^ (w - 1))
    with ((z + 2 ^ (w - 1)) mod 2 ^ w + n) by lia.
  rewrite Zplus_mod_idemp_l. f_equal. lia.
Qed.

Definition is_accept (ev : Event) : bool := match ev with EAccept _ => true | _ => false end.

Lemma perform_count ev s s' :
  perform ev s = Next s' →
  count (net s') = if is_accept ev then wrap_signed 32 (count (net s) + 1) else count (net s).
Proof.
  intros Hp. destruct ev as [e m args|i|i| |i|i rnd|i|i b|i|i|i r1 r2|i|a|q|q svc]; simpl in Hp;
    unfold Call, accept, refuse, stop_loop, processReq, deliver, dispatch, handler_returns, receive_reply,
      poll, decide_reply, fire in Hp; crush_event; try done.
  destruct a; simpl in *; unfold MakeEnd, Cleanup in *; repeat case_decide; repeat case_match; by simplify_eq.
Qed.

Lemma count_accepts evs s :
  run evs net_init = Next s → count (net s) = wrap_signed 32 (zlen (filter (λ ev, is_accept ev) evs)).
Proof.
  apply (run_invariant (λ evs s, count (net s) = wrap_signed 32 (zlen (filter (λ ev, is_accept ev) evs)))); [done|].
  clear. intros evs ev s s' _ IH Hp. rewrite (perform_count _ _ _ Hp), filter_app, length_app, filter_cons, IH.
  destruct (is_accept ev); simpl; [|f_equal; lia]. rewrite wrap_signed_add by lia. f_equal. lia.
Qed.
