(* ===== verification/LabrpcTheorems.v ===== *)
(** * What the RPC simulator promises its users *)
From S2P Require Import Prelude Labrpc LabrpcProofs.



(** No handler is ever started twice for one call, whatever the network loses or delays. *)
Theorem handler_started_at_most_once (evs : list Event) (s : Sys) (i : nat) :
  run evs net_init = Next s → (times_started i evs ≤ 1)%nat.
Proof.
  intros Hrun. destruct (net_trace_ok evs s Hrun) as [Hc Hz].
  destruct (calls s !! i) as [r|] eqn:Hi.
  - rewrite (cv_started _ _ _ (Hc i r Hi)). destruct (rq_handler r); lia.
  - rewrite Hz; [lia|]. by apply lookup_ge_None.
Qed.

(** Once the server a request was sent to is no longer the registered one ([DeleteServer], or
    another server under its name) and the request is not decided yet, the call never returns true,
    unless that same server is added again. *)
Theorem no_reply_from_deleted_server (evs1 evs2 : list Event) (s1 s2 : Sys) (i : nat) (r1 r2 : Request)
    (rt : Route) :
  run evs1 net_init = Next s1 → calls s1 !! i = Some r1 →
  (rq_pc r1 = PDeliver rt ∨ rq_pc r1 = PWaiting rt ∨ ∃ reply, rq_pc r1 = PDecide rt reply) →
  server_at (rt_name rt) (net s1) ≠ Some (rt_server rt) →
  run evs2 s1 = Next s2 → EAdmin (AAddServer (rt_name rt) (rt_server rt)) ∉ evs2 →
  calls s2 !! i = Some r2 → ∀ b, rq_pc r2 ≠ PReturned (Some b).
Proof.
  intros _ Hi Hpc Hgone Hr2 Hadd Hi2 b Hb.
  assert (Hd : doomed i rt s1) by (split; [done|exists r1; naive_solver]).
  destruct (doomed_run i rt evs2 s1 s2 Hadd Hd Hr2) as [_ (r & Hi' & Hpc')]. simplify_eq.
  destruct Hpc' as [?|[?|[[? ?]|?]]]; congruence.
Qed.

(** C34: A call that has not returned always has a step of its own that brings it closer to its return,
    unless it waits for a handler that has not returned on a server that is not dead; and no event,
    of its own or of others, ever takes it further away. *)
Theorem call_makes_progress (evs : list Event) (s : Sys) (i : nat) (r : Request) :
  run evs net_init = Next s → calls s !! i = Some r →
  ((∃ reply, rq_pc r = PReturned reply) ∨ waits_for_handler s r ∨
   ∃ ev s' r', own i ev ∧ perform ev s = Next s' ∧ calls s' !! i = Some r' ∧ (rank r' < rank r)%nat) ∧
  (∀ ev s', perform ev s = Next s' → ∃ r', calls s' !! i = Some r' ∧ (rank r' ≤ rank r)%nat).
Proof.
  intros Hrun Hi. split.
  - apply call_moves; [by eapply loop_done|done].
  - intros ev s' Hp. by eapply perform_rank.
Qed.

(** A call to ["<service>.<method>"], where the method's name has no dot, is counted and reaches that
    service and method, whatever dots the service's name has. *)
Theorem dispatch_splits_name (rs : Server) (service method : string) (svc : Service) :
  services rs !! service = Some svc → no_dot method = true →
  Server_dispatch (String.append service (String dot_char method)) rs =
    Next (mkServer (services rs) (srv_count rs + 1), svc, method).
Proof.
  intros Hs Hm. unfold Server_dispatch. destruct (str_split service method Hm) as [H1 H2].
  rewrite H1, H2. simpl. by rewrite Hs.
Qed.

(** [GetTotalCount] is the number of requests the network has taken while that number is below 2^31,
    and wraps to a negative number there. *)
Theorem total_count_wraps (evs : list Event) (s : Sys) :
  run evs net_init = Next s →
  let n := zlen (filter (λ ev, is_accept ev) evs) in
  (n < 2 ^ 31 → GetTotalCount (net s) = n) ∧ (n = 2 ^ 31 → GetTotalCount (net s) = - 2 ^ 31).
Proof.
  intros Hrun n. unfold GetTotalCount. rewrite (count_accepts evs s Hrun). fold n. split; intros Hn.
  - apply wrap_signed_small; [lia|]. simpl. unfold n in *. lia.
  - rewrite Hn. reflexivity.
Qed.

(** Asking for the call count of a server that was deleted, or never added, is a nil pointer
    dereference. *)
Theorem GetCount_deleted_panics (servername : Any) (h : gmap sptr Server) (rn : Network) :
  GetCount servername h (DeleteServer servername rn) = None.
Proof. unfold GetCount, server_at. simpl. by rewrite lookup_insert_eq. Qed.

(** ** A run to evaluate on

    One end, one server with one service, a call that is answered, and a call whose server is deleted
    while its handler runs. *)

Definition demo_service : Service :=
  MakeService "Raft" 1%positive [mkMethod "AppendEntries" "" 3 true 0; mkMethod "Kill" "" 1 false 0].

Definition demo_setup : list Event :=
  [EServer 1%positive; EService 1%positive demo_service; EAdmin (AMakeEnd (AStr "e")); EAdmin (AAddServer (AInt 0) 1%positive);
   EAdmin (AConnect (AStr "e") (AInt 0)); EAdmin (AEnable (AStr "e") true)].

Definition demo_sent (i : nat) : list Event :=
  [ECall (AStr "e") "Raft.AppendEntries" [Byte.x01]; EAccept i; EProcess i; EDeliver i 0; EDispatch i].

Definition demo_first : list Event :=
  demo_setup ++ demo_sent 0 ++ [EHandler 0 [Byte.x02]; EReceive 0; EDecide 0 0 0].

Definition demo_second : list Event := demo_first ++ demo_sent 1 ++ [EAdmin (ADeleteServer (AInt 0))].

Definition demo_end : list Event := [EHandler 1 [Byte.x03]; EReceive 1; EDecide 1 0 0].

Definition state_after (evs : list Event) : Sys :=
  match run evs net_init with Next s => s | _ => net_init end.

Definition call_of (evs : list Event) (i : nat) : Request :=
  default (mkRequest (AInt 0) "" [] PSend HIdle) (calls (state_after evs) !! i).


Lemma handler_started_at_most_once_witness : (times_started 1 demo_second ≤ 1)%nat.
Proof.
  apply (handler_started_at_most_once demo_second (state_after demo_second)). vm_compute. reflexivity.
Defined.

Lemma no_reply_from_deleted_server_witness :
  rq_pc (call_of demo_second 1) = PWaiting (mkRoute (AInt 0) 1%positive true false) ∧
  rq_pc (call_of (demo_second ++ demo_end) 1) ≠ PReturned (Some [Byte.x03]).
Proof.
  split; [vm_compute; reflexivity|].
  apply (no_reply_from_deleted_server demo_second demo_end (state_after demo_second)
    (state_after (demo_second ++ demo_end)) 1 (call_of demo_second 1) (call_of (demo_second ++ demo_end) 1)
    (mkRoute (AInt 0) 1%positive true false)).
  - vm_compute. reflexivity.
  - vm_compute. reflexivity.
  - right. left. vm_compute. reflexivity.
  - vm_compute. discriminate.
  - vm_compute. reflexivity.
  - unfold demo_end. rewrite !not_elem_of_cons. split_and!; [discriminate..|apply not_elem_of_nil].
  - vm_compute. reflexivity.
Defined.

Lemma call_makes_progress_witness :
  waits_for_handler (state_after (demo_setup ++ demo_sent 0)) (call_of (demo_setup ++ demo_sent 0) 0) ∧
  ∃ ev s' r', own 1 ev ∧ perform ev (state_after demo_second) = Next s' ∧ calls s' !! 1%nat = Some r' ∧
    (rank r' < rank (call_of demo_second 1))%nat.
Proof.
  split.
  - exists (mkRoute (AInt 0) 1%positive true false). split_and!; [vm_compute; reflexivity..|].
    intros rcvr meth b. vm_compute. discriminate.
  - destruct (call_makes_progress demo_second (state_after demo_second) 1 (call_of demo_second 1))
      as [[[reply Hr]|[(rt & Hpc & Hd & _)|Hgo]] _].
    + vm_compute. reflexivity.
    + vm_compute. reflexivity.
    + vm_compute in Hr. discriminate Hr.
    + vm_compute in Hpc. injection Hpc as <-. vm_compute in Hd. discriminate Hd.
    + exact Hgo.
Defined.

Lemma dispatch_splits_name_witness :
  Server_dispatch "Raft.AppendEntries" (AddService demo_service MakeServer) =
    Next (mkServer (services (AddService demo_service MakeServer)) 1, demo_service, "AppendEntries"%string).
Proof.
  apply (dispatch_splits_name (AddService demo_service MakeServer) "Raft" "AppendEntries" demo_service);
    vm_compute; reflexivity.
Defined.

Lemma total_count_wraps_witness : GetTotalCount (net (state_after demo_second)) = 2.
Proof.
  destruct (total_count_wraps demo_second (state_after demo_second)) as [Hn _]; [vm_compute; reflexivity|].
  rewrite Hn; vm_compute; reflexivity.
Defined.
