(* ===== verification/Harness.v ===== *)
(** * What the test harnesses share

    The four [config.go] files build a cluster on the simulated network: every server has one client end
    per peer, named by random strings; connecting and disconnecting servers means enabling and disabling
    ends.  This file has the loops they share, with what they do to the network. *)
From S2P Require Import Prelude Graph Labrpc Raft.


(** [endnames [][]string]: a row per server, nil before the server was started. *)
Abbreviation Names := (list (option (list string))).

(** [endnames[a][c]]; [None] is the panic on an index out of range or a nil row. *)
Definition name_at (names : Names) (a c : Z) : option string :=
  row ← index names a; row' ← row; index row' c.

(** [endnames[a] != nil]. *)
Definition started_row (names : Names) (a : Z) : option bool :=
  row ← index names a; Some (match row with Some _ => true | None => false end).

(** [net.Enable(endnames[a][c], b)]. *)
Definition enable_end (names : Names) (b : bool) (a c : Z) (rn : Network) : option Network :=
  e ← name_at names a c; Some (Enable (AStr e) b rn).

(** The body of the loops that make a fresh set of ends: [net.MakeEnd(name)], then
    [net.Connect(name, server)]; [None] is the fatal exit on a name that exists. *)
Definition make_end (name : string) (server : Any) (rn : Network) : option Network :=
  rn' ← MakeEnd (AStr name) rn; Some (Connect (AStr name) server rn').

(** [for j := 0; j < n; j++] over fresh names, with the name of server [j]. *)
Definition make_ends (servername : Z → Any) (fresh : list string) (rn : Network) : option Network :=
  range_loop (λ p rn, make_end p.2 (servername (Z.of_nat p.1)) rn) (imap pair fresh) rn.

(** [random_handles(kvh)]: [rnds] are the results of [rand.Intn(i + 1)]. *)
Definition swap {A} (l : list A) (i j : nat) : option (list A) :=
  x ← l !! i; y ← l !! j; Some (<[j := x]> (<[i := y]> l)).

Definition random_handles {A} (kvh : list A) (rnds : list nat) : option (list A) :=
  range_loop (λ p sa, swap sa p.1 p.2) (imap pair rnds) kvh.

(** ** Enabling ends *)

(** Two networks that differ in the enabled ends and the counters only. *)
Record same_wiring (rn rn' : Network) : Prop := {
  sw_ends : ends rn' = ends rn;
  sw_servers : servers rn' = servers rn;
  sw_connections : connections rn' = connections rn
}.

#[global] Instance same_wiring_preorder : PreOrder same_wiring.
Proof.
  split.
  - intros rn. done.
  - intros x y z [H1 H2 H3] [H4 H5 H6]. split; congruence.
Qed.

Lemma is_enabled_Enable e e' b rn :
  is_enabled e (Enable e' b rn) = if decide (e = e') then b else is_enabled e rn.
Proof.
  unfold is_enabled. simpl. case_decide; subst; [by rewrite lookup_insert_eq|by rewrite lookup_insert_ne].
Qed.

(** A loop that enables or disables, for each [j] with [p j], the end [f j]. *)
Definition touched {J} (names : J → option string) (p : J → bool) (js : list J) (e : Any) : Prop :=
  ∃ j s, j ∈ js ∧ p j = true ∧ names j = Some s ∧ e = AStr s.

Lemma touched_dec {J} (names : J → option string) (p : J → bool) js e :
  touched names p js e ∨ ¬ touched names p js e.
Proof.
  destruct (decide (Exists (λ k, p k = true ∧ AStr <$> names k = Some e) js)) as [He|He].
  - left. apply Exists_exists in He as (k & Hk & Hp & Hs). apply fmap_Some in Hs as (s & ? & ->). by exists k, s.
  - right. intros (k & s & Hk & Hp & Hs & ->). apply He, Exists_exists. exists k. by rewrite Hs.
Qed.

Lemma enable_loop {J} (names : J → option string) (p : J → bool) b js
    (body : J → Network → option Network) rn :
  (∀ j, j ∈ js → p j = true → is_Some (names j)) →
  (∀ j rn, j ∈ js → body j rn = if p j then e ← names j; Some (Enable (AStr e) b rn) else Some rn) →
  ∃ rn', range_loop body js rn = Some rn' ∧ same_wiring rn rn' ∧
    (∀ e, touched names p js e → is_enabled e rn' = b) ∧
    (∀ e, ¬ touched names p js e → is_enabled e rn' = is_enabled e rn).
Proof.
  revert rn. induction js as [|j js IH]; intros rn Hsome Hbody.
  { exists rn. split_and!; [done..| |done]. intros e (j & s & Hj & _). by apply elem_of_nil in Hj. }
  assert (Hj : ∃ rn1, body j rn = Some rn1 ∧ same_wiring rn rn1 ∧
    (∀ e, is_enabled e rn1 = b ∨ (¬ touched names p [j] e ∧ is_enabled e rn1 = is_enabled e rn)) ∧
    (∀ e, ¬ touched names p [j] e → is_enabled e rn1 = is_enabled e rn)).
  { rewrite Hbody by left. destruct (p j) eqn:Hp.
    - destruct (Hsome j) as [s Hs]; [left|done|]. rewrite Hs. simpl. eexists. split; [done|].
      split; [done|]. split.
      + intros e. rewrite is_enabled_Enable. case_decide as He; [by left|right]. split; [|done].
        intros (j' & s' & ->%list_elem_of_singleton & _ & Hs' & ->). congruence.
      + intros e He. rewrite is_enabled_Enable, decide_False; [done|]. intros ->. apply He.
        exists j, s. split; [left|done].
    - exists rn. split; [done|]. split; [done|]. split; [|done]. intros e. right. split; [|done].
      intros (j' & s' & ->%list_elem_of_singleton & Hp' & _). congruence. }
  destruct Hj as (rn1 & H1 & Hw1 & Ht1 & Hn1).
  destruct (IH rn1) as (rn' & H2 & Hw2 & Ht2 & Hn2); [intros k Hk; apply Hsome; by right|intros k ? Hk; apply Hbody; by right|].
  exists rn'. simpl. rewrite H1. simpl. split; [done|]. split; [by etrans|].
  assert (Hsplit : ∀ e, touched names p (j :: js) e ↔ touched names p [j] e ∨ touched names p js e).
  { intros e. unfold touched. split.
    - intros (j' & s' & [->|Hin]%elem_of_cons & Hs'); [left; exists j, s'|right; exists j', s'];
        (split; [set_solver|exact Hs']).
    - intros [(j' & s' & ->%list_elem_of_singleton & Hs')|(j' & s' & Hin & Hs')];
        [exists j, s'|exists j', s']; (split; [set_solver|exact Hs']). }
  split; intros e.
  - rewrite Hsplit. destruct (touched_dec names p js e) as [Hd|Hd]; [intros _; by apply Ht2|].
    intros [He|He]; [|done]. rewrite Hn2 by done. destruct (Ht1 e) as [?|[? _]]; done.
  - rewrite Hsplit. intros He. rewrite Hn2, Hn1 by tauto. done.
Qed.

(** ** Making ends *)

(** Fresh ends are disabled, lead to their servers, and change nothing else. *)
Record made (servername : Z → Any) (fresh : list string) (k : nat) (rn rn' : Network) : Prop := {
  md_nodup : NoDup fresh;
  md_fresh : ∀ s, s ∈ fresh → AStr s ∉ ends rn;
  md_ends : ∀ e, e ∈ ends rn' ↔ e ∈ ends rn ∨ ∃ s, s ∈ fresh ∧ e = AStr s;
  md_servers : servers rn' = servers rn;
  md_off : ∀ s, s ∈ fresh → is_enabled (AStr s) rn' = false;
  md_route : ∀ j s, fresh !! j = Some s →
    connections rn' !! AStr s = Some (Some (servername (Z.of_nat (k + j))));
  md_old : ∀ e, (∀ s, s ∈ fresh → e ≠ AStr s) →
    is_enabled e rn' = is_enabled e rn ∧ connections rn' !! e = connections rn !! e
}.

Lemma make_end_step s server rn rn1 :
  make_end s server rn = Some rn1 →
  (AStr s ∉ ends rn) ∧ ends rn1 = {[AStr s]} ∪ ends rn ∧ servers rn1 = servers rn ∧
  is_enabled (AStr s) rn1 = false ∧ connections rn1 !! AStr s = Some (Some server) ∧
  ∀ e, e ≠ AStr s → is_enabled e rn1 = is_enabled e rn ∧ connections rn1 !! e = connections rn !! e.
Proof.
  unfold make_end, MakeEnd. intros Hm. case_decide as Hin; [done|]. simplify_eq/=. unfold is_enabled. simpl.
  split_and!; try done.
  - by rewrite lookup_insert_eq.
  - by rewrite lookup_insert_eq.
  - intros e He. by rewrite !lookup_insert_ne.
Qed.

Lemma make_ends_made_at servername fresh k rn rn' :
  range_loop (λ p rn, make_end p.2 (servername (Z.of_nat p.1)) rn) (imap (λ j s, ((k + j)%nat, s)) fresh) rn
    = Some rn' → made servername fresh k rn rn'.
Proof.
  revert k rn. induction fresh as [|s fresh IH]; intros k rn Hm.
  { simpl in Hm. simplify_eq. split; try done; [apply NoDup_nil_2|set_solver..]. }
  csimpl in Hm. apply bind_Some in Hm as (rn1 & H1 & H2). rewrite Nat.add_0_r in H1.
  apply make_end_step in H1 as (Hns & He1 & Hs1 & Hoff1 & Hc1 & Hold1).
  assert (H2' : made servername fresh (S k) rn1 rn').
  { apply IH. rewrite <-H2. f_equal. apply imap_ext. intros. unfold compose. f_equal. lia. }
  destruct H2' as [Hnd Hfr Hen Hsv Hoff Hrt Hold].
  assert (Hnin : s ∉ fresh) by (intros Hs; apply (Hfr s Hs); rewrite He1; set_solver).
  assert (Hsold : is_enabled (AStr s) rn' = is_enabled (AStr s) rn1 ∧
    connections rn' !! AStr s = connections rn1 !! AStr s) by (apply Hold; intros t Ht [= ->]; done).
  split.
  - by apply NoDup_cons.
  - intros t [->|Ht]%elem_of_cons; [done|]. specialize (Hfr t Ht). rewrite He1 in Hfr. set_solver.
  - intros e. rewrite Hen, He1. set_solver.
  - congruence.
  - intros t [->|Ht]%elem_of_cons; [|by apply Hoff]. by rewrite (proj1 Hsold).
  - intros [|j] t Ht; simpl in Ht; simplify_eq.
    + rewrite (proj2 Hsold), Nat.add_0_r. done.
    + rewrite (Hrt j t Ht). do 3 f_equal. lia.
  - intros e He. destruct (Hold e) as [-> ->]; [intros; apply He; by right|]. apply Hold1. apply He. left.
Qed.

Lemma make_ends_made servername fresh rn rn' :
  make_ends servername fresh rn = Some rn' → made servername fresh 0 rn rn'.
Proof. intros Hm. apply (make_ends_made_at servername fresh 0). exact Hm. Qed.

(** ** Shuffling *)

Lemma swap_spec {A} (l l' : list A) i j : swap l i j = Some l' → l' ≡ₚ l.
Proof.
  unfold swap. intros Hs. apply bind_Some in Hs as (x & Hi & Hs). apply bind_Some in Hs as (y & Hj & Hs).
  simplify_eq. destruct (decide (i = j)) as [->|Hne].
  { simplify_eq. rewrite list_insert_insert_eq. by rewrite list_insert_id. }
  apply (Permutation_inj _ _). split; [by rewrite !length_insert|].
  exists (λ k, if decide (k = i) then j else if decide (k = j) then i else k). split.
  - intros a b. repeat case_decide; congruence.
  - intros k. pose proof (lookup_lt_Some _ _ _ Hi). pose proof (lookup_lt_Some _ _ _ Hj).
    case_decide as H1; [subst k|case_decide as H2; [subst k|]].
    + rewrite list_lookup_insert_ne, list_lookup_insert_eq by (try done; lia). done.
    + rewrite list_lookup_insert_eq by (rewrite length_insert; lia). done.
    + by rewrite !list_lookup_insert_ne by done.
Qed.

Lemma random_handles_ok {A} (kvh : list A) (rnds : list nat) :
  length rnds = length kvh → (∀ i r, rnds !! i = Some r → (r ≤ i)%nat) →
  ∃ sa, random_handles kvh rnds = Some sa ∧ sa ≡ₚ kvh.
Proof.
  intros Hlen Hr. unfold random_handles.
  cut (∀ js (sa : list A), (∀ i j, (i, j) ∈ js → (i < length sa ∧ j < length sa)%nat) →
    ∃ sa', range_loop (λ p sa, swap sa p.1 p.2) js sa = Some sa' ∧ sa' ≡ₚ sa).
  { intros Hcut. apply Hcut. intros i j [k Hk]%list_elem_of_lookup_1. rewrite list_lookup_imap in Hk.
    destruct (rnds !! k) as [r|] eqn:Hrk; simplify_eq/=. specialize (Hr _ _ Hrk). apply lookup_lt_Some in Hrk. lia. }
  clear. intros js. induction js as [|[i j] js IH]; intros sa Hin; [by exists sa|].
  destruct (Hin i j) as [Hi Hj]; [left|]. apply lookup_lt_is_Some in Hi as [x Hx]. apply lookup_lt_is_Some in Hj as [y Hy].
  simpl. destruct (swap sa i j) as [sa1|] eqn:Hs; [|unfold swap in Hs; rewrite Hx in Hs; simpl in Hs; rewrite Hy in Hs; done].
  simpl. pose proof (swap_spec _ _ _ _ Hs) as Hp. destruct (IH sa1) as (sa' & Hr & Hp').
  - intros a b Hab. rewrite Hp. apply Hin. by right.
  - exists sa'. split; [done|]. by rewrite Hp'.
Qed.
