(* ===== verification/RaftConfig.v ===== *)
(** * The Raft tester: [raft/config.go]

    The state of the tester, its operations on the network (connect, disconnect, crash, start), the
    readers of the apply channels that compare what the servers commit, and the checks the tests call.
    A method that fails the test ([t.Fatal], [log.Fatalf]) or panics gives [None], except where the error
    itself is the result.  Results of the peers' methods, random names and map orders are arguments. *)
From S2P Require Import Prelude Graph Labrpc Raft Harness.


Module RaftConfig.
Section config.
Context {Cmd : Type} `{EqDecision Cmd} `{Codec (Z * list (option Cmd))}.

(** What an applier reports. *)
Inductive ApplyErr :=
  | Mismatch (index i j : Z)      (** commit index=.. server=.. != server=.. *)
  | OutOfOrder (i index : Z)
  | Expected (i want got : Z)
  | BadSnapshotIndex (i : Z).

(** [saved] holds addresses of persisters on [disk]; [rafts] numbers the instances of the peers, and
    [instance] says which persister each instance was given. *)
Record config := mkConfig {
  net : Network;
  n : Z;
  rafts : list (option positive);
  applyErr : list (option ApplyErr);
  connected : list bool;
  saved : list (option positive);
  disk : gmap positive Persister;
  instance : gmap positive positive;
  endnames : Names;
  logs : list (gmap Z (option Cmd));
  lastApplied : list Z;
  maxIndex : Z
}.

Definition set_net rn (c : config) : config :=
  mkConfig rn (n c) (rafts c) (applyErr c) (connected c) (saved c) (disk c) (instance c) (endnames c)
           (logs c) (lastApplied c) (maxIndex c).
Definition set_rafts l (c : config) : config :=
  mkConfig (net c) (n c) l (applyErr c) (connected c) (saved c) (disk c) (instance c) (endnames c)
           (logs c) (lastApplied c) (maxIndex c).
Definition set_connected l (c : config) : config :=
  mkConfig (net c) (n c) (rafts c) (applyErr c) l (saved c) (disk c) (instance c) (endnames c)
           (logs c) (lastApplied c) (maxIndex c).
Definition set_saved l d (c : config) : config :=
  mkConfig (net c) (n c) (rafts c) (applyErr c) (connected c) l d (instance c) (endnames c)
           (logs c) (lastApplied c) (maxIndex c).
Definition set_instance m (c : config) : config :=
  mkConfig (net c) (n c) (rafts c) (applyErr c) (connected c) (saved c) (disk c) m (endnames c)
           (logs c) (lastApplied c) (maxIndex c).
Definition set_endnames l (c : config) : config :=
  mkConfig (net c) (n c) (rafts c) (applyErr c) (connected c) (saved c) (disk c) (instance c) l
           (logs c) (lastApplied c) (maxIndex c).
Definition set_logs l (c : config) : config :=
  mkConfig (net c) (n c) (rafts c) (applyErr c) (connected c) (saved c) (disk c) (instance c) (endnames c)
           l (lastApplied c) (maxIndex c).
Definition set_lastApplied l (c : config) : config :=
  mkConfig (net c) (n c) (rafts c) (applyErr c) (connected c) (saved c) (disk c) (instance c) (endnames c)
           (logs c) l (maxIndex c).
Definition set_maxIndex k (c : config) : config :=
  mkConfig (net c) (n c) (rafts c) (applyErr c) (connected c) (saved c) (disk c) (instance c) (endnames c)
           (logs c) (lastApplied c) k.

(** ** The network *)

(** [connect(i)]: both loops enable the ends between [i] and the connected servers. *)
Definition connect (i : Z) (cfg : config) : option config :=
  conn ← set_index (connected cfg) i true;
  let cfg := set_connected conn cfg in
  rn ← range_loop (λ j rn, cj ← index conn j; if (cj : bool) then enable_end (endnames cfg) true i j rn else Some rn)
         (zrange 0 (n cfg)) (net cfg);
  rn ← range_loop (λ j rn, cj ← index conn j; if (cj : bool) then enable_end (endnames cfg) true j i rn else Some rn)
         (zrange 0 (n cfg)) rn;
  Some (set_net rn cfg).

(** [disconnect(i)]: both loops disable the ends of [i] that exist. *)
Definition disconnect (i : Z) (cfg : config) : option config :=
  conn ← set_index (connected cfg) i false;
  let cfg := set_connected conn cfg in
  rn ← range_loop (λ j rn, b ← started_row (endnames cfg) i;
                            if (b : bool) then enable_end (endnames cfg) false i j rn else Some rn)
         (zrange 0 (n cfg)) (net cfg);
  rn ← range_loop (λ j rn, b ← started_row (endnames cfg) j;
                            if (b : bool) then enable_end (endnames cfg) false j i rn else Some rn)
         (zrange 0 (n cfg)) rn;
  Some (set_net rn cfg).

(** ** Persisters *)

(** A new object on the heap with the given content, as [saved[i]]. *)
Definition save_new (i : Z) (p : Persister) (cfg : config) : option config :=
  let a := fresh (dom (disk cfg)) in
  sv ← set_index (saved cfg) i (Some a);
  Some (set_saved sv (<[a := p]> (disk cfg)) cfg).

(** [cfg.saved[i]] and what it points to. *)
Definition saved_at (i : Z) (cfg : config) : option (option Persister) :=
  a ← index (saved cfg) i;
  match a with
  | None => Some None
  | Some a => p ← disk cfg !! a; Some (Some p)
  end.

(** What a peer that runs as instance [r] does to its persister. *)
Definition instance_writes (r : positive) (p : Persister) (cfg : config) : option config :=
  a ← instance cfg !! r; Some (set_saved (saved cfg) (<[a := p]> (disk cfg)) cfg).

(** [crash1(i)]. *)
Definition crash1 (i : Z) (cfg : config) : option config :=
  cfg ← disconnect i cfg;
  let cfg := set_net (DeleteServer (AInt i) (net cfg)) cfg in
  sv ← saved_at i cfg;
  cfg ← match sv with Some p => save_new i (Copy p) cfg | None => Some cfg end;
  rf ← index (rafts cfg) i;
  cfg ← match rf with
         | Some _ => rs ← set_index (rafts cfg) i None; Some (set_rafts rs cfg)
         | None => Some cfg
         end;
  sv ← saved_at i cfg;
  match sv with
  | Some p => save_new i (SaveStateAndSnapshot MakePersister (ReadRaftState p) (ReadSnapshot p)) cfg
  | None => Some cfg
  end.

(** ** Comparing the logs *)

(** The loop of [checkLogs]: the last server that has another value at [index]. *)
Definition mismatch (i idx : Z) (v : option Cmd) (ls : list (gmap Z (option Cmd))) : option ApplyErr :=
  foldl (λ err p, match p.2 !! idx with
                  | Some old => if decide (old = v) then err else Some (Mismatch idx i (Z.of_nat p.1))
                  | None => err
                  end) None (imap pair ls).

(** [checkLogs(i, m)]: the error, and whether the previous index is there. *)
Definition checkLogs (i : Z) (m : ApplyMsg Cmd) (cfg : config) : option (option ApplyErr * bool * config) :=
  let v := ACommand m in
  let idx := CommandIndex m in
  let err := mismatch i idx v (logs cfg) in
  row ← index (logs cfg) i;
  let prevok := bool_decide (is_Some (row !! (idx - 1))) in
  ls ← set_index (logs cfg) i (<[idx := v]> row);
  let cfg := set_logs ls cfg in
  let cfg := if maxIndex cfg <? idx then set_maxIndex idx cfg else cfg in
  Some (err, prevok, cfg).

(** One message in [applier]; with an error the program ends. *)
Definition applier (i : Z) (m : ApplyMsg Cmd) (cfg : config) : option (option ApplyErr * config) :=
  if negb (CommandValid m) then Some (None, cfg)
  else
    r ← checkLogs i m cfg;
    let '(err, prevok, cfg) := r in
    Some (if (1 <? CommandIndex m) && negb prevok then Some (OutOfOrder i (CommandIndex m)) else err, cfg).

(** [ingestSnap(i, snapshot, index)]. *)
Definition ingestSnap (i : Z) (snapshot : list byte) (idx : Z) (cfg : config) :
    option (option ApplyErr * config) :=
  d ← gob_decode snapshot;
  let '(lastIncludedIndex, xlog) := d in
  if negb (idx =? -1) && negb (idx =? lastIncludedIndex) then Some (Some (BadSnapshotIndex i), cfg)
  else
    ls ← set_index (logs cfg) i (list_to_map (imap (λ j x, (Z.of_nat j, x)) xlog));
    la ← set_index (lastApplied cfg) i lastIncludedIndex;
    Some (None, set_lastApplied la (set_logs ls cfg)).

Definition SnapShotInterval : Z := 10.

(** One message in [applierSnap]; [installed] is the answer of [CondInstallSnapshot].  The last
    component is the call of [rf.Snapshot]. *)
Definition applierSnap (i : Z) (m : ApplyMsg Cmd) (installed : bool) (cfg : config) :
    option (option ApplyErr * config * option (Z * list byte)) :=
  if SnapshotValid m then
    if installed then
      r ← ingestSnap i (Snap m) (SnapshotIndex m) cfg; Some (r.1, r.2, None)
    else Some (None, cfg, None)
  else if CommandValid m then
    la ← index (lastApplied cfg) i;
    r ← (if negb (CommandIndex m =? la + 1) then Some (Some (Expected i (la + 1) (CommandIndex m)), cfg)
         else
           r ← checkLogs i m cfg;
           let '(err, prevok, cfg) := r in
           Some (if (1 <? CommandIndex m) && negb prevok then Some (OutOfOrder i (CommandIndex m)) else err, cfg));
    let '(err, cfg) := r in
    las ← set_index (lastApplied cfg) i (CommandIndex m);
    let cfg := set_lastApplied las cfg in
    row ← index (logs cfg) i;
    let call := if (CommandIndex m + 1) mod SnapShotInterval =? 0 then
                  Some (CommandIndex m,
                        gob_encode (CommandIndex m,
                          (λ j, default None (row !! j)) <$> zrange 0 (CommandIndex m + 1)))
                else None in
    Some (err, cfg, call)
  else Some (None, cfg, None).

(** ** Starting a server *)

(** [start1(i, applier)]: [fresh_names] are the results of [randstring(20)], [r] and [srv] the new peer
    and the new server object. *)
Definition start1 (i : Z) (fresh_names : list string) (r : positive) (srv : sptr) (cfg : config) :
    option config :=
  cfg ← crash1 i cfg;
  names ← set_index (endnames cfg) i (Some fresh_names);
  let cfg := set_endnames names cfg in
  rn ← make_ends AInt fresh_names (net cfg);
  la ← set_index (lastApplied cfg) i 0;
  let cfg := set_lastApplied la (set_net rn cfg) in
  sv ← saved_at i cfg;
  cfg ← match sv with
         | Some p =>
             cfg ← save_new i (Copy p) cfg;
             if bool_decide (ReadSnapshot p = []) then Some cfg
             else
               r ← ingestSnap i (ReadSnapshot p) (-1) cfg;
               match r with (None, cfg) => Some cfg | (Some _, _) => None end
         | None => save_new i MakePersister cfg
         end;
  a ← index (saved cfg) i; a ← a;
  rs ← set_index (rafts cfg) i (Some r);
  let cfg := set_instance (<[r := a]> (instance cfg)) (set_rafts rs cfg) in
  Some (set_net (AddServer (AInt i) srv (net cfg)) cfg).

(** [make_config(t, n, unreliable, snapshot)], with the random names, peers and servers of each start. *)
Definition new_config (n : Z) (unreliable : bool) : config :=
  let k := Z.to_nat n in
  mkConfig (LongDelays true (Reliable (negb unreliable) MakeNetwork)) n (replicate k None) (replicate k None)
           (replicate k false) (replicate k None) ∅ ∅ (replicate k None) (replicate k ∅) (replicate k 0) 0.

Definition make_config (n : Z) (unreliable : bool) (starts : list (list string * positive * sptr)) :
    option config :=
  cfg ← range_loop (λ p cfg, start1 (Z.of_nat p.1) p.2.1.1 p.2.1.2 p.2.2 cfg) (imap pair starts)
          (new_config n unreliable);
  range_loop connect (zrange 0 n) cfg.

(** [cleanup()]: the peers are killed and the network closed; closing it twice panics. *)
Definition cleanup (cfg : config) : option config :=
  rn ← Cleanup (net cfg); Some (set_net rn cfg).

(** ** What the tests ask *)

(** Whether the connected servers [states] gives [(term, isLeader)] for agree. *)
Definition checkTerms (states : list (Z * bool)) (cfg : config) : option Z :=
  range_loop (λ i term,
    ci ← index (connected cfg) i;
    if (ci : bool) then
      s ← index states i;
      if term =? -1 then Some s.1 else if negb (term =? s.1) then None else Some term
    else Some term) (zrange 0 (n cfg)) (-1).

Definition checkNoLeader (states : list (Z * bool)) (cfg : config) : option unit :=
  range_loop (λ i u,
    ci ← index (connected cfg) i;
    if (ci : bool) then s ← index states i; if (s.2 : bool) then None else Some u
    else Some u) (zrange 0 (n cfg)) tt.

(** The map [leaders] of one iteration of [checkOneLeader]. *)
Definition leaders_of (states : list (Z * bool)) (cfg : config) : option (gmap Z (list Z)) :=
  range_loop (λ i leaders,
    ci ← index (connected cfg) i;
    if (ci : bool) then
      s ← index states i;
      Some (if (s.2 : bool) then <[s.1 := default [] (leaders !! s.1) ++ [i]]> leaders else leaders)
    else Some leaders) (zrange 0 (n cfg)) ∅.

(** One iteration: [None] when a term has two leaders, [Some None] when nobody leads yet. *)
Definition one_leader `{MapOrder} (states : list (Z * bool)) (cfg : config) : option (option Z) :=
  leaders ← leaders_of states cfg;
  lastTermWithLeader ← range_loop (λ p last,
    if 1 <? zlen p.2 then None else Some (if last <? p.1 then p.1 else last)) (map_order leaders) (-1);
  if bool_decide (leaders = ∅) then Some None
  else
    l ← index (default [] (leaders !! lastTermWithLeader)) 0;
    Some (Some l).

(** [checkOneLeader()]: [rounds] are the answers of [GetState] in each of the ten iterations. *)
Fixpoint checkOneLeader `{MapOrder} (rounds : list (list (Z * bool))) (cfg : config) : option Z :=
  match rounds with
  | [] => None
  | states :: rounds' =>
      r ← one_leader states cfg;
      match r with Some l => Some l | None => checkOneLeader rounds' cfg end
  end.

(** [nCommitted(index)]: how many servers have an entry there, and which. *)
Definition nCommitted (idx : Z) (cfg : config) : option (Z * option Cmd) :=
  range_loop (λ p (acc : Z * option Cmd),
    e ← index (applyErr cfg) p;
    match e with
    | Some _ => None
    | None =>
        row ← index (logs cfg) p;
        match row !! idx with
        | Some cmd1 =>
            if (0 <? acc.1) && negb (bool_decide (acc.2 = cmd1)) then None else Some (acc.1 + 1, cmd1)
        | None => Some acc
        end
    end) (zrange 0 (zlen (rafts cfg))) (0, None).

(** [LogSize()]. *)
Definition LogSize (cfg : config) : option Z :=
  range_loop (λ i logsize,
    sv ← saved_at i cfg; p ← sv;
    Some (if logsize <? RaftStateSize p then RaftStateSize p else logsize)) (zrange 0 (n cfg)) 0.

Definition rpcCount (server : Z) (h : gmap sptr Server) (cfg : config) : option Z :=
  GetCount (AInt server) h (net cfg).
Definition rpcTotal (cfg : config) : Z := GetTotalCount (net cfg).
Definition bytesTotal (cfg : config) : Z := GetTotalBytes (net cfg).
Definition setunreliable (unrel : bool) (cfg : config) : config := set_net (Reliable (negb unrel) (net cfg)) cfg.
Definition setlongreordering (longrel : bool) (cfg : config) : config :=
  set_net (LongReordering longrel (net cfg)) cfg.

End config.
End RaftConfig.
