(* ===== verification/RaftConfigNet.v ===== *)
(** * The tester's network

    Which client ends are enabled, over every sequence of connects, disconnects, crashes and starts. *)
From S2P Require Import Prelude Graph Labrpc Raft Harness RaftConfig.
Import RaftConfig.


(** ** The wiring

    Of a network, the number of servers, the servers on the net and the current names. *)
Record wired (rn : Network) (k : Z) (conn : list bool) (names : Names) : Prop := {
  wd_conn : zlen conn = k;
  wd_names : zlen names = k;
  wd_rows : ∀ i row, index names i = Some (Some row) → zlen row = k;
  wd_idle : ∀ i, index conn i = Some true → ∃ row, index names i = Some (Some row);
  wd_state : ∀ i j e ci cj, name_at names i j = Some e → index conn i = Some ci → index conn j = Some cj →
    is_enabled (AStr e) rn = ci && cj;
  wd_route : ∀ i j e, name_at names i j = Some e →
    AStr e ∈ ends rn ∧ connections rn !! AStr e = Some (Some (AInt j));
  wd_inj : ∀ i j i' j' e, name_at names i j = Some e → name_at names i' j' = Some e → i = i' ∧ j = j';
  wd_only : ∀ e, is_enabled e rn = true → ∃ i j s, name_at names i j = Some s ∧ e = AStr s
}.

Lemma name_at_Some names i j e :
  name_at names i j = Some e ↔ ∃ row, index names i = Some (Some row) ∧ index row j = Some e.
Proof.
  unfold name_at. split.
  - intros Hn. apply bind_Some in Hn as (row & Hi & Hn). destruct row as [row|]; [|done]. by exists row.
  - intros (row & Hi & Hj). by rewrite Hi.
Qed.

Lemma name_at_row names i row j e : index names i = Some (Some row) → index row j = Some e → name_at names i j = Some e.
Proof. intros. apply name_at_Some. eauto. Qed.

Lemma wired_name rn k conn names i row j :
  wired rn k conn names → index names i = Some (Some row) → 0 ≤ j < k → is_Some (name_at names i j).
Proof.
  intros Hw Hi Hj. destruct (index_total row j) as [e He]; [by rewrite (wd_rows _ _ _ _ Hw i row Hi)|].
  exists e. by eapply name_at_row.
Qed.

Lemma name_at_range rn k conn names i j e :
  wired rn k conn names → name_at names i j = Some e → 0 ≤ i < k ∧ 0 ≤ j < k.
Proof.
  intros Hw (row & Hi & Hj)%name_at_Some. pose proof (index_lt_Some _ _ _ Hi) as H1.
  pose proof (index_lt_Some _ _ _ Hj) as H2. rewrite (wd_names _ _ _ _ Hw) in H1.
  rewrite (wd_rows _ _ _ _ Hw i row Hi) in H2. done.
Qed.

Lemma wired_same rn rn' k conn names :
  same_wiring rn rn' → (∀ e, is_enabled e rn' = is_enabled e rn) → wired rn k conn names → wired rn' k conn names.
Proof.
  intros [He Hs Hc] Hen [W1 W2 W3 W4 W5 W6 W7 W8]. split; try done.
  - intros. rewrite Hen. by eapply W5.
  - intros i j e Hn. rewrite He, Hc. by apply (W6 i).
  - intros e. rewrite Hen. apply W8.
Qed.

Lemma index_bool (conn : list bool) k i : zlen conn = k → 0 ≤ i < k → ∃ b, index conn i = Some b.
Proof. intros <- Hi. by apply index_total. Qed.

Lemma index_set {A} (l : list A) i b a :
  0 ≤ i < zlen l → index (<[Z.to_nat i := b]> l) a = if decide (a = i) then Some b else index l a.
Proof.
  intros Hi. destruct (decide (0 ≤ a)).
  - rewrite index_insert by lia. repeat case_decide; congruence.
  - rewrite decide_False by lia. unfold index. by destruct (0 <=? a) eqn:Ha; [lia|].
Qed.

Lemma touched_zrange names p k e :
  touched names p (zrange 0 k) e ↔ ∃ j s, 0 ≤ j < k ∧ p j = true ∧ names j = Some s ∧ e = AStr s.
Proof. unfold touched. by setoid_rewrite elem_of_zrange. Qed.

(** ** Two loops over the ends of one server

    The ends of the names [f j] are set, then those of [g j]; nothing else changes. *)
Lemma two_loops (p q : Z → bool) (f g : Z → option string) b k rn
    (body1 body2 : Z → Network → option Network) :
  (∀ j, 0 ≤ j < k → p j = true → is_Some (f j)) → (∀ j, 0 ≤ j < k → q j = true → is_Some (g j)) →
  (∀ j rn, 0 ≤ j < k → body1 j rn = if p j then e ← f j; Some (Enable (AStr e) b rn) else Some rn) →
  (∀ j rn, 0 ≤ j < k → body2 j rn = if q j then e ← g j; Some (Enable (AStr e) b rn) else Some rn) →
  ∃ rn', (rn1 ← range_loop body1 (zrange 0 k) rn; rn2 ← range_loop body2 (zrange 0 k) rn1; Some rn2) = Some rn' ∧
    same_wiring rn rn' ∧
    (∀ e : Any, (touched f p (zrange 0 k) e ∨ touched g q (zrange 0 k) e) → is_enabled e rn' = b) ∧
    (∀ e : Any, ¬ touched f p (zrange 0 k) e → ¬ touched g q (zrange 0 k) e → is_enabled e rn' = is_enabled e rn).
Proof.
  intros Hf Hg Hb1 Hb2.
  destruct (enable_loop f p b (zrange 0 k) body1 rn) as (rn1 & H1 & Hw1 & Ht1 & Hn1);
    [intros j Hj%elem_of_zrange; auto|intros j ? Hj%elem_of_zrange; auto|].
  destruct (enable_loop g q b (zrange 0 k) body2 rn1) as (rn2 & H2 & Hw2 & Ht2 & Hn2);
    [intros j Hj%elem_of_zrange; auto|intros j ? Hj%elem_of_zrange; auto|].
  exists rn2. rewrite H1. simpl. rewrite H2. split; [done|]. split; [by etrans|].
  split.
  - intros e He. destruct (touched_dec g q (zrange 0 k) e) as [Hd|Hd]; [by apply Ht2|]. rewrite Hn2 by done. destruct He; [by apply Ht1|done].
  - intros e H3 H4. rewrite Hn2, Hn1 by done. done.
Qed.

(** ** Connecting and disconnecting *)

(** What is enabled after the ends of server [i] were set to [b && connected]. *)
Lemma wired_update rn rn' k conn names i (b : bool) :
  wired rn k conn names → 0 ≤ i < k → same_wiring rn rn' →
  (b = true → ∃ row, index names i = Some (Some row)) →
  (∀ a c e, name_at names a c = Some e → a = i ∨ c = i →
     (∀ ca cc, index (<[Z.to_nat i := b]> conn) a = Some ca → index (<[Z.to_nat i := b]> conn) c = Some cc →
        is_enabled (AStr e) rn' = ca && cc)) →
  (∀ e, (∀ a c s, name_at names a c = Some s → a = i ∨ c = i → e ≠ AStr s) →
     is_enabled e rn' = is_enabled e rn) →
  wired rn' k (<[Z.to_nat i := b]> conn) names.
Proof.
  intros [W1 W2 W3 W4 W5 W6 W7 W8] Hi [He Hs Hc] Hb Hset Hkeep.
  assert (Hidx : ∀ a, index (<[Z.to_nat i := b]> conn) a = if decide (a = i) then Some b else index conn a).
  { intros a. by apply index_set; rewrite W1. }
  split; try done.
  - by rewrite length_insert.
  - intros a Ha. rewrite Hidx in Ha. case_decide; simplify_eq; auto.
  - intros a c e ca cc Hn Hca Hcc. destruct (decide (a = i ∨ c = i)) as [Hac|Hac]; [by eapply Hset|].
    rewrite Hkeep.
    + rewrite Hidx, decide_False in Hca by tauto. rewrite Hidx, decide_False in Hcc by tauto. by eapply W5.
    + intros a' c' s Hn' Hac' [= ->]. destruct (W7 _ _ _ _ _ Hn Hn') as [-> ->]. tauto.
  - intros a c e Hn. rewrite He, Hc. by eapply W6.
  - intros e Hen.
    destruct (is_enabled e rn) eqn:Hold; [by apply W8|].
    destruct (decide (Exists (λ ac, (ac.1 = i ∨ ac.2 = i) ∧ AStr <$> name_at names ac.1 ac.2 = Some e)
      (cprod (zrange 0 k) (zrange 0 k)))) as [Hex|Hnex].
    + apply Exists_exists in Hex as ([a c] & _ & _ & (s & Hs' & ->)%fmap_Some). by exists a, c, s.
    + rewrite Hkeep in Hen; [congruence|]. intros a c s Hn Hac ->. apply Hnex, Exists_exists. exists (a, c).
      pose proof Hn as (row & Hr1 & Hr2)%name_at_Some. pose proof (index_lt_Some _ _ _ Hr1). pose proof (index_lt_Some _ _ _ Hr2).
      rewrite (W3 a row Hr1) in *. split; [|simpl; by rewrite Hn].
      apply list_elem_of_cprod. rewrite !elem_of_zrange. simpl. lia.
Qed.

(** An end one of whose sides stays off the net when server [i] joins was disabled before. *)
Lemma disconnected_end rn k conn names i a c e ca cc :
  wired rn k conn names → 0 ≤ i < k → name_at names a c = Some e →
  index (<[Z.to_nat i := true]> conn) a = Some ca → index (<[Z.to_nat i := true]> conn) c = Some cc →
  ca && cc = false → is_enabled (AStr e) rn = false.
Proof.
  intros Hw Hi Hnm Hca Hcc Hf. pose proof (name_at_range _ _ _ _ _ _ _ Hw Hnm) as [Ha Hc].
  pose proof (wd_conn _ _ _ _ Hw) as W1.
  destruct (index_bool conn k a W1 Ha) as [oa Hoa]. destruct (index_bool conn k c W1 Hc) as [oc Hoc].
  rewrite (wd_state _ _ _ _ Hw a c e oa oc Hnm Hoa Hoc).
  rewrite index_set in Hca, Hcc by (rewrite W1; lia).
  rewrite Hoa in Hca. rewrite Hoc in Hcc.
  destruct oa, oc; repeat case_decide; simplify_eq; done.
Qed.

Section config.
Context {Cmd : Type} `{EqDecision Cmd} `{Codec (Z * list (option Cmd))}.
Implicit Types cfg : @config Cmd.

Definition cfg_wired cfg : Prop := wired (net cfg) (n cfg) (connected cfg) (endnames cfg).

Lemma connect_wired i cfg :
  cfg_wired cfg → 0 ≤ i < n cfg → (∃ row, index (endnames cfg) i = Some (Some row)) →
  ∃ rn, connect i cfg = Some (set_net rn (set_connected (<[Z.to_nat i := true]> (connected cfg)) cfg)) ∧
    cfg_wired (set_net rn (set_connected (<[Z.to_nat i := true]> (connected cfg)) cfg)) ∧
    same_wiring (net cfg) rn.
Proof.
  intros Hw Hi [row Hrow]. unfold cfg_wired in *. pose proof Hw as [W1 W2 W3 W4 W5 W6 W7 W8].
  set (conn := <[Z.to_nat i := true]> (connected cfg)). set (k := n cfg) in *.
  assert (Hidx : ∀ a, index conn a = if decide (a = i) then Some true else index (connected cfg) a)
    by (intros a; apply index_set; by rewrite W1).
  assert (Hlen : zlen conn = k) by (unfold conn; by rewrite length_insert).
  set (p := λ j, default false (index conn j)).
  assert (Hpj : ∀ j, 0 ≤ j < k → index conn j = Some (p j)).
  { intros j Hj. unfold p. by destruct (index_bool conn k j Hlen Hj) as [b ->]. }
  assert (Hrowj : ∀ j, 0 ≤ j < k → p j = true → ∃ r, index (endnames cfg) j = Some (Some r)).
  { intros j Hj Hp. specialize (Hpj j Hj). rewrite Hp, Hidx in Hpj. case_decide; subst; eauto. }
  destruct (two_loops p p (λ j, name_at (endnames cfg) i j) (λ j, name_at (endnames cfg) j i) true k (net cfg)
    (λ j rn, cj ← index conn j; if (cj : bool) then enable_end (endnames cfg) true i j rn else Some rn)
    (λ j rn, cj ← index conn j; if (cj : bool) then enable_end (endnames cfg) true j i rn else Some rn))
    as (rn & Hrun & Hs & Ht & Hn).
  { intros j Hj _. by eapply wired_name. }
  { intros j Hj Hp. destruct (Hrowj j Hj Hp) as [r Hr]. by eapply wired_name. }
  { intros j rn Hj. by rewrite (Hpj j Hj). }
  { intros j rn Hj. by rewrite (Hpj j Hj). }
  exists rn. split_and!; [| |done].
  - unfold connect. rewrite set_index_Some by (rewrite W1; lia). fold conn. simpl.
    apply bind_Some in Hrun as (rn1 & H1 & Hrun). fold k. rewrite H1. simpl.
    apply bind_Some in Hrun as (rn2 & H2 & [= ->]). by rewrite H2.
  - apply (wired_update (net cfg) rn k (connected cfg) _ i true); try done; [by eauto| |].
    + intros a c e Hnm Hac ca cc Hca Hcc. fold conn in Hca, Hcc.
      pose proof (name_at_range _ _ _ _ _ _ _ Hw Hnm) as [Ha Hc].
      destruct (decide (p a = true ∧ p c = true)) as [[Hpa Hpc]|Hnp].
      * rewrite (Hpj a Ha) in Hca. rewrite (Hpj c Hc) in Hcc. simplify_eq. rewrite Hpa, Hpc. apply Ht.
        rewrite !touched_zrange. destruct Hac as [->| ->]; [left; by exists c, e|right; by exists a, e].
      * assert (Hcac : ca && cc = false).
        { rewrite (Hpj a Ha) in Hca. rewrite (Hpj c Hc) in Hcc. simplify_eq. destruct (p a), (p c); tauto. }
        pose proof (disconnected_end _ _ _ _ i a c e ca cc Hw Hi Hnm Hca Hcc Hcac) as Hf.
        rewrite Hcac, <-Hf. apply Hn; rewrite touched_zrange;
          intros (j & s & Hj & Hpj' & Hs' & [= ->]); destruct (W7 _ _ _ _ _ Hnm Hs') as [-> ->];
          apply Hnp; split; try done; unfold p; rewrite Hidx, decide_True by done; done.
    + intros e He. apply Hn; rewrite touched_zrange; intros (j & s & Hj & Hpj' & Hs' & ->); eapply He; eauto.
Qed.

Lemma disconnect_wired i cfg :
  cfg_wired cfg → 0 ≤ i < n cfg →
  ∃ rn, disconnect i cfg = Some (set_net rn (set_connected (<[Z.to_nat i := false]> (connected cfg)) cfg)) ∧
    cfg_wired (set_net rn (set_connected (<[Z.to_nat i := false]> (connected cfg)) cfg)) ∧
    same_wiring (net cfg) rn.
Proof.
  intros Hw Hi. unfold cfg_wired in *. pose proof Hw as [W1 W2 W3 W4 W5 W6 W7 W8].
  set (conn := <[Z.to_nat i := false]> (connected cfg)). set (k := n cfg) in *.
  set (p := λ j, default false (started_row (endnames cfg) j)).
  assert (Hpj : ∀ j, 0 ≤ j < k → started_row (endnames cfg) j = Some (p j) ∧
    (p j = true ↔ ∃ r, index (endnames cfg) j = Some (Some r))).
  { intros j Hj. unfold p, started_row. destruct (index_total (endnames cfg) j) as [[r|] Hr]; [by rewrite W2|..];
      rewrite Hr; simpl; naive_solver. }
  assert (Hname : ∀ a j, 0 ≤ a < k → 0 ≤ j < k → p a = true → is_Some (name_at (endnames cfg) a j)).
  { intros a j Ha Hj Hp. apply (Hpj a Ha) in Hp as [r Hr]. by eapply wired_name. }
  destruct (two_loops (λ _, p i) p (λ j, name_at (endnames cfg) i j) (λ j, name_at (endnames cfg) j i) false k (net cfg)
    (λ j rn, b ← started_row (endnames cfg) i; if (b : bool) then enable_end (endnames cfg) false i j rn else Some rn)
    (λ j rn, b ← started_row (endnames cfg) j; if (b : bool) then enable_end (endnames cfg) false j i rn else Some rn))
    as (rn & Hrun & Hs & Ht & Hn); [auto|auto|..].
  { intros j rn Hj. by rewrite (proj1 (Hpj i Hi)). }
  { intros j rn Hj. by rewrite (proj1 (Hpj j Hj)). }
  exists rn. split_and!; [| |done].
  - unfold disconnect. rewrite set_index_Some by (rewrite W1; lia). fold conn. simpl.
    apply bind_Some in Hrun as (rn1 & H1 & Hrun). fold k. rewrite H1. simpl.
    apply bind_Some in Hrun as (rn2 & H2 & [= ->]). by rewrite H2.
  - apply (wired_update (net cfg) rn k (connected cfg) _ i false); try done.
    + intros a c e Hnm Hac ca cc Hca Hcc. pose proof (name_at_range _ _ _ _ _ _ _ Hw Hnm) as [Ha Hc].
      assert (Hpa : p a = true) by (apply (Hpj a Ha); apply name_at_Some in Hnm as (r & ? & _); eauto).
      rewrite index_set in Hca, Hcc by (rewrite W1; lia).
      replace (ca && cc) with false by (destruct Hac as [-> | ->]; rewrite decide_True in * by done;
        simplify_eq; by rewrite ?andb_false_r).
      apply Ht. rewrite !touched_zrange. destruct Hac as [->| ->]; [left; by exists c, e|right; by exists a, e].
    + intros e He. apply Hn; rewrite touched_zrange; intros (j & s & Hj & Hpj' & Hs' & ->); eapply He; eauto.
Qed.

End config.
