(* ===== verification/RaftConfigDisk.v ===== *)
(** * The tester's persisters

    Which persister each instance of a peer writes to, over every sequence of crashes and starts. *)
From S2P Require Import Prelude Graph Labrpc Raft Harness RaftConfig RaftConfigNet.
Import RaftConfig.


Section config.
Context {Cmd : Type} `{EqDecision Cmd} `{Codec (Z * list (option Cmd))}.
Implicit Types cfg : @config Cmd.

(** [saved] holds distinct objects, and an instance that shares one with the tester is the running one. *)
Record disk_ok cfg : Prop := {
  dk_saved : zlen (saved cfg) = n cfg;
  dk_rafts : zlen (rafts cfg) = n cfg;
  dk_on_disk : ∀ i a, index (saved cfg) i = Some (Some a) → a ∈ dom (disk cfg);
  dk_inj : ∀ i j a, index (saved cfg) i = Some (Some a) → index (saved cfg) j = Some (Some a) → i = j;
  dk_instance : ∀ r a, instance cfg !! r = Some a → a ∈ dom (disk cfg) ∧
    ∀ i, index (saved cfg) i = Some (Some a) → index (rafts cfg) i = Some (Some r)
}.

Lemma saved_at_ok i cfg : disk_ok cfg → 0 ≤ i < n cfg → ∃ o, saved_at i cfg = Some o.
Proof.
  intros Hd Hi. unfold saved_at. destruct (index_total (saved cfg) i) as [[a|] Ha]; [by rewrite dk_saved|..];
    rewrite Ha; simpl; [|by eexists].
  pose proof (dk_on_disk _ Hd i a Ha) as Hin. apply elem_of_dom in Hin as [p Hp]. rewrite Hp. by eexists.
Qed.

(** A new persister belongs to nobody else. *)
Lemma save_new_ok i p cfg :
  disk_ok cfg → 0 ≤ i < n cfg →
  ∃ a, save_new i p cfg =
      Some (set_saved (<[Z.to_nat i := Some a]> (saved cfg)) (<[a := p]> (disk cfg)) cfg) ∧
    let cfg' := set_saved (<[Z.to_nat i := Some a]> (saved cfg)) (<[a := p]> (disk cfg)) cfg in
    disk_ok cfg' ∧ saved_at i cfg' = Some (Some p) ∧ index (saved cfg') i = Some (Some a) ∧
    (∀ r, instance cfg' !! r ≠ Some a) ∧ (∀ j, j ≠ i → saved_at j cfg' = saved_at j cfg).
Proof.
  intros [D1 D2 D3 D4 D5] Hi. set (a := fresh (dom (disk cfg))). exists a.
  assert (Ha : a ∉ dom (disk cfg)) by apply is_fresh.
  assert (Hidx : ∀ j, index (<[Z.to_nat i := Some a]> (saved cfg)) j = if decide (j = i) then Some (Some a) else index (saved cfg) j)
    by (intros j; apply index_set; lia).
  split; [unfold save_new; fold a; by rewrite set_index_Some by lia|].
  split_and!; simpl.
  - split; simpl; [by rewrite length_insert|done|..].
    + intros j b Hb. rewrite Hidx in Hb. rewrite dom_insert_L. case_decide; simplify_eq; [set_solver|].
      specialize (D3 j b Hb). set_solver.
    + intros j j' b Hb Hb'. rewrite Hidx in Hb, Hb'. repeat case_decide; simplify_eq; try done;
        try (by eapply D4); exfalso; apply Ha; by eapply D3.
    + intros r b Hr. destruct (D5 r b Hr) as [Hb Hcur]. rewrite dom_insert_L. split; [set_solver|].
      intros j Hj. rewrite Hidx in Hj. case_decide; simplify_eq; [done|]. by apply Hcur.
  - unfold saved_at. simpl. rewrite Hidx, decide_True by done. simpl. by rewrite lookup_insert_eq.
  - rewrite Hidx, decide_True by done. done.
  - intros r Hr. by destruct (D5 r a Hr).
  - intros j Hj. unfold saved_at. simpl. rewrite Hidx, decide_False by done.
    destruct (index (saved cfg) j) as [[b|]|] eqn:Hb; simpl; [|done..].
    rewrite lookup_insert_ne; [done|]. intros ->. by destruct Ha; apply (D3 j).
Qed.

(** Replacing the peer of a server whose persister no instance has. *)
Lemma set_raft_ok i o cfg :
  disk_ok cfg → 0 ≤ i < n cfg →
  (∀ r a, index (saved cfg) i = Some (Some a) → instance cfg !! r = Some a → o = Some r) →
  disk_ok (set_rafts (<[Z.to_nat i := o]> (rafts cfg)) cfg).
Proof.
  intros [D1 D2 D3 D4 D5] Hi Hfree. split; simpl; [done|by rewrite length_insert|done|done|].
  intros r a Hr. destruct (D5 r a Hr) as [Ha Hcur]. split; [done|]. intros j Hj.
  rewrite index_set by lia. case_decide as Hji; [|by apply Hcur]. subst j. f_equal. by eapply Hfree.
Qed.

(** ** A crash *)

Record crashed (i : Z) cfg cfg' : Prop := {
  cr_wired : cfg_wired cfg';
  cr_disk : disk_ok cfg';
  cr_n : n cfg' = n cfg;
  cr_names : endnames cfg' = endnames cfg;
  cr_connected : connected cfg' = <[Z.to_nat i := false]> (connected cfg);
  cr_gone : server_at (AInt i) (net cfg') = None;
  cr_raft : index (rafts cfg') i = Some None;
  cr_saved : saved_at i cfg' = saved_at i cfg;
  cr_others : ∀ j, j ≠ i → saved_at j cfg' = saved_at j cfg ∧ index (rafts cfg') j = index (rafts cfg) j;
  cr_instance : instance cfg' = instance cfg;
  cr_logs : logs cfg' = logs cfg ∧ lastApplied cfg' = lastApplied cfg;
  cr_free : ∀ r a, index (saved cfg') i = Some (Some a) → instance cfg' !! r ≠ Some a
}.

Lemma persister_copy (p : Persister) :
  SaveStateAndSnapshot MakePersister (ReadRaftState (Copy p)) (ReadSnapshot (Copy p)) = p.
Proof.
  destruct p as [a b]. unfold SaveStateAndSnapshot, ReadRaftState, ReadSnapshot, clone. simpl.
  by rewrite !take_ge by (rewrite ?length_take; lia).
Qed.

Lemma wired_delete rn k conn names x : wired rn k conn names → wired (DeleteServer x rn) k conn names.
Proof. intros [W1 W2 W3 W4 W5 W6 W7 W8]. by split. Qed.

(** The peer of server [i] is dropped. *)
Definition drop_raft (i : Z) (rf : option positive) cfg : option (@config Cmd) :=
  match rf with
  | Some _ => rs ← set_index (rafts cfg) i None; Some (set_rafts rs cfg)
  | None => Some cfg
  end.

Lemma drop_raft_ok i rf cfg :
  disk_ok cfg → 0 ≤ i < n cfg → index (rafts cfg) i = Some rf →
  (∀ r a, index (saved cfg) i = Some (Some a) → instance cfg !! r ≠ Some a) →
  drop_raft i rf cfg = Some (set_rafts (<[Z.to_nat i := None]> (rafts cfg)) cfg) ∧
  disk_ok (set_rafts (<[Z.to_nat i := None]> (rafts cfg)) cfg).
Proof.
  intros Hd Hi Hrf Hfree. pose proof (dk_rafts _ Hd) as Hlen. split.
  - unfold drop_raft. destruct rf; [by rewrite set_index_Some by lia|].
    rewrite list_insert_id; [by destruct cfg|]. by apply index_Some in Hrf as [_ ?].
  - apply set_raft_ok; [done..|]. intros r a Ha Hr. by destruct (Hfree r a Ha).
Qed.

(** The part of a crash after the network was told. *)
Lemma crash_disk i cfg :
  disk_ok cfg → 0 ≤ i < n cfg → (∀ r a, index (saved cfg) i = Some (Some a) → instance cfg !! r = Some a →
    index (rafts cfg) i = Some (Some r)) →
  ∃ sv d, (sv0 ← saved_at i cfg;
    cfg ← match sv0 with Some p => save_new i (Copy p) cfg | None => Some cfg end;
    rf ← index (rafts cfg) i;
    cfg ← drop_raft i rf cfg;
    sv ← saved_at i cfg;
    match sv with
    | Some p => save_new i (SaveStateAndSnapshot MakePersister (ReadRaftState p) (ReadSnapshot p)) cfg
    | None => Some cfg
    end) = Some (set_saved sv d (set_rafts (<[Z.to_nat i := None]> (rafts cfg)) cfg)) ∧
  let cfg' := set_saved sv d (set_rafts (<[Z.to_nat i := None]> (rafts cfg)) cfg) in
  disk_ok cfg' ∧ saved_at i cfg' = saved_at i cfg ∧ (∀ j, j ≠ i → saved_at j cfg' = saved_at j cfg) ∧
  (∀ r a, index (saved cfg') i = Some (Some a) → instance cfg' !! r ≠ Some a).
Proof.
  intros Hd Hi Hcur. destruct (saved_at_ok i cfg Hd Hi) as [sv Hsv]. rewrite Hsv.
  destruct (index_total (rafts cfg) i) as [rf Hrf]; [by rewrite dk_rafts|].
  destruct sv as [p|]; simpl.
  - destruct (save_new_ok i (Copy p) cfg Hd Hi) as (a & Hs1 & Hd1 & Hat1 & Hix1 & Hfr1 & Hot1).
    rewrite Hs1. simpl. rewrite Hrf. simpl.
    destruct (drop_raft_ok i rf _ Hd1 Hi Hrf) as [Hdr Hd2]; [intros r b Hb; rewrite Hix1 in Hb; simplify_eq; apply Hfr1|].
    rewrite Hdr. simpl. set (c2 := set_rafts _ _) in *.
    assert (Hat2 : saved_at i c2 = Some (Some (Copy p))) by exact Hat1. rewrite Hat2. simpl.
    rewrite persister_copy. destruct (save_new_ok i p c2 Hd2 Hi) as (b & Hs3 & Hd3 & Hat3 & Hix3 & Hfr3 & Hot3).
    rewrite Hs3. do 2 eexists. split; [reflexivity|]. split_and!; [exact Hd3|exact Hat3| |].
    + intros j Hj. etrans; [by apply (Hot3 j)|]. exact (Hot1 j Hj).
    + intros r c Hc. assert (Hcb : Some (Some c) = Some (Some b)) by (rewrite <-Hc; exact Hix3).
      simplify_eq. exact (Hfr3 r).
  - assert (Hnone : index (saved cfg) i = Some None).
    { unfold saved_at in Hsv. destruct (index (saved cfg) i) as [[a|]|]; simpl in Hsv; [|done..].
      by destruct (disk cfg !! a). }
    rewrite Hrf. simpl. destruct (drop_raft_ok i rf cfg Hd Hi Hrf) as [Hdr Hd2]; [intros r b Hb; congruence|].
    rewrite Hdr. simpl. assert (Hat : saved_at i (set_rafts (<[Z.to_nat i := None]> (rafts cfg)) cfg) = Some None) by exact Hsv.
    rewrite Hat. simpl. exists (saved cfg), (disk cfg). split; [by destruct cfg|].
    split_and!; [exact Hd2|exact Hsv|done|]. intros r b Hb. simpl in Hb. congruence.
Qed.

Lemma crash1_ok i cfg :
  cfg_wired cfg → disk_ok cfg → 0 ≤ i < n cfg → ∃ cfg', crash1 i cfg = Some cfg' ∧ crashed i cfg cfg'.
Proof.
  intros Hw Hd Hi. destruct (disconnect_wired i cfg Hw Hi) as (rn & Hdis & Hw1 & _).
  set (c0 := set_net (DeleteServer (AInt i) rn) (set_connected (<[Z.to_nat i := false]> (connected cfg)) cfg)).
  assert (Hd0 : disk_ok c0) by (destruct Hd as [D1 D2 D3 D4 D5]; by split).
  destruct (crash_disk i c0 Hd0 Hi) as (sv & d & Hrun & Hdk & Hat & Hoth & Hfr).
  { intros r a Ha Hr. by apply (dk_instance _ Hd0 r a). }
  eexists. split; [unfold crash1; rewrite Hdis; exact Hrun|].
  pose proof (dk_rafts _ Hd) as Hlen. split; try done.
  - exact (wired_delete _ _ _ _ (AInt i) Hw1).
  - unfold server_at. simpl. by rewrite lookup_insert_eq.
  - simpl. by rewrite index_set, decide_True by lia.
  - intros j Hj. split; [by apply Hoth|]. simpl. by rewrite index_set, decide_False by lia.
Qed.

(** ** A start *)

Lemma name_at_insert (names : Names) i fr a c :
  0 ≤ i < zlen names →
  name_at (<[Z.to_nat i := Some fr]> names) a c = if decide (a = i) then index fr c else name_at names a c.
Proof. intros Hi. unfold name_at. rewrite index_set by done. by case_decide. Qed.

Lemma index_elem (l : list string) c e : index l c = Some e → e ∈ l.
Proof. intros [_ Hl]%index_Some. by eapply list_elem_of_lookup_2. Qed.

Lemma wired_start rn rn' k conn names i fr :
  wired rn k conn names → 0 ≤ i < k → index conn i = Some false → zlen fr = k →
  made AInt fr 0 rn rn' → wired rn' k conn (<[Z.to_nat i := Some fr]> names).
Proof.
  intros Hw Hi Hci Hfr [Mnd Mfresh Mends Msrv Moff Mroute Mold].
  pose proof Hw as [W1 W2 W3 W4 W5 W6 W7 W8].
  assert (Hold : ∀ a c e, name_at names a c = Some e →
    is_enabled (AStr e) rn' = is_enabled (AStr e) rn ∧ connections rn' !! AStr e = connections rn !! AStr e).
  { intros a c e Hn. apply Mold. intros s Hs [= ->]. apply (Mfresh s Hs). by apply (W6 a c). }
  assert (Hna := λ a c, name_at_insert names i fr a c ltac:(rewrite W2; lia)).
  split; try done.
  - by rewrite length_insert.
  - intros a row Ha. rewrite index_set in Ha by lia. case_decide; simplify_eq; [done|by apply (W3 a)].
  - intros a Ha. rewrite index_set by lia. case_decide; [by eexists|by apply W4].
  - intros a c e ca cc Hn Hca Hcc. rewrite Hna in Hn. case_decide as Hai.
    + subst a. simplify_eq. simpl. apply Moff. by eapply index_elem.
    + rewrite (proj1 (Hold a c e Hn)). by eapply W5.
  - intros a c e Hn. rewrite Hna in Hn. rewrite Mends. case_decide as Hai.
    + split; [right; exists e; split; [by eapply index_elem|done]|].
      apply index_Some in Hn as [Hc Hn]. rewrite (Mroute _ _ Hn). do 3 f_equal. lia.
    + rewrite (proj2 (Hold a c e Hn)). destruct (W6 a c e Hn). split; [by left|done].
  - intros a c a' c' e Hn Hn'. rewrite Hna in Hn, Hn'. repeat case_decide; subst.
    + split; [done|]. apply index_Some in Hn as [H1 Hn]. apply index_Some in Hn' as [H2 Hn'].
      pose proof (NoDup_lookup _ _ _ _ Mnd Hn Hn'). lia.
    + exfalso. apply (Mfresh e); [by eapply index_elem|by eapply W6].
    + exfalso. apply (Mfresh e); [by eapply index_elem|by eapply W6].
    + by eapply W7.
  - intros e He. assert (Hnf : ∀ s, s ∈ fr → e ≠ AStr s) by (intros s Hs ->; rewrite Moff in He; done).
    rewrite (proj1 (Mold e Hnf)) in He. pose proof He as Hen. apply W8 in He as (a & c & s & Hn & ->).
    exists a, c, s. split; [|done]. rewrite Hna, decide_False; [done|]. intros ->.
    pose proof (name_at_range _ _ _ _ _ _ _ Hw Hn) as [_ Hc]. destruct (index_bool conn k c W1 Hc) as [cc Hcc].
    rewrite (W5 i c s false cc Hn Hci Hcc) in Hen. done.
Qed.

(** What a start leaves: a wired network, persisters that belong to the running instances, and the new
    instance with the content the previous one had stored. *)
Record started (i : Z) (r : positive) (srv : sptr) cfg cfg' : Prop := {
  st_wired : cfg_wired cfg';
  st_disk : disk_ok cfg';
  st_n : n cfg' = n cfg;
  st_connected : connected cfg' = <[Z.to_nat i := false]> (connected cfg);
  st_server : server_at (AInt i) (net cfg') = Some srv;
  st_saved : ∃ p a, saved_at i cfg' = Some (Some p) ∧ index (saved cfg') i = Some (Some a) ∧
    instance cfg' !! r = Some a ∧ (saved_at i cfg = Some (Some p) ∨ saved_at i cfg = Some None ∧ p = MakePersister);
  st_row : ∃ row, index (endnames cfg') i = Some (Some row)
}.

(** The persister a start gives to the new instance. *)
Definition start_persister (i : Z) (sv : option Persister) cfg : option (@config Cmd) :=
  match sv with
  | Some p =>
      cfg ← save_new i (Copy p) cfg;
      if bool_decide (ReadSnapshot p = []) then Some cfg
      else
        r ← ingestSnap i (ReadSnapshot p) (-1) cfg;
        match r with (None, cfg) => Some cfg | (Some _, _) => None end
  | None => save_new i MakePersister cfg
  end.

Lemma ingestSnap_frame i snap idx cfg err cfg' :
  ingestSnap i snap idx cfg = Some (err, cfg') →
  cfg' = set_lastApplied (lastApplied cfg') (RaftConfig.set_logs (logs cfg') cfg).
Proof.
  unfold ingestSnap. intros Hg. apply bind_Some in Hg as ([li xlog] & _ & Hg).
  destruct (_ && _); simplify_eq/=; [by destruct cfg'|].
  apply bind_Some in Hg as (ls & _ & Hg). apply bind_Some in Hg as (la & _ & Hg). by simplify_eq.
Qed.

Lemma start_persister_ok i sv cfg cfg' :
  disk_ok cfg → 0 ≤ i < n cfg → start_persister i sv cfg = Some cfg' →
  disk_ok cfg' ∧ saved_at i cfg' = Some (Some (default MakePersister sv)) ∧
  net cfg' = net cfg ∧ n cfg' = n cfg ∧ connected cfg' = connected cfg ∧ endnames cfg' = endnames cfg ∧
  rafts cfg' = rafts cfg ∧ instance cfg' = instance cfg ∧
  ∃ a, index (saved cfg') i = Some (Some a) ∧ ∀ r, instance cfg' !! r ≠ Some a.
Proof.
  intros Hd Hi Hs. destruct sv as [p|]; simpl in Hs.
  - destruct (save_new_ok i (Copy p) cfg Hd Hi) as (a & Hs1 & Hd1 & Hat1 & Hix1 & Hfr1 & _).
    rewrite Hs1 in Hs. simpl in Hs. set (c1 := set_saved _ _ cfg) in *.
    assert (Hc' : ∃ la ls, cfg' = set_lastApplied la (RaftConfig.set_logs ls c1)).
    { case_bool_decide; [injection Hs as <-; exists (lastApplied c1), (logs c1); by destruct cfg|].
      apply bind_Some in Hs as ([err c2] & Hg & Hs). destruct err; simplify_eq.
      apply ingestSnap_frame in Hg. eauto. }
    destruct Hc' as (la & ls & ->). split; [destruct Hd1 as [D1 D2 D3 D4 D5]; by split|].
    split; [transitivity (Some (Some (Copy p))); [exact Hat1|by destruct p]|]. split_and!; try done. by exists a.
  - destruct (save_new_ok i MakePersister cfg Hd Hi) as (a & Hs1 & Hd1 & Hat1 & Hix1 & Hfr1 & _).
    rewrite Hs1 in Hs. simplify_eq. split_and!; try done. by exists a.
Qed.

Lemma wired_add rn k conn names x p : wired rn k conn names → wired (AddServer x p rn) k conn names.
Proof. intros [W1 W2 W3 W4 W5 W6 W7 W8]. by split. Qed.

Lemma start1_ok i fr r srv cfg cfg' :
  cfg_wired cfg → disk_ok cfg → 0 ≤ i < n cfg → zlen fr = n cfg → instance cfg !! r = None →
  start1 i fr r srv cfg = Some cfg' → started i r srv cfg cfg'.
Proof.
  intros Hw Hd Hi Hfr Hr Hst. unfold start1 in Hst.
  destruct (crash1_ok i cfg Hw Hd Hi) as (c1 & Hc1 & [Cw Cd Cn Cnm Ccn Cg Crf Csv Coth Cin Clg Cfr]).
  rewrite Hc1 in Hst. simpl in Hst.
  apply bind_Some in Hst as (nm & Hnm & Hst). apply bind_Some in Hst as (rn & Hrn & Hst).
  apply bind_Some in Hst as (la & Hla & Hst). apply bind_Some in Hst as (sv & Hsv & Hst).
  set (c2 := set_lastApplied la (set_net rn (set_endnames nm c1))) in *.
  apply bind_Some in Hst as (c3 & Hc3 & Hst). fold (start_persister i sv c2) in Hc3.
  pose proof (wd_names _ _ _ _ Cw) as Hlen. rewrite Cn in Hlen.
  rewrite set_index_Some in Hnm by lia. simplify_eq.
  assert (Hd2 : disk_ok c2) by (destruct Cd as [D1 D2 D3 D4 D5]; by split).
  assert (Hi2 : 0 ≤ i < n c2) by (simpl; lia).
  destruct (start_persister_ok i sv c2 c3 Hd2 Hi2 Hc3) as (Hd3 & Hat3 & Hnet & Hn3 & Hcn3 & Hen3 & Hrf3 & Hin3 & a & Ha & Hfree).
  rewrite Ha in Hst. simpl in Hst. apply bind_Some in Hst as (rs & Hrs & Hst). simplify_eq.
  assert (Hbi : 0 ≤ i < zlen (rafts c3)) by (rewrite (dk_rafts _ Hd3), Hn3; simpl; lia).
  rewrite set_index_Some in Hrs by done. simplify_eq.
  pose proof (wd_conn _ _ _ _ Hw) as Hlc.
  split; simpl; try (rewrite ?Hn3, ?Hcn3, ?Hen3; done).
  - unfold cfg_wired. simpl. rewrite Hnet, Hn3, Hcn3, Hen3. apply wired_add. simpl.
    eapply wired_start; [exact Cw|lia| |simpl; lia|by apply make_ends_made].
    rewrite Ccn, index_set, decide_True by lia. done.
  - split; simpl; try apply Hd3; [by rewrite length_insert; apply Hd3|].
    intros r' b [[-> ->]|[Hne Hb]]%lookup_insert_Some.
    + split; [by eapply (dk_on_disk _ Hd3)|]. intros j Hj. rewrite (dk_inj _ Hd3 j i b Hj Ha).
      by rewrite index_set, decide_True by done.
    + destruct (dk_instance _ Hd3 r' b Hb) as [Hdom Hcur]. split; [done|]. intros j Hj.
      rewrite index_set by done. case_decide as Hji; [|by apply Hcur].
      subst j. rewrite Ha in Hj. simplify_eq. by destruct (Hfree r').
  - unfold server_at. simpl. by rewrite lookup_insert_eq.
  - exists (default MakePersister sv), a. split_and!; [exact Hat3|exact Ha|by rewrite lookup_insert_eq|].
    assert (Hsv1 : saved_at i cfg = Some sv) by (rewrite <-Csv; exact Hsv). rewrite Hsv1. destruct sv; auto.
  - rewrite Hen3. simpl. exists fr. rewrite index_set by (rewrite Cnm in Hlen |- *; lia). by rewrite decide_True.
Qed.

End config.
