(* ===== verification/RaftConfigTheorems.v ===== *)
(** * What the Raft tester guarantees and detects *)
From S2P Require Import Prelude Graph Labrpc Raft Harness RaftConfig RaftConfigNet RaftConfigDisk.
Import RaftConfig.


Section config.
Context {Cmd : Type} `{EqDecision Cmd} `{Codec (Z * list (option Cmd))}.
Implicit Types cfg : @config Cmd.

(** ** Runs of the tester *)

(** Fresh names and instance numbers at a start; everything else as the methods do it. *)
Inductive cfg_step cfg cfg' : Prop :=
  | cs_connect i : 0 ≤ i < n cfg → started_row (endnames cfg) i = Some true →
      connect i cfg = Some cfg' → cfg_step cfg cfg'
  | cs_disconnect i : 0 ≤ i < n cfg → disconnect i cfg = Some cfg' → cfg_step cfg cfg'
  | cs_crash i : 0 ≤ i < n cfg → crash1 i cfg = Some cfg' → cfg_step cfg cfg'
  | cs_start i fr r srv : 0 ≤ i < n cfg → zlen fr = n cfg → instance cfg !! r = None →
      start1 i fr r srv cfg = Some cfg' → cfg_step cfg cfg'
  | cs_write r p : instance_writes r p cfg = Some cfg' → cfg_step cfg cfg'
  | cs_unreliable b : setunreliable b cfg = cfg' → cfg_step cfg cfg'
  | cs_reorder b : setlongreordering b cfg = cfg' → cfg_step cfg cfg'
  | cs_apply i m err : applier i m cfg = Some (err, cfg') → cfg_step cfg cfg'.

Definition tester_inv cfg : Prop := cfg_wired cfg ∧ disk_ok cfg.

Lemma index_replicate {A} k (x : A) i y : index (replicate k x) i = Some y → y = x.
Proof. intros [_ Hi]%index_Some. by apply lookup_replicate in Hi as [-> _]. Qed.

Lemma new_config_inv k u : 0 ≤ k → tester_inv (new_config k u).
Proof.
  intros Hk. split.
  - split; simpl; try (rewrite length_replicate; lia).
    + intros i row Hi. by apply index_replicate in Hi.
    + intros i Hi. by apply index_replicate in Hi.
    + intros i j e ci cj (row & Hi & _)%name_at_Some. by apply index_replicate in Hi.
    + intros i j e (row & Hi & _)%name_at_Some. by apply index_replicate in Hi.
    + intros i j i' j' e (row & Hi & _)%name_at_Some. by apply index_replicate in Hi.
    + intros e He. unfold is_enabled in He. simpl in He. by rewrite lookup_empty in He.
  - split; simpl; try (rewrite length_replicate; lia).
    + intros i a Hi. by apply index_replicate in Hi.
    + intros i j a Hi. by apply index_replicate in Hi.
    + intros r a Hr. by rewrite lookup_empty in Hr.
Qed.

Lemma applier_frame i m cfg err cfg' :
  applier i m cfg = Some (err, cfg') → ∃ ls k, cfg' = set_maxIndex k (RaftConfig.set_logs ls cfg).
Proof.
  unfold applier, checkLogs. intros Ha. destruct (negb (CommandValid m)).
  { simplify_eq. exists (logs cfg'), (maxIndex cfg'). by destruct cfg'. }
  apply bind_Some in Ha as ([[e b] c] & Hc & Ha). simplify_eq.
  apply bind_Some in Hc as (row & _ & Hc). apply bind_Some in Hc as (ls & _ & Hc). simplify_eq.
  exists ls. case_match; [by eexists|]. exists (maxIndex cfg). by destruct cfg.
Qed.

Lemma tester_step_inv cfg cfg' : tester_inv cfg → cfg_step cfg cfg' → tester_inv cfg'.
Proof.
  intros [Hw Hd] Hs. destruct Hs as [i Hi Hst Hc|i Hi Hc|i Hi Hc|i fr r srv Hi Hfr Hr Hc|r p Hc|b <-|b <-|i m err Hc].
  - assert (Hrow : ∃ row, index (endnames cfg) i = Some (Some row)).
    { unfold started_row in Hst. destruct (index (endnames cfg) i) as [[row|]|]; simplify_eq/=. by eexists. }
    destruct (connect_wired i cfg Hw Hi Hrow) as (rn & Hc' & Hw' & _). rewrite Hc' in Hc. simplify_eq.
    split; [done|]. destruct Hd as [D1 D2 D3 D4 D5]. by split.
  - destruct (disconnect_wired i cfg Hw Hi) as (rn & Hc' & Hw' & _). rewrite Hc' in Hc. simplify_eq.
    split; [done|]. destruct Hd as [D1 D2 D3 D4 D5]. by split.
  - destruct (crash1_ok i cfg Hw Hd Hi) as (c & Hc' & Hcr). rewrite Hc' in Hc. simplify_eq. by split; destruct Hcr.
  - pose proof (start1_ok i fr r srv cfg cfg' Hw Hd Hi Hfr Hr Hc) as Hst. by split; destruct Hst.
  - unfold instance_writes in Hc. apply bind_Some in Hc as (a & Ha & Hc). simplify_eq.
    split; [done|]. destruct Hd as [D1 D2 D3 D4 D5]. split; simpl; try done.
    + intros i b Hb. specialize (D3 i b Hb). rewrite dom_insert_L. set_solver.
    + intros r' b Hb. destruct (D5 r' b Hb). rewrite dom_insert_L. split; [set_solver|done].
  - split; [|by destruct Hd as [D1 D2 D3 D4 D5]; split]. by destruct Hw as [W1 W2 W3 W4 W5 W6 W7 W8]; split.
  - split; [|by destruct Hd as [D1 D2 D3 D4 D5]; split]. by destruct Hw as [W1 W2 W3 W4 W5 W6 W7 W8]; split.
  - apply applier_frame in Hc as (ls & k & ->). split; [done|]. by destruct Hd as [D1 D2 D3 D4 D5]; split.
Qed.

Lemma tester_ok k u cfg : 0 ≤ k → rtc cfg_step (new_config k u) cfg → tester_inv cfg.
Proof. intros Hk. apply (rtc_preserve cfg_step tester_inv); [apply tester_step_inv|by apply new_config_inv]. Qed.

(** ** Comparing logs *)

(** Servers agree at every index they share, and none has a gap after index 1. *)
Definition agree (ls : list (gmap Z (option Cmd))) : Prop :=
  ∀ i j r r' idx v w, ls !! i = Some r → ls !! j = Some r' → r !! idx = Some v → r' !! idx = Some w → v = w.

Definition no_gaps (ls : list (gmap Z (option Cmd))) : Prop :=
  ∀ i r idx, ls !! i = Some r → 1 < idx → is_Some (r !! idx) → is_Some (r !! (idx - 1)).

Lemma mismatch_None i idx (v : option Cmd) (ls : list (gmap Z (option Cmd))) :
  mismatch i idx v ls = None ↔ ∀ j r old, ls !! j = Some r → r !! idx = Some old → old = v.
Proof.
  unfold mismatch.
  assert (Hfold : ∀ (l : list (nat * gmap Z (option Cmd))) acc,
    foldl (λ err p, match p.2 !! idx with
      | Some old => if decide (old = v) then err else Some (Mismatch idx i (Z.of_nat p.1))
      | None => err end) acc l = None ↔
    acc = None ∧ ∀ p old, p ∈ l → p.2 !! idx = Some old → old = v).
  { induction l as [|p l IH]; intros acc; csimpl; [set_solver|]. rewrite IH.
    setoid_rewrite elem_of_cons. destruct (p.2 !! idx) as [old|] eqn:Hp; [case_decide|]; naive_solver. }
  rewrite Hfold. split.
  - intros [_ Hall] j r old Hj Ho. apply (Hall (j, r) old); [|done]. apply list_elem_of_lookup. exists j.
    by rewrite list_lookup_imap, Hj.
  - intros Hall. split; [done|]. intros [j r] old [k Hk]%list_elem_of_lookup_1 Ho.
    rewrite list_lookup_imap in Hk. destruct (ls !! k) as [r'|] eqn:Hr; simplify_eq/=. by eapply Hall.
Qed.

Lemma agree_insert i idx v (ls : list (gmap Z (option Cmd))) row :
  agree ls → ls !! i = Some row → (∀ j r old, ls !! j = Some r → r !! idx = Some old → old = v) →
  agree (<[i := <[idx := v]> row]> ls).
Proof.
  intros Ha Hi Hv.
  assert (Hcase : ∀ j r k x, <[i := <[idx := v]> row]> ls !! j = Some r → r !! k = Some x →
    (k = idx ∧ x = v) ∨ (∃ r0, ls !! j = Some r0 ∧ r0 !! k = Some x)).
  { intros j r k x [(-> & <- & _)|[_ Hj]]%list_lookup_insert_Some Hk; [|eauto].
    apply lookup_insert_Some in Hk as [[-> ->]|[_ Hk]]; eauto. }
  intros a b r r' k x y Hra Hrb Hx Hy.
  pose proof (Hcase a r k x Hra Hx) as Ca. pose proof (Hcase b r' k y Hrb Hy) as Cb.
  destruct Ca as [[-> ->]|(r1 & H1 & H2)], Cb as [[Hk ->]|(r2 & H3 & H4)]; subst; try done.
  - symmetry. by eapply Hv.
  - by eapply Hv.
  - by eapply (Ha a b).
Qed.

Lemma no_gaps_insert i idx v (ls : list (gmap Z (option Cmd))) row :
  no_gaps ls → ls !! i = Some row → (1 < idx → is_Some (row !! (idx - 1))) →
  no_gaps (<[i := <[idx := v]> row]> ls).
Proof.
  intros Hg Hi Hp j r k [(-> & <- & _)|[_ Hj]]%list_lookup_insert_Some Hk Hs; [|by eapply Hg].
  destruct (decide (k = idx)) as [->|Hne].
  - destruct (decide (idx - 1 = idx)); [lia|]. rewrite lookup_insert_ne by lia. auto.
  - rewrite lookup_insert_ne in Hs by done. apply lookup_insert_is_Some'. right. by eapply Hg.
Qed.

(** The loop of [nCommitted] over logs that agree. *)
Definition holders (idx : Z) (ls : list (gmap Z (option Cmd))) : nat :=
  length (filter (λ r, is_Some (r !! idx)) ls).

Lemma holders_take idx (ls : list (gmap Z (option Cmd))) m r :
  ls !! m = Some r →
  holders idx (take (S m) ls) = (holders idx (take m ls) + (if decide (is_Some (r !! idx)) then 1 else 0))%nat.
Proof.
  intros Hm. unfold holders. rewrite (take_S_r _ _ _ Hm), filter_app, length_app, filter_cons.
  by destruct (decide (is_Some (r !! idx))).
Qed.

Lemma nCommitted_agree idx cfg :
  agree (logs cfg) → zlen (logs cfg) = zlen (rafts cfg) → zlen (applyErr cfg) = zlen (rafts cfg) →
  (∀ i e, index (applyErr cfg) i = Some e → e = None) →
  ∃ cmd, nCommitted idx cfg = Some (Z.of_nat (holders idx (logs cfg)), cmd) ∧
    ∀ i r v, logs cfg !! i = Some r → r !! idx = Some v → v = cmd.
Proof.
  intros Ha Hll Hle Herr. unfold nCommitted. set (ls := logs cfg) in *.
  destruct (range_loop_zrange (λ p (acc : Z * option Cmd),
    e ← index (applyErr cfg) p;
    match e with
    | Some _ => None
    | None =>
        row ← index ls p;
        match row !! idx with
        | Some cmd1 =>
            if (0 <? acc.1) && negb (bool_decide (acc.2 = cmd1)) then None else Some (acc.1 + 1, cmd1)
        | None => Some acc
        end
    end) (λ m acc, acc.1 = Z.of_nat (holders idx (take (Z.to_nat m) ls)) ∧
      (0 < acc.1 → ∃ i r, ls !! i = Some r ∧ r !! idx = Some acc.2)) (zlen (rafts cfg)) (0, None))
    as ([cnt cmd] & Hrun & Hcnt & Hcmd); [lia|split; [done|simpl; lia]| |].
  - intros i [cnt cmd] Hi [Hcnt Hcmd]. simpl in *.
    destruct (index_total (applyErr cfg) i) as [e He]; [lia|]. rewrite He. simpl.
    rewrite (Herr i e He). destruct (index_total ls i) as [r Hr]; [lia|]. rewrite Hr. simpl.
    apply index_Some in Hr as [_ Hr]. pose proof (holders_take idx ls _ r Hr) as Hh.
    replace (Z.to_nat (i + 1)) with (S (Z.to_nat i)) by lia. rewrite Hh.
    destruct (r !! idx) as [v|] eqn:Hv.
    + destruct ((0 <? cnt) && negb (bool_decide (cmd = v))) eqn:Hbad.
      { exfalso. apply andb_prop in Hbad as [Hpos Hne]. destruct Hcmd as (j & r' & Hj & Hv'); [lia|].
        rewrite (Ha j (Z.to_nat i) r' r idx cmd v Hj Hr Hv' Hv), bool_decide_true in Hne; done. }
      eexists. split; [done|]. simpl. split; [lia|]. eauto.
    + eexists. split; [done|]. simpl. split; [lia|done].
  - exists cmd. simpl in *. rewrite take_ge in Hcnt by lia. split; [by rewrite <-Hcnt|].
    intros i r v Hi Hv. destruct Hcmd as (j & r' & Hj & Hv').
    + rewrite Hcnt. unfold holders. destruct (filter _ ls) as [|x l] eqn:Hf; [|simpl; lia].
      assert (Hin : r ∈ filter (λ r, is_Some (r !! idx)) ls).
      { apply list_elem_of_filter. split; [by eexists|by eapply list_elem_of_lookup_2]. }
      rewrite Hf in Hin. by apply elem_of_nil in Hin.
    + by eapply (Ha i j).
Qed.

(** ** Leaders *)

(** Server [i] is connected and leads term [t]. *)
Definition leads (states : list (Z * bool)) cfg (t i : Z) : Prop :=
  index (connected cfg) i = Some true ∧ index states i = Some (t, true).

#[local] Instance leads_dec states cfg t i : Decision (leads states cfg t i).
Proof. unfold leads. apply _. Defined.

Lemma leaders_of_spec states cfg :
  0 ≤ n cfg → zlen (connected cfg) = n cfg → zlen states = n cfg →
  ∃ leaders, leaders_of states cfg = Some leaders ∧
    ∀ t, leaders !! t = match filter (leads states cfg t) (zrange 0 (n cfg)) with [] => None | l => Some l end.
Proof.
  intros Hk Hc Hst. unfold leaders_of.
  destruct (range_loop_zrange (λ i leaders,
    ci ← index (connected cfg) i;
    if (ci : bool) then
      s ← index states i;
      Some (if (s.2 : bool) then <[s.1 := default [] (leaders !! s.1) ++ [i]]> leaders else leaders)
    else Some leaders)
    (λ m leaders, ∀ t : Z, leaders !! t =
       match filter (leads states cfg t) (zrange 0 m) with [] => None | l => Some l end)
    (n cfg) (∅ : gmap Z (list Z))) as (leaders & Hrun & Hl); [done|by intros t; rewrite lookup_empty| |by exists leaders].
  intros i leaders Hi Hl. destruct (index_total (connected cfg) i) as [ci Hci]; [lia|].
  destruct (index_total states i) as [[t b] Hs]; [lia|]. rewrite Hci. simpl.
  assert (Hone : ∀ t', filter (leads states cfg t') (zrange 0 (i + 1)) =
    filter (leads states cfg t') (zrange 0 i) ++ (if decide (leads states cfg t' i) then [i] else [])).
  { intros t'. rewrite zrange_snoc, filter_app, filter_cons by lia. by destruct (decide (leads states cfg t' i)). }
  destruct ci.
  - rewrite Hs. simpl. destruct b.
    + eexists. split; [done|]. intros t'. rewrite Hone. destruct (decide (t' = t)) as [->|Hne].
      * rewrite lookup_insert_eq, decide_True by by split. rewrite Hl. by destruct (filter _ _).
      * rewrite lookup_insert_ne, decide_False, app_nil_r by (try done; intros [_ Hx]; congruence). apply Hl.
    + eexists. split; [done|]. intros t'. rewrite Hone, decide_False, app_nil_r by (intros [_ Hx]; congruence). apply Hl.
  - eexists. split; [done|]. intros t'. rewrite Hone, decide_False, app_nil_r by (intros [Hx _]; congruence). apply Hl.
Qed.

(** The loop over the terms: no term with two leaders, and the largest term. *)
Lemma terms_loop (l : list (Z * list Z)) last :
  match range_loop (λ p last, if 1 <? zlen p.2 then None else Some (if last <? p.1 then p.1 else last)) l last with
  | Some r => (∀ p, p ∈ l → zlen p.2 ≤ 1 ∧ p.1 ≤ r) ∧ last ≤ r ∧ (r = last ∨ ∃ p, p ∈ l ∧ p.1 = r)
  | None => ∃ p, p ∈ l ∧ 1 < zlen p.2
  end.
Proof.
  revert last. induction l as [|p l IH]; intros last; simpl.
  { split_and!; [|lia|by left]. intros p Hp. by apply elem_of_nil in Hp. }
  destruct (Z.ltb_spec 1 (zlen p.2)) as [Hlt|Hle]; simpl; [exists p; split; [left|done]|].
  specialize (IH (if last <? p.1 then p.1 else last)).
  destruct (range_loop _ l _) as [r|]; [|destruct IH as (q & Hq & ?); exists q; split; [by right|done]].
  destruct IH as (Hall & Hge & Hr). destruct (Z.ltb_spec last p.1); split_and!; try lia.
  - intros q [->|Hq]%elem_of_cons; [lia|by apply Hall].
  - right. destruct Hr as [-> |(q & Hq & ?)]; [exists p; split; [left|done]|exists q; split; [by right|done]].
  - intros q [->|Hq]%elem_of_cons; [lia|by apply Hall].
  - destruct Hr as [-> |(q & Hq & ?)]; [by left|right; exists q; split; [by right|done]].
Qed.

Lemma leads_listed states cfg t i :
  zlen (connected cfg) = n cfg → leads states cfg t i → i ∈ filter (leads states cfg t) (zrange 0 (n cfg)).
Proof.
  intros Hc Hld. apply list_elem_of_filter. split; [done|]. apply elem_of_zrange.
  destruct Hld as [Hci _]. apply index_lt_Some in Hci. lia.
Qed.

Lemma two_leaders states cfg t x y l :
  filter (leads states cfg t) (zrange 0 (n cfg)) = x :: y :: l →
  ∃ t i j, i ≠ j ∧ leads states cfg t i ∧ leads states cfg t j.
Proof.
  intros Hf. exists t, x, y.
  assert (Hnd : NoDup (filter (leads states cfg t) (zrange 0 (n cfg)))) by apply NoDup_filter, NoDup_zrange.
  assert (Hx : x ∈ filter (leads states cfg t) (zrange 0 (n cfg))) by (rewrite Hf; left).
  assert (Hy : y ∈ filter (leads states cfg t) (zrange 0 (n cfg))) by (rewrite Hf; right; left).
  apply list_elem_of_filter in Hx as [Hx _], Hy as [Hy _]. split_and!; [|done..].
  rewrite Hf in Hnd. apply NoDup_cons in Hnd as [Hnin _]. set_solver.
Qed.

(** ** Runs of the appliers *)

(** Messages of all servers in the order they are handled; an error ends the program. *)
Fixpoint apply_all (msgs : list (Z * ApplyMsg Cmd)) cfg : option config :=
  match msgs with
  | [] => Some cfg
  | (i, m) :: msgs' =>
      match applier i m cfg with
      | Some (None, cfg') => apply_all msgs' cfg'
      | _ => None
      end
  end.

(** The reader of server [i] does not panic, and reports exactly a conflict or a gap. *)
Lemma applier_spec i m cfg row :
  index (logs cfg) i = Some row → CommandValid m = true →
  ∃ err cfg', applier i m cfg = Some (err, cfg') ∧
    logs cfg' = <[Z.to_nat i := <[CommandIndex m := ACommand m]> row]> (logs cfg) ∧
    rafts cfg' = rafts cfg ∧ applyErr cfg' = applyErr cfg ∧
    (err = None ↔
      (∀ j r old, logs cfg !! j = Some r → r !! CommandIndex m = Some old → old = ACommand m) ∧
      (1 < CommandIndex m → is_Some (row !! (CommandIndex m - 1)))).
Proof.
  intros Hi Hv. unfold applier, checkLogs. rewrite Hv. simpl. rewrite Hi. simpl.
  rewrite set_index_Some by by eapply index_lt_Some. simpl.
  do 2 eexists. split; [reflexivity|]. split_and!; [by case_match..|].
  rewrite <-(mismatch_None i). destruct (Z.ltb_spec 1 (CommandIndex m)) as [Hlt|Hle]; simpl.
  - case_bool_decide as Hp; simpl; naive_solver.
  - split; [|naive_solver]. intros ?. split; [done|lia].
Qed.

Lemma apply_all_agree msgs cfg cfg' :
  agree (logs cfg) ∧ no_gaps (logs cfg) → apply_all msgs cfg = Some cfg' →
  (agree (logs cfg') ∧ no_gaps (logs cfg')) ∧ length (logs cfg') = length (logs cfg) ∧
  rafts cfg' = rafts cfg ∧ applyErr cfg' = applyErr cfg.
Proof.
  revert cfg. induction msgs as [|[i m] msgs IH]; intros cfg Hinv Hrun; simpl in Hrun; [by simplify_eq|].
  destruct (CommandValid m) eqn:Hv.
  - destruct (index (logs cfg) i) as [row|] eqn:Hi; [|by unfold applier, checkLogs in Hrun; rewrite Hv, Hi in Hrun].
    destruct (applier_spec i m cfg row Hi Hv) as (err & c1 & Ha & Hl & Hr & He & Herr). rewrite Ha in Hrun.
    destruct err; [done|]. destruct Herr as [Herr _]. destruct (Herr eq_refl) as [Hok Hprev].
    pose proof Hi as [_ Hi']%index_Some. destruct Hinv as [Hag Hng].
    destruct (IH c1) as (? & Hlen & ? & ?); [|done|].
    + rewrite Hl. split; [by apply agree_insert|by apply no_gaps_insert].
    + split_and!; [naive_solver|naive_solver| |congruence..]. rewrite Hlen, Hl. by rewrite length_insert.
  - unfold applier in Hrun. rewrite Hv in Hrun. simpl in Hrun. by apply IH.
Qed.

Lemma agree_empty k : agree (replicate k (∅ : gmap Z (option Cmd))) ∧ no_gaps (replicate k (∅ : gmap Z (option Cmd))).
Proof.
  split.
  - intros i j r r' idx v w [-> _]%lookup_replicate. by rewrite lookup_empty.
  - intros i r idx [-> _]%lookup_replicate _ [x Hx]. by rewrite lookup_empty in Hx.
Qed.

(** ** The theorems *)

(** C16: Whatever servers were connected, disconnected, crashed and started, the client ends that are
    enabled are exactly those between two connected servers under their current names: a server that
    is off the net, and every earlier instance of a server, can neither send nor be reached. *)
Theorem tester_network_exact (k : Z) (unreliable : bool) cfg (e : Any) :
  0 ≤ k → rtc cfg_step (new_config k unreliable) cfg →
  is_enabled e (net cfg) = true ↔
  ∃ i j s, e = AStr s ∧ name_at (endnames cfg) i j = Some s ∧
    index (connected cfg) i = Some true ∧ index (connected cfg) j = Some true.
Proof.
  intros Hk Hr. destruct (tester_ok k unreliable cfg Hk Hr) as [Hw _].
  pose proof Hw as [W1 W2 W3 W4 W5 W6 W7 W8]. split.
  - intros He. destruct (W8 e He) as (i & j & s & Hn & ->). exists i, j, s.
    pose proof (name_at_range _ _ _ _ _ _ _ Hw Hn) as [Hi Hj].
    destruct (index_bool _ _ i W1 Hi) as [ci Hci], (index_bool _ _ j W1 Hj) as [cj Hcj].
    rewrite (W5 i j s ci cj Hn Hci Hcj) in He. by destruct ci, cj.
  - intros (i & j & s & -> & Hn & Hci & Hcj). by rewrite (W5 i j s true true Hn Hci Hcj).
Qed.

(** A restarted server is given exactly what was stored for it before ([saved]), and what an
    instance that is no longer running writes afterwards changes none of the persisters the tester
    keeps. *)
Theorem tester_persisters_isolated (k : Z) (unreliable : bool) cfg cfg' i fresh_names r srv :
  0 ≤ k → rtc cfg_step (new_config k unreliable) cfg →
  0 ≤ i < n cfg → zlen fresh_names = n cfg → instance cfg !! r = None →
  start1 i fresh_names r srv cfg = Some cfg' →
  (∃ a, instance cfg' !! r = Some a ∧ Some <$> disk cfg' !! a =
     match saved_at i cfg with Some None => Some (Some MakePersister) | o => o end) ∧
  ∀ old p cfg'', (∀ j, index (rafts cfg') j ≠ Some (Some old)) → instance_writes old p cfg' = Some cfg'' →
    ∀ j, saved_at j cfg'' = saved_at j cfg'.
Proof.
  intros Hk Hrt Hi Hfr Hr Hst. destruct (tester_ok k unreliable cfg Hk Hrt) as [Hw Hd].
  destruct (start1_ok i fresh_names r srv cfg cfg' Hw Hd Hi Hfr Hr Hst) as [_ Hd' _ _ _ (p & a & Hat & Ha & Hin & Hp) _].
  split.
  - exists a. split; [done|]. unfold saved_at in Hat. rewrite Ha in Hat. simpl in Hat.
    destruct (disk cfg' !! a) as [q|]; simplify_eq/=. destruct Hp as [-> |[-> ->]]; done.
  - intros old q cfg'' Hold Hwr j. unfold instance_writes in Hwr. apply bind_Some in Hwr as (b & Hb & Hwr).
    simplify_eq. destruct (dk_instance _ Hd' old b Hb) as [_ Hcur]. unfold saved_at. simpl.
    destruct (index (saved cfg') j) as [[c|]|] eqn:Hj; simpl; [|done..].
    rewrite lookup_insert_ne; [done|]. intros ->. by destruct (Hold j); apply Hcur.
Qed.

(** While no reader of an apply channel has reported an error, the logs the tester keeps agree at
    every index and have no gap, so [nCommitted] does not fail and counts the servers that have the
    entry; and the next message is reported exactly when some server has another command at its index
    or the entry before it is missing. *)
Theorem tester_detects_divergence (k : Z) (unreliable : bool) msgs cfg :
  0 ≤ k → apply_all msgs (new_config k unreliable) = Some cfg →
  agree (logs cfg) ∧ no_gaps (logs cfg) ∧
  (∀ idx, ∃ cmd, nCommitted idx cfg = Some (Z.of_nat (holders idx (logs cfg)), cmd) ∧
     ∀ i r v, logs cfg !! i = Some r → r !! idx = Some v → v = cmd) ∧
  (∀ i m row, index (logs cfg) i = Some row → CommandValid m = true →
     ∃ err cfg', applier i m cfg = Some (err, cfg') ∧
       (err = None ↔
         (∀ j r old, logs cfg !! j = Some r → r !! CommandIndex m = Some old → old = ACommand m) ∧
         (1 < CommandIndex m → is_Some (row !! (CommandIndex m - 1))))).
Proof.
  intros Hk Hrun. destruct (apply_all_agree msgs (new_config k unreliable) cfg) as ([Ha Hg] & Hlen & Hr & He);
    [apply agree_empty|done|]. split_and!; [done|done| |].
  - intros idx. apply nCommitted_agree; [done|..]; rewrite ?Hr, ?He, ?Hlen; simpl; rewrite ?length_replicate; try done.
    intros i e Hi. by apply index_replicate in Hi.
  - intros i m row Hi Hv. destruct (applier_spec i m cfg row Hi Hv) as (err & c' & ? & _ & _ & _ & ?). eauto.
Qed.

(** One iteration of [checkOneLeader] fails the test exactly when two connected servers lead the same
    term, asks again exactly when no connected server leads, and otherwise returns the one leader of
    the largest term that has a leader, whatever the order of the map. *)
Theorem checkOneLeader_unique `{MapOrder} (states : list (Z * bool)) cfg :
  0 ≤ n cfg → zlen (connected cfg) = n cfg → zlen states = n cfg → (∀ i t b, index states i = Some (t, b) → 0 ≤ t) →
  match one_leader states cfg with
  | None => ∃ t i j, i ≠ j ∧ leads states cfg t i ∧ leads states cfg t j
  | Some None => ∀ t i, ¬ leads states cfg t i
  | Some (Some l) => ∃ t, leads states cfg t l ∧
      (∀ t' i, leads states cfg t' i → t' ≤ t) ∧ (∀ t' i j, leads states cfg t' i → leads states cfg t' j → i = j)
  end.
Proof.
  intros Hk Hc Hs Ht. destruct (leaders_of_spec states cfg Hk Hc Hs) as (leaders & Hl & Hsp).
  unfold one_leader. rewrite Hl. simpl.
  assert (Hin : ∀ t i, leads states cfg t i → i ∈ filter (leads states cfg t) (zrange 0 (n cfg))).
  { intros. by apply leads_listed. }
  assert (Hmap : ∀ t l, (t, l) ∈ map_order leaders ↔ leaders !! t = Some l).
  { intros t l. rewrite map_order_perm. apply elem_of_map_to_list. }
  pose proof (terms_loop (map_order leaders) (-1)) as Hloop.
  destruct (range_loop _ (map_order leaders) (-1)) as [r|]; simpl.
  - destruct Hloop as (Hall & _ & Hr).
    assert (Huniq : ∀ t i j, leads states cfg t i → leads states cfg t j → i = j).
    { intros t i j Hi%Hin Hj%Hin. specialize (Hsp t).
      destruct (filter (leads states cfg t) _) as [|x [|y l]] eqn:Hf; [by apply elem_of_nil in Hi|set_solver|].
      apply Hmap, Hall in Hsp. simpl in Hsp. lia. }
    case_bool_decide as Hemp.
    { intros t i Hi%Hin. specialize (Hsp t). rewrite Hemp, lookup_empty in Hsp.
      destruct (filter _ _); [by apply elem_of_nil in Hi|done]. }
    assert (Hr' : ∃ l, leaders !! r = Some l).
    { destruct Hr as [-> |([t l] & Hp & Heq)]; [|exists l; apply Hmap; by rewrite <-Heq].
      apply map_choose in Hemp as (t & l & Htl). pose proof Htl as Hp. apply Hmap, Hall in Hp. simpl in Hp.
      rewrite Hsp in Htl. destruct (filter _ _) as [|x l'] eqn:Hf; [done|].
      assert (Hx : x ∈ filter (leads states cfg t) (zrange 0 (n cfg))) by (rewrite Hf; left).
      apply list_elem_of_filter in Hx as [[_ Hx] _]. apply Ht in Hx. lia. }
    destruct Hr' as [l Hlr]. rewrite Hlr. simpl. rewrite Hsp in Hlr.
    destruct (filter (leads states cfg r) _) as [|x l'] eqn:Hf; [done|]. simplify_eq. rewrite index_cons_0. simpl.
    assert (Hx : x ∈ filter (leads states cfg r) (zrange 0 (n cfg))) by (rewrite Hf; left).
    apply list_elem_of_filter in Hx as [Hx _]. exists r. split_and!; [done| |done].
    intros t' i Hi%Hin. specialize (Hsp t'). destruct (filter (leads states cfg t') _) as [|y l2]; [by apply elem_of_nil in Hi|].
    apply Hmap, Hall in Hsp. by destruct Hsp.
  - destruct Hloop as ([t l] & Hp & Hlen). apply Hmap in Hp. rewrite Hsp in Hp. simpl in Hlen.
    destruct (filter (leads states cfg t) _) as [|x [|y l']] eqn:Hf; simplify_eq; [simpl in Hlen; lia|].
    by eapply two_leaders.
Qed.

End config.

(** ** A cluster of two to evaluate on *)

#[local] Instance demo_codec : Codec (Z * list (option Z)) := countable_codec (Z * list (option Z)).

Definition demo0 : @config Z := new_config 2 false.
Definition demo_names (i : Z) : list string :=
  if i =? 0 then ["a00"; "a01"]%string else ["b10"; "b11"]%string.
Definition demo1 : @config Z := default demo0 (start1 0 (demo_names 0) 1%positive 1%positive demo0).
Definition demo2 : @config Z := default demo0 (start1 1 (demo_names 1) 2%positive 2%positive demo1).
Definition demo3 : @config Z := default demo0 (connect 0 demo2).
Definition demo4 : @config Z := default demo0 (connect 1 demo3).
Definition demo5 : @config Z := default demo0 (instance_writes 1%positive (mkPersister [x07] []) demo4).

Lemma demo_run : rtc cfg_step demo0 demo5.
Proof.
  apply (rtc_l _ _ demo1); [apply (cs_start _ _ 0 (demo_names 0) 1%positive 1%positive); vm_compute; intuition congruence|].
  apply (rtc_l _ _ demo2); [apply (cs_start _ _ 1 (demo_names 1) 2%positive 2%positive); vm_compute; intuition congruence|].
  apply (rtc_l _ _ demo3); [apply (cs_connect _ _ 0); vm_compute; intuition congruence|].
  apply (rtc_l _ _ demo4); [apply (cs_connect _ _ 1); vm_compute; intuition congruence|].
  apply rtc_once. apply (cs_write _ _ 1%positive (mkPersister [x07] [])). vm_compute. reflexivity.
Qed.

Lemma tester_network_exact_witness :
  is_enabled (AStr "a01") (net demo5) = true ∧ is_enabled (AStr "zzz") (net demo5) = false.
Proof.
  split.
  - apply (tester_network_exact 2 false demo5 (AStr "a01")); [lia|exact demo_run|].
    exists 0, 1, "a01"%string. split_and!; vm_compute; reflexivity.
  - vm_compute. reflexivity.
Defined.

Definition demo6 : @config Z := default demo0 (start1 0 ["c00"; "c01"]%string 3%positive 3%positive demo5).
Definition demo7 : @config Z := default demo0 (instance_writes 1%positive (mkPersister [x08] [x08]) demo6).

(** The first instance of server 0 writes after the third has been started. *)
Lemma tester_persisters_isolated_witness :
  instance_writes 1%positive (mkPersister [x08] [x08]) demo6 = Some demo7 ∧
  saved_at 0 demo7 = Some (Some (mkPersister [x07] [])).
Proof.
  assert (Hw : instance_writes 1%positive (mkPersister [x08] [x08]) demo6 = Some demo7) by (vm_compute; reflexivity).
  split; [exact Hw|].
  destruct (tester_persisters_isolated 2 false demo5 demo6 0 ["c00"; "c01"]%string 3%positive 3%positive) as [_ Hold].
  - lia.
  - exact demo_run.
  - vm_compute. intuition congruence.
  - vm_compute. reflexivity.
  - vm_compute. reflexivity.
  - vm_compute. reflexivity.
  - rewrite (Hold 1%positive (mkPersister [x08] [x08]) demo7); [vm_compute; reflexivity| |exact Hw].
    intros j Hj. pose proof (index_lt_Some _ _ _ Hj) as Hlt. assert (Hlen : zlen (rafts demo6) = 2) by (vm_compute; reflexivity).
    assert (Hcase : j = 0 ∨ j = 1) by lia. destruct Hcase as [-> | ->]; vm_compute in Hj; congruence.
Defined.

Definition demo_msg (idx : Z) (v : Z) : ApplyMsg Z := mkApplyMsg true (Some v) idx 1 false [] 0 0.

Lemma tester_detects_divergence_witness :
  let cfg := default demo0 (apply_all [(0, demo_msg 1 100); (1, demo_msg 1 100); (0, demo_msg 2 200)] demo0) in
  nCommitted 1 cfg = Some (2, Some 100) ∧ agree (logs cfg) ∧
  ∃ err cfg', applier 1 (demo_msg 2 201) cfg = Some (Some err, cfg').
Proof.
  intros cfg.
  destruct (tester_detects_divergence 2 false
    [(0, demo_msg 1 100); (1, demo_msg 1 100); (0, demo_msg 2 200)] cfg) as (Ha & _ & _ & Hnext);
    [lia|vm_compute; reflexivity|].
  split; [vm_compute; reflexivity|]. split; [exact Ha|].
  destruct (Hnext 1 (demo_msg 2 201) {[1 := Some 100]}) as (err & cfg' & Hap & Herr); [vm_compute; reflexivity..|].
  destruct err as [err|]; [by exists err, cfg'|]. exfalso.
  destruct Herr as [Herr _]. destruct (Herr eq_refl) as [Hall _].
  specialize (Hall 0%nat {[1 := Some 100; 2 := Some 200]} (Some 200)).
  assert (Hbad : Some 200 = ACommand (demo_msg 2 201)) by (apply Hall; vm_compute; reflexivity).
  vm_compute in Hbad. congruence.
Defined.

Lemma demo_terms i t b : index [(3, true); (4, true)] i = Some (t, b) → 0 ≤ t.
Proof. intros [_ Hi]%index_Some. destruct (Z.to_nat i) as [|[|k]]; simplify_eq/=; lia. Qed.

Lemma checkOneLeader_unique_witness :
  one_leader [(3, true); (4, true)] demo5 = Some (Some 1) ∧
  ∃ t, leads [(3, true); (4, true)] demo5 t 1.
Proof.
  split; [vm_compute; reflexivity|].
  assert (Hone : one_leader [(3, true); (4, true)] demo5 = Some (Some 1)) by (vm_compute; reflexivity).
  pose proof (checkOneLeader_unique [(3, true); (4, true)] demo5) as Hu. rewrite Hone in Hu.
  destruct Hu as (t & Ht & _); [vm_compute; congruence|vm_compute; reflexivity|vm_compute; reflexivity
    |exact demo_terms|by exists t].
Defined.
