(* ===== verification/RaftAgree.v ===== *)
(** * Agreement as the Raft tester asks for it: [wait] and [one] of [raft/config.go]

    Both poll a cluster that runs meanwhile, so what they see in every iteration is an argument: the state
    of the tester, the answers of [GetState] and of [Start].  The time limits end the lists of iterations.
    [None] is a panic or a failed test. *)
From S2P Require Import Prelude Graph Labrpc Raft Harness RaftConfig.
Import RaftConfig.

Module RaftAgree.
Section agree.
Context {Cmd : Type} `{EqDecision Cmd}.
#[local] Abbreviation config := (@config Cmd).

(** ** [wait] *)

(** What [wait] returns: the value -1, or the command. *)
Inductive Waited := MovedOn | Command (cmd : option Cmd).

(** The loop over [cfg.rafts]; [terms] are the answers of [GetState]; a nil peer is a panic. *)
Definition moved_on (startTerm : Z) (terms : positive → Z) (cfg : config) : option bool :=
  range_loop (λ r (b : bool), if b then Some b else r ← r; Some (startTerm <? terms r)) (rafts cfg) false.

(** One iteration; the flags say whether the loop was left, and whether by the return. *)
Definition wait_step (index n startTerm : Z) (before after : Z → config) (terms : Z → positive → Z)
    (iters : Z) (st : bool * bool) : option (bool * bool) :=
  if (st.1 : bool) then Some st
  else
    r ← nCommitted index (before iters);
    if n <=? r.1 then Some (true, false)
    else if -1 <? startTerm then
      b ← moved_on startTerm (terms iters) (after iters); Some ((b : bool), b)
    else Some st.

(** [wait(index, n, startTerm)]. *)
Definition wait (index n startTerm : Z) (before after : Z → config) (terms : Z → positive → Z) (last : config) :
    option Waited :=
  st ← range_loop (wait_step index n startTerm before after terms) (zrange 0 30) (false, false);
  if (st.2 : bool) then Some MovedOn
  else r ← nCommitted index last; if r.1 <? n then None else Some (Command r.2).

(** ** [one] *)

(** What one round of [one] sees: the tester and the answers of [Start] for every [si], then the tester
    each time it polls. *)
Record Round := mkRound {
  tried : Z → config * (positive → option Z);
  polls : list config
}.

(** The loop over all servers; [started] is the call of [Start] that was accepted. *)
Definition try_server (n : Z) (t : Z → config * (positive → option Z)) (si : Z)
    (st : Z * option (positive * Z)) : option (Z * option (positive * Z)) :=
  match st.2 with
  | Some _ => Some st
  | None =>
      let starts := (st.1 + 1) mod n in
      let '(cfg, Start) := t si in
      c ← index (connected cfg) starts;
      rf ← (if (c : bool) then index (rafts cfg) starts else Some None);
      Some (starts, rf' ← rf; index1 ← Start rf'; Some (rf', index1))
  end.

Definition try_servers (n : Z) (t : Z → config * (positive → option Z)) (starts : Z) :
    option (Z * option (positive * Z)) :=
  range_loop (try_server n t) (zrange 0 n) (starts, None).

(** The polling loop. *)
Fixpoint poll (cmd : option Cmd) (index expectedServers : Z) (cfgs : list config) : option bool :=
  match cfgs with
  | [] => Some false
  | cfg :: cfgs' =>
      r ← nCommitted index cfg;
      if (0 <? r.1) && (expectedServers <=? r.1) && bool_decide (r.2 = cmd) then Some true
      else poll cmd index expectedServers cfgs'
  end.

(** The rounds; the result has the calls of [Start] that were accepted, also when the test fails. *)
Fixpoint one_loop (n : Z) (cmd : option Cmd) (expectedServers : Z) (retry finished : bool) (starts : Z)
    (rounds : list Round) : option Z * list (positive * Z) :=
  match rounds with
  | [] => (if finished then Some (-1) else None, [])
  | r :: rounds' =>
      match try_servers n (tried r) starts with
      | None => (None, [])
      | Some (starts, Some (rf, index)) =>
          if index =? -1 then
            let '(res, subs) := one_loop n cmd expectedServers retry finished starts rounds' in (res, (rf, index) :: subs)
          else
          match poll cmd index expectedServers (polls r) with
          | None => (None, [(rf, index)])
          | Some true => (Some index, [(rf, index)])
          | Some false =>
              if negb retry then (None, [(rf, index)])
              else let '(res, subs) := one_loop n cmd expectedServers retry finished starts rounds' in
                   (res, (rf, index) :: subs)
          end
      | Some (starts, None) => one_loop n cmd expectedServers retry finished starts rounds'
      end
  end.

(** [one(cmd, expectedServers, retry)]; [finished] is the last answer of [checkFinished]. *)
Definition one (n : Z) (cmd : option Cmd) (expectedServers : Z) (retry finished : bool) (rounds : list Round) :
    option Z * list (positive * Z) := one_loop n cmd expectedServers retry finished 0 rounds.

(** ** What the count of [nCommitted] means *)

(** The servers whose log has [v] at [idx]. *)
Definition holds (idx : Z) (v : option Cmd) (cfg : config) (p : Z) : bool :=
  match index (logs cfg) p with Some row => bool_decide (row !! idx = Some v) | None => false end.
Definition holding (idx : Z) (v : option Cmd) (cfg : config) : list Z :=
  filter (λ p, holds idx v cfg p = true) (zrange 0 (zlen (rafts cfg))).
(** No server has anything else there. *)
Definition only (idx : Z) (v : option Cmd) (cfg : config) : Prop :=
  ∀ p row, 0 ≤ p < zlen (rafts cfg) → index (logs cfg) p = Some row → row !! idx = None ∨ row !! idx = Some v.

Lemma nCommitted_counts idx cfg k v :
  nCommitted idx cfg = Some (k, v) → k = zlen (holding idx v cfg) ∧ only idx v cfg.
Proof.
  intros Hrun. unfold nCommitted in Hrun. unfold only, holding.
  refine (range_loop_counts _ (λ i r, r.1 = zlen (filter (λ p, holds idx r.2 cfg p = true) (zrange 0 i)) ∧
    ∀ p row, 0 ≤ p < i → index (logs cfg) p = Some row → row !! idx = None ∨ row !! idx = Some r.2)
    _ (0, None) (k, v) _ _ _ Hrun); [lia|split; [done|intros; lia]|].
  clear Hrun k v. intros i [k v] [k' v'] Hi [Hk Hv] Hb. simpl in *.
  apply bind_Some in Hb as ([e|] & He & Hb); [done|]. apply bind_Some in Hb as (row & Hrow & Hb).
  rewrite zrange_snoc, filter_app, filter_cons, filter_nil by lia.
  assert (Hh : ∀ v, holds idx v cfg i = bool_decide (row !! idx = Some v)) by (intros; unfold holds; by rewrite Hrow).
  destruct (row !! idx) as [cmd1|] eqn:Hc.
  - destruct ((0 <? k) && negb (bool_decide (v = cmd1))) eqn:Hguard; [done|]. injection Hb as <- <-.
    assert (Hcase : k = 0 ∨ v = cmd1) by (destruct (bool_decide_reflect (v = cmd1)); [by right|left; simpl in *; lia]).
    rewrite decide_True by (by rewrite Hh, bool_decide_true). rewrite length_app. simpl.
    destruct Hcase as [Hz | ->].
    + assert (Hnone : ∀ p row, 0 ≤ p < i → index (logs cfg) p = Some row → row !! idx = None).
      { intros p row' Hp Hr'. destruct (Hv p row' Hp Hr') as [?|Hs]; [done|]. exfalso.
        assert (p ∈ filter (λ p, holds idx v cfg p = true) (zrange 0 i)) as Hin.
        { apply list_elem_of_filter. split; [|by apply elem_of_zrange]. unfold holds. by rewrite Hr', bool_decide_true. }
        destruct (filter _ (zrange 0 i)); [by apply elem_of_nil in Hin|simpl in Hk; lia]. }
      destruct (filter (λ p, holds idx cmd1 cfg p = true) (zrange 0 i)) as [|p l] eqn:Hf.
      * split; [simpl; lia|]. intros p row' Hp Hr'.
        destruct (decide (p = i)) as [->|]; [right; congruence|left; apply (Hnone p); [lia|done]].
      * exfalso. assert (Hp : p ∈ p :: l) by left. rewrite <-Hf in Hp.
        apply list_elem_of_filter in Hp as [Hp Hr%elem_of_zrange]. unfold holds in Hp.
        destruct (index (logs cfg) p) as [row'|] eqn:Hr'; [|done].
        rewrite (Hnone p row') in Hp by done. by rewrite bool_decide_false in Hp.
    + split; [lia|]. intros p row' Hp Hr'. destruct (decide (p = i)) as [->|]; [right; congruence|apply (Hv p); [lia|done]].
  - injection Hb as <- <-. rewrite decide_False by (by rewrite Hh, bool_decide_false). rewrite app_nil_r. split; [done|].
    intros p row' Hp Hr'. destruct (decide (p = i)) as [->|]; [left; congruence|apply (Hv p); [lia|done]].
Qed.

Lemma poll_agrees cmd idx expected cfgs :
  poll cmd idx expected cfgs = Some true →
  ∃ cfg, cfg ∈ cfgs ∧ 0 < zlen (holding idx cmd cfg) ∧ expected ≤ zlen (holding idx cmd cfg) ∧ only idx cmd cfg.
Proof.
  induction cfgs as [|cfg cfgs IH]; intros Hp; simpl in Hp; [done|].
  apply bind_Some in Hp as ([k v] & Hc & Hp). destruct (_ && _) eqn:Hg; simpl in *.
  - apply andb_true_iff in Hg as [Hg ->%bool_decide_eq_true]. apply nCommitted_counts in Hc as [-> Ho].
    exists cfg. split; [left|]. split_and!; [lia|lia|done].
  - destruct (IH Hp) as (c & Hin & ?). exists c. split; [by right|done].
Qed.

(** An accepted call went to a server that is connected, and the answer came from it. *)
Lemma try_servers_accepts n t starts starts' rf idx :
  0 ≤ n → try_servers n t starts = Some (starts', Some (rf, idx)) →
  ∃ si i, 0 ≤ si < n ∧ index (connected (t si).1) i = Some true ∧
    index (rafts (t si).1) i = Some (Some rf) ∧ (t si).2 rf = Some idx.
Proof.
  intros Hn Hrun.
  refine (range_loop_counts (try_server n t) (λ _ st, match st.2 with None => True | Some (rf, idx) =>
    ∃ si i, 0 ≤ si < n ∧ index (connected (t si).1) i = Some true ∧
      index (rafts (t si).1) i = Some (Some rf) ∧ (t si).2 rf = Some idx end) n (starts, None) (starts', Some (rf, idx)) Hn I _ Hrun).
  clear. intros si [s [p|]] st' Hsi HP Hs; unfold try_server in Hs; simpl in Hs; [by injection Hs as <-|].
  destruct (t si) as [cfg Start] eqn:Ht.
  apply bind_Some in Hs as (c & Hc & Hs). destruct c; simpl in Hs; [|by simplify_eq].
  apply bind_Some in Hs as (r & Hr & Hs). injection Hs as <-. simpl.
  destruct r as [r|]; simpl; [|done]. destruct (Start r) as [j|] eqn:Hj; simpl; [|done].
  exists si, ((s + 1) mod n). by rewrite Ht.
Qed.

(** The last accepted call went to a connected server and gave [idx], and later enough servers had the
    command there, and none another. *)
Definition agreed (n : Z) (cmd : option Cmd) (expected : Z) (rounds : list Round) (idx : Z)
    (subs : list (positive * Z)) : Prop :=
  ∃ r rf si i cfg, r ∈ rounds ∧ last subs = Some (rf, idx) ∧
    (0 ≤ si < n ∧ index (connected (tried r si).1) i = Some true ∧
     index (rafts (tried r si).1) i = Some (Some rf) ∧ (tried r si).2 rf = Some idx) ∧
    cfg ∈ polls r ∧ 0 < zlen (holding idx cmd cfg) ∧ expected ≤ zlen (holding idx cmd cfg) ∧ only idx cmd cfg.

Lemma agreed_later n cmd expected r rounds idx subs sub :
  agreed n cmd expected rounds idx subs →
  agreed n cmd expected (r :: rounds) idx subs ∧ agreed n cmd expected (r :: rounds) idx (sub :: subs).
Proof.
  intros (r' & rf' & si & i & cfg & Hr' & Hlast & Hrest). split; exists r', rf', si, i, cfg.
  - split; [by right|]. by split.
  - split; [by right|]. split; [|exact Hrest]. by destruct subs.
Qed.

Lemma one_loop_agrees n cmd expected retry finished rounds starts idx subs :
  0 ≤ n → one_loop n cmd expected retry finished starts rounds = (Some idx, subs) → idx ≠ -1 →
  agreed n cmd expected rounds idx subs.
Proof.
  intros Hn. revert starts subs. induction rounds as [|r rounds IH]; intros starts subs Hone Hidx; cbn [one_loop] in Hone.
  { destruct finished; by simplify_eq. }
  destruct (try_servers n (tried r) starts) as [[st [[rf j]|]]|] eqn:Ht; [|by apply (agreed_later _ _ _ _ _ _ _ (1%positive, 0)), (IH st)|done].
  assert (Hcons : (let '(res, subs) := one_loop n cmd expected retry finished st rounds in (res, (rf, j) :: subs)) =
    (Some idx, subs) → agreed n cmd expected (r :: rounds) idx subs).
  { destruct (one_loop n cmd expected retry finished st rounds) as [res subs'] eqn:Hl. intros [= -> <-].
    by apply agreed_later, (IH st). }
  destruct (Z.eqb_spec j (-1)) as [|Hj]; [by apply Hcons|].
  destruct (poll cmd j expected (polls r)) as [[|]|] eqn:Hp; [|destruct retry; [by apply Hcons|done]|done].
  injection Hone as -> <-. apply poll_agrees in Hp as (cfg & Hin & Hh).
  apply try_servers_accepts in Ht as (si & i & Hacc); [|done].
  exists r, rf, si, i, cfg. split; [left|]. split; [done|]. split; [exact Hacc|]. by split.
Qed.

(** Without retries the loop ends at the first index. *)
Lemma one_loop_once n cmd expected finished rounds starts res subs :
  one_loop n cmd expected false finished starts rounds = (res, subs) →
  zlen (filter (λ p, p.2 ≠ -1) subs) ≤ 1.
Proof.
  revert starts res subs. induction rounds as [|r rounds IH]; intros starts res subs Hone; cbn [one_loop] in Hone.
  { simplify_eq. simpl. lia. }
  destruct (try_servers n (tried r) starts) as [[st [[rf j]|]]|]; [|by eapply IH|simplify_eq; simpl; lia].
  destruct (Z.eqb_spec j (-1)) as [Hj|Hj].
  - destruct (one_loop n cmd expected false finished st rounds) as [res' subs'] eqn:Hl. simplify_eq.
    rewrite filter_cons, decide_False by (simpl; tauto). by eapply IH.
  - destruct (poll cmd j expected (polls r)) as [[|]|]; simplify_eq/=; rewrite filter_cons; case_decide; simpl; lia.
Qed.

(** C17: When [one] returns an index, the last call of [Start] that was accepted was made on a connected
    server and gave that index, and at some later moment at least [expectedServers] servers (and at least
    one) had the submitted command there while no server had another.  Without [retry] at most one call
    is accepted, whether the test then fails or not. *)
Theorem one_reaches_agreement (n : Z) (cmd : option Cmd) (expectedServers : Z) (retry finished : bool)
    (rounds : list Round) (res : option Z) (subs : list (positive * Z)) :
  0 ≤ n → one n cmd expectedServers retry finished rounds = (res, subs) →
  (∀ idx, res = Some idx → idx ≠ -1 →
     agreed n cmd expectedServers rounds idx subs) ∧
  (retry = false → zlen (filter (λ p, p.2 ≠ -1) subs) ≤ 1).
Proof.
  intros Hn Hone. split.
  - intros idx -> Hidx. by apply (one_loop_agrees n cmd expectedServers retry finished rounds 0).
  - intros ->. by eapply one_loop_once.
Qed.

(** ** [wait] *)

Lemma wait_loop_moved index n startTerm before after terms st :
  range_loop (wait_step index n startTerm before after terms) (zrange 0 30) (false, false) = Some st → st.2 = true →
  -1 < startTerm ∧ ∃ iters r, 0 ≤ iters < 30 ∧ Some r ∈ rafts (after iters) ∧ startTerm < terms iters r.
Proof.
  intros Hrun.
  refine (range_loop_counts _ (λ _ st, st.2 = true → -1 < startTerm ∧
    ∃ iters r, 0 ≤ iters < 30 ∧ Some r ∈ rafts (after iters) ∧ startTerm < terms iters r) 30 _ _ _ _ _ Hrun); [lia|done|].
  clear. intros i [[] b] st' Hi HP Hs; unfold wait_step in Hs; simpl in Hs; [by injection Hs as <-|].
  apply bind_Some in Hs as ([k v] & _ & Hs). simpl in Hs. destruct (n <=? k); [by simplify_eq|].
  destruct (Z.ltb_spec (-1) startTerm) as [Hst|]; [|by simplify_eq].
  apply bind_Some in Hs as (b' & Hm & Hs). injection Hs as <-. simpl. intros ->. split; [done|].
  assert (Hmv : ∃ r, Some r ∈ rafts (after i) ∧ startTerm < terms i r); [|destruct Hmv as (r & ? & ?); by exists i, r].
  unfold moved_on in Hm.
  refine (range_loop_keeps _ (λ b, b = true → ∃ r, Some r ∈ rafts (after i) ∧ startTerm < terms i r) _ _ _ _ _ Hm eq_refl);
    [|done].
  intros r c c' Hr HPc Hb Hc'. destruct c; [by apply HPc|]. apply bind_Some in Hb as (r' & -> & Hb).
  injection Hb as Hb. exists r'. split; [done|]. apply Z.ltb_lt. by rewrite Hb, Hc'.
Qed.

(** When [wait] returns a command, at least [n] servers had it at [index] at the last look and none
    anything else; it gives up only when asked to watch the term and some peer moved past it; with a peer
    that was shut down in [rafts], watching the term is a nil dereference. *)
Theorem wait_means_committed (index n startTerm : Z) (before after : Z → config) (terms : Z → positive → Z) (last : config) :
  (∀ cmd, wait index n startTerm before after terms last = Some (Command cmd) →
     n ≤ zlen (holding index cmd last) ∧ only index cmd last) ∧
  (wait index n startTerm before after terms last = Some MovedOn →
     -1 < startTerm ∧ ∃ iters r, 0 ≤ iters < 30 ∧ Some r ∈ rafts (after iters) ∧ startTerm < terms iters r) ∧
  (∀ k v rest, nCommitted index (before 0) = Some (k, v) → k < n → -1 < startTerm →
     rafts (after 0) = None :: rest → wait index n startTerm before after terms last = None).
Proof.
  unfold wait. split_and!.
  - intros cmd (st & _ & Hw)%bind_Some. destruct st.2; [done|].
    apply bind_Some in Hw as ([k v] & Hc & Hw). simpl in Hw. destruct (Z.ltb_spec k n); simplify_eq.
    apply nCommitted_counts in Hc as [-> Ho]. done.
  - intros (st & Hl & Hw)%bind_Some. destruct st.2 eqn:Hst; [by eapply wait_loop_moved|].
    apply bind_Some in Hw as (r & _ & Hw). by destruct (r.1 <? n).
  - intros k v rest Hc Hk Hst Hnil. rewrite zrange_cons by lia. cbn [range_loop].
    assert (wait_step index n startTerm before after terms 0 (false, false) = None) as ->; [|done].
    unfold wait_step. cbn [fst]. rewrite Hc. cbn. rewrite (proj2 (Z.leb_gt _ _)), (proj2 (Z.ltb_lt _ _)) by lia.
    unfold moved_on. by rewrite Hnil.
Qed.

End agree.

(** ** Two of three servers agree on a command *)

Definition demo (l : list (gmap Z (option Z))) : config (Cmd := Z) :=
  mkConfig MakeNetwork 3 [Some 1%positive; Some 2%positive; Some 3%positive] [None; None; None]
    [true; true; false] [] ∅ ∅ [] l [0; 0; 0] 0.
Definition demo_before : config := demo [∅; ∅; ∅].
Definition demo_after : config := demo [{[1 := Some 100]}; {[1 := Some 100]}; ∅].
(** The third server says it leads, but it is not connected; the second accepts. *)
Definition demo_round : Round :=
  mkRound (λ _, (demo_before, λ r, if decide (r = 1%positive) then None else Some 1)) [demo_before; demo_after].

Lemma one_reaches_agreement_witness :
  one 3 (Some 100) 2 false false [demo_round] = (Some 1, [(2%positive, 1)]) ∧
  ∃ cfg, cfg ∈ polls demo_round ∧ 2 ≤ zlen (holding 1 (Some 100) cfg).
Proof.
  assert (Hone : one 3 (Some 100) 2 false false [demo_round] = (Some 1, [(2%positive, 1)])) by (vm_compute; reflexivity).
  split; [exact Hone|].
  destruct (one_reaches_agreement 3 (Some 100) 2 false false [demo_round] (Some 1) _ ltac:(lia) Hone) as [Hag _].
  destruct (Hag 1 eq_refl ltac:(lia)) as (r & rf & si & i & cfg & Hr & _ & _ & Hin & _ & Hh & _).
  apply list_elem_of_singleton in Hr as ->. by exists cfg.
Defined.

Lemma wait_means_committed_witness :
  wait 1 2 0 (λ _, demo_before) (λ i, demo_after) (λ _ _, 0) demo_after = Some (Command (Some 100)) ∧
  2 ≤ zlen (holding 1 (Some 100) demo_after).
Proof.
  assert (Hw : wait 1 2 0 (λ _, demo_before) (λ i, demo_after) (λ _ _, 0) demo_after = Some (Command (Some 100)))
    by (vm_compute; reflexivity).
  split; [exact Hw|].
  exact (proj1 (proj1 (wait_means_committed 1 2 0 (λ _, demo_before) (λ i, demo_after) (λ _ _, 0) demo_after) _ Hw)).
Defined.

End RaftAgree.
