(* ===== verification/KVConfigTheorems.v ===== *)
(** * Partitions of the key/value tester *)
From S2P Require Import Prelude Graph Labrpc Raft Harness KVConfig.
Import KVConfig.


(** ** Sequences of enabling and disabling *)

(** [(a, c, b)]: set the end from server [a] to server [c] to [b]. *)
Definition run_ops (names : Names) (ops : list (Z * Z * bool)) (rn : Network) : option Network :=
  range_loop (λ op rn, enable_end names op.2 op.1.1 op.1.2 rn) ops rn.

Lemma range_loop_fmap {B C St} (f : C → B) (body : B → St → option St) xs st :
  range_loop body (f <$> xs) st = range_loop (λ x, body (f x)) xs st.
Proof. revert st. induction xs as [|x xs IH]; intros st; csimpl; [done|]. destruct (body (f x) st); simpl; [apply IH|done]. Qed.

Lemma run_ops_app names ops1 ops2 rn : run_ops names (ops1 ++ ops2) rn = run_ops names ops1 rn ≫= run_ops names ops2.
Proof. apply range_loop_app. Qed.

(** The value of the last operation on an end stays; other ends keep theirs. *)
Lemma run_ops_spec names ops rn :
  (∀ a c b, (a, c, b) ∈ ops → is_Some (name_at names a c)) →
  ∃ rn', run_ops names ops rn = Some rn' ∧ same_wiring rn rn' ∧
    (∀ s b, (∃ a c, (a, c, b) ∈ ops ∧ name_at names a c = Some s) →
       (∀ a c b', (a, c, b') ∈ ops → name_at names a c = Some s → b' = b) → is_enabled (AStr s) rn' = b) ∧
    (∀ e, (∀ a c b s, (a, c, b) ∈ ops → name_at names a c = Some s → e ≠ AStr s) →
       is_enabled e rn' = is_enabled e rn).
Proof.
  induction ops as [|[[a c] b] ops IH] using rev_ind; intros Hn.
  { exists rn. split_and!; [done..| |done]. intros s b (a & c & Hac & _). by apply elem_of_nil in Hac. }
  destruct IH as (rn1 & H1 & Hw1 & Ht1 & Hk1); [intros; eapply Hn; apply elem_of_app; by left|].
  destruct (Hn a c b) as [s Hs]; [apply elem_of_app; right; left|].
  exists (Enable (AStr s) b rn1). rewrite run_ops_app, H1. unfold run_ops. simpl. unfold enable_end. rewrite Hs.
  split; [done|]. split; [by etrans|]. split.
  - intros s' b' (a' & c' & Hin & Hs') Hall. rewrite is_enabled_Enable. case_decide as He.
    + simplify_eq. apply (Hall a c); [apply elem_of_app; right; left|done].
    + apply Ht1; [|intros; eapply Hall; [apply elem_of_app; by left|done]].
      exists a', c'. split; [|done]. apply elem_of_app in Hin as [?|Hin]; [done|].
      apply list_elem_of_singleton in Hin. congruence.
  - intros e He. rewrite is_enabled_Enable, decide_False.
    + apply Hk1. intros; eapply He; [apply elem_of_app; by left|done].
    + eapply He; [apply elem_of_app; right; left|done].
Qed.

(** ** The operations of a partition *)

(** All servers run, under distinct names. *)
Record up (cfg : config) : Prop := {
  up_names : zlen (endnames cfg) = n cfg;
  up_rows : ∀ i, 0 ≤ i < n cfg → ∃ row, index (endnames cfg) i = Some (Some row) ∧ zlen row = n cfg;
  up_inj : ∀ i j i' j' e, name_at (endnames cfg) i j = Some e → name_at (endnames cfg) i' j' = Some e →
    i = i' ∧ j = j'
}.

Lemma up_name cfg a c : up cfg → 0 ≤ a < n cfg → 0 ≤ c < n cfg → is_Some (name_at (endnames cfg) a c).
Proof.
  intros Hu Ha Hc. destruct (up_rows _ Hu a Ha) as (row & Hr & Hl). unfold name_at. rewrite Hr. simpl.
  apply index_is_Some. lia.
Qed.

Lemma up_started cfg j : up cfg → 0 ≤ j < n cfg → started_row (endnames cfg) j = Some true.
Proof. intros Hu Hj. destruct (up_rows _ Hu j Hj) as (row & Hr & _). unfold started_row. by rewrite Hr. Qed.

Definition set_ops (b : bool) (i : Z) (to : list Z) : list (Z * Z * bool) :=
  ((λ t, (i, t, b)) <$> to) ++ ((λ t, (t, i, b)) <$> to).

Lemma connectUnlocked_ops i to cfg :
  connectUnlocked i to cfg = (λ rn, set_net rn cfg) <$> run_ops (endnames cfg) (set_ops true i to) (net cfg).
Proof.
  unfold connectUnlocked, set_ops. rewrite run_ops_app. unfold run_ops. rewrite range_loop_fmap. simpl.
  destruct (range_loop _ to (net cfg)) as [rn|]; simpl; [|done]. rewrite range_loop_fmap. simpl.
  by destruct (range_loop _ to rn).
Qed.

Lemma range_loop_ext_in {B St} (f g : B → St → option St) xs st :
  (∀ x st, x ∈ xs → f x st = g x st) → range_loop f xs st = range_loop g xs st.
Proof.
  revert st. induction xs as [|x xs IH]; intros st Heq; simpl; [done|].
  rewrite Heq by left. destruct (g x st); simpl; [|done]. apply IH. intros; apply Heq. by right.
Qed.

Lemma disconnectUnlocked_ops i from cfg :
  up cfg → 0 ≤ i < n cfg → zlen from ≤ n cfg →
  disconnectUnlocked i from cfg = (λ rn, set_net rn cfg) <$> run_ops (endnames cfg) (set_ops false i from) (net cfg).
Proof.
  intros Hu Hi Hl. unfold disconnectUnlocked, set_ops. rewrite run_ops_app. unfold run_ops. rewrite range_loop_fmap. simpl.
  rewrite (range_loop_ext_in _ (λ f rn, enable_end (endnames cfg) false i f rn)); [|intros f rn _; by rewrite (up_started cfg i)].
  destruct (range_loop _ from (net cfg)) as [rn|]; simpl; [|done]. rewrite range_loop_fmap. simpl.
  rewrite (range_loop_ext_in _ (λ p rn, enable_end (endnames cfg) false p.2 i rn)).
  - assert (Hs : range_loop (λ (p : nat * Z) rn, enable_end (endnames cfg) false p.2 i rn) (imap pair from) rn =
      range_loop (λ t rn, enable_end (endnames cfg) false t i rn) ((imap pair from).*2) rn)
      by (by rewrite range_loop_fmap).
    rewrite Hs. replace ((imap pair from).*2) with from; [by destruct (range_loop _ from rn)|].
    rewrite fmap_imap. symmetry. apply list_eq. intros k. rewrite list_lookup_imap. by destruct (from !! k).
  - intros [k f] rn' [k' Hk]%list_elem_of_lookup_1. rewrite list_lookup_imap in Hk.
    destruct (from !! k') as [f'|] eqn:Hf; simplify_eq/=. apply lookup_lt_Some in Hf.
    rewrite (up_started cfg (Z.of_nat k)) by (done || lia). done.
Qed.

(** One round of the loops of [partition]. *)
Definition side_ops (mine other : list Z) (i : Z) : list (Z * Z * bool) := set_ops false i other ++ set_ops true i mine.

Lemma up_set_net rn cfg : up cfg → up (set_net rn cfg).
Proof. intros [U1 U2 U3]. by split. Qed.

Lemma side_loop mine other xs cfg :
  up cfg → (∀ i, i ∈ xs → 0 ≤ i < n cfg) → zlen other ≤ n cfg →
  range_loop (λ i cfg, cfg ← disconnectUnlocked i other cfg; connectUnlocked i mine cfg) xs cfg =
  (λ rn, set_net rn cfg) <$> run_ops (endnames cfg) (mjoin (side_ops mine other <$> xs)) (net cfg).
Proof.
  intros Hu Hi Hl. revert cfg Hu Hi Hl. induction xs as [|i xs IH]; intros cfg Hu Hi Hl; csimpl; [by destruct cfg|].
  rewrite disconnectUnlocked_ops by (done || (apply Hi; left)). unfold side_ops at 1. rewrite !run_ops_app.
  destruct (run_ops (endnames cfg) (set_ops false i other) (net cfg)) as [rn|]; simpl; [|done].
  rewrite connectUnlocked_ops. simpl.
  destruct (run_ops (endnames cfg) (set_ops true i mine) rn) as [rn'|]; simpl; [|done].
  rewrite (IH (set_net rn' (set_net rn cfg))); simpl; [|by do 2 apply up_set_net|intros j Hj; apply Hi; by right|done].
  by destruct (run_ops _ _ rn').
Qed.

Definition part_ops (p1 p2 : list Z) : list (Z * Z * bool) :=
  mjoin (side_ops p1 p2 <$> p1) ++ mjoin (side_ops p2 p1 <$> p2).

Lemma elem_of_set_ops a c b b' i to :
  (a, c, b) ∈ set_ops b' i to ↔ b = b' ∧ (a = i ∧ c ∈ to ∨ c = i ∧ a ∈ to).
Proof.
  unfold set_ops. rewrite elem_of_app, !list_elem_of_fmap. split.
  - intros [(t & [= -> -> ->] & Ht)|(t & [= -> -> ->] & Ht)]; naive_solver.
  - intros [-> [[-> Hc]|[-> Ha]]]; [left|right]; eauto.
Qed.

Lemma elem_of_side_ops (a c : Z) (b : bool) (mine other xs : list Z) :
  (a, c, b) ∈ mjoin (side_ops mine other <$> xs) ↔
  ∃ i, i ∈ xs ∧ ((a = i ∧ c ∈ (if b then mine else other)) ∨ (c = i ∧ a ∈ (if b then mine else other))).
Proof.
  rewrite list_elem_of_join. setoid_rewrite list_elem_of_fmap. split.
  - intros (l & Hl & i & -> & Hi). exists i. split; [done|]. unfold side_ops in Hl.
    apply elem_of_app in Hl as [Hl|Hl]; apply elem_of_set_ops in Hl as [-> Hl]; done.
  - intros (i & Hi & Hac). exists (side_ops mine other i). split; [|eauto]. unfold side_ops.
    apply elem_of_app. rewrite !elem_of_set_ops. destruct b; naive_solver.
Qed.

Lemma elem_of_part_ops (a c : Z) (b : bool) (p1 p2 : list Z) :
  (a, c, b) ∈ part_ops p1 p2 ↔
  if b then (a ∈ p1 ∧ c ∈ p1) ∨ (a ∈ p2 ∧ c ∈ p2) else (a ∈ p1 ∧ c ∈ p2) ∨ (a ∈ p2 ∧ c ∈ p1).
Proof. unfold part_ops. rewrite elem_of_app, !elem_of_side_ops. destruct b; naive_solver. Qed.

Lemma sides_disjoint (p1 p2 : list Z) a c :
  (∀ x, x ∈ p1 → x ∉ p2) → (a ∈ p1 ∧ c ∈ p1) ∨ (a ∈ p2 ∧ c ∈ p2) →
  (a ∈ p1 ∧ c ∈ p2) ∨ (a ∈ p2 ∧ c ∈ p1) → False.
Proof.
  intros Hdis [[? ?]|[? ?]] [[? ?]|[? ?]]; (by apply (Hdis a)) || (by apply (Hdis c)).
Qed.

Lemma partition_ops p1 p2 cfg :
  up cfg → (∀ i, i ∈ p1 ++ p2 → 0 ≤ i < n cfg) → zlen p1 ≤ n cfg → zlen p2 ≤ n cfg →
  partition p1 p2 cfg = (λ rn, set_net rn cfg) <$> run_ops (endnames cfg) (part_ops p1 p2) (net cfg).
Proof.
  intros Hu Hr H1 H2. unfold partition, part_ops.
  rewrite (side_loop p1 p2 p1 cfg); [|done|intros; apply Hr; set_solver|done]. rewrite run_ops_app.
  destruct (run_ops (endnames cfg) _ (net cfg)) as [rn|]; simpl; [|done].
  rewrite (side_loop p2 p1 p2 (set_net rn cfg)); simpl; [|by apply up_set_net|intros; apply Hr; set_solver|done].
  by destruct (run_ops _ _ rn).
Qed.

(** ** Filling the two sides *)

Lemma fill_skip l st : fill l l st = Some st.
Proof. unfold fill. destruct st as [[p1 p2] j]. by rewrite Z.eqb_refl. Qed.

(** The servers other than the leader, below [i]. *)
Definition others (l i : Z) : list Z := filter (λ x, x ≠ l) (zrange 0 i).

Lemma others_snoc l i : 0 ≤ i → others l (i + 1) = others l i ++ (if decide (i = l) then [] else [i]).
Proof.
  intros Hi. unfold others. rewrite zrange_snoc, filter_app, filter_cons by lia.
  destruct (decide (i = l)); [by rewrite decide_False by (intros ?; done)|by rewrite decide_True].
Qed.

Lemma others_length l i : 0 ≤ l → 0 ≤ i → zlen (others l i) = if decide (l < i) then i - 1 else i.
Proof.
  intros Hl. revert i. apply natlike_ind.
  - rewrite decide_False by lia. done.
  - intros i Hi IH. unfold Z.succ. rewrite others_snoc, length_app by done.
    destruct (decide (i = l)) as [->|Hne]; simpl.
    + rewrite decide_False in IH by lia. rewrite decide_True by lia. lia.
    + destruct (decide (l < i)); [rewrite decide_True by lia|rewrite decide_False by lia]; lia.
Qed.

Lemma others_perm l k : 0 ≤ l < k → l :: others l k ≡ₚ zrange 0 k.
Proof.
  intros Hl. apply NoDup_Permutation.
  - apply NoDup_cons. split; [|apply NoDup_filter, NoDup_zrange].
    unfold others. rewrite list_elem_of_filter. tauto.
  - apply NoDup_zrange.
  - intros x. rewrite elem_of_cons. unfold others. rewrite list_elem_of_filter, elem_of_zrange.
    destruct (decide (x = l)); naive_solver lia.
Qed.

(** Both slices as one array: the servers other than the leader from the left, zeros behind. *)
Definition filled (k l i : Z) (st : list Z * list Z * Z) : Prop :=
  zlen st.1.1 = k / 2 + 1 ∧ zlen st.1.2 = k / 2 ∧ st.2 = zlen (others l i) ∧
  ∃ m, st.1.1 ++ st.1.2 = others l i ++ replicate m 0.

Lemma insert_next (pre : list Z) m x y : <[length pre := y]> (pre ++ replicate (S m) x) = (pre ++ [y]) ++ replicate m x.
Proof.
  replace (length pre) with (length pre + 0)%nat at 1 by lia. rewrite insert_app_r. simpl.
  by rewrite <-(assoc_L (++)).
Qed.

Lemma fill_step k l i st :
  2 ≤ k → 0 ≤ l < k → 0 ≤ i < k → filled k l i st → ∃ st', fill l i st = Some st' ∧ filled k l (i + 1) st'.
Proof.
  intros Hk Hl Hi (H1 & H2 & Hj & m & Happ). destruct st as [[p1 p2] j]. simpl in *.
  unfold filled. rewrite others_snoc by lia. destruct (decide (i = l)) as [->|Hne].
  { exists (p1, p2, j). rewrite app_nil_r. split; [exact (fill_skip l (p1, p2, j))|]. split_and!; try done. by exists m. }
  assert (Hlen : zlen p1 + zlen p2 = zlen (others l i) + Z.of_nat m).
  { apply (f_equal (λ x, zlen x)) in Happ. rewrite !length_app, length_replicate in Happ. lia. }
  assert (Hot : zlen (others l i) < k - 1).
  { rewrite others_length by lia. case_decide; lia. }
  assert (Hdiv : k ≤ k / 2 + 1 + k / 2) by (pose proof (Z.div_mod k 2); pose proof (Z.mod_pos_bound k 2); lia).
  destruct m as [|m]; [lia|]. unfold fill. destruct (Z.eqb_spec i l); [lia|].
  assert (Hins : <[Z.to_nat j := i]> (p1 ++ p2) = (others l i ++ [i]) ++ replicate m 0).
  { rewrite Happ. replace (Z.to_nat j) with (length (others l i)) by lia. apply insert_next. }
  destruct (Z.ltb_spec j (zlen p1)) as [Hlt|Hge].
  - rewrite set_index_Some by lia. simpl. eexists. split; [done|]. simpl. rewrite length_insert, length_app. simpl.
    split_and!; [lia|lia|lia|]. exists m. by rewrite <-insert_app_l by lia.
  - rewrite set_index_Some by lia. simpl. eexists. split; [done|]. simpl. rewrite length_insert, length_app. simpl.
    split_and!; [lia|lia|lia|]. exists m. rewrite <-Hins, insert_app_r_alt by lia. do 2 f_equal. lia.
Qed.

Lemma split_servers_fills k l :
  2 ≤ k → 0 ≤ l < k →
  ∃ p1 p2, split_servers k l = Some (p1, p2) ∧ zlen p1 = k / 2 + 1 ∧ zlen p2 = k / 2 ∧
    p1 ++ p2 = others l k ++ replicate (Z.to_nat (2 * (k / 2) + 1 - k)) 0 ++ [l].
Proof.
  intros Hk Hl. unfold split_servers.
  assert (Hdiv : k = 2 * (k / 2) + k mod 2 ∧ 0 ≤ k mod 2 < 2).
  { split; [apply Z.div_mod; lia|apply Z.mod_pos_bound; lia]. }
  set (h := k / 2) in *.
  destruct (range_loop_zrange (fill l) (filled k l) k
    (replicate (Z.to_nat (h + 1)) 0, replicate (Z.to_nat h) 0, 0)) as ([[p1 p2] j] & Hrun & H1 & H2 & Hj & m & Happ).
  - lia.
  - unfold filled. fold h. simpl. rewrite !length_replicate. split_and!; [lia|lia|done|].
    exists (Z.to_nat (h + 1) + Z.to_nat h)%nat. by rewrite replicate_add.
  - intros i st Hi Hf. by apply fill_step.
  - rewrite Hrun. fold h in H1, H2. simpl in *. rewrite set_index_Some by lia. simpl. do 2 eexists. split; [done|].
    split; [done|]. split; [rewrite length_insert; lia|].
    assert (Hol : zlen (others l k) = k - 1) by (rewrite others_length, decide_True by lia; lia).
    assert (Hm : m = S (Z.to_nat (2 * h + 1 - k))).
    { apply (f_equal (λ x, zlen x)) in Happ. rewrite !length_app, length_replicate in Happ. lia. }
    assert (Hlast : p1 ++ <[Z.to_nat (zlen p2 - 1) := l]> p2 = <[(length p1 + (length p2 - 1))%nat := l]> (p1 ++ p2)).
    { rewrite insert_app_r. do 2 f_equal. lia. }
    rewrite Hlast, Happ, Hm, replicate_S_end.
    rewrite (assoc_L (++)). replace (length p1 + (length p2 - 1))%nat with
      (length (others l k ++ replicate (Z.to_nat (2 * h + 1 - k)) 0%Z) + 0)%nat
      by (rewrite length_app, length_replicate; lia).
    rewrite insert_app_r. simpl. by rewrite <-(assoc_L (++)).
Qed.

Lemma split_servers_exact k l :
  2 ≤ k → 0 ≤ l < k →
  ∃ p1 p2, split_servers k l = Some (p1, p2) ∧ zlen p1 = k / 2 + 1 ∧ zlen p2 = k / 2 ∧ l ∈ p2 ∧
    (Z.odd k = true → p1 ++ p2 ≡ₚ zrange 0 k) ∧ (Z.odd k = false → p1 ++ p2 ≡ₚ 0 :: zrange 0 k).
Proof.
  intros Hk Hl. destruct (split_servers_fills k l Hk Hl) as (p1 & p2 & Hm & H1 & H2 & Happ).
  exists p1, p2. split_and!; [done..| | |].
  - destruct p2 as [|x p2 _] using rev_ind; [simpl in H2; pose proof (Z.div_le_lower_bound k 2 1); lia|].
    rewrite (assoc_L (++)) in Happ. rewrite (assoc_L (++)) in Happ. apply app_inj_tail in Happ as [_ ->]. set_solver.
  - intros Hodd. rewrite Happ. pose proof (Zmod_odd k) as Hmod. rewrite Hodd in Hmod.
    pose proof (Z.div_mod k 2). replace (Z.to_nat (2 * (k / 2) + 1 - k)) with 0%nat by lia. simpl.
    rewrite <-(others_perm l k Hl). by rewrite Permutation_app_comm.
  - intros Hev. rewrite Happ. pose proof (Zmod_odd k) as Hmod. rewrite Hev in Hmod.
    pose proof (Z.div_mod k 2). replace (Z.to_nat (2 * (k / 2) + 1 - k)) with 1%nat by lia. simpl.
    rewrite <-(others_perm l k Hl). solve_Permutation.
Qed.

(** [Leader] answers with a server that leads, or with server 0. *)
Lemma Leader_found leads cfg found l :
  Leader leads cfg = Some (found, l) → 0 < n cfg →
  0 ≤ l < n cfg ∧
  (if found then ∃ kv, index (kvservers cfg) l = Some (Some kv) ∧ leads kv = true else l = 0).
Proof.
  intros Hrun Hn. unfold Leader in Hrun.
  refine (range_loop_keeps _ (λ r : bool * Z, 0 ≤ r.2 < n cfg ∧
    (if r.1 then ∃ kv, index (kvservers cfg) r.2 = Some (Some kv) ∧ leads kv = true else r.2 = 0)) _ _ _ _ _ Hrun);
    [|simpl; split; [lia|done]].
  intros i [b m] r' Hi%elem_of_zrange Hr Hb. simpl in *. destruct b; [by simplify_eq|].
  apply bind_Some in Hb as (kv & Hkv & Hb). apply bind_Some in Hb as (kv' & -> & Hb).
  destruct (leads kv') eqn:Hl; simplify_eq; simpl; [|done]. split; [lia|]. by exists kv'.
Qed.

(** ** The theorems *)

(** C35: With all servers up under distinct names, [partition(p1, p2)] of disjoint sides succeeds; then
    every end between servers of the same side is enabled, every end between the sides is disabled,
    and all other ends keep their state. *)
Theorem partition_separates (p1 p2 : list Z) (cfg : config) :
  up cfg → (∀ i, i ∈ p1 ++ p2 → 0 ≤ i < n cfg) → NoDup (p1 ++ p2) →
  ∃ rn, partition p1 p2 cfg = Some (set_net rn cfg) ∧
    (∀ a c s, name_at (endnames cfg) a c = Some s →
       ((a ∈ p1 ∧ c ∈ p1) ∨ (a ∈ p2 ∧ c ∈ p2) → is_enabled (AStr s) rn = true) ∧
       ((a ∈ p1 ∧ c ∈ p2) ∨ (a ∈ p2 ∧ c ∈ p1) → is_enabled (AStr s) rn = false)) ∧
    (∀ e, (∀ a c s, a ∈ p1 ++ p2 → c ∈ p1 ++ p2 → name_at (endnames cfg) a c = Some s → e ≠ AStr s) →
       is_enabled e rn = is_enabled e (net cfg)).
Proof.
  intros Hu Hr Hnd.
  assert (Hlen : zlen (p1 ++ p2) ≤ n cfg).
  { assert (Hsub : p1 ++ p2 ⊆+ zrange 0 (n cfg)) by (apply NoDup_submseteq; [done|]; intros x Hx; by apply elem_of_zrange, Hr).
    apply submseteq_length in Hsub. unfold zrange in Hsub. rewrite length_seqZ in Hsub.
    pose proof (up_names _ Hu). lia. }
  rewrite length_app in Hlen. rewrite partition_ops by (done || lia).
  destruct (run_ops_spec (endnames cfg) (part_ops p1 p2) (net cfg)) as (rn & Hrun & _ & Hset & Hkeep).
  { intros a c b Hin. apply elem_of_part_ops in Hin. apply up_name; [done|..]; apply Hr; destruct b; set_solver. }
  rewrite Hrun. exists rn. split; [done|]. apply NoDup_app in Hnd as (_ & Hdis & _). split.
  - intros a c s Hs. split; intros Hac; apply Hset.
    + exists a, c. split; [|done]. by apply elem_of_part_ops.
    + intros a' c' b' Hin Hs'. destruct (up_inj _ Hu _ _ _ _ _ Hs Hs') as [<- <-].
      apply elem_of_part_ops in Hin. destruct b'; [done|]. by destruct (sides_disjoint p1 p2 a c).
    + exists a, c. split; [|done]. by apply elem_of_part_ops.
    + intros a' c' b' Hin Hs'. destruct (up_inj _ Hu _ _ _ _ _ Hs Hs') as [<- <-].
      apply elem_of_part_ops in Hin. destruct b'; [|done]. by destruct (sides_disjoint p1 p2 a c).
  - intros e He. apply Hkeep. intros a c b s Hin Hs. apply elem_of_part_ops in Hin.
    apply (He a c s); [..|done]; destruct b; set_solver.
Qed.

(** [make_partition] puts the leader that [Leader] finds (server 0 when it finds none) on the smaller
    side.  With an odd number of servers (three or more) the sides are a partition of all servers with a
    majority on the first; with an even number server 0 is listed once more, so the sides need not be
    disjoint. *)
Theorem make_partition_exact (leads : positive → bool) (cfg : config) (found : bool) (l : Z) :
  2 ≤ n cfg → Leader leads cfg = Some (found, l) →
  (if found then ∃ kv, index (kvservers cfg) l = Some (Some kv) ∧ leads kv = true else l = 0) ∧
  ∃ p1 p2, make_partition leads cfg = Some (p1, p2) ∧
    zlen p1 = n cfg / 2 + 1 ∧ zlen p2 = n cfg / 2 ∧ l ∈ p2 ∧
    (Z.odd (n cfg) = true → p1 ++ p2 ≡ₚ zrange 0 (n cfg)) ∧
    (Z.odd (n cfg) = false → p1 ++ p2 ≡ₚ 0 :: zrange 0 (n cfg)).
Proof.
  intros Hk Hlead. destruct (Leader_found _ _ _ _ Hlead) as [Hl Hf]; [lia|]. split; [done|].
  unfold make_partition. rewrite Hlead. by apply split_servers_exact.
Qed.

(** [Leader] dereferences a nil pointer as soon as it reaches a server that is shut down, unless an
    earlier server leads. *)
Theorem Leader_shutdown_panics (leads : positive → bool) (cfg : config) (i : Z) :
  0 ≤ i < n cfg → index (kvservers cfg) i = Some None →
  (∀ j kv, 0 ≤ j < i → index (kvservers cfg) j = Some (Some kv) → leads kv = false) →
  Leader leads cfg = None.
Proof.
  intros Hi Hnil Hno. unfold Leader. rewrite (zrange_app 0 i (n cfg)), range_loop_app by lia.
  destruct (range_loop _ (zrange 0 i) _) as [r|] eqn:Hr; simpl; [|done].
  assert (r = (false, 0)) as ->.
  { refine (range_loop_keeps _ (λ r, r = (false, 0)) _ _ _ _ _ Hr); [|done].
    intros j r0 r1 Hj%elem_of_zrange -> Hb. cbn [fst] in Hb. apply bind_Some in Hb as (kv & Hkv & Hb).
    apply bind_Some in Hb as (kv' & -> & Hb). rewrite (Hno j kv') in Hb by (done || lia). by simplify_eq. }
  rewrite zrange_cons by lia. simpl. by rewrite Hnil.
Qed.

(** Shuffling the client ends gives every end once, whatever the random numbers are. *)
Theorem random_handles_permutes {A} (kvh : list A) (rnds : list nat) :
  length rnds = length kvh → (∀ i r, rnds !! i = Some r → (r ≤ i)%nat) →
  ∃ sa, random_handles kvh rnds = Some sa ∧ sa ≡ₚ kvh.
Proof. apply random_handles_ok. Qed.

(** ** Three servers to evaluate on *)

Definition demo_cfg : config :=
  default (new_config 3 (-1)) (make_config 3 false (-1)
    [(["00"; "01"; "02"], 1%positive, 1%positive); (["10"; "11"; "12"], 2%positive, 2%positive);
     (["20"; "21"; "22"], 3%positive, 3%positive)]%string).

Definition demo_rows : Names :=
  [Some ["00"; "01"; "02"]; Some ["10"; "11"; "12"]; Some ["20"; "21"; "22"]]%string.

Lemma demo_rows_index i row : index demo_rows i = Some row →
  (i = 0 ∧ row = Some ["00"; "01"; "02"]%string) ∨ (i = 1 ∧ row = Some ["10"; "11"; "12"]%string) ∨
  (i = 2 ∧ row = Some ["20"; "21"; "22"]%string).
Proof.
  intros [Hi Hl]%index_Some. destruct (Z.to_nat i) as [|[|[|k]]] eqn:Hk; simplify_eq/=;
    [left|right; left|right; right]; (split; [lia|done]).
Qed.

Lemma index_three (x y z e : string) j : index [x; y; z] j = Some e →
  (j = 0 ∧ e = x) ∨ (j = 1 ∧ e = y) ∨ (j = 2 ∧ e = z).
Proof.
  intros [Hj Hl]%index_Some. destruct (Z.to_nat j) as [|[|[|k]]] eqn:Hk; simplify_eq/=;
    [left|right; left|right; right]; (split; [lia|done]).
Qed.

Lemma demo_rows_inj i j i' j' e :
  name_at demo_rows i j = Some e → name_at demo_rows i' j' = Some e → i = i' ∧ j = j'.
Proof.
  unfold name_at. intros He He'. apply bind_Some in He as (r & Hr & He). apply bind_Some in He' as (r' & Hr' & He').
  apply demo_rows_index in Hr. apply demo_rows_index in Hr'.
  destruct Hr as [[-> ->]|[[-> ->]|[-> ->]]], Hr' as [[-> ->]|[[-> ->]|[-> ->]]]; simpl in He, He';
    apply index_three in He; apply index_three in He'; intuition congruence.
Qed.

Lemma demo_up : up demo_cfg.
Proof.
  assert (Hn : endnames demo_cfg = demo_rows) by (vm_compute; reflexivity).
  assert (Hk : n demo_cfg = 3) by (vm_compute; reflexivity).
  split; rewrite ?Hn, ?Hk.
  - reflexivity.
  - intros i Hi. destruct (index_total demo_rows i) as [row Hr]; [exact Hi|]. rewrite Hr.
    apply demo_rows_index in Hr. destruct Hr as [[_ ->]|[[_ ->]|[_ ->]]]; eexists; split; reflexivity.
  - exact demo_rows_inj.
Qed.

Lemma partition_separates_witness :
  let rn := default (net demo_cfg) (net <$> partition [1; 2] [0] demo_cfg) in
  is_enabled (AStr "12") rn = true ∧ is_enabled (AStr "10") rn = false.
Proof.
  intros rn. destruct (partition_separates [1; 2] [0] demo_cfg) as (rn' & Hp & Hset & _).
  - exact demo_up.
  - intros i Hi. simpl in Hi. assert (Hk : n demo_cfg = 3) by (vm_compute; reflexivity).
    rewrite !elem_of_cons, elem_of_nil in Hi. lia.
  - apply (bool_decide_unpack _). vm_compute. exact I.
  - assert (Hrn : rn = rn') by (unfold rn; rewrite Hp; reflexivity). rewrite Hrn. split.
    + apply (Hset 1 2 "12"%string); [vm_compute; reflexivity|]. left. split; apply (bool_decide_unpack _); vm_compute; exact I.
    + apply (Hset 1 0 "10"%string); [vm_compute; reflexivity|]. left. split; apply (bool_decide_unpack _); vm_compute; exact I.
Defined.

(** Four and five servers, one of which leads. *)
Definition running (k : Z) : config :=
  let c := new_config k (-1) in set_kvservers (Some <$> (Z.to_pos <$> zrange 1 (k + 1))) c.

Lemma make_partition_exact_witness :
  make_partition (λ kv, bool_decide (kv = 3%positive)) (running 5) = Some ([0; 1; 3], [4; 2]) ∧
  ∃ p1 p2, make_partition (λ kv, bool_decide (kv = 4%positive)) (running 4) = Some (p1, p2) ∧
    p1 ++ p2 ≡ₚ 0 :: zrange 0 4.
Proof.
  split; [vm_compute; reflexivity|].
  destruct (make_partition_exact (λ kv, bool_decide (kv = 4%positive)) (running 4) true 3)
    as (_ & p1 & p2 & Hm & _ & _ & _ & _ & Hev); [simpl; lia|vm_compute; reflexivity|].
  exists p1, p2. split; [exact Hm|]. apply Hev. reflexivity.
Defined.

Lemma Leader_shutdown_panics_witness :
  Leader (λ kv, bool_decide (kv = 3%positive)) (set_kvservers [Some 1%positive; None; Some 3%positive] (running 3)) = None.
Proof.
  apply (Leader_shutdown_panics _ _ 1); [simpl; lia|reflexivity|].
  intros j kv Hj Hkv. assert (j = 0) as -> by lia. vm_compute in Hkv. by simplify_eq.
Defined.

Lemma random_handles_permutes_witness : ∃ sa, random_handles [10; 20; 30] [0; 0; 1]%nat = Some sa ∧ sa ≡ₚ [10; 20; 30].
Proof.
  apply (random_handles_permutes [10; 20; 30] [0; 0; 1]%nat); [reflexivity|].
  intros [|[|[|i]]] r Hr; vm_compute in Hr; simplify_eq; lia.
Defined.
