(* ===== verification/HarnessStats.v ===== *)
(** * What the testers print, and how long a test may take

    [begin], [op], [end], [checkTimeout] and [checkFinished] of [raft/config.go] and
    [kvraft/config.go] (the other two harnesses have [checkTimeout] only), with the clock and the
    test's state as arguments; and the random names and seeds the four harnesses make. *)
From Stdlib Require Import Ascii.
From S2P Require Import Prelude Labrpc LabrpcProofs RaftConfig KVConfig.

(** ** Time *)

(** Times are nanoseconds. *)
Definition Second : Z := 1000000000.

(** [checkTimeout()]: [None] is [t.Fatal]. *)
Definition checkTimeout (failed : bool) (start now : Z) : option unit :=
  if negb failed && (120 * Second <? now - start) then None else Some tt.

(** ** Random names *)

(** [base64.URLEncoding]: three bytes are four characters, the rest is padded. *)
Definition url_char (d : Z) : ascii :=
  ascii_of_N (Z.to_N (
    if d <? 26 then 65 + d else if d <? 52 then 97 + (d - 26) else if d <? 62 then 48 + (d - 52)
    else if d =? 62 then 45 else 95)).
Fixpoint EncodeToString (b : list Z) : string :=
  match b with
  | [] => ""
  | [x] => String (url_char (x / 4)) (String (url_char (x mod 4 * 16)) "==")
  | [x; y] => String (url_char (x / 4)) (String (url_char (x mod 4 * 16 + y / 16))
                (String (url_char (y mod 16 * 4)) "="))
  | x :: y :: z :: b' =>
      String (url_char (x / 4)) (String (url_char (x mod 4 * 16 + y / 16))
        (String (url_char (y mod 16 * 4 + z / 64)) (String (url_char (z mod 64)) (EncodeToString b'))))
  end.

(** [randstring(n)] with what [crand.Read] put into the [2*n] bytes; [None] when the slice [s[0:n]] is out
    of range. *)
Definition randstring (n : Z) (b : list Z) : option string :=
  let s := EncodeToString b in
  if (0 <=? n) && (n <=? Z.of_nat (String.length s)) then Some (String.substring 0 (Z.to_nat n) s) else None.

(** [makeSeed()] with the number below [1 << 62] that [crand.Int] gave. *)
Definition makeSeed (bigx : Z) : Z := wrap_signed 64 bigx.

(** ** The Raft tester *)
Module RaftStats.
Section stats.
Context {Cmd : Type} `{EqDecision Cmd} `{Codec (Z * list (option Cmd))}.
Abbreviation config := (RaftConfig.config (Cmd := Cmd)).

Record stats := mkStats {
  finished : Z; start : Z; t0 : Z; rpcs0 : Z; cmds0 : Z; bytes0 : Z; maxIndex0 : Z;
}.

Definition checkFinished (st : stats) : bool := negb (finished st =? 0).

Definition begin (now : Z) (cfg : config) (st : stats) : stats :=
  mkStats (finished st) (start st) now (RaftConfig.rpcTotal cfg) 0 (RaftConfig.bytesTotal cfg)
    (RaftConfig.maxIndex cfg).

(** The numbers [end] prints. *)
Record Passed := mkPassed { elapsed : Z; npeers : Z; nrpc : Z; nbytes : Z; ncmds : Z }.

(** [end()]: [None] is [t.Fatal] in [checkTimeout]; nothing is printed for a failed test. *)
Definition end_ (failed : bool) (now : Z) (cfg : config) (st : stats) : option (option Passed) :=
  _ ← checkTimeout failed (start st) now;
  if failed then Some None
  else Some (Some (mkPassed (now - t0 st) (RaftConfig.n cfg) (RaftConfig.rpcTotal cfg - rpcs0 st)
                     (RaftConfig.bytesTotal cfg - bytes0 st) (RaftConfig.maxIndex cfg - maxIndex0 st))).
End stats.
End RaftStats.

(** ** The key/value tester *)
Module KVStats.
Record stats := mkStats { start : Z; t0 : Z; rpcs0 : Z; ops : Z }.

Definition begin (now : Z) (cfg : KVConfig.config) (st : stats) : stats :=
  mkStats (start st) now (KVConfig.rpcTotal cfg) 0.

Definition op (st : stats) : stats :=
  mkStats (start st) (t0 st) (rpcs0 st) (wrap_signed 32 (ops st + 1)).

Record Passed := mkPassed { elapsed : Z; npeers : Z; nrpc : Z; nops : Z }.

Definition end_ (failed : bool) (now : Z) (cfg : KVConfig.config) (st : stats) : option (option Passed) :=
  _ ← checkTimeout failed (start st) now;
  if failed then Some None
  else Some (Some (mkPassed (now - t0 st) (KVConfig.n cfg) (KVConfig.rpcTotal cfg - rpcs0 st) (ops st))).
End KVStats.

(** ** What the numbers mean *)

Fixpoint op_times (k : nat) (st : KVStats.stats) : KVStats.stats :=
  match k with O => st | S k => KVStats.op (op_times k st) end.

Lemma op_times_fields k st :
  KVStats.ops st = 0 → Z.of_nat k < 2 ^ 31 →
  op_times k st = KVStats.mkStats (KVStats.start st) (KVStats.t0 st) (KVStats.rpcs0 st) (Z.of_nat k).
Proof.
  intros H0. induction k as [|k IH]; intros Hk; simpl.
  - destruct st. simpl in *. by subst.
  - rewrite IH by lia. unfold KVStats.op. simpl. f_equal. rewrite wrap_signed_small; [lia|lia|].
    lia.
Qed.

(** The accepted requests of a run and of its continuation. *)
Lemma accepts_since evs1 evs2 s1 s2 :
  run evs1 net_init = Next s1 → run evs2 s1 = Next s2 →
  zlen (filter (λ ev, is_accept ev) (evs1 ++ evs2)) < 2 ^ 31 →
  GetTotalCount (net s2) - GetTotalCount (net s1) = zlen (filter (λ ev, is_accept ev) evs2).
Proof.
  intros H1 H2 Hlt. assert (run (evs1 ++ evs2) net_init = Next s2) as H12 by by rewrite (run_app _ _ _ _ H1).
  unfold GetTotalCount. rewrite (count_accepts _ _ H1), (count_accepts _ _ H12), filter_app, length_app.
  rewrite filter_app, length_app in Hlt.
  rewrite !wrap_signed_small; lia.
Qed.

(** What a key/value test prints when it passes: the time since [begin], the number of servers, the RPCs
    the network accepted since [begin] and the clerk calls counted since [begin]. *)
Theorem kv_end_reports evs1 evs2 s1 s2 (cfg1 cfg2 : KVConfig.config) (st : KVStats.stats) (k : nat) (now1 now2 : Z) :
  run evs1 net_init = Next s1 → run evs2 s1 = Next s2 →
  KVConfig.net cfg1 = net s1 → KVConfig.net cfg2 = net s2 →
  zlen (filter (λ ev, is_accept ev) (evs1 ++ evs2)) < 2 ^ 31 → Z.of_nat k < 2 ^ 31 →
  now2 - KVStats.start st ≤ 120 * Second →
  KVStats.end_ false now2 cfg2 (op_times k (KVStats.begin now1 cfg1 st)) =
    Some (Some (KVStats.mkPassed (now2 - now1) (KVConfig.n cfg2)
      (zlen (filter (λ ev, is_accept ev) evs2)) (Z.of_nat k))).
Proof.
  intros H1 H2 Hn1 Hn2 Hlt Hk Ht. rewrite op_times_fields by done. unfold KVStats.end_, checkTimeout.
  simpl. rewrite (proj2 (Z.ltb_ge _ _)) by lia. simpl. unfold KVConfig.rpcTotal.
  rewrite Hn1, Hn2, (accepts_since evs1 evs2 s1 s2) by done. done.
Qed.

(** A random name has the length asked for: [2*n] bytes are enough. *)
Lemma length_EncodeToString b : (length b ≤ String.length (EncodeToString b))%nat.
Proof.
  assert (∀ k b, length b ≤ k → length b ≤ String.length (EncodeToString b))%nat as Hk.
  { clear b. induction k as [|k IH]; intros [|x [|y [|z b]]] Hl; simpl in *; try lia.
    specialize (IH b ltac:(lia)). lia. }
  by apply (Hk (length b)).
Qed.

Lemma substring_length k s : (k ≤ String.length s)%nat → String.length (String.substring 0 k s) = k.
Proof. revert k. induction s as [|a s IH]; intros [|k] Hk; simpl in *; try lia. by rewrite IH by lia. Qed.

Theorem randstring_length (n : Z) (b : list Z) :
  0 ≤ n → zlen b = 2 * n → ∃ s, randstring n b = Some s ∧ Z.of_nat (String.length s) = n.
Proof.
  intros Hn Hb. unfold randstring. pose proof (length_EncodeToString b).
  rewrite (proj2 (andb_true_iff _ _)) by lia. eexists. split; [done|]. rewrite substring_length; lia.
Qed.

(** A seed is the number itself. *)
Theorem makeSeed_small (bigx : Z) : 0 ≤ bigx < 2 ^ 62 → makeSeed bigx = bigx.
Proof. intros Hb. apply wrap_signed_small; [lia|]. lia. Qed.

(** *** Witnesses *)
Lemma kv_end_reports_witness :
  KVStats.end_ false (5 * Second) (KVConfig.mkConfig (net net_init) 3 [] [] ∅ [] ∅ 0 (-1))
    (op_times 2 (KVStats.begin Second (KVConfig.mkConfig (net net_init) 3 [] [] ∅ [] ∅ 0 (-1)) (KVStats.mkStats 0 0 7 9))) =
  Some (Some (KVStats.mkPassed (4 * Second) 3 0 2)).
Proof.
  rewrite (kv_end_reports [] [] net_init net_init
    (KVConfig.mkConfig (net net_init) 3 [] [] ∅ [] ∅ 0 (-1))
    (KVConfig.mkConfig (net net_init) 3 [] [] ∅ [] ∅ 0 (-1)) (KVStats.mkStats 0 0 7 9) 2 Second (5 * Second));
    vm_compute; done.
Defined.

Lemma randstring_length_witness : ∃ s, randstring 2 [0; 255; 16; 7] = Some s ∧ Z.of_nat (String.length s) = 2.
Proof. apply (randstring_length 2 [0; 255; 16; 7]); done. Defined.

Lemma makeSeed_small_witness : makeSeed 12345 = 12345.
Proof. apply makeSeed_small. done. Defined.
