(* ===== verification/CtrlerConfig.v ===== *)
(** * The tester of the shard controller: [shardctrler/config.go]

    Like the tester of the key/value service, without a bound on the log and with a [Leader] that skips
    servers that are shut down.  [None] is a panic or a failed test. *)
From S2P Require Import Prelude Graph Labrpc Raft Harness.


Module CtrlerConfig.

(** [servers] numbers the instances; [saved] holds addresses of persisters on [disk]; a clerk is a
    number, mapped to the names of its ends. *)
Record config := mkConfig {
  net : Network;
  n : Z;
  servers : list (option positive);
  saved : list (option positive);
  disk : gmap positive Persister;
  endnames : Names;
  clerks : gmap positive (list string);
  nextClientId : Z
}.

Definition set_net rn (c : config) : config :=
  mkConfig rn (n c) (servers c) (saved c) (disk c) (endnames c) (clerks c) (nextClientId c).
Definition set_servers l (c : config) : config :=
  mkConfig (net c) (n c) l (saved c) (disk c) (endnames c) (clerks c) (nextClientId c).
Definition set_saved l d (c : config) : config :=
  mkConfig (net c) (n c) (servers c) l d (endnames c) (clerks c) (nextClientId c).
Definition set_endnames l (c : config) : config :=
  mkConfig (net c) (n c) (servers c) (saved c) (disk c) l (clerks c) (nextClientId c).
Definition set_clerks m k (c : config) : config :=
  mkConfig (net c) (n c) (servers c) (saved c) (disk c) (endnames c) m k.

(** ** Connections *)

(** [connectUnlocked(i, to)]. *)
Definition connectUnlocked (i : Z) (to : list Z) (cfg : config) : option config :=
  rn ← range_loop (λ t rn, enable_end (endnames cfg) true i t rn) to (net cfg);
  rn ← range_loop (λ t rn, enable_end (endnames cfg) true t i rn) to rn;
  Some (set_net rn cfg).

(** [disconnectUnlocked(i, from)].  The second loop tests [endnames[j]], where [j] counts the elements of
    [from], and then uses [endnames[from[j]]]. *)
Definition disconnectUnlocked (i : Z) (from : list Z) (cfg : config) : option config :=
  rn ← range_loop (λ f rn, b ← started_row (endnames cfg) i;
                            if (b : bool) then enable_end (endnames cfg) false i f rn else Some rn)
         from (net cfg);
  rn ← range_loop (λ p rn, b ← started_row (endnames cfg) (Z.of_nat p.1);
                            if (b : bool) then enable_end (endnames cfg) false p.2 i rn else Some rn)
         (imap pair from) rn;
  Some (set_net rn cfg).

(** [All()]. *)
Definition All (cfg : config) : list Z := zrange 0 (n cfg).

Definition ConnectAll (cfg : config) : option config :=
  range_loop (λ i cfg, connectUnlocked i (All cfg) cfg) (zrange 0 (n cfg)) cfg.

(** [partition(p1, p2)]. *)
Definition partition (p1 p2 : list Z) (cfg : config) : option config :=
  cfg ← range_loop (λ i cfg, cfg ← disconnectUnlocked i p2 cfg; connectUnlocked i p1 cfg) p1 cfg;
  range_loop (λ i cfg, cfg ← disconnectUnlocked i p1 cfg; connectUnlocked i p2 cfg) p2 cfg.

(** [Leader()]: the first server that is not nil and whose instance says it leads; [leads] is what
    [GetState] answers. *)
Definition Leader (leads : positive → bool) (cfg : config) : option (bool * Z) :=
  range_loop (λ i (r : bool * Z),
      if r.1 then Some r
      else s ← index (servers cfg) i;
           Some (match s with Some s => if leads s then (true, i) else r | None => r end))
    (zrange 0 (n cfg)) (false, 0).

(** [make_partition()]: two slices filled from left to right, the leader [l] last. *)
Definition fill (l i : Z) (st : list Z * list Z * Z) : option (list Z * list Z * Z) :=
  let '(p1, p2, j) := st in
  if i =? l then Some st
  else if j <? zlen p1 then p1' ← set_index p1 j i; Some (p1', p2, j + 1)
  else p2' ← set_index p2 (j - zlen p1) i; Some (p1, p2', j + 1).

Definition split_servers (n l : Z) : option (list Z * list Z) :=
  st ← range_loop (fill l) (zrange 0 n)
         (replicate (Z.to_nat (n / 2 + 1)) 0, replicate (Z.to_nat (n / 2)) 0, 0);
  p2 ← set_index st.1.2 (zlen st.1.2 - 1) l;
  Some (st.1.1, p2).

Definition make_partition (leads : positive → bool) (cfg : config) : option (list Z * list Z) :=
  r ← Leader leads cfg; split_servers (n cfg) r.2.

(** ** Clients *)

(** [ConnectClientUnlocked(ck, to)] and [DisconnectClientUnlocked(ck, from)]; a clerk that is not in the
    map has no names. *)
Definition set_client (b : bool) (ck : positive) (to : list Z) (cfg : config) : option config :=
  rn ← range_loop (λ t rn, s ← index (default [] (clerks cfg !! ck)) t; Some (Enable (AStr s) b rn)) to (net cfg);
  Some (set_net rn cfg).
Definition ConnectClientUnlocked (ck : positive) (to : list Z) (cfg : config) : option config :=
  set_client true ck to cfg.
Definition DisconnectClientUnlocked (ck : positive) (from : list Z) (cfg : config) : option config :=
  set_client false ck from cfg.

(** [makeClient(to)] with the new clerk and its random names. *)
Definition makeClient (ck : positive) (names : list string) (to : list Z) (cfg : config) : option config :=
  rn ← make_ends AInt names (net cfg);
  let cfg := set_net rn cfg in
  let cfg := set_clerks (<[ck := names]> (clerks cfg)) (nextClientId cfg + 1) cfg in
  ConnectClientUnlocked ck to cfg.

(** [deleteClient(ck)]; the files it removes do not exist here. *)
Definition deleteClient (ck : positive) (cfg : config) : config :=
  set_clerks (delete ck (clerks cfg)) (nextClientId cfg) cfg.

(** ** Servers *)

(** [cfg.saved[i] = p] for a new object. *)
Definition save_new (i : Z) (p : Persister) (cfg : config) : option config :=
  let a := fresh (dom (disk cfg)) in
  sv ← set_index (saved cfg) i (Some a);
  Some (set_saved sv (<[a := p]> (disk cfg)) cfg).

Definition saved_at (i : Z) (cfg : config) : option (option Persister) :=
  a ← index (saved cfg) i;
  match a with
  | None => Some None
  | Some a => p ← disk cfg !! a; Some (Some p)
  end.

(** [ShutdownServer(i)]: the server is cut off and deleted before its persister is replaced. *)
Definition ShutdownServer (i : Z) (cfg : config) : option config :=
  cfg ← disconnectUnlocked i (All cfg) cfg;
  let cfg := set_net (DeleteServer (AInt i) (net cfg)) cfg in
  sv ← saved_at i cfg;
  cfg ← match sv with Some p => save_new i (Copy p) cfg | None => Some cfg end;
  kvs ← set_index (servers cfg) i None;
  Some (set_servers kvs cfg).

(** [StartServer(i)] with fresh names, the new instance and the new server object. *)
Definition StartServer (i : Z) (fresh_names : list string) (kv : positive) (srv : sptr) (cfg : config) :
    option config :=
  names ← set_index (endnames cfg) i (Some fresh_names);
  let cfg := set_endnames names cfg in
  rn ← make_ends AInt fresh_names (net cfg);
  let cfg := set_net rn cfg in
  sv ← saved_at i cfg;
  cfg ← save_new i (match sv with Some p => Copy p | None => MakePersister end) cfg;
  kvs ← set_index (servers cfg) i (Some kv);
  let cfg := set_servers kvs cfg in
  Some (set_net (AddServer (AInt i) srv (net cfg)) cfg).

(** [LogSize()]: the largest over all servers; a nil persister panics. *)
Definition LogSize (cfg : config) : option Z :=
  range_loop (λ i best, sv ← saved_at i cfg; p ← sv;
                        Some (if best <? RaftStateSize p then RaftStateSize p else best)) (zrange 0 (n cfg)) 0.

(** [make_config(t, n, unreliable)]. *)
Definition new_config (n : Z) : config :=
  let k := Z.to_nat n in
  mkConfig MakeNetwork n (replicate k None) (replicate k None) ∅ (replicate k None) ∅ (n + 1000).

Definition make_config (n : Z) (unreliable : bool)
    (starts : list (list string * positive * sptr)) : option config :=
  cfg ← range_loop (λ p cfg, StartServer (Z.of_nat p.1) p.2.1.1 p.2.1.2 p.2.2 cfg) (imap pair starts)
          (new_config n);
  cfg ← ConnectAll cfg;
  Some (set_net (Reliable (negb unreliable) (net cfg)) cfg).

Definition cleanup (cfg : config) : option config := rn ← Cleanup (net cfg); Some (set_net rn cfg).

End CtrlerConfig.
