(* ===== verification/CtrlerConfigTheorems.v ===== *)
(** * The controller's tester is the key/value tester

    The two testers are copies of each other up to the type of the servers, the bound on the log and
    [Leader]; what holds of partitions of the one holds of the other. *)
From S2P Require Import Prelude Graph Labrpc Raft Harness KVConfig CtrlerConfig.

Module CtrlerConfigTheorems.
Module K := KVConfig.KVConfig.
Import CtrlerConfig.CtrlerConfig.

(** The state of the key/value tester with the same servers and the bound [m]. *)
Definition to_kv (m : Z) (c : config) : K.config :=
  K.mkConfig (net c) (n c) (servers c) (saved c) (disk c) (endnames c) (clerks c) (nextClientId c) m.

(** The calls a test makes. *)
Inductive Op :=
  | OConnect (i : Z) (to : list Z)
  | ODisconnect (i : Z) (from : list Z)
  | OConnectAll
  | OPartition (p1 p2 : list Z)
  | OMakeClient (ck : positive) (names : list string) (to : list Z)
  | ODeleteClient (ck : positive)
  | OConnectClient (ck : positive) (to : list Z)
  | ODisconnectClient (ck : positive) (from : list Z)
  | OShutdown (i : Z)
  | OStart (i : Z) (names : list string) (server : positive) (srv : sptr)
  | OCleanup.

Definition exec (o : Op) (c : config) : option config :=
  match o with
  | OConnect i to => connectUnlocked i to c
  | ODisconnect i from => disconnectUnlocked i from c
  | OConnectAll => ConnectAll c
  | OPartition p1 p2 => partition p1 p2 c
  | OMakeClient ck names to => makeClient ck names to c
  | ODeleteClient ck => Some (deleteClient ck c)
  | OConnectClient ck to => ConnectClientUnlocked ck to c
  | ODisconnectClient ck from => DisconnectClientUnlocked ck from c
  | OShutdown i => ShutdownServer i c
  | OStart i names s srv => StartServer i names s srv c
  | OCleanup => cleanup c
  end.

Definition exec_kv (o : Op) (c : K.config) : option K.config :=
  match o with
  | OConnect i to => K.connectUnlocked i to c
  | ODisconnect i from => K.disconnectUnlocked i from c
  | OConnectAll => K.ConnectAll c
  | OPartition p1 p2 => K.partition p1 p2 c
  | OMakeClient ck names to => K.makeClient ck names to c
  | ODeleteClient ck => Some (K.deleteClient ck c)
  | OConnectClient ck to => K.ConnectClientUnlocked ck to c
  | ODisconnectClient ck from => K.DisconnectClientUnlocked ck from c
  | OShutdown i => K.ShutdownServer i c
  | OStart i names s srv => K.StartServer i names s srv c
  | OCleanup => K.cleanup c
  end.

(** ** One operation *)

(** A loop over corresponding bodies. *)
Lemma range_loop_sim {B St St'} (g : St → St') (f : B → St → option St) (f' : B → St' → option St') xs st :
  (∀ x st, g <$> f x st = f' x (g st)) → g <$> range_loop f xs st = range_loop f' xs (g st).
Proof.
  intros Heq. revert st. induction xs as [|x xs IH]; intros st; simpl; [done|].
  rewrite <-Heq. destruct (f x st); simpl; [apply IH|done].
Qed.

(** Both sides run the same computation: follow it. *)
Ltac same_steps :=
  repeat match goal with
  | |- context [?o ≫= _] => destruct o; simpl; [|done]
  end; try done.

Section sim.
Variable m : Z.

Lemma connect_sim i to c : to_kv m <$> connectUnlocked i to c = K.connectUnlocked i to (to_kv m c).
Proof. unfold connectUnlocked, K.connectUnlocked. simpl. same_steps. Qed.

Lemma disconnect_sim i from c : to_kv m <$> disconnectUnlocked i from c = K.disconnectUnlocked i from (to_kv m c).
Proof. unfold disconnectUnlocked, K.disconnectUnlocked. simpl. same_steps. Qed.

(** Corresponding steps in a sequence. *)
Lemma bind_sim (o : option config) (o' : option K.config) (f : config → option config) (f' : K.config → option K.config) :
  to_kv m <$> o = o' → (∀ c, to_kv m <$> f c = f' (to_kv m c)) → to_kv m <$> (o ≫= f) = o' ≫= f'.
Proof. intros <- Hf. destruct o; simpl; [apply Hf|done]. Qed.

Lemma partition_sim p1 p2 c : to_kv m <$> partition p1 p2 c = K.partition p1 p2 (to_kv m c).
Proof.
  unfold partition, K.partition.
  apply bind_sim; intros; apply range_loop_sim; intros; apply bind_sim; intros; first [apply disconnect_sim|apply connect_sim].
Qed.

Lemma ConnectAll_sim c : to_kv m <$> ConnectAll c = K.ConnectAll (to_kv m c).
Proof.
  unfold ConnectAll, K.ConnectAll. apply range_loop_sim. intros. apply connect_sim.
Qed.

Lemma set_client_sim b ck to c : to_kv m <$> set_client b ck to c = K.set_client b ck to (to_kv m c).
Proof. unfold set_client, K.set_client. simpl. same_steps. Qed.

Lemma makeClient_sim ck names to c : to_kv m <$> makeClient ck names to c = K.makeClient ck names to (to_kv m c).
Proof.
  unfold makeClient, K.makeClient. simpl. destruct (make_ends AInt names (net c)); simpl; [|done].
  apply set_client_sim.
Qed.

Lemma save_new_sim i p c : to_kv m <$> save_new i p c = K.save_new i p (to_kv m c).
Proof. unfold save_new, K.save_new. simpl. same_steps. Qed.

Lemma ShutdownServer_sim i c : to_kv m <$> ShutdownServer i c = K.ShutdownServer i (to_kv m c).
Proof.
  unfold ShutdownServer, K.ShutdownServer. apply bind_sim; [apply disconnect_sim|]. intros c1.
  change (K.saved_at i (K.set_net (DeleteServer (AInt i) (K.net (to_kv m c1))) (to_kv m c1)))
    with (saved_at i (set_net (DeleteServer (AInt i) (net c1)) c1)).
  destruct (saved_at i _) as [sv|]; simpl; [|done]. apply bind_sim.
  - destruct sv; [apply save_new_sim|done].
  - intros c2. simpl. same_steps.
Qed.

Lemma StartServer_sim i names s srv c :
  to_kv m <$> StartServer i names s srv c = K.StartServer i names s srv (to_kv m c).
Proof.
  unfold StartServer, K.StartServer. simpl. destruct (set_index (endnames c) i _) as [en|]; simpl; [|done].
  destruct (make_ends AInt names (net c)) as [rn|]; simpl; [|done].
  change (K.saved_at i (K.set_net rn (K.set_endnames en (to_kv m c))))
    with (saved_at i (set_net rn (set_endnames en c))).
  destruct (saved_at i _) as [sv|]; simpl; [|done]. apply bind_sim; [apply save_new_sim|].
  intros c2. simpl. same_steps.
Qed.

Lemma cleanup_sim c : to_kv m <$> cleanup c = K.cleanup (to_kv m c).
Proof. unfold cleanup, K.cleanup. simpl. same_steps. Qed.

Lemma exec_sim o c : to_kv m <$> exec o c = exec_kv o (to_kv m c).
Proof.
  destruct o; [apply connect_sim|apply disconnect_sim|apply ConnectAll_sim|apply partition_sim|
    apply makeClient_sim|done|apply set_client_sim|apply set_client_sim|apply ShutdownServer_sim|
    apply StartServer_sim|apply cleanup_sim].
Qed.

Lemma make_config_sim k unreliable starts :
  to_kv m <$> make_config k unreliable starts = K.make_config k unreliable m starts.
Proof.
  unfold make_config, K.make_config. apply bind_sim.
  - apply (range_loop_sim (to_kv m)). intros p c. apply StartServer_sim.
  - intros c. apply bind_sim; [apply ConnectAll_sim|]. done.
Qed.

(** [Leader] of the key/value tester asks every server up to the first leader; when it succeeds, that of
    the controller finds the same. *)
Lemma Leader_sim leads c r : K.Leader leads (to_kv m c) = Some r → Leader leads c = Some r.
Proof.
  unfold Leader, K.Leader. simpl. generalize (false, 0) as st. induction (zrange 0 (n c)) as [|i js IH]; intros st; simpl; [done|].
  destruct st.1; simpl; [apply IH|]. destruct (index (servers c) i) as [[s|]|]; simpl; [apply IH|done|done].
Qed.

End sim.

(** The controller's tester does what the key/value tester does: it builds the same cluster, every
    sequence of calls leaves the two in corresponding states, or panics in both, and when [Leader] and
    [make_partition] of the key/value tester succeed those of the controller answer the same. *)
Theorem ctrler_tester_is_kv_tester (m k : Z) (unreliable : bool) (starts : list (list string * positive * sptr))
    (ops : list Op) (c : config) (leads : positive → bool) :
  to_kv m <$> make_config k unreliable starts = K.make_config k unreliable m starts ∧
  to_kv m <$> range_loop exec ops c = range_loop exec_kv ops (to_kv m c) ∧
  (∀ r, K.Leader leads (to_kv m c) = Some r → Leader leads c = Some r) ∧
  (∀ p, K.make_partition leads (to_kv m c) = Some p → make_partition leads c = Some p).
Proof.
  split; [apply make_config_sim|]. split; [apply range_loop_sim, exec_sim|].
  split; [intros r; apply Leader_sim|]. unfold K.make_partition, make_partition.
  intros p (r & Hr & Hp)%bind_Some. by rewrite (Leader_sim m leads c r Hr).
Qed.

(** A server that is shut down does not stop the controller's [Leader]: with the servers numbered in
    [servers] it never panics, and it answers with the first running server that leads. *)
Theorem ctrler_Leader_total (leads : positive → bool) (c : config) :
  zlen (servers c) = n c →
  ∃ found l, Leader leads c = Some (found, l) ∧
    (if found then 0 ≤ l < n c ∧ (∃ s, index (servers c) l = Some (Some s) ∧ leads s = true) ∧
                   (∀ j s, 0 ≤ j < l → index (servers c) j = Some (Some s) → leads s = false)
     else l = 0 ∧ ∀ j s, index (servers c) j = Some (Some s) → leads s = false).
Proof.
  intros Hlen. unfold Leader.
  destruct (range_loop_zrange (λ i (r : bool * Z), if r.1 then Some r else s ← index (servers c) i;
      Some (match s with Some s => if leads s then (true, i) else r | None => r end))
    (λ i r, if r.1 : bool then 0 ≤ r.2 < i ∧ (∃ s, index (servers c) r.2 = Some (Some s) ∧ leads s = true) ∧
                   (∀ j s, 0 ≤ j < r.2 → index (servers c) j = Some (Some s) → leads s = false)
            else r.2 = 0 ∧ ∀ j s, 0 ≤ j < i → index (servers c) j = Some (Some s) → leads s = false)
    (n c) (false, 0)) as ([found l] & Hrun & HP).
  - lia.
  - split; [done|]. intros j s Hj. lia.
  - intros i [[|] l] Hi HP; cbn [fst snd] in *; [eexists; split; [done|]; destruct HP as (? & ? & ?); cbn; split_and!; [lia..|done|done]|].
    destruct (index_total (servers c) i) as [o Ho]; [lia|]. rewrite Ho. cbn. destruct HP as [-> HP].
    eexists; split; [done|]. destruct o as [s|]; [destruct (leads s) eqn:Hs|]; cbn.
    + split; [lia|]. split; [by exists s|done].
    + split; [done|]. intros j s' Hj Hj'. destruct (decide (j = i)) as [->|]; [congruence|]. apply (HP j s'); [lia|done].
    + split; [done|]. intros j s' Hj Hj'. destruct (decide (j = i)) as [->|]; [congruence|]. apply (HP j s'); [lia|done].
  - exists found, l. split; [done|]. destruct found; cbn in *; [done|]. destruct HP as [-> HP]. split; [done|].
    intros j s Hj. apply (HP j s); [|done]. rewrite <-Hlen. by eapply index_lt_Some.
Qed.

Lemma ctrler_Leader_total_witness :
  ∃ found l, Leader (λ s, bool_decide (s = 3%positive))
      (set_servers [Some 1%positive; None; Some 3%positive] (new_config 3)) = Some (found, l) ∧ found = true ∧ l = 2.
Proof.
  destruct (ctrler_Leader_total (λ s, bool_decide (s = 3%positive))
    (set_servers [Some 1%positive; None; Some 3%positive] (new_config 3))) as (found & l & Hl & _); [reflexivity|].
  exists found, l. split; [exact Hl|]. vm_compute in Hl. by simplify_eq.
Defined.

End CtrlerConfigTheorems.
