(* ===== verification/ShardConfig.v ===== *)
(** * The tester of the sharded service: [shardkv/config.go]

    Controller servers and replica groups on one network, with string names.  Random names and new
    objects are arguments; [None] is a panic or a failed test. *)
From S2P Require Import Prelude Graph Labrpc Raft Harness MapReduce MRWorker.


Module ShardConfig.

(** [type group struct]; [saved] holds the content of the persisters. *)
Record group := mkGroup {
  gid : Z;
  servers : list (option positive);
  saved : list (option Persister);
  endnames : Names;
  mendnames : Names
}.

Record config := mkConfig {
  net : Network;
  nctrlers : Z;
  ctrlerservers : list (option positive);
  ngroups : Z;
  n : Z;
  groups : list group;
  clerks : gmap positive (list string);
  nextClientId : Z;
  maxraftstate : Z
}.

Definition set_net rn (c : config) : config :=
  mkConfig rn (nctrlers c) (ctrlerservers c) (ngroups c) (n c) (groups c) (clerks c) (nextClientId c) (maxraftstate c).
Definition set_ctrlerservers l (c : config) : config :=
  mkConfig (net c) (nctrlers c) l (ngroups c) (n c) (groups c) (clerks c) (nextClientId c) (maxraftstate c).
Definition set_groups l (c : config) : config :=
  mkConfig (net c) (nctrlers c) (ctrlerservers c) (ngroups c) (n c) l (clerks c) (nextClientId c) (maxraftstate c).
Definition set_clerks m k (c : config) : config :=
  mkConfig (net c) (nctrlers c) (ctrlerservers c) (ngroups c) (n c) (groups c) m k (maxraftstate c).

(** [ctrlername(i)] and [servername(gid, i)]. *)
Definition ctrlername (i : Z) : string := String.append "ctrler" (Itoa i).
Definition servername (g i : Z) : string :=
  String.append "server-" (String.append (Itoa g) (String.append "-" (Itoa i))).

(** A fresh end that is enabled at once: [MakeEnd], [Connect], [Enable]. *)
Definition open_end (name : string) (server : string) (rn : Network) : option Network :=
  rn' ← make_end name (AStr server) rn; Some (Enable (AStr name) true rn').

(** The loops over [names], with the name of server [j]. *)
Definition open_ends (server : Z → string) (names : list string) (rn : Network) : option Network :=
  range_loop (λ p rn, open_end p.2 (server (Z.of_nat p.1)) rn) (imap pair names) rn.

(** [make_end(servername)], the function the clerks and servers get. *)
Definition make_end_fn (name : string) (server : string) (cfg : config) : option config :=
  rn ← open_end name server (net cfg); Some (set_net rn cfg).

(** [makeClient()]: the names of the ends go into a slice of length [n]. *)
Definition makeClient (ck : positive) (names : list string) (cfg : config) : option config :=
  r ← range_loop (λ p (st : list string * Network),
        en ← set_index st.1 (Z.of_nat p.1) p.2;
        rn ← open_end p.2 (ctrlername (Z.of_nat p.1)) st.2;
        Some (en, rn)) (imap pair names) (replicate (Z.to_nat (n cfg)) EmptyString, net cfg);
  Some (set_clerks (<[ck := r.1]> (clerks cfg)) (nextClientId cfg + 1) (set_net r.2 cfg)).

Definition deleteClient (ck : positive) (cfg : config) : config :=
  set_clerks (delete ck (clerks cfg)) (nextClientId cfg) cfg.

(** [ShutdownServer(gi, i)]. *)
Definition ShutdownServer (gi i : Z) (cfg : config) : option config :=
  gg ← index (groups cfg) gi;
  rn ← range_loop (λ j rn, enable_end (endnames gg) false i j rn) (zrange 0 (zlen (servers gg))) (net cfg);
  row ← index (mendnames gg) i;
  rn ← range_loop (λ s rn, Some (Enable (AStr s) false rn)) (default [] row) rn;
  let rn := DeleteServer (AStr (servername (gid gg) i)) rn in
  sv ← index (saved gg) i;
  svs ← set_index (saved gg) i (Copy <$> sv);
  srvs ← set_index (servers gg) i None;
  gs ← set_index (groups cfg) gi (mkGroup (gid gg) srvs svs (endnames gg) (mendnames gg));
  Some (set_groups gs (set_net rn cfg)).

Definition ShutdownGroup (gi : Z) (cfg : config) : option config :=
  range_loop (λ i cfg, ShutdownServer gi i cfg) (zrange 0 (n cfg)) cfg.

(** What a start of a server takes from outside: names for its peers and the controllers, the new
    instance and the new server object. *)
Record Fresh := mkFresh { f_ends : list string; f_mends : list string; f_kv : positive; f_srv : sptr }.

(** [StartServer(gi, i)]. *)
Definition StartServer (gi i : Z) (f : Fresh) (cfg : config) : option config :=
  gg ← index (groups cfg) gi;
  en ← set_index (endnames gg) i (Some (f_ends f));
  rn ← open_ends (servername (gid gg)) (f_ends f) (net cfg);
  men ← set_index (mendnames gg) i (Some (f_mends f));
  rn ← open_ends ctrlername (f_mends f) rn;
  sv ← index (saved gg) i;
  svs ← set_index (saved gg) i (Some (match sv with Some p => Copy p | None => MakePersister end));
  srvs ← set_index (servers gg) i (Some (f_kv f));
  gs ← set_index (groups cfg) gi (mkGroup (gid gg) srvs svs en men);
  Some (set_groups gs (set_net (AddServer (AStr (servername (gid gg) i)) (f_srv f) rn) cfg)).

Definition StartGroup (gi : Z) (f : Z → Fresh) (cfg : config) : option config :=
  range_loop (λ i cfg, StartServer gi i (f i) cfg) (zrange 0 (n cfg)) cfg.

(** [StartCtrlerserver(i)]. *)
Definition StartCtrlerserver (i : Z) (f : Fresh) (cfg : config) : option config :=
  rn ← open_ends ctrlername (f_ends f) (net cfg);
  cs ← set_index (ctrlerservers cfg) i (Some (f_kv f));
  Some (set_ctrlerservers cs (set_net (AddServer (AStr (ctrlername i)) (f_srv f) rn) cfg)).

(** [shardclerk()]: its ends. *)
Definition shardclerk (names : list string) (cfg : config) : option config :=
  rn ← open_ends ctrlername names (net cfg); Some (set_net rn cfg).

(** The argument [joinm(gis)] passes to the controller, and that of [leavem(gis)]. *)
Definition joinm (gis : list Z) (cfg : config) : option (gmap Z (list string)) :=
  range_loop (λ g m, gg ← index (groups cfg) g;
    Some (<[gid gg := servername (gid gg) <$> zrange 0 (n cfg)]> m)) gis ∅.
Definition leavem (gis : list Z) (cfg : config) : option (list Z) :=
  range_loop (λ g gids, gg ← index (groups cfg) g; Some (gids ++ [gid gg])) gis [].

(** [checklogs()]. *)
Definition checklogs (cfg : config) : option unit :=
  range_loop (λ gi u, range_loop (λ i u,
      gg ← index (groups cfg) gi;
      sv ← index (saved gg) i; p ← sv;
      if (0 <=? maxraftstate cfg) && (8 * maxraftstate cfg <? RaftStateSize p) then None
      else if (maxraftstate cfg <? 0) && (0 <? zlen (ReadSnapshot p)) then None
      else Some u) (zrange 0 (n cfg)) u) (zrange 0 (ngroups cfg)) tt.

(** [make_config(t, n, unreliable, maxraftstate)].  A group's [mendnames] has [nctrlers] rows. *)
Definition new_group (n nctrlers gi : Z) : group :=
  mkGroup (100 + gi) (replicate (Z.to_nat n) None) (replicate (Z.to_nat n) None) (replicate (Z.to_nat n) None)
          (replicate (Z.to_nat nctrlers) None).

Definition make_config (n : Z) (unreliable : bool) (maxraftstate : Z) (fc : Z → Fresh) (mck : list string)
    (fg : Z → Z → Fresh) : option config :=
  let cfg := mkConfig MakeNetwork 3 (replicate 3 None) 0 0 [] ∅ 0 maxraftstate in
  cfg ← range_loop (λ i cfg, StartCtrlerserver i (fc i) cfg) (zrange 0 3) cfg;
  cfg ← shardclerk mck cfg;
  let cfg := mkConfig (net cfg) (nctrlers cfg) (ctrlerservers cfg) 3 n [] ∅ 0 maxraftstate in
  cfg ← range_loop (λ gi cfg,
          let cfg := set_groups (groups cfg ++ [new_group n (nctrlers cfg) gi]) cfg in
          range_loop (λ i cfg, StartServer gi i (fg gi i) cfg) (zrange 0 n) cfg)
          (zrange 0 3) cfg;
  let cfg := set_clerks ∅ (n + 1000) cfg in
  Some (set_net (Reliable (negb unreliable) (net cfg)) cfg).

(** [cleanup()]; [Kill] on a nil controller is a panic. *)
Definition cleanup (cfg : config) : option config :=
  cfg ← range_loop (λ gi cfg, ShutdownGroup gi cfg) (zrange 0 (ngroups cfg)) cfg;
  _ ← range_loop (λ i u, s ← index (ctrlerservers cfg) i; _ ← s; Some u) (zrange 0 (nctrlers cfg)) tt;
  rn ← Cleanup (net cfg); Some (set_net rn cfg).

End ShardConfig.
