(* ===== verification/ShardConfigTheorems.v ===== *)
(** * What the sharded tester can be used for *)
From Stdlib Require Import Ascii.
From S2P Require Import Prelude Graph Labrpc Raft Harness MapReduce MRWorker ShardConfig KVConfig KVConfigTheorems.


Module ShardConfigTheorems.
Import ShardConfig.

(** ** Names *)

(** Servers of all groups, and the controllers, have different names on the network. *)
Lemma servername_inj g i g' i' :
  0 ≤ g → 0 ≤ g' → servername g i = servername g' i' → g = g' ∧ i = i'.
Proof.
  intros Hg Hg' Heq. unfold servername in Heq. apply string_app_inj in Heq.
  apply (sep_inj "-"%char) in Heq as [Hx Hy]; [|by apply Itoa_no_hyphen..]. split; by apply Itoa_inj.
Qed.

Lemma ctrlername_servername i g j : ctrlername i ≠ servername g j.
Proof. unfold ctrlername, servername. intros Heq. discriminate Heq. Qed.

(** ** Starting servers *)

(** A start keeps the number of rows of [mendnames] of its group, and needs one for its server. *)
Lemma StartServer_rows gi i f cfg cfg' gg :
  index (groups cfg) gi = Some gg → StartServer gi i f cfg = Some cfg' →
  i < zlen (mendnames gg) ∧ n cfg' = n cfg ∧
  ∃ gg', index (groups cfg') gi = Some gg' ∧ zlen (mendnames gg') = zlen (mendnames gg).
Proof.
  intros Hg Hs. unfold StartServer in Hs. rewrite Hg in Hs. simpl in Hs.
  repeat match type of Hs with (_ ≫= _) = Some _ => apply bind_Some in Hs as (? & ? & Hs) end. simplify_eq.
  match goal with H : set_index (mendnames gg) i _ = Some _ |- _ =>
    unfold set_index in H; destruct ((0 <=? i) && (i <? zlen (mendnames gg))) eqn:Hr; [|done] end.
  match goal with H : set_index (groups cfg) gi _ = Some _ |- _ =>
    rewrite set_index_Some in H by (by eapply index_lt_Some) end. simplify_eq. simpl.
  split; [lia|]. split; [done|]. pose proof (index_lt_Some _ _ _ Hg).
  eexists. split; [rewrite index_insert by lia; by rewrite decide_True|]. simpl. by rewrite length_insert.
Qed.

(** The loop over the servers of a group stops at the first server without a row. *)
Lemma start_loop_None gi (f : Z → Fresh) i k cfg gg :
  index (groups cfg) gi = Some gg → 0 ≤ i ≤ zlen (mendnames gg) → zlen (mendnames gg) < k →
  range_loop (λ i cfg, StartServer gi i (f i) cfg) (zrange i k) cfg = None.
Proof.
  intros Hg Hi Hk. remember (Z.to_nat (zlen (mendnames gg) - i)) as m eqn:Hm.
  revert i cfg gg Hg Hi Hk Hm. induction m as [|m IH]; intros i cfg gg Hg Hi Hk Hm;
    rewrite zrange_cons by lia; simpl; (destruct (StartServer gi i (f i) cfg) as [cfg'|] eqn:Hs; [|done]);
    destruct (StartServer_rows gi i (f i) cfg cfg' gg Hg Hs) as (Hlt & _ & gg' & Hg' & Hl); simpl; [lia|].
  apply (IH (i + 1) cfg' gg' Hg'); lia.
Qed.

(** The names slice of a client has room for [n] names. *)
Lemma client_loop_None (names : list string) en rn off :
  (length en < off + length names)%nat → (off ≤ length en)%nat →
  range_loop (λ p (st : list string * Network),
        en ← set_index st.1 (Z.of_nat p.1) p.2;
        rn ← open_end p.2 (ctrlername (Z.of_nat p.1)) st.2;
        Some (en, rn)) (imap (λ j s, ((off + j)%nat, s)) names) (en, rn) = None.
Proof.
  revert en rn off. induction names as [|s names IH]; intros en rn off Hlen Hoff; csimpl; [simpl in Hlen; lia|].
  rewrite Nat.add_0_r. destruct (set_index en (Z.of_nat off) s) as [en'|] eqn:Hs; simpl; [|done].
  destruct (open_end s (ctrlername (Z.of_nat off)) rn) as [rn'|]; simpl; [|done].
  unfold set_index in Hs. destruct ((0 <=? Z.of_nat off) && (Z.of_nat off <? zlen en)) eqn:Hr; simplify_eq.
  rewrite <-(IH (<[Z.to_nat (Z.of_nat off) := s]> en) rn' (S off)).
  - f_equal. apply imap_ext. intros j x _. unfold compose. f_equal. lia.
  - rewrite length_insert. simpl in Hlen. lia.
  - rewrite length_insert. lia.
Qed.

(** Starting controllers and the controller's clerk keep the number of controllers. *)
Lemma StartCtrlerserver_nctrlers js (f : Z → Fresh) cfg cfg' :
  range_loop (λ i cfg, StartCtrlerserver i (f i) cfg) js cfg = Some cfg' → nctrlers cfg' = nctrlers cfg.
Proof.
  revert cfg. induction js as [|i js IH]; intros cfg Hl; simpl in Hl; [by simplify_eq|].
  apply bind_Some in Hl as (c1 & H1 & H2). rewrite (IH c1 H2). unfold StartCtrlerserver in H1.
  apply bind_Some in H1 as (rn & _ & H1). apply bind_Some in H1 as (cs & _ & H1). by simplify_eq.
Qed.

Lemma shardclerk_nctrlers names cfg cfg' : shardclerk names cfg = Some cfg' → nctrlers cfg' = nctrlers cfg.
Proof. unfold shardclerk. intros (rn & _ & H)%bind_Some. by simplify_eq. Qed.

(** The sharded tester works with three servers per group only: with more, [make_config] indexes
    [mendnames], which has one row per controller, out of range; with fewer, [makeClient] indexes its
    slice of names, which has one place per server of a group, out of range. *)
Theorem shard_tester_needs_three (n0 : Z) (unreliable : bool) (maxraft : Z) (fc : Z → Fresh) (mck : list string)
    (fg : Z → Z → Fresh) :
  (3 < n0 → make_config n0 unreliable maxraft fc mck fg = None) ∧
  (∀ cfg ck names, 0 ≤ n cfg < 3 → nctrlers cfg = 3 → zlen names = nctrlers cfg → makeClient ck names cfg = None).
Proof.
  split.
  - intros Hn. unfold make_config.
    destruct (range_loop _ (zrange 0 3) _) as [c1|] eqn:H1; simpl; [|done].
    destruct (shardclerk mck c1) as [c2|] eqn:H2; simpl; [|done].
    assert (Hnc : nctrlers c2 = 3) by (by rewrite (shardclerk_nctrlers _ _ _ H2), (StartCtrlerserver_nctrlers _ _ _ _ H1)).
    change (Z.of_nat 0 + 0) with 0. set (c3 := set_groups _ _).
    assert (Hg : index (groups c3) 0 = Some (new_group n0 (nctrlers c2) 0)) by reflexivity.
    rewrite (start_loop_None 0 (fg 0) 0 n0 c3 _ Hg); [done|simpl; lia|]. simpl. rewrite length_replicate. lia.
  - intros cfg ck names Hn Hnc Hl. unfold makeClient.
    rewrite (client_loop_None names _ (net cfg) 0); [done|rewrite length_replicate; lia|lia].
Qed.

(** A result is there when evaluation says so. *)
Lemma computed_is_Some {A} (o : option A) : match o with Some _ => true | None => false end = true → is_Some o.
Proof. by destruct o. Qed.

(** Fresh names for the controllers and the groups of a tester with [n0] servers per group. *)
Definition demo_names (tag k : Z) : list string :=
  (λ j, String.append (Itoa tag) (String.append "." (Itoa j))) <$> zrange 0 k.
Definition demo_ctrler (i : Z) : Fresh := mkFresh (demo_names i 3) [] 1 1%positive.
Definition demo_server (n0 gi i : Z) : Fresh :=
  mkFresh (demo_names (100 + 10 * gi + i) n0) (demo_names (200 + 10 * gi + i) 3) 1 1%positive.
Definition demo_config (n0 : Z) : option config :=
  make_config n0 false 1000 demo_ctrler (demo_names 3 3) (demo_server n0).

Lemma demo_config_two : n <$> demo_config 2 = Some 2 ∧ nctrlers <$> demo_config 2 = Some 3.
Proof. split; vm_compute; reflexivity. Qed.

Lemma shard_tester_needs_three_witness :
  (is_Some (demo_config 3) ∧ is_Some (demo_config 3 ≫= makeClient 1 (demo_names 4 3))) ∧
  demo_config 4 = None ∧
  (is_Some (demo_config 2) ∧ demo_config 2 ≫= makeClient 1 (demo_names 4 3) = None).
Proof.
  split; [split; apply computed_is_Some; vm_compute; reflexivity|]. split.
  - unfold demo_config.
    exact (proj1 (shard_tester_needs_three 4 false 1000 demo_ctrler (demo_names 3 3) (demo_server 4)) eq_refl).
  - split; [apply computed_is_Some; vm_compute; reflexivity|].
    pose proof demo_config_two as [Hn Hnc]. destruct (demo_config 2) as [cfg|]; [|reflexivity].
    apply (inj Some) in Hn, Hnc.
    apply (shard_tester_needs_three 2 false 1000 demo_ctrler [] (demo_server 2)); [lia|exact Hnc|by rewrite Hnc].
Defined.

End ShardConfigTheorems.
